(* ===== verification/_CoqProject ===== *)
-Q . S2P
Prelude.v
Numeric.v
Sync.v
Rings.v
ShmQueue.v
Fifo.v
FifoConcurrent.v
RealTime.v
RealTimeConcurrent.v
PoolAllocator.v
FixedString.v
Vector.v
VectorTests.v
Iterators.v
ShmAllocator.v
ChunkAllocator.v
Errors.v
Os.v
SharedMemory.v
FileLock.v
Windows.v
Registry.v
Guards.v
DomainSocket.v
Observer.v
Service.v
RealTimeTopic.v
Logging.v
