(* ===== verification/Prelude.v ===== *)
(** A verification development for ipcpp: shared memory, publish/subscribe, events
    and containers for communication between processes.  This file is its prelude; this
    comment documents the whole development.

    * The program and its model

    ipcpp is a library of C++ headers and a few source files.  From the bottom up:

    - integer utilities ([utils/numeric.h], [utils/utils.h], [utils/system.h],
      [utils/atomic.h], [types.h]): [Numeric];
    - locks in shared memory ([utils/mutex.h]): [Sync].  One step of a thread is one
      access to the atomic word; the class [RwLock] says what a lock is and
      [RwLockLaws] what it promises, mutual exclusion is proved once from the laws;
    - containers in memory given by the caller ([stl/fixed_size_queue.h],
      [stl/fixed_size_stack.h], [shm/ring_buffer.h]) and the layout that puts a header in
      front of a ring ([event/shm_notification_memory_layout.h]): [Rings]; the unfinished
      queue of [shm/queue.h]: [ShmQueue];
    - allocators of a region of shared memory: the pool allocator of the containers
      ([stl/allocator.h], [stl/alloc_traits.h]) in [PoolAllocator], the first-fit
      allocator ([shm/allocator.h], [utils/linked_list.h]) in [ShmAllocator], the chunk
      allocator and its list ([shm/chunk_allocator.h], [shm/datatypes/list.h]) in
      [ChunkAllocator];
    - the string of fixed capacity ([stl/fixed_size/basic_string.h]): [FixedString], and
      the vector ([stl/vector.h]): [Vector], which is proved against the class
      [AllocatorLaws]; the pool allocator satisfies it.  Its iterators
      ([stl/ipcpp_iterator.h]) are in [Iterators], and [VectorTests] evaluates the
      library's own tests of it on the model;
    - object lifetime and sharing in one process ([stl/optional.h],
      [utils/reference_counted.h], [utils/synchronized.h], [utils/string_identifier.h],
      [utils/io.h]): [Guards];
    - error enumerations, their categories and printers ([shm/error.h], [event/error.h],
      [publish_subscribe/error.h], [publish_subscribe/error_codes.h],
      [publish_subscribe/real_time/error_codes.h], [types.cpp]): [Errors];
    - what talks to the operating system.  [Os] is the language of programs with system
      calls; [SharedMemory] are shared memory files and their mappings
      ([shm/shared_memory_file.h], [shm/mapped_memory.h] and the files of [src/shm]),
      [FileLock] the locks on files ([utils/file_lock.h], [utils/ip_lock.h]),
      [Registry] the map of segments with the runtime's global pool and the atomic
      notifier ([topic.h], [src/topic.cpp], [ipcpp.h], [event/shm_atomic_notifier.h],
      [event/shm_atomic_observer.h]), [DomainSocket] the notifier over sockets and the
      base of observers ([event/domain_socket_notifier.h], [event/observer.h],
      [event/notification.h]), [Observer] the observer over sockets
      ([event/domain_socket_observer.h]) and the two of them connected, and [Windows] the
      variants for Windows of the files and locks;
    - the transports on top: [Fifo], every subscriber sees every message
      ([publish_subscribe/fifo_seq]), and [RealTime], subscribers see the latest one
      ([publish_subscribe/real_time], [publish_subscribe/options.h]), by whole calls;
      [FifoConcurrent] and [RealTimeConcurrent] take the calls apart into their accesses to
      shared memory and show that an uninterrupted call is the whole one; [Service] runs
      their [create] functions on what the registry returns, and [RealTimeTopic] lets
      publishers and subscribers of a real-time topic join one after the other;
    - logging ([utils/logging.h]): [Logging].

    A structure of the sources is a [Record] with its fields, an operation a
    [Definition] with the name of the function, often behind a prefix for its class
    ([q_push], [vec_insert_fill], [mm_destroy]).  A comment starting with @source in
    front of a definition gives the file, the lines and the symbol it translates.

    * How code is modelled

    - A machine integer of w bits is a [Z]; [wrap w] and [swrap w] are written wherever
      the code can overflow ([u64], [i64] and so on).
    - Code that can throw or run into undefined behaviour returns an [outcome];
      [std::expected] is [expected].  Memory is a list or finite map whose accesses
      go through [must], so that leaving an array is [UB] and has to be excluded.
    - Concurrent code is a step function of one thread with a state of all threads, and the
      theorems speak of every interleaving ([Sync], [Fifo], [RealTime],
      [ChunkAllocator], [Guards.synchronized]).  A step is an access to shared memory
      in [Sync], [FifoConcurrent], [RealTimeConcurrent] and [ChunkAllocator], a part of a
      call in [Fifo] and [RealTime]; memory is sequentially consistent, and a plain access
      that races is not undefined.  Spurious failures of weak compare-and-exchange are inputs.
    - System calls are nodes of a tree ([Os.prog]); the operating system is any
      function that answers them.  A statement about a run holds for all of them; what a
      theorem takes from POSIX is a named predicate on the history
      ([SharedMemory.posix_mmap], [DomainSocket.fresh_accepts]).
    - Two processes that talk to each other are two programs with a kernel between them.
      The kernel is a parameter too: any state that satisfies the rules of
      [Observer.StreamSockets], which are those of the manual pages for stream sockets, buffers
      that are full included.  [Observer.world] is the notifier with a connection,
      [Observer.interleave] runs an observer's program in it with the notifier's
      operations at given places.
    - The locks between processes are a parameter of [RealTimeTopic]: [EntryLocks] says what
      [fcntl] promises, that one file is locked by one process at a time and that a process
      is given again what it has.
    - [Fifo.step_with] has the failure of a lock as an input; [Fifo.run] are the runs in which
      no attempt to take a slot's lock fails.  [FifoConcurrent] has it in every step.
    - What the sources take from elsewhere is a parameter: the elements of containers, the
      value left in a moved-from string, the directory for temporary files, the
      callback's and the implementation's part of [receive], the values of the errors
      [Observer] names, which the sources declare nowhere.

    * What is proved

    - Refinement: the queue, the stack, the string, the vector, the allocators and the two
      transports behave like a bounded list, a list, a set of disjoint blocks, a log
      and a register, for any sequence of operations, errors included; [synchronized] is
      linearizable; the file lock's operations end in the state their name says; an
      observer connected to a notifier is a queue of notifications that can be paused, and
      stops the notifier when its buffer is full.
    - Composition: a topic created through the registry delivers to the subscribers of its
      own and of other processes ([Service.topic_delivers]); a real-time topic is a
      register from its first publisher on, whoever joins when, as long as no process
      joins twice ([RealTimeTopic.real_time_topic_refines_register]).
    - The message queue access by access: in every interleaving nobody reads a message that
      is being written, and a subscriber gets its message or a later one in its place
      ([FifoConcurrent.fifo_concurrent_safe]); an uninterrupted call is the one of [Fifo];
      refused accesses can use up a slot for ever ([FifoConcurrent.fifo_slot_lost]).
    - Real-time messages access by access: the reference counters are exact in every
      interleaving ([RealTimeConcurrent.real_time_counts_exact]), and yet do not protect a
      message from a subscriber that comes late ([RealTimeConcurrent.real_time_races]).
    - Safety of locks: [mutex], [shared_mutex] and [shared_futex] exclude each other's
      holders in every interleaving, [futex] does not.
    - Resources: descriptors and mappings are conserved by opening, creating, moving and
      destroying a mapped memory, whatever calls fail, on Linux and on Windows; an observer
      closes its descriptor, except one it has overwritten; every client of the notifier is an
      automaton of its own and its descriptor is closed exactly when it is gone; the
      registry is a cache.
    - Termination and liveness: search in strings and the request loops of the notifier end
      within a number of rounds that is given, the atomic notifier wakes its observer
      at the first notification that changes the counter.
    - Types: the integers the headers choose, and when they refuse to compile
      ([Numeric.library_types_sound]).
    - Arithmetic: powers of two, alignment, layouts of segments, and where they wrap.
    - Round trip: an error is read back from its category and message.
    - Where the code does not do what it means to, the theorem states what it does
      ([Vector.vector_insert_loses], [Vector.vector_erase_misplaces],
      [PoolAllocator.pool_request_wraps], [RealTime.real_time_notify_race],
      [RealTimeTopic.same_process_same_entry],
      [ChunkAllocator.concurrent_allocations], [FifoConcurrent.fifo_races],
      [Registry.registry_probe_removes_name],
      [Guards.reference_counted_serves_half], [Observer.subscription_race] and others).

    * Bounds and fuel

    Loops over a structure of the model are structural.  Where the code loops until
    something happens, the function has a fuel argument, runs out visibly ([None] or
    [UB]) and a theorem gives an amount that is enough: one more than the capacity
    for [FixedString.fs_find], the length of the chunk list for the coalescing of
    [ShmAllocator] and [PoolAllocator], clients plus idle requests for
    [DomainSocket.request_loop].  Loops that wait for another process are steps or take
    the list of values they observe.

    * Not modelled

    [shm/memory_block.h] does not compile (it includes a header that does not exist); the publisher and subscriber of [fifo_seq] over a notifier call
    members that do not exist.  [stl/fixed_size/container_base.h] declares a destructor
    that is defined nowhere.  The calls of logging functions in the components are
    left out, and so is spdlog behind them.  The Windows variants are modelled on their
    own: the library does not build for Windows (the common part of [shared_memory_file]
    calls the POSIX [close]).  Concepts, platform macros, tags and the headers that declare
    nothing ([pipe], most of [stl]) have no behaviour; examples, benchmarks and tests are
    programs that use the library (those of the vector over integers are evaluated in
    [VectorTests]).  Time is not modelled: sleeping is left out and a
    timeout is the number of attempts; where the code reads a clock ([RealTime]), what it
    reads is an input. *)
From Stdlib Require Export ZArith Lia.
From stdpp Require Export base tactics numbers list gmap strings.

(** * Outcomes of C++ code

    A run of a C++ function returns a value, throws one of the standard
    exceptions the sources throw (or ends in [std::terminate]), or has undefined behaviour (an access outside
    an array, a shift past the width, a failed assertion).  The monad sequences
    them and is executable. *)
Inductive exn : Type :=
| out_of_range
| length_error
| bad_alloc
| runtime_error
| bad_optional_access
| system_error (errno : Z)
| terminate.

Inductive outcome (A : Type) : Type :=
| Ok (a : A)
| Throw (e : exn)
| UB.
Arguments Ok {A} a.
Arguments Throw {A} e.
Arguments UB {A}.

#[export] Instance outcome_ret : MRet outcome := fun _ a => Ok a.
#[export] Instance outcome_bind : MBind outcome := fun _ _ k m =>
  match m with
  | Ok a => k a
  | Throw e => Throw e
  | UB => UB
  end.
#[export] Instance outcome_fmap : FMap outcome := fun _ _ f m =>
  match m with
  | Ok a => Ok (f a)
  | Throw e => Throw e
  | UB => UB
  end.

(** [std::expected<A, E>]. *)
Inductive expected (A E : Type) : Type :=
| Expected (a : A)
| Unexpected (e : E).
Arguments Expected {A E} a.
Arguments Unexpected {A E} e.

(** An access that must be in range: outside it the code has undefined
    behaviour. *)
Definition must {A} (o : option A) : outcome A :=
  match o with Some a => Ok a | None => UB end.

(** [assert] of a condition the code relies on. *)
Definition require (b : bool) : outcome unit := if b then Ok tt else UB.

Lemma must_Some {A} (o : option A) a : must o = Ok a <-> o = Some a.
Proof. destruct o; simpl; split; congruence. Qed.

Lemma bind_Ok {A B} (m : outcome A) (k : A -> outcome B) b :
  mbind k m = Ok b <-> exists a, m = Ok a /\ k a = Ok b.
Proof.
  split.
  - destruct m; simpl; intros H; try discriminate H. by exists a.
  - intros (a & -> & H). exact H.
Qed.

(** * Machine integers

    A w-bit unsigned integer is a [Z] in [0, 2^w); [wrap] is the conversion
    modulo 2^w that C++ unsigned arithmetic performs, [swrap] the one of a
    two's complement signed integer. *)
Declare Scope ipc_scope.
Delimit Scope ipc_scope with ipc.
Open Scope Z_scope.

Definition wrap (w x : Z) : Z := x mod 2 ^ w.
Definition swrap (w x : Z) : Z := (x + 2 ^ (w - 1)) mod 2 ^ w - 2 ^ (w - 1).
Abbreviation u64 := (wrap 64).
Abbreviation u32 := (wrap 32).
Abbreviation i64 := (swrap 64).
Abbreviation i32 := (swrap 32).

(** [std::numeric_limits<T>::max()] of an unsigned type. *)
Definition umax (w : Z) : Z := 2 ^ w - 1.

Lemma wrap_range w x : 0 <= w -> 0 <= wrap w x < 2 ^ w.
Proof. intros. apply Z.mod_pos_bound. apply Z.pow_pos_nonneg; lia. Qed.

Lemma wrap_small w x : 0 <= x < 2 ^ w -> wrap w x = x.
Proof. apply Z.mod_small. Qed.

Lemma wrap_wrap w x : wrap w (wrap w x) = wrap w x.
Proof. apply Zmod_mod. Qed.

Lemma swrap_small w x : 1 <= w -> - 2 ^ (w - 1) <= x < 2 ^ (w - 1) -> swrap w x = x.
Proof.
  intros Hw Hx. unfold swrap.
  assert (2 ^ w = 2 * 2 ^ (w - 1)).
  { replace w with (Z.succ (w - 1)) at 1 by lia. rewrite Z.pow_succ_r; lia. }
  rewrite Z.mod_small; lia.
Qed.

Lemma u64_small x : 0 <= x < 18446744073709551616 -> u64 x = x.
Proof. apply (wrap_small 64). Qed.
Lemma u32_small x : 0 <= x < 4294967296 -> u32 x = x.
Proof. apply (wrap_small 32). Qed.
Lemma i64_small x : -9223372036854775808 <= x < 9223372036854775808 -> i64 x = x.
Proof. intros. apply swrap_small; simpl; lia. Qed.

#[global] Arguments Z.eqb !_ !_ : simpl nomatch.
#[global] Arguments Z.leb !_ !_ : simpl nomatch.
#[global] Arguments Z.ltb !_ !_ : simpl nomatch.
#[global] Arguments Z.geb !_ !_ : simpl nomatch.
#[global] Arguments Z.gtb !_ !_ : simpl nomatch.

(** * Arrays indexed by machine integers *)
Definition zlookup {A} (l : list A) (i : Z) : option A :=
  if 0 <=? i then l !! Z.to_nat i else None.
Definition zinsert {A} (l : list A) (i : Z) (x : A) : option (list A) :=
  if (0 <=? i) && (i <? Z.of_nat (length l)) then Some (<[Z.to_nat i := x]> l) else None.
Definition zlen {A} (l : list A) : Z := Z.of_nat (length l).

Lemma zlen_nonneg {A} (l : list A) : 0 <= zlen l.
Proof. unfold zlen; lia. Qed.

Lemma zlen_nil {A} : zlen (@nil A) = 0.
Proof. done. Qed.
Lemma zlen_cons {A} (x : A) l : zlen (x :: l) = zlen l + 1.
Proof. unfold zlen. simpl length. lia. Qed.
Lemma zlen_app {A} (l k : list A) : zlen (l ++ k) = zlen l + zlen k.
Proof. unfold zlen. rewrite length_app. lia. Qed.
Lemma zlen_replicate {A} n (x : A) : 0 <= n -> zlen (replicate (Z.to_nat n) x) = n.
Proof. unfold zlen. rewrite length_replicate. lia. Qed.

Lemma zlookup_lt {A} (l : list A) i x : zlookup l i = Some x -> 0 <= i < zlen l.
Proof.
  unfold zlookup, zlen. destruct (Z.leb_spec 0 i); [|done].
  intros ?%lookup_lt_Some. lia.
Qed.

Lemma zlookup_is_Some {A} (l : list A) i : 0 <= i < zlen l -> is_Some (zlookup l i).
Proof.
  unfold zlookup, zlen. intros. destruct (Z.leb_spec 0 i); [|lia].
  apply lookup_lt_is_Some. lia.
Qed.

Lemma zlookup_None {A} (l : list A) i : ~ (0 <= i < zlen l) -> zlookup l i = None.
Proof.
  unfold zlookup, zlen. intros. destruct (Z.leb_spec 0 i); [|done].
  apply lookup_ge_None. lia.
Qed.

Lemma zinsert_Some {A} (l : list A) i x l' :
  zinsert l i x = Some l' <-> 0 <= i < zlen l /\ l' = <[Z.to_nat i := x]> l.
Proof.
  unfold zinsert, zlen.
  destruct (Z.leb_spec 0 i), (Z.ltb_spec i (Z.of_nat (length l))); simpl;
    (split; [intros [=]|intros [? ?]]; try lia; try (split; [lia|congruence]); by subst).
Qed.

Lemma zinsert_in {A} (l : list A) i x :
  0 <= i < zlen l -> zinsert l i x = Some (<[Z.to_nat i := x]> l).
Proof. intros. by apply zinsert_Some. Qed.

Lemma zinsert_out {A} (l : list A) i x : ~ (0 <= i < zlen l) -> zinsert l i x = None.
Proof.
  intros H. destruct (zinsert l i x) eqn:E; [|done].
  apply zinsert_Some in E. tauto.
Qed.

Lemma zlen_insert {A} (l : list A) n x : zlen (<[n := x]> l) = zlen l.
Proof. unfold zlen. by rewrite length_insert. Qed.

Lemma zlookup_insert {A} (l : list A) i j x :
  0 <= i < zlen l ->
  zlookup (<[Z.to_nat i := x]> l) j = if decide (i = j) then Some x else zlookup l j.
Proof.
  unfold zlookup, zlen. intros Hi. destruct (Z.leb_spec 0 j).
  - destruct (decide (i = j)) as [->|].
    + apply list_lookup_insert_eq. lia.
    + apply list_lookup_insert_ne. lia.
  - by rewrite decide_False by lia.
Qed.

Lemma to_nat_zlen {A} (l : list A) : Z.to_nat (zlen l) = length l.
Proof. unfold zlen. apply Nat2Z.id. Qed.

Lemma zlookup_nat {A} (l : list A) i : zlookup l (Z.of_nat i) = l !! i.
Proof. unfold zlookup. rewrite (proj2 (Z.leb_le _ _)), Nat2Z.id by lia. done. Qed.

Lemma zlookup_zlen {A B} (l : list A) (k : list B) : zlookup l (zlen k) = l !! length k.
Proof. apply zlookup_nat. Qed.

Create Rewrite HintDb ipc_len.
#[export] Hint Rewrite @zlen_insert @length_insert @length_app @length_replicate
  @length_take @length_drop : ipc_len.

(** * Tactics *)

(** Case analysis on every boolean comparison of the goal and hypotheses. *)
Ltac bcase :=
  repeat match goal with
  | |- context [?a =? ?b] => destruct (Z.eqb_spec a b)
  | |- context [?a <? ?b] => destruct (Z.ltb_spec a b)
  | |- context [?a <=? ?b] => destruct (Z.leb_spec a b)
  | |- context [?a >=? ?b] => rewrite (Z.geb_leb a b)
  | |- context [?a >? ?b] => rewrite (Z.gtb_ltb a b)
  | H : context [?a =? ?b] |- _ => destruct (Z.eqb_spec a b)
  | H : context [?a <? ?b] |- _ => destruct (Z.ltb_spec a b)
  | H : context [?a <=? ?b] |- _ => destruct (Z.leb_spec a b)
  | H : context [?a >=? ?b] |- _ => rewrite (Z.geb_leb a b) in H
  | H : context [?a >? ?b] |- _ => rewrite (Z.gtb_ltb a b) in H
  end; simpl in *.

(** [bcase] restricted to the goal. *)
Ltac gcase :=
  repeat match goal with
  | |- context [?a >=? ?b] => rewrite (Z.geb_leb a b)
  | |- context [?a >? ?b] => rewrite (Z.gtb_ltb a b)
  | |- context [?a =? ?b] => destruct (Z.eqb_spec a b)
  | |- context [?a <? ?b] => destruct (Z.ltb_spec a b)
  | |- context [?a <=? ?b] => destruct (Z.leb_spec a b)
  end; simpl.

Lemma Forall2_list_delete {A B} (P : A -> B -> Prop) l k i :
  Forall2 P l k -> Forall2 P (delete i l) (delete i k).
Proof. intros H. rewrite !delete_take_drop. apply Forall2_app; [by apply Forall2_take|by apply Forall2_drop]. Qed.

(** * Counting in lists *)
Section count.
Context {A : Type}.

Fixpoint count (P : A -> bool) (l : list A) : Z :=
  match l with
  | [] => 0
  | x :: l' => (if P x then 1 else 0) + count P l'
  end.

Lemma count_nonneg P l : 0 <= count P l.
Proof. induction l; simpl; [lia|]. destruct (P a); lia. Qed.

Lemma count_le_length P l : count P l <= zlen l.
Proof. unfold zlen. induction l; simpl; [lia|]. destruct (P a); lia. Qed.

Lemma count_app P l k : count P (l ++ k) = count P l + count P k.
Proof. induction l; simpl; lia. Qed.

Lemma count_insert P (l : list A) i x y :
  l !! i = Some x ->
  count P (<[i := y]> l) = count P l - (if P x then 1 else 0) + (if P y then 1 else 0).
Proof.
  revert i. induction l as [|a l IH]; intros [|i]; simpl; intros H; try done.
  - injection H as ->. lia.
  - rewrite (IH _ H). lia.
Qed.

Lemma count_lookup P (l : list A) i x : l !! i = Some x -> P x = true -> 1 <= count P l.
Proof.
  revert i. induction l as [|a l IH]; intros [|i]; simpl; intros H HP; try done.
  - injection H as ->. rewrite HP. pose proof (count_nonneg P l). lia.
  - pose proof (IH _ H HP). destruct (P a); lia.
Qed.

(** Two different positions satisfying [P] are counted twice. *)
Lemma count_lookup_two P (l : list A) i j x y :
  i <> j -> l !! i = Some x -> l !! j = Some y ->
  P x = true -> P y = true -> 2 <= count P l.
Proof.
  revert i j. induction l as [|a l IH]; intros [|i] [|j]; simpl; intros Hij Hi Hj HPx HPy; try done.
  - injection Hi as ->. rewrite HPx. pose proof (count_lookup P l j y Hj HPy). lia.
  - injection Hj as ->. rewrite HPy. pose proof (count_lookup P l i x Hi HPx). lia.
  - assert (i <> j) by congruence.
    pose proof (IH i j ltac:(done) Hi Hj HPx HPy). destruct (P a); lia.
Qed.

Lemma count_ext P Q (l : list A) : (forall x, x ∈ l -> P x = Q x) -> count P l = count Q l.
Proof.
  induction l as [|a l IH]; intros H; [done|]. simpl.
  rewrite H by set_solver. rewrite IH; [done|]. intros x Hx. apply H. set_solver.
Qed.

Lemma count_mono P Q (l : list A) :
  (forall x, x ∈ l -> P x = true -> Q x = true) -> count P l <= count Q l.
Proof.
  induction l as [|a l IH]; intros H; simpl; [lia|].
  assert (count P l <= count Q l) by (apply IH; set_solver).
  specialize (H a ltac:(set_solver)). destruct (P a), (Q a); (lia || naive_solver).
Qed.

Lemma count_lt P Q (l : list A) i x :
  (forall x, x ∈ l -> P x = true -> Q x = true) -> l !! i = Some x -> P x = false -> Q x = true ->
  count P l < count Q l.
Proof.
  revert i. induction l as [|a l IH]; intros [|i] H Hi HP HQ; simpl in *; try done.
  - injection Hi as ->. rewrite HP, HQ.
    assert (count P l <= count Q l) by (apply count_mono; set_solver). lia.
  - assert (count P l < count Q l) by (eapply IH; set_solver).
    specialize (H a ltac:(set_solver)). destruct (P a), (Q a); (lia || naive_solver).
Qed.

Lemma count_zero P (l : list A) : (count P l =? 0) = negb (existsb P l).
Proof.
  induction l as [|a l IH]; [done|]. simpl. destruct (P a); simpl.
  - pose proof (count_nonneg P l). apply Z.eqb_neq. lia.
  - done.
Qed.

Lemma existsb_lookup P (l : list A) : existsb P l = false -> forall i x, l !! i = Some x -> P x = false.
Proof.
  induction l as [|a l IH]; simpl; intros H i x Hi; [done|].
  apply orb_false_elim in H as [Ha Hl]. destruct i; simpl in Hi; [by simplify_eq|by eapply IH].
Qed.
End count.

(** * Sums over lists *)
Lemma take_zlen {A} (l : list A) : take (Z.to_nat (zlen l)) l = l.
Proof. unfold zlen. rewrite Nat2Z.id. by apply take_ge. Qed.

Section zsum.
Context {A : Type}.

Fixpoint zsum (f : A -> Z) (l : list A) : Z :=
  match l with
  | [] => 0
  | x :: l' => f x + zsum f l'
  end.

Lemma zsum_insert f (l : list A) i x y :
  l !! i = Some x -> zsum f (<[i := y]> l) = zsum f l - f x + f y.
Proof.
  revert i. induction l as [|a l IH]; intros [|i]; simpl; intros H; try done.
  - injection H as ->. lia.
  - rewrite (IH _ H). lia.
Qed.

Lemma zsum_nonneg f (l : list A) : (forall x, x ∈ l -> 0 <= f x) -> 0 <= zsum f l.
Proof.
  induction l as [|a l IH]; intros H; simpl; [lia|].
  pose proof (H a ltac:(set_solver)). assert (0 <= zsum f l) by (apply IH; set_solver). lia.
Qed.

Lemma zsum_ge f (l : list A) i x :
  (forall x, x ∈ l -> 0 <= f x) -> l !! i = Some x -> f x <= zsum f l.
Proof.
  revert i. induction l as [|a l IH]; intros [|i] H Hi; simpl in *; try done.
  - injection Hi as ->. assert (0 <= zsum f l) by (apply zsum_nonneg; set_solver). lia.
  - pose proof (H a ltac:(set_solver)). assert (f x <= zsum f l) by (eapply IH; set_solver). lia.
Qed.

Lemma zsum_le f g (l : list A) : (forall x, x ∈ l -> f x <= g x) -> zsum f l <= zsum g l.
Proof.
  induction l as [|a l IH]; intros H; simpl; [lia|].
  pose proof (H a ltac:(set_solver)). assert (zsum f l <= zsum g l) by (apply IH; set_solver). lia.
Qed.

Lemma zsum_app f (l l' : list A) : zsum f (l ++ l') = zsum f l + zsum f l'.
Proof. induction l as [|a l IH]; cbn; [done|]. rewrite IH. lia. Qed.

Lemma zsum_const (c : Z) (l : list A) : zsum (fun _ => c) l = c * zlen l.
Proof.
  induction l as [|a l IH]; simpl; [unfold zlen; simpl; lia|].
  rewrite zlen_cons, IH, Z.mul_add_distr_l. lia.
Qed.

Lemma zsum_ext f g (l : list A) : (forall x, x ∈ l -> f x = g x) -> zsum f l = zsum g l.
Proof.
  induction l as [|a l IH]; intros H; simpl; [done|].
  rewrite (H a) by set_solver. rewrite IH; [done|set_solver].
Qed.

Lemma zsum_add f g (l : list A) : zsum (fun x => f x + g x) l = zsum f l + zsum g l.
Proof. induction l; simpl; lia. Qed.

Lemma zsum_exists_zero f (l : list A) :
  (forall x, x ∈ l -> 0 <= f x) -> zsum f l < zlen l -> exists x, x ∈ l /\ f x = 0.
Proof.
  induction l as [|a l IH]; intros Hnn Hlt; simpl in Hlt.
  { unfold zlen in Hlt. simpl in Hlt. lia. }
  rewrite zlen_cons in Hlt. pose proof (Hnn a ltac:(set_solver)).
  destruct (decide (f a = 0)) as [|Hne]; [exists a; set_solver|].
  destruct IH as (x & Hx & Hf); [set_solver|lia|exists x; set_solver].
Qed.

Lemma zsum_single f (l : list A) i :
  (forall j x, l !! j = Some x -> 0 <= f x <= 1) -> (forall j x, l !! j = Some x -> j <> i -> f x = 0) ->
  zsum f l <= 1.
Proof.
  revert i. induction l as [|a l IH]; intros i Hb H0; simpl; [lia|].
  pose proof (Hb 0%nat a eq_refl). destruct i as [|i].
  - assert (zsum f l <= 0); [|lia].
    assert (zsum f l <= zsum (fun _ => 0) l) as Hz.
    { apply zsum_le. intros x [j Hj]%list_elem_of_lookup_1. rewrite (H0 (S j) x Hj); [lia|done]. }
    rewrite zsum_const in Hz. lia.
  - rewrite (H0 0%nat a eq_refl) by done.
    assert (zsum f l <= 1); [|lia]. apply (IH i).
    + intros j x Hj. apply (Hb (S j) x Hj).
    + intros j x Hj Hne. apply (H0 (S j) x Hj). congruence.
Qed.
End zsum.

Lemma zsum_swap {A B} (f : A -> B -> Z) (l : list A) (k : list B) :
  zsum (fun x => zsum (f x) k) l = zsum (fun y => zsum (fun x => f x y) l) k.
Proof.
  induction l as [|a l IH]; simpl.
  - symmetry. rewrite (zsum_const 0). lia.
  - rewrite IH. by rewrite <- zsum_add.
Qed.

Lemma count_zsum {A} P (l : list A) : count P l = zsum (fun x => if P x then 1 else 0) l.
Proof. induction l; simpl; lia. Qed.

(** A number occurs at most once among the numbers from [a] on. *)
Lemma zsum_seqZ_eqb a n x : 0 <= zsum (fun i => if i =? x then 1 else 0) (seqZ a n) <= 1.
Proof.
  destruct (Z.le_gt_cases n 0).
  { rewrite seqZ_nil by lia. simpl. lia. }
  rewrite <- (Z2Nat.id n) by lia. generalize (Z.to_nat n) as m. intros m. clear H n.
  revert a. induction m as [|m IH]; intros a.
  { rewrite seqZ_nil by lia. simpl. lia. }
  rewrite seqZ_cons by lia. simpl.
  replace (Z.pred (Z.of_nat (S m))) with (Z.of_nat m) by lia.
  pose proof (IH (Z.succ a)).
  destruct (Z.eqb_spec a x) as [->|]; [|lia].
  assert (zsum (fun i => if i =? x then 1 else 0) (seqZ (Z.succ x) (Z.of_nat m)) <= zsum (fun _ => 0) (seqZ (Z.succ x) (Z.of_nat m))) as Hz.
  { apply zsum_le. intros i Hi. apply elem_of_seqZ in Hi. gcase; lia. }
  rewrite (zsum_const 0) in Hz. lia.
Qed.

(** * Removing an element of a list *)
Lemma filter_ne_id {A} `{EqDecision A} (i : A) (l : list A) : i ∉ l -> filter (fun j => j <> i) l = l.
Proof.
  induction l as [|x l IH]; intros Hi; [done|]. rewrite filter_cons_True by set_solver. rewrite IH by set_solver. done.
Qed.

Lemma filter_ne_perm {A} `{EqDecision A} (i : A) (l : list A) : i ∈ l -> NoDup l -> i :: filter (fun j => j <> i) l ≡ₚ l.
Proof.
  intros (l1 & l2 & ->)%list_elem_of_split Hd. apply NoDup_app in Hd as (Hd1 & Hd2 & Hd3). apply NoDup_cons in Hd3 as [Hd3 _].
  rewrite filter_app, filter_cons_False by tauto. rewrite !filter_ne_id; [apply Permutation_middle|done|set_solver].
Qed.
