(* ===== verification/Numeric.v ===== *)
(** Integer utilities: [include/ipcpp/utils/numeric.h] (leading zeros, powers of
    two, half-size types), [utils/utils.h] and [utils/system.h] (alignment) and
    the choice of the library's integer types ([utils/atomic.h], [types.h]). *)
From S2P Require Import Prelude.

(** * numeric.h *)

(** The three preprocessor branches of [count_leading_zero]. *)
Inductive compiler : Type := GNUC | MSVC | OtherCompiler.

(** The portable branch: shift a one-bit mask down until it meets a set bit.
    [fuel] bounds the loop; [count_leading_zero_loop_fuel] shows [w] is enough. *)
(* @source include/ipcpp/utils/numeric.h 48-55 count_leading_zero *)
Fixpoint clz_loop (fuel : nat) (v mask count : Z) : option Z :=
  match fuel with
  | O => None
  | S fuel' =>
      if Z.land v mask =? 0 then clz_loop fuel' v (Z.shiftr mask 1) (count + 1)
      else Some count
  end.

(** [T_p] is the unsigned type of [w] bits.  GNU builtins exist for the 32 and
    64 bit types only and are undefined at 0; the narrower types leave the
    function without a return.  [_BitScanReverse] yields the index of the highest
    set bit and the 8 and 16 bit types use the 32 bit scan. *)
(* @source include/ipcpp/utils/numeric.h 17-57 count_leading_zero *)
Definition count_leading_zero (c : compiler) (w v : Z) : outcome Z :=
  match c with
  | GNUC =>
      if (w =? 32) || (w =? 64) then
        if v =? 0 then UB else Ok (w - 1 - Z.log2 v)
      else UB
  | MSVC =>
      if v =? 0 then UB
      else if w <=? 32 then Ok (32 - 1 - Z.log2 v)
      else Ok (64 - 1 - Z.log2 v)
  | OtherCompiler =>
      if v =? 0 then Ok w
      else must (clz_loop (Z.to_nat w) v (Z.shiftl 1 (w - 1)) 0)
  end.

(* @source include/ipcpp/utils/numeric.h 59-67 is_power_of_two *)
Definition is_power_of_two (w v : Z) : bool := Z.land v (wrap w (v - 1)) =? 0.

(** [T_p(1) << s]: operands narrower than [int] are promoted to 32 bits, a shift
    outside the promoted width is undefined. *)
Definition shl_one (w s : Z) : outcome Z :=
  if (0 <=? s) && (s <? Z.max w 32) then Ok (wrap w (Z.shiftl 1 s)) else UB.

(* @source include/ipcpp/utils/numeric.h 69-81 floor_to_power_of_two *)
Definition floor_to_power_of_two (c : compiler) (w v : Z) : outcome Z :=
  if is_power_of_two w v then Ok v
  else
    clz ← count_leading_zero c w v;
    shl_one w (w - clz - 1).

(* @source include/ipcpp/utils/numeric.h 83-90 ceil_to_power_of_two *)
Definition ceil_to_power_of_two (c : compiler) (w v : Z) : outcome Z :=
  if is_power_of_two w v then Ok v
  else
    clz ← count_leading_zero c w v;
    shl_one w (w - clz).

Inductive int_type : Type :=
| uint64_t | uint32_t | uint16_t | uint8_t
| int64_t | int32_t | int16_t | int8_t.

#[export] Instance int_type_eq_dec : EqDecision int_type.
Proof. solve_decision. Defined.

Definition int_width (t : int_type) : Z :=
  match t with
  | uint64_t | int64_t => 64
  | uint32_t | int32_t => 32
  | uint16_t | int16_t => 16
  | uint8_t | int8_t => 8
  end.

(** The template has no specialisation for the 8 bit types. *)
(* @source include/ipcpp/utils/numeric.h 93-128 half_size_int *)
Definition half_size_int (t : int_type) : option int_type :=
  match t with
  | uint64_t => Some uint32_t
  | uint32_t => Some uint16_t
  | uint16_t => Some uint8_t
  | int64_t => Some int32_t
  | int32_t => Some int16_t
  | int16_t => Some int8_t
  | uint8_t | int8_t => None
  end.

(** * utils/atomic.h and types.h *)

(** [lock_free t] is [std::atomic<t>::is_always_lock_free]; the empty pack is
    [void]. *)
(* @source include/ipcpp/utils/atomic.h 15-31 largest_lock_free *)
Fixpoint largest_lock_free (lock_free : int_type -> bool) (ts : list int_type) : option int_type :=
  match ts with
  | [] => None
  | t :: ts' => if lock_free t then Some t else largest_lock_free lock_free ts'
  end.

(* @source include/ipcpp/utils/atomic.h 34-36 largest_lock_free_uint_t *)
Definition largest_lock_free_uint_t (lock_free : int_type -> bool) : option int_type :=
  largest_lock_free lock_free [uint64_t; uint32_t; uint16_t; uint8_t].

(* @source include/ipcpp/utils/atomic.h 37-39 largest_lock_free_int_t *)
Definition largest_lock_free_int_t (lock_free : int_type -> bool) : option int_type :=
  largest_lock_free lock_free [int64_t; int32_t; int16_t; int8_t].

Record lib_types : Type := {
  lt_uint : int_type;
  lt_uint_half : int_type;
  lt_int : int_type;
  lt_int_half : int_type
}.

(** The typedefs and the static assertions on them; [None]: does not compile. *)
(* @source include/ipcpp/types.h 22-32 uint_t *)
Definition library_types (lock_free : int_type -> bool) : option lib_types :=
  u ← largest_lock_free_uint_t lock_free;
  uh ← half_size_int u;
  i ← largest_lock_free_int_t lock_free;
  ih ← half_size_int i;
  if lock_free u && lock_free uh && (16 <=? int_width u)
  then Some {| lt_uint := u; lt_uint_half := uh; lt_int := i; lt_int_half := ih |}
  else None.

(** The widths used by the rest of the development: with lock-free 64 bit
    atomics [uint_t] is 64 bits wide and [uint_half_t] 32. *)
Abbreviation uint_w := 64 (only parsing).
Abbreviation uint_half_w := 32 (only parsing).

(** The two halves of a message id: the types of the library are the template's. *)
(* @source include/ipcpp/publish_subscribe/real_time/real_time_subscriber.h 192-194 RealTimeSubscriber::_m_split_to_indices *)
Definition m_split_to_indices (t : lib_types) (message_id : Z) : Z * Z :=
  let digits := int_width (lt_uint_half t) in (wrap digits (Z.shiftr message_id digits), wrap digits message_id).

(** * Alignment: utils/utils.h, shm/allocator.h, shm/chunk_allocator.h,
      stl/allocator.h all carry the same formula on [std::size_t] *)
(* @source include/ipcpp/utils/utils.h 19-21 align_up *)
Definition align_up (size alignment : Z) : Z :=
  Z.land (u64 (size + alignment - 1)) (u64 (Z.lnot (u64 (alignment - 1)))).

(** [get_page_size()] is the operating system's page size. *)
(* @source include/ipcpp/utils/system.h 44-48 round_up_to_pagesize *)
Definition round_up_to_pagesize (page_size val : Z) : Z :=
  Z.land (u64 (val + page_size - 1)) (u64 (Z.lnot (u64 (page_size - 1)))).

(** * Lemmas *)

Lemma log2_bounds v : 0 < v -> 2 ^ Z.log2 v <= v < 2 ^ (Z.log2 v + 1).
Proof. intros. pose proof (Z.log2_spec v ltac:(lia)) as Hs. by rewrite <- Z.add_1_r in Hs. Qed.

Lemma log2_lt_width w v : 0 < v < 2 ^ w -> 0 <= Z.log2 v < w.
Proof.
  intros [Hv Hw]. pose proof (Z.log2_nonneg v). split; [done|].
  apply Z.log2_lt_pow2; lia.
Qed.

Lemma land_pow2_bit v k : 0 <= k -> (Z.land v (2 ^ k) =? 0) = negb (Z.testbit v k).
Proof.
  intros Hk. destruct (Z.testbit v k) eqn:E; simpl.
  - apply Z.eqb_neq. intros H0.
    assert (Z.testbit (Z.land v (2 ^ k)) k = false) as Hf by (rewrite H0; apply Z.bits_0).
    by rewrite Z.land_spec, E, Z.pow2_bits_true in Hf by lia.
  - apply Z.eqb_eq. apply Z.bits_inj'. intros n Hn.
    rewrite Z.land_spec, Z.bits_0. destruct (decide (n = k)) as [->|].
    + by rewrite E.
    + rewrite Z.pow2_bits_false by lia. apply andb_false_r.
Qed.

(** The mask loop finds the top bit: from bit [k] down, with no bit of [v] set
    above [k]. *)
Lemma clz_loop_correct fuel v k count :
  0 < v -> 0 <= k -> Z.log2 v <= k -> k - Z.log2 v < Z.of_nat fuel ->
  clz_loop fuel v (2 ^ k) count = Some (count + (k - Z.log2 v)).
Proof.
  pose proof (Z.log2_nonneg v) as Hnn.
  revert k count. induction fuel as [|fuel IH]; intros k count Hv Hk Hlog Hfuel; [lia|].
  simpl. rewrite land_pow2_bit by done.
  destruct (decide (Z.log2 v = k)) as [<-|Hne].
  - rewrite Z.bit_log2 by done. simpl. f_equal; lia.
  - rewrite Z.bits_above_log2 by lia. simpl.
    rewrite Z.shiftr_div_pow2 by lia.
    replace (2 ^ k) with (2 ^ (k - 1) * 2 ^ 1) by (rewrite <- Z.pow_add_r by lia; f_equal; lia).
    rewrite Z.div_mul by done.
    rewrite IH by lia. f_equal; lia.
Qed.

Lemma count_leading_zero_ok c w v :
  (w = 32 \/ w = 64) -> 0 < v < 2 ^ w ->
  count_leading_zero c w v = Ok (w - 1 - Z.log2 v).
Proof.
  intros Hw Hv. pose proof (log2_lt_width w v Hv) as Hlog.
  destruct c; simpl.
  - destruct Hw as [-> | ->]; simpl; (destruct (Z.eqb_spec v 0); [lia|]; f_equal; lia).
  - destruct Hw as [-> | ->]; simpl; (destruct (Z.eqb_spec v 0); [lia|]; f_equal; lia).
  - destruct (Z.eqb_spec v 0); [lia|].
    rewrite Z.shiftl_1_l, clz_loop_correct; try lia.
    simpl. f_equal; lia.
Qed.

(** A number with two bits set keeps its top bit when one is subtracted. *)
Lemma is_power_of_two_spec w v :
  0 < v < 2 ^ w -> is_power_of_two w v = true <-> v = 2 ^ Z.log2 v.
Proof.
  intros Hv. unfold is_power_of_two. rewrite wrap_small by lia.
  pose proof (log2_bounds v ltac:(lia)) as [Hlo Hhi].
  pose proof (Z.log2_nonneg v) as Hnn.
  rewrite Z.eqb_eq. split.
  - intros H0. destruct (decide (v = 2 ^ Z.log2 v)) as [|Hne]; [done|].
    assert (Z.log2 (v - 1) = Z.log2 v) as Hl.
    { apply Z.log2_unique; [done|]. rewrite <- Z.add_1_r. lia. }
    assert (Z.testbit (Z.land v (v - 1)) (Z.log2 v) = true) as Ht.
    { rewrite Z.land_spec, Z.bit_log2 by lia. simpl. rewrite <- Hl. apply Z.bit_log2.
      assert (0 < 2 ^ Z.log2 v) by (apply Z.pow_pos_nonneg; lia). lia. }
    rewrite H0, Z.bits_0 in Ht. done.
  - intros Heq. rewrite Heq at 2.
    replace (2 ^ Z.log2 v - 1) with (Z.ones (Z.log2 v)) by (rewrite Z.ones_equiv; lia).
    rewrite Z.land_ones by done. rewrite Heq at 1. apply Z_mod_same_full.
Qed.

Lemma pow2_log2_lt w v : 0 < v < 2 ^ w -> 0 < 2 ^ Z.log2 v < 2 ^ w.
Proof.
  intros. pose proof (log2_lt_width w v ltac:(lia)).
  split; [apply Z.pow_pos_nonneg; lia|apply Z.pow_lt_mono_r; lia].
Qed.

(** [x & ~(2^k - 1)] clears the low k bits. *)
Lemma land_lnot_ones x k :
  0 <= k < 64 -> 0 <= x < 2 ^ 64 ->
  Z.land x (u64 (Z.lnot (u64 (2 ^ k - 1)))) = x - x mod 2 ^ k.
Proof.
  intros Hk Hx.
  assert (0 < 2 ^ k < 2 ^ 64) as Hpow.
  { split; [apply Z.pow_pos_nonneg; lia|apply Z.pow_lt_mono_r; lia]. }
  rewrite (wrap_small 64 (2 ^ k - 1)) by lia.
  replace (2 ^ k - 1) with (Z.ones k) by (rewrite Z.ones_equiv; lia).
  unfold wrap. rewrite <- (Z.land_ones _ 64) by lia.
  rewrite (Z.land_comm (Z.lnot _)), Z.land_assoc, (Z.land_ones x 64) by lia.
  rewrite (Z.mod_small x) by lia.
  rewrite <- Z.ldiff_land, Z.ldiff_ones_r by lia.
  rewrite Z.shiftl_mul_pow2, Z.shiftr_div_pow2 by lia.
  pose proof (Z.div_mod x (2 ^ k) ltac:(lia)). lia.
Qed.

(** No bytes stay no bytes, whatever the alignment is. *)
Lemma align_up_0 alignment : align_up 0 alignment = 0.
Proof.
  unfold align_up. rewrite Z.add_0_l. set (x := u64 (alignment - 1)). unfold wrap at 1. rewrite <- Z.land_ones by lia.
  rewrite Z.land_assoc, Z.land_lnot_diag. apply Z.land_0_l.
Qed.

(** The rounding of [align_up] for every power-of-two alignment. *)
Lemma align_up_eq size k :
  0 <= k < 64 -> 0 <= size -> size + 2 ^ k - 1 < 2 ^ 64 ->
  align_up size (2 ^ k) = (size + 2 ^ k - 1) - (size + 2 ^ k - 1) mod 2 ^ k.
Proof.
  intros Hk Hs Hov. unfold align_up.
  assert (0 < 2 ^ k) by (apply Z.pow_pos_nonneg; lia).
  rewrite (wrap_small 64 (size + _ - 1)) by lia.
  apply land_lnot_ones; lia.
Qed.

Lemma align_up_bounds size k :
  0 <= k < 64 -> 0 <= size -> size + 2 ^ k - 1 < 2 ^ 64 ->
  size <= align_up size (2 ^ k) < size + 2 ^ k /\ align_up size (2 ^ k) mod 2 ^ k = 0.
Proof.
  intros Hk Hs Hov. rewrite align_up_eq by done.
  assert (0 < 2 ^ k) as Hp by (apply Z.pow_pos_nonneg; lia).
  pose proof (Z.mod_pos_bound (size + 2 ^ k - 1) (2 ^ k) Hp).
  split; [lia|].
  rewrite Zminus_mod, Zmod_mod, Z.sub_diag. apply Z.mod_0_l. lia.
Qed.

(** A sum that does not fit rounds to nothing. *)
Lemma align_up_wraps size k : 0 <= k < 64 -> 0 <= size < 2 ^ 64 -> 2 ^ 64 <= size + 2 ^ k - 1 -> align_up size (2 ^ k) = 0.
Proof.
  intros Hk Hs Hov. assert (0 < 2 ^ k) by (apply Z.pow_pos_nonneg; lia). unfold align_up.
  assert (2 ^ k <= 2 ^ 63) by (apply Z.pow_le_mono_r; lia).
  assert (u64 (size + 2 ^ k - 1) = size + 2 ^ k - 1 - 2 ^ 64) as ->.
  { symmetry. apply (Z.mod_unique_pos _ _ 1); lia. }
  rewrite land_lnot_ones by lia. rewrite Z.mod_small by lia. lia.
Qed.

Lemma align_up16_bounds size :
  0 <= size < 2 ^ 64 - 16 ->
  size <= align_up size 16 < size + 16 /\ align_up size 16 mod 16 = 0.
Proof. intros. apply (align_up_bounds size 4); lia. Qed.

(** ** Rounding to powers of two *)
Lemma floor_ok (c : compiler) (w v : Z) :
  (w = 32 \/ w = 64) -> 0 < v < 2 ^ w ->
  exists k, 0 <= k < w /\ floor_to_power_of_two c w v = Ok (2 ^ k) /\ 2 ^ k <= v < 2 ^ (k + 1).
Proof.
  intros Hw Hv. exists (Z.log2 v).
  pose proof (log2_lt_width w v Hv) as Hlog.
  pose proof (log2_bounds v ltac:(lia)) as Hb.
  split; [done|]. split; [|done].
  unfold floor_to_power_of_two. destruct (is_power_of_two w v) eqn:E.
  - apply (is_power_of_two_spec w v Hv) in E. by f_equal.
  - rewrite count_leading_zero_ok by done. simpl. unfold shl_one.
    replace (w - (w - 1 - Z.log2 v) - 1) with (Z.log2 v) by lia.
    destruct (Z.leb_spec 0 (Z.log2 v)), (Z.ltb_spec (Z.log2 v) (Z.max w 32)); simpl; try lia.
    rewrite Z.shiftl_1_l, wrap_small by (pose proof (pow2_log2_lt w v Hv); lia). done.
Qed.

Lemma ceil_ok (c : compiler) (w v : Z) :
  (w = 32 \/ w = 64) -> 0 < v <= 2 ^ (w - 1) ->
  exists k, 0 <= k < w /\ ceil_to_power_of_two c w v = Ok (2 ^ k) /\ v <= 2 ^ k < 2 * v.
Proof.
  intros Hw Hv.
  assert (0 < v < 2 ^ w) as Hv' by (destruct Hw as [-> | ->]; simpl in *; lia).
  pose proof (log2_lt_width w v Hv') as Hlog.
  pose proof (log2_bounds v ltac:(lia)) as Hb.
  assert (2 ^ (Z.log2 v + 1) = 2 * 2 ^ Z.log2 v) as Hp by (rewrite Z.pow_add_r; lia).
  unfold ceil_to_power_of_two. destruct (is_power_of_two w v) eqn:E.
  - apply (is_power_of_two_spec w v Hv') in E.
    exists (Z.log2 v). split; [done|]. split; [by f_equal|lia].
  - assert (v <> 2 ^ Z.log2 v) as Hne.
    { intros H. apply (is_power_of_two_spec w v Hv') in H. congruence. }
    assert (Z.log2 v < w - 1) as Hlt.
    { apply Z.log2_lt_pow2; [lia|]. destruct (decide (v = 2 ^ (w - 1))) as [->|]; [|lia].
      rewrite Z.log2_pow2 in Hne by lia. done. }
    exists (Z.log2 v + 1). split; [lia|]. split; [|lia].
    rewrite count_leading_zero_ok by done. simpl. unfold shl_one.
    replace (w - (w - 1 - Z.log2 v)) with (Z.log2 v + 1) by lia.
    destruct (Z.leb_spec 0 (Z.log2 v + 1)), (Z.ltb_spec (Z.log2 v + 1) (Z.max w 32)); simpl; try lia.
    rewrite Z.shiftl_1_l, wrap_small; [done|].
    split; [lia|]. apply Z.pow_lt_mono_r; lia.
Qed.

(** * Properties *)

(** C36 On the 32 and 64 bit types and under every compiler branch of
    [count_leading_zero], [floor_to_power_of_two] returns for a nonzero argument
    the largest power of two that is at most the argument, and
    [ceil_to_power_of_two] the smallest one that is at least the argument whenever
    the type can represent it, without undefined behaviour. *)
Theorem power_of_two_rounding (c : compiler) (w v : Z) :
  (w = 32 \/ w = 64) -> 0 < v < 2 ^ w ->
  (exists k, 0 <= k < w /\ floor_to_power_of_two c w v = Ok (2 ^ k) /\ 2 ^ k <= v < 2 ^ (k + 1)) /\
  (v <= 2 ^ (w - 1) ->
   exists k, 0 <= k < w /\ ceil_to_power_of_two c w v = Ok (2 ^ k) /\ v <= 2 ^ k < 2 * v).
Proof.
  intros Hw Hv. split; [by apply floor_ok|]. intros Hv'. apply ceil_ok; [done|lia].
Qed.

Lemma power_of_two_rounding_witness :
  (64 = 32 \/ 64 = 64) /\ 0 < 100 < 2 ^ 64 /\ 100 <= 2 ^ (64 - 1) /\
  (exists k, 0 <= k < 64 /\ floor_to_power_of_two GNUC 64 100 = Ok (2 ^ k) /\ 2 ^ k <= 100 < 2 ^ (k + 1)) /\
  (100 <= 2 ^ (64 - 1) ->
   exists k, 0 <= k < 64 /\ ceil_to_power_of_two GNUC 64 100 = Ok (2 ^ k) /\ 100 <= 2 ^ k < 2 * 100).
Proof.
  split; [by right|]. split; [lia|]. split; [lia|].
  apply (power_of_two_rounding GNUC 64 100); [by right|lia].
Defined.

(** The edges of the power-of-two helpers: zero is classified as a power of
    two and returned unchanged by both roundings, and rounding up a value above
    the largest power of two of the type shifts by the full width, which is
    undefined. *)
Theorem power_of_two_edges (c : compiler) (w : Z) :
  (w = 32 \/ w = 64) ->
  is_power_of_two w 0 = true /\
  floor_to_power_of_two c w 0 = Ok 0 /\
  ceil_to_power_of_two c w 0 = Ok 0 /\
  (forall v, 2 ^ (w - 1) < v < 2 ^ w -> ceil_to_power_of_two c w v = UB).
Proof.
  intros Hw. split_and!; try by destruct Hw as [-> | ->].
  intros v Hv.
  assert (0 < v < 2 ^ w) as Hv' by (destruct Hw as [-> | ->]; simpl in *; lia).
  assert (Z.log2 v = w - 1) as Hl.
  { apply Z.log2_unique; [lia|]. replace (Z.succ (w - 1)) with w by lia. lia. }
  unfold ceil_to_power_of_two. destruct (is_power_of_two w v) eqn:E.
  - apply (is_power_of_two_spec w v Hv') in E. rewrite Hl in E. lia.
  - rewrite count_leading_zero_ok by done. simpl. unfold shl_one.
    rewrite Hl. replace (w - (w - 1 - (w - 1))) with w by lia.
    destruct (Z.leb_spec 0 w), (Z.ltb_spec w (Z.max w 32)); simpl; (lia || done).
Qed.

Lemma power_of_two_edges_witness :
  (64 = 32 \/ 64 = 64) /\ is_power_of_two 64 0 = true /\
  floor_to_power_of_two OtherCompiler 64 0 = Ok 0 /\ ceil_to_power_of_two OtherCompiler 64 0 = Ok 0 /\
  (forall v, 2 ^ (64 - 1) < v < 2 ^ 64 -> ceil_to_power_of_two OtherCompiler 64 v = UB).
Proof.
  split; [by right|].
  apply (power_of_two_edges OtherCompiler 64). by right.
Defined.

(** [align_up] (and [round_up_to_pagesize], the same formula) returns the
    least multiple of a power-of-two alignment that is at least the size, as long
    as the sum does not wrap; past that point the result wraps below the size. *)
Theorem align_up_correct (size k : Z) :
  0 <= k < 64 -> 0 <= size < 2 ^ 64 ->
  (size + 2 ^ k - 1 < 2 ^ 64 ->
     size <= align_up size (2 ^ k) < size + 2 ^ k /\ align_up size (2 ^ k) mod 2 ^ k = 0 /\
     (forall m, size <= m -> m mod 2 ^ k = 0 -> align_up size (2 ^ k) <= m)) /\
  (2 ^ 64 <= size + 2 ^ k - 1 -> align_up size (2 ^ k) = 0) /\
  round_up_to_pagesize (2 ^ k) size = align_up size (2 ^ k).
Proof.
  intros Hk Hs.
  assert (0 < 2 ^ k) as Hp by (apply Z.pow_pos_nonneg; lia).
  split_and!.
  - intros Hov. pose proof (align_up_bounds size k Hk ltac:(lia) Hov) as [Hb Hm].
    split_and!; [lia|lia|done|]. intros m Hsm Hmm.
    destruct (Z.le_gt_cases (align_up size (2 ^ k)) m); [done|exfalso].
    apply Z.div_exact in Hmm; [|lia]. apply Z.div_exact in Hm; [|lia].
    assert (m / 2 ^ k < align_up size (2 ^ k) / 2 ^ k) by nia. nia.
  - by apply align_up_wraps.
  - unfold round_up_to_pagesize, align_up. done.
Qed.

Lemma align_up_correct_witness :
  0 <= 4 < 64 /\ 0 <= 33 < 2 ^ 64 /\ align_up 33 (2 ^ 4) = 48 /\
  (33 + 2 ^ 4 - 1 < 2 ^ 64 ->
     33 <= align_up 33 (2 ^ 4) < 33 + 2 ^ 4 /\ align_up 33 (2 ^ 4) mod 2 ^ 4 = 0 /\
     (forall m, 33 <= m -> m mod 2 ^ 4 = 0 -> align_up 33 (2 ^ 4) <= m)).
Proof.
  split; [lia|]. split; [lia|]. split; [by vm_compute|].
  apply (align_up_correct 33 4); lia.
Defined.

(** On a platform whose 64 bit atomics are lock-free the library's integers are
    the 64 bit types and their 32 bit halves. *)
Lemma library_types_64 lock_free :
  lock_free uint64_t = true -> lock_free uint32_t = true -> lock_free int64_t = true ->
  library_types lock_free =
    Some {| lt_uint := uint64_t; lt_uint_half := uint32_t; lt_int := int64_t; lt_int_half := int32_t |}.
Proof.
  intros H64 H32 Hi. unfold library_types, largest_lock_free_uint_t, largest_lock_free_int_t.
  simpl. rewrite H64. simpl. rewrite Hi. simpl. by rewrite H64, H32.
Qed.

(** Two numbers of [h] bits in one of [2 * h]. *)
Lemma pack_halves h a b : 0 <= h -> 0 <= a < 2 ^ h -> 0 <= b < 2 ^ h ->
  let packed := Z.lor (Z.shiftl a h) b in
  0 <= packed < 2 ^ (2 * h) /\ Z.shiftr packed h = a /\ wrap h packed = b.
Proof.
  intros Hh Ha Hb packed. assert (Hp : packed = a * 2 ^ h + b).
  { unfold packed. rewrite Z.lor_comm, <- Z.shiftl_mul_pow2, Z.add_comm by done. symmetry. apply Z.add_nocarry_lor, Z.bits_inj'; intros n Hn.
    rewrite Z.land_spec, Z.bits_0. destruct (Z.lt_ge_cases n h).
    - rewrite Z.shiftl_spec_low by done. by rewrite andb_false_r.
    - replace b with (b mod 2 ^ h) by (by apply Z.mod_small). rewrite Z.mod_pow2_bits_high; [done|lia]. }
  replace (2 * h) with (h + h) by lia. rewrite Hp, Z.pow_add_r, Z.shiftr_div_pow2 by done. unfold wrap. split_and!; [nia|nia| |].
  - rewrite Z.div_add_l by lia. rewrite Z.div_small; lia.
  - rewrite Z.add_comm, Z.mod_add by lia. by apply Z.mod_small.
Qed.

Definition unsigned (t : int_type) : bool := match t with uint64_t | uint32_t | uint16_t | uint8_t => true | _ => false end.

(** No type of the same signedness that is lock-free is wider. *)
Definition widest (lock_free : int_type -> bool) (t : int_type) : Prop :=
  lock_free t = true /\ forall t', unsigned t' = unsigned t -> lock_free t' = true -> int_width t' <= int_width t.

Lemma largest_lock_free_widest lock_free :
  match largest_lock_free_uint_t lock_free with
  | Some t => unsigned t = true /\ widest lock_free t
  | None => forall t, unsigned t = true -> lock_free t = false
  end /\
  match largest_lock_free_int_t lock_free with
  | Some t => unsigned t = false /\ widest lock_free t
  | None => forall t, unsigned t = false -> lock_free t = false
  end.
Proof.
  unfold largest_lock_free_uint_t, largest_lock_free_int_t, widest. cbn [largest_lock_free].
  split; repeat match goal with |- context [if lock_free ?t then _ else _] => destruct (lock_free t) eqn:? end.
  all: repeat apply conj; try done; intros []; cbn; intros; congruence || lia.
Qed.

Lemma half_size_width t : match half_size_int t with Some h => int_width t = 2 * int_width h /\ unsigned h = unsigned t | None => int_width t = 8 end.
Proof. by destruct t. Qed.

(** C35 The choice of the library's integer types.  If the headers compile, [uint_t] and
    [int_t] are the widest lock-free types of their signedness, the half types have half
    their width, [uint_half_t] is lock-free, and a number and an index of the half type
    can be packed into a [uint_t] from which [_m_split_to_indices] reads them back.  They do not compile exactly when there
    is no lock-free unsigned type of at least 16 bits, its half is not lock-free, or there
    is no lock-free signed one of at least 16 bits. *)
Theorem library_types_sound (lock_free : int_type -> bool) :
  match library_types lock_free with
  | Some t =>
    (unsigned (lt_uint t) = true /\ widest lock_free (lt_uint t) /\ lock_free (lt_uint_half t) = true) /\
    (unsigned (lt_int t) = false /\ widest lock_free (lt_int t)) /\
    int_width (lt_uint t) = 2 * int_width (lt_uint_half t) /\ int_width (lt_int t) = 2 * int_width (lt_int_half t) /\
    let h := int_width (lt_uint_half t) in
    forall a b, 0 <= a < 2 ^ h -> 0 <= b < 2 ^ h ->
      let packed := Z.lor (Z.shiftl a h) b in
      0 <= packed < 2 ^ int_width (lt_uint t) /\ m_split_to_indices t packed = (a, b)
  | None =>
    (forall t, unsigned t = true -> 16 <= int_width t -> lock_free t = false) \/
    (exists t h, unsigned t = true /\ widest lock_free t /\ half_size_int t = Some h /\ lock_free h = false) \/
    (forall t, unsigned t = false -> 16 <= int_width t -> lock_free t = false)
  end.
Proof.
  destruct (largest_lock_free_widest lock_free) as [Hu Hi]. unfold library_types.
  destruct (largest_lock_free_uint_t lock_free) as [u|]; cbn [mbind option_bind]; [|left; auto]. destruct Hu as [Hus Hu].
  generalize (half_size_width u). destruct (half_size_int u) as [uh|] eqn:Euh; cbn [mbind option_bind]; intros Huh.
  2: { left. intros t Ht Hw. destruct (lock_free t) eqn:E; [|done]. apply Hu in E; [lia|congruence]. }
  destruct (largest_lock_free_int_t lock_free) as [i|]; cbn [mbind option_bind]; [|right; right; auto]. destruct Hi as [His Hi].
  generalize (half_size_width i). destruct (half_size_int i) as [ih|] eqn:Eih; cbn [mbind option_bind]; intros Hih.
  2: { right; right. intros t Ht Hw. destruct (lock_free t) eqn:E; [|done]. apply Hi in E; [lia|congruence]. }
  assert (H16 : (16 <=? int_width u) = true) by (destruct u, uh; done).
  rewrite (proj1 Hu), H16. cbn [andb]. destruct (lock_free uh) eqn:El; cbn [andb]; [|right; left; by exists u, uh]. cbn.
  destruct Huh as [Hw _]. split_and!; [done|done|done|done|done|done|apply Hih|].
  assert (Hh : 0 <= int_width uh) by (destruct uh; done). intros a b Ha Hb. rewrite Hw. destruct (pack_halves _ a b Hh Ha Hb) as (Hp & Hs & Hl).
  split; [exact Hp|]. unfold m_split_to_indices. cbn. rewrite Hs, Hl. by rewrite wrap_small.
Qed.
