(* ===== verification/Sync.v ===== *)
(** Locks of [include/ipcpp/utils/mutex.h] as step systems.

    Every access to the atomic word of a lock is one step of a thread; any number
    of threads interleave their steps in any order.  The class [RwLock] is what a
    lock promises to the rest of the library (who holds it, and how its word
    records the holders); mutual exclusion is proved once from the class laws and
    holds of [mutex], [shared_mutex] and [shared_futex].  [futex] does not satisfy
    the laws: its waiting loop compares the word with the wrong value. *)
From S2P Require Import Prelude.

(** * Calls a thread can make and the roles it can have *)
Inductive call : Type :=
| CLock
| CTryLock
| CTryLockN (retries : Z)
| CUnlock
| CLockShared
| CTryLockShared
| CTryLockSharedN (retries : Z)
| CUnlockShared.

Inductive role : Type := NoLock | Reader | Writer.

#[export] Instance role_eq_dec : EqDecision role.
Proof. solve_decision. Defined.

(** Retry counters that the [int] loop variable of [try_lock_shared(retries)] can
    reach without overflow. *)
Definition call_ok (c : call) : Prop :=
  match c with
  | CTryLockSharedN n => 0 <= n < 2 ^ 31 - 1
  | _ => True
  end.

(** A lock: program counters, the shared word, one step of a thread.  [pc_step c
    sp p s] executes the next access of a thread at [p] when the word is [s]: [c]
    is the call made if the thread is between calls, [sp] says whether a weak
    compare-exchange fails spuriously.  [view] reads the word as 0 (free), -1
    (exclusive) or the number of shared holders. *)
Class RwLock (pc word : Type) : Type := {
  pc_idle : pc;
  pc_role : pc -> role;
  pc_step : call -> bool -> pc -> word -> outcome (pc * word);
  word_init : word;
  view : word -> Z
}.

Inductive effect : role -> Z -> role -> Z -> Prop :=
| eff_none r f : effect r f r f
| eff_acquire : effect NoLock 0 Writer (-1)
| eff_release f : effect Writer f NoLock 0
| eff_share f : 0 <= f -> effect NoLock f Reader (f + 1)
| eff_unshare f : 0 < f -> effect Reader f NoLock (f - 1).

(** The laws: an invariant of each program counter, every step one of the effects
    above, and no failed assertion while the caller holds what it releases. *)
Class RwLockLaws (pc word : Type) `{RwLock pc word} : Type := {
  pc_ok : pc -> Prop;
  idle_ok : pc_ok pc_idle;
  idle_role : pc_role pc_idle = NoLock;
  view_init : view word_init = 0;
  step_effect c sp p s p' s' :
    call_ok c -> pc_ok p -> -1 <= view s < 2 ^ 31 - 1 ->
    (pc_role p = Writer -> view s = -1) -> (pc_role p = Reader -> 0 < view s) ->
    pc_step c sp p s = Ok (p', s') ->
    pc_ok p' /\ effect (pc_role p) (view s) (pc_role p') (view s');
  step_defined c sp p s :
    call_ok c -> pc_ok p -> -1 <= view s < 2 ^ 31 - 1 ->
    (pc_role p = Writer -> view s = -1) -> (pc_role p = Reader -> 0 < view s) ->
    exists p' s', pc_step c sp p s = Ok (p', s')
}.

(** * Mutual exclusion of any lock that satisfies the laws *)
Section rwlock.
Context {pc word : Type} `{Laws : RwLockLaws pc word}.

Inductive lock_step : list pc * word -> list pc * word -> Prop :=
| lock_step_thread i c sp pcs s p p' s' :
    pcs !! i = Some p -> call_ok c -> pc_step c sp p s = Ok (p', s') ->
    lock_step (pcs, s) (<[i := p']> pcs, s').

Definition lock_initial (n : nat) : list pc * word := (replicate n pc_idle, word_init).

Definition lock_reachable (n : nat) (x : list pc * word) : Prop := rtc lock_step (lock_initial n) x.

Definition writers (pcs : list pc) : Z := count (fun p => bool_decide (pc_role p = Writer)) pcs.
Definition readers (pcs : list pc) : Z := count (fun p => bool_decide (pc_role p = Reader)) pcs.

(** The word records exactly the holders. *)
Definition lock_inv (x : list pc * word) : Prop :=
  Forall pc_ok x.1 /\
  ((writers x.1 = 0 /\ view x.2 = readers x.1) \/
   (writers x.1 = 1 /\ readers x.1 = 0 /\ view x.2 = -1)).

Lemma writers_insert pcs i p p' : pcs !! i = Some p ->
  writers (<[i := p']> pcs) =
    writers pcs - (if bool_decide (pc_role p = Writer) then 1 else 0)
                + (if bool_decide (pc_role p' = Writer) then 1 else 0).
Proof. intros Hi. exact (count_insert _ _ _ _ p' Hi). Qed.

Lemma readers_insert pcs i p p' : pcs !! i = Some p ->
  readers (<[i := p']> pcs) =
    readers pcs - (if bool_decide (pc_role p = Reader) then 1 else 0)
                + (if bool_decide (pc_role p' = Reader) then 1 else 0).
Proof. intros Hi. exact (count_insert _ _ _ _ p' Hi). Qed.

Lemma writers_pos pcs i p : pcs !! i = Some p -> pc_role p = Writer -> 1 <= writers pcs.
Proof. intros Hi Hr. eapply count_lookup; [done|]. by apply bool_decide_eq_true. Qed.

Lemma readers_pos pcs i p : pcs !! i = Some p -> pc_role p = Reader -> 1 <= readers pcs.
Proof. intros Hi Hr. eapply count_lookup; [done|]. by apply bool_decide_eq_true. Qed.

Lemma lock_inv_holder pcs s i p :
  zlen pcs < 2 ^ 31 - 1 -> lock_inv (pcs, s) -> pcs !! i = Some p ->
  pc_ok p /\ -1 <= view s < 2 ^ 31 - 1 /\
  (pc_role p = Writer -> view s = -1) /\ (pc_role p = Reader -> 0 < view s).
Proof.
  intros Hlen [Hok Hcase] Hi. simpl in *.
  pose proof (count_le_length (fun p => bool_decide (pc_role p = Reader)) pcs) as Hle.
  pose proof (count_nonneg (fun p => bool_decide (pc_role p = Reader)) pcs) as Hnn.
  fold (readers pcs) in *.
  split; [by eapply Forall_lookup_1|]. split; [lia|]. split.
  - intros Hr. pose proof (writers_pos _ _ _ Hi Hr). lia.
  - intros Hr. pose proof (readers_pos _ _ _ Hi Hr). lia.
Qed.

Lemma lock_inv_step x y :
  zlen x.1 < 2 ^ 31 - 1 -> lock_inv x -> lock_step x y -> lock_inv y /\ zlen y.1 = zlen x.1.
Proof.
  intros Hlen Hinv Hstep. destruct Hstep as [i c sp pcs s p p' s' Hi Hc Hs].
  simpl in *. split; [|apply zlen_insert].
  destruct (lock_inv_holder _ _ _ _ Hlen Hinv Hi) as (Hok & Hb & HW & HR).
  destruct (step_effect _ _ _ _ _ _ Hc Hok Hb HW HR Hs) as [Hok' Heff].
  destruct Hinv as [Hall Hcase]. split; simpl in *.
  { by apply Forall_insert. }
  rewrite (writers_insert _ _ _ p' Hi), (readers_insert _ _ _ p' Hi).
  assert (0 <= readers pcs) as Hnn by apply count_nonneg.
  clear Hs. revert Hcase Hb HW HR.
  generalize dependent (view s'). generalize dependent (view s).
  generalize (pc_role p) (pc_role p'). intros r r' f f' Heff.
  destruct Heff; intros Hcase Hb HW HR; try specialize (HW eq_refl); try specialize (HR eq_refl);
    repeat case_bool_decide; subst; try done; lia.
Qed.

Lemma lock_inv_reachable n x :
  Z.of_nat n < 2 ^ 31 - 1 -> lock_reachable n x -> lock_inv x /\ zlen x.1 = Z.of_nat n.
Proof.
  intros Hn Hreach. unfold lock_reachable in Hreach.
  assert (lock_inv (lock_initial n) /\ zlen (lock_initial n).1 = Z.of_nat n) as Hinit.
  { split; [|unfold zlen; simpl; by rewrite length_replicate].
    assert (forall r, r <> NoLock ->
      count (fun p => bool_decide (pc_role p = r)) (replicate n pc_idle) = 0) as Hz.
    { intros r Hr. clear Hn Hreach. induction n as [|n IH]; simpl; [done|].
      rewrite idle_role, IH. by rewrite bool_decide_false by congruence. }
    split; simpl.
    - apply Forall_replicate, idle_ok.
    - left. unfold writers, readers. rewrite !Hz by done. by rewrite view_init. }
  revert Hreach Hinit. generalize (lock_initial n). intros x0 Hreach Hinit.
  induction Hreach as [|x y z Hstep Hreach IH]; [done|].
  destruct Hinit as [Hinv Hlen]. apply IH.
  destruct (lock_inv_step x y) as [? ?]; [lia|done|done|]. split; [done|lia].
Qed.

(** What every lock satisfying the laws guarantees in every interleaving: an
    exclusive holder excludes every other holder, the word is the exact record of
    the holders, and no thread's next access is undefined. *)
Definition lock_safe (x : list pc * word) : Prop :=
  (forall i j p q, i <> j -> x.1 !! i = Some p -> x.1 !! j = Some q ->
     pc_role p = Writer -> pc_role q = NoLock) /\
  (view x.2 = -1 <-> exists i p, x.1 !! i = Some p /\ pc_role p = Writer) /\
  (view x.2 <> -1 -> view x.2 = readers x.1) /\
  (forall i p c sp, x.1 !! i = Some p -> call_ok c -> exists p' s', pc_step c sp p x.2 = Ok (p', s')).

Lemma writers_zero pcs : writers pcs = 0 -> forall i p, pcs !! i = Some p -> pc_role p <> Writer.
Proof. intros H0 i p Hi Hr. pose proof (writers_pos _ _ _ Hi Hr). lia. Qed.

Lemma count_pos_lookup {A} (P : A -> bool) l : 0 < count P l -> exists i x, l !! i = Some x /\ P x = true.
Proof.
  induction l as [|a l IH]; simpl; [lia|]. destruct (P a) eqn:E; intros.
  - by exists 0%nat, a.
  - destruct IH as (i & x & ? & ?); [lia|]. by exists (S i), x.
Qed.

Lemma lock_inv_safe x : zlen x.1 < 2 ^ 31 - 1 -> lock_inv x -> lock_safe x.
Proof.
  intros Hlen Hinv. destruct x as [pcs s].
  pose proof (fun i p => lock_inv_holder pcs s i p Hlen Hinv) as Hh.
  destruct Hinv as [Hall Hcase]. simpl in *. split_and!; simpl.
  - intros i j p q Hij Hi Hj HW.
    pose proof (writers_pos _ _ _ Hi HW) as Hw1.
    destruct (pc_role q) eqn:Hq; [done| |exfalso].
    + pose proof (readers_pos _ _ _ Hj Hq). lia.
    + assert (2 <= writers pcs); [|lia].
      by eapply (count_lookup_two _ _ i j); [..|apply bool_decide_eq_true|apply bool_decide_eq_true].
  - split.
    + intros Hv. assert (0 < writers pcs) as Hpos.
      { destruct Hcase as [[? ?]|[? ?]]; [|lia].
        pose proof (count_nonneg (fun p => bool_decide (pc_role p = Reader)) pcs).
        fold (readers pcs) in *. lia. }
      apply count_pos_lookup in Hpos as (i & p & Hi & Hp%bool_decide_eq_true). eauto.
    + intros (i & p & Hi & Hp). by apply (Hh i p).
  - lia.
  - intros i p c sp Hi Hc. destruct (Hh i p Hi) as (? & ? & ? & ?).
    by apply (step_defined c sp p s).
Qed.

Lemma lock_reachable_safe n x : Z.of_nat n < 2 ^ 31 - 1 -> lock_reachable n x -> lock_safe x.
Proof.
  intros Hn Hr. destruct (lock_inv_reachable n x Hn Hr) as [? ?].
  apply lock_inv_safe; [lia|done].
Qed.
End rwlock.

(** * The atomic accesses *)

(** [compare_exchange_weak(expected, desired)]: may fail spuriously. *)
Definition cas_weak (sp : bool) (expected desired f : Z) : bool * Z :=
  if (f =? expected) && negb sp then (true, desired) else (false, f).

(** [compare_exchange_strong(expected, desired)]. *)
Definition cas_strong (expected desired f : Z) : bool * Z :=
  if f =? expected then (true, desired) else (false, f).

(** * [class mutex]: a spin lock on one [std::atomic_bool] *)
Inductive mutex_pc : Type :=
| MIdle
| MLockExchange                 (* lock: about to exchange the flag *)
| MLockSpin                     (* lock: inner loop, the flag was set *)
| MTryLock                      (* try_lock() *)
| MTryLockN (retries : Z)       (* try_lock(retries): exchanges left after this one *)
| MHold
| MUnlockStore.                 (* unlock: the assertion passed *)

(* @source include/ipcpp/utils/mutex.h 41-75 mutex *)
Definition mutex_step (c : call) (sp : bool) (p : mutex_pc) (flag : bool) : outcome (mutex_pc * bool) :=
  match p with
  | MIdle =>
      Ok (match c with
          | CLock => MLockExchange
          | CTryLock => MTryLock
          | CTryLockN r => MTryLockN r
          | _ => MIdle
          end, flag)
  | MLockExchange => Ok (if flag then MLockSpin else MHold, true)
  | MLockSpin => Ok (if flag then MLockSpin else MLockExchange, flag)
  | MTryLock => Ok (if flag then MIdle else MHold, true)
  | MTryLockN r =>
      Ok (if flag then (if r >? 0 then MTryLockN (r - 1) else MIdle) else MHold, true)
  | MHold =>
      match c with
      | CUnlock => if flag then Ok (MUnlockStore, flag) else UB
      | _ => Ok (MHold, flag)
      end
  | MUnlockStore => Ok (MIdle, false)
  end.

#[export] Instance mutex_lock : RwLock mutex_pc bool := {|
  pc_idle := MIdle;
  pc_role p := match p with MHold | MUnlockStore => Writer | _ => NoLock end;
  pc_step := mutex_step;
  word_init := false;
  view flag := if flag then -1 else 0
|}.

#[export] Instance mutex_laws : RwLockLaws mutex_pc bool.
Proof.
  refine {| pc_ok := fun _ => True |}; try done.
  - intros c sp p s p' s' _ _ _ HW HR Hs. split; [done|].
    destruct p, s; simpl in *; try specialize (HW eq_refl); try lia;
      destruct c; simplify_eq/=; repeat case_match; simplify_eq/=; try done; constructor.
  - intros c sp p s _ _ _ HW HR.
    destruct p, s; simpl in *; try specialize (HW eq_refl); try lia; destruct c; eauto.
Defined.

(** * [class shared_mutex]: -1 write locked, n > 0 held by n readers *)
Inductive shared_mutex_pc : Type :=
| SmIdle
| SmLock                                  (* lock: compare-exchange 0 -> -1 *)
| SmTryLock
| SmHold
| SmUnlockStore
| SmSharedLoad                            (* lock_shared *)
| SmSharedCas (expected : Z)
| SmTrySharedLoad                         (* try_lock_shared() *)
| SmTrySharedCas (expected : Z)
| SmTrySharedNLoad (r retries : Z)        (* try_lock_shared(retries), r-th iteration *)
| SmTrySharedNCas (r retries expected : Z)
| SmHoldShared
| SmUnlockSharedSub.

(* @source include/ipcpp/utils/mutex.h 79-168 shared_mutex *)
Definition shared_mutex_step (c : call) (sp : bool) (p : shared_mutex_pc) (flag : Z)
    : outcome (shared_mutex_pc * Z) :=
  match p with
  | SmIdle =>
      Ok (match c with
          | CLock => SmLock
          | CTryLock => SmTryLock
          | CLockShared => SmSharedLoad
          | CTryLockShared => SmTrySharedLoad
          | CTryLockSharedN n => SmTrySharedNLoad 0 n
          | _ => SmIdle
          end, flag)
  | SmLock =>
      let (ok, flag') := cas_weak sp 0 (-1) flag in Ok (if ok then SmHold else SmLock, flag')
  | SmTryLock =>
      let (ok, flag') := cas_weak sp 0 (-1) flag in Ok (if ok then SmHold else SmIdle, flag')
  | SmHold =>
      match c with
      | CUnlock => if flag =? -1 then Ok (SmUnlockStore, flag) else UB
      | _ => Ok (SmHold, flag)
      end
  | SmUnlockStore => Ok (SmIdle, 0)
  | SmSharedLoad => Ok (if flag =? -1 then SmSharedLoad else SmSharedCas flag, flag)
  | SmSharedCas e =>
      let (ok, flag') := cas_weak sp e (i64 (e + 1)) flag in
      Ok (if ok then SmHoldShared else SmSharedLoad, flag')
  | SmTrySharedLoad => Ok (if flag =? -1 then SmIdle else SmTrySharedCas flag, flag)
  | SmTrySharedCas e =>
      let (ok, flag') := cas_weak sp e (i64 (e + 1)) flag in
      Ok (if ok then SmHoldShared else SmIdle, flag')
  | SmTrySharedNLoad r n =>
      (* r is an int, converted to uint64 for the comparison with retries + 1 *)
      if u64 r <? u64 (n + 1)
      then Ok (if flag =? -1 then SmIdle else SmTrySharedNCas r n flag, flag)
      else Ok (SmIdle, flag)
  | SmTrySharedNCas r n e =>
      let (ok, flag') := cas_weak sp e (i64 (e + 1)) flag in
      if ok then Ok (SmHoldShared, flag')
      else if r + 1 <? 2 ^ 31 then Ok (SmTrySharedNLoad (r + 1) n, flag') else UB
  | SmHoldShared =>
      match c with
      | CUnlockShared => if flag >? 0 then Ok (SmUnlockSharedSub, flag) else UB
      | _ => Ok (SmHoldShared, flag)
      end
  | SmUnlockSharedSub => Ok (SmIdle, i64 (flag - 1))
  end.

#[export] Instance shared_mutex_lock : RwLock shared_mutex_pc Z := {|
  pc_idle := SmIdle;
  pc_role p :=
    match p with
    | SmHold | SmUnlockStore => Writer
    | SmHoldShared | SmUnlockSharedSub => Reader
    | _ => NoLock
    end;
  pc_step := shared_mutex_step;
  word_init := 0;
  view flag := flag
|}.

Definition shared_mutex_pc_ok (p : shared_mutex_pc) : Prop :=
  match p with
  | SmSharedCas e | SmTrySharedCas e => 0 <= e
  | SmTrySharedNLoad r n => 0 <= r <= n + 1 /\ 0 <= n < 2 ^ 31 - 1
  | SmTrySharedNCas r n e => 0 <= e /\ 0 <= r <= n /\ 0 <= n < 2 ^ 31 - 1
  | _ => True
  end.

Lemma effect_share_cas w sp e flag :
  -1 <= flag < 2 ^ 31 - 1 -> 0 <= e -> 32 <= w <= 64 ->
  (exists flag', cas_weak sp e (swrap w (e + 1)) flag = (true, flag') /\ effect NoLock flag Reader flag') \/
  cas_weak sp e (swrap w (e + 1)) flag = (false, flag).
Proof.
  intros Hb He Hw. unfold cas_weak. destruct (Z.eqb_spec flag e) as [->|]; [|by right].
  destruct sp; [by right|]. left. eexists. split; [done|].
  assert (2 ^ 31 <= 2 ^ (w - 1)) by (apply Z.pow_le_mono_r; lia).
  rewrite swrap_small by lia. by constructor.
Qed.

Lemma u64_loop_test r n : 0 <= r <= n + 1 -> 0 <= n < 2 ^ 31 - 1 -> (u64 r <? u64 (n + 1)) = (r <=? n).
Proof. intros. rewrite !u64_small by lia. gcase; (done || lia). Qed.

Lemma effect_unshare w flag :
  0 < flag < 2 ^ 31 - 1 -> 32 <= w -> effect Reader flag NoLock (swrap w (flag - 1)).
Proof.
  intros. assert (2 ^ 31 <= 2 ^ (w - 1)) by (apply Z.pow_le_mono_r; lia).
  rewrite swrap_small by lia. constructor. lia.
Qed.


#[export] Instance shared_mutex_laws : RwLockLaws shared_mutex_pc Z.
Proof.
  refine {| pc_ok := shared_mutex_pc_ok |}; try done.
  - intros c sp p s p' s' Hc Hok Hb HW HR Hs.
    destruct p; simpl in *; try specialize (HW eq_refl); try specialize (HR eq_refl).
    + destruct c; simplify_eq/=; (split; [|constructor]); simpl in *; try done; lia.
    + unfold cas_weak in Hs. destruct (Z.eqb_spec s 0), sp; simplify_eq/=; split; constructor.
    + unfold cas_weak in Hs. destruct (Z.eqb_spec s 0), sp; simplify_eq/=; split; constructor.
    + destruct c; repeat case_match; simplify_eq/=; split; constructor.
    + simplify_eq/=. split; constructor.
    + destruct (Z.eqb_spec s (-1)); simplify_eq/=; (split; [|constructor]); simpl; (done || lia).
    + destruct (effect_share_cas 64 sp expected s Hb Hok ltac:(lia)) as [(f' & Hcas & He)|Hcas];
        rewrite Hcas in Hs; simplify_eq/=; (split; [done|]); [done|constructor].
    + destruct (Z.eqb_spec s (-1)); simplify_eq/=; (split; [|constructor]); simpl; (done || lia).
    + destruct (effect_share_cas 64 sp expected s Hb Hok ltac:(lia)) as [(f' & Hcas & He)|Hcas];
        rewrite Hcas in Hs; simplify_eq/=; (split; [done|]); [done|constructor].
    + destruct Hok as [Hr Hn]. rewrite u64_loop_test in Hs by done.
      destruct (Z.leb_spec r retries), (Z.eqb_spec s (-1)); simplify_eq/=;
        (split; [|constructor]); simpl; (done || lia).
    + destruct Hok as (He & Hr & Hn).
      destruct (effect_share_cas 64 sp expected s Hb He ltac:(lia)) as [(f' & Hcas & Heff)|Hcas];
        rewrite Hcas in Hs.
      * simplify_eq/=. done.
      * destruct (Z.ltb_spec (r + 1) (2 ^ 31)); simplify_eq/=. split; [simpl; lia|constructor].
    + destruct c; repeat case_match; simplify_eq/=; split; constructor.
    + simplify_eq/=. split; [done|]. apply effect_unshare; lia.
  - intros c sp p s Hc Hok Hb HW HR.
    destruct p; simpl in *; try specialize (HW eq_refl); try specialize (HR eq_refl);
      try (destruct (cas_weak _ _ _ _)); eauto.
    + destruct c; eauto. subst s. eauto.
    + destruct (_ <? _); eauto.
    + destruct b; eauto. destruct (Z.ltb_spec (r + 1) (2 ^ 31)); [eauto|simpl in *; lia].
    + destruct c; eauto. rewrite Z.gtb_ltb. destruct (Z.ltb_spec 0 s); [eauto|lia].
Defined.

(** * [class shared_futex]: the same protocol on 32 bits, waiting in the kernel

    [FUTEX_WAIT] may return at any time, and [FUTEX_WAKE] does not write the word:
    both are steps without effect on the state. *)
Inductive shared_futex_pc : Type :=
| SfIdle
| SfSharedLoad
| SfSharedCas (expected : Z)
| SfSharedWait
| SfHoldShared
| SfUnlockSharedSub
| SfUnlockSharedWake             (* load, wake one waiter if the word is 0 *)
| SfLock
| SfLockWait
| SfHold
| SfUnlockStore
| SfUnlockWake.

(* @source include/ipcpp/utils/mutex.h 219-266 shared_futex *)
Definition shared_futex_step (c : call) (sp : bool) (p : shared_futex_pc) (state : Z)
    : outcome (shared_futex_pc * Z) :=
  match p with
  | SfIdle =>
      Ok (match c with
          | CLock => SfLock
          | CLockShared => SfSharedLoad
          | _ => SfIdle
          end, state)
  | SfSharedLoad => Ok (if state >=? 0 then SfSharedCas state else SfSharedWait, state)
  | SfSharedCas e =>
      let (ok, state') := cas_weak sp e (i32 (e + 1)) state in
      Ok (if ok then SfHoldShared else SfSharedLoad, state')
  | SfSharedWait => Ok (SfSharedLoad, state)
  | SfHoldShared =>
      match c with
      | CUnlockShared => if state >? 0 then Ok (SfUnlockSharedSub, state) else UB
      | _ => Ok (SfHoldShared, state)
      end
  | SfUnlockSharedSub => Ok (SfUnlockSharedWake, i32 (state - 1))
  | SfUnlockSharedWake => Ok (SfIdle, state)
  | SfLock =>
      let (ok, state') := cas_weak sp 0 (-1) state in Ok (if ok then SfHold else SfLockWait, state')
  | SfLockWait => Ok (SfLock, state)
  | SfHold =>
      match c with
      | CUnlock => if state =? -1 then Ok (SfUnlockStore, state) else UB
      | _ => Ok (SfHold, state)
      end
  | SfUnlockStore => Ok (SfUnlockWake, 0)
  | SfUnlockWake => Ok (SfIdle, state)
  end.

#[export] Instance shared_futex_lock : RwLock shared_futex_pc Z := {|
  pc_idle := SfIdle;
  pc_role p :=
    match p with
    | SfHold | SfUnlockStore => Writer
    | SfHoldShared | SfUnlockSharedSub => Reader
    | _ => NoLock
    end;
  pc_step := shared_futex_step;
  word_init := 0;
  view state := state
|}.

#[export] Instance shared_futex_laws : RwLockLaws shared_futex_pc Z.
Proof.
  refine {| pc_ok := fun p => match p with SfSharedCas e => 0 <= e | _ => True end |}; try done.
  - intros c sp p s p' s' Hc Hok Hb HW HR Hs.
    destruct p; simpl in *; try specialize (HW eq_refl); try specialize (HR eq_refl).
    + destruct c; simplify_eq/=; split; constructor.
    + rewrite Z.geb_leb in Hs. destruct (Z.leb_spec 0 s); simplify_eq/=; (split; [done|constructor]).
    + destruct (effect_share_cas 32 sp expected s Hb Hok ltac:(lia)) as [(f' & Hcas & He)|Hcas];
        rewrite Hcas in Hs; simplify_eq/=; (split; [done|]); [done|constructor].
    + simplify_eq/=. split; constructor.
    + destruct c; repeat case_match; simplify_eq/=; split; constructor.
    + simplify_eq/=. split; [done|]. apply effect_unshare; lia.
    + simplify_eq/=. split; constructor.
    + unfold cas_weak in Hs. destruct (Z.eqb_spec s 0), sp; simplify_eq/=; split; constructor.
    + simplify_eq/=. split; constructor.
    + destruct c; repeat case_match; simplify_eq/=; split; constructor.
    + simplify_eq/=. split; constructor.
    + simplify_eq/=. split; constructor.
  - intros c sp p s Hc Hok Hb HW HR.
    destruct p; simpl in *; try specialize (HW eq_refl); try specialize (HR eq_refl);
      try (destruct (cas_weak _ _ _ _)); eauto.
    + destruct c; eauto. rewrite Z.gtb_ltb. destruct (Z.ltb_spec 0 s); [eauto|lia].
    + destruct c; eauto. subst s. eauto.
Defined.

(** * [class futex] *)
Inductive futex_pc : Type :=
| FxIdle
| FxLockCas                      (* lock: strong compare-exchange UNLOCKED -> LOCKED *)
| FxWaitLoad                     (* _m_wait_for_lock: load *)
| FxWaitCas                      (* _m_wait_for_lock: compare-exchange [expected] -> LOCKED *)
| FxWaitSys
| FxTryLock
| FxHold
| FxUnlockStore
| FxUnlockWake.

(** UNLOCKED is 0 and LOCKED is 1; [expected] is LOCKED at every pass of the
    waiting loop. *)
(* @source include/ipcpp/utils/mutex.h 175-216 futex *)
Definition futex_step (c : call) (p : futex_pc) (flag : Z) : futex_pc * Z :=
  match p with
  | FxIdle => (match c with CLock => FxLockCas | CTryLock => FxTryLock | _ => FxIdle end, flag)
  | FxLockCas => let (ok, flag') := cas_strong 0 1 flag in (if ok then FxHold else FxWaitLoad, flag')
  | FxWaitLoad => (if flag =? 0 then FxWaitCas else FxWaitSys, flag)
  | FxWaitCas => let (ok, flag') := cas_strong 1 1 flag in (if ok then FxHold else FxWaitSys, flag')
  | FxWaitSys => (FxWaitLoad, flag)
  | FxTryLock => let (ok, flag') := cas_strong 0 1 flag in (if ok then FxHold else FxIdle, flag')
  | FxHold => (match c with CUnlock => FxUnlockStore | _ => FxHold end, flag)
  | FxUnlockStore => (FxUnlockWake, 0)
  | FxUnlockWake => (FxIdle, flag)
  end.

#[export] Instance futex_lock : RwLock futex_pc Z := {|
  pc_idle := FxIdle;
  pc_role p := match p with FxHold | FxUnlockStore => Writer | _ => NoLock end;
  pc_step c _ p flag := Ok (futex_step c p flag);
  word_init := 0;
  view flag := - flag
|}.

(** * Executing a schedule *)
Section schedule.
Context {pc word : Type} `{L : RwLock pc word}.

(** One entry of a schedule: the thread that moves, the call it makes if it is
    between calls, and whether its weak compare-exchange fails spuriously. *)
Fixpoint lock_run (sched : list (nat * call * bool)) (x : list pc * word) : option (list pc * word) :=
  match sched with
  | [] => Some x
  | (i, c, sp) :: sched' =>
      match x.1 !! i with
      | Some p =>
          match pc_step c sp p x.2 with
          | Ok (p', s') => lock_run sched' (<[i := p']> x.1, s')
          | _ => None
          end
      | None => None
      end
  end.

Lemma lock_run_steps sched x y :
  Forall (fun e => call_ok e.1.2) sched -> lock_run sched x = Some y -> rtc lock_step x y.
Proof.
  intros Hok. revert x. induction Hok as [|[[i c] sp] sched Hc Hok IH]; intros [pcs s] Hrun; simpl in *.
  - injection Hrun as <-. constructor.
  - destruct (pcs !! i) as [p|] eqn:Hi; [|done].
    destruct (pc_step c sp p s) as [[p' s']| |] eqn:Hs; try done.
    eapply rtc_l; [by eapply lock_step_thread|by apply IH].
Qed.
End schedule.

(** * Whole calls of [shared_mutex], for the clients that run them atomically *)

(* @source include/ipcpp/utils/mutex.h 96-99 shared_mutex::try_lock *)
Definition sm_try_lock (sp : bool) (flag : Z) : bool * Z := cas_weak sp 0 (-1) flag.

(** [fails] says whether every compare-exchange of the loop failed.  The [int] that
    counts the attempts is not in the result: it overflows (undefined behaviour) after 2^31
    failed attempts of one call, which takes [retries] of at least 2^31 - 1, that is 2^30
    subscribers of one message.  The step machine above has the counter, and [call_ok]
    bounds [retries] there. *)
(* @source include/ipcpp/utils/mutex.h 151-163 shared_mutex::try_lock_shared *)
Definition sm_try_lock_shared_n (fails : bool) (retries flag : Z) : bool * Z :=
  if u64 (retries + 1) =? 0 then (false, flag)
  else if flag =? -1 then (false, flag)
  else if fails then (false, flag)
  else (true, i64 (flag + 1)).

(* @source include/ipcpp/utils/mutex.h 91-94 shared_mutex::unlock *)
Definition sm_unlock (flag : Z) : outcome Z := if flag =? -1 then Ok 0 else UB.
(* @source include/ipcpp/utils/mutex.h 114-117 shared_mutex::unlock_shared *)
Definition sm_unlock_shared (flag : Z) : outcome Z := if flag >? 0 then Ok (i64 (flag - 1)) else UB.

(** The whole calls are runs of the step machine by one thread. *)
Lemma sm_try_lock_run sp flag :
  shared_mutex_step CTryLock sp SmTryLock flag =
    Ok (if (sm_try_lock sp flag).1 then SmHold else SmIdle, (sm_try_lock sp flag).2).
Proof. simpl. unfold sm_try_lock. by destruct (cas_weak sp 0 (-1) flag). Qed.

Lemma sm_try_lock_shared_run retries flag :
  0 <= retries < 2 ^ 31 - 1 -> flag <> -1 ->
  lock_run [(0%nat, CTryLockSharedN retries, false); (0%nat, CLock, false); (0%nat, CLock, false)]
    ([SmIdle], flag) =
  Some ([SmHoldShared], (sm_try_lock_shared_n false retries flag).2).
Proof.
  intros Hr Hf. unfold sm_try_lock_shared_n. simpl.
  change (u64 0) with 0. rewrite (u64_small (retries + 1)) by lia.
  destruct (Z.ltb_spec 0 (retries + 1)), (Z.eqb_spec (retries + 1) 0); try lia.
  simpl. destruct (Z.eqb_spec flag (-1)); [done|]. simpl.
  unfold cas_weak. rewrite Z.eqb_refl. done.
Qed.

(** * Properties *)

(** C8 In every interleaving of any number of threads calling the [shared_mutex]
    operations, with spurious compare-exchange failures, a thread holding the
    lock exclusively excludes every other holder, the atomic word is -1 exactly
    when there is a writer and otherwise the number of readers, and no assertion
    of [unlock] or [unlock_shared] fails. *)
Theorem shared_mutex_safe (n : nat) (x : list shared_mutex_pc * Z) :
  Z.of_nat n < 2 ^ 31 - 1 -> lock_reachable n x -> lock_safe x.
Proof. apply lock_reachable_safe. Qed.

(** Two readers, then a writer that has to wait for both. *)
Definition shared_mutex_demo : list (nat * call * bool) :=
  [(0%nat, CLockShared, false); (0%nat, CLock, false); (1%nat, CTryLockSharedN 3, false);
   (0%nat, CLock, true); (1%nat, CLock, false); (1%nat, CLock, false); (0%nat, CLock, false);
   (0%nat, CLock, false); (2%nat, CLock, false); (2%nat, CLock, false)].

Lemma shared_mutex_safe_witness :
  Z.of_nat 3 < 2 ^ 31 - 1 /\
  lock_safe ([SmHoldShared; SmHoldShared; SmLock], 2).
Proof.
  split; [lia|].
  apply (shared_mutex_safe 3); [lia|].
  apply (lock_run_steps shared_mutex_demo); [|by vm_compute].
  repeat constructor; simpl; lia.
Defined.

(** C24 The spin lock [mutex] is mutually exclusive in every interleaving, its
    flag is set exactly when a thread holds it, and the assertion of [unlock]
    never fails for a holder. *)
Theorem mutex_safe (n : nat) (x : list mutex_pc * bool) :
  Z.of_nat n < 2 ^ 31 - 1 -> lock_reachable n x -> lock_safe x.
Proof. apply lock_reachable_safe. Qed.

Lemma mutex_safe_witness :
  Z.of_nat 2 < 2 ^ 31 - 1 /\ lock_safe ([MHold; MLockSpin], true).
Proof.
  split; [lia|].
  apply (mutex_safe 2); [lia|].
  apply (lock_run_steps [(0%nat, CLock, false); (1%nat, CLock, false); (0%nat, CLock, false);
                         (1%nat, CLock, false)]); [|by vm_compute].
  repeat constructor.
Defined.

(** C23 The kernel-waiting [shared_futex] keeps the same guarantees on its 32 bit
    word: writers are exclusive, the word counts the readers, and the assertions
    of its unlock operations hold. *)
Theorem shared_futex_safe (n : nat) (x : list shared_futex_pc * Z) :
  Z.of_nat n < 2 ^ 31 - 1 -> lock_reachable n x -> lock_safe x.
Proof. apply lock_reachable_safe. Qed.

Lemma shared_futex_safe_witness :
  Z.of_nat 2 < 2 ^ 31 - 1 /\ lock_safe ([SfHold; SfSharedWait], -1).
Proof.
  split; [lia|].
  apply (shared_futex_safe 2); [lia|].
  apply (lock_run_steps [(0%nat, CLock, false); (0%nat, CLock, false); (1%nat, CLockShared, false);
                         (1%nat, CLock, false)]); [|by vm_compute].
  repeat constructor.
Defined.

(** Running one futex thread alone. *)
Definition futex_alone (k : nat) (x : futex_pc * Z) : futex_pc * Z :=
  Nat.iter k (fun x => futex_step CLock x.1 x.2) x.

(** The program points of [_m_wait_for_lock]. *)
Definition futex_waiting (p : futex_pc) : bool :=
  match p with FxWaitLoad | FxWaitCas | FxWaitSys => true | _ => false end.

(** [futex] is not a lock: its waiting loop exchanges LOCKED for LOCKED, so
    three threads have an interleaving in which two of them hold it at once, and
    a thread that entered the loop never acquires a lock that is free and stays
    free. *)
Theorem futex_not_exclusive :
  (exists sched s, lock_run sched (lock_initial 3) = Some ([FxIdle; FxHold; FxHold], s)) /\
  (forall k p, futex_waiting p = true -> (futex_alone k (p, 0)).1 <> FxHold).
Proof.
  split.
  - exists [(0%nat, CLock, false); (0%nat, CLock, false);          (* thread 0 locks *)
            (1%nat, CLock, false); (1%nat, CLock, false);          (* thread 1 starts to wait *)
            (0%nat, CUnlock, false); (0%nat, CLock, false);        (* thread 0 unlocks ... *)
            (1%nat, CLock, false);                                 (* thread 1 reads UNLOCKED *)
            (2%nat, CLock, false); (2%nat, CLock, false);          (* thread 2 locks *)
            (1%nat, CLock, false);                                 (* thread 1's exchange succeeds *)
            (0%nat, CLock, false)], 1.
    by vm_compute.
  - intros k p Hp.
    assert (futex_waiting (futex_alone k (p, 0)).1 = true /\ (futex_alone k (p, 0)).2 = 0) as [Hw _].
    { induction k as [|k [IH1 IH2]]; [done|].
      change (futex_alone (S k) (p, 0))
        with (futex_step CLock (futex_alone k (p, 0)).1 (futex_alone k (p, 0)).2).
      destruct (futex_alone k (p, 0)) as [q f]. simpl in *. subst f. by destruct q. }
    intros Heq. by rewrite Heq in Hw.
Qed.
