(* ===== verification/Rings.v ===== *)
(** Fixed-capacity containers placed in caller-provided memory:
    [stl/fixed_size_queue.h] (FixedSizeQueue), [stl/fixed_size_stack.h]
    (FixedSizeStack), [shm/ring_buffer.h] (ring_buffer) and the layout that puts a
    header in front of a ring ([event/shm_notification_memory_layout.h]).

    The operations of the queue and of the stack run under the exclusive lock of
    their header (see Sync), so each one is a single transition of the header and
    of the item slots; the lock word is the same before and after it. *)
From S2P Require Import Prelude Numeric.

(** * FixedSizeQueue *)
Section fixed_size_queue.
Context {T : Type}.

(** An item slot: uninitialised memory, or an element with its reference counter. *)
Abbreviation slot := (option (T * Z)).

(* @source include/ipcpp/stl/fixed_size_queue.h 49-66 FixedSizeQueue::Header *)
Record queue : Type := {
  q_is_full : bool;
  q_head_idx : Z;
  q_tail_idx : Z;
  q_capacity : Z;
  q_items_offset : Z;       (* byte offset of the span of items from the start of the memory *)
  q_items : list slot
}.

Definition set_head q h := {| q_is_full := q_is_full q; q_head_idx := h; q_tail_idx := q_tail_idx q;
  q_capacity := q_capacity q; q_items_offset := q_items_offset q; q_items := q_items q |}.
Definition set_tail q t := {| q_is_full := q_is_full q; q_head_idx := q_head_idx q; q_tail_idx := t;
  q_capacity := q_capacity q; q_items_offset := q_items_offset q; q_items := q_items q |}.
Definition set_full q b := {| q_is_full := b; q_head_idx := q_head_idx q; q_tail_idx := q_tail_idx q;
  q_capacity := q_capacity q; q_items_offset := q_items_offset q; q_items := q_items q |}.
Definition set_items q l := {| q_is_full := q_is_full q; q_head_idx := q_head_idx q; q_tail_idx := q_tail_idx q;
  q_capacity := q_capacity q; q_items_offset := q_items_offset q; q_items := l |}.

(* @source include/ipcpp/stl/fixed_size_queue.h 99-101 FixedSizeQueue::required_memory_size *)
Definition q_required_memory_size (sizeof_element sizeof_header capacity : Z) : Z :=
  u64 (u64 (capacity * sizeof_element) + sizeof_header).

(** The span starts at [reinterpret_cast<Element*>(data) + sizeof(Header)]: the
    sum is in units of [Element]. *)
(* @source include/ipcpp/stl/fixed_size_queue.h 227-238 FixedSizeQueue::FixedSizeQueue *)
Definition q_construct (sizeof_element sizeof_header capacity : Z) : queue :=
  {| q_is_full := false; q_head_idx := 0; q_tail_idx := 0; q_capacity := capacity;
     q_items_offset := sizeof_element * sizeof_header;
     q_items := replicate (Z.to_nat capacity) None |}.

(* @source include/ipcpp/stl/fixed_size_queue.h 74-88 FixedSizeQueue::create *)
Definition q_create (sizeof_element sizeof_header capacity memory_size : Z) : expected queue Z :=
  let required := q_required_memory_size sizeof_element sizeof_header capacity in
  if memory_size <? required then Unexpected (u64 (required - memory_size))
  else Expected (q_construct sizeof_element sizeof_header capacity).

(** A view onto memory that already holds a queue: the header is read there, the span
    is taken over [items], the slots from the computed position on. *)
(* @source include/ipcpp/stl/fixed_size_queue.h 244-246 FixedSizeQueue::FixedSizeQueue(memory) *)
Definition q_attach (sizeof_element sizeof_header : Z) (header : queue) (items : list slot) : queue :=
  {| q_is_full := q_is_full header; q_head_idx := q_head_idx header; q_tail_idx := q_tail_idx header;
     q_capacity := q_capacity header; q_items_offset := sizeof_element * sizeof_header;
     q_items := take (Z.to_nat (q_capacity header)) items |}.

(* @source include/ipcpp/stl/fixed_size_queue.h 97-97 FixedSizeQueue::create(memory) *)
Definition q_create_view (sizeof_element sizeof_header : Z) (header : queue) (items : list slot) : expected queue Z :=
  Expected (q_attach sizeof_element sizeof_header header items).

(* @source include/ipcpp/stl/fixed_size_queue.h 103-138 FixedSizeQueue::push *)
Definition q_push (item : T) (q : queue) : outcome queue :=
  if q_is_full q then Ok q
  else
    items ← must (zinsert (q_items q) (q_tail_idx q) (Some (item, 0)));
    let q1 := set_items q items in
    let q2 := set_tail q1 (u64 (q_tail_idx q1 + 1) mod q_capacity q1) in
    Ok (if q_tail_idx q2 =? q_head_idx q2 then set_full q2 true else q2).

(* @source include/ipcpp/stl/fixed_size_queue.h 140-147 FixedSizeQueue::pop_front *)
Definition q_pop_front (q : queue) : queue :=
  set_full (set_head q (u64 (q_head_idx q + 1) mod q_capacity q)) false.

(* @source include/ipcpp/stl/fixed_size_queue.h 149-160 FixedSizeQueue::pop_back *)
Definition q_pop_back (q : queue) : queue :=
  set_full
    (if q_tail_idx q =? 0 then set_tail q (u64 (q_capacity q - 1))
     else set_tail q (u64 (q_tail_idx q - 1))) false.

(** Reading an uninitialised slot is undefined; the counter is a [size_t]. *)
Definition q_touch (q : queue) (idx : Z) : outcome (T * queue) :=
  s ← must (zlookup (q_items q) idx);
  '(v, refs) ← must s;
  items ← must (zinsert (q_items q) idx (Some (v, u64 (refs + 1))));
  Ok (v, set_items q items).

(* @source include/ipcpp/stl/fixed_size_queue.h 162-173 FixedSizeQueue::front *)
Definition q_front (q : queue) : outcome (T * queue) := q_touch q (q_head_idx q).

(* @source include/ipcpp/stl/fixed_size_queue.h 175-187 FixedSizeQueue::back *)
Definition q_back (q : queue) : outcome (T * queue) :=
  q_touch q (if q_tail_idx q =? 0 then u64 (q_capacity q - 1) else u64 (q_tail_idx q - 1)).

(* @source include/ipcpp/stl/fixed_size_queue.h 189-196 FixedSizeQueue::empty *)
Definition q_empty (q : queue) : bool := (q_head_idx q =? q_tail_idx q) && negb (q_is_full q).

(* @source include/ipcpp/stl/fixed_size_queue.h 198-214 FixedSizeQueue::size *)
Definition q_size (q : queue) : Z :=
  if q_tail_idx q =? q_head_idx q then (if q_is_full q then q_capacity q else 0)
  else if q_tail_idx q >=? q_head_idx q then u64 (q_tail_idx q - q_head_idx q)
  else u64 (u64 (q_tail_idx q + q_capacity q) - q_head_idx q).

(* @source include/ipcpp/stl/fixed_size_queue.h 222-224 FixedSizeQueue::is_full *)
Definition q_full (q : queue) : bool := q_capacity q =? q_size q.

(** ** The abstract queue: a bounded list *)

(** [q] holds the elements [xs], oldest first. *)
Record q_repr (q : queue) (xs : list T) : Prop := {
  qr_cap : 0 < q_capacity q < 2 ^ 63;
  qr_items : zlen (q_items q) = q_capacity q;
  qr_head : 0 <= q_head_idx q < q_capacity q;
  qr_tail : q_tail_idx q = (q_head_idx q + zlen xs) mod q_capacity q;
  qr_len : zlen xs <= q_capacity q;
  qr_full : q_is_full q = (zlen xs =? q_capacity q);
  qr_elem i x : xs !! i = Some x ->
    exists refs, zlookup (q_items q) ((q_head_idx q + Z.of_nat i) mod q_capacity q) = Some (Some (x, refs))
}.

(** Two positions of the ring less than the capacity apart are different slots. *)
Lemma ring_index_inj c h i j :
  0 < c -> 0 <= i < c -> 0 <= j < c -> (h + i) mod c = (h + j) mod c -> i = j.
Proof.
  intros Hc Hi Hj Heq.
  pose proof (Z.div_mod (h + i) c ltac:(lia)). pose proof (Z.div_mod (h + j) c ltac:(lia)).
  assert (c * ((h + i) / c - (h + j) / c) = i - j) by lia.
  assert ((h + i) / c - (h + j) / c = 0) by nia. lia.
Qed.

(** The wrapped position of the i-th element, for indices below the capacity. *)
Lemma ring_index c h n : 0 < c -> 0 <= h < c -> 0 <= n <= c ->
  (h + n) mod c = if h + n <? c then h + n else h + n - c.
Proof.
  intros. gcase.
  - apply Z.mod_small. lia.
  - symmetry. apply (Z.mod_unique_pos _ _ 1); lia.
Qed.

Lemma q_repr_size q xs : q_repr q xs -> q_size q = zlen xs.
Proof.
  intros [Hc Hi Hh Ht Hl Hf He]. unfold q_size. rewrite Ht, Hf.
  pose proof (zlen_nonneg xs).
  rewrite ring_index by lia.
  destruct (Z.ltb_spec (q_head_idx q + zlen xs) (q_capacity q)); gcase; try lia.
  - rewrite u64_small; lia.
  - rewrite (u64_small (_ + q_capacity q)) by lia. rewrite u64_small; lia.
Qed.

Lemma q_repr_empty q xs : q_repr q xs -> q_empty q = bool_decide (xs = []).
Proof.
  intros [Hc Hi Hh Ht Hl Hf He]. unfold q_empty. rewrite Ht, Hf.
  destruct xs as [|x xs].
  - rewrite bool_decide_true by done. unfold zlen. simpl. rewrite Z.add_0_r, Z.mod_small by lia.
    rewrite Z.eqb_refl. gcase; (done || lia).
  - rewrite bool_decide_false by done. pose proof (zlen_nonneg xs).
    assert (zlen (x :: xs) = zlen xs + 1) as Hz by (unfold zlen; simpl; lia).
    rewrite Hz in *. rewrite ring_index by lia.
    destruct (Z.ltb_spec (q_head_idx q + (zlen xs + 1)) (q_capacity q)); gcase; (done || lia).
Qed.

Lemma q_construct_repr se sh capacity :
  0 < capacity < 2 ^ 63 -> q_repr (q_construct se sh capacity) [].
Proof.
  intros Hc. split; simpl q_items; simpl q_capacity; simpl q_head_idx; simpl q_tail_idx; simpl q_is_full;
    rewrite ?zlen_nil; try lia.
  1: by apply zlen_replicate; lia.
  all: gcase; (done || lia).
Qed.

(** Storing at the tail slot keeps every stored element. *)
Lemma q_push_repr item q xs :
  q_repr q xs ->
  exists q', q_push item q = Ok q' /\
    q_repr q' (if zlen xs =? q_capacity q then xs else xs ++ [item]) /\
    q_capacity q' = q_capacity q.
Proof.
  intros Hr. pose proof Hr as [Hc Hi Hh Ht Hl Hf He]. unfold q_push. rewrite Hf.
  destruct (Z.eqb_spec (zlen xs) (q_capacity q)) as [|Hne].
  { by exists q. }
  pose proof (zlen_nonneg xs) as Hnn.
  assert (0 <= q_tail_idx q < q_capacity q) as Hti by (rewrite Ht; apply Z.mod_pos_bound; lia).
  rewrite zinsert_in by lia. simpl. eexists. split; [done|].
  rewrite u64_small by lia.
  assert ((q_tail_idx q + 1) mod q_capacity q = (q_head_idx q + zlen (xs ++ [item])) mod q_capacity q) as Htail.
  { rewrite Ht, Zplus_mod_idemp_l. f_equal. unfold zlen. rewrite length_app. simpl. lia. }
  assert (zlen (xs ++ [item]) = zlen xs + 1) as Hlen.
  { unfold zlen. rewrite length_app. simpl. lia. }
  assert (forall i x, (xs ++ [item]) !! i = Some x -> exists refs,
    zlookup (<[Z.to_nat (q_tail_idx q) := Some (item, 0)]> (q_items q))
      ((q_head_idx q + Z.of_nat i) mod q_capacity q) = Some (Some (x, refs))) as Hel.
  { intros i x Hx. rewrite zlookup_insert by lia. rewrite Ht.
    pose proof (lookup_lt_Some _ _ _ Hx) as Hlt. rewrite length_app in Hlt. simpl in Hlt.
    case_decide as Heq.
    - apply ring_index_inj in Heq; [|unfold zlen in *; lia..].
      rewrite lookup_app_r in Hx by (unfold zlen in *; lia).
      replace (i - length xs)%nat with 0%nat in Hx by (unfold zlen in *; lia).
      injection Hx as ->. eauto.
    - apply He. rewrite lookup_app_l in Hx; [done|].
      destruct (decide (i = length xs)) as [->|]; [done|lia]. }
  rewrite Htail.
  assert (((q_head_idx q + zlen (xs ++ [item])) mod q_capacity q =? q_head_idx q) =
          (zlen (xs ++ [item]) =? q_capacity q)) as Hfull.
  { rewrite ring_index by lia.
    destruct (Z.ltb_spec (q_head_idx q + zlen (xs ++ [item])) (q_capacity q)); gcase; (done || lia). }
  rewrite Hfull.
  split; [|by destruct (zlen (xs ++ [item]) =? q_capacity q)].
  destruct (Z.eqb_spec (zlen (xs ++ [item])) (q_capacity q)) as [Heq|Heq];
    split; simpl; try rewrite zlen_insert; try done; try lia; gcase; (done || lia).
Qed.

Lemma q_pop_front_repr q x xs :
  q_repr q (x :: xs) -> q_repr (q_pop_front q) xs.
Proof.
  intros [Hc Hi Hh Ht Hl Hf He].
  assert (zlen (x :: xs) = zlen xs + 1) as Hz by (unfold zlen; simpl; lia).
  pose proof (zlen_nonneg xs). unfold q_pop_front. split; simpl; try done; try lia.
  - rewrite u64_small by lia. apply Z.mod_pos_bound. lia.
  - rewrite Ht, Hz, u64_small, Zplus_mod_idemp_l by lia. f_equal. lia.
  - intros i y Hy. rewrite u64_small, Zplus_mod_idemp_l by lia.
    destruct (He (S i) y Hy) as [refs Hrefs]. exists refs. rewrite <- Hrefs. do 2 f_equal. lia.
Qed.

Lemma q_pop_back_repr q x xs :
  q_repr q (xs ++ [x]) -> q_repr (q_pop_back q) xs.
Proof.
  intros [Hc Hi Hh Ht Hl Hf He].
  assert (zlen (xs ++ [x]) = zlen xs + 1) as Hz by (unfold zlen; rewrite length_app; simpl; lia).
  pose proof (zlen_nonneg xs). rewrite Hz in *.
  assert (q_tail_idx (q_pop_back q) = (q_head_idx q + zlen xs) mod q_capacity q) as Htail.
  { unfold q_pop_back. rewrite Ht. rewrite !ring_index by lia.
    destruct (Z.ltb_spec (q_head_idx q + (zlen xs + 1)) (q_capacity q)),
      (Z.ltb_spec (q_head_idx q + zlen xs) (q_capacity q)); gcase; try lia; rewrite u64_small; lia. }
  assert (q_head_idx (q_pop_back q) = q_head_idx q /\ q_capacity (q_pop_back q) = q_capacity q /\
          q_items (q_pop_back q) = q_items q /\ q_is_full (q_pop_back q) = false) as (E1 & E2 & E3 & E4).
  { unfold q_pop_back. by destruct (q_tail_idx q =? 0). }
  split; rewrite ?E1, ?E2, ?E3, ?E4, ?Htail; try done; try lia.
  - intros i y Hy. apply He. by apply lookup_app_l_Some.
Qed.

(** Touching an element only raises its reference counter. *)
Lemma q_touch_repr q xs i x :
  q_repr q xs -> xs !! i = Some x ->
  exists q', q_touch q ((q_head_idx q + Z.of_nat i) mod q_capacity q) = Ok (x, q') /\ q_repr q' xs.
Proof.
  intros [Hc Hi Hh Ht Hl Hf He] Hx. destruct (He i x Hx) as [refs Hrefs].
  unfold q_touch. rewrite Hrefs. simpl.
  assert (0 <= (q_head_idx q + Z.of_nat i) mod q_capacity q < q_capacity q) as Hb
    by (apply Z.mod_pos_bound; lia).
  rewrite zinsert_in by lia. simpl. eexists. split; [done|].
  split; simpl; rewrite ?zlen_insert; try done; try lia.
  intros j y Hy. rewrite zlookup_insert by lia. case_decide as Heq; [|by apply He].
  pose proof (lookup_lt_Some _ _ _ Hx). pose proof (lookup_lt_Some _ _ _ Hy).
  apply ring_index_inj in Heq; [|unfold zlen in *; lia..].
  assert (i = j) as <- by lia. simplify_eq. eauto.
Qed.

Lemma q_front_repr q x xs :
  q_repr q (x :: xs) -> exists q', q_front q = Ok (x, q') /\ q_repr q' (x :: xs).
Proof.
  intros Hr. destruct (q_touch_repr q (x :: xs) 0 x Hr eq_refl) as (q' & Ht & Hr').
  rewrite Z.add_0_r, Z.mod_small in Ht by apply Hr. eauto.
Qed.

Lemma q_back_repr q x xs :
  q_repr q (xs ++ [x]) -> exists q', q_back q = Ok (x, q') /\ q_repr q' (xs ++ [x]).
Proof.
  intros Hr. destruct (q_touch_repr q (xs ++ [x]) (length xs) x Hr) as (q' & Ht & Hr').
  { by rewrite lookup_app_r, Nat.sub_diag by lia. }
  exists q'. split; [|done]. rewrite <- Ht. unfold q_back. f_equal.
  destruct Hr as [Hc Hi Hh Htl Hl Hf He].
  assert (zlen (xs ++ [x]) = zlen xs + 1) as Hz by (unfold zlen; rewrite length_app; simpl; lia).
  pose proof (zlen_nonneg xs). fold (zlen xs). rewrite Htl. rewrite !ring_index by lia.
  destruct (Z.ltb_spec (q_head_idx q + zlen (xs ++ [x])) (q_capacity q)),
    (Z.ltb_spec (q_head_idx q + zlen xs) (q_capacity q)); gcase; try lia; rewrite ?u64_small; lia.
Qed.

(** A view onto an existing queue is the queue: the processes share it. *)
Theorem queue_view_is_queue (q : queue) (xs : list T) (sizeof_element sizeof_header : Z) (beyond : list slot) :
  q_repr q xs -> q_items_offset q = sizeof_element * sizeof_header ->
  q_create_view sizeof_element sizeof_header q (q_items q ++ beyond) = Expected q.
Proof.
  intros Hq Ho. pose proof (qr_items _ _ Hq) as Hi. unfold q_create_view, q_attach.
  rewrite <- Ho, <- Hi, to_nat_zlen, take_app_length. by destruct q; simpl in *; subst.
Qed.
End fixed_size_queue.
Arguments queue : clear implicits.

(** * The queue as a bounded double-ended list *)
Section queue_spec.
Context {T : Type}.

Inductive q_op : Type :=
| QPush (x : T)
| QPopFront
| QPopBack
| QFront
| QBack
| QSize
| QEmpty.

Inductive q_result : Type :=
| RUnit
| RItem (x : T)
| RSize (n : Z)
| RBool (b : bool).

Definition q_exec (o : q_op) (q : queue T) : outcome (q_result * queue T) :=
  match o with
  | QPush x => q' ← q_push x q; Ok (RUnit, q')
  | QPopFront => Ok (RUnit, q_pop_front q)
  | QPopBack => Ok (RUnit, q_pop_back q)
  | QFront => '(x, q') ← q_front q; Ok (RItem x, q')
  | QBack => '(x, q') ← q_back q; Ok (RItem x, q')
  | QSize => Ok (RSize (q_size q), q)
  | QEmpty => Ok (RBool (q_empty q), q)
  end.

(** The contract: [None] is a call outside its precondition (removing or reading
    an element of an empty queue, which the documentation calls undefined for
    [front]). *)
Definition q_spec (capacity : Z) (o : q_op) (xs : list T) : option (q_result * list T) :=
  match o with
  | QPush x => Some (RUnit, if zlen xs =? capacity then xs else xs ++ [x])
  | QPopFront => match xs with [] => None | _ :: xs' => Some (RUnit, xs') end
  | QPopBack => match last xs with None => None | Some _ => Some (RUnit, removelast xs) end
  | QFront => match xs with [] => None | x :: _ => Some (RItem x, xs) end
  | QBack => match last xs with None => None | Some x => Some (RItem x, xs) end
  | QSize => Some (RSize (zlen xs), xs)
  | QEmpty => Some (RBool (bool_decide (xs = [])), xs)
  end.

Fixpoint q_run (ops : list q_op) (q : queue T) : outcome (list q_result * queue T) :=
  match ops with
  | [] => Ok ([], q)
  | o :: ops' =>
    '(r, q1) ← q_exec o q;
    '(rs, q2) ← q_run ops' q1;
    Ok (r :: rs, q2)
  end.

Fixpoint q_spec_run (capacity : Z) (ops : list q_op) (xs : list T) : option (list q_result * list T) :=
  match ops with
  | [] => Some ([], xs)
  | o :: ops' =>
    '(r, xs1) ← q_spec capacity o xs;
    '(rs, xs2) ← q_spec_run capacity ops' xs1;
    Some (r :: rs, xs2)
  end.

Lemma q_touch_capacity (q : queue T) i x q' : q_touch q i = Ok (x, q') -> q_capacity q' = q_capacity q.
Proof.
  unfold q_touch. rewrite bind_Ok. intros (s & _ & H). apply bind_Ok in H as ([v r] & _ & H).
  apply bind_Ok in H as (l & _ & H). by injection H as _ <-.
Qed.

Lemma last_snoc_inv (xs : list T) x : last xs = Some x -> xs = removelast xs ++ [x].
Proof.
  intros H. destruct xs as [|y xs] using rev_ind; [done|].
  rewrite last_snoc in H. injection H as ->. by rewrite removelast_last.
Qed.

(** One operation of the queue is one operation of the list. *)
Lemma q_exec_repr o q xs r xs' :
  q_repr q xs -> q_spec (q_capacity q) o xs = Some (r, xs') ->
  exists q', q_exec o q = Ok (r, q') /\ q_repr q' xs' /\ q_capacity q' = q_capacity q.
Proof.
  intros Hr Hs. destruct o; simpl in Hs.
  - injection Hs as <- <-. destruct (q_push_repr x q xs Hr) as (q' & Hp & Hr' & Hc).
    exists q'. simpl. by rewrite Hp.
  - destruct xs as [|x xs1]; simplify_eq. eexists. split; [done|].
    split; [by eapply q_pop_front_repr|done].
  - destruct (last xs) as [x|] eqn:Hx; simplify_eq. apply last_snoc_inv in Hx. rewrite Hx in Hr.
    eexists. split; [done|]. split; [by eapply q_pop_back_repr|].
    unfold q_pop_back. by destruct (q_tail_idx q =? 0).
  - destruct xs as [|x xs1]; simplify_eq. destruct (q_front_repr q x xs1 Hr) as (q' & Hf & Hr').
    exists q'. simpl. rewrite Hf. simpl. split_and!; [done..|]. by eapply q_touch_capacity.
  - destruct (last xs) as [x|] eqn:Hx; simplify_eq. apply last_snoc_inv in Hx.
    rewrite Hx in Hr |- *. destruct (q_back_repr q x _ Hr) as (q' & Hf & Hr').
    exists q'. simpl. rewrite Hf. simpl. split_and!; [done..|]. by eapply q_touch_capacity.
  - simplify_eq. exists q. simpl. by rewrite (q_repr_size q xs').
  - simplify_eq. exists q. simpl. by rewrite (q_repr_empty q xs').
Qed.

(** C10 FixedSizeQueue refines a bounded list: a queue created in enough memory
    answers any sequence of push, pop_front, pop_back, front, back, size and empty
    calls that respects their preconditions exactly as a list of at most
    [capacity] elements does (a push on a full queue changes nothing), without
    ever touching a slot that is out of range or uninitialised. *)
Theorem queue_refines_bounded_list (se sh capacity : Z) (ops : list q_op) rs xs :
  0 < capacity < 2 ^ 63 ->
  q_spec_run capacity ops [] = Some (rs, xs) ->
  exists q', q_run ops (q_construct se sh capacity) = Ok (rs, q') /\ q_repr q' xs.
Proof.
  intros Hc. pose proof (@q_construct_repr T se sh capacity Hc) as Hr.
  assert (q_capacity (@q_construct T se sh capacity) = capacity) as Hcap by done.
  revert Hr Hcap. generalize (@q_construct T se sh capacity). generalize (@nil T).
  revert rs xs. induction ops as [|o ops IH]; simpl; intros rs xs ys q Hr Hcap Hs.
  { simplify_eq. eauto. }
  apply bind_Some in Hs as ([r xs1] & Hs1 & Hs). apply bind_Some in Hs as ([rs' xs2] & Hs2 & Hs).
  simplify_eq. destruct (q_exec_repr o q ys r xs1 Hr Hs1) as (q1 & He & Hr1 & Hcap1).
  destruct (IH rs' xs xs1 q1 Hr1 Hcap1 Hs2) as (q' & Hrun & Hr').
  exists q'. rewrite He. simpl. by rewrite Hrun.
Qed.
End queue_spec.
Arguments q_op : clear implicits.

Lemma queue_refines_bounded_list_witness :
  let ops := [QPush 1; QPush 2; QPush 3; QSize; QFront; QPopFront; QPush 4; QBack; QPopBack; QSize; QFront] in
  0 < 2 < 2 ^ 63 /\
  q_spec_run 2 ops [] = Some ([RUnit; RUnit; RUnit; RSize 2; RItem 1; RUnit; RUnit; RItem 4; RUnit; RSize 1; RItem 2], [2]) /\
  exists q', q_run ops (q_construct 16 104 2) =
    Ok ([RUnit; RUnit; RUnit; RSize 2; RItem 1; RUnit; RUnit; RItem 4; RUnit; RSize 1; RItem 2], q') /\ q_repr q' [2].
Proof.
  split; [lia|]. split; [reflexivity|].
  apply (queue_refines_bounded_list 16 104 2); [lia|reflexivity].
Defined.

(** [pop_front] does not look at the number of elements: on an empty queue it
    moves the head past the tail and the queue claims [capacity - 1] elements.  The
    items start [sizeof(Header)] elements, not bytes, after the memory, so the
    last item of a queue that [create] accepts lies outside the memory. *)
(** Popping an empty queue corrupts it: the size becomes [capacity - 1] although
    nothing was pushed.  And the item array of a queue [create] accepts in a memory
    of exactly [required_memory_size] bytes ends beyond that memory. *)
Theorem queue_limits {T : Type} (se sh capacity : Z) (q : queue T) :
  1 < se -> 0 < sh -> 1 < capacity < 2 ^ 63 -> capacity * se + sh < 2 ^ 64 ->
  q_create se sh capacity (q_required_memory_size se sh capacity) = Expected q ->
  q_size q = 0 /\ q_size (q_pop_front q) = capacity - 1 /\
  q_required_memory_size se sh capacity < q_items_offset q + capacity * se.
Proof.
  intros Hse Hsh Hc Hov. unfold q_create. rewrite Z.ltb_irrefl. intros [= <-].
  unfold q_required_memory_size. rewrite (u64_small (capacity * se)), u64_small by nia.
  assert (u64 (0 + 1) mod capacity = 1) as Hh.
  { rewrite u64_small, Z.mod_small; lia. }
  split; [done|]. split.
  - unfold q_size, q_pop_front, set_full, set_head. cbn [q_is_full q_head_idx q_tail_idx q_capacity q_construct].
    rewrite Hh. gcase; try lia. rewrite (u64_small (0 + capacity)), u64_small by lia. lia.
  - simpl. nia.
Qed.

Lemma queue_limits_witness :
  1 < 16 /\ 0 < 40 /\ 1 < 4 < 2 ^ 63 /\ 4 * 16 + 40 < 2 ^ 64 /\
  q_size (q_pop_front (@q_construct Z 16 40 4)) = 3.
Proof.
  split_and!; [lia..|].
  apply (queue_limits 16 40 4 (q_construct 16 40 4)); (lia || reflexivity).
Defined.

(** * FixedSizeStack *)
Section fixed_size_stack.
Context {T : Type}.

(* @source include/ipcpp/stl/fixed_size_stack.h 44-64 FixedSizeStack::Header *)
Record stack : Type := {
  s_head_idx : Z;
  s_capacity : Z;
  s_items_offset : Z;
  s_items : list (option (T * Z))
}.

Definition s_update (s : stack) h l := {| s_head_idx := h; s_capacity := s_capacity s;
  s_items_offset := s_items_offset s; s_items := l |}.

(* @source include/ipcpp/stl/fixed_size_stack.h 95-97 FixedSizeStack::required_memory_size *)
Definition s_required_memory_size (sizeof_element sizeof_header capacity : Z) : Z :=
  u64 (u64 (capacity * sizeof_element) + sizeof_header).

(* @source include/ipcpp/stl/fixed_size_stack.h 189-193 FixedSizeStack::FixedSizeStack *)
Definition s_construct (sizeof_element sizeof_header capacity : Z) : stack :=
  {| s_head_idx := 0; s_capacity := capacity; s_items_offset := sizeof_element * sizeof_header;
     s_items := replicate (Z.to_nat capacity) None |}.

(* @source include/ipcpp/stl/fixed_size_stack.h 74-84 FixedSizeStack::create *)
Definition s_create (sizeof_element sizeof_header capacity memory_size : Z) : expected stack Z :=
  if memory_size <? u64 (capacity * sizeof_element) then Unexpected (-1)
  else Expected (s_construct sizeof_element sizeof_header capacity).

(* @source include/ipcpp/stl/fixed_size_stack.h 199-201 FixedSizeStack::FixedSizeStack(memory) *)
Definition s_attach (sizeof_element sizeof_header head capacity : Z) (items : list (option (T * Z))) : stack :=
  {| s_head_idx := head; s_capacity := capacity; s_items_offset := sizeof_element * sizeof_header;
     s_items := take (Z.to_nat capacity) items |}.

(* @source include/ipcpp/stl/fixed_size_stack.h 93-93 FixedSizeStack::create(memory) *)
Definition s_create_view (sizeof_element sizeof_header head capacity : Z) (items : list (option (T * Z))) : expected stack Z :=
  Expected (s_attach sizeof_element sizeof_header head capacity items).

(* @source include/ipcpp/stl/fixed_size_stack.h 104-129 FixedSizeStack::push *)
Definition s_push (item : T) (s : stack) : outcome stack :=
  if s_head_idx s >? s_capacity s then Ok s
  else
    items ← must (zinsert (s_items s) (s_head_idx s) (Some (item, 0)));
    Ok (s_update s (u64 (s_head_idx s + 1)) items).

(* @source include/ipcpp/stl/fixed_size_stack.h 133-139 FixedSizeStack::pop *)
Definition s_pop (s : stack) : stack :=
  if s_head_idx s =? 0 then s else s_update s (u64 (s_head_idx s - 1)) (s_items s).

(* @source include/ipcpp/stl/fixed_size_stack.h 147-152 FixedSizeStack::front *)
Definition s_front (s : stack) : outcome (T * stack) :=
  let idx := u64 (s_head_idx s - 1) in
  e ← must (zlookup (s_items s) idx);
  '(v, refs) ← must e;
  items ← must (zinsert (s_items s) idx (Some (v, u64 (refs + 1))));
  Ok (v, s_update s (s_head_idx s) items).

(* @source include/ipcpp/stl/fixed_size_stack.h 158-161 FixedSizeStack::empty *)
Definition s_empty (s : stack) : bool := s_head_idx s =? 0.

(* @source include/ipcpp/stl/fixed_size_stack.h 167-173 FixedSizeStack::size *)
Definition s_size (s : stack) : Z :=
  if s_head_idx s >? s_capacity s then s_capacity s else s_head_idx s.

(** [s] holds the elements [xs], bottom first. *)
Record s_repr (s : stack) (xs : list T) : Prop := {
  sr_cap : 0 <= s_capacity s < 2 ^ 63;
  sr_items : zlen (s_items s) = s_capacity s;
  sr_head : s_head_idx s = zlen xs;
  sr_len : zlen xs <= s_capacity s;
  sr_elem i x : xs !! i = Some x -> exists refs, s_items s !! i = Some (Some (x, refs))
}.

Lemma s_construct_repr se sh capacity :
  0 <= capacity < 2 ^ 63 -> s_repr (s_construct se sh capacity) [].
Proof.
  intros Hc. split; simpl s_items; simpl s_capacity; simpl s_head_idx; rewrite ?zlen_nil; try lia.
  all: first [ apply zlen_replicate; lia | simpl; lia | done ].
Qed.

Lemma s_push_repr item s xs :
  s_repr s xs -> zlen xs < s_capacity s ->
  exists s', s_push item s = Ok s' /\ s_repr s' (xs ++ [item]) /\ s_capacity s' = s_capacity s.
Proof.
  intros [Hc Hi Hh Hl He] Hlt. pose proof (zlen_nonneg xs). unfold s_push.
  rewrite Hh. gcase; [lia|]. rewrite zinsert_in by lia. simpl. eexists. split; [done|].
  split; [|done]. split; simpl; rewrite ?zlen_insert, ?zlen_app, ?zlen_cons, ?zlen_nil; try lia.
  - apply u64_small. lia.
  - intros i x Hx. destruct (decide (i = length xs)) as [->|Hne].
    + rewrite lookup_app_r, Nat.sub_diag in Hx by lia. injection Hx as ->.
      exists 0. rewrite to_nat_zlen. apply list_lookup_insert_eq. unfold zlen in *. lia.
    + pose proof (lookup_lt_Some _ _ _ Hx) as Hb. rewrite length_app in Hb. simpl in Hb.
      rewrite lookup_app_l in Hx by lia. destruct (He i x Hx) as [refs Hrefs]. exists refs.
      rewrite to_nat_zlen, list_lookup_insert_ne; [done|lia].
Qed.

Lemma s_pop_repr s x xs : s_repr s (xs ++ [x]) -> s_repr (s_pop s) xs.
Proof.
  intros [Hc Hi Hh Hl He]. rewrite zlen_app, zlen_cons, zlen_nil in *. pose proof (zlen_nonneg xs).
  unfold s_pop. gcase; [lia|]. split; simpl; try lia.
  - rewrite Hh, u64_small; lia.
  - intros i y Hy. apply He. by apply lookup_app_l_Some.
Qed.

Lemma s_front_repr s x xs :
  s_repr s (xs ++ [x]) -> exists s', s_front s = Ok (x, s') /\ s_repr s' (xs ++ [x]).
Proof.
  intros [Hc Hi Hh Hl He]. pose proof Hl as Hl'. pose proof Hh as Hh'.
  rewrite zlen_app, zlen_cons, zlen_nil in Hl', Hh'. pose proof (zlen_nonneg xs).
  destruct (He (length xs) x) as [refs Hrefs].
  { by rewrite lookup_app_r, Nat.sub_diag by lia. }
  unfold s_front. rewrite Hh', u64_small by lia.
  replace (zlen xs + (0 + 1) - 1) with (zlen xs) by lia.
  rewrite zlookup_zlen, Hrefs. simpl.
  rewrite zinsert_in by lia. simpl. eexists. split; [done|].
  split; simpl; rewrite ?zlen_insert; try done; try lia.
  intros i y Hy. rewrite to_nat_zlen. destruct (decide (i = length xs)) as [->|Hne].
  - rewrite lookup_app_r, Nat.sub_diag in Hy by lia. injection Hy as ->.
    eexists. apply list_lookup_insert_eq. unfold zlen in *. lia.
  - rewrite list_lookup_insert_ne by done. by apply He.
Qed.

Lemma s_repr_size s xs : s_repr s xs -> s_size s = zlen xs /\ s_empty s = bool_decide (xs = []).
Proof.
  intros [Hc Hi Hh Hl He]. unfold s_size, s_empty. rewrite Hh. pose proof (zlen_nonneg xs). split.
  - gcase; lia.
  - destruct xs; [done|]. rewrite bool_decide_false by done.
    pose proof (zlen_nonneg xs). rewrite zlen_cons in *. gcase; [lia|done].
Qed.

(** A view taken with the size of the element the stack was created with, from the
    same memory (whatever follows the items there), is the stack itself. *)
Theorem stack_view_is_stack (s : stack) (xs : list T) (sizeof_element sizeof_header : Z) (beyond : list (option (T * Z))) :
  s_repr s xs -> s_items_offset s = sizeof_element * sizeof_header ->
  s_create_view sizeof_element sizeof_header (s_head_idx s) (s_capacity s) (s_items s ++ beyond) = Expected s.
Proof.
  intros [Hc Hi _ _ _] Ho. unfold s_create_view, s_attach. rewrite <- Ho, <- Hi, to_nat_zlen, take_app_length.
  by destruct s; simpl in *; subst.
Qed.

(** FixedSizeStack is a last-in-first-out list: below its capacity a push adds
    the element on top, [front] returns the top, [pop] removes it (and does nothing
    on an empty stack), [size]/[empty] report the number of elements.  At capacity
    the guard [_head_idx > _capacity] is off by one: a push writes one element
    past the array (undefined behaviour). *)
Theorem stack_refines_list (s : stack) (xs : list T) (item : T) :
  s_repr s xs ->
  s_size s = zlen xs /\ s_empty s = bool_decide (xs = []) /\
  (zlen xs < s_capacity s ->
     exists s' s'', s_push item s = Ok s' /\ s_repr s' (xs ++ [item]) /\
       s_front s' = Ok (item, s'') /\ s_repr (s_pop s') xs) /\
  (xs = [] -> s_pop s = s) /\
  (zlen xs = s_capacity s -> s_push item s = UB).
Proof.
  intros Hr. destruct (s_repr_size s xs Hr) as [H1 H2]. split_and!; [done..| | |].
  - intros Hlt. destruct (s_push_repr item s xs Hr Hlt) as (s' & Hp & Hr' & _).
    destruct (s_front_repr s' item xs Hr') as (s'' & Hf & _).
    exists s', s''. split_and!; [done..|]. by eapply s_pop_repr.
  - intros ->. destruct Hr as [Hc Hi Hh Hl He]. unfold s_pop. by rewrite Hh.
  - intros Heq. destruct Hr as [Hc Hi Hh Hl He]. unfold s_push. rewrite Hh. gcase; [lia|].
    rewrite zinsert_out by lia. done.
Qed.
End fixed_size_stack.
Arguments stack : clear implicits.

Lemma stack_refines_list_witness :
  s_repr (s_construct 16 40 0) (@nil Z) /\ s_push 5 (s_construct 16 40 0) = UB.
Proof.
  assert (s_repr (s_construct 16 40 0) (@nil Z)) as Hr by (apply s_construct_repr; lia).
  split; [done|]. apply (stack_refines_list (s_construct 16 40 0) [] 5 Hr). reflexivity.
Defined.

(** * ring_buffer *)
Section ring_buffer.
Context {V : Type} (sizeof_value : Z) (value_init : V).

(** [sizeof(_s_header)]: three 64-bit words. *)
Definition rb_sizeof_header : Z := 24.

(* @source include/ipcpp/shm/ring_buffer.h 22-30 ring_buffer::_s_header *)
Record ring : Type := {
  rb_start : Z;
  rb_end : Z;
  rb_next_index : Z;
  rb_buffer : list V
}.

(* @source include/ipcpp/shm/ring_buffer.h 33-35 ring_buffer::required_bytes_for *)
Definition rb_required_bytes_for (num_elements : Z) : Z :=
  u64 (align_up rb_sizeof_header 16 + u64 (num_elements * sizeof_value)).

(* @source include/ipcpp/shm/ring_buffer.h 38-45 ring_buffer::ring_buffer *)
Definition rb_construct (size : Z) : ring :=
  let header_size := align_up rb_sizeof_header 16 in
  {| rb_start := header_size;
     rb_end := i64 (u64 (size - header_size));
     rb_next_index := 0;
     rb_buffer := replicate (Z.to_nat (u64 (size - header_size) / sizeof_value)) value_init |}.

(* @source include/ipcpp/shm/ring_buffer.h 86-86 ring_buffer::_m_num_bytes *)
Definition rb_num_bytes (r : ring) : Z := u64 (rb_end r - rb_start r).

(* @source include/ipcpp/shm/ring_buffer.h 76-76 ring_buffer::size *)
Definition rb_size (r : ring) : Z := rb_num_bytes r / sizeof_value.

Definition rb_update (r : ring) n b := {| rb_start := rb_start r; rb_end := rb_end r; rb_next_index := n; rb_buffer := b |}.

(* @source include/ipcpp/shm/ring_buffer.h 58-69 ring_buffer::emplace *)
Definition rb_emplace (v : V) (r : ring) : outcome (Z * ring) :=
  let idx := if rb_next_index r >=? rb_size r then 0 else rb_next_index r in
  b ← must (zinsert (rb_buffer r) idx v);
  Ok (idx, rb_update r (u64 (idx + 1)) b).

(** [idx % size()] divides by zero in an empty buffer. *)
(* @source include/ipcpp/shm/ring_buffer.h 71-74 ring_buffer::emplace_at *)
Definition rb_emplace_at (idx : Z) (v : V) (r : ring) : outcome ring :=
  _ ← require (negb (rb_size r =? 0));
  b ← must (zinsert (rb_buffer r) (idx mod rb_size r) v);
  Ok (rb_update r (rb_next_index r) b).

(* @source include/ipcpp/shm/ring_buffer.h 78-79 ring_buffer::operator[] *)
Definition rb_get (idx : Z) (r : ring) : outcome V :=
  _ ← require (negb (rb_size r =? 0));
  must (zlookup (rb_buffer r) (idx mod rb_size r)).

(** The view of a process that attaches to an existing buffer: the span is as
    long as [size()] says. *)
(* @source include/ipcpp/shm/ring_buffer.h 47-50 ring_buffer::ring_buffer(start) *)
Definition rb_attach (mem : list V) (r : ring) : ring :=
  rb_update r (rb_next_index r) (take (Z.to_nat (rb_size r)) mem).

(* @source include/ipcpp/shm/ring_buffer.h 81-83 ring_buffer::get_index *)
Definition rb_get_index (buffer_addr p : Z) : Z := (p - buffer_addr) / sizeof_value.

(** A run of insertions, with the index each one was stored at. *)
Fixpoint rb_emplaces (vs : list V) (r : ring) : outcome (list Z * ring) :=
  match vs with
  | [] => Ok ([], r)
  | v :: vs' =>
    '(i, r1) ← rb_emplace v r;
    '(idxs, r2) ← rb_emplaces vs' r1;
    Ok (i :: idxs, r2)
  end.

(** [r] has [k] usable places and received the values [vs], of which the last [k]
    are still there, the j-th one at place [j mod k]. *)
Record rb_repr (k : Z) (r : ring) (vs : list V) : Prop := {
  rr_size : rb_size r = k;
  rr_k : 0 < k < 2 ^ 64;
  rr_buffer : k <= zlen (rb_buffer r);
  rr_next : 0 <= rb_next_index r <= k /\ rb_next_index r mod k = zlen vs mod k;
  rr_elem j v : vs !! j = Some v -> zlen vs - k <= Z.of_nat j ->
    zlookup (rb_buffer r) (Z.of_nat j mod k) = Some v
}.

Lemma rb_construct_repr size :
  0 < sizeof_value < 2 ^ 63 -> 64 + sizeof_value <= size < 2 ^ 63 ->
  rb_repr ((size - 64) / sizeof_value) (rb_construct size) [].
Proof.
  intros Hs Hsize.
  assert (align_up rb_sizeof_header 16 = 32) as Ha by reflexivity.
  assert (rb_size (rb_construct size) = (size - 64) / sizeof_value) as Hsz.
  { unfold rb_size, rb_num_bytes, rb_construct. rewrite Ha. cbn [rb_end rb_start].
    rewrite (u64_small (size - 32)), i64_small, u64_small by lia. f_equal. lia. }
  pose proof (Z.div_le_mono (size - 64) (size - 32) sizeof_value ltac:(lia) ltac:(lia)).
  pose proof (Z.div_str_pos (size - 64) sizeof_value ltac:(lia)).
  pose proof (Z.div_le_upper_bound (size - 64) sizeof_value (2 ^ 63) ltac:(lia) ltac:(nia)).
  split; [done|lia| | |done].
  - unfold rb_construct. rewrite Ha. cbn [rb_buffer]. rewrite u64_small by lia.
    rewrite zlen_replicate; lia.
  - simpl. split; [lia|]. done.
Qed.

Lemma rb_emplace_repr k r vs v :
  rb_repr k r vs ->
  exists r', rb_emplace v r = Ok (zlen vs mod k, r') /\ rb_repr k r' (vs ++ [v]).
Proof.
  intros [Hs Hk Hb [Hn Hm] He].
  assert ((if rb_next_index r >=? rb_size r then 0 else rb_next_index r) = zlen vs mod k) as Hidx.
  { rewrite Hs, <- Hm. gcase.
    - replace (rb_next_index r) with k by lia. by rewrite Z_mod_same_full.
    - symmetry. apply Z.mod_small. lia. }
  unfold rb_emplace. rewrite Hidx.
  pose proof (Z.mod_pos_bound (zlen vs) k ltac:(lia)) as Hpos.
  rewrite zinsert_in by lia. simpl. eexists. split; [done|].
  rewrite u64_small by lia.
  split; simpl; rewrite ?zlen_insert; try lia.
  - by unfold rb_size, rb_num_bytes in *.
  - split; [lia|]. rewrite Zplus_mod_idemp_l. f_equal. by rewrite zlen_app, zlen_cons.
  - intros j w Hw Hj. rewrite zlen_app, zlen_cons, zlen_nil in Hj.
    rewrite zlookup_insert by lia.
    pose proof (lookup_lt_Some _ _ _ Hw) as Hlt. rewrite length_app in Hlt. simpl in Hlt.
    destruct (decide (j = length vs)) as [->|Hne].
    + rewrite lookup_app_r, Nat.sub_diag in Hw by lia. injection Hw as ->.
      by rewrite decide_True.
    + rewrite lookup_app_l in Hw by lia. rewrite decide_False.
      * apply He; [done|lia].
      * intros Heq. unfold zlen in *.
        assert ((Z.of_nat j + (Z.of_nat (length vs) - Z.of_nat j)) mod k = (Z.of_nat j + 0) mod k) as Heq'.
        { rewrite Z.add_0_r. rewrite <- Heq. f_equal. lia. }
        apply ring_index_inj in Heq'; lia.
Qed.

Lemma rb_emplaces_repr k vs : forall r ws, rb_repr k r ws ->
  exists r', rb_emplaces vs r = Ok (imap (fun j _ => (zlen ws + Z.of_nat j) mod k) vs, r') /\
             rb_repr k r' (ws ++ vs).
Proof.
  induction vs as [|v vs IH]; intros r ws Hr; simpl.
  { exists r. by rewrite app_nil_r. }
  destruct (rb_emplace_repr k r ws v Hr) as (r1 & -> & Hr1).
  destruct (IH r1 _ Hr1) as (r2 & Hr2 & Hrepr). simpl. rewrite Hr2. simpl.
  rewrite <- app_assoc in Hrepr. exists r2. split; [|done]. do 3 f_equal; [f_equal; lia|].
  apply imap_ext. intros j x _. simpl. f_equal. rewrite zlen_app, zlen_cons, zlen_nil. lia.
Qed.

(** C32 A ring buffer built in [size] bytes has [k = (size - 2 * align_up(header)) /
    sizeof(T)] usable places (the end offset is stored as a length, so one header
    is subtracted twice).  If there is at least one, any number of insertions
    succeeds, the j-th value goes to place [j mod k], and exactly the last [k]
    values can be read back with [operator[]] at their sequence numbers. *)
Theorem ring_buffer_keeps_last (size : Z) (vs : list V) :
  let k := (size - 64) / sizeof_value in
  0 < sizeof_value < 2 ^ 63 -> 64 + sizeof_value <= size < 2 ^ 63 ->
  exists r, rb_emplaces vs (rb_construct size) = Ok (imap (fun j _ => Z.of_nat j mod k) vs, r) /\
    forall j v, vs !! j = Some v -> zlen vs - k <= Z.of_nat j -> rb_get (Z.of_nat j) r = Ok v.
Proof.
  intros k Hs Hsize. destruct (rb_emplaces_repr k vs _ _ (rb_construct_repr size Hs Hsize)) as (r & He & Hr).
  exists r. split; [done|]. intros j v Hj Hk. destruct Hr as [Hsz Hk' Hb _ Hel].
  unfold rb_get. rewrite Hsz. gcase; [lia|]. by rewrite (Hel j v Hj Hk).
Qed.
End ring_buffer.

Lemma ring_buffer_keeps_last_witness :
  0 < 8 < 2 ^ 63 /\ 64 + 8 <= 80 < 2 ^ 63 /\
  exists r, rb_emplaces 8 [10; 11; 12] (rb_construct 8 0 80) = Ok ([0; 1; 0], r) /\ rb_get 8 2 r = Ok 12.
Proof.
  split; [lia|]. split; [lia|].
  destruct (ring_buffer_keeps_last 8 0 80 [10; 11; 12]) as (r & Hr & Hg); [lia|lia|].
  exists r. split; [exact Hr|]. apply (Hg 2%nat); [reflexivity|]. vm_compute. discriminate.
Defined.

(** The memory that [required_bytes_for(n)] asks for is not enough for [n]
    elements: the buffer built in it reports fewer than [n] places, so [n]
    consecutive insertions already overwrite the first one. *)
Theorem ring_buffer_loses_header (sizeof_value n : Z) (v : Z) :
  0 < sizeof_value -> 32 <= n * sizeof_value < 2 ^ 62 ->
  rb_size sizeof_value (rb_construct sizeof_value v (rb_required_bytes_for sizeof_value n)) = n - (32 + sizeof_value - 1) / sizeof_value
  /\ n - (32 + sizeof_value - 1) / sizeof_value < n.
Proof.
  intros Hs Hn. assert (align_up rb_sizeof_header 16 = 32) as Ha by reflexivity.
  unfold rb_required_bytes_for, rb_size, rb_num_bytes, rb_construct. rewrite Ha. cbn [rb_end rb_start].
  rewrite (u64_small (n * sizeof_value)), (u64_small (32 + n * sizeof_value)) by lia.
  replace (32 + n * sizeof_value - 32) with (n * sizeof_value) by lia.
  rewrite (u64_small (n * sizeof_value)), i64_small, u64_small by lia.
  pose proof (Z.div_mod (32 + sizeof_value - 1) sizeof_value ltac:(lia)).
  pose proof (Z.mod_pos_bound (32 + sizeof_value - 1) sizeof_value ltac:(lia)).
  split.
  - symmetry. apply (Z.div_unique_pos _ _ _ (sizeof_value * ((32 + sizeof_value - 1) / sizeof_value) - 32)); nia.
  - pose proof (Z.div_str_pos (32 + sizeof_value - 1) sizeof_value ltac:(lia)). lia.
Qed.

Lemma ring_buffer_loses_header_witness :
  0 < 8 /\ 32 <= 10 * 8 < 2 ^ 62 /\
  rb_size 8 (rb_construct 8 0 (rb_required_bytes_for 8 10)) = 6 /\ 6 < 10.
Proof. split; [lia|]. split; [lia|]. apply (ring_buffer_loses_header 8 10 0); lia. Defined.

(** * shm_notification_memory_layout *)
Section notification_layout.
Context {M H : Type} (sizeof_message sizeof_header : Z) (message_init : M).

(* @source include/ipcpp/event/shm_notification_memory_layout.h 20-23 shm_atomic_notification_header *)
Record atomic_notification_header : Type := { anh_message_counter : Z; anh_num_subscribers : Z }.
Definition atomic_notification_header_init : atomic_notification_header := {| anh_message_counter := -1; anh_num_subscribers := 0 |}.

(* @source include/ipcpp/event/shm_notification_memory_layout.h 40-47 shm_notification_memory_layout::message_type *)
Record notification_message : Type := { nm_message : M; nm_message_number : Z }.

(* @source include/ipcpp/event/shm_notification_memory_layout.h 42-43 shm_notification_memory_layout::message_type::message_type *)
Definition notification_construct (msg_number : Z) (args : M) : notification_message :=
  {| nm_message := args; nm_message_number := i64 msg_number |}.

Definition notification_init : notification_message := {| nm_message := message_init; nm_message_number := -1 |}.

(** No header is the null pointer of an object that was moved from. *)
(* @source include/ipcpp/event/shm_notification_memory_layout.h 62-63 shm_notification_memory_layout *)
Record notification_layout : Type := { nl_header : option H; nl_message_buffer : ring (V := notification_message) }.

(* @source include/ipcpp/event/shm_notification_memory_layout.h 35-37 shm_notification_memory_layout::required_bytes_for *)
Definition nl_required_bytes_for (queue_size : Z) : Z :=
  u64 (align_up sizeof_header 16 + rb_required_bytes_for sizeof_message queue_size).

(* @source include/ipcpp/event/shm_notification_memory_layout.h 50-53 shm_notification_memory_layout::shm_notification_memory_layout *)
Definition nl_construct (size : Z) (header : H) : notification_layout :=
  {| nl_header := Some header; nl_message_buffer := rb_construct sizeof_message notification_init (u64 (size - align_up sizeof_header 16)) |}.

(** [memory]: the messages behind the two headers that are found at the address. *)
(* @source include/ipcpp/event/shm_notification_memory_layout.h 55-56 shm_notification_memory_layout::shm_notification_memory_layout(addr) *)
Definition nl_attach (header : H) (r : ring (V := notification_message)) (memory : list notification_message) : notification_layout :=
  {| nl_header := Some header; nl_message_buffer := rb_attach sizeof_message memory r |}.

(** The ring of the new object is a copy of the view: the object that was moved from still
    refers to the buffer. *)
(* @source include/ipcpp/event/shm_notification_memory_layout.h 58-60 shm_notification_memory_layout::shm_notification_memory_layout(other) *)
Definition nl_move_construct (other : notification_layout) : notification_layout * notification_layout :=
  ({| nl_header := nl_header other; nl_message_buffer := nl_message_buffer other |},
   {| nl_header := None; nl_message_buffer := nl_message_buffer other |}).

(** [message_buffer.emplace_at(number, m)]: the ring passes the index on to the constructor
    of the message. *)
Definition nl_emplace_at (number : Z) (m : M) (l : notification_layout) : outcome notification_layout :=
  r ← rb_emplace_at sizeof_message number (notification_construct number m) (nl_message_buffer l);
  Ok {| nl_header := nl_header l; nl_message_buffer := r |}.

(** The two parts fill the memory that is asked for: the ring starts behind the header at
    a multiple of 16 and gets exactly the bytes it asks for. *)
Lemma notification_layout_splits (n : Z) (header : H) :
  0 < sizeof_message -> 0 <= sizeof_header < 2 ^ 61 -> 0 <= n * sizeof_message < 2 ^ 61 ->
  align_up sizeof_header 16 mod 16 = 0 /\ sizeof_header <= align_up sizeof_header 16 /\
  nl_required_bytes_for n = align_up sizeof_header 16 + rb_required_bytes_for sizeof_message n /\
  nl_message_buffer (nl_construct (nl_required_bytes_for n) header) = rb_construct sizeof_message notification_init (rb_required_bytes_for sizeof_message n).
Proof.
  intros Hs Hh Hn. destruct (align_up16_bounds sizeof_header) as [Hb Hm]; [lia|].
  assert (align_up rb_sizeof_header 16 = 32) as Ha by reflexivity. unfold nl_construct, nl_required_bytes_for, rb_required_bytes_for.
  rewrite Ha, (u64_small (n * sizeof_message)), (u64_small (32 + n * sizeof_message)), u64_small by lia.
  do 3 (split; [lia|]). cbn [nl_message_buffer]. rewrite u64_small by lia. f_equal. lia.
Qed.

(** A reader finds the message of a number as long as no later one of the same place has
    been stored, and can tell by the number. *)
Lemma notification_emplace_get (number : Z) (m : M) (l l' : notification_layout) :
  0 <= number < 2 ^ 63 -> nl_emplace_at number m l = Ok l' ->
  rb_get sizeof_message number (nl_message_buffer l') = Ok {| nm_message := m; nm_message_number := number |} /\
  nl_header l' = nl_header l /\ rb_size sizeof_message (nl_message_buffer l') = rb_size sizeof_message (nl_message_buffer l).
Proof.
  intros Hn. unfold nl_emplace_at, rb_emplace_at. destruct (negb (rb_size sizeof_message (nl_message_buffer l) =? 0)) eqn:E; [|done]. cbn.
  destruct (zinsert _ _ _) as [b|] eqn:Hz; [|done]. cbn. intros [= <-]. cbn.
  assert (rb_size sizeof_message (rb_update (nl_message_buffer l) (rb_next_index (nl_message_buffer l)) b) = rb_size sizeof_message (nl_message_buffer l)) as Hsz by done.
  split; [|done]. unfold rb_get. rewrite Hsz, E. cbn. apply zinsert_Some in Hz as [Hi ->].
  rewrite zlookup_insert by done. rewrite decide_True by done. cbn. unfold notification_construct. by rewrite i64_small by lia.
Qed.
End notification_layout.
