(* ===== verification/ShmQueue.v ===== *)
(** The queue of shared memory items, [shm/queue.h].

    The header names types that are declared nowhere (its locks, its policy) and does not
    compile; what is modelled is what its functions do to the header and the items.  The
    locks around them are left out. *)
From S2P Require Import Prelude.

Section shm_queue.
Context {T : Type}.

(* @source include/ipcpp/shm/queue.h 23-32 QueueItem *)
Record queue_item : Type := { qi_num_unique_reads : Z; qi_value : T }.

(* @source include/ipcpp/shm/queue.h 41-47 FixedSizeQueue::Header *)
Record shm_queue : Type := {
  sq_head_idx : Z;
  sq_tail_idx : Z;
  sq_size : Z;
  sq_capacity : Z;
  sq_items : list queue_item
}.

(* @source include/ipcpp/shm/queue.h 96-101 FixedSizeQueue::FixedSizeQueue *)
Definition sq_construct (capacity : Z) (memory : list queue_item) : shm_queue :=
  {| sq_head_idx := 0; sq_tail_idx := 0; sq_size := 0; sq_capacity := capacity; sq_items := take (Z.to_nat capacity) memory |}.

(** The sizes are those of [QueueItem<T>] and [Header].  Nothing is returned when the
    memory is large enough: leaving the function is undefined. *)
(* @source include/ipcpp/shm/queue.h 50-58 FixedSizeQueue::create *)
Definition sq_create (sizeof_item sizeof_header capacity memory_size : Z) : outcome (expected shm_queue Z) :=
  let queue_size := u64 (u64 (capacity * sizeof_item) + sizeof_header) in
  if memory_size <? queue_size then Ok (Unexpected (-1)) else UB.

(** The queue when [push] stops returning [nullptr]: it has stored the item and returns
    nothing. *)
Definition pushed (item : T) (q : shm_queue) : outcome shm_queue :=
  items ← must (zinsert (sq_items q) (sq_tail_idx q) {| qi_num_unique_reads := 0; qi_value := item |});
  Ok {| sq_head_idx := sq_head_idx q; sq_tail_idx := u64 (sq_tail_idx q + 1) mod sq_capacity q; sq_size := u64 (sq_size q + 1);
        sq_capacity := sq_capacity q; sq_items := items |}.

(** [None] is [nullptr]. *)
(* @source include/ipcpp/shm/queue.h 61-70 FixedSizeQueue::push *)
Definition sq_push (item : T) (q : shm_queue) : outcome (option Z * shm_queue) :=
  if sq_size q >=? sq_capacity q then Ok (None, q)
  else _ ← pushed item q; UB.

(* @source include/ipcpp/shm/queue.h 72-76 FixedSizeQueue::pop *)
Definition sq_pop (q : shm_queue) : shm_queue :=
  {| sq_head_idx := Z.land (u64 (sq_head_idx q + 1)) (sq_capacity q); sq_tail_idx := sq_tail_idx q; sq_size := u64 (sq_size q - 1);
     sq_capacity := sq_capacity q; sq_items := sq_items q |}.

(* @source include/ipcpp/shm/queue.h 78-81 FixedSizeQueue::front *)
Definition sq_front (q : shm_queue) : outcome queue_item := must (zlookup (sq_items q) (sq_head_idx q)).

(* @source include/ipcpp/shm/queue.h 83-86 FixedSizeQueue::empty *)
Definition sq_empty (q : shm_queue) : bool := sq_size q =? 0.
(* @source include/ipcpp/shm/queue.h 88-91 FixedSizeQueue::size *)
Definition sq_get_size (q : shm_queue) : Z := sq_size q.
(* @source include/ipcpp/shm/queue.h 93-93 FixedSizeQueue::capacity *)
Definition sq_get_capacity (q : shm_queue) : Z := sq_capacity q.

(** ** What pop does to the front *)

Lemma pop_head k q : 1 <= k < 64 -> sq_capacity q = 2 ^ k -> sq_head_idx q = 0 -> sq_head_idx (sq_pop q) = 0.
Proof.
  intros Hk Hc Hh. cbn. rewrite Hc, Hh. cbn [Z.add]. rewrite u64_small by lia. apply Z.bits_inj'. intros n Hn.
  rewrite Z.land_spec, Z.bits_0, Z.pow2_bits_eqb by lia. destruct (Z.eqb_spec k n) as [->|]; [|by rewrite andb_false_r].
  rewrite andb_true_r. replace n with (0 + n) by lia. change 1 with (Z.ones 1). apply Z.ones_spec_high. lia.
Qed.

(** [pop] combines the next index with the capacity by [&] where [push] takes the remainder.
    If the capacity is a power of two above 1, the front is the first place for ever:
    after any number of calls of [pop] it is the item it was, while the size counts down
    and wraps around below 0.  With a capacity of 1 the first [pop] leaves the array. *)
Theorem shm_queue_pop_keeps_front (k : Z) (n : nat) (q : shm_queue) : 0 <= k < 64 -> sq_capacity q = 2 ^ k -> sq_head_idx q = 0 -> 0 <= sq_size q < 2 ^ 64 ->
  let q' := Nat.iter n sq_pop q in
  (1 <= k -> sq_front q' = sq_front q) /\ sq_get_size q' = u64 (sq_size q - Z.of_nat n) /\
  (k = 0 -> zlen (sq_items q) = 1 -> sq_front (sq_pop q) = UB).
Proof.
  intros Hk Hc Hh Hs q'. assert (H : sq_capacity q' = 2 ^ k /\ sq_items q' = sq_items q /\ (1 <= k -> sq_head_idx q' = 0) /\ sq_size q' = u64 (sq_size q - Z.of_nat n)).
  { unfold q'. clear q'. induction n as [|n (IH1 & IH2 & IH3 & IH4)]; [cbn; split_and!; try done; by rewrite Z.sub_0_r, u64_small|].
    rewrite Nat.iter_succ. split_and!; [done|done|intros H1; by apply (pop_head k); [lia|..|apply IH3]|].
    cbn [sq_pop sq_size]. rewrite IH4. unfold wrap. rewrite Zminus_mod_idemp_l. f_equal. lia. }
  destruct H as (H1 & H2 & H3 & H4). unfold sq_front, sq_get_size. rewrite H2, H4. split_and!; [intros Hk1; by rewrite (H3 Hk1), Hh|done|].
  intros -> Hl. cbn [sq_pop sq_items sq_head_idx]. rewrite Hc, Hh. change (Z.land (u64 (0 + 1)) (2 ^ 0)) with 1.
  assert (zlookup (sq_items q) 1 = None) as -> by (apply zlookup_None; lia). done.
Qed.

(** Nothing can be put in: a call of [create] or [push] that does not fail has no defined
    result. *)
Theorem shm_queue_never_filled (sizeof_item sizeof_header capacity memory_size : Z) (item : T) (q : shm_queue) :
  (forall q', sq_create sizeof_item sizeof_header capacity memory_size <> Ok (Expected q')) /\
  match sq_push item q with Ok (r, q') => r = None /\ q' = q /\ sq_capacity q <= sq_size q | Throw _ => False | UB => sq_size q < sq_capacity q end.
Proof.
  split; [intros q'; unfold sq_create; by case_match|]. unfold sq_push. rewrite Z.geb_leb. destruct (Z.leb_spec (sq_capacity q) (sq_size q)) as [H|H]; [by split|].
  unfold pushed. by destruct (zinsert _ _ _).
Qed.
End shm_queue.
