(* ===== verification/Fifo.v ===== *)
(** The sequenced message queue: [publish_subscribe/fifo_seq/].

    fifo_message.h gives the message slot with its lock and its counters,
    fifo_message_queue.h the ring of slots in shared memory, fifo_publisher.h and
    fifo_subscriber.h the two ends.  The lock calls of a slot are the whole calls
    of [shared_mutex] (see Sync); a subscriber may hold its access (the callback
    is running) while the publisher and the other subscribers go on. *)
From S2P Require Import Prelude Numeric Sync.

Section message.
Context {T : Type}.

(** * Message slots *)

(* @source include/ipcpp/publish_subscribe/fifo_seq/fifo_message.h 130-137 Message *)
Record message : Type := {
  msg_mutex : Z;                (* the word of the shared_mutex *)
  msg_value : option T;
  msg_id : Z;                   (* uint64 *)
  msg_remaining : Z;            (* atomic int64 *)
  msg_initial : Z;              (* int64 *)
  msg_active : Z                (* atomic int64 *)
}.

Definition set_mutex m f := {| msg_mutex := f; msg_value := msg_value m; msg_id := msg_id m;
  msg_remaining := msg_remaining m; msg_initial := msg_initial m; msg_active := msg_active m |}.
Definition set_value m v := {| msg_mutex := msg_mutex m; msg_value := v; msg_id := msg_id m;
  msg_remaining := msg_remaining m; msg_initial := msg_initial m; msg_active := msg_active m |}.
Definition set_remaining m r := {| msg_mutex := msg_mutex m; msg_value := msg_value m; msg_id := msg_id m;
  msg_remaining := r; msg_initial := msg_initial m; msg_active := msg_active m |}.
Definition set_active m a := {| msg_mutex := msg_mutex m; msg_value := msg_value m; msg_id := msg_id m;
  msg_remaining := msg_remaining m; msg_initial := msg_initial m; msg_active := a |}.

(* @source include/ipcpp/publish_subscribe/fifo_seq/fifo_message.h 87-87 Message::Message *)
Definition msg_default : message :=
  {| msg_mutex := 0; msg_value := None; msg_id := umax 64; msg_remaining := 0; msg_initial := 0; msg_active := 0 |}.

(* @source include/ipcpp/publish_subscribe/fifo_seq/fifo_message.h 88-93 Message::Message(remaining_references,message_id,args) *)
Definition msg_construct (remaining_references message_id : Z) (v : T) : message :=
  {| msg_mutex := 0; msg_value := Some v; msg_id := message_id; msg_remaining := remaining_references;
     msg_initial := remaining_references; msg_active := 0 |}.

(** A read access is granted if the slot has a value, fewer accesses than
    remaining references are active, and the lock is taken.  The active counter is
    raised before the last two checks and not lowered when they fail.
    [lock_fails]: every compare-exchange of [try_lock_shared] failed. *)
(* @source include/ipcpp/publish_subscribe/fifo_seq/fifo_message.h 97-117 Message::consume *)
Definition consume (lock_fails : bool) (m : message) : outcome (bool * message) :=
  match msg_value m with
  | None => Ok (false, m)
  | Some _ =>
    let active := msg_active m in
    let m1 := set_active m (i64 (active + 1)) in
    if active >=? msg_remaining m1 then Ok (false, m1)
    else
      _ ← require (msg_initial m1 * 2 + 1 <? 2 ^ 63);
      let '(locked, flag) := sm_try_lock_shared_n lock_fails (u64 (msg_initial m1 * 2 + 1)) (msg_mutex m1) in
      Ok (locked, set_mutex m1 flag)
  end.

(* @source include/ipcpp/publish_subscribe/fifo_seq/fifo_message.h 119-125 Message::request_writable *)
Definition request_writable (spurious : bool) (m : message) : bool * message :=
  let '(locked, flag) := sm_try_lock spurious (msg_mutex m) in (locked, set_mutex m flag).

(* @source include/ipcpp/publish_subscribe/fifo_seq/fifo_message.h 127-127 Message::message_id *)
Definition message_id (m : message) : Z := msg_id m.
(* @source include/ipcpp/publish_subscribe/fifo_seq/fifo_message.h 128-128 Message::remaining_references *)
Definition remaining_references (m : message) : Z := msg_remaining m.

(** ** Accesses *)
(* @source include/ipcpp/publish_subscribe/fifo_seq/fifo_message.h 32-34 Message::Access<WRITE>::~Access *)
Definition write_release (m : message) : outcome message :=
  f ← sm_unlock (msg_mutex m); Ok (set_mutex m f).

(* @source include/ipcpp/publish_subscribe/fifo_seq/fifo_message.h 35-46 Message::Access<READ>::~Access *)
Definition read_release (m : message) : outcome message :=
  let rr := msg_remaining m in
  let m1 := set_remaining m (i64 (rr - 1)) in
  let m2 := if rr =? 1 then set_value m1 None else m1 in
  f ← sm_unlock_shared (msg_mutex m2);
  let m3 := set_mutex m2 f in
  Ok (set_active m3 (i64 (msg_active m3 - 1))).

(* @source include/ipcpp/publish_subscribe/fifo_seq/fifo_message.h 58-60 Message::Access::reset *)
Definition access_reset (m : message) : message := set_value m None.

(* @source include/ipcpp/publish_subscribe/fifo_seq/fifo_message.h 62-69 Message::Access::emplace *)
Definition access_emplace (remaining id : Z) (v : T) (m : message) : message :=
  {| msg_mutex := msg_mutex m; msg_value := Some v; msg_id := id; msg_remaining := remaining;
     msg_initial := remaining; msg_active := msg_active m |}.

(* @source include/ipcpp/publish_subscribe/fifo_seq/fifo_message.h 71-77 Message::Access::operator* *)
Definition access_deref (m : message) : outcome T :=
  match msg_value m with Some v => Ok v | None => Throw bad_optional_access end.

(** * The queue *)

(** [sizeof(Header)], asserted by the source. *)
(* @source include/ipcpp/publish_subscribe/fifo_seq/fifo_message_queue.h 46-46 shm_message_queue::Header *)
Definition sizeof_header : Z := 256.

(* @source include/ipcpp/publish_subscribe/fifo_seq/fifo_message_queue.h 28-44 shm_message_queue::Header *)
Record mqueue : Type := {
  mq_num_subscribers : Z;
  mq_next : Z;
  mq_last : Z;
  mq_queue_size : Z;
  mq_history_size : Z;
  mq_items : list message
}.

Definition set_next (q : mqueue) (n : Z) : mqueue := {| mq_num_subscribers := mq_num_subscribers q; mq_next := n; mq_last := mq_last q;
  mq_queue_size := mq_queue_size q; mq_history_size := mq_history_size q; mq_items := mq_items q |}.
Definition set_num_subscribers q n := {| mq_num_subscribers := n; mq_next := mq_next q; mq_last := mq_last q;
  mq_queue_size := mq_queue_size q; mq_history_size := mq_history_size q; mq_items := mq_items q |}.
Definition set_items q l := {| mq_num_subscribers := mq_num_subscribers q; mq_next := mq_next q; mq_last := mq_last q;
  mq_queue_size := mq_queue_size q; mq_history_size := mq_history_size q; mq_items := l |}.

(* @source include/ipcpp/publish_subscribe/fifo_seq/fifo_message_queue.h 49-51 shm_message_queue::required_size_bytes *)
Definition required_size_bytes (sizeof_T queue_size : Z) : Z := u64 (sizeof_header + u64 (sizeof_T * queue_size)).

(* @source include/ipcpp/publish_subscribe/fifo_seq/fifo_message_queue.h 53-74 shm_message_queue::init_at *)
Definition init_at (c : compiler) (sizeof_T size_bytes : Z) : outcome (expected mqueue Z) :=
  if size_bytes <? u64 (sizeof_header + sizeof_T) then Ok (Unexpected 1)
  else
    queue_size ← floor_to_power_of_two c 64 (u64 (size_bytes - sizeof_header) / sizeof_T);
    Ok (Expected {| mq_num_subscribers := 0; mq_next := 0; mq_last := 0; mq_queue_size := queue_size;
                    mq_history_size := 0; mq_items := replicate (Z.to_nat queue_size) msg_default |}).

(* @source include/ipcpp/publish_subscribe/fifo_seq/fifo_message_queue.h 76-86 shm_message_queue::read_at *)
Definition read_at (q : mqueue) : expected mqueue Z :=
  if mq_queue_size q =? 0 then Unexpected 1
  else Expected (set_items q (take (Z.to_nat (mq_queue_size q)) (mq_items q))).

(* @source include/ipcpp/publish_subscribe/fifo_seq/fifo_message_queue.h 102-102 shm_message_queue::size *)
Definition mq_size (q : mqueue) : Z := zlen (mq_items q).

(* @source include/ipcpp/publish_subscribe/fifo_seq/fifo_message_queue.h 89-100 shm_message_queue::operator[] *)
Definition mq_index (q : mqueue) (message_id : Z) : Z := Z.land message_id (u64 (mq_size q - 1)).

Definition mq_get (q : mqueue) (message_id : Z) : outcome message := must (zlookup (mq_items q) (mq_index q message_id)).
Definition mq_put (q : mqueue) (message_id : Z) (m : message) : outcome mqueue :=
  l ← must (zinsert (mq_items q) (mq_index q message_id) m); Ok (set_items q l).

(** * The publisher *)

(** [get_shm_entry] opens or creates the topic's shared memory and reports its
    size; it is part of the registry, a parameter here. *)
(* @source include/ipcpp/publish_subscribe/fifo_seq/fifo_publisher.h 162-180 Publisher::create *)
Definition publisher_create (c : compiler) (get_shm_entry : Z -> expected Z Z) (sizeof_T queue_capacity : Z) : outcome (expected mqueue Z) :=
  request ← ceil_to_power_of_two c 64 (required_size_bytes sizeof_T queue_capacity);
  match get_shm_entry request with
  | Unexpected e => Ok (Unexpected e)
  | Expected shm_size => init_at c sizeof_T shm_size
  end.

(* @source include/ipcpp/publish_subscribe/fifo_seq/fifo_publisher.h 250-252 Publisher::_m_num_observers *)
Definition m_num_observers (q : mqueue) : Z := mq_num_subscribers q.

(* @source include/ipcpp/publish_subscribe/fifo_seq/fifo_publisher.h 254-257 Publisher::_m_notify_observers *)
Definition m_notify_observers (index : Z) (q : mqueue) : mqueue := set_next q index.

(* @source include/ipcpp/publish_subscribe/fifo_seq/fifo_publisher.h 309-325 Publisher::_m_publish *)
Definition m_publish (spurious : bool) (v : T) (q : mqueue) : outcome (bool * mqueue) :=
  let msg_id := mq_next q in
  m ← mq_get q msg_id;
  let '(locked, m1) := request_writable spurious m in
  if locked then
    m2 ← write_release (access_emplace (i64 (m_num_observers q)) msg_id v m1);
    q1 ← mq_put q msg_id m2;
    Ok (true, m_notify_observers (u64 (msg_id + 1)) q1)
  else
    q1 ← mq_put q msg_id m1;
    Ok (false, q1).

(** [publisher::error_t::unknown_error]; 0 is success. *)
Definition unknown_error : Z := 3.

(* @source include/ipcpp/publish_subscribe/fifo_seq/fifo_publisher.h 239-245 Publisher::publish *)
Definition publish (spurious : bool) (v : T) (q : mqueue) : outcome (Z * mqueue) :=
  '(published, q1) ← m_publish spurious v q;
  Ok (if (published : bool) then 0 else unknown_error, q1).

Inductive backpressure_policy : Type := block | remove_oldest.

(** The spin of the [block] policy: [reads] are the values successively read from
    the counter (converted to [uint64]); [None] if they run out. *)
Fixpoint spin_until_free (reads : list Z) : option unit :=
  match reads with
  | [] => None
  | r :: rs => if u64 r <=? 0 then Some tt else spin_until_free rs
  end.

Fixpoint reset_first (spurious : bool) (fuel : nat) (msg_id i : Z) (q : mqueue) : outcome (Z * mqueue) :=
  match fuel with
  | O => Ok (umax 64, q)
  | S fuel' =>
    m ← mq_get q (u64 (msg_id + i));
    let '(locked, m1) := request_writable spurious m in
    if locked then
      m2 ← write_release (access_reset m1);
      q1 ← mq_put q (u64 (msg_id + i)) m2;
      Ok (u64 (msg_id + i), q1)
    else reset_first spurious fuel' msg_id (i + 1) q
  end.

(** The result is [None] while the [block] policy still waits. *)
(* @source include/ipcpp/publish_subscribe/fifo_seq/fifo_publisher.h 259-307 Publisher::_m_handle_backpressure *)
Definition m_handle_backpressure (policy : backpressure_policy) (spurious : bool) (reads : list Z)
    (msg_id : Z) (q : mqueue) : outcome (option Z * mqueue) :=
  m ← mq_get q msg_id;
  if message_id m =? umax 64 then Ok (Some msg_id, q)
  else if u64 (remaining_references m) <=? 0 then Ok (Some msg_id, q)
  else match policy with
  | block => Ok ((_ ← spin_until_free reads; Some msg_id), q)
  | remove_oldest =>
    '(r, q1) ← reset_first spurious (Z.to_nat (mq_size q)) msg_id 0 q;
    Ok (Some r, q1)
  end.

(** * The subscriber *)

(** A subscriber process: the next id it expects, whether it is subscribed, and
    the slot its running callback holds. *)
(* @source include/ipcpp/publish_subscribe/fifo_seq/fifo_subscriber.h 159-164 Subscriber *)
Record subscriber : Type := {
  sub_next : Z;
  sub_active : bool;
  sub_access : option Z
}.

(* @source include/ipcpp/publish_subscribe/fifo_seq/fifo_subscriber.h 145-148 Subscriber::subscribe *)
Definition subscribe (q : mqueue) : mqueue * subscriber :=
  (set_num_subscribers q (u64 (mq_num_subscribers q + 1)),
   {| sub_next := mq_next q; sub_active := true; sub_access := None |}).

(* @source include/ipcpp/publish_subscribe/fifo_seq/fifo_subscriber.h 150-154 Subscriber::cancel_subscription *)
Definition cancel_subscription (q : mqueue) (s : subscriber) : mqueue * subscriber :=
  (set_num_subscribers q (u64 (mq_num_subscribers q - 1)),
   {| sub_next := sub_next s; sub_active := false; sub_access := sub_access s |}).

(* @source include/ipcpp/publish_subscribe/fifo_seq/fifo_subscriber.h 112-119 Subscriber::_m_wait_for_data *)
Definition m_wait_for_data (q : mqueue) (s : subscriber) : option Z :=
  if mq_next q =? sub_next s then None else Some (mq_next q).

Inductive received : Type :=
| Delivered (v : T)
| Failed (code : Z).

(** [receive] up to the call of the callback; [None] while it still waits. *)
(* @source include/ipcpp/publish_subscribe/fifo_seq/fifo_subscriber.h 121-141 Subscriber::receive *)
Definition receive_begin (lock_fails : bool) (q : mqueue) (s : subscriber)
    : option (outcome (received * mqueue * subscriber)) :=
  number ← m_wait_for_data q s;
  let id := sub_next s in
  let s1 := {| sub_next := u64 (id + 1); sub_active := sub_active s; sub_access := sub_access s |} in
  Some (
    if number =? umax 64 then Ok (Failed 1, q, s1)
    else
      m ← mq_get q id;
      if negb (message_id m =? id) then Ok (Failed 2, q, s1)
      else
        '(granted, m1) ← consume lock_fails m;
        q1 ← mq_put q id m1;
        if granted : bool then
          v ← access_deref m1;
          Ok (Delivered v, q1, {| sub_next := sub_next s1; sub_active := sub_active s1; sub_access := Some id |})
        else Ok (Failed 3, q1, s1)).

(** The end of [receive]: the access goes out of scope after the callback. *)
(* @source include/ipcpp/publish_subscribe/fifo_seq/fifo_subscriber.h 142-143 Subscriber::receive *)
Definition receive_end (q : mqueue) (s : subscriber) : outcome (mqueue * subscriber) :=
  match sub_access s with
  | None => UB
  | Some id =>
    m ← mq_get q id;
    m1 ← read_release m;
    q1 ← mq_put q id m1;
    Ok (q1, {| sub_next := sub_next s; sub_active := sub_active s; sub_access := None |})
  end.
End message.
Arguments message : clear implicits.
Arguments mqueue : clear implicits.
Arguments received : clear implicits.

(** * The system: one publisher and any number of subscribers *)
Section system.
Context {T : Type}.

Inductive event : Type :=
| EPublish (spurious : bool) (v : T)
| ESubscribe
| ECancel (i : nat)
| EBegin (i : nat)         (* subscriber i calls receive; its callback starts *)
| EEnd (i : nat).          (* the callback of subscriber i returns *)

Inductive reply : Type :=
| RDone
| RPublished (code : Z)
| RReceived (r : received T).

Definition free_active (s : subscriber) : bool := sub_active s && bool_decide (sub_access s = None).

(** One event; [None] if it cannot happen (no such subscriber, nothing to receive,
    a subscriber that is not subscribed or still in its callback).  [lock_fails]: if the
    event is a [receive], every compare-exchange of its [try_lock_shared] fails. *)
Definition step_with (lock_fails : bool) (e : event) (st : mqueue T * list subscriber)
    : option (outcome (reply * (mqueue T * list subscriber))) :=
  let '(q, subs) := st in
  match e with
  | EPublish sp v => Some ('(code, q1) ← publish sp v q; Ok (RPublished code, (q1, subs)))
  | ESubscribe => let '(q1, s) := subscribe q in Some (Ok (RDone, (q1, subs ++ [s])))
  | ECancel i =>
    s ← subs !! i;
    if free_active s then
      let '(q1, s1) := cancel_subscription q s in Some (Ok (RDone, (q1, <[i := s1]> subs)))
    else None
  | EBegin i =>
    s ← subs !! i;
    if free_active s then
      o ← receive_begin lock_fails q s;
      Some ('(r, q1, s1) ← o; Ok (RReceived r, (q1, <[i := s1]> subs)))
    else None
  | EEnd i =>
    s ← subs !! i;
    match sub_access s with
    | Some _ => Some ('(q1, s1) ← receive_end q s; Ok (RDone, (q1, <[i := s1]> subs)))
    | None => None
    end
  end.

(** The event when the lock can be taken at once. *)
Definition step := step_with false.

(** Runs in which each event comes with what happens at its lock ... *)
Fixpoint run_with (evs : list (bool * event)) (st : mqueue T * list subscriber)
    : option (outcome (list reply * (mqueue T * list subscriber))) :=
  match evs with
  | [] => Some (Ok ([], st))
  | (lock_fails, e) :: evs' =>
    o ← step_with lock_fails e st;
    match o with
    | Ok (r, st1) => o' ← run_with evs' st1; Some ('(rs, st2) ← o'; Ok (r :: rs, st2))
    | Throw x => Some (Throw x)
    | UB => Some UB
    end
  end.

(** ... and those in which no attempt to take a lock fails. *)
Fixpoint run (evs : list event) (st : mqueue T * list subscriber)
    : option (outcome (list reply * (mqueue T * list subscriber))) :=
  match evs with
  | [] => Some (Ok ([], st))
  | e :: evs' =>
    o ← step e st;
    match o with
    | Ok (r, st1) => o' ← run evs' st1; Some ('(rs, st2) ← o'; Ok (r :: rs, st2))
    | Throw x => Some (Throw x)
    | UB => Some UB
    end
  end.

(** ** The specification: a log of values

    The queue of size [n] keeps the last [n] values of the log.  A subscriber
    receives the values of the log in order from its subscription on; one that is
    more than [n] behind is told so (error 2).  Publishing fails while the value
    that would be overwritten is being read. *)
Definition holds (j : Z) (s : subscriber) : bool := bool_decide (sub_access s = Some j).

Definition spec_step (n : Z) (e : event) (st : list T * list subscriber)
    : option (reply * (list T * list subscriber)) :=
  let '(log, subs) := st in
  match e with
  | EPublish sp v =>
    if sp || existsb (holds (zlen log - n)) subs then Some (RPublished unknown_error, (log, subs))
    else Some (RPublished 0, (log ++ [v], subs))
  | ESubscribe =>
    Some (RDone, (log, subs ++ [{| sub_next := zlen log; sub_active := true; sub_access := None |}]))
  | ECancel i =>
    s ← subs !! i;
    if free_active s then
      Some (RDone, (log, <[i := {| sub_next := sub_next s; sub_active := false; sub_access := None |}]> subs))
    else None
  | EBegin i =>
    s ← subs !! i;
    let id := sub_next s in
    if free_active s && (id <? zlen log) then
      v ← zlookup log id;
      let fresh := zlen log - id <=? n in
      Some (RReceived (if fresh then Delivered v else Failed 2),
            (log, <[i := {| sub_next := id + 1; sub_active := true;
                            sub_access := if fresh then Some id else None |}]> subs))
    else None
  | EEnd i =>
    s ← subs !! i;
    _ ← sub_access s;
    Some (RDone, (log, <[i := {| sub_next := sub_next s; sub_active := sub_active s; sub_access := None |}]> subs))
  end.

Fixpoint spec_run (n : Z) (evs : list event) (st : list T * list subscriber)
    : option (list reply * (list T * list subscriber)) :=
  match evs with
  | [] => Some ([], st)
  | e :: evs' =>
    '(r, st1) ← spec_step n e st;
    '(rs, st2) ← spec_run n evs' st1;
    Some (r :: rs, st2)
  end.

(** ** The invariant that connects them *)

(** Subscribers that still have to read or release message [j]. *)
Definition owes (j : Z) (s : subscriber) : bool := holds j s || (sub_active s && (sub_next s <=? j)).

Record msg_ok (subs : list subscriber) (j : Z) (v : T) (m : message T) : Prop := {
  mo_id : msg_id m = j;
  mo_mutex : msg_mutex m = count (holds j) subs;
  mo_active : msg_active m = count (holds j) subs;
  mo_owes : count (owes j) subs <= msg_remaining m <= msg_initial m;
  mo_initial : msg_initial m < 2 ^ 60;
  mo_value : 1 <= msg_remaining m -> msg_value m = Some v
}.

(** The slot of id [j], a negative [j] standing for a slot that was never used. *)
Definition slot_ok (log : list T) (subs : list subscriber) (j : Z) (m : message T) : Prop :=
  if j <? 0 then m = msg_default else exists v, zlookup log j = Some v /\ msg_ok subs j v m.

Definition sub_ok (n len : Z) (s : subscriber) : Prop :=
  0 <= sub_next s <= len /\
  forall j, sub_access s = Some j -> 0 <= j < sub_next s /\ len - n <= j.

Record sys_inv (k : Z) (log : list T) (subs : list subscriber) (q : mqueue T) : Prop := {
  si_k : 0 <= k < 62;
  si_items : zlen (mq_items q) = 2 ^ k;
  si_next : mq_next q = zlen log;
  si_num : mq_num_subscribers q = count sub_active subs;
  si_subs : forall s, s ∈ subs -> sub_ok (2 ^ k) (zlen log) s;
  si_slots : forall j, zlen log - 2 ^ k <= j < zlen log ->
    exists m, zlookup (mq_items q) (j mod 2 ^ k) = Some m /\ slot_ok log subs j m
}.

Lemma mq_index_mod k (q : mqueue T) id :
  0 <= k < 62 -> zlen (mq_items q) = 2 ^ k -> mq_index q id = id mod 2 ^ k.
Proof.
  intros Hk Hlen. unfold mq_index, mq_size. rewrite Hlen.
  assert (2 ^ k < 2 ^ 62) by (apply Z.pow_lt_mono_r; lia).
  pose proof (Z.pow_pos_nonneg 2 k ltac:(lia) ltac:(lia)).
  rewrite u64_small by lia.
  replace (2 ^ k - 1) with (Z.ones k) by (rewrite Z.ones_equiv; lia).
  apply Z.land_ones. lia.
Qed.

(** The [n] ids before [len] have one element in each residue class. *)
Lemma window_rep n len x : 0 < n -> exists j, len - n <= j < len /\ j mod n = x mod n.
Proof.
  intros Hn. exists (len - 1 - (len - 1 - x) mod n).
  pose proof (Z.mod_pos_bound (len - 1 - x) n Hn). split; [lia|].
  rewrite Zminus_mod_idemp_r. f_equal. lia.
Qed.

Lemma window_inj n len i j :
  0 < n -> len - n <= i < len -> len - n <= j < len -> i mod n = j mod n -> i = j.
Proof.
  intros Hn Hi Hj Heq.
  pose proof (Z.div_mod i n ltac:(lia)). pose proof (Z.div_mod j n ltac:(lia)).
  assert (i / n = j / n) by nia. nia.
Qed.

Lemma count_holds_none subs j : (forall s, s ∈ subs -> holds j s = false) -> count (holds j) subs = 0.
Proof.
  intros H. rewrite (count_ext _ (fun _ => false)) by done. clear H. induction subs; simpl; lia.
Qed.

Lemma holds_false n len s j : sub_ok n len s -> ~ (0 <= j < len /\ len - n <= j) -> holds j s = false.
Proof.
  intros [Hn Hh] Hj. unfold holds. apply bool_decide_eq_false. intros Ha.
  destruct (Hh j Ha). lia.
Qed.

Lemma count_holds_outside n len subs j :
  (forall s, s ∈ subs -> sub_ok n len s) -> ~ (0 <= j < len /\ len - n <= j) -> count (holds j) subs = 0.
Proof. intros Hs Hj. apply count_holds_none. intros s Hin. eapply holds_false; eauto. Qed.

Lemma window_pos k : 0 <= k < 62 -> 0 < 2 ^ k < 2 ^ 62.
Proof. intros Hk. split; [apply Z.pow_pos_nonneg; lia|apply Z.pow_lt_mono_r; lia]. Qed.

(** The slot an id maps to holds the id of the window in its residue class. *)
Lemma slot_of k log subs q id :
  sys_inv k log subs q ->
  exists j m, zlen log - 2 ^ k <= j < zlen log /\ j mod 2 ^ k = id mod 2 ^ k /\
    mq_get q id = Ok m /\ slot_ok log subs j m.
Proof.
  intros [Hk Hi _ _ _ Hs]. pose proof (window_pos k Hk).
  destruct (window_rep (2 ^ k) (zlen log) id) as (j & Hj & Hmod); [lia|].
  destruct (Hs j Hj) as (m & Hm & Hok). exists j, m. split_and!; try done; try lia.
  unfold mq_get. by rewrite (mq_index_mod k) , <- Hmod, Hm.
Qed.

Lemma slot_of_window k log subs q j :
  sys_inv k log subs q -> zlen log - 2 ^ k <= j < zlen log ->
  exists m, mq_get q j = Ok m /\ slot_ok log subs j m.
Proof.
  intros Hinv Hj. destruct (slot_of k log subs q j Hinv) as (j' & m & Hj' & Hmod & Hm & Hok).
  destruct Hinv. pose proof (window_pos k si_k0).
  assert (j' = j) as -> by (eapply window_inj; [| |done|done]; lia). eauto.
Qed.

Lemma mq_put_ok k log subs q id m :
  sys_inv k log subs q ->
  mq_put q id m = Ok (set_items q (<[Z.to_nat (id mod 2 ^ k) := m]> (mq_items q))).
Proof.
  intros [Hk Hi _ _ _ Hs]. pose proof (window_pos k Hk).
  unfold mq_put. rewrite (mq_index_mod k) by done.
  pose proof (Z.mod_pos_bound id (2 ^ k) ltac:(lia)). rewrite zinsert_in by lia. done.
Qed.

Lemma zlookup_slot_insert k (q : mqueue T) id j m :
  0 <= k < 62 -> zlen (mq_items q) = 2 ^ k ->
  zlookup (<[Z.to_nat (id mod 2 ^ k) := m]> (mq_items q)) (j mod 2 ^ k) =
    if decide (id mod 2 ^ k = j mod 2 ^ k) then Some m else zlookup (mq_items q) (j mod 2 ^ k).
Proof.
  intros Hk Hlen. pose proof (window_pos k Hk). apply zlookup_insert. rewrite Hlen.
  apply Z.mod_pos_bound. lia.
Qed.

(** Writing one slot: the others only have to survive the change of the subscribers. *)
Lemma sys_inv_put k log subs subs' q id m num :
  sys_inv k log subs q -> zlen log - 2 ^ k <= id < zlen log ->
  num = count sub_active subs' ->
  (forall s, s ∈ subs' -> sub_ok (2 ^ k) (zlen log) s) ->
  slot_ok log subs' id m ->
  (forall j m, zlen log - 2 ^ k <= j < zlen log -> j <> id -> slot_ok log subs j m -> slot_ok log subs' j m) ->
  sys_inv k log subs' (set_num_subscribers (set_items q (<[Z.to_nat (id mod 2 ^ k) := m]> (mq_items q))) num).
Proof.
  intros [Hk Hi Hn Hnum Hsubs Hs] Hid -> Hsubs' Hm Hother. split; simpl; try done.
  - by rewrite zlen_insert.
  - intros j Hj. rewrite zlookup_slot_insert by done. case_decide as Heq.
    + assert (id = j) as <- by (eapply window_inj; [| |done|done]; pose proof (window_pos k Hk); lia).
      eauto.
    + destruct (Hs j Hj) as (mj & Hmj & Hokj). exists mj. split; [done|]. apply Hother; [done| |done].
      intros ->. done.
Qed.

(** Changing only the subscribers. *)
Lemma sys_inv_subs k log subs subs' q num :
  sys_inv k log subs q ->
  num = count sub_active subs' ->
  (forall s, s ∈ subs' -> sub_ok (2 ^ k) (zlen log) s) ->
  (forall j m, zlen log - 2 ^ k <= j < zlen log -> slot_ok log subs j m -> slot_ok log subs' j m) ->
  sys_inv k log subs' (set_num_subscribers q num).
Proof.
  intros [Hk Hi Hn Hnum Hsubs Hs] -> Hsubs' Hother. split; simpl; try done.
  intros j Hj. destruct (Hs j Hj) as (m & Hm & Hok). eauto.
Qed.

Lemma set_num_same (q : mqueue T) : set_num_subscribers q (mq_num_subscribers q) = q.
Proof. by destruct q. Qed.

Lemma count_holds_insert subs i s s' j : subs !! i = Some s -> holds j s' = holds j s ->
  count (holds j) (<[i := s']> subs) = count (holds j) subs.
Proof. intros Hi Hh. rewrite (count_insert _ _ _ _ _ Hi), Hh. lia. Qed.

Lemma count_owes_insert subs i s s' j : subs !! i = Some s -> (owes j s' = true -> owes j s = true) ->
  count (owes j) (<[i := s']> subs) <= count (owes j) subs.
Proof. intros Hi Hh. rewrite (count_insert _ _ _ _ _ Hi). destruct (owes j s'), (owes j s); naive_solver lia. Qed.

Lemma slot_ok_sub log subs i s s' j m :
  subs !! i = Some s -> holds j s' = holds j s -> (owes j s' = true -> owes j s = true) ->
  slot_ok log subs j m -> slot_ok log (<[i := s']> subs) j m.
Proof.
  intros Hi Hh Ho. unfold slot_ok. destruct (j <? 0); [done|]. intros (v & Hv & []).
  pose proof (count_owes_insert _ _ _ s' j Hi Ho). exists v. split; [done|].
  split; rewrite ?(count_holds_insert _ _ _ s' _ Hi Hh); try done; lia.
Qed.

Lemma subs_insert_ok n len (subs : list subscriber) i s' :
  (forall s, s ∈ subs -> sub_ok n len s) -> sub_ok n len s' ->
  forall s, s ∈ <[i := s']> subs -> sub_ok n len s.
Proof.
  intros H Hs' s [j Hj]%list_elem_of_lookup_1.
  destruct (decide (i = j)) as [<-|Hne].
  - destruct (decide (i < length subs)%nat).
    + rewrite list_lookup_insert_eq in Hj by done. by simplify_eq.
    + rewrite list_insert_ge in Hj by lia. apply lookup_lt_Some in Hj. lia.
  - rewrite list_lookup_insert_ne in Hj by done. apply H. by eapply list_elem_of_lookup_2.
Qed.

Lemma set_mutex_same (m : message T) : set_mutex m (msg_mutex m) = m.
Proof. by destruct m. Qed.

Lemma mq_put_same (q : mqueue T) id m : mq_get q id = Ok m -> mq_put q id m = Ok q.
Proof.
  unfold mq_get, mq_put. intros Hl%must_Some. pose proof (zlookup_lt _ _ _ Hl).
  rewrite zinsert_in by done. simpl. rewrite list_insert_id; [by destruct q|].
  unfold zlookup in Hl. by destruct (0 <=? mq_index q id).
Qed.

(** Every subscriber owes a message that has just been published. *)
Lemma owes_new n len subs : (forall s, s ∈ subs -> sub_ok n len s) ->
  count (owes len) subs = count sub_active subs.
Proof.
  intros Hs. apply count_ext. intros s Hin. destruct (Hs s Hin) as [Hn Hh]. unfold owes.
  rewrite (holds_false n len s len) by (done || lia). simpl.
  rewrite (proj2 (Z.leb_le _ _)) by lia. by rewrite andb_true_r.
Qed.

(** Storing the next value of the log in the slot nobody reads. *)
Lemma sys_inv_push k log subs q v m :
  sys_inv k log subs q -> zlen subs < 2 ^ 60 -> zlen log < 2 ^ 63 ->
  existsb (holds (zlen log - 2 ^ k)) subs = false ->
  msg_mutex m = 0 -> msg_active m = 0 -> msg_id m = zlen log ->
  msg_remaining m = count sub_active subs -> msg_initial m = count sub_active subs ->
  msg_value m = Some v ->
  sys_inv k (log ++ [v]) subs
    (set_next (set_items q (<[Z.to_nat (zlen log mod 2 ^ k) := m]> (mq_items q))) (u64 (zlen log + 1))).
Proof.
  intros [Hk Hi Hn Hnum Hsubs Hs] Hns Hlog Hex Hmut Hact Hid Hrem Hini Hval.
  pose proof (window_pos k Hk). pose proof (zlen_nonneg log).
  pose proof (count_le_length sub_active subs).
  assert (zlen (log ++ [v]) = zlen log + 1) as Hlen by (by rewrite zlen_app, zlen_cons).
  split; simpl; rewrite ?Hlen; try done.
  - by rewrite zlen_insert.
  - apply u64_small. lia.
  - intros s Hin. destruct (Hsubs s Hin) as [Hsn Hsh]. split; [lia|].
    intros j Hj. destruct (Hsh j Hj). split; [lia|].
    assert (j <> zlen log - 2 ^ k); [|lia]. intros ->.
    apply list_elem_of_lookup_1 in Hin as [i Hin].
    pose proof (existsb_lookup _ _ Hex i s Hin) as Hh. unfold holds in Hh.
    by rewrite bool_decide_eq_false in Hh.
  - intros j Hj. rewrite zlookup_slot_insert by done. case_decide as Heq.
    + assert (zlen log = j) as <- by (eapply (window_inj _ (zlen log + 1)); [| |done|done]; lia).
      exists m. split; [done|]. unfold slot_ok. gcase; [lia|]. exists v. split.
      { rewrite zlookup_zlen, lookup_app_r, Nat.sub_diag by lia. done. }
      rewrite <- (count_holds_outside (2 ^ k) (zlen log) subs (zlen log)) in Hmut, Hact by (done || lia).
      split; rewrite ?(owes_new (2 ^ k)) by done; (done || lia).
    + destruct (Hs j) as (mj & Hmj & Hok); [|exists mj; split; [done|]].
      { assert (j <> zlen log) by (intros ->; done). lia. }
      unfold slot_ok in *. destruct (j <? 0); [done|]. destruct Hok as (w & Hw & Hok).
      exists w. split; [|done]. pose proof (zlookup_lt _ _ _ Hw).
      unfold zlookup in *. gcase; [|lia]. destruct (Z.leb_spec 0 j); [|lia]. by apply lookup_app_l_Some.
Qed.

(** ** The events *)
Lemma sim_publish k log subs q sp v :
  sys_inv k log subs q -> zlen subs < 2 ^ 60 -> zlen log < 2 ^ 63 ->
  exists r log' q', spec_step (2 ^ k) (EPublish sp v) (log, subs) = Some (r, (log', subs)) /\
    step (EPublish sp v) (q, subs) = Some (Ok (r, (q', subs))) /\ sys_inv k log' subs q'.
Proof.
  intros Hinv Hns Hlog. pose proof Hinv as [Hk Hi Hnext Hnum Hsubs Hslots].
  pose proof (window_pos k Hk). pose proof (zlen_nonneg log).
  destruct (slot_of_window k log subs q (zlen log - 2 ^ k) Hinv ltac:(lia)) as (m & Hm & Hok).
  assert (mq_get q (zlen log) = Ok m) as HmL.
  { rewrite <- Hm. unfold mq_get. rewrite !(mq_index_mod k) by done.
    by rewrite <- Zminus_mod_idemp_r, Z_mod_same_full, Z.sub_0_r. }
  assert (msg_mutex m = count (holds (zlen log - 2 ^ k)) subs /\
          msg_active m = count (holds (zlen log - 2 ^ k)) subs) as [Hmut Hact].
  { unfold slot_ok in Hok. destruct (Z.ltb_spec (zlen log - 2 ^ k) 0).
    - rewrite Hok. simpl. split; symmetry; by (eapply count_holds_outside; [done|lia]).
    - destruct Hok as (w & _ & []). done. }
  pose proof (count_zero (holds (zlen log - 2 ^ k)) subs) as Hz. rewrite <- Hmut in Hz.
  cbn [spec_step step step_with]. unfold publish, m_publish. rewrite Hnext, HmL. simpl.
  unfold request_writable, sm_try_lock, cas_weak. rewrite Hz.
  destruct (existsb (holds (zlen log - 2 ^ k)) subs) eqn:Hex; simpl.
  { rewrite orb_true_r, set_mutex_same, (mq_put_same _ _ _ HmL). simpl. eexists _, _, _. by split_and!. }
  destruct sp; simpl.
  { rewrite set_mutex_same, (mq_put_same _ _ _ HmL). simpl. eexists _, _, _. by split_and!. }
  rewrite (mq_put_ok k log subs) by done. simpl. eexists _, _, _. split_and!; [done..|].
  assert (count (holds (zlen log - 2 ^ k)) subs = 0) as Hc0.
  { apply Z.eqb_eq. by rewrite <- Hmut, Hz. }
  pose proof (count_le_length sub_active subs). pose proof (count_nonneg sub_active subs).
  unfold m_num_observers. rewrite Hnum, i64_small by lia.
  apply sys_inv_push; (done || simpl; lia).
Qed.

Lemma sim_subscribe k log subs q :
  sys_inv k log subs q -> zlen subs < 2 ^ 60 ->
  exists r subs' q', spec_step (2 ^ k) ESubscribe (log, subs) = Some (r, (log, subs')) /\
    step ESubscribe (q, subs) = Some (Ok (r, (q', subs'))) /\ sys_inv k log subs' q'.
Proof.
  intros Hinv Hns. pose proof Hinv as [Hk Hi Hnext Hnum Hsubs Hslots].
  pose proof (zlen_nonneg log). pose proof (count_le_length sub_active subs).
  pose proof (count_nonneg sub_active subs).
  cbn [spec_step step step_with]. unfold subscribe. rewrite Hnext. eexists _, _, _. split_and!; [done..|].
  eapply sys_inv_subs; [done| | |].
  - rewrite Hnum, u64_small, count_app by lia. simpl. lia.
  - intros s Hin. apply elem_of_app in Hin as [Hin|Hin%list_elem_of_singleton]; [by apply Hsubs|].
    subst s. split; simpl; [lia|done].
  - intros j m Hj Hok. unfold slot_ok in *. destruct (j <? 0); [done|]. destruct Hok as (v & Hv & []).
    assert (count (holds j) (subs ++ [{| sub_next := zlen log; sub_active := true; sub_access := None |}]) =
            count (holds j) subs) as Hh by (rewrite count_app; simpl; lia).
    assert (count (owes j) (subs ++ [{| sub_next := zlen log; sub_active := true; sub_access := None |}]) =
            count (owes j) subs) as Ho.
    { rewrite count_app. simpl. unfold owes at 2. simpl. gcase; lia. }
    exists v. split; [done|]. split; rewrite ?Hh, ?Ho; done.
Qed.

Lemma free_active_spec s : free_active s = true <-> sub_active s = true /\ sub_access s = None.
Proof. unfold free_active. by rewrite andb_true_iff, bool_decide_eq_true. Qed.

Lemma sim_cancel k log subs q i r st :
  sys_inv k log subs q -> zlen subs < 2 ^ 60 -> spec_step (2 ^ k) (ECancel i) (log, subs) = Some (r, st) ->
  exists subs' q', st = (log, subs') /\ zlen subs' = zlen subs /\
    step (ECancel i) (q, subs) = Some (Ok (r, (q', subs'))) /\ sys_inv k log subs' q'.
Proof.
  intros Hinv Hns. cbn [spec_step step step_with]. destruct (subs !! i) as [s|] eqn:Hs; [simpl|done].
  destruct (free_active s) eqn:Hf; [|done]. intros [= <- <-].
  apply free_active_spec in Hf as [Ha Hn].
  pose proof Hinv as [Hk Hi Hnext Hnum Hsubs Hslots].
  pose proof (count_lookup sub_active subs i s Hs Ha).
  unfold cancel_subscription. rewrite Hn. eexists _, _. split_and!; [done|apply zlen_insert|done|].
  assert (sub_ok (2 ^ k) (zlen log) s) as [Hsn _] by (apply Hsubs; by eapply list_elem_of_lookup_2).
  pose proof (count_le_length sub_active subs).
  eapply sys_inv_subs; [done| | |].
  - rewrite (count_insert _ _ _ _ _ Hs), Ha, Hnum, u64_small by lia. simpl. lia.
  - apply subs_insert_ok; [done|]. split; simpl; [lia|done].
  - intros j m Hj. eapply slot_ok_sub; [done|by unfold holds; rewrite Hn|].
    unfold owes, holds. simpl. by rewrite Hn.
Qed.

(** A granted access: the counters move from "owes" to "holds". *)
Lemma consume_ok subs i s j v m :
  subs !! i = Some s -> sub_active s = true -> sub_access s = None -> sub_next s = j -> 0 <= j ->
  msg_ok subs j v m ->
  exists m', consume false m = Ok (true, m') /\ msg_value m' = Some v /\
    msg_ok (<[i := {| sub_next := j + 1; sub_active := true; sub_access := Some j |}]> subs) j v m'.
Proof.
  intros Hi Ha Hn Hj Hj0 [Hid Hmut Hact Howes Hini Hval].
  assert (holds j s = false) as Hhs by (unfold holds; by rewrite Hn).
  assert (owes j s = true) as Hos.
  { unfold owes. rewrite Ha, Hj, (proj2 (Z.leb_le _ _)) by lia. apply orb_true_r. }
  assert (count (holds j) subs < count (owes j) subs) as Hlt.
  { eapply count_lt; [|done..]. intros x _ Hx. unfold owes. by rewrite Hx. }
  pose proof (count_nonneg (holds j) subs).
  set (s' := {| sub_next := j + 1; sub_active := true; sub_access := Some j |}).
  assert (holds j s' = true) as Hhs' by (unfold holds; by rewrite bool_decide_true).
  assert (owes j s' = true) as Hos' by (unfold owes; by rewrite Hhs').
  assert (count (holds j) (<[i := s']> subs) = count (holds j) subs + 1) as Hch.
  { rewrite (count_insert _ _ _ _ _ Hi), Hhs, Hhs'. lia. }
  assert (count (owes j) (<[i := s']> subs) = count (owes j) subs) as Hco.
  { rewrite (count_insert _ _ _ _ _ Hi), Hos, Hos'. lia. }
  unfold consume. rewrite (Hval ltac:(lia)). simpl. gcase; try lia.
  unfold sm_try_lock_shared_n. rewrite (u64_small (msg_initial m * 2 + 1)), u64_small by lia.
  rewrite Hmut. gcase; try lia. eexists. split; [done|]. split; [by apply Hval; lia|].
  split; simpl; rewrite ?Hch, ?Hco; try done; try (rewrite i64_small; lia).
Qed.

(** A released access: the counters drop together. *)
Lemma read_release_ok subs i s j v m :
  subs !! i = Some s -> sub_access s = Some j -> j < sub_next s -> msg_ok subs j v m ->
  exists m', read_release m = Ok m' /\
    msg_ok (<[i := {| sub_next := sub_next s; sub_active := sub_active s; sub_access := None |}]> subs) j v m'.
Proof.
  intros Hi Ha Hj [Hid Hmut Hact Howes Hini Hval].
  assert (holds j s = true) as Hhs by (unfold holds; by rewrite bool_decide_true).
  assert (owes j s = true) as Hos by (unfold owes; by rewrite Hhs).
  pose proof (count_lookup (holds j) subs i s Hi Hhs).
  pose proof (count_lookup (owes j) subs i s Hi Hos).
  assert (count (holds j) subs <= count (owes j) subs) as Hle.
  { apply count_mono. intros x _ Hx. unfold owes. by rewrite Hx. }
  set (s' := {| sub_next := sub_next s; sub_active := sub_active s; sub_access := None |}).
  assert (holds j s' = false) as Hhs' by done.
  assert (owes j s' = false) as Hos'.
  { unfold owes. rewrite Hhs'. simpl. gcase; [lia|]. apply andb_false_r. }
  assert (count (holds j) (<[i := s']> subs) = count (holds j) subs - 1) as Hch.
  { rewrite (count_insert _ _ _ _ _ Hi), Hhs, Hhs'. lia. }
  assert (count (owes j) (<[i := s']> subs) = count (owes j) subs - 1) as Hco.
  { rewrite (count_insert _ _ _ _ _ Hi), Hos, Hos'. lia. }
  unfold read_release, sm_unlock_shared.
  replace (msg_mutex (if msg_remaining m =? 1 then _ else _)) with (msg_mutex m)
    by (by destruct (msg_remaining m =? 1)).
  rewrite Hmut. gcase; try lia; (eexists; split; [done|]);
    (split; simpl; rewrite ?Hch, ?Hco; rewrite ?i64_small by lia; try done; try lia).
  intros _. apply Hval. lia.
Qed.

Lemma sim_begin k log subs q i r st :
  sys_inv k log subs q -> zlen log < 2 ^ 63 ->
  spec_step (2 ^ k) (EBegin i) (log, subs) = Some (r, st) ->
  exists subs' q', st = (log, subs') /\ zlen subs' = zlen subs /\
    step (EBegin i) (q, subs) = Some (Ok (r, (q', subs'))) /\ sys_inv k log subs' q'.
Proof.
  intros Hinv Hlog. cbn [spec_step step step_with]. destruct (subs !! i) as [s|] eqn:Hs; [simpl|done].
  destruct (free_active s) eqn:Hf; [|done]. simpl. destruct (Z.ltb_spec (sub_next s) (zlen log)) as [Hlt|]; [|done].
  destruct (zlookup log (sub_next s)) as [v|] eqn:Hv; [simpl|done]. intros [= <- <-].
  apply free_active_spec in Hf as [Ha Hn].
  pose proof Hinv as [Hk Hi Hnext Hnum Hsubs Hslots]. pose proof (window_pos k Hk).
  assert (sub_ok (2 ^ k) (zlen log) s) as [Hsn _] by (apply Hsubs; by eapply list_elem_of_lookup_2).
  destruct (slot_of k log subs q (sub_next s) Hinv) as (j & m & Hj & Hmod & Hm & Hok).
  assert (msg_id m = j) as Hid.
  { unfold slot_ok in Hok. destruct (Z.ltb_spec j 0).
    - exfalso. assert (j = sub_next s); [|lia]. apply (window_inj (2 ^ k) (zlen log)); (done || lia).
    - by destruct Hok as (w & _ & []). }
  unfold receive_begin, m_wait_for_data. rewrite Hnext.
  rewrite (proj2 (Z.eqb_neq (zlen log) (sub_next s))) by lia. simpl.
  rewrite (proj2 (Z.eqb_neq (zlen log) (umax 64))) by (unfold umax; lia).
  rewrite Hm. simpl. unfold message_id. rewrite Hid, Ha, Hn, u64_small by lia.
  destruct (Z.leb_spec (zlen log - sub_next s) (2 ^ k)) as [Hfresh|Hold].
  - assert (j = sub_next s) as -> by (apply (window_inj (2 ^ k) (zlen log)); (done || lia)).
    rewrite Z.eqb_refl. simpl.
    unfold slot_ok in Hok. destruct (Z.ltb_spec (sub_next s) 0); [lia|].
    destruct Hok as (w & Hw & Hok). assert (w = v) as -> by congruence.
    destruct (consume_ok subs i s _ v m Hs Ha Hn eq_refl ltac:(lia) Hok) as (m' & Hc & Hval & Hok').
    rewrite Hc. simpl. rewrite (mq_put_ok k log subs) by done. simpl.
    unfold access_deref. rewrite Hval. simpl. eexists _, _.
    split; [done|]. split; [apply zlen_insert|]. split; [done|].
    rewrite <- (set_num_same (set_items _ _)). simpl. eapply sys_inv_put; try done; try lia.
    + rewrite (count_insert _ _ _ _ _ Hs), Ha, Hnum. simpl. lia.
    + apply subs_insert_ok; [done|]. split; simpl; [lia|]. intros ? [= <-]. lia.
    + unfold slot_ok. gcase; [lia|]. eauto.
    + intros j' m'' Hj' Hne. eapply slot_ok_sub; [done|..].
      * unfold holds. rewrite Hn. simpl. rewrite !bool_decide_false; congruence.
      * unfold owes, holds. rewrite Ha, Hn. simpl. rewrite bool_decide_false by congruence. simpl.
        gcase; try done; lia.
  - assert (j <> sub_next s) as Hne by lia.
    rewrite (proj2 (Z.eqb_neq j (sub_next s))) by done. simpl. eexists _, _.
    split; [done|]. split; [apply zlen_insert|]. split; [done|].
    rewrite <- (set_num_same q) at 1. eapply sys_inv_subs; [done| | |].
    + rewrite (count_insert _ _ _ _ _ Hs), Ha, Hnum. simpl. lia.
    + apply subs_insert_ok; [done|]. split; simpl; [lia|done].
    + intros j' m'' Hj'. eapply slot_ok_sub; [done|by unfold holds; rewrite Hn|].
      unfold owes, holds. rewrite Ha, Hn. simpl. gcase; try done; lia.
Qed.

Lemma sim_end k log subs q i r st :
  sys_inv k log subs q -> spec_step (2 ^ k) (EEnd i) (log, subs) = Some (r, st) ->
  exists subs' q', st = (log, subs') /\ zlen subs' = zlen subs /\
    step (EEnd i) (q, subs) = Some (Ok (r, (q', subs'))) /\ sys_inv k log subs' q'.
Proof.
  intros Hinv. cbn [spec_step step step_with]. destruct (subs !! i) as [s|] eqn:Hs; [simpl|done].
  destruct (sub_access s) as [j|] eqn:Ha; [simpl|done]. intros [= <- <-].
  pose proof Hinv as [Hk Hi Hnext Hnum Hsubs Hslots].
  assert (sub_ok (2 ^ k) (zlen log) s) as [Hsn Hh] by (apply Hsubs; by eapply list_elem_of_lookup_2).
  destruct (Hh j Ha) as [Hj Hjn].
  destruct (slot_of_window k log subs q j Hinv ltac:(lia)) as (m & Hm & Hok).
  unfold slot_ok in Hok. destruct (Z.ltb_spec j 0); [lia|]. destruct Hok as (v & Hv & Hok).
  destruct (read_release_ok subs i s j v m Hs Ha ltac:(lia) Hok) as (m' & Hr & Hok').
  unfold receive_end. rewrite Ha, Hm. simpl. rewrite Hr. simpl.
  rewrite (mq_put_ok k log subs) by done. simpl. eexists _, _.
  split; [done|]. split; [apply zlen_insert|]. split; [done|].
  rewrite <- (set_num_same (set_items _ _)). simpl. eapply sys_inv_put; try done; try lia.
  - rewrite (count_insert _ _ _ _ _ Hs), Hnum. simpl. lia.
  - apply subs_insert_ok; [done|]. split; simpl; [lia|done].
  - unfold slot_ok. gcase; [lia|]. eauto.
  - intros j' m'' Hj' Hne. eapply slot_ok_sub; [done|..].
    + unfold holds. rewrite Ha. simpl. rewrite !bool_decide_false; congruence.
    + unfold owes, holds. rewrite Ha. simpl. by rewrite (bool_decide_false (Some j = Some j')) by congruence.
Qed.

(** One event: wherever the specification has a step, so has the system. *)
Lemma sim_step k log subs q e r log' subs' :
  sys_inv k log subs q -> zlen subs < 2 ^ 60 -> zlen log < 2 ^ 60 ->
  spec_step (2 ^ k) e (log, subs) = Some (r, (log', subs')) ->
  exists q', step e (q, subs) = Some (Ok (r, (q', subs'))) /\ sys_inv k log' subs' q' /\
    zlen subs' <= zlen subs + 1 /\ zlen log' <= zlen log + 1.
Proof.
  intros Hinv Hns Hlog Hspec. destruct e.
  - destruct (sim_publish k log subs q spurious v Hinv Hns ltac:(lia)) as (r1 & log1 & q1 & H1 & H2 & H3).
    pose proof H1 as H1'. rewrite Hspec in H1. injection H1 as <- <- ->.
    exists q1. split_and!; [done..|lia|]. cbn [spec_step] in H1'.
    destruct (spurious || _); simplify_eq; rewrite ?zlen_app, ?zlen_cons, ?zlen_nil; lia.
  - destruct (sim_subscribe k log subs q Hinv Hns) as (r1 & subs1 & q1 & H1 & H2 & H3).
    pose proof H1 as H1'. rewrite Hspec in H1. injection H1 as <- -> <-.
    exists q1. split_and!; [done..| |lia]. cbn [spec_step] in H1'. injection H1' as _ <-.
    rewrite zlen_app, zlen_cons, zlen_nil. lia.
  - destruct (sim_cancel k log subs q i r _ Hinv Hns Hspec) as (subs1 & q1 & [= -> ->] & Hl & H2 & H3).
    exists q1. split_and!; (done || lia).
  - destruct (sim_begin k log subs q i r _ Hinv ltac:(lia) Hspec) as (subs1 & q1 & [= -> ->] & Hl & H2 & H3).
    exists q1. split_and!; (done || lia).
  - destruct (sim_end k log subs q i r _ Hinv Hspec) as (subs1 & q1 & [= -> ->] & Hl & H2 & H3).
    exists q1. split_and!; (done || lia).
Qed.

Lemma sim_run k evs : forall log subs q rs log' subs',
  sys_inv k log subs q -> zlen subs + zlen evs < 2 ^ 60 -> zlen log + zlen evs < 2 ^ 60 ->
  spec_run (2 ^ k) evs (log, subs) = Some (rs, (log', subs')) ->
  exists q', run evs (q, subs) = Some (Ok (rs, (q', subs'))) /\ sys_inv k log' subs' q'.
Proof.
  induction evs as [|e evs IH]; intros log subs q rs log' subs' Hinv Hns Hlog Hspec; cbn [spec_run run] in *.
  { simplify_eq. eauto. }
  rewrite zlen_cons in Hns, Hlog. pose proof (zlen_nonneg evs).
  apply bind_Some in Hspec as ([r [log1 subs1]] & Hs1 & Hspec).
  apply bind_Some in Hspec as ([rs' [log2 subs2]] & Hs2 & Hspec). simplify_eq.
  destruct (sim_step k log subs q e r log1 subs1 Hinv ltac:(lia) ltac:(lia) Hs1) as (q1 & Hstep & Hinv1 & Hl1 & Hl2).
  destruct (IH _ _ _ _ _ _ Hinv1 ltac:(lia) ltac:(lia) Hs2) as (q' & Hrun & Hinv').
  exists q'. rewrite Hstep. simpl. by rewrite Hrun.
Qed.

(** Conversely, an event of the system is one of the specification. *)
Lemma step_enabled k log subs q e o :
  sys_inv k log subs q -> step e (q, subs) = Some o -> is_Some (spec_step (2 ^ k) e (log, subs)).
Proof.
  intros Hinv Hs. pose proof Hinv as [Hk Hi Hnext Hnum Hsubs Hslots].
  destruct e; cbn [step step_with spec_step] in *.
  - destruct (spurious || _); eauto.
  - eauto.
  - destruct (subs !! i); simpl in *; [|done]. destruct (free_active _); [eauto|done].
  - destruct (subs !! i) as [s|] eqn:Hl; simpl in *; [|done].
    destruct (free_active s); [simpl in *|done].
    unfold receive_begin, m_wait_for_data in Hs. rewrite Hnext in Hs.
    destruct (Hsubs s) as [Hn _]; [by eapply list_elem_of_lookup_2|].
    destruct (Z.eqb_spec (zlen log) (sub_next s)); [done|].
    destruct (Z.ltb_spec (sub_next s) (zlen log)); [|lia].
    destruct (zlookup_is_Some log (sub_next s)) as [v Hv]; [lia|]. rewrite Hv. simpl. eauto.
  - destruct (subs !! i) as [s|]; simpl in *; [|done]. destruct (sub_access s); [simpl; eauto|done].
Qed.

Lemma run_enabled k evs : forall log subs q o,
  sys_inv k log subs q -> zlen subs + zlen evs < 2 ^ 60 -> zlen log + zlen evs < 2 ^ 60 ->
  run evs (q, subs) = Some o -> is_Some (spec_run (2 ^ k) evs (log, subs)).
Proof.
  induction evs as [|e evs IH]; intros log subs q o Hinv Hns Hlog Hrun; cbn [spec_run run] in *; [done|].
  rewrite zlen_cons in Hns, Hlog. pose proof (zlen_nonneg evs).
  apply bind_Some in Hrun as (o1 & Hs1 & Hrun).
  destruct (step_enabled k log subs q e o1 Hinv Hs1) as [[r [log1 subs1]] Hspec].
  destruct (sim_step k log subs q e r log1 subs1 Hinv ltac:(lia) ltac:(lia) Hspec) as (q1 & Hstep & Hinv1 & Hl1 & Hl2).
  rewrite Hspec. simpl. rewrite Hstep in Hs1. injection Hs1 as <-. simpl in Hrun.
  apply bind_Some in Hrun as (o2 & Hs2 & _).
  destruct (IH _ _ _ _ Hinv1 ltac:(lia) ltac:(lia) Hs2) as [[rs st] Hr]. rewrite Hr. simpl. eauto.
Qed.

(** ** The size in the header is never written again *)
Lemma mq_put_size (q : mqueue T) id m q' : mq_put q id m = Ok q' -> mq_queue_size q' = mq_queue_size q.
Proof. intros (l & _ & [= <-])%bind_Ok. done. Qed.

Lemma step_queue_size e (q : mqueue T) subs r q' subs' :
  step e (q, subs) = Some (Ok (r, (q', subs'))) -> mq_queue_size q' = mq_queue_size q.
Proof.
  destruct e as [sp v| |i|i|i]; cbn [step step_with].
  - intros [= ((code & q1) & H & [= _ <- _])%bind_Ok]. apply bind_Ok in H as ([b q2] & H & [= _ <-]).
    apply bind_Ok in H as (m & _ & H). destruct (request_writable sp m) as [[] m1].
    + apply bind_Ok in H as (m2 & _ & H). apply bind_Ok in H as (q3 & H & [= _ <-]). cbn. by eapply mq_put_size.
    + apply bind_Ok in H as (q3 & H & [= _ <-]). by eapply mq_put_size.
  - by intros [= _ <- _].
  - destruct (subs !! i); cbn; [|done]. case_match; [|done]. by intros [= _ <- _].
  - destruct (subs !! i) as [s|]; cbn [mbind option_bind]; [|done]. case_match; [|done].
    destruct (receive_begin false q s) as [o|] eqn:Ho; cbn; [|done]. unfold receive_begin in Ho. cbn in Ho.
    destruct (m_wait_for_data q s); [|done]. cbn in Ho. injection Ho as <-.
    intros [= (((r1 & q1) & s1) & H1 & [= _ <- _])%bind_Ok].
    case_match; [by injection H1 as _ <- _|]. apply bind_Ok in H1 as (m & _ & H1).
    case_match; [by injection H1 as _ <- _|]. apply bind_Ok in H1 as ([b m1] & _ & H1).
    apply bind_Ok in H1 as (q2 & Hp & H1). destruct b; [apply bind_Ok in H1 as (v & _ & H1)|]; injection H1 as _ <- _; by eapply mq_put_size.
  - destruct (subs !! i) as [s|]; cbn [mbind option_bind]; [|done]. destruct (sub_access s) eqn:Hs; [|done].
    intros [= ((q1 & s1) & H1 & [= _ <- _])%bind_Ok]. unfold receive_end in H1. rewrite Hs in H1.
    apply bind_Ok in H1 as (m & _ & H1). apply bind_Ok in H1 as (m1 & _ & H1). apply bind_Ok in H1 as (q2 & Hp & [= <- _]). by eapply mq_put_size.
Qed.

Lemma run_queue_size evs : forall (q : mqueue T) subs rs q' subs',
  run evs (q, subs) = Some (Ok (rs, (q', subs'))) -> mq_queue_size q' = mq_queue_size q.
Proof.
  induction evs as [|e evs IH]; intros q subs rs q' subs'; cbn [run]; [by intros [= _ <- _]|].
  destruct (step e (q, subs)) as [[[r [q1 subs1]]| |]|] eqn:He; cbn; try done.
  destruct (run evs (q1, subs1)) as [[[rs1 [q2 subs2]]| |]|] eqn:Hr; cbn; try done. intros [= _ <- _].
  by rewrite (IH _ _ _ _ _ Hr), (step_queue_size _ _ _ _ _ _ He).
Qed.

(** Reading the queue at its place gives the queue. *)
Lemma read_at_same (q : mqueue T) : zlen (mq_items q) = mq_queue_size q -> mq_queue_size q <> 0 -> read_at q = Expected q.
Proof.
  intros Hl Hz. unfold read_at. rewrite (proj2 (Z.eqb_neq _ _) Hz), <- Hl. unfold zlen. rewrite Nat2Z.id, take_ge by lia. by destruct q.
Qed.

Lemma init_at_size c sizeof_T size_bytes (q : mqueue T) :
  init_at c sizeof_T size_bytes = Ok (Expected q) -> 0 < zlen (mq_items q) -> zlen (mq_items q) = mq_queue_size q.
Proof.
  unfold init_at. case_match; [done|]. intros (n & _ & [= <-])%bind_Ok. cbn. unfold zlen. rewrite length_replicate. lia.
Qed.

Lemma init_at_inv c sizeof_T size_bytes :
  0 < sizeof_T -> sizeof_header + sizeof_T <= size_bytes < 2 ^ 62 ->
  exists k q, init_at c sizeof_T size_bytes = Ok (Expected q) /\ sys_inv k [] [] q /\
    2 ^ k <= (size_bytes - sizeof_header) / sizeof_T < 2 ^ (k + 1).
Proof.
  unfold sizeof_header. intros Hs Hsize.
  pose proof (Z.div_str_pos (size_bytes - 256) sizeof_T ltac:(lia)).
  pose proof (Z.div_le_upper_bound (size_bytes - 256) sizeof_T (2 ^ 62) ltac:(lia) ltac:(nia)).
  assert ((size_bytes - 256) / sizeof_T < 2 ^ 62) by (apply Z.div_lt_upper_bound; [lia|nia]).
  destruct (floor_ok c 64 ((size_bytes - 256) / sizeof_T)) as (k & Hk & Hf & Hb); [by right|lia|].
  assert (k < 62) as Hk'.
  { destruct (Z.lt_ge_cases k 62); [done|].
    pose proof (Z.pow_le_mono_r 2 62 k ltac:(lia) ltac:(lia)). lia. }
  pose proof (window_pos k ltac:(lia)).
  exists k. unfold init_at, sizeof_header. rewrite (u64_small (256 + _)), (u64_small (_ - 256)) by lia.
  gcase; [lia|]. rewrite Hf. simpl. eexists. split; [done|]. split; [|done].
  split; simpl; try done; try lia.
  - apply zlen_replicate. lia.
  - intros s Hin. by apply elem_of_nil in Hin.
  - intros j Hj. exists msg_default. unfold zlen in Hj. simpl in Hj.
    pose proof (Z.mod_pos_bound j (2 ^ k) ltac:(lia)). split.
    + unfold zlookup. gcase; [|lia]. apply lookup_replicate_2. lia.
    + unfold slot_ok. gcase; [done|lia].
Qed.

(** ** What the specification promises a subscriber *)

(** The replies of subscriber [i] to its [receive] calls. *)
Fixpoint receives (i : nat) (evs : list event) (rs : list reply) : list reply :=
  match evs, rs with
  | EBegin j :: evs', r :: rs' =>
    if bool_decide (i = j) then r :: receives i evs' rs' else receives i evs' rs'
  | _ :: evs', _ :: rs' => receives i evs' rs'
  | _, _ => []
  end.

(** The reply to a receive of id [id]: the value of the log, or the error that
    reports that it was overwritten. *)
Definition in_order (n : Z) (log : list T) (id : Z) (r : reply) : Prop :=
  (exists v, zlookup log id = Some v /\ r = RReceived (Delivered v)) \/
  (r = RReceived (Failed 2) /\ id + n < zlen log).

Lemma spec_step_log n e log subs r log' subs' :
  spec_step n e (log, subs) = Some (r, (log', subs')) -> log `prefix_of` log'.
Proof.
  destruct e; cbn [spec_step].
  - destruct (spurious || _); intros ?; simplify_eq; [done|by apply prefix_app_r].
  - intros ?; by simplify_eq.
  - destruct (subs !! i); [simpl|done]. destruct (free_active s); intros ?; by simplify_eq.
  - destruct (subs !! i); [simpl|done]. destruct (free_active s && _); [|done].
    destruct (zlookup _ _); [simpl|done]. intros ?; by simplify_eq.
  - destruct (subs !! i); [simpl|done]. destruct (sub_access s); [simpl|done]. intros ?; by simplify_eq.
Qed.

Lemma zlookup_prefix (l l' : list T) i v : l `prefix_of` l' -> zlookup l i = Some v -> zlookup l' i = Some v.
Proof. unfold zlookup. intros Hp. destruct (0 <=? i); [|done]. intros Hl. by eapply prefix_lookup_Some. Qed.

Lemma zlen_prefix (l l' : list T) : l `prefix_of` l' -> zlen l <= zlen l'.
Proof. intros Hp%prefix_length. unfold zlen. lia. Qed.

Lemma in_order_mono n log log' id r : log `prefix_of` log' -> in_order n log id r -> in_order n log' id r.
Proof.
  intros Hp [(v & Hv & Hr)|[Hr Hlt]]; [left|right].
  - exists v. split; [by eapply zlookup_prefix|done].
  - split; [done|]. pose proof (zlen_prefix _ _ Hp). lia.
Qed.

(** Whether an event is a receive of subscriber [i]. *)
Definition begins (i : nat) (e : event) : bool :=
  match e with EBegin j => bool_decide (i = j) | _ => false end.

Lemma lookup_insert_cases {A} (l : list A) i j (x y : A) : l !! j = Some x ->
  (<[i := y]> l) !! j = Some (if bool_decide (j = i) then y else x).
Proof.
  intros Hj. case_bool_decide as Hij.
  - subst j. apply list_lookup_insert_eq. by eapply lookup_lt_Some.
  - by rewrite list_lookup_insert_ne.
Qed.

(** The position of subscriber [i] moves by one with each of its receives. *)
Lemma spec_step_sub n e log subs r log' subs' i s :
  spec_step n e (log, subs) = Some (r, (log', subs')) -> subs !! i = Some s ->
  exists s', subs' !! i = Some s' /\
    (if begins i e then sub_next s' = sub_next s + 1 /\ in_order n log' (sub_next s) r
     else sub_next s' = sub_next s).
Proof.
  intros Hs Hi. destruct e; cbn [spec_step begins] in *.
  - destruct (spurious || _); simplify_eq; eauto.
  - simplify_eq. exists s. split; [|done]. by apply lookup_app_l_Some.
  - destruct (subs !! i0) as [s0|] eqn:H0; simpl in Hs; [|done].
    destruct (free_active s0); simplify_eq. rewrite (lookup_insert_cases _ _ _ _ _ Hi).
    eexists. split; [done|]. case_bool_decide; [|done]. simpl. congruence.
  - destruct (subs !! i0) as [s0|] eqn:H0; simpl in Hs; [|done].
    destruct (free_active s0 && _); [|done].
    destruct (zlookup log (sub_next s0)) as [v|] eqn:Hv; simpl in Hs; [|done]. simplify_eq.
    rewrite (lookup_insert_cases _ _ _ _ _ Hi). eexists. split; [done|].
    case_bool_decide as Heq; [|done]. subst i0. assert (s0 = s) as -> by congruence. split; [done|].
    destruct (Z.leb_spec (zlen log' - sub_next s) n); [left|right]; eauto with lia.
  - destruct (subs !! i0) as [s0|] eqn:H0; simpl in Hs; [|done].
    destruct (sub_access s0); simpl in Hs; [|done]. simplify_eq. rewrite (lookup_insert_cases _ _ _ _ _ Hi).
    eexists. split; [done|]. case_bool_decide; [|done]. simpl. congruence.
Qed.

Lemma spec_run_log n evs : forall log subs rs log' subs',
  spec_run n evs (log, subs) = Some (rs, (log', subs')) -> log `prefix_of` log'.
Proof.
  induction evs as [|e evs IH]; intros log subs rs log' subs' Hrun; cbn [spec_run] in Hrun.
  { by simplify_eq. }
  apply bind_Some in Hrun as ([r [log1 subs1]] & Hs1 & Hrun).
  apply bind_Some in Hrun as ([rs' [log2 subs2]] & Hs2 & Hrun). simplify_eq.
  trans log1; [by eapply spec_step_log|by eapply IH].
Qed.

Lemma receives_cons i e evs (r : reply) rs :
  receives i (e :: evs) (r :: rs) = if begins i e then r :: receives i evs rs else receives i evs rs.
Proof. by destruct e. Qed.

Lemma spec_run_in_order n i evs : forall log subs s rs log' subs',
  spec_run n evs (log, subs) = Some (rs, (log', subs')) -> subs !! i = Some s ->
  forall k r, receives i evs rs !! k = Some r -> in_order n log' (sub_next s + Z.of_nat k) r.
Proof.
  induction evs as [|e evs IH]; intros log subs s rs log' subs' Hrun Hi k r; cbn [spec_run] in Hrun.
  { by simplify_eq. }
  apply bind_Some in Hrun as ([r1 [log1 subs1]] & Hs1 & Hrun).
  apply bind_Some in Hrun as ([rs' [log2 subs2]] & Hs2 & Hrun). simplify_eq.
  destruct (spec_step_sub _ _ _ _ _ _ _ _ _ Hs1 Hi) as (s1 & Hi1 & Hpos).
  pose proof (spec_run_log _ _ _ _ _ _ _ Hs2) as Hp.
  rewrite receives_cons. destruct (begins i e).
  - destruct Hpos as [Hnext Ho]. destruct k as [|k]; simpl.
    + intros [= ->]. rewrite Z.add_0_r. by eapply in_order_mono.
    + intros Hk. pose proof (IH _ _ _ _ _ _ Hs2 Hi1 k r Hk) as Hin.
      replace (sub_next s + Z.of_nat (S k)) with (sub_next s1 + Z.of_nat k) by lia. done.
  - rewrite <- Hpos. apply (IH _ _ _ _ _ _ Hs2 Hi1).
Qed.

(** C1 The shared-memory queue implements a log with a window: from the state
    [init_at] creates, a sequence of publish, subscribe, cancel and receive events
    (callbacks of any number of subscribers overlapping each other and the
    publisher) is possible exactly if the log specification admits it, and then it
    runs without undefined behaviour and without throwing, with the replies of the
    specification; the window is the largest power of two of slots that fits the
    memory.  ([run]: whole calls, none of which fails to take a slot's shared lock.) *)
Theorem fifo_refines_log (c : compiler) (sizeof_T size_bytes : Z) (evs : list event) :
  0 < sizeof_T -> sizeof_header + sizeof_T <= size_bytes < 2 ^ 62 -> zlen evs < 2 ^ 60 ->
  exists k q, init_at c sizeof_T size_bytes = Ok (Expected q) /\
    2 ^ k <= (size_bytes - sizeof_header) / sizeof_T < 2 ^ (k + 1) /\ mq_size q = 2 ^ k /\
    match spec_run (2 ^ k) evs ([], []) with
    | None => run evs (q, []) = None
    | Some (rs, (log, subs)) =>
      exists q', run evs (q, []) = Some (Ok (rs, (q', subs))) /\ mq_next q' = zlen log
    end.
Proof.
  intros Hs Hsize Hevs.
  destruct (init_at_inv c sizeof_T size_bytes Hs Hsize) as (k & q & Hq & Hinv & Hb).
  exists k, q. split_and!; [done|lia|lia|apply (si_items _ _ _ _ Hinv)|].
  destruct (spec_run (2 ^ k) evs ([], [])) as [[rs [log subs]]|] eqn:Hspec.
  - destruct (sim_run k evs [] [] q rs log subs Hinv) as (q' & Hrun & Hinv'); [by rewrite zlen_nil; lia..|done|].
    exists q'. split; [done|apply (si_next _ _ _ _ Hinv')].
  - destruct (run evs (q, [])) as [o|] eqn:Hrun; [|done].
    destruct (run_enabled k evs [] [] q o Hinv) as [st Hst]; [by rewrite zlen_nil; lia..|done|congruence].
Qed.

Lemma run_with_taken evs : forall st, Forall (fun x => x.1 = false) evs -> run_with evs st = run (map snd evs) st.
Proof.
  induction evs as [|[lf e] evs IH]; intros st Ht; [done|]. apply Forall_cons in Ht as [[= ->] Ht]. cbn [run_with run map snd]. fold (step e st).
  destruct (step e st) as [[[r st1]| |]|]; cbn [mbind option_bind]; try done. by rewrite (IH st1 Ht).
Qed.


(** A failed read attempt poisons its slot: if the shared lock of a granted
    access cannot be taken, the active counter stays raised, and the one remaining
    reader of this message, and of every message later published in this slot for
    one subscriber, is refused (error 3) although nobody else is reading. *)
Theorem fifo_failed_lock_poisons (m : message T) (v : T) :
  msg_value m = Some v -> msg_active m = 0 -> msg_remaining m = 1 -> msg_initial m = 1 -> msg_mutex m = 0 ->
  exists m1, consume true m = Ok (false, m1) /\ msg_active m1 = 1 /\
    (exists m2, consume false m1 = Ok (false, m2)) /\
    forall id w sp m2 m3, request_writable sp m1 = (true, m2) ->
      write_release (access_emplace 1 id w m2) = Ok m3 -> exists m4, consume false m3 = Ok (false, m4).
Proof.
  intros Hv Ha Hr Hi Hm. unfold consume at 1. rewrite Hv. simpl. rewrite Ha, Hr, Hi. simpl.
  unfold sm_try_lock_shared_n. rewrite Hm. simpl. eexists. split; [done|]. split; [done|]. split.
  - unfold consume. simpl. rewrite Hv, Hr. simpl. eauto.
  - intros id w sp m2 m3. unfold request_writable, sm_try_lock, cas_weak. simpl.
    destruct sp; simpl; [done|]. intros [= <-]. unfold write_release. simpl. intros [= <-].
    unfold consume. simpl. eauto.
Qed.
End system.
Arguments event : clear implicits.
Arguments reply : clear implicits.

Definition demo_events : list (event Z) :=
  [ESubscribe; ESubscribe; EPublish false 10; EBegin 0; EPublish false 11; EBegin 1; EEnd 0;
   EPublish true 12; EPublish false 12; EEnd 1; EPublish false 12; EBegin 1; EEnd 1; EBegin 0; ECancel 1; EEnd 0; EPublish false 13; EBegin 0].

Lemma fifo_refines_log_witness :
  0 < 128 /\ sizeof_header + 128 <= 600 < 2 ^ 62 /\ zlen demo_events < 2 ^ 60 /\
  exists k q, init_at GNUC 128 600 = Ok (Expected q) /\
    2 ^ k <= (600 - sizeof_header) / 128 < 2 ^ (k + 1) /\ mq_size q = 2 ^ k /\
    match spec_run (2 ^ k) demo_events ([], []) with
    | None => run demo_events (q, []) = None
    | Some (rs, (log, subs)) =>
      exists q', run demo_events (q, []) = Some (Ok (rs, (q', subs))) /\ mq_next q' = zlen log
    end.
Proof.
  split; [lia|]. split; [unfold sizeof_header; lia|]. split; [vm_compute; done|].
  apply (fifo_refines_log GNUC 128 600 demo_events); [lia|unfold sizeof_header; lia|vm_compute; done].
Defined.

(** The replies of the demonstration: one publish is refused while the slot is read. *)
Example demo_replies :
  match spec_run 2 demo_events ([], []) with
  | Some (rs, (log, _)) =>
    rs = [RDone; RDone; RPublished 0; RReceived (Delivered 10); RPublished 0; RReceived (Delivered 10); RDone;
          RPublished 3; RPublished 3; RDone; RPublished 0; RReceived (Delivered 11); RDone; RReceived (Delivered 11); RDone; RDone; RPublished 0;
          RReceived (Delivered 12)] /\ log = [10; 11; 12; 13]
  | None => False
  end.
Proof. vm_compute. split; reflexivity. Qed.

(** A queue of two slots with two subscribers at its start. *)
Definition demo_queue : mqueue Z :=
  {| mq_num_subscribers := 2; mq_next := 0; mq_last := 0; mq_queue_size := 2; mq_history_size := 0;
     mq_items := [msg_default; msg_default] |}.
Definition demo_subs : list subscriber :=
  replicate 2 {| sub_next := 0; sub_active := true; sub_access := None |}.

Lemma demo_queue_inv : sys_inv 1 [] demo_subs demo_queue.
Proof.
  split; try done; try (simpl; lia).
  - intros s Hin. apply elem_of_replicate in Hin as [-> _]. split; [split; vm_compute; discriminate|done].
  - intros j Hj. exists msg_default. rewrite zlen_nil in Hj. change (2 ^ 1) with 2 in *.
    unfold slot_ok. rewrite (proj2 (Z.ltb_lt j 0)) by lia. split; [|done].
    assert (j = -1 \/ j = -2) as [-> | ->] by lia; reflexivity.
Qed.


Lemma fifo_failed_lock_poisons_witness :
  exists m1, consume true (msg_construct 1 0 7) = Ok (false, m1) /\ msg_active m1 = 1 /\
    (exists m2, consume false m1 = Ok (false, m2)) /\
    forall id w sp m2 m3, request_writable sp m1 = (true, m2) ->
      write_release (access_emplace 1 id w m2) = Ok m3 -> exists m4, consume false m3 = Ok (false, m4).
Proof. apply (fifo_failed_lock_poisons (msg_construct 1 0 7) 7); reflexivity. Defined.
