(* ===== verification/FifoConcurrent.v ===== *)
(** The sequenced message queue with every access to shared memory a step of its own.

    [Fifo] runs [publish], and [receive] up to its callback, as one step each.  Here the
    publisher and the subscribers interleave between any two accesses: loads, stores and
    read-modify-writes of the atomics, the plain accesses to the value and the number of a
    message, and the calls of the slot's [shared_mutex], which take effect at one
    compare-exchange (see Sync).  Memory is sequentially consistent. *)
From S2P Require Import Prelude Numeric Sync Fifo.

Section concurrent.
Context {T : Type}.

(** * The steps *)

(** Where [Publisher::_m_publish] is, before the step named. *)
Inductive pub_pc : Type :=
| PubIdle
| PubLock (id : Z) (v : T)
| PubCount (id : Z) (v : T)
| PubRemaining (id : Z) (v : T) (n : Z)
| PubInitial (id : Z) (v : T) (n : Z)
| PubValue (id : Z) (v : T)
| PubId (id : Z)
| PubUnlock (id : Z)
| PubNotify (id : Z).

(** Where a subscriber is: [SubRead] to [SubRelease] in [receive], from [SubRelease] on in
    the destructor of its access.  [a] is the number of accesses it found, [v] what the
    callback was given and [old] the references that remained. *)
Inductive sub_pc : Type :=
| SubOut
| SubJoining
| SubIdle
| SubRead (id : Z)
| SubValue (id : Z)
| SubCount (id : Z)
| SubLoaded (id r : Z)
| SubCompare (id a : Z)
| SubLock (id : Z)
| SubCallback (id : Z)
| SubRelease (id : Z) (v : T)
| SubReset (id old : Z)
| SubUnlock (id : Z)
| SubLeave (id : Z).

(** A subscriber with what its calls of [receive] came to, the latest last. *)
Record sub_thread : Type := { st_next : Z; st_pc : sub_pc; st_got : list (Z * received T) }.

(** [cs_log] are the values whose publication has begun, the message with number [i] in
    place [i]; [cs_replies] is what the calls of [publish] returned. *)
Record conc : Type := {
  cs_queue : mqueue T;
  cs_pub : pub_pc;
  cs_subs : list sub_thread;
  cs_log : list T;
  cs_replies : list bool
}.

Definition mq_update (q : mqueue T) (id : Z) (f : message T -> outcome (message T)) : outcome (mqueue T) :=
  m ← mq_get q id; m1 ← f m; mq_put q id m1.

Definition set_initial (m : message T) (n : Z) : message T :=
  {| msg_mutex := msg_mutex m; msg_value := msg_value m; msg_id := msg_id m;
     msg_remaining := msg_remaining m; msg_initial := n; msg_active := msg_active m |}.
Definition set_id (m : message T) (id : Z) : message T :=
  {| msg_mutex := msg_mutex m; msg_value := msg_value m; msg_id := id;
     msg_remaining := msg_remaining m; msg_initial := msg_initial m; msg_active := msg_active m |}.

(** One step of the publisher: its next place, the queue, and what [_m_publish] returns
    when it ends. *)
(* @source include/ipcpp/publish_subscribe/fifo_seq/fifo_publisher.h 309-325 Publisher::_m_publish *)
Definition pub_step (spurious : bool) (p : pub_pc) (q : mqueue T) : option (outcome (pub_pc * mqueue T * option bool)) :=
  match p with
  | PubIdle => None
  | PubLock id v => Some (
      m ← mq_get q id;
      let '(locked, m1) := request_writable spurious m in
      q1 ← mq_put q id m1;
      Ok (if locked : bool then (PubCount id v, q1, None) else (PubIdle, q1, Some false)))
  | PubCount id v => Some (Ok (PubRemaining id v (i64 (m_num_observers q)), q, None))
  | PubRemaining id v n => Some (q1 ← mq_update q id (fun m => Ok (set_remaining m n)); Ok (PubInitial id v n, q1, None))
  | PubInitial id v n => Some (q1 ← mq_update q id (fun m => Ok (set_initial m n)); Ok (PubValue id v, q1, None))
  | PubValue id v => Some (q1 ← mq_update q id (fun m => Ok (set_value m (Some v))); Ok (PubId id, q1, None))
  | PubId id => Some (q1 ← mq_update q id (fun m => Ok (set_id m id)); Ok (PubUnlock id, q1, None))
  | PubUnlock id => Some (q1 ← mq_update q id write_release; Ok (PubNotify id, q1, None))
  | PubNotify id => Some (Ok (PubIdle, m_notify_observers (u64 (id + 1)) q, Some true))
  end.

Definition at_pc (s : sub_thread) (p : sub_pc) : sub_thread := {| st_next := st_next s; st_pc := p; st_got := st_got s |}.
Definition got (s : sub_thread) (id : Z) (r : received T) (p : sub_pc) : sub_thread :=
  {| st_next := st_next s; st_pc := p; st_got := st_got s ++ [(id, r)] |}.

(** One look of [_m_wait_for_data] at the counter, and the beginning of [receive] when it
    has moved. *)
(* @source include/ipcpp/publish_subscribe/fifo_seq/fifo_subscriber.h 112-129 Subscriber::_m_wait_for_data *)
Definition sub_wait (q : mqueue T) (s : sub_thread) : sub_thread :=
  let number := mq_next q in
  if number =? st_next s then s
  else
    let id := st_next s in
    let s1 := {| st_next := u64 (id + 1); st_pc := SubRead id; st_got := st_got s |} in
    if number =? umax 64 then got s1 id (Failed 1) SubIdle else s1.

(** One step of a subscriber in [receive].  C++ leaves open which operand of the comparison
    in [consume] comes first: [left_first] is the order in which they are written.
    [lock_fails] is that of [Fifo.consume]. *)
(* @source include/ipcpp/publish_subscribe/fifo_seq/fifo_message.h 97-117 Message::consume *)
Definition consume_step (left_first lock_fails : bool) (q : mqueue T) (s : sub_thread) : option (outcome (mqueue T * sub_thread)) :=
  match st_pc s with
  | SubValue id => Some (
      m ← mq_get q id;
      Ok (q, match msg_value m with Some _ => at_pc s (SubCount id) | None => got s id (Failed 3) SubIdle end))
  | SubCount id => Some (
      m ← mq_get q id;
      if left_first then q1 ← mq_put q id (set_active m (i64 (msg_active m + 1))); Ok (q1, at_pc s (SubCompare id (msg_active m)))
      else Ok (q, at_pc s (SubLoaded id (msg_remaining m))))
  | SubLoaded id r => Some (
      m ← mq_get q id;
      q1 ← mq_put q id (set_active m (i64 (msg_active m + 1)));
      Ok (q1, if msg_active m >=? r then got s id (Failed 3) SubIdle else at_pc s (SubLock id)))
  | SubCompare id a => Some (
      m ← mq_get q id;
      Ok (q, if a >=? msg_remaining m then got s id (Failed 3) SubIdle else at_pc s (SubLock id)))
  | SubLock id => Some (
      m ← mq_get q id;
      _ ← require (msg_initial m * 2 + 1 <? 2 ^ 63);
      let '(locked, flag) := sm_try_lock_shared_n lock_fails (u64 (msg_initial m * 2 + 1)) (msg_mutex m) in
      q1 ← mq_put q id (set_mutex m flag);
      Ok (q1, if locked : bool then at_pc s (SubCallback id) else got s id (Failed 3) SubIdle))
  | _ => None
  end.

(** The destructor of the access. *)
(* @source include/ipcpp/publish_subscribe/fifo_seq/fifo_message.h 35-46 Message::Access<READ>::~Access *)
Definition release_step (q : mqueue T) (s : sub_thread) : option (outcome (mqueue T * sub_thread)) :=
  match st_pc s with
  | SubRelease id v => Some (
      m ← mq_get q id;
      q1 ← mq_put q id (set_remaining m (i64 (msg_remaining m - 1)));
      Ok (q1, at_pc s (SubReset id (msg_remaining m))))
  | SubReset id old => Some (
      q1 ← mq_update q id (fun m => Ok (if old =? 1 then set_value m None else m));
      Ok (q1, at_pc s (SubUnlock id)))
  | SubUnlock id => Some (
      q1 ← mq_update q id (fun m => f ← sm_unlock_shared (msg_mutex m); Ok (set_mutex m f));
      Ok (q1, at_pc s (SubLeave id)))
  | SubLeave id => Some (
      q1 ← mq_update q id (fun m => Ok (set_active m (i64 (msg_active m - 1))));
      Ok (q1, at_pc s SubIdle))
  | _ => None
  end.

(* @source include/ipcpp/publish_subscribe/fifo_seq/fifo_subscriber.h 130-143 Subscriber::receive *)
Definition sub_step (left_first lock_fails : bool) (q : mqueue T) (s : sub_thread) : option (outcome (mqueue T * sub_thread)) :=
  match st_pc s with
  | SubJoining => Some (Ok (q, {| st_next := mq_next q; st_pc := SubIdle; st_got := st_got s |}))
  | SubRead id => Some (
      m ← mq_get q id;
      Ok (q, if negb (message_id m =? id) then got s id (Failed 2) SubIdle else at_pc s (SubValue id)))
  | SubCallback id => Some (
      m ← mq_get q id;
      v ← access_deref m;
      Ok (q, got s id (Delivered v) (SubRelease id v)))
  | SubRelease _ _ | SubReset _ _ | SubUnlock _ | SubLeave _ => release_step q s
  | _ => consume_step left_first lock_fails q s
  end.

(** * Interleavings *)
Inductive action : Type :=
| Publish (v : T)
| PubStep (spurious : bool)
| Subscribe (i : nat)
| Cancel (i : nat)
| Receive (i : nat)
| SubStep (i : nat) (lock_fails : bool).

Definition set_sub (c : conc) (i : nat) (q : mqueue T) (s : sub_thread) : conc :=
  {| cs_queue := q; cs_pub := cs_pub c; cs_subs := <[i := s]> (cs_subs c); cs_log := cs_log c; cs_replies := cs_replies c |}.

Definition with_pub (c : conc) (q : mqueue T) (p : pub_pc) (log : list T) (replies : list bool) : conc :=
  {| cs_queue := q; cs_pub := p; cs_subs := cs_subs c; cs_log := log; cs_replies := replies |}.

(** A value is in the log once the publisher has the lock of its slot. *)
Definition log_step (p p1 : pub_pc) (log : list T) : list T :=
  match p, p1 with PubLock _ v, PubCount _ _ => log ++ [v] | _, _ => log end.

(** [None]: the thread is elsewhere. *)
Definition c_step (left_first : bool) (e : action) (c : conc) : option (outcome conc) :=
  let q := cs_queue c in
  match e with
  | Publish v =>
    match cs_pub c with
    | PubIdle => Some (Ok (with_pub c q (PubLock (mq_next q) v) (cs_log c) (cs_replies c)))
    | _ => None
    end
  | PubStep spurious =>
    r ← pub_step spurious (cs_pub c) q;
    Some ('(p, q1, reply) ← r;
      Ok (with_pub c q1 p (log_step (cs_pub c) p (cs_log c)) (cs_replies c ++ option_list reply)))
  | Subscribe i =>
    s ← cs_subs c !! i;
    match st_pc s with
    | SubOut => Some (Ok (set_sub c i (set_num_subscribers q (u64 (mq_num_subscribers q + 1))) (at_pc s SubJoining)))
    | _ => None
    end
  | Cancel i =>
    s ← cs_subs c !! i;
    match st_pc s with
    | SubIdle => Some (Ok (set_sub c i (set_num_subscribers q (u64 (mq_num_subscribers q - 1))) (at_pc s SubOut)))
    | _ => None
    end
  | Receive i =>
    s ← cs_subs c !! i;
    match st_pc s with SubIdle => Some (Ok (set_sub c i q (sub_wait q s))) | _ => None end
  | SubStep i lock_fails =>
    s ← cs_subs c !! i;
    r ← sub_step left_first lock_fails q s;
    Some ('(q1, s1) ← r; Ok (set_sub c i q1 s1))
  end.

Fixpoint c_run (left_first : bool) (es : list action) (c : conc) : option (outcome conc) :=
  match es with
  | [] => Some (Ok c)
  | e :: es' =>
    r ← c_step left_first e c;
    match r with Ok c1 => c_run left_first es' c1 | Throw x => Some (Throw x) | UB => Some UB end
  end.

Definition outside : sub_thread := {| st_next := 0; st_pc := SubOut; st_got := [] |}.
(** A fresh queue with [n] processes that may subscribe. *)
Definition c_start (q : mqueue T) (n : nat) : conc :=
  {| cs_queue := q; cs_pub := PubIdle; cs_subs := replicate n outside; cs_log := []; cs_replies := [] |}.

(** * The invariant *)

(** The message a subscriber is at. *)
Definition pc_id (p : sub_pc) : option Z :=
  match p with
  | SubOut | SubJoining | SubIdle => None
  | SubRead id | SubValue id | SubCount id | SubLoaded id _ | SubCompare id _ | SubLock id | SubCallback id
  | SubRelease id _ | SubReset id _ | SubUnlock id | SubLeave id => Some id
  end.

(** It has raised the counter of accesses. *)
Definition counted (p : sub_pc) : bool :=
  match p with
  | SubCompare _ _ | SubLock _ | SubCallback _ | SubRelease _ _ | SubReset _ _ | SubUnlock _ | SubLeave _ => true
  | _ => false
  end.
(** It has been granted one of the [r] references that remain, or will be as things are. *)
Definition granted (r : Z) (p : sub_pc) : bool :=
  match p with
  | SubCompare _ a => a <? r
  | SubLock _ | SubCallback _ | SubRelease _ _ => true
  | _ => false
  end.
(** It holds the lock. *)
Definition holding (p : sub_pc) : bool :=
  match p with SubCallback _ | SubRelease _ _ | SubReset _ _ | SubUnlock _ => true | _ => false end.
Definition subscribed (s : sub_thread) : bool := match st_pc s with SubOut => false | _ => true end.
(** It is in [receive], or would find a message there. *)
Definition behind (next : Z) (s : sub_thread) : bool :=
  match st_pc s with SubOut | SubJoining => false | SubIdle => negb (st_next s =? next) | _ => true end.

(** In slot [s] of [n]. *)
Definition here (n s : Z) (p : sub_pc) : bool := match pc_id p with Some id => id mod n =? s | None => false end.
Definition slot_count (n s : Z) (f : sub_pc -> bool) (subs : list sub_thread) : Z := count (fun x => here n s (st_pc x) && f (st_pc x)) subs.

(** The publisher holds the slot. *)
Definition writing (n s : Z) (p : pub_pc) : bool :=
  match p with
  | PubCount id _ | PubRemaining id _ _ | PubInitial id _ _ | PubValue id _ | PubId id | PubUnlock id => id mod n =? s
  | _ => false
  end.
(** How many messages have their number written. *)
Definition written (p : pub_pc) (log : list T) : Z :=
  zlen log - match p with PubCount _ _ | PubRemaining _ _ _ | PubInitial _ _ _ | PubValue _ _ | PubId _ => 1 | _ => 0 end.

(** The number in slot [s] is that of the last message in it. *)
Definition last_id (n w s id : Z) : Prop :=
  id = umax 64 /\ (forall j, 0 <= j < w -> j mod n <> s) \/ 0 <= id < w /\ id mod n = s /\ w <= id + n.

(** A slot with references left has its value ... *)
Definition settled (log : list T) (m : message T) : Prop :=
  1 <= msg_remaining m -> exists v, msg_value m = Some v /\ zlookup log (msg_id m) = Some v.
(** ... except while the publisher is between storing the one and the other. *)
Definition value_ok (n s : Z) (p : pub_pc) (log : list T) (m : message T) : Prop :=
  match p with
  | PubInitial id _ _ | PubValue id _ => id mod n <> s -> settled log m
  | PubId id => if id mod n =? s then exists v, msg_value m = Some v /\ zlookup log id = Some v else settled log m
  | _ => settled log m
  end.

(** What a subscriber relies on in its slot while it holds the lock. *)
Definition relies (m : message T) (p : sub_pc) : Prop :=
  match p with
  | SubRelease _ v => msg_value m = Some v
  | SubReset _ old => old = 1 -> msg_remaining m = 0
  | _ => True
  end.

Record slot_inv (n : Z) (p : pub_pc) (log : list T) (subs : list sub_thread) (s : Z) (m : message T) : Prop := {
  sl_mutex : msg_mutex m = if writing n s p then -1 else slot_count n s holding subs;
  sl_excluded : writing n s p = true -> slot_count n s holding subs = 0;
  sl_active : slot_count n s counted subs <= msg_active m;
  sl_granted : slot_count n s (granted (msg_remaining m)) subs <= msg_remaining m <= zlen subs;
  sl_initial : 0 <= msg_initial m <= zlen subs;
  sl_id : last_id n (written p log) s (msg_id m);
  sl_value : value_ok n s p log m;
  sl_relies : forall i x, subs !! i = Some x -> here n s (st_pc x) = true -> relies m (st_pc x)
}.

(** What a call of [receive] for message [id] may come to: the value of this message or,
    after whole rounds of the ring, of a later one in its place; error 2 if it has been
    overwritten; error 3. *)
Definition got_ok (n : Z) (log : list T) (x : Z * received T) : Prop :=
  match x.2 with
  | Delivered v => exists j, x.1 <= j /\ j mod n = x.1 mod n /\ zlookup log j = Some v
  | Failed code => code = 2 /\ x.1 + n < zlen log \/ code = 3
  end.

(** The messages it has tried have increasing numbers, all below that of the one it is at. *)
Definition increasing (l : list (Z * received T)) (bound : Z) : Prop :=
  (forall i j x y, (i < j)%nat -> l !! i = Some x -> l !! j = Some y -> x.1 < y.1) /\ Forall (fun x => x.1 < bound) l.
Definition tried (s : sub_thread) : Z :=
  match st_pc s with
  | SubRead id | SubValue id | SubCount id | SubLoaded id _ | SubCompare id _ | SubLock id | SubCallback id => id
  | _ => st_next s
  end.

Record sub_ok (n next : Z) (log : list T) (s : sub_thread) : Prop := {
  so_next : 0 <= st_next s <= next;
  so_id : forall id, pc_id (st_pc s) = Some id -> st_next s = id + 1 /\ 0 <= id;
  so_order : forall id r, st_pc s <> SubLoaded id r;
  so_got : Forall (got_ok n log) (st_got s);
  so_increasing : increasing (st_got s) (tried s)
}.

(** The publisher's place: the counter is behind the log while it writes. *)
Definition pub_ok (next : Z) (log : list T) (subs : list sub_thread) (p : pub_pc) : Prop :=
  let last id v := id = next /\ zlen log = id + 1 /\ zlookup log id = Some v in
  match p with
  | PubIdle => next = zlen log
  | PubLock id _ => id = next /\ next = zlen log
  | PubCount id v | PubValue id v => last id v
  | PubRemaining id v n => last id v /\ count (behind next) subs <= n <= zlen subs
  | PubInitial id v n => last id v /\ 0 <= n <= zlen subs
  | PubId id | PubUnlock id | PubNotify id => exists v, last id v
  end.

(** It has entered a value in the log and not returned yet. *)
Definition publishing (p : pub_pc) : bool := match p with PubIdle | PubLock _ _ => false | _ => true end.

(** How many calls of [publish] returned success. *)
Definition published (replies : list bool) : Z := count (fun b => b) replies.

(** After [t] steps. *)
Record conc_inv (k t : Z) (c : conc) : Prop := {
  ci_k : 0 <= k < 62;
  ci_items : zlen (mq_items (cs_queue c)) = 2 ^ k;
  ci_bounds : t < 2 ^ 60 /\ zlen (cs_subs c) < 2 ^ 60 /\ zlen (cs_log c) <= t;
  ci_num : mq_num_subscribers (cs_queue c) = count subscribed (cs_subs c);
  ci_pub : pub_ok (mq_next (cs_queue c)) (cs_log c) (cs_subs c) (cs_pub c);
  ci_subs : forall i s, cs_subs c !! i = Some s -> sub_ok (2 ^ k) (mq_next (cs_queue c)) (cs_log c) s;
  ci_replies : zlen (cs_log c) = published (cs_replies c) + Z.b2z (publishing (cs_pub c));
  ci_slots : forall s m, zlookup (mq_items (cs_queue c)) s = Some m -> slot_inv (2 ^ k) (cs_pub c) (cs_log c) (cs_subs c) s m;
  ci_active : forall s m, zlookup (mq_items (cs_queue c)) s = Some m -> msg_active m <= t
}.
(** * Preservation: one slot *)

(** A subscriber at slot [s] for which [f] holds. *)
Definition eff (n s : Z) (f : sub_pc -> bool) (x : sub_thread) : Z := Z.b2z (here n s (st_pc x) && f (st_pc x)).

Lemma slot_count_insert n s f subs i x y : subs !! i = Some x ->
  slot_count n s f (<[i := y]> subs) = slot_count n s f subs - eff n s f x + eff n s f y.
Proof.
  intros Hi. unfold slot_count, eff. rewrite (count_insert _ _ _ _ y Hi).
  by destruct (here n s (st_pc x) && f (st_pc x)), (here n s (st_pc y) && f (st_pc y)).
Qed.

Lemma slot_count_lookup n s f subs i x : subs !! i = Some x -> eff n s f x <= slot_count n s f subs.
Proof.
  intros Hi. unfold slot_count, eff. destruct (here n s (st_pc x) && f (st_pc x)) eqn:E; simpl.
  - eapply count_lookup; [done|]. done.
  - apply count_nonneg.
Qed.

Lemma slot_count_nonneg n s f subs : 0 <= slot_count n s f subs.
Proof. apply count_nonneg. Qed.

Lemma slot_count_le n s f g subs : (forall p, f p = true -> g p = true) -> slot_count n s f subs <= slot_count n s g subs.
Proof. intros H. apply count_mono. intros x _ [? ?%H]%andb_true_iff. by apply andb_true_iff. Qed.

Lemma granted_counted r p : granted r p = true -> counted p = true.
Proof. by destruct p. Qed.

(** A subscriber moves from [x] to [y] and leaves [m1] in its slot. *)
Lemma slot_inv_sub n p log subs s m m1 i x y :
  slot_inv n p log subs s m -> subs !! i = Some x ->
  let d f := eff n s f y - eff n s f x in
  msg_mutex m1 = msg_mutex m + d holding ->
  (writing n s p = true -> d holding = 0) ->
  slot_count n s counted subs + d counted <= msg_active m1 ->
  slot_count n s (granted (msg_remaining m1)) subs + d (granted (msg_remaining m1)) <= msg_remaining m1 <= zlen subs ->
  msg_initial m1 = msg_initial m -> msg_id m1 = msg_id m ->
  (value_ok n s p log m -> value_ok n s p log m1) ->
  (forall j z, j <> i -> subs !! j = Some z -> here n s (st_pc z) = true -> relies m (st_pc z) -> relies m1 (st_pc z)) ->
  (here n s (st_pc y) = true -> relies m1 (st_pc y)) ->
  slot_inv n p log (<[i := y]> subs) s m1.
Proof.
  intros [Hmu Hex Hac Hgr Hin Hid Hv Hre] Hi d Hmu1 Hw1 Hac1 Hgr1 Hin1 Hid1 Hv1 Hre1 Hy. subst d. simpl in *.
  split; rewrite ?(slot_count_insert _ _ _ _ _ _ y Hi), ?zlen_insert, ?Hin1, ?Hid1; auto; try lia.
  - rewrite Hmu1, Hmu. destruct (writing n s p); [rewrite Hw1 by done|]; lia.
  - intros Hw. specialize (Hex Hw). specialize (Hw1 Hw). lia.
  - intros j z Hj Hz. destruct (decide (i = j)) as [<-|Hne].
    + rewrite list_lookup_insert_eq in Hj by (by eapply lookup_lt_Some). simplify_eq. auto.
    + rewrite list_lookup_insert_ne in Hj by done. eapply Hre1; eauto.
Qed.

(** ... leaving it alone and not raising any count. *)
Lemma slot_inv_quiet n p log subs s m i x y :
  slot_inv n p log subs s m -> subs !! i = Some x ->
  eff n s holding y = eff n s holding x ->
  eff n s counted y <= eff n s counted x ->
  eff n s (granted (msg_remaining m)) y <= eff n s (granted (msg_remaining m)) x ->
  (here n s (st_pc y) = true -> relies m (st_pc y)) ->
  slot_inv n p log (<[i := y]> subs) s m.
Proof.
  intros Hs Hi Hh Hc Hg Hy. pose proof Hs as [? ? ? ? ? ? ? ?].
  eapply slot_inv_sub; try done; simpl; intros; rewrite ?Hh; auto; lia.
Qed.

Lemma eff_elsewhere n s f x : here n s (st_pc x) = false -> eff n s f x = 0.
Proof. intros H. unfold eff. by rewrite H. Qed.

Lemma slot_inv_elsewhere n p log subs s m i x y :
  slot_inv n p log subs s m -> subs !! i = Some x ->
  here n s (st_pc x) = false -> here n s (st_pc y) = false ->
  slot_inv n p log (<[i := y]> subs) s m.
Proof.
  intros Hs Hi Hx Hy. eapply slot_inv_quiet; try done; rewrite ?(eff_elsewhere _ _ _ _ Hx), ?(eff_elsewhere _ _ _ _ Hy); try lia.
  congruence.
Qed.

(** * Preservation: subscribers *)
Lemma increasing_mono l b b' : increasing l b -> b <= b' -> increasing l b'.
Proof. intros [H1 H2] Hb. split; [done|]. eapply Forall_impl; [done|]. simpl. lia. Qed.

Lemma increasing_snoc l (id : Z) (r : received T) : increasing l id -> increasing (l ++ [(id, r)]) (id + 1).
Proof.
  intros [H1 H2]. split.
  - intros i j x y Hij Hx Hy. apply lookup_snoc_Some in Hy as [[Hj Hy]|[-> <-]].
    + apply lookup_snoc_Some in Hx as [[_ Hx]|[-> _]]; [exact (H1 i j x y Hij Hx Hy)|lia].
    + apply lookup_snoc_Some in Hx as [[_ Hx]|[-> _]]; [|lia]. by apply (Forall_lookup_1 _ _ _ _ H2 Hx).
  - apply Forall_app. split; [eapply Forall_impl; [exact H2|simpl; lia]|]. constructor; [simpl; lia|constructor].
Qed.

Lemma sub_ok_at n next log s p :
  sub_ok n next log s ->
  (forall id, pc_id p = Some id -> pc_id (st_pc s) = Some id) -> (forall id r, p <> SubLoaded id r) ->
  tried s <= tried (at_pc s p) -> sub_ok n next log (at_pc s p).
Proof.
  intros [Hn Hid Ho Hg Hi] Hp Hl Ht. split; simpl; auto.
  by eapply increasing_mono.
Qed.

Lemma sub_ok_got n next log s id r p :
  sub_ok n next log s -> pc_id (st_pc s) = Some id -> tried s = id ->
  (forall j, pc_id p = Some j -> j = id) -> (forall j x, p <> SubLoaded j x) ->
  tried (got s id r p) = st_next s -> got_ok n log (id, r) -> sub_ok n next log (got s id r p).
Proof.
  intros [Hn Hid Ho Hg Hi] Hs Ht Hp Hl Ht' Hr. destruct (Hid _ Hs). split; simpl; auto.
  - intros j Hj. rewrite (Hp j Hj). auto.
  - apply Forall_app. auto.
  - rewrite Ht'. replace (st_next s) with (id + 1) by lia. apply increasing_snoc. by rewrite <- Ht.
Qed.

Lemma mq_get_slot k (q : mqueue T) id m : 0 <= k < 62 -> zlen (mq_items q) = 2 ^ k ->
  mq_get q id = Ok m <-> zlookup (mq_items q) (id mod 2 ^ k) = Some m.
Proof. intros Hk Hq. unfold mq_get. rewrite (mq_index_mod k) by done. apply must_Some. Qed.

Lemma mq_get_total k (q : mqueue T) id : 0 <= k < 62 -> zlen (mq_items q) = 2 ^ k -> exists m, mq_get q id = Ok m.
Proof.
  intros Hk Hq. pose proof (window_pos k Hk).
  destruct (zlookup_is_Some (mq_items q) (id mod 2 ^ k)) as [m Hm].
  { rewrite Hq. apply Z.mod_pos_bound. lia. }
  exists m. by apply (mq_get_slot k).
Qed.

Lemma mq_put_slot k (q : mqueue T) id m : 0 <= k < 62 -> zlen (mq_items q) = 2 ^ k ->
  mq_put q id m = Ok (set_items q (<[Z.to_nat (id mod 2 ^ k) := m]> (mq_items q))).
Proof.
  intros Hk Hq. pose proof (window_pos k Hk). unfold mq_put. rewrite (mq_index_mod k) by done.
  pose proof (Z.mod_pos_bound id (2 ^ k) ltac:(lia)). by rewrite zinsert_in by lia.
Qed.

(** The slots after a store in that of [id]. *)
Lemma slots_put k (q q1 : mqueue T) id m s m' : 0 <= k < 62 -> zlen (mq_items q) = 2 ^ k ->
  mq_put q id m = Ok q1 -> zlookup (mq_items q1) s = Some m' ->
  s = id mod 2 ^ k /\ m' = m \/ s <> id mod 2 ^ k /\ zlookup (mq_items q) s = Some m'.
Proof.
  intros Hk Hq Hput Hs. rewrite (mq_put_slot k) in Hput by done. injection Hput as <-. simpl in Hs.
  pose proof (window_pos k Hk). rewrite zlookup_insert in Hs by (rewrite Hq; apply Z.mod_pos_bound; lia).
  case_decide; [left|right]; split; congruence.
Qed.

Lemma here_id n s p id : pc_id p = Some id -> here n s p = (id mod n =? s).
Proof. unfold here. by intros ->. Qed.
Lemma here_none n s p : pc_id p = None -> here n s p = false.
Proof. unfold here. by intros ->. Qed.

Lemma subs_ok_insert n next log (subs : list sub_thread) i x :
  (forall j s, subs !! j = Some s -> sub_ok n next log s) -> sub_ok n next log x ->
  forall j s, <[i := x]> subs !! j = Some s -> sub_ok n next log s.
Proof. intros Hs Hx j s [(-> & -> & _)|[_ H]]%list_lookup_insert_Some; eauto. Qed.

Lemma pub_ok_subs next log subs p i s s1 :
  pub_ok next log subs p -> subs !! i = Some s -> (behind next s1 = true -> behind next s = true) ->
  pub_ok next log (<[i := s1]> subs) p.
Proof.
  intros Hp Hi Hb. destruct p; simpl in *; rewrite ?zlen_insert; try done.
  destruct Hp as (Hl & Hn). split; [done|]. rewrite (count_insert _ _ _ _ s1 Hi).
  destruct (behind next s1), (behind next s); naive_solver lia.
Qed.

(** One step of a subscriber at a message. *)
Lemma conc_sub k t c i s s1 id m m1 q1 :
  conc_inv k t c -> t + 1 < 2 ^ 60 -> cs_subs c !! i = Some s -> pc_id (st_pc s) = Some id ->
  mq_get (cs_queue c) id = Ok m -> mq_put (cs_queue c) id m1 = Ok q1 ->
  (forall j, pc_id (st_pc s1) = Some j -> j = id) -> st_pc s1 <> SubOut ->
  sub_ok (2 ^ k) (mq_next (cs_queue c)) (cs_log c) s1 -> msg_active m1 <= t + 1 ->
  slot_inv (2 ^ k) (cs_pub c) (cs_log c) (<[i := s1]> (cs_subs c)) (id mod 2 ^ k) m1 ->
  conc_inv k (t + 1) (set_sub c i q1 s1).
Proof.
  intros [Hk Hit Hb Hnum Hpub Hsubs Hrep Hsl Hac] Ht Hi Hid Hm Hq1 Hid1 Hout Hok Ha Hm1.
  pose proof Hq1 as Heq. rewrite (mq_put_slot k) in Heq by done. injection Heq as Heq.
  assert (mq_next q1 = mq_next (cs_queue c)) as Hnext by by rewrite <- Heq.
  split; simpl; rewrite ?Hnext, ?zlen_insert; try done; try lia.
  - rewrite <- Heq. simpl. by rewrite zlen_insert.
  - rewrite <- Heq. simpl. rewrite Hnum, (count_insert _ _ _ _ s1 Hi). unfold subscribed.
    destruct (st_pc s) eqn:E; rewrite ?E in Hid; try done; destruct (st_pc s1); try done; lia.
  - eapply pub_ok_subs; [done..|]. intros _. unfold behind. by destruct (st_pc s) eqn:E; rewrite ?E in Hid.
  - by apply subs_ok_insert.
  - intros sl x Hx. destruct (slots_put _ _ _ _ _ _ _ Hk Hit Hq1 Hx) as [[-> ->]|[Hne Hx']]; [done|].
    eapply slot_inv_elsewhere; [by apply Hsl|done| |].
    + rewrite (here_id _ _ _ _ Hid). apply Z.eqb_neq. congruence.
    + destruct (pc_id (st_pc s1)) as [j|] eqn:Hj; [|by apply here_none].
      rewrite (here_id _ _ _ _ Hj), (Hid1 _ eq_refl). apply Z.eqb_neq. congruence.
  - intros sl x Hx. destruct (slots_put _ _ _ _ _ _ _ Hk Hit Hq1 Hx) as [[-> ->]|[Hne Hx']]; [done|].
    specialize (Hac _ _ Hx'). lia.
Qed.

Lemma eff_at n f x id : pc_id (st_pc x) = Some id -> eff n (id mod n) f x = Z.b2z (f (st_pc x)).
Proof. intros H. unfold eff. by rewrite (here_id _ _ _ _ H), Z.eqb_refl. Qed.
Lemma eff_idle n s f x : st_pc x = SubIdle -> eff n s f x = 0.
Proof. intros H. unfold eff. by rewrite H. Qed.

(** What is known of the slot a subscriber is at. *)
Lemma conc_at k t c i s id :
  conc_inv k t c -> cs_subs c !! i = Some s -> pc_id (st_pc s) = Some id ->
  exists m, mq_get (cs_queue c) id = Ok m /\
    slot_inv (2 ^ k) (cs_pub c) (cs_log c) (cs_subs c) (id mod 2 ^ k) m /\
    msg_active m <= t /\ sub_ok (2 ^ k) (mq_next (cs_queue c)) (cs_log c) s /\
    here (2 ^ k) (id mod 2 ^ k) (st_pc s) = true.
Proof.
  intros Hc Hi Hid. pose proof Hc as [Hk Hit _ _ _ Hsubs _ Hsl Hac].
  destruct (mq_get_total k (cs_queue c) id Hk Hit) as [m Hm]. exists m.
  pose proof Hm as Hl. apply (mq_get_slot k) in Hl; [|done..].
  split_and!; eauto. rewrite (here_id _ _ _ _ Hid). apply Z.eqb_refl.
Qed.

(** A step that reads. *)
Lemma conc_sub_quiet k t c i s s1 id m :
  conc_inv k t c -> t + 1 < 2 ^ 60 -> cs_subs c !! i = Some s -> pc_id (st_pc s) = Some id ->
  mq_get (cs_queue c) id = Ok m ->
  (pc_id (st_pc s1) = Some id \/ st_pc s1 = SubIdle) ->
  sub_ok (2 ^ k) (mq_next (cs_queue c)) (cs_log c) s1 ->
  holding (st_pc s1) = holding (st_pc s) -> (counted (st_pc s1) = true -> counted (st_pc s) = true) ->
  (granted (msg_remaining m) (st_pc s1) = true -> granted (msg_remaining m) (st_pc s) = true) ->
  relies m (st_pc s1) ->
  conc_inv k (t + 1) (set_sub c i (cs_queue c) s1).
Proof.
  intros Hc Ht Hi Hid Hm Hp Hok Hh Hco Hg Hr.
  destruct (conc_at _ _ _ _ _ _ Hc Hi Hid) as (m' & Hm' & Hsl & Ha & _ & _).
  rewrite Hm in Hm'. injection Hm' as <-.
  eapply conc_sub; try done; [by apply mq_put_same| | |lia|].
  - intros j Hj. destruct Hp as [Hp|Hp]; rewrite Hp in Hj; by simplify_eq/=.
  - intros Hp'. rewrite Hp' in Hp. naive_solver.
  - assert (forall f, f SubIdle = false -> eff (2 ^ k) (id mod 2 ^ k) f s1 = Z.b2z (f (st_pc s1))) as He.
    { intros f Hf. destruct Hp as [Hp|Hp]; [by apply eff_at|]. by rewrite eff_idle, Hp, Hf. }
    eapply slot_inv_quiet; try done; rewrite ?He by done; rewrite ?(eff_at _ _ s id) by done.
    + by rewrite Hh.
    + destruct (counted (st_pc s1)), (counted (st_pc s)); simpl; (lia || naive_solver).
    + destruct (granted _ (st_pc s1)), (granted _ (st_pc s)); simpl; (lia || naive_solver).
Qed.

Lemma written_next next log subs p : pub_ok next log subs p -> next <= written p log <= zlen log.
Proof. destruct p; simpl; unfold written; intros Hp; naive_solver lia. Qed.

(** The number in a slot is that of [id] or of a later message of its slot. *)
Lemma last_id_later n w id j : 0 < n -> 0 <= id < w -> last_id n w (id mod n) j ->
  id <= j < w /\ j mod n = id mod n /\ (j <> id -> id + n <= j).
Proof.
  intros Hn Hid [[_ Hj]|(Hj & Hmod & Hw)]; [by destruct (Hj id Hid)|].
  pose proof (Z.div_mod id n ltac:(lia)). pose proof (Z.div_mod j n ltac:(lia)).
  assert (id / n <= j / n) by nia. split_and!; [nia|lia|done|]. intros Hne.
  assert (id / n <> j / n) by (intros He; apply Hne; rewrite He in *; lia). nia.
Qed.

Lemma value_ok_settled n s p log m : writing n s p = false -> value_ok n s p log m -> settled log m.
Proof. unfold value_ok, writing. destruct p; auto; [| |by intros ->]; intros ?%Z.eqb_neq H; auto. Qed.

Lemma value_ok_change n s p log m m1 : writing n s p = false -> (settled log m -> settled log m1) ->
  value_ok n s p log m -> value_ok n s p log m1.
Proof. unfold value_ok, writing. destruct p; auto. by intros ->. Qed.

(** One step of a subscriber that is at no message. *)
Lemma conc_sub_away k t c i s s1 q1 :
  conc_inv k t c -> t + 1 < 2 ^ 60 -> cs_subs c !! i = Some s -> pc_id (st_pc s) = None ->
  mq_items q1 = mq_items (cs_queue c) -> mq_next q1 = mq_next (cs_queue c) ->
  mq_num_subscribers q1 = mq_num_subscribers (cs_queue c) + Z.b2z (subscribed s1) - Z.b2z (subscribed s) ->
  (forall m, relies m (st_pc s1)) -> counted (st_pc s1) = false -> holding (st_pc s1) = false ->
  (behind (mq_next (cs_queue c)) s1 = true -> behind (mq_next (cs_queue c)) s = true) ->
  sub_ok (2 ^ k) (mq_next (cs_queue c)) (cs_log c) s1 ->
  conc_inv k (t + 1) (set_sub c i q1 s1).
Proof.
  intros [Hk Hit Hb Hnum Hpub Hsubs Hrep Hsl Hac] Ht Hi Hp Hq Hn Hq1 Hr Hco Hh Hbe Hok.
  split; simpl; rewrite ?Hn, ?Hq, ?zlen_insert; try done; try lia.
  - rewrite Hq1, Hnum, (count_insert _ _ _ _ s1 Hi). destruct (subscribed s), (subscribed s1); simpl; lia.
  - by eapply pub_ok_subs.
  - by apply subs_ok_insert.
  - intros sl m Hm.
    assert (forall f, (f (st_pc s1) = true -> counted (st_pc s1) = true \/ holding (st_pc s1) = true) ->
      eff (2 ^ k) sl f s1 = 0) as He.
    { intros f Hf. unfold eff. destruct (f (st_pc s1)); [|by rewrite andb_false_r].
      destruct (Hf eq_refl); congruence. }
    eapply slot_inv_quiet; eauto; rewrite ?(eff_elsewhere _ _ _ s) by (by apply here_none); rewrite ?He; auto; try lia.
    intros Hg. left. by eapply granted_counted.
  - intros sl m Hm. specialize (Hac _ _ Hm). lia.
Qed.

Section subscriber.
Context (k t : Z) (c : conc) (i : nat) (s : sub_thread).
Hypothesis Hc : conc_inv k t c.
Hypothesis Ht : t + 1 < 2 ^ 60.
Hypothesis Hi : cs_subs c !! i = Some s.
Local Abbreviation n := (2 ^ k).
Local Abbreviation q := (cs_queue c).

(** The slot of the subscriber's place. *)
Local Ltac at_slot Hp :=
  lazymatch type of Hp with _ = ?p =>
    let o := eval simpl in (pc_id p) in
    lazymatch o with Some ?id =>
      assert (pc_id (st_pc s) = Some id) as Hid by (by rewrite Hp);
      destruct (conc_at _ _ _ _ _ _ Hc Hi Hid) as (m & Hm & Hsl & Ha & Hok & Hhere)
    end
  end.
(** Its own invariant after a step that ends its call with a result, and one that does not. *)
Local Ltac ends Hp := apply sub_ok_got; rewrite ?Hp; try done; [unfold tried; by rewrite Hp|..].
Local Ltac moves Hp := apply sub_ok_at; rewrite ?Hp; try done; unfold tried; simpl; by rewrite Hp.

Definition stepped (o : option (outcome (mqueue T * sub_thread))) : Prop :=
  exists q1 s1, o = Some (Ok (q1, s1)) /\ conc_inv k (t + 1) (set_sub c i q1 s1).

Lemma id_written id : pc_id (st_pc s) = Some id -> 0 <= id < written (cs_pub c) (cs_log c) /\ written (cs_pub c) (cs_log c) <= zlen (cs_log c).
Proof.
  intros Hid. destruct Hc. destruct (so_id _ _ _ _ (ci_subs0 _ _ Hi) _ Hid).
  pose proof (so_next _ _ _ _ (ci_subs0 _ _ Hi)). pose proof (written_next _ _ _ _ ci_pub0). lia.
Qed.

Lemma read_inv lo lf id : st_pc s = SubRead id -> stepped (sub_step lo lf q s).
Proof.
  intros Hp. at_slot Hp.
  unfold sub_step, stepped. rewrite Hp, Hm. simpl. unfold message_id.
  destruct (Z.eqb_spec (msg_id m) id) as [Heq|Hne]; simpl; eexists _, _; (split; [done|]);
    (eapply conc_sub_quiet; try done; simpl; rewrite ?Hp; auto).
  - moves Hp.
  - ends Hp. left. split; [done|]. simpl.
    pose proof (id_written id Hid). destruct Hc as [Hk _ _ _ _ _ _ _ _]. pose proof (window_pos k Hk).
    destruct (last_id_later n (written (cs_pub c) (cs_log c)) id (msg_id m) ltac:(lia) ltac:(lia) (sl_id _ _ _ _ _ _ Hsl)) as (H1 & _ & H3).
    specialize (H3 Hne). lia.
Qed.

Lemma value_inv lf id : st_pc s = SubValue id -> stepped (sub_step true lf q s).
Proof.
  intros Hp. at_slot Hp.
  unfold sub_step, consume_step, stepped. rewrite Hp, Hm. simpl.
  destruct (msg_value m); eexists _, _; (split; [done|]);
    (eapply conc_sub_quiet; try done; simpl; rewrite ?Hp; auto).
  - moves Hp.
  - ends Hp. by right.
Qed.

Lemma compare_inv lf id a : st_pc s = SubCompare id a -> stepped (sub_step true lf q s).
Proof.
  intros Hp. at_slot Hp.
  unfold sub_step, consume_step, stepped. rewrite Hp, Hm. simpl. rewrite Z.geb_leb.
  destruct (Z.leb_spec (msg_remaining m) a); eexists _, _; (split; [done|]);
    (eapply conc_sub_quiet; try done; simpl; rewrite ?Hp; auto).
  - ends Hp. by right.
  - moves Hp.
  - intros _. simpl. by apply Z.ltb_lt.
Qed.

Lemma count_inv lf id : st_pc s = SubCount id -> stepped (sub_step true lf q s).
Proof.
  intros Hp. at_slot Hp.
  pose proof Hc as [Hk Hit Hb _ _ _ _ _ _]. pose proof Hsl as [_ _ Hac [Hgr Hzl] _ _ _ _].
  pose proof (slot_count_nonneg n (id mod n) counted (cs_subs c)).
  unfold sub_step, consume_step, stepped. rewrite Hp, Hm. simpl.
  rewrite (mq_put_slot k) by done. simpl. eexists _, _. split; [done|].
  eapply conc_sub; try done; [by apply (mq_put_slot k)|by intros j [= ->]| |simpl; rewrite i64_small; lia|].
  { moves Hp. }
  eapply slot_inv_sub; try done; rewrite ?(eff_at _ _ s id), ?(eff_at _ _ (at_pc _ _) id) by done;
    rewrite ?Hp; simpl; rewrite ?i64_small; try lia; auto.
  destruct (Z.ltb_spec (msg_active m) (msg_remaining m)); simpl; [|lia].
  pose proof (slot_count_le n (id mod n) (granted (msg_remaining m)) counted (cs_subs c) (granted_counted _)). lia.
Qed.

Lemma lock_inv lf id : st_pc s = SubLock id -> stepped (sub_step true lf q s).
Proof.
  intros Hp. at_slot Hp.
  pose proof Hc as [Hk Hit Hb _ _ _ _ _ _]. pose proof Hsl as [Hmu Hex Hac Hgr Hin _ _ _].
  pose proof (slot_count_nonneg n (id mod n) holding (cs_subs c)).
  assert (slot_count n (id mod n) holding (cs_subs c) <= zlen (cs_subs c)) by apply count_le_length.
  unfold sub_step, consume_step, stepped. rewrite Hp, Hm. simpl.
  rewrite (proj2 (Z.ltb_lt _ _)) by lia. simpl. unfold sm_try_lock_shared_n.
  assert (exists q1, mq_put q id (set_mutex m (msg_mutex m)) = Ok q1 /\
    conc_inv k (t + 1) (set_sub c i q1 (got s id (Failed 3) SubIdle))) as (q1 & Hq1 & Hfail).
  { rewrite set_mutex_same, (mq_put_same _ _ _ Hm). eexists. split; [done|].
    eapply conc_sub_quiet; try done; simpl; rewrite ?Hp; auto.
    ends Hp. by right. }
  destruct (u64 _ =? 0); [rewrite Hq1; eauto|].
  destruct (Z.eqb_spec (msg_mutex m) (-1)) as [Hw|Hw]; [rewrite Hq1; eauto|].
  destruct lf; [rewrite Hq1; eauto|].
  assert (writing n (id mod n) (cs_pub c) = false) as Hnw.
  { destruct (writing n (id mod n) (cs_pub c)); [congruence|done]. }
  rewrite Hnw in Hmu. rewrite i64_small by lia.
  rewrite (mq_put_slot k) by done. simpl. eexists _, _. split; [done|].
  eapply conc_sub; try done; [by apply (mq_put_slot k)|by intros j [= ->]| |simpl; lia|].
  { moves Hp. }
  eapply slot_inv_sub; try done; rewrite ?(eff_at _ _ s id), ?(eff_at _ _ (at_pc _ _) id) by done;
    rewrite ?Hp; simpl; try lia; auto. congruence.
Qed.

(** The publisher is not in a slot that a subscriber holds. *)
Lemma holder_excludes id m : pc_id (st_pc s) = Some id -> holding (st_pc s) = true ->
  slot_inv n (cs_pub c) (cs_log c) (cs_subs c) (id mod n) m -> writing n (id mod n) (cs_pub c) = false.
Proof.
  intros Hid Hh Hsl. pose proof (slot_count_lookup n (id mod n) holding _ _ _ Hi) as He.
  rewrite (eff_at _ _ _ _ Hid), Hh in He. simpl in He.
  destruct (writing n (id mod n) (cs_pub c)) eqn:E; [|done]. pose proof (sl_excluded _ _ _ _ _ _ Hsl E). lia.
Qed.

Lemma granted_remaining id m : pc_id (st_pc s) = Some id -> granted (msg_remaining m) (st_pc s) = true ->
  slot_inv n (cs_pub c) (cs_log c) (cs_subs c) (id mod n) m -> 1 <= msg_remaining m.
Proof.
  intros Hid Hg Hsl. pose proof (slot_count_lookup n (id mod n) (granted (msg_remaining m)) _ _ _ Hi) as He.
  rewrite (eff_at _ _ _ _ Hid), Hg in He. simpl in He. pose proof (sl_granted _ _ _ _ _ _ Hsl). lia.
Qed.

Lemma callback_inv lo lf id : st_pc s = SubCallback id -> stepped (sub_step lo lf q s).
Proof.
  intros Hp. at_slot Hp.
  pose proof Hc as [Hk _ _ _ _ _ _ _ _]. pose proof Hsl as [_ _ _ _ _ Hl Hv _].
  pose proof (holder_excludes id m Hid ltac:(by rewrite Hp) Hsl) as Hnw.
  pose proof (granted_remaining id m Hid ltac:(by rewrite Hp) Hsl) as Hr.
  destruct (value_ok_settled _ _ _ _ _ Hnw Hv Hr) as (v & Hmv & Hlog).
  unfold sub_step, access_deref, stepped. rewrite Hp, Hm. simpl. rewrite Hmv. simpl.
  eexists _, _. split; [done|]. eapply conc_sub_quiet; try done; simpl; rewrite ?Hp; auto.
  ends Hp; [by intros j [= ->]|].
  pose proof (id_written id Hid). pose proof (window_pos k Hk).
  destruct (last_id_later n (written (cs_pub c) (cs_log c)) id (msg_id m)) as (H1 & H2 & _); [lia..|done|].
  exists (msg_id m). simpl. split_and!; (done || lia).
Qed.

Lemma release_inv lo lf id v : st_pc s = SubRelease id v -> stepped (sub_step lo lf q s).
Proof.
  intros Hp. at_slot Hp.
  pose proof Hc as [Hk Hit Hb _ _ _ _ _ _]. pose proof Hsl as [_ _ Hac Hgr _ _ _ _].
  pose proof (holder_excludes id m Hid ltac:(by rewrite Hp) Hsl) as Hnw.
  pose proof (granted_remaining id m Hid ltac:(by rewrite Hp) Hsl) as Hr.
  unfold sub_step, release_step, stepped. rewrite Hp, Hm. simpl.
  rewrite (mq_put_slot k) by done. simpl. rewrite i64_small by lia. eexists _, _. split; [done|].
  eapply conc_sub; try done; [by apply (mq_put_slot k)|by intros j [= ->]| |simpl; lia|].
  { moves Hp. }
  eapply slot_inv_sub; try done; rewrite ?(eff_at _ _ s id), ?(eff_at _ _ (at_pc _ _) id) by done;
    rewrite ?Hp; simpl; try lia.
  - pose proof (slot_count_le n (id mod n) (granted (msg_remaining m - 1)) (granted (msg_remaining m)) (cs_subs c)) as Hle.
    assert (forall p : sub_pc, granted (msg_remaining m - 1) p = true -> granted (msg_remaining m) p = true) as Hg.
    { intros [] Hg; simpl in *; try done. apply Z.ltb_lt in Hg. apply Z.ltb_lt. lia. }
    specialize (Hle Hg). lia.
  - apply value_ok_change; [done|]. unfold settled. simpl. intros H H1. apply H. lia.
  - intros j z _ _ _. destruct (st_pc z); simpl; auto. lia.
Qed.

Lemma reset_inv lo lf id old : st_pc s = SubReset id old -> stepped (sub_step lo lf q s).
Proof.
  intros Hp. at_slot Hp.
  pose proof Hc as [Hk Hit _ _ _ _ _ _ _]. pose proof Hsl as [_ _ Hac Hgr _ _ _ Hre].
  pose proof (holder_excludes id m Hid ltac:(by rewrite Hp) Hsl) as Hnw.
  pose proof (Hre _ _ Hi Hhere) as Hrem. rewrite Hp in Hrem. simpl in Hrem.
  assert (sub_ok n (mq_next q) (cs_log c) (at_pc s (SubUnlock id))) as Hok1.
  { moves Hp. }
  unfold sub_step, release_step, mq_update, stepped. rewrite Hp, Hm. simpl. destruct (Z.eqb_spec old 1) as [H1|H1]; simpl.
  - rewrite (mq_put_slot k) by done. simpl. eexists _, _. split; [done|]. specialize (Hrem H1).
    eapply conc_sub; try done; [by apply (mq_put_slot k)|by intros j [= ->]|simpl; lia|].
    eapply slot_inv_sub; try done; rewrite ?(eff_at _ _ s id), ?(eff_at _ _ (at_pc _ _) id) by done;
      rewrite ?Hp; simpl; try lia.
    + apply value_ok_change; [done|]. unfold settled. simpl. lia.
    + intros j z _ Hz Hh. destruct (st_pc z) eqn:E; simpl; auto. intros _.
      pose proof (slot_count_lookup n (id mod n) (granted (msg_remaining m)) _ _ _ Hz) as Hg.
      unfold eff in Hg. rewrite E, Hh in Hg. simpl in Hg. lia.
  - rewrite (mq_put_same _ _ _ Hm). simpl. eexists _, _. split; [done|].
    eapply conc_sub_quiet; try done; simpl; rewrite ?Hp; auto.
Qed.

Lemma unlock_inv lo lf id : st_pc s = SubUnlock id -> stepped (sub_step lo lf q s).
Proof.
  intros Hp. at_slot Hp.
  pose proof Hc as [Hk Hit Hb _ _ _ _ _ _]. pose proof Hsl as [Hmu _ Hac Hgr _ _ _ _].
  pose proof (holder_excludes id m Hid ltac:(by rewrite Hp) Hsl) as Hnw. rewrite Hnw in Hmu.
  pose proof (slot_count_lookup n (id mod n) holding _ _ _ Hi) as Hh.
  rewrite eff_at, Hp in Hh by done. simpl in Hh.
  assert (slot_count n (id mod n) holding (cs_subs c) <= zlen (cs_subs c)) by apply count_le_length.
  unfold sub_step, release_step, mq_update, sm_unlock_shared, stepped. rewrite Hp, Hm. simpl.
  rewrite (proj2 (Z.gtb_lt _ _)) by lia. simpl. rewrite (mq_put_slot k) by done. simpl. rewrite i64_small by lia.
  eexists _, _. split; [done|].
  eapply conc_sub; try done; [by apply (mq_put_slot k)|by intros j [= ->]| |simpl; lia|].
  { moves Hp. }
  eapply slot_inv_sub; try done; rewrite ?(eff_at _ _ s id), ?(eff_at _ _ (at_pc _ _) id) by done;
    rewrite ?Hp; simpl; try lia; auto. congruence.
Qed.

Lemma leave_inv lo lf id : st_pc s = SubLeave id -> stepped (sub_step lo lf q s).
Proof.
  intros Hp. at_slot Hp.
  pose proof Hc as [Hk Hit Hb _ _ _ _ _ _]. pose proof Hsl as [_ _ Hac Hgr _ _ _ _].
  pose proof (slot_count_lookup n (id mod n) counted _ _ _ Hi) as Hh.
  rewrite eff_at, Hp in Hh by done. simpl in Hh.
  unfold sub_step, release_step, mq_update, stepped. rewrite Hp, Hm. simpl.
  rewrite (mq_put_slot k) by done. simpl. rewrite i64_small by lia. eexists _, _. split; [done|].
  eapply conc_sub; try done; [by apply (mq_put_slot k)| |simpl; lia|].
  { moves Hp. }
  eapply slot_inv_sub; try done; rewrite ?(eff_at _ _ s id), ?(eff_idle _ _ _ (at_pc _ _)) by done;
    rewrite ?Hp; simpl; try lia; auto.
Qed.

(** Every step in [receive]. *)
Lemma sub_step_inv lf o : sub_step true lf q s = Some o ->
  exists q1 s1, o = Ok (q1, s1) /\ conc_inv k (t + 1) (set_sub c i q1 s1).
Proof.
  intros Ho. assert (stepped (Some o)) as (q1 & s1 & [= ->] & H); [rewrite <- Ho|eauto].
  destruct (st_pc s) as [| | |id|id|id|id r|id a|id|id|id v|id old|id|id] eqn:Hp;
    try (unfold sub_step, consume_step in Ho; by rewrite Hp in Ho).
  - pose proof Hc as [_ _ _ _ _ Hsubs _ _ _]. destruct (Hsubs _ _ Hi) as [Hn Hid Hord Hg Hin].
    unfold sub_step, stepped. rewrite Hp. eexists _, _. split; [done|].
    eapply conc_sub_away; try done; unfold subscribed, behind; simpl; rewrite ?Hp, ?Z.eqb_refl; simpl; try done; try lia.
    split; simpl; try done; try lia. unfold tried in *. rewrite Hp in Hin.
    eapply increasing_mono; [done|]. simpl. lia.
  - by eapply read_inv.
  - by eapply value_inv.
  - by eapply count_inv.
  - pose proof Hc as [_ _ _ _ _ Hsubs _ _ _]. by destruct (so_order _ _ _ _ (Hsubs _ _ Hi) id r).
  - by eapply compare_inv.
  - by eapply lock_inv.
  - by eapply callback_inv.
  - by eapply release_inv.
  - by eapply reset_inv.
  - by eapply unlock_inv.
  - by eapply leave_inv.
Qed.
End subscriber.

(** * Preservation: the publisher *)
Lemma zlookup_app_l (l l' : list T) i v : zlookup l i = Some v -> zlookup (l ++ l') i = Some v.
Proof. apply zlookup_prefix. by exists l'. Qed.

Lemma sub_ok_mono n next next' log log' s :
  sub_ok n next log s -> next <= next' -> log `prefix_of` log' -> sub_ok n next' log' s.
Proof.
  intros [Hn Hid Ho Hg Hi] Hnext Hl. split; auto; [lia|].
  pose proof (zlen_prefix _ _ Hl). eapply Forall_impl; [done|]. intros [id r]. unfold got_ok. simpl. destruct r as [v|code].
  - intros (j & Hj & Hmod & Hv). exists j. eauto using zlookup_prefix.
  - intros [[-> Hw]|Hc]; [left; split; [done|lia]|by right].
Qed.

Lemma settled_mono log log' m : log `prefix_of` log' -> settled log m -> settled log' m.
Proof. intros Hl Hs H. destruct (Hs H) as (v & Hv & Hlog). eauto using zlookup_prefix. Qed.

(** A slot whose lock the publisher keeps. *)
Lemma slot_inv_write n p p1 log log1 subs s m m1 :
  slot_inv n p log subs s m -> writing n s p = true -> writing n s p1 = true ->
  msg_mutex m1 = msg_mutex m -> msg_active m1 = msg_active m ->
  slot_count n s (granted (msg_remaining m1)) subs <= msg_remaining m1 <= zlen subs ->
  0 <= msg_initial m1 <= zlen subs ->
  last_id n (written p1 log1) s (msg_id m1) -> value_ok n s p1 log1 m1 ->
  slot_inv n p1 log1 subs s m1.
Proof.
  intros [Hmu Hex Hac _ _ _ _ _] Hw Hw1 Hm Ha Hg Hi Hl Hv. specialize (Hex Hw). rewrite Hw in Hmu.
  split; try done; rewrite ?Hw1; [lia|lia|].
  intros i x Hx Hh. pose proof (slot_count_lookup n s holding _ _ _ Hx) as He. unfold eff in He. rewrite Hh, Hex in He.
  by destruct (st_pc x).
Qed.

(** A slot the publisher is not in, before and after. *)
Lemma slot_inv_unwritten n p p1 log log1 subs s m :
  slot_inv n p log subs s m -> writing n s p = false -> writing n s p1 = false -> log `prefix_of` log1 ->
  written p1 log1 = written p log \/ written p1 log1 = written p log + 1 /\ written p log mod n <> s ->
  0 < n -> slot_inv n p1 log1 subs s m.
Proof.
  intros [Hmu Hex Hac Hg Hin Hid Hv Hre] Hw Hw1 Hl Hwr Hn. rewrite Hw in Hmu.
  split; rewrite ?Hw1; try done.
  - destruct Hwr as [->|[-> Hne]]; [done|]. destruct Hid as [[Hid Hj]|(Hid & Hmod & Hle)].
    + left. split; [done|]. intros j Hjw. destruct (decide (j = written p log)) as [->|]; [done|]. apply Hj. lia.
    + right. split_and!; [lia..|done|]. assert (written p log <> msg_id m + n); [|lia]. intros He. apply Hne. rewrite He.
      replace (msg_id m + n) with (msg_id m + 1 * n) by lia. by rewrite Z_mod_plus_full.
  - apply value_ok_settled in Hv; [|done]. apply (settled_mono _ log1) in Hv; [|done].
    unfold value_ok, writing in *. destruct p1; auto. by rewrite Hw1.
Qed.

Lemma mq_set_next_same (q : mqueue T) : set_next q (mq_next q) = q.
Proof. by destruct q. Qed.

(** One step of the publisher at message [id]. *)
Lemma conc_pub k t c id m m1 q1 nx p1 log1 rep1 :
  let n := 2 ^ k in let p := cs_pub c in
  conc_inv k t c -> t + 1 < 2 ^ 60 ->
  mq_get (cs_queue c) id = Ok m -> mq_put (cs_queue c) id m1 = Ok q1 ->
  mq_next (cs_queue c) <= nx -> cs_log c `prefix_of` log1 -> zlen log1 <= t + 1 ->
  pub_ok nx log1 (cs_subs c) p1 -> zlen log1 = published rep1 + Z.b2z (publishing p1) ->
  msg_active m1 = msg_active m ->
  (forall s, s <> id mod n -> writing n s p = false /\ writing n s p1 = false) ->
  written p1 log1 = written p (cs_log c) \/ written p1 log1 = written p (cs_log c) + 1 /\ written p (cs_log c) = id ->
  (slot_inv n p (cs_log c) (cs_subs c) (id mod n) m -> slot_inv n p1 log1 (cs_subs c) (id mod n) m1) ->
  conc_inv k (t + 1) (with_pub c (set_next q1 nx) p1 log1 rep1).
Proof.
  intros n p [Hk Hit Hb Hnum Hpub Hsubs Hrep Hsl Hac] Ht Hm Hq1 Hnx Hlog Hlen Hp1 Hr1 Ha Hw Hwr Hs. subst n p.
  pose proof Hq1 as Heq. rewrite (mq_put_slot k) in Heq by done. injection Heq as Heq.
  pose proof (window_pos k Hk) as Hpos. apply (mq_get_slot k) in Hm; [|done..].
  split; simpl; try done; try lia.
  - rewrite <- Heq. simpl. by rewrite zlen_insert.
  - rewrite <- Heq. done.
  - intros i s Hi. eapply sub_ok_mono; eauto.
  - intros s x Hx. destruct (slots_put _ _ _ _ _ _ _ Hk Hit Hq1 Hx) as [[-> ->]|[Hne Hx']]; [eauto|].
    destruct (Hw s Hne). eapply slot_inv_unwritten; eauto; [|lia]. destruct Hwr as [He|[He Hid]]; [by left|right]. split; [exact He|congruence].
  - intros s x Hx. destruct (slots_put _ _ _ _ _ _ _ Hk Hit Hq1 Hx) as [[-> ->]|[Hne Hx']].
    + specialize (Hac _ _ Hm). lia.
    + specialize (Hac _ _ Hx'). lia.
Qed.

Lemma published_app l r : published (l ++ option_list r) = published l + match r with Some true => 1 | _ => 0 end.
Proof. unfold published. rewrite count_app. destruct r as [[]|]; simpl; lia. Qed.

Section publisher.
Context (k t : Z) (c : conc).
Hypothesis Hc : conc_inv k t c.
Hypothesis Ht : t + 1 < 2 ^ 60.
Local Abbreviation n := (2 ^ k).
Local Abbreviation q := (cs_queue c).

Definition pub_stepped (o : option (outcome (pub_pc * mqueue T * option bool))) : Prop :=
  exists q1 p1 reply, o = Some (Ok (p1, q1, reply)) /\
    conc_inv k (t + 1) (with_pub c q1 p1 (log_step (cs_pub c) p1 (cs_log c)) (cs_replies c ++ option_list reply)).

(** A step that keeps the slot's lock and the log. *)
Lemma pub_write_step id m m1 q1 p1 :
  mq_get q id = Ok m -> mq_put q id m1 = Ok q1 ->
  (forall s, writing n s (cs_pub c) = (id mod n =? s)) -> (forall s, writing n s p1 = (id mod n =? s)) ->
  log_step (cs_pub c) p1 (cs_log c) = cs_log c -> publishing (cs_pub c) = true -> publishing p1 = true ->
  pub_ok (mq_next q) (cs_log c) (cs_subs c) p1 ->
  msg_mutex m1 = msg_mutex m -> msg_active m1 = msg_active m ->
  slot_count n (id mod n) (granted (msg_remaining m1)) (cs_subs c) <= msg_remaining m1 <= zlen (cs_subs c) ->
  0 <= msg_initial m1 <= zlen (cs_subs c) ->
  (last_id n (written (cs_pub c) (cs_log c)) (id mod n) (msg_id m) -> last_id n (written p1 (cs_log c)) (id mod n) (msg_id m1)) ->
  written p1 (cs_log c) = written (cs_pub c) (cs_log c) \/
    written p1 (cs_log c) = written (cs_pub c) (cs_log c) + 1 /\ written (cs_pub c) (cs_log c) = id ->
  (value_ok n (id mod n) (cs_pub c) (cs_log c) m -> value_ok n (id mod n) p1 (cs_log c) m1) ->
  conc_inv k (t + 1) (with_pub c q1 p1 (log_step (cs_pub c) p1 (cs_log c)) (cs_replies c ++ option_list None)).
Proof.
  intros Hm Hq1 Hw Hw1 Hl Hp Hp1 Hok Hmu Ha Hg Hi Hid Hwr Hv. pose proof Hc as [Hk Hit Hb _ _ _ Hrep _ _].
  assert (mq_next q1 = mq_next q) as Hn.
  { rewrite (mq_put_slot k) in Hq1 by done. by injection Hq1 as <-. }
  rewrite <- (mq_set_next_same q1), Hl, Hn. eapply conc_pub; try done; try lia.
  - rewrite published_app, Hp1, Hrep, Hp. lia.
  - intros s Hs. rewrite Hw, Hw1. split; apply Z.eqb_neq; congruence.
  - intros Hsl. pose proof Hsl as [_ _ _ _ _ Hlast Hval _].
    eapply slot_inv_write; eauto; rewrite ?Hw, ?Hw1; apply Z.eqb_refl.
Qed.

Lemma pub_at id : exists m, mq_get q id = Ok m /\
  slot_inv n (cs_pub c) (cs_log c) (cs_subs c) (id mod n) m.
Proof.
  pose proof Hc as [Hk Hit _ _ _ _ _ Hsl _]. destruct (mq_get_total k q id Hk Hit) as [m Hm]. exists m.
  split; [done|]. apply Hsl. by apply (mq_get_slot k).
Qed.

Lemma pub_put id m : exists q1, mq_put q id m = Ok q1.
Proof. pose proof Hc as [Hk Hit _ _ _ _ _ _ _]. rewrite (mq_put_slot k) by done. eauto. Qed.

Lemma pub_lock_inv sp id v : cs_pub c = PubLock id v -> pub_stepped (pub_step sp (cs_pub c) q).
Proof.
  intros Hp. destruct (pub_at id) as (m & Hm & Hsl). pose proof Hc as [Hk Hit Hb _ Hpub _ Hrep _ _].
  pose proof Hsl as [Hmu _ _ _ _ _ _ _]. rewrite Hp in Hpub, Hrep, Hmu. simpl in Hpub, Hrep, Hmu.
  destruct Hpub as [Hid Hnext].
  assert (conc_inv k (t + 1) (with_pub c q PubIdle (cs_log c) (cs_replies c ++ option_list (Some false)))) as Hfail.
  { rewrite <- (mq_set_next_same q). eapply conc_pub; rewrite ?Hp, ?published_app; try done; eauto using mq_put_same; simpl; try lia.
    intros [H1 H2 H3 H4 H5 H6 H7 H8]. by split. }
  unfold pub_stepped, pub_step, request_writable, sm_try_lock, cas_weak. rewrite Hp, Hm. simpl.
  destruct (Z.eqb_spec (msg_mutex m) 0) as [H0|H0]; simpl; [destruct sp; simpl|].
  1, 3: rewrite set_mutex_same, (mq_put_same _ _ _ Hm); eexists _, _, _; by split.
  destruct (pub_put id (set_mutex m (-1))) as (q1 & Hq1). rewrite Hq1. simpl. eexists _, _, _. split; [done|]. simpl.
  assert (mq_next q1 = mq_next q) as Hn.
  { rewrite (mq_put_slot k) in Hq1 by done. by injection Hq1 as <-. }
  assert (zlen (cs_log c ++ [v]) = zlen (cs_log c) + 1) as Hlen by by rewrite zlen_app.
  rewrite <- (mq_set_next_same q1), Hn. eapply conc_pub; rewrite ?Hp; try done; eauto; try lia.
  - by exists [v].
  - simpl. split_and!; [done|lia|]. rewrite Hid, Hnext, zlookup_zlen, lookup_app_r, Nat.sub_diag by lia. done.
  - rewrite app_nil_r. simpl. lia.
  - intros s Hs. split; [done|]. apply Z.eqb_neq. congruence.
  - left. unfold written. lia.
  - intros [H1 H2 H3 H4 H5 H6 H7 H8]. split; simpl; rewrite ?Z.eqb_refl; try done; [lia| |].
    + unfold written in *. rewrite Hlen. by replace (zlen (cs_log c) + 1 - 1) with (zlen (cs_log c) - 0) by lia.
    + eapply settled_mono; [by exists [v]|]. done.
Qed.

Lemma granted_behind r s : slot_count n s (granted r) (cs_subs c) <= count (behind (mq_next q)) (cs_subs c).
Proof.
  apply count_mono. intros x _ [_ Hg]%andb_true_iff. apply granted_counted in Hg. unfold behind. by destruct (st_pc x).
Qed.

Local Ltac write_step id :=
  let m := fresh "m" in let Hm := fresh "Hm" in let Hsl := fresh "Hsl" in
  destruct (pub_at id) as (m & Hm & Hsl); pose proof Hsl as [_ _ _ Hgr Hin _ _ _];
  pose proof Hc as [Hk Hit Hb Hnum Hpub _ _ _ _];
  match goal with Hp : cs_pub c = _ |- _ => rewrite Hp in Hpub end; simpl in Hpub.

Lemma pub_count_inv sp id v : cs_pub c = PubCount id v -> pub_stepped (pub_step sp (cs_pub c) q).
Proof.
  intros Hp. write_step id. unfold pub_stepped, pub_step. rewrite Hp. eexists _, _, _. split; [done|]. rewrite <- Hp.
  pose proof (count_le_length subscribed (cs_subs c)). pose proof (count_nonneg subscribed (cs_subs c)).
  eapply (pub_write_step id); rewrite ?Hp; try done; eauto using mq_put_same.
  simpl. split; [done|]. unfold m_num_observers. rewrite i64_small by lia. rewrite Hnum. split; [|lia].
  apply count_mono. intros x _. unfold behind, subscribed. by destruct (st_pc x).
Qed.

Lemma pub_remaining_inv sp id v r : cs_pub c = PubRemaining id v r -> pub_stepped (pub_step sp (cs_pub c) q).
Proof.
  intros Hp. write_step id. destruct (pub_put id (set_remaining m r)) as (q1 & Hq1).
  unfold pub_stepped, pub_step, mq_update. rewrite Hp, Hm. simpl. rewrite Hq1. simpl.
  eexists _, _, _. split; [done|]. change (cs_log c) with (log_step (PubRemaining id v r) (PubInitial id v r) (cs_log c)). rewrite <- Hp.
  pose proof (granted_behind r (id mod n)). pose proof (count_nonneg (behind (mq_next q)) (cs_subs c)).
  eapply (pub_write_step id); rewrite ?Hp; try done; eauto; simpl; try lia.
  split; [apply Hpub|lia].
Qed.

Lemma pub_initial_inv sp id v r : cs_pub c = PubInitial id v r -> pub_stepped (pub_step sp (cs_pub c) q).
Proof.
  intros Hp. write_step id. destruct (pub_put id (set_initial m r)) as (q1 & Hq1).
  unfold pub_stepped, pub_step, mq_update. rewrite Hp, Hm. simpl. rewrite Hq1. simpl.
  eexists _, _, _. split; [done|]. change (cs_log c) with (log_step (PubInitial id v r) (PubValue id v) (cs_log c)). rewrite <- Hp.
  eapply (pub_write_step id); rewrite ?Hp; try done; eauto; simpl; try lia.
  apply Hpub.
Qed.

Lemma pub_value_inv sp id v : cs_pub c = PubValue id v -> pub_stepped (pub_step sp (cs_pub c) q).
Proof.
  intros Hp. write_step id. destruct (pub_put id (set_value m (Some v))) as (q1 & Hq1).
  unfold pub_stepped, pub_step, mq_update. rewrite Hp, Hm. simpl. rewrite Hq1. simpl.
  eexists _, _, _. split; [done|]. change (cs_log c) with (log_step (PubValue id v) (PubId id) (cs_log c)). rewrite <- Hp.
  eapply (pub_write_step id); rewrite ?Hp; try done; eauto; simpl; try lia.
  { by exists v. }
  intros _. rewrite Z.eqb_refl. destruct Hpub as (_ & _ & Hlog). eauto.
Qed.

Lemma pub_id_inv sp id : cs_pub c = PubId id -> pub_stepped (pub_step sp (cs_pub c) q).
Proof.
  intros Hp. write_step id. destruct (pub_put id (set_id m id)) as (q1 & Hq1).
  unfold pub_stepped, pub_step, mq_update. rewrite Hp, Hm. simpl. rewrite Hq1. simpl.
  eexists _, _, _. split; [done|]. change (cs_log c) with (log_step (PubId id) (PubUnlock id) (cs_log c)). rewrite <- Hp.
  pose proof (window_pos k Hk). pose proof (zlen_nonneg (cs_log c)). destruct Hpub as (w & Hid & Hlen & Hlog).
  pose proof (zlookup_lt _ _ _ Hlog).
  eapply (pub_write_step id); rewrite ?Hp; try done; eauto; simpl; try lia; unfold written.
  - by exists w.
  - intros _. right. split_and!; [lia..|done|lia].
  - right. lia.
  - rewrite Z.eqb_refl. intros Hv _. exact Hv.
Qed.

Lemma pub_unlock_inv sp id : cs_pub c = PubUnlock id -> pub_stepped (pub_step sp (cs_pub c) q).
Proof.
  intros Hp. write_step id. pose proof Hc as [_ _ _ _ _ _ Hrep _ _].
  pose proof (sl_mutex _ _ _ _ _ _ Hsl) as Hmu. rewrite Hp in Hmu, Hrep. simpl in Hmu, Hrep. rewrite Z.eqb_refl in Hmu.
  destruct (pub_put id (set_mutex m 0)) as (q1 & Hq1).
  unfold pub_stepped, pub_step, mq_update, write_release, sm_unlock. rewrite Hp, Hm. simpl. rewrite Hmu. simpl. rewrite Hq1. simpl.
  eexists _, _, _. split; [done|]. rewrite app_nil_r.
  assert (mq_next q1 = mq_next q) as Hn.
  { rewrite (mq_put_slot k) in Hq1 by done. by injection Hq1 as <-. }
  rewrite <- (mq_set_next_same q1), Hn. eapply conc_pub; rewrite ?Hp; try done; eauto; try lia.
  - intros s Hs. split; [|done]. apply Z.eqb_neq. congruence.
  - intros [H1 H2 H3 H4 H5 H6 H7 H8]. split; simpl; try done. rewrite H2; [done|]. apply Z.eqb_refl.
Qed.

Lemma pub_notify_inv sp id : cs_pub c = PubNotify id -> pub_stepped (pub_step sp (cs_pub c) q).
Proof.
  intros Hp. write_step id. pose proof Hc as [_ _ _ _ _ _ Hrep _ _]. rewrite Hp in Hrep. simpl in Hrep.
  destruct Hpub as (w & Hid & Hlen & Hlog). apply zlookup_lt in Hlog.
  unfold pub_stepped, pub_step, m_notify_observers. rewrite Hp. eexists _, _, _. split; [done|].
  rewrite u64_small by lia. eapply conc_pub; rewrite ?Hp, ?published_app; try done; eauto using mq_put_same; simpl; try lia.
  intros [H1 H2 H3 H4 H5 H6 H7 H8]. by split.
Qed.

Lemma pub_step_inv sp o : pub_step sp (cs_pub c) q = Some o ->
  exists q1 p1 reply, o = Ok (p1, q1, reply) /\
    conc_inv k (t + 1) (with_pub c q1 p1 (log_step (cs_pub c) p1 (cs_log c)) (cs_replies c ++ option_list reply)).
Proof.
  intros Ho. assert (pub_stepped (Some o)) as (q1 & p1 & r & [= ->] & H); [rewrite <- Ho|eauto 6].
  destruct (cs_pub c) eqn:Hp; [done|..]; rewrite <- Hp.
  - by eapply pub_lock_inv.
  - by eapply pub_count_inv.
  - by eapply pub_remaining_inv.
  - by eapply pub_initial_inv.
  - by eapply pub_value_inv.
  - by eapply pub_id_inv.
  - by eapply pub_unlock_inv.
  - by eapply pub_notify_inv.
Qed.
End publisher.
(** * Preservation: every step of every interleaving *)
Lemma conc_sub_idle k t c i s q1 s1 :
  conc_inv k t c -> t + 1 < 2 ^ 60 -> cs_subs c !! i = Some s -> (st_pc s = SubOut \/ st_pc s = SubIdle) ->
  mq_items q1 = mq_items (cs_queue c) -> mq_next q1 = mq_next (cs_queue c) ->
  mq_num_subscribers q1 = mq_num_subscribers (cs_queue c) + Z.b2z (subscribed s1) - Z.b2z (subscribed s) ->
  (st_pc s1 = SubOut \/ st_pc s1 = SubJoining) /\ st_next s1 = st_next s /\ st_got s1 = st_got s ->
  conc_inv k (t + 1) (set_sub c i q1 s1).
Proof.
  intros Hc Ht Hi Hp Hq Hn Hq1 (Hp1 & Hn1 & Hg1). pose proof Hc as [_ _ _ _ _ Hsubs _ _ _].
  destruct (Hsubs _ _ Hi) as [H1 H2 H3 H4 H5]. eapply conc_sub_away; try done.
  - by destruct Hp as [-> | ->].
  - intros m. by destruct Hp1 as [-> | ->].
  - by destruct Hp1 as [-> | ->].
  - by destruct Hp1 as [-> | ->].
  - unfold behind. by destruct Hp1 as [-> | ->].
  - split; rewrite ?Hn1, ?Hg1; try done.
    + intros id. by destruct Hp1 as [-> | ->].
    + intros id r. by destruct Hp1 as [-> | ->].
    + unfold tried in *. rewrite Hn1. destruct Hp1 as [-> | ->], Hp as [Hp|Hp]; by rewrite Hp in H5.
Qed.

Lemma receive_inv k t c i s : conc_inv k t c -> t + 1 < 2 ^ 60 -> cs_subs c !! i = Some s -> st_pc s = SubIdle ->
  conc_inv k (t + 1) (set_sub c i (cs_queue c) (sub_wait (cs_queue c) s)).
Proof.
  intros Hc Ht Hi Hp. pose proof Hc as [Hk _ Hb _ Hpub Hsubs _ _ _]. pose proof (Hsubs _ _ Hi) as Hok.
  pose proof (written_next _ _ _ _ Hpub). destruct Hok as [H1 H2 H3 H4 H5].
  unfold sub_wait. destruct (Z.eqb_spec (mq_next (cs_queue c)) (st_next s)) as [He|He].
  - eapply conc_sub_away; try done; rewrite ?Hp; try done. lia.
  - unfold umax. destruct (Z.eqb_spec (mq_next (cs_queue c)) (2 ^ 64 - 1)); [lia|].
    rewrite u64_small by lia.
    eapply conc_sub_away; try done; unfold subscribed, behind; simpl; rewrite ?Hp; simpl; try done; try lia.
    split; simpl; try done; try lia.
    + intros id [= <-]. lia.
    + unfold tried in *. simpl. by rewrite Hp in H5.
Qed.

Lemma c_step_inv k t c e o : conc_inv k t c -> t + 1 < 2 ^ 60 -> c_step true e c = Some o ->
  exists c1, o = Ok c1 /\ conc_inv k (t + 1) c1 /\ cs_log c `prefix_of` cs_log c1 /\ zlen (cs_subs c1) = zlen (cs_subs c).
Proof.
  intros Hc Ht. pose proof Hc as [Hk Hit Hb Hnum Hpub Hsubs Hrep Hsl Hac].
  destruct e as [v|sp|i|i|i|i lf]; simpl.
  - destruct (cs_pub c) eqn:Hp; intros [= <-]. eexists. split; [done|]. split; [|by split].
    split; simpl; try done; try lia.
    + intros s m Hm. destruct (Hsl s m Hm) as [H1 H2 H3 H4 H5 H6 H7 H8]. by split.
    + intros s m Hm. specialize (Hac s m Hm). lia.
  - intros (r & Hr & [= <-])%bind_Some. destruct (pub_step_inv k t c Hc Ht sp r Hr) as (q1 & p1 & rep & -> & H).
    eexists. split; [done|]. split; [done|]. split; [|done]. simpl. unfold log_step.
    destruct (cs_pub c), p1; try done. by eexists.
  - intros (s & Hi & Ho)%bind_Some. destruct (st_pc s) eqn:Hp; simplify_eq/=.
    eexists. split; [done|]. split; [|split; [done|apply zlen_insert]].
    pose proof (count_le_length subscribed (cs_subs c)). pose proof (count_nonneg subscribed (cs_subs c)).
    eapply conc_sub_idle; eauto. simpl. unfold subscribed. simpl. rewrite Hp, u64_small by lia. simpl. lia.
  - intros (s & Hi & Ho)%bind_Some. destruct (st_pc s) eqn:Hp; simplify_eq/=.
    eexists. split; [done|]. split; [|split; [done|apply zlen_insert]].
    pose proof (count_le_length subscribed (cs_subs c)).
    assert (1 <= count subscribed (cs_subs c)) by (eapply count_lookup; [done|]; unfold subscribed; by rewrite Hp).
    eapply conc_sub_idle; eauto. simpl. unfold subscribed. simpl. rewrite Hp, u64_small by lia. simpl. lia.
  - intros (s & Hi & Ho)%bind_Some. destruct (st_pc s) eqn:Hp; simplify_eq/=.
    eexists. split; [done|]. split; [by apply receive_inv|]. split; [done|apply zlen_insert].
  - intros (s & Hi & Ho)%bind_Some. apply bind_Some in Ho as (r & Hr & [= <-]).
    destruct (sub_step_inv k t c i s Hc Ht Hi lf r Hr) as (q1 & s1 & -> & H).
    eexists. split; [done|]. split; [done|]. split; [done|apply zlen_insert].
Qed.

Lemma c_run_inv k es : forall t c o, conc_inv k t c -> t + zlen es < 2 ^ 60 -> c_run true es c = Some o ->
  exists c1, o = Ok c1 /\ conc_inv k (t + zlen es) c1 /\ zlen (cs_subs c1) = zlen (cs_subs c).
Proof.
  induction es as [|e es IH]; intros t c o Hc Ht; simpl.
  - intros [= <-]. exists c. rewrite zlen_nil, Z.add_0_r. by split_and!.
  - rewrite zlen_cons in *. pose proof (zlen_nonneg es). intros (r & Hr & Ho)%bind_Some.
    destruct (c_step_inv k t c e r Hc ltac:(lia) Hr) as (c1 & -> & Hc1 & _ & Hlen). simpl in Ho.
    destruct (IH (t + 1) c1 o Hc1 ltac:(lia) Ho) as (c2 & -> & Hc2 & Hlen2).
    exists c2. replace (t + (zlen es + 1)) with (t + 1 + zlen es) by lia. split_and!; [done..|congruence].
Qed.

Lemma count_outside n (f : sub_thread -> bool) : f outside = false -> count f (replicate n outside) = 0.
Proof. intros Hf. induction n; simpl; [done|]. rewrite Hf. lia. Qed.

Lemma c_start_inv k q n : sys_inv k [] [] q -> Z.of_nat n < 2 ^ 60 -> conc_inv k 0 (c_start q n).
Proof.
  intros [Hk Hit Hnext Hnum _ Hsl] Hn. pose proof (window_pos k Hk).
  assert (forall s m, zlookup (mq_items q) s = Some m -> 0 <= s < 2 ^ k /\ m = msg_default) as Hm.
  { intros s m Hm. pose proof (zlookup_lt _ _ _ Hm). rewrite zlen_nil in Hsl. destruct (Hsl (s - 2 ^ k) ltac:(lia)) as (m' & Hm' & Hok).
    replace ((s - 2 ^ k) mod 2 ^ k) with s in Hm' by (rewrite <- (Z_mod_plus_full _ 1), Z.mul_1_l, Z.sub_add, Z.mod_small; lia).
    unfold slot_ok in Hok. rewrite (proj2 (Z.ltb_lt _ _)) in Hok by lia. split; [lia|congruence]. }
  assert (zlen (replicate n outside) = Z.of_nat n) as Hlen by (unfold zlen; by rewrite length_replicate).
  split; simpl; rewrite ?Hlen, ?count_outside by done; try done.
  - intros i s [-> _]%lookup_replicate. split; simpl; try done; rewrite ?Hnext; try done.
  - intros s m [_ ->]%Hm. assert (forall f, slot_count (2 ^ k) s f (replicate n outside) = 0) as Hz by (intros f; by apply count_outside).
    split; simpl; rewrite ?Hz, ?Hlen; try done; try lia.
    + left. split; [done|]. unfold written, zlen. simpl. lia.
    + unfold settled. simpl. lia.
    + by intros i x [-> _]%lookup_replicate.
  - intros s m [_ ->]%Hm. done.
Qed.

(** A subscriber holds a slot only while the publisher is not writing there. *)
Definition exclusive (n : Z) (c : conc) : Prop :=
  forall i s id, cs_subs c !! i = Some s -> pc_id (st_pc s) = Some id -> holding (st_pc s) = true ->
    writing n (id mod n) (cs_pub c) = false.

(** C3 The message queue is safe in every interleaving of the accesses of one publisher and
    any number of subscribers that join and leave at any time, if [consume] raises its
    counter before it looks at the references that remain.  No step of the run throws or is
    undefined; nobody holds a message while it is being written.  Every subscriber tries
    messages in increasing order, each at most once: a call delivers the value of its message
    or of a later one that took its place, reports error 2 only if the message has been
    overwritten, and fails with error 3 otherwise.  The values in the log are those for which
    [publish] returned success, and the one being published. *)
Theorem fifo_concurrent_safe (cc : compiler) (sizeof_T size_bytes : Z) (n : nat) (es : list action) :
  0 < sizeof_T -> sizeof_header + sizeof_T <= size_bytes < 2 ^ 62 -> Z.of_nat n < 2 ^ 60 -> zlen es < 2 ^ 60 ->
  exists k q, init_at cc sizeof_T size_bytes = Ok (Expected q) /\ mq_size q = 2 ^ k /\
    forall o, c_run true es (c_start q n) = Some o ->
    exists c, o = Ok c /\ exclusive (2 ^ k) c /\
      (forall i s, cs_subs c !! i = Some s -> Forall (got_ok (2 ^ k) (cs_log c)) (st_got s) /\ increasing (st_got s) (st_next s)) /\
      zlen (cs_log c) = published (cs_replies c) + Z.b2z (publishing (cs_pub c)).
Proof.
  intros Hs Hsize Hn Hes. destruct (init_at_inv (T := T) cc sizeof_T size_bytes Hs Hsize) as (k & q & Hq & Hinv & _).
  exists k, q. split; [done|]. split; [apply (si_items _ _ _ _ Hinv)|]. intros o Ho.
  destruct (c_run_inv k es 0 _ o (c_start_inv k q n Hinv Hn) ltac:(lia) Ho) as (c & -> & Hc & _).
  exists c. split; [done|]. pose proof Hc as [_ _ _ _ _ Hsubs Hrep _ _]. split_and!; [|intros i s Hi|done].
  - intros i s id Hi Hid Hh. destruct (conc_at _ _ _ _ _ _ Hc Hi Hid) as (m & _ & Hsl & _). by eapply holder_excludes.
  - destruct (Hsubs i s Hi) as [_ Hid _ Hg Hin]. split; [done|]. eapply increasing_mono; [done|].
    unfold tried. destruct (st_pc s) eqn:Hp; simpl in Hid; try (specialize (Hid _ eq_refl)); lia.
Qed.

(** * A call that nobody interrupts *)

(** The steps of [publish] until it returns. *)
Fixpoint pub_alone (fuel : nat) (spurious : bool) (p : pub_pc) (q : mqueue T) : option (outcome (bool * mqueue T)) :=
  match fuel with
  | O => None
  | S fuel' =>
    o ← pub_step spurious p q;
    match o with
    | Ok (p1, q1, Some b) => Some (Ok (b, q1))
    | Ok (p1, q1, None) => pub_alone fuel' spurious p1 q1
    | Throw x => Some (Throw x)
    | UB => Some UB
    end
  end.

(** The steps of a subscriber until [stop]. *)
Fixpoint sub_alone (stop : sub_pc -> bool) (fuel : nat) (left_first lock_fails : bool) (q : mqueue T) (s : sub_thread)
    : option (outcome (mqueue T * sub_thread)) :=
  if stop (st_pc s) then Some (Ok (q, s))
  else match fuel with
  | O => None
  | S fuel' =>
    o ← sub_step left_first lock_fails q s;
    match o with
    | Ok (q1, s1) => sub_alone stop fuel' left_first lock_fails q1 s1
    | Throw x => Some (Throw x)
    | UB => Some UB
    end
  end.

Definition is_idle (p : sub_pc) : bool := match p with SubIdle => true | _ => false end.
(** [receive] has called back, or has ended. *)
Definition has_begun (p : sub_pc) : bool := match p with SubIdle | SubRelease _ _ => true | _ => false end.

(** Stores to one slot, one after the other. *)
Definition put (q : mqueue T) (id : Z) (m : message T) : mqueue T :=
  set_items q (<[Z.to_nat (mq_index q id) := m]> (mq_items q)).

Lemma put_ok q id m x : mq_get q id = Ok m -> mq_put q id x = Ok (put q id x).
Proof. unfold mq_get, mq_put. intros Hl%must_Some. rewrite zinsert_in by (by eapply zlookup_lt). done. Qed.

Lemma put_index q id x j : mq_index (put q id x) j = mq_index q j.
Proof. unfold mq_index, mq_size, put. simpl. by rewrite zlen_insert. Qed.

Lemma get_put q id m x : mq_get q id = Ok m -> mq_get (put q id x) id = Ok x.
Proof.
  unfold mq_get. rewrite put_index. intros Hl%must_Some. unfold put. simpl.
  rewrite zlookup_insert by (by eapply zlookup_lt). by rewrite decide_True.
Qed.

Lemma put_put q id x y : put (put q id x) id y = put q id y.
Proof. unfold put at 1. rewrite put_index. unfold put, set_items. simpl. by rewrite list_insert_insert_eq. Qed.

Lemma put_same q id m : mq_get q id = Ok m -> put q id m = q.
Proof. intros Hm. pose proof (mq_put_same _ _ _ Hm) as H. rewrite (put_ok _ _ _ _ Hm) in H. congruence. Qed.

Lemma put_again q id m x y : mq_get q id = Ok m -> mq_put (put q id x) id y = Ok (put q id y).
Proof. intros Hm. by rewrite (put_ok _ _ x y (get_put _ _ _ x Hm)), put_put. Qed.

Lemma update_put q id m x f : mq_get q id = Ok m -> mq_update (put q id x) id f = (y ← f x; Ok (put q id y)).
Proof.
  intros Hm. unfold mq_update. rewrite (get_put _ _ _ _ Hm). simpl.
  destruct (f x); simpl; [|done..]. by apply (put_again _ _ m).
Qed.

Lemma publish_alone sp v q : pub_alone 8 sp (PubLock (mq_next q) v) q = Some (m_publish sp v q).
Proof.
  unfold m_publish. destruct (mq_get q (mq_next q)) as [m| |] eqn:Hm; [|simpl; by rewrite Hm..].
  simpl. rewrite Hm. simpl. unfold request_writable, sm_try_lock, cas_weak.
  destruct (msg_mutex m =? 0); [destruct sp|]; simpl; rewrite !(put_ok _ _ _ _ Hm); simpl; try done.
  repeat (rewrite (update_put _ _ _ _ _ Hm); simpl). done.
Qed.

Definition as_subscriber (s : sub_thread) (access : option Z) : subscriber :=
  {| sub_next := st_next s; sub_active := true; sub_access := access |}.

Lemma receive_alone lo lf q s : st_pc s = SubIdle ->
  match receive_begin lf q (as_subscriber s None) with
  | None => sub_wait q s = s
  | Some o =>
    sub_alone has_begun 6 lo lf q (sub_wait q s) = Some (
      '(r, q1, s1) ← o;
      Ok (q1, {| st_next := sub_next s1;
                 st_pc := match r with Delivered v => SubRelease (st_next s) v | Failed _ => SubIdle end;
                 st_got := st_got s ++ [(st_next s, r)] |}))
  end.
Proof.
  intros Hp. unfold receive_begin, m_wait_for_data, sub_wait. simpl.
  destruct (mq_next q =? st_next s); simpl; [done|]. destruct (mq_next q =? umax 64); simpl; [done|].
  set (id := st_next s). destruct (mq_get q id) as [m| |] eqn:Hm; simpl; try done.
  destruct (negb (message_id m =? id)); simpl; [done|]. unfold consume. rewrite Hm.
  destruct (msg_value m) as [v|] eqn:Hv; simpl.
  all: rewrite Hv; simpl.
  2: by rewrite (mq_put_same _ _ _ Hm).
  rewrite Hm. simpl. destruct lo; simpl; [|rewrite Hm; simpl]; rewrite (put_ok _ _ _ _ Hm); simpl;
    rewrite ?(get_put _ _ _ _ Hm); simpl.
  all: destruct (msg_active m >=? msg_remaining m); simpl; [by rewrite (put_ok _ _ _ _ Hm)|].
  all: rewrite (get_put _ _ _ _ Hm); simpl; destruct (msg_initial m * 2 + 1 <? 2 ^ 63); simpl; [|done].
  all: destruct (sm_try_lock_shared_n _ _ _) as [locked f]; simpl.
  all: rewrite (put_again _ _ _ _ _ Hm), (put_ok _ _ _ _ Hm); simpl; destruct locked; simpl; [|done].
  all: rewrite (get_put _ _ _ _ Hm); simpl; unfold access_deref; simpl; by rewrite Hv.
Qed.

Lemma release_alone lo lf q s id v : st_pc s = SubRelease id v ->
  sub_alone is_idle 4 lo lf q s = Some ('(q1, _) ← receive_end q (as_subscriber s (Some id)); Ok (q1, at_pc s SubIdle)).
Proof.
  destruct s as [nx pc g]. simpl. intros ->. unfold receive_end, read_release. simpl.
  destruct (mq_get q id) as [m| |] eqn:Hm; simpl; try done. rewrite (put_ok _ _ _ _ Hm). simpl.
  rewrite (update_put _ _ _ _ _ Hm). simpl. rewrite (update_put _ _ _ _ _ Hm).
  destruct (msg_remaining m =? 1); simpl; destruct (sm_unlock_shared (msg_mutex m)); simpl; try done;
    by rewrite (update_put _ _ _ _ _ Hm), (put_ok _ _ _ _ Hm).
Qed.

(** A call that nobody interrupts, taken apart into its accesses, is the call of [Fifo]: the
    steps of [_m_publish] come to its result; those of [receive] to the callback, in either order
    of the operands in [consume], come to [receive_begin], and a subscriber waits where it
    does; those of the access's destructor come to [receive_end]. *)
Theorem fifo_calls_alone (lo lf sp : bool) (v : T) (q : mqueue T) (s : sub_thread) :
  pub_alone 8 sp (PubLock (mq_next q) v) q = Some (m_publish sp v q) /\
  (st_pc s = SubIdle ->
    match receive_begin lf q (as_subscriber s None) with
    | None => sub_wait q s = s
    | Some o =>
      sub_alone has_begun 6 lo lf q (sub_wait q s) = Some (
        '(r, q1, s1) ← o;
        Ok (q1, {| st_next := sub_next s1;
                   st_pc := match r with Delivered v => SubRelease (st_next s) v | Failed _ => SubIdle end;
                   st_got := st_got s ++ [(st_next s, r)] |}))
    end) /\
  (forall id w, st_pc s = SubRelease id w ->
    sub_alone is_idle 4 lo lf q s = Some ('(q1, _) ← receive_end q (as_subscriber s (Some id)); Ok (q1, at_pc s SubIdle))).
Proof. split; [apply publish_alone|]. split; [apply receive_alone|]. intros id w. apply release_alone. Qed.

(** * Slots that are lost *)

(** Accesses that were counted in slot [s] and are not taken back any more. *)
Definition leaked (n s : Z) (c : conc) (m : message T) : Z := msg_active m - slot_count n s counted (cs_subs c).

(** As many as there are processes, and nobody is past the comparison. *)
Definition dead (n s : Z) (c : conc) : Prop :=
  exists m, zlookup (mq_items (cs_queue c)) s = Some m /\ zlen (cs_subs c) <= leaked n s c m /\
    slot_count n s (granted (zlen (cs_subs c))) (cs_subs c) = 0.

(** What a step of a subscriber does to its slot, and what it brings. *)
Record sub_effect (r : Z) (id : Z) (m m1 : message T) (s s1 : sub_thread) : Prop := {
  se_id : pc_id (st_pc s1) = Some id \/ st_pc s1 = SubIdle;
  se_leak : msg_active m - Z.b2z (counted (st_pc s)) <= msg_active m1 - Z.b2z (counted (st_pc s1));
  se_granted : granted r (st_pc s1) = true -> granted r (st_pc s) = true \/ msg_active m < r;
  se_got : exists l, st_got s1 = st_got s ++ l /\
    Forall (fun x => forall v, x = (id, Delivered v) -> granted r (st_pc s) = true) l /\ Forall (fun x => x.1 = id) l
}.

Lemma effect_at r id m m1 s p :
  (pc_id p = Some id \/ p = SubIdle) -> msg_active m - Z.b2z (counted (st_pc s)) <= msg_active m1 - Z.b2z (counted p) ->
  (granted r p = true -> granted r (st_pc s) = true \/ msg_active m < r) -> sub_effect r id m m1 s (at_pc s p).
Proof. intros Hp Hl Hg. split; try done. exists []. rewrite app_nil_r. split; [done|]. split; constructor. Qed.

Lemma effect_got r id m m1 s x p :
  (pc_id p = Some id \/ p = SubIdle) -> msg_active m - Z.b2z (counted (st_pc s)) <= msg_active m1 - Z.b2z (counted p) ->
  (granted r p = true -> granted r (st_pc s) = true \/ msg_active m < r) ->
  (forall v, x = Delivered v -> granted r (st_pc s) = true) -> sub_effect r id m m1 s (got s id x p).
Proof.
  intros Hp Hl Hg Hx. split; try done. exists [(id, x)]. split; [done|]. split; constructor; [|constructor|done|constructor].
  intros v [= ->]. by eapply Hx.
Qed.

Lemma sub_step_effect r lf q s q1 s1 id m :
  sub_step true lf q s = Some (Ok (q1, s1)) -> pc_id (st_pc s) = Some id -> (forall x y, st_pc s <> SubLoaded x y) ->
  mq_get q id = Ok m -> msg_remaining m <= r -> 0 <= msg_active m < 2 ^ 60 ->
  exists m1, q1 = put q id m1 /\ sub_effect r id m m1 s s1.
Proof.
  intros Hs Hid Hl Hm Hr Ha. pose proof (put_same _ _ _ Hm) as Hq.
  unfold sub_step, consume_step, release_step in Hs.
  destruct (st_pc s) eqn:Hp; simplify_eq/=; unfold mq_update in Hs; rewrite Hm in Hs; simpl in Hs;
    rewrite ?(put_ok _ _ _ _ Hm) in Hs; simpl in Hs; try (by edestruct Hl).
  - injection Hs as <- <-. exists m. split; [done|].
    destruct (negb _); [apply effect_got|apply effect_at]; rewrite ?Hp; simpl; auto; try (lia || done).
  - injection Hs as <- <-. exists m. split; [done|].
    destruct (msg_value m); [apply effect_at|apply effect_got]; rewrite ?Hp; simpl; auto; try (lia || done).
  - injection Hs as <- <-. eexists. split; [done|]. apply effect_at; rewrite ?Hp; simpl; auto.
    + rewrite i64_small; lia.
    + intros ?%Z.ltb_lt. by right.
  - injection Hs as <- <-. exists m. split; [done|]. rewrite Z.geb_leb.
    destruct (Z.leb_spec (msg_remaining m) a); [apply effect_got|apply effect_at]; rewrite ?Hp; simpl; auto; try (lia || done).
  - apply bind_Ok in Hs as (u & _ & Hs). destruct (sm_try_lock_shared_n _ _ _) as [locked f].
    rewrite (put_ok _ _ _ _ Hm) in Hs. simpl in Hs. injection Hs as <- <-. eexists. split; [done|].
    destruct locked; [apply effect_at|apply effect_got]; rewrite ?Hp; simpl; auto; try (lia || done).
  - apply bind_Ok in Hs as (v & _ & [= <- <-]). exists m. split; [done|]. apply effect_got; rewrite ?Hp; simpl; auto; lia.
  - injection Hs as <- <-. eexists. split; [done|]. apply effect_at; rewrite ?Hp; simpl; auto; lia.
  - injection Hs as <- <-. eexists. split; [done|]. apply effect_at; rewrite ?Hp; simpl; auto; try done.
    all: destruct (_ =? 1); simpl; lia.
  - apply bind_Ok in Hs as (q2 & Hq2 & [= <- <-]). apply bind_Ok in Hq2 as (m1 & Hm1 & Hq2).
    apply bind_Ok in Hm1 as (f & _ & [= <-]). rewrite (put_ok _ _ _ _ Hm) in Hq2. injection Hq2 as <-.
    eexists. split; [done|]. apply effect_at; rewrite ?Hp; simpl; auto; try (lia || done).
  - injection Hs as <- <-. eexists. split; [done|]. apply effect_at; rewrite ?Hp; simpl; auto; try done.
    all: rewrite i64_small; lia.
Qed.

(** The counters of the publisher's slots stay. *)
Lemma put_active (q : mqueue T) id x y q1 s m :
  mq_get q id = Ok x -> mq_put q id y = Ok q1 -> msg_active y = msg_active x ->
  zlookup (mq_items q) s = Some m -> exists m1, zlookup (mq_items q1) s = Some m1 /\ msg_active m1 = msg_active m.
Proof.
  intros Hx Hq1 Hy Hs. rewrite (put_ok _ _ _ _ Hx) in Hq1. injection Hq1 as <-. unfold mq_get in Hx. apply must_Some in Hx.
  unfold put. simpl. rewrite zlookup_insert by (by eapply zlookup_lt). case_decide as He; [|eauto].
  exists y. split; [done|]. subst s. simplify_eq. done.
Qed.

Lemma pub_step_active sp p (q : mqueue T) p1 q1 reply s m :
  pub_step sp p q = Some (Ok (p1, q1, reply)) -> zlookup (mq_items q) s = Some m ->
  exists m1, zlookup (mq_items q1) s = Some m1 /\ msg_active m1 = msg_active m.
Proof.
  intros Hp Hs.
  assert (forall id f, (q2 ← mq_update q id f; Ok q2) = Ok q1 -> (forall x y, f x = Ok y -> msg_active y = msg_active x) ->
    exists m1, zlookup (mq_items q1) s = Some m1 /\ msg_active m1 = msg_active m) as Hupd.
  { intros id f (q2 & Hu & [= ->])%bind_Ok Hf. unfold mq_update in Hu.
    apply bind_Ok in Hu as (x & Hx & Hu). apply bind_Ok in Hu as (y & Hy & Hu). eapply put_active; eauto. }
  destruct p; simplify_eq/=; eauto.
  - apply bind_Ok in Hp as (x & Hx & Hp). destruct (request_writable sp x) as [b y] eqn:Hr.
    apply bind_Ok in Hp as (q2 & Hq2 & Hp). assert (q2 = q1) as -> by (by destruct b; injection Hp).
    eapply put_active; eauto. unfold request_writable in Hr. destruct (sm_try_lock _ _). by injection Hr as <- <-.
  - apply bind_Ok in Hp as (q2 & Hq2 & [= <- <- <-]). eapply Hupd; [rewrite Hq2; done|]. by intros x y [= <-].
  - apply bind_Ok in Hp as (q2 & Hq2 & [= <- <- <-]). eapply Hupd; [rewrite Hq2; done|]. by intros x y [= <-].
  - apply bind_Ok in Hp as (q2 & Hq2 & [= <- <- <-]). eapply Hupd; [rewrite Hq2; done|]. by intros x y [= <-].
  - apply bind_Ok in Hp as (q2 & Hq2 & [= <- <- <-]). eapply Hupd; [rewrite Hq2; done|]. by intros x y [= <-].
  - apply bind_Ok in Hp as (q2 & Hq2 & [= <- <- <-]). eapply Hupd; [rewrite Hq2; done|].
    intros x y Hy. unfold write_release in Hy. by apply bind_Ok in Hy as (f & _ & [= <-]).
Qed.

(** The results of a subscriber have only grown, by none for slot [s] that is a value. *)
Definition nothing_from (n s : Z) (c c1 : conc) : Prop :=
  forall i x x1, cs_subs c !! i = Some x -> cs_subs c1 !! i = Some x1 ->
    exists l, st_got x1 = st_got x ++ l /\ forall id v, (id, Delivered v) ∈ l -> id mod n <> s.

Lemma nothing_same n s c c1 : cs_subs c1 = cs_subs c -> nothing_from n s c c1.
Proof. intros He i x x1 Hx Hx1. rewrite He in Hx1. simplify_eq. exists []. rewrite app_nil_r. split; [done|]. intros id v ?%elem_of_nil. done. Qed.

(** One subscriber has moved. *)
Lemma nothing_set n s c c1 i x y l : cs_subs c !! i = Some x -> cs_subs c1 = <[i := y]> (cs_subs c) ->
  st_got y = st_got x ++ l -> (forall id v, (id, Delivered v) ∈ l -> id mod n <> s) -> nothing_from n s c c1.
Proof.
  intros Hi Hc1 Hy Hl j z z1 Hz Hz1. rewrite Hc1 in Hz1. apply list_lookup_insert_Some in Hz1 as [(<- & <- & _)|[_ Hz1]].
  - simplify_eq. eauto.
  - simplify_eq. exists []. rewrite app_nil_r. split; [done|]. intros id v ?%elem_of_nil. done.
Qed.

Lemma dead_set n s c c1 i x y m m1 : cs_subs c !! i = Some x -> cs_subs c1 = <[i := y]> (cs_subs c) ->
  zlookup (mq_items (cs_queue c)) s = Some m -> zlookup (mq_items (cs_queue c1)) s = Some m1 ->
  zlen (cs_subs c) <= leaked n s c m -> slot_count n s (granted (zlen (cs_subs c))) (cs_subs c) = 0 ->
  msg_active m - eff n s counted x <= msg_active m1 - eff n s counted y ->
  eff n s (granted (zlen (cs_subs c))) y = 0 -> dead n s c1.
Proof.
  intros Hi Hc1 Hm Hm1 Hl Hg Ha Hy. exists m1. unfold leaked in *. rewrite Hc1, zlen_insert.
  rewrite !(slot_count_insert _ _ _ _ _ _ y Hi), Hy, Hg.
  pose proof (slot_count_lookup n s (granted (zlen (cs_subs c))) _ _ _ Hi).
  assert (0 <= eff n s (granted (zlen (cs_subs c))) x) by (unfold eff; destruct (_ && _); simpl; lia).
  split; [done|]. lia.
Qed.

(** A subscriber that is at no message before, and only looks at one after. *)
Lemma dead_away n s c i x y l (q : mqueue T) : dead n s c -> cs_subs c !! i = Some x -> pc_id (st_pc x) = None ->
  counted (st_pc y) = false -> mq_items q = mq_items (cs_queue c) ->
  st_got y = st_got x ++ l -> (forall id v, (id, Delivered v) ∈ l -> id mod n <> s) ->
  dead n s (set_sub c i q y) /\ nothing_from n s c (set_sub c i q y).
Proof.
  intros (m & Hm & Hl & Hg) Hi Hx Hy Hq Hgot Hn. split; [|by eapply nothing_set].
  assert (forall f, (f (st_pc y) = true -> counted (st_pc y) = true) -> eff n s f y = 0) as He.
  { intros f Hf. unfold eff. destruct (f (st_pc y)); [by rewrite Hf in Hy|by rewrite andb_false_r]. }
  eapply dead_set; try done; [simpl; by rewrite Hq| |].
  - rewrite (eff_elsewhere _ _ _ x) by (by apply here_none). rewrite He by done. lia.
  - apply He. apply granted_counted.
Qed.

Lemma dead_step k t c e c1 s : conc_inv k t c -> t + 1 < 2 ^ 60 -> dead (2 ^ k) s c -> c_step true e c = Some (Ok c1) -> dead (2 ^ k) s c1 /\ nothing_from (2 ^ k) s c c1.
Proof.
  intros Hc Ht Hd. pose proof Hc as [Hk Hit Hb _ _ Hsubs _ Hsl Hac].
  destruct e as [v|sp|i|i|i|i lf]; simpl.
  - destruct (cs_pub c); intros [= <-]. split; [exact Hd|by apply nothing_same].
  - intros (r & Hr & [= Ho])%bind_Some. destruct r as [[[p1 q1] rep]| |]; simplify_eq/=.
    split; [|by apply nothing_same]. destruct Hd as (m & Hm & Hl & Hg).
    destruct (pub_step_active _ _ _ _ _ _ _ _ Hr Hm) as (m1 & Hm1 & Ha).
    exists m1. unfold leaked in *. simpl. by rewrite Ha.
  - intros (x & Hi & Ho)%bind_Some. destruct (st_pc x) eqn:Hp; simplify_eq/=.
    eapply (dead_away _ _ _ _ x _ []); eauto; rewrite ?Hp, ?app_nil_r; try done. by intros ? ? ?%elem_of_nil.
  - intros (x & Hi & Ho)%bind_Some. destruct (st_pc x) eqn:Hp; simplify_eq/=.
    eapply (dead_away _ _ _ _ x _ []); eauto; rewrite ?Hp, ?app_nil_r; try done. by intros ? ? ?%elem_of_nil.
  - intros (x & Hi & Ho)%bind_Some. destruct (st_pc x) eqn:Hp; simplify_eq/=. unfold sub_wait.
    destruct (_ =? _); [|destruct (_ =? _)].
    + eapply (dead_away _ _ _ _ x _ []); eauto; rewrite ?Hp, ?app_nil_r; try done. by intros ? ? ?%elem_of_nil.
    + eapply (dead_away _ _ _ _ x _ [(st_next x, Failed 1)]); eauto; rewrite ?Hp; try done.
      intros ? ? ?%list_elem_of_singleton. done.
    + eapply (dead_away _ _ _ _ x _ []); eauto; rewrite ?Hp, ?app_nil_r; try done. by intros ? ? ?%elem_of_nil.
  - intros (x & Hi & Ho)%bind_Some. apply bind_Some in Ho as (r & Hr & Ho).
    destruct r as [[q1 y]| |]; simplify_eq/=. destruct (pc_id (st_pc x)) as [id|] eqn:Hid.
    + destruct (conc_at _ _ _ _ _ _ Hc Hi Hid) as (m' & Hm' & Hs' & Ha' & Hok & Hh).
      pose proof (sl_granted _ _ _ _ _ _ Hs') as [_ Hrem]. pose proof (sl_active _ _ _ _ _ _ Hs').
      pose proof (slot_count_nonneg (2 ^ k) (id mod (2 ^ k)) counted (cs_subs c)).
      destruct (sub_step_effect (zlen (cs_subs c)) _ _ _ _ _ _ _ Hr Hid (so_order _ _ _ _ Hok) Hm' Hrem ltac:(lia)) as (m1 & -> & [He1 He2 He3 (l & He4 & He5 & He6)]).
      assert (id mod (2 ^ k) = s -> slot_count (2 ^ k) s (granted (zlen (cs_subs c))) (cs_subs c) = 0 -> granted (zlen (cs_subs c)) (st_pc x) = false) as Hng.
      { intros <- Hz. pose proof (slot_count_lookup (2 ^ k) (id mod (2 ^ k)) (granted (zlen (cs_subs c))) _ _ _ Hi) as Hg.
        rewrite (eff_at _ _ _ _ Hid), Hz in Hg. by destruct (granted _ (st_pc x)). }
      destruct Hd as (m & Hm & Hl & Hg). split.
      * assert (forall f, f SubIdle = false -> eff (2 ^ k) (id mod (2 ^ k)) f y = Z.b2z (f (st_pc y))) as Hy.
        { intros f Hf. destruct He1 as [Hy|Hy]; [by apply eff_at|by rewrite eff_idle, Hy, Hf]. }
        pose proof Hm' as Hm2. apply (mq_get_slot k) in Hm2; [|done..]. pose proof (window_pos k Hk).
        assert (zlookup (mq_items (put (cs_queue c) id m1)) s = if decide (id mod (2 ^ k) = s) then Some m1 else Some m) as Hitems.
        { unfold put. simpl. rewrite (mq_index_mod k) by done. rewrite zlookup_insert by (rewrite Hit; apply Z.mod_pos_bound; lia).
          by rewrite Hm. }
        case_decide as Heq.
        -- subst s. simplify_eq. eapply (dead_set _ _ _ _ _ _ _ m m1); try done.
           ++ rewrite (eff_at _ _ _ _ Hid), Hy by done. done.
           ++ rewrite Hy by done. destruct (granted _ (st_pc y)) eqn:Hgy; [|done]. exfalso.
              destruct (He3 eq_refl) as [Hgx|Hlt]; [by rewrite (Hng eq_refl Hg) in Hgx|]. unfold leaked in Hl. lia.
        -- assert (here (2 ^ k) s (st_pc x) = false) as Hhx by (rewrite (here_id _ _ _ _ Hid); by apply Z.eqb_neq).
           assert (here (2 ^ k) s (st_pc y) = false) as Hhy.
           { destruct He1 as [Hy1|Hy1]; [rewrite (here_id _ _ _ _ Hy1); by apply Z.eqb_neq|by rewrite Hy1]. }
           eapply (dead_set _ _ _ _ _ _ _ m m); try done; rewrite ?(eff_elsewhere _ _ _ _ Hhx), ?(eff_elsewhere _ _ _ _ Hhy); lia.
      * eapply nothing_set; try done. intros id' v Hin Heq.
        rewrite Forall_forall in He5, He6. pose proof (He6 _ Hin) as Hid'. simpl in Hid'. subst id'.
        pose proof (He5 _ Hin v eq_refl) as Hgx. by rewrite (Hng Heq Hg) in Hgx.
    + unfold sub_step, consume_step, release_step in Hr. destruct (st_pc x) eqn:Hp; simplify_eq/=.
      eapply (dead_away _ _ _ _ x _ []); eauto; rewrite ?Hp, ?app_nil_r; try done. by intros ? ? ?%elem_of_nil.
Qed.

Lemma nothing_trans n s c c1 c2 : zlen (cs_subs c1) = zlen (cs_subs c) ->
  nothing_from n s c c1 -> nothing_from n s c1 c2 -> nothing_from n s c c2.
Proof.
  intros Hlen H1 H2 i x x2 Hx Hx2.
  destruct (lookup_lt_is_Some_2 (cs_subs c1) i) as [x1 Hx1]; [apply lookup_lt_Some in Hx; unfold zlen in Hlen; lia|].
  destruct (H1 i x x1 Hx Hx1) as (l1 & Hg1 & Hn1). destruct (H2 i x1 x2 Hx1 Hx2) as (l2 & Hg2 & Hn2).
  exists (l1 ++ l2). rewrite Hg2, Hg1, app_assoc. split; [done|]. intros id v [?|?]%elem_of_app; eauto.
Qed.

Lemma dead_run k es s : forall t c c1, conc_inv k t c -> t + zlen es < 2 ^ 60 -> dead (2 ^ k) s c ->
  c_run true es c = Some (Ok c1) -> dead (2 ^ k) s c1 /\ nothing_from (2 ^ k) s c c1.
Proof.
  induction es as [|e es IH]; intros t c c1 Hc Ht Hd; simpl.
  - intros [= <-]. split; [done|by apply nothing_same].
  - rewrite zlen_cons in Ht. pose proof (zlen_nonneg es). intros (r & Hr & Ho)%bind_Some.
    destruct (c_step_inv k t c e r Hc ltac:(lia) Hr) as (c2 & -> & Hc2 & _ & Hlen). simpl in Ho.
    destruct (dead_step k t c e c2 s Hc ltac:(lia) Hd Hr) as [Hd2 Hn2].
    destruct (IH (t + 1) c2 c1 Hc2 ltac:(lia) Hd2 Ho) as [Hd1 Hn1]. split; [done|]. by eapply nothing_trans.
Qed.

(** C20 An access that is counted and refused is never taken back, and a slot that has leaked as
    many accesses as there are processes is lost: once it is dead, it stays dead, and whatever
    is published in it from then on, no subscriber ever receives a value from it. *)
Theorem fifo_slot_lost (k : Z) (q : mqueue T) (n : nat) (es es' : list action) (c c' : conc) (s : Z) :
  sys_inv k [] [] q -> Z.of_nat n < 2 ^ 60 -> zlen es + zlen es' < 2 ^ 60 ->
  c_run true es (c_start q n) = Some (Ok c) -> dead (2 ^ k) s c -> c_run true es' c = Some (Ok c') ->
  dead (2 ^ k) s c' /\ nothing_from (2 ^ k) s c c'.
Proof.
  intros Hq Hn Hes Hc Hd Hc'. pose proof (zlen_nonneg es'). pose proof (zlen_nonneg es).
  destruct (c_run_inv k es 0 _ _ (c_start_inv k q n Hq Hn) ltac:(lia) Hc) as (c0 & [= <-] & Hinv & _).
  by apply (dead_run k es' s (0 + zlen es)); [|lia|..].
Qed.
End concurrent.
Arguments action : clear implicits.
Arguments conc : clear implicits.

(** * Schedules *)
Definition demo_ring : mqueue Z :=
  {| mq_num_subscribers := 0; mq_next := 0; mq_last := 0; mq_queue_size := 2; mq_history_size := 0;
     mq_items := [msg_default; msg_default] |}.
Definition demo_start : conc Z := c_start demo_ring 2.

Lemma demo_ring_inv : sys_inv 1 [] [] demo_ring.
Proof.
  split; try done; try (simpl; lia).
  - intros s Hin. by apply elem_of_nil in Hin.
  - intros j Hj. exists msg_default. rewrite zlen_nil in Hj. change (2 ^ 1) with 2 in *.
    unfold slot_ok. rewrite (proj2 (Z.ltb_lt j 0)) by lia. split; [|done].
    assert (j = -1 \/ j = -2) as [-> | ->] by lia; reflexivity.
Qed.

Definition join (i : nat) : list (action Z) := [Subscribe i; SubStep i false].
Definition publish_all (v : Z) : list (action Z) := Publish v :: replicate 8 (PubStep false).
(** [receive] and [k] steps of it. *)
Definition receive_steps (i k : nat) : list (action Z) := Receive i :: replicate k (SubStep i false).

(** What the subscribers got, and the counter of accesses of each slot. *)
Definition outcome_of (left_first : bool) (es : list (action Z)) : option (outcome (list (list (Z * received Z)) * list Z)) :=
  o ← c_run left_first es demo_start;
  Some (c ← o; Ok (map st_got (cs_subs c), map msg_active (mq_items (cs_queue c)))).

(** Two subscribers read one after the other while the publisher goes on. *)
Example demo_smooth :
  outcome_of true (join 0 ++ join 1 ++ publish_all 7 ++ receive_steps 0 10 ++ publish_all 8 ++ receive_steps 1 10 ++ receive_steps 0 10) =
  Some (Ok ([[(0, Delivered 7); (1, Delivered 8)]; [(0, Delivered 7)]], [0; 0])).
Proof. vm_compute. reflexivity. Qed.

(** Four schedules in which the queue falls short of its promise that every subscriber gets every
    message.
    - Release: a subscriber that tries between the two decrements of another one's release finds
      as many accesses as references; it is refused, and its own access is never taken back.
    - Overtaken: a subscriber that has checked the number of its message, and is then overtaken by
      a whole round of the ring, gets a later message in place of its own.
    - Late: a subscriber that joins after the publisher has counted the subscribers and before it
      announces the message starts at a message it has no reference to.
    - If the references are read before the counter is raised, which C++ allows, such a late
      subscriber can be admitted after the last reference is gone; its callback throws. *)
Theorem fifo_races :
  outcome_of true (join 0 ++ join 1 ++ publish_all 7 ++ receive_steps 0 8 ++ receive_steps 1 4 ++ replicate 2 (SubStep 0 false)) =
    Some (Ok ([[(0, Delivered 7)]; [(0, Failed 3)]], [1; 0])) /\
  outcome_of true (join 0 ++ publish_all 7 ++ receive_steps 0 1 ++ publish_all 8 ++ publish_all 9 ++ replicate 9 (SubStep 0 false)) =
    Some (Ok ([[(0, Delivered 9)]; []], [0; 0])) /\
  outcome_of true ((Publish 7 :: replicate 3 (PubStep false)) ++ join 0 ++ replicate 5 (PubStep false) ++ receive_steps 0 4) =
    Some (Ok ([[(0, Failed 3)]; []], [1; 0])) /\
  outcome_of false (join 0 ++ (Publish 7 :: replicate 3 (PubStep false)) ++ join 1 ++ replicate 5 (PubStep false) ++
      receive_steps 1 3 ++ receive_steps 0 10 ++ replicate 3 (SubStep 1 false)) =
    Some (Throw bad_optional_access).
Proof. split_and!; vm_compute; reflexivity. Qed.

(** The schedule of the first race. *)
Definition demo_schedule : list (action Z) :=
  join 0 ++ join 1 ++ publish_all 7 ++ receive_steps 0 8 ++ receive_steps 1 4 ++ replicate 2 (SubStep 0 false).

Lemma fifo_concurrent_safe_witness :
  0 < 128 /\ sizeof_header + 128 <= 600 < 2 ^ 62 /\ Z.of_nat 2 < 2 ^ 60 /\ zlen demo_schedule < 2 ^ 60 /\
  exists k q, init_at (T := Z) GNUC 128 600 = Ok (Expected q) /\ mq_size q = 2 ^ k /\
    forall o, c_run true demo_schedule (c_start q 2) = Some o ->
    exists c, o = Ok c /\ exclusive (2 ^ k) c /\
      (forall i s, cs_subs c !! i = Some s -> Forall (got_ok (2 ^ k) (cs_log c)) (st_got s) /\ increasing (st_got s) (st_next s)) /\
      zlen (cs_log c) = published (cs_replies c) + Z.b2z (publishing (cs_pub c)).
Proof.
  split; [lia|]. split; [unfold sizeof_header; lia|]. split; [vm_compute; done|]. split; [vm_compute; done|].
  apply (fifo_concurrent_safe GNUC 128 600 2 demo_schedule); [lia|unfold sizeof_header; lia|vm_compute; done..].
Defined.

Lemma fifo_calls_alone_witness :
  let q := set_items (set_next (set_num_subscribers (cs_queue demo_start) 1) 1) [msg_construct 1 0 7; msg_default] in
  let s := {| st_next := 0; st_pc := SubIdle; st_got := [] |} in
  pub_alone 8 false (PubLock 1 8) q = Some (m_publish false 8 q) /\
  exists q1, sub_alone has_begun 6 true false q (sub_wait q s) =
    Some (Ok (q1, {| st_next := 1; st_pc := SubRelease 0 7; st_got := [(0, Delivered 7)] |})).
Proof.
  intros q s. destruct (fifo_calls_alone true false false 8 q s) as (H1 & H2 & _).
  split; [exact H1|]. eexists. exact (H2 eq_refl).
Defined.

(** One subscriber that joins late, and the two rounds of the ring after that. *)
Definition late_schedule : list (action Z) :=
  (Publish 7 :: replicate 3 (PubStep false)) ++ join 0 ++ replicate 5 (PubStep false) ++ receive_steps 0 4.
Definition later_schedule : list (action Z) :=
  publish_all 8 ++ receive_steps 0 10 ++ publish_all 9 ++ receive_steps 0 4 ++ publish_all 10 ++ receive_steps 0 10 ++
  publish_all 11 ++ receive_steps 0 4.

Lemma fifo_slot_lost_witness :
  exists c c', c_run true late_schedule (c_start demo_ring 1) = Some (Ok c) /\ dead 2 0 c /\
    c_run true later_schedule c = Some (Ok c') /\
    map st_got (cs_subs c') = [[(0, Failed 3); (1, Delivered 8); (2, Failed 3); (3, Delivered 10); (4, Failed 3)]] /\
    dead (2 ^ 1) 0 c' /\ nothing_from (2 ^ 1) 0 c c'.
Proof.
  destruct (c_run true late_schedule (c_start demo_ring 1)) as [[c| |]|] eqn:Hc; [|vm_compute in Hc; discriminate Hc..].
  destruct (c_run true later_schedule c) as [[c'| |]|] eqn:Hc'; [|vm_compute in Hc; injection Hc as <-; vm_compute in Hc'; discriminate Hc'..].
  assert (dead 2 0 c) as Hd.
  { clear Hc'. vm_compute in Hc. injection Hc as <-. eexists. split; [reflexivity|]. split; [vm_compute; discriminate|reflexivity]. }
  assert (map st_got (cs_subs c') = [[(0, Failed 3); (1, Delivered 8); (2, Failed 3); (3, Delivered 10); (4, Failed 3)]]) as Hg.
  { clear Hd. vm_compute in Hc. injection Hc as <-. vm_compute in Hc'. injection Hc' as <-. reflexivity. }
  exists c, c'. split; [reflexivity|]. split; [exact Hd|]. split; [exact Hc'|]. split; [exact Hg|].
  apply (fifo_slot_lost 1 demo_ring 1 late_schedule later_schedule c c' 0);
    [exact demo_ring_inv|vm_compute; reflexivity|vm_compute; reflexivity|exact Hc|exact Hd|exact Hc'].
Defined.
