(* ===== verification/RealTime.v ===== *)
(** The real-time transport: [publish_subscribe/real_time/].

    Subscribers only ever see the latest message.  real_time_message.h gives the
    message slot with its reference counter and the [Access] handles that own a
    reference, real_time_memory_layout.h the shared memory segment and its sizes,
    real_time_publisher.h and real_time_subscriber.h the two ends. *)
From S2P Require Import Prelude Numeric.

(** * Options and memory layout *)

(* @source include/ipcpp/publish_subscribe/options.h 39-44 Options<Mode::RealTime> *)
Record options : Type := {
  max_publishers : Z;             (* uint_half_t *)
  max_subscribers : Z;
  max_concurrent_acquires : Z
}.

Definition default_options : options :=
  {| max_publishers := 1; max_subscribers := 1; max_concurrent_acquires := 1 |}.

(* @source include/ipcpp/publish_subscribe/options.h 46-46 InitializationState *)
Inductive init_state : Type := uninitialized | in_initialization | initialized.

#[export] Instance init_state_eq_dec : EqDecision init_state.
Proof. solve_decision. Defined.

(** The sizes of the three header structures with 64-byte cache lines. *)
Definition sizeof_instance_data : Z := 320.
Definition sizeof_publisher_entry : Z := 128.
Definition sizeof_subscriber_entry : Z := 64.

(** The assertion, then 32-bit unsigned arithmetic throughout. *)
(* @source include/ipcpp/publish_subscribe/real_time/real_time_memory_layout.h 112-117 RealTimeMessageBuffer::per_publisher_pool_size *)
Definition per_publisher_pool_size (c : compiler) (o : options) : outcome Z :=
  _ ← require (max_subscribers o <=? umax 32 - 2);
  ceil_to_power_of_two c 32 (u32 (u32 (max_subscribers o * max_concurrent_acquires o) + 2)).

(* @source include/ipcpp/publish_subscribe/real_time/real_time_memory_layout.h 119-125 RealTimeMessageBuffer::required_size_bytes *)
Definition required_size_bytes (c : compiler) (sizeof_T : Z) (o : options) : outcome Z :=
  pool ← per_publisher_pool_size c o;
  Ok (u64 (u64 (u64 (sizeof_instance_data + u64 (sizeof_publisher_entry * max_publishers o))
                + u64 (sizeof_subscriber_entry * max_subscribers o))
           + u64 (u64 (sizeof_T * pool) * max_publishers o))).

(** Both factors are [uint_half_t]: the product is taken modulo 2^32. *)
(* @source include/ipcpp/publish_subscribe/real_time/real_time_memory_layout.h 127-129 RealTimeMessageBuffer::message_buffer_size *)
Definition message_buffer_size (c : compiler) (o : options) : outcome Z :=
  pool ← per_publisher_pool_size c o;
  Ok (u32 (pool * max_publishers o)).

(** ** Entries of publishers and subscribers *)

(* @source include/ipcpp/publish_subscribe/real_time/real_time_memory_layout.h 31-34 ProcessData *)
Record process_data : Type := { pid : Z; creation_timestamp : Z }.
Definition default_process_data : process_data := {| pid := 0; creation_timestamp := -1 |}.

(* @source include/ipcpp/publish_subscribe/real_time/real_time_memory_layout.h 36-45 RealTimeSubscriberEntry *)
Record subscriber_entry : Type := { se_process : process_data; se_id : Z }.
Definition default_subscriber_entry : subscriber_entry :=
  {| se_process := default_process_data; se_id := umax 32 |}.

(* @source include/ipcpp/publish_subscribe/real_time/real_time_memory_layout.h 53-58 RealTimePublisherEntry *)
Record publisher_entry : Type := { pe_process : process_data; pe_next_local : Z; pe_id : Z }.
Definition default_publisher_entry : publisher_entry :=
  {| pe_process := default_process_data; pe_next_local := 0; pe_id := umax 32 |}.

(** The process that runs the code: the results of [getpid()] (an [int], converted to
    [uint64]) and of [utils::timestamp()]. *)
Definition this_process (getpid timestamp : Z) : process_data := {| pid := u64 getpid; creation_timestamp := timestamp |}.

(** The heartbeat interval is not used. *)
(* @source include/ipcpp/publish_subscribe/real_time/real_time_memory_layout.h 58-62 RealTimePublisherEntry::RealTimePublisherEntry *)
Definition publisher_entry_construct (publisher_id : Z) (me : process_data) : publisher_entry :=
  {| pe_process := me; pe_next_local := 0; pe_id := publisher_id |}.

(** [kill0 pid] is the result and the [errno] of [kill(pid, 0)]. *)
(* @source include/ipcpp/utils/system.h 52-68 is_process_alive *)
Definition is_process_alive (kill0 : Z -> option Z) (esrch p : Z) : bool :=
  if p =? 0 then false
  else match kill0 (i32 p) with None => true | Some errno => negb (errno =? esrch) end.

(* @source include/ipcpp/publish_subscribe/real_time/real_time_memory_layout.h 47-50 RealTimeSubscriberEntry::is_available *)
Definition se_is_available (alive : Z -> bool) (e : subscriber_entry) : bool :=
  ((se_id e =? 0) && (pid (se_process e) =? 0) && (creation_timestamp (se_process e) =? -1))
  || negb (alive (pid (se_process e))).

(* @source include/ipcpp/publish_subscribe/real_time/real_time_memory_layout.h 64-67 RealTimePublisherEntry::is_available *)
Definition pe_is_available (alive : Z -> bool) (e : publisher_entry) : bool :=
  ((pe_id e =? 0) && (pid (pe_process e) =? 0) && (creation_timestamp (pe_process e) =? -1))
  || negb (alive (pid (pe_process e))).

Section real_time.
Context {T : Type}.

(** * Message slots and accesses *)

(* @source include/ipcpp/publish_subscribe/real_time/real_time_message.h 121-125 Message *)
Record message : Type := {
  rm_value : option T;
  rm_id : Z;                 (* uint_t *)
  rm_refs : Z                (* atomic uint_t *)
}.

(* @source include/ipcpp/publish_subscribe/real_time/real_time_message.h 24-24 Message::invalid_id_v *)
Definition invalid_id : Z := umax 64.

(* @source include/ipcpp/publish_subscribe/real_time/real_time_message.h 78-78 Message::Message *)
Definition rm_default : message := {| rm_value := None; rm_id := invalid_id; rm_refs := 0 |}.

Definition rm_set_refs (m : message) (r : Z) : message :=
  {| rm_value := rm_value m; rm_id := rm_id m; rm_refs := r |}.

(* @source include/ipcpp/publish_subscribe/real_time/real_time_message.h 58-61 Message::Access::reset *)
Definition rm_reset (m : message) : message := {| rm_value := None; rm_id := invalid_id; rm_refs := rm_refs m |}.

(* @source include/ipcpp/publish_subscribe/real_time/real_time_message.h 86-86 Message::active_references *)
Definition active_references (m : message) : Z := rm_refs m.

(* @source include/ipcpp/publish_subscribe/real_time/real_time_message.h 88-93 Message::emplace *)
Definition rm_emplace (message_id : Z) (v : T) (m : message) : message :=
  {| rm_value := Some v; rm_id := message_id; rm_refs := rm_refs m |}.

(** The slots of the message buffer; an [Access] is the index of its slot, or
    none once released or moved from. *)
Abbreviation slots := (list message).
Abbreviation access := (option Z).

(* @source include/ipcpp/publish_subscribe/real_time/real_time_message.h 95-104 Message::acquire *)
Definition acquire (i : Z) (b : slots) : outcome (access * slots) :=
  m ← must (zlookup b i);
  let m1 := rm_set_refs m (u64 (rm_refs m + 1)) in
  if (rm_refs m <? 1) || negb (bool_decide (is_Some (rm_value m)))
  then b1 ← must (zinsert b i (rm_set_refs m1 (u64 (rm_refs m1 - 1)))); Ok (None, b1)
  else b1 ← must (zinsert b i m1); Ok (Some i, b1).

(* @source include/ipcpp/publish_subscribe/real_time/real_time_message.h 114-117 Message::acquire_unsafe *)
Definition acquire_unsafe (i : Z) (b : slots) : outcome (access * slots) :=
  m ← must (zlookup b i);
  b1 ← must (zinsert b i (rm_set_refs m (u64 (rm_refs m + 1))));
  Ok (Some i, b1).

(** [release] (also the destructor): the holder of the last reference destroys
    the value and marks the slot free. *)
(* @source include/ipcpp/publish_subscribe/real_time/real_time_message.h 48-56 Message::Access::release *)
Definition release (a : access) (b : slots) : outcome slots :=
  match a with
  | None => Ok b
  | Some i =>
    m ← must (zlookup b i);
    let m1 := rm_set_refs m (u64 (rm_refs m - 1)) in
    must (zinsert b i (if rm_refs m =? 1 then rm_reset m1 else m1))
  end.

(** Move assignment of two different handles: the target and the source after it. *)
(* @source include/ipcpp/publish_subscribe/real_time/real_time_message.h 39-46 Message::Access::operator= *)
Definition access_assign (a other : access) (b : slots) : outcome (access * access * slots) :=
  b1 ← release a b; Ok (other, None, b1).

(* @source include/ipcpp/publish_subscribe/real_time/real_time_message.h 63-67 Message::Access::dereference *)
Definition access_deref (a : access) (b : slots) : outcome T :=
  i ← must a;
  m ← must (zlookup b i);
  match rm_value m with Some v => Ok v | None => Throw bad_optional_access end.

(* @source include/ipcpp/publish_subscribe/real_time/real_time_message.h 69-69 Message::Access::operator bool *)
Definition access_bool (a : access) (b : slots) : outcome bool :=
  i ← must a;
  m ← must (zlookup b i);
  Ok (bool_decide (is_Some (rm_value m))).

(** * The shared segment *)

(* @source include/ipcpp/publish_subscribe/real_time/real_time_memory_layout.h 70-87 RealTimeInstanceData *)
Record segment : Type := {
  sg_next_message_id : Z;          (* uint_t *)
  sg_latest_published_idx : Z;     (* uint_t *)
  sg_state : init_state;
  sg_next_publisher_id : Z;        (* uint_half_t *)
  sg_next_subscriber_id : Z;
  sg_options : options;
  sg_publishers : list publisher_entry;
  sg_subscribers : list subscriber_entry;
  sg_slots : slots
}.

Definition sg_set_slots (g : segment) (b : slots) : segment :=
  {| sg_next_message_id := sg_next_message_id g; sg_latest_published_idx := sg_latest_published_idx g;
     sg_state := sg_state g; sg_next_publisher_id := sg_next_publisher_id g;
     sg_next_subscriber_id := sg_next_subscriber_id g; sg_options := sg_options g;
     sg_publishers := sg_publishers g; sg_subscribers := sg_subscribers g; sg_slots := b |}.
Definition sg_set_publishers (g : segment) (l : list publisher_entry) : segment :=
  {| sg_next_message_id := sg_next_message_id g; sg_latest_published_idx := sg_latest_published_idx g;
     sg_state := sg_state g; sg_next_publisher_id := sg_next_publisher_id g;
     sg_next_subscriber_id := sg_next_subscriber_id g; sg_options := sg_options g;
     sg_publishers := l; sg_subscribers := sg_subscribers g; sg_slots := sg_slots g |}.
Definition sg_notify (g : segment) (idx next : Z) : segment :=
  {| sg_next_message_id := next; sg_latest_published_idx := idx;
     sg_state := sg_state g; sg_next_publisher_id := sg_next_publisher_id g;
     sg_next_subscriber_id := sg_next_subscriber_id g; sg_options := sg_options g;
     sg_publishers := sg_publishers g; sg_subscribers := sg_subscribers g; sg_slots := sg_slots g |}.

(** The header constructed in place is fresh, so the first compare-exchange
    (which may fail spuriously, [sp1]) sees [uninitialized]; [sp2] is the second
    one. *)
(* @source include/ipcpp/publish_subscribe/real_time/real_time_memory_layout.h 131-188 RealTimeMessageBuffer::init_at *)
Definition init_at (c : compiler) (sizeof_T : Z) (sp1 sp2 : bool) (size_bytes : Z) (o : options)
    : outcome (expected segment Z) :=
  required ← required_size_bytes c sizeof_T o;
  if size_bytes <? required then Ok (Unexpected 1)
  else
    capacity ← message_buffer_size c o;
    if capacity >? umax 32 then Ok (Unexpected 1)
    else if sp1 then Ok (Unexpected 1)
    else if sp2 then Ok (Unexpected 1)
    else Ok (Expected {| sg_next_message_id := umax 64; sg_latest_published_idx := umax 64;
      sg_state := initialized; sg_next_publisher_id := 0; sg_next_subscriber_id := 0; sg_options := o;
      sg_publishers := replicate (Z.to_nat (max_publishers o)) default_publisher_entry;
      sg_subscribers := replicate (Z.to_nat (max_subscribers o)) default_subscriber_entry;
      sg_slots := replicate (Z.to_nat capacity) rm_default |}).

(** [elapsed] are the milliseconds passed at the successive polls, [states] what
    the polls read; [None] while still polling. *)
(* @source include/ipcpp/publish_subscribe/real_time/real_time_memory_layout.h 190-211 RealTimeMessageBuffer::read_at *)
Fixpoint wait_initialized (polls : list (init_state * Z)) (timeout : Z) : option (expected unit Z) :=
  match polls with
  | [] => None
  | (s, elapsed) :: polls' =>
    if bool_decide (s = initialized) then Some (Expected tt)
    else if elapsed >=? timeout then Some (Unexpected 1)
    else wait_initialized polls' timeout
  end.

(* @source include/ipcpp/publish_subscribe/real_time/real_time_memory_layout.h 213-227 RealTimeMessageBuffer::read_at *)
Definition read_at (c : compiler) (g : segment) : outcome segment :=
  capacity ← message_buffer_size c (sg_options g);
  Ok {| sg_next_message_id := sg_next_message_id g; sg_latest_published_idx := sg_latest_published_idx g;
     sg_state := sg_state g; sg_next_publisher_id := sg_next_publisher_id g;
     sg_next_subscriber_id := sg_next_subscriber_id g; sg_options := sg_options g;
     sg_publishers := take (Z.to_nat (max_publishers (sg_options g))) (sg_publishers g);
     sg_subscribers := take (Z.to_nat (max_subscribers (sg_options g))) (sg_subscribers g);
     sg_slots := take (Z.to_nat capacity) (sg_slots g) |}.

(** Addresses of the spans, relative to the start of the segment. *)
(* @source include/ipcpp/publish_subscribe/real_time/real_time_memory_layout.h 215-224 RealTimeMessageBuffer::read_at *)
Definition publishers_offset : Z := sizeof_instance_data.
Definition subscribers_offset (o : options) : Z := sizeof_instance_data + sizeof_publisher_entry * max_publishers o.
Definition slots_offset (o : options) : Z := subscribers_offset o + sizeof_subscriber_entry * max_subscribers o.

(** The subscript operator takes an [uint_half_t]: a larger index loses its upper half. *)
(* @source include/ipcpp/publish_subscribe/real_time/real_time_memory_layout.h 230-232 RealTimeMessageBuffer::operator[] *)
Definition subscript (index : Z) : Z := u32 index.

(* @source include/ipcpp/publish_subscribe/real_time/real_time_memory_layout.h 234-236 RealTimeMessageBuffer::get_index *)
Definition get_index (pool publisher_idx local_message_id : Z) : Z :=
  u32 (u32 (publisher_idx * pool) + Z.land local_message_id (u32 (pool - 1))).

(* @source include/ipcpp/publish_subscribe/real_time/real_time_memory_layout.h 238-244 RealTimeMessageBuffer::at *)
Definition sg_at (g : segment) (pool publisher_id local_message_id : Z) : outcome message :=
  must (zlookup (sg_slots g) (subscript (get_index pool publisher_id local_message_id))).

(** * Entry locks *)
Inductive errc : Type := timed_out | invalid_seek | no_message_available.

(** One pass over the entries: [try_lock idx] is the error value and whether the
    lock was acquired. *)
Fixpoint scan_entries (try_lock : Z -> Z * bool) (n : nat) (idx : Z) : option Z :=
  match n with
  | O => None
  | S n' =>
    let '(err, acquired) := try_lock idx in
    if (err =? 0) && acquired then Some idx else scan_entries try_lock n' (idx + 1)
  end.

(** The rounds of the search with the clock read after each; [None] while it goes
    on.  [start] is a [uint64], so the difference is unsigned. *)
(* @source include/ipcpp/publish_subscribe/real_time/real_time_publisher.h 26-42 get_new_publisher_entry *)
Fixpoint get_new_publisher_entry (max : Z) (timeout_ns start : Z) (rounds : list ((Z -> Z * bool) * Z))
    : option (expected Z errc) :=
  match rounds with
  | [] => None
  | (try_lock, now) :: rounds' =>
    match scan_entries try_lock (Z.to_nat max) 0 with
    | Some idx => Some (Expected idx)
    | None =>
      if u64 (start - now) >=? u64 timeout_ns then Some (Unexpected timed_out)
      else get_new_publisher_entry max timeout_ns start rounds'
    end
  end.

(* @source include/ipcpp/publish_subscribe/real_time/real_time_subscriber.h 23-40 get_new_subscriber_entry_idx *)
Definition get_new_subscriber_entry_idx := get_new_publisher_entry.

(** * The publisher *)

(** The process-local state of a publisher. *)
(* @source include/ipcpp/publish_subscribe/real_time/real_time_publisher.h 135-157 RealTimePublisher *)
Record publisher : Type := {
  pb_publisher_id : Z;
  pb_entry_idx : Z;
  pb_buffer_offset : Z;        (* uint_t *)
  pb_area : Z * Z;             (* first slot and length of the assigned span *)
  pb_wrap_around : Z;
  pb_prev : access
}.

(* @source include/ipcpp/publish_subscribe/real_time/real_time_publisher.h 109-125 RealTimePublisher::RealTimePublisher *)
Definition publisher_construct (c : compiler) (me : process_data) (o : options) (g : segment) (publisher_id entry_idx : Z)
    : outcome (publisher * segment) :=
  own_pool ← per_publisher_pool_size c o;
  pool ← per_publisher_pool_size c (sg_options g);
  let first := subscript (get_index pool entry_idx 0) in
  _ ← must (zlookup (sg_slots g) first);
  pubs ← must (zinsert (sg_publishers g) entry_idx (publisher_entry_construct entry_idx me));
  Ok ({| pb_publisher_id := publisher_id; pb_entry_idx := entry_idx;
         pb_buffer_offset := u32 (entry_idx * own_pool); pb_area := (first, pool);
         pb_wrap_around := u32 (pool - 1); pb_prev := None |},
      sg_set_publishers g pubs).

(** The search for a free slot of the assigned area. *)
Fixpoint find_free (fuel : nat) (pb : publisher) (b : slots) (next_local : Z) : outcome (Z * Z) :=
  match fuel with
  | O => UB
  | S fuel' =>
    let idx := Z.land next_local (pb_wrap_around pb) in
    let next_local' := u32 (next_local + 1) in
    _ ← require (idx <? (pb_area pb).2);
    m ← must (zlookup b ((pb_area pb).1 + idx));
    if rm_id m =? invalid_id then Ok (idx, next_local') else find_free fuel' pb b next_local'
  end.

(* @source include/ipcpp/publish_subscribe/real_time/real_time_publisher.h 128-133 RealTimePublisher::_m_notify_subscribers *)
Definition notify_subscribers (global_index : Z) (g : segment) : segment :=
  sg_notify g global_index (u64 (sg_next_message_id g + 1)).

(** [publish] up to the notification ... *)
(* @source include/ipcpp/publish_subscribe/real_time/real_time_publisher.h 86-102 RealTimePublisher::publish *)
Definition publish_notify (fuel : nat) (v : T) (pb : publisher) (g : segment) : outcome (Z * segment) :=
  e ← must (zlookup (sg_publishers g) (pb_entry_idx pb));
  '(idx, next_local) ← find_free fuel pb (sg_slots g) (pe_next_local e);
  pubs ← must (zinsert (sg_publishers g) (pb_entry_idx pb)
                 {| pe_process := pe_process e; pe_next_local := next_local; pe_id := pe_id e |});
  let global := u64 (pb_buffer_offset pb + idx) in
  m ← must (zlookup (sg_slots g) ((pb_area pb).1 + idx));
  b ← must (zinsert (sg_slots g) ((pb_area pb).1 + idx) (rm_emplace global v m));
  Ok (idx, notify_subscribers global (sg_set_slots (sg_set_publishers g pubs) b)).

(** ... and from there: the publisher takes its own reference and drops the one
    to its previous message. *)
(* @source include/ipcpp/publish_subscribe/real_time/real_time_publisher.h 103-106 RealTimePublisher::publish *)
Definition publish_finish (idx : Z) (pb : publisher) (g : segment) : outcome (publisher * segment) :=
  '(a, b1) ← acquire_unsafe ((pb_area pb).1 + idx) (sg_slots g);
  '(prev, _, b2) ← access_assign (pb_prev pb) a b1;
  Ok ({| pb_publisher_id := pb_publisher_id pb; pb_entry_idx := pb_entry_idx pb;
         pb_buffer_offset := pb_buffer_offset pb; pb_area := pb_area pb;
         pb_wrap_around := pb_wrap_around pb; pb_prev := prev |}, sg_set_slots g b2).

Definition publish (fuel : nat) (v : T) (pb : publisher) (g : segment) : outcome (publisher * segment) :=
  '(idx, g1) ← publish_notify fuel v pb g;
  publish_finish idx pb g1.

(** * The subscriber *)

(** A subscriber and the slots of the wrappers it has handed out. *)
(* @source include/ipcpp/publish_subscribe/real_time/real_time_subscriber.h 196-205 RealTimeSubscriber *)
Record subscriber : Type := {
  sb_available : Z;            (* atomic int_t *)
  sb_next_message_id : Z;      (* uint_t *)
  sb_held : list access
}.

(* @source include/ipcpp/publish_subscribe/real_time/real_time_subscriber.h 180-189 RealTimeSubscriber::RealTimeSubscriber *)
Definition subscriber_construct (o : options) (last_message_id : Z) : subscriber :=
  {| sb_available := max_concurrent_acquires o; sb_next_message_id := last_message_id; sb_held := [] |}.

Inductive fetched : Type :=
| Message (v : T)
| NoMessage (e : errc).

(* @source include/ipcpp/publish_subscribe/real_time/real_time_subscriber.h 135-154 RealTimeSubscriber::fetch_message *)
Definition fetch_message (g : segment) (s : subscriber) : outcome (fetched * segment * subscriber) :=
  if sg_next_message_id g =? sb_next_message_id s then Ok (NoMessage no_message_available, g, s)
  else
    '(a, b1) ← acquire_unsafe (subscript (sg_latest_published_idx g)) (sg_slots g);
    has ← access_bool a b1;
    if has : bool then
      if sb_available s <=? 0 then
        b2 ← release a b1;
        Ok (NoMessage invalid_seek, sg_set_slots g b2,
            {| sb_available := sb_available s; sb_next_message_id := sg_next_message_id g; sb_held := sb_held s |})
      else
        v ← access_deref a b1;
        Ok (Message v, sg_set_slots g b1,
            {| sb_available := i64 (sb_available s - 1); sb_next_message_id := sg_next_message_id g;
               sb_held := sb_held s ++ [a] |})
    else
      b2 ← release a b1;
      Ok (NoMessage no_message_available, sg_set_slots g b2, s).

(** The destruction of the k-th wrapper. *)
(* @source include/ipcpp/publish_subscribe/real_time/real_time_subscriber.h 56-66 RealTimeSubscriber::MessageWrapper::cleanup *)
Definition drop_wrapper (k : nat) (g : segment) (s : subscriber) : outcome (segment * subscriber) :=
  a ← must (sb_held s !! k);
  b ← release a (sg_slots g);
  Ok (sg_set_slots g b,
      {| sb_available := i64 (sb_available s + 1); sb_next_message_id := sb_next_message_id s;
         sb_held := delete k (sb_held s) |}).

(** * Creating the two ends *)
Inductive create_error : Type :=
| SystemError (code : Z)
| Errc (e : errc).

(** The parts of the environment a [create] meets: [shm] opens or creates the
    topic's segment and gives its size and contents, [polls] is what [read_at]
    sees, [rounds] what the search for an entry sees from [start] on, [process] the
    process that calls it.  [None]: it still waits. *)
Record environment : Type := {
  env_shm : Z -> expected (Z * segment) Z;
  env_polls : list (init_state * Z);
  env_start : Z;
  env_rounds : list ((Z -> Z * bool) * Z);
  env_process : process_data
}.

Definition one_second_ns : Z := 1000000000.

(* @source include/ipcpp/publish_subscribe/real_time/real_time_publisher.h 53-83 RealTimePublisher::create *)
Definition publisher_create (c : compiler) (sizeof_T : Z) (sp1 sp2 : bool) (o : options) (env : environment)
    : option (outcome (expected (publisher * segment) create_error)) :=
  match required_size_bytes c sizeof_T o with
  | Ok required =>
    match env_shm env required with
    | Unexpected e => Some (Ok (Unexpected (SystemError e)))
    | Expected (size, g) =>
      attached ← wait_initialized (env_polls env) 1000;
      match attached with
      | Expected _ => g1 ← Some (read_at c g); Some (g1' ← g1; Ok (Expected g1'))
      | Unexpected _ => Some (init_at c sizeof_T sp1 sp2 size o)
      end ≫= (fun (e_buffer : outcome (expected segment Z)) =>
      match e_buffer with
      | Throw x => Some (Throw x)
      | UB => Some UB
      | Ok (Unexpected e) => Some (Ok (Unexpected (SystemError e)))
      | Ok (Expected g1) =>
        entry ← get_new_publisher_entry (max_publishers (sg_options g1)) one_second_ns (env_start env) (env_rounds env);
        match entry with
        | Unexpected e => Some (Ok (Unexpected (Errc e)))
        | Expected idx =>
          let id := sg_next_publisher_id g1 in
          let g2 := {| sg_next_message_id := sg_next_message_id g1; sg_latest_published_idx := sg_latest_published_idx g1;
                       sg_state := sg_state g1; sg_next_publisher_id := u32 (id + 1);
                       sg_next_subscriber_id := sg_next_subscriber_id g1; sg_options := sg_options g1;
                       sg_publishers := sg_publishers g1; sg_subscribers := sg_subscribers g1; sg_slots := sg_slots g1 |} in
          Some (r ← publisher_construct c (env_process env) o g2 id idx; Ok (Expected r))
        end
      end)
    end
  | Throw x => Some (Throw x)
  | UB => Some UB
  end.

(** The subscriber comes with the entry whose lock it holds. *)
(* @source include/ipcpp/publish_subscribe/real_time/real_time_subscriber.h 97-125 RealTimeSubscriber::create *)
Definition subscriber_create (c : compiler) (env : environment)
    : option (outcome (expected (subscriber * Z * segment) create_error)) :=
  match env_shm env 0 with
  | Unexpected e => Some (Ok (Unexpected (SystemError e)))
  | Expected (size, g) =>
    attached ← wait_initialized (env_polls env) 1000;
    match attached with
    | Unexpected e => Some (Ok (Unexpected (SystemError e)))
    | Expected _ =>
      match read_at c g with
      | Throw x => Some (Throw x)
      | UB => Some UB
      | Ok g1 =>
        let g2 := {| sg_next_message_id := sg_next_message_id g1; sg_latest_published_idx := sg_latest_published_idx g1;
                     sg_state := sg_state g1; sg_next_publisher_id := sg_next_publisher_id g1;
                     sg_next_subscriber_id := u32 (sg_next_subscriber_id g1 + 1); sg_options := sg_options g1;
                     sg_publishers := sg_publishers g1; sg_subscribers := sg_subscribers g1; sg_slots := sg_slots g1 |} in
        entry ← get_new_subscriber_entry_idx (max_subscribers (sg_options g2)) one_second_ns (env_start env) (env_rounds env);
        match entry with
        | Unexpected e => Some (Ok (Unexpected (Errc e)))
        | Expected idx => Some (Ok (Expected (subscriber_construct (sg_options g2) (sg_next_message_id g2), idx, g2)))
        end
      end
    end
  end.

(** [await_get_message] and [await_message] poll [fetch_message]; the segments the
    polls see are given. *)
(* @source include/ipcpp/publish_subscribe/real_time/real_time_subscriber.h 156-165 RealTimeSubscriber::await_get_message *)
Fixpoint await_get_message (polls : list segment) (s : subscriber) : option (outcome (fetched * segment * subscriber)) :=
  match polls with
  | [] => None
  | g :: polls' =>
    match fetch_message g s with
    | Ok (NoMessage no_message_available, _, s1) => await_get_message polls' s1
    | r => Some r
    end
  end.

(* @source include/ipcpp/publish_subscribe/real_time/real_time_subscriber.h 171-177 RealTimeSubscriber::await_message *)
Fixpoint await_message (polls : list segment) (s : subscriber) : option (outcome (T * segment * subscriber)) :=
  match polls with
  | [] => None
  | g :: polls' =>
    match fetch_message g s with
    | Ok (Message v, g1, s1) => Some (Ok (v, g1, s1))
    | Ok (NoMessage _, _, s1) => await_message polls' s1
    | Throw e => Some (Throw e)
    | UB => Some UB
    end
  end.
End real_time.
Arguments message : clear implicits.
Arguments segment : clear implicits.
Arguments fetched : clear implicits.

(** * Reference counts *)
Section refcounts.
Context {T : Type}.
Implicit Types (b : list (message T)) (R : Z -> Z).

Definition bit (c : bool) : Z := if c then 1 else 0.

(** The value stored in a slot. *)
Definition val b (i : Z) : option T := m ← zlookup b i; rm_value m.

(** A slot with [r] references: free, or holding a value. *)
Definition slot_ok (r : Z) (m : message T) : Prop :=
  rm_refs m = r /\ 0 <= r < 2 ^ 62 /\
  if r =? 0 then rm_value m = None /\ rm_id m = invalid_id else is_Some (rm_value m) /\ rm_id m <> invalid_id.

Definition slots_ok (n : Z) R b : Prop :=
  zlen b = n /\ forall i, 0 <= i < n -> exists m, zlookup b i = Some m /\ slot_ok (R i) m.

Lemma slots_ok_ext n R R' b : (forall i, 0 <= i < n -> R' i = R i) -> slots_ok n R b -> slots_ok n R' b.
Proof.
  intros HR [Hn Hs]. split; [done|]. intros i Hi. destruct (Hs i Hi) as (m & Hm & Hok).
  exists m. rewrite HR by done. done.
Qed.

Lemma slots_ok_insert n R b i m r :
  slots_ok n R b -> 0 <= i < n -> slot_ok r m ->
  exists b', zinsert b i m = Some b' /\ slots_ok n (fun j => if j =? i then r else R j) b' /\
    (forall j, zlookup b' j = if j =? i then Some m else zlookup b j).
Proof.
  intros [Hn Hs] Hi Hok. rewrite zinsert_in by lia. eexists. split; [done|].
  assert (forall j, zlookup (<[Z.to_nat i := m]> b) j = if j =? i then Some m else zlookup b j) as Hl.
  { intros j. rewrite zlookup_insert by lia. case_decide; gcase; (done || lia). }
  split; [|done]. split; [by rewrite zlen_insert|]. intros j Hj. rewrite Hl. gcase; [eauto|by apply Hs].
Qed.

Lemma val_insert b b' i m :
  (forall j, zlookup b' j = if j =? i then Some m else zlookup b j) ->
  forall j, val b' j = if j =? i then rm_value m else val b j.
Proof. intros Hl j. unfold val. rewrite Hl. by destruct (j =? i). Qed.

(** Taking a reference to a slot that has a value. *)
Lemma acquire_unsafe_ok n R b i :
  slots_ok n R b -> 0 <= i < n -> 0 < R i -> R i + 1 < 2 ^ 62 ->
  exists b', acquire_unsafe i b = Ok (Some i, b') /\ slots_ok n (fun j => R j + bit (j =? i)) b' /\
    (forall j, val b' j = val b j).
Proof.
  intros Hok Hi Hpos Hb. pose proof Hok as [Hn Hs]. destruct (Hs i Hi) as (m & Hm & Hr & Hrb & Hv).
  destruct (Z.eqb_spec (R i) 0); [lia|].
  destruct (slots_ok_insert n R b i (rm_set_refs m (rm_refs m + 1)) (R i + 1) Hok Hi) as (b' & Hb' & Hok' & Hl).
  { split; [simpl; lia|]. split; [lia|]. gcase; [lia|done]. }
  exists b'. unfold acquire_unsafe. rewrite Hm. simpl. rewrite u64_small, Hb' by lia.
  split; [done|]. split.
  - eapply slots_ok_ext; [|done]. intros j _. unfold bit. simpl. destruct (Z.eqb_spec j i); [subst; lia|lia].
  - intros j. rewrite (val_insert _ _ _ _ Hl). unfold val. gcase; [|done]. subst. by rewrite Hm.
Qed.

(** Dropping a reference; only the last one clears the slot. *)
Lemma release_ok n R b i :
  slots_ok n R b -> 0 <= i < n -> 0 < R i ->
  exists b', release (Some i) b = Ok b' /\ slots_ok n (fun j => R j - bit (j =? i)) b' /\
    (forall j, j <> i \/ 1 < R i -> val b' j = val b j).
Proof.
  intros Hok Hi Hpos. pose proof Hok as [Hn Hs]. destruct (Hs i Hi) as (m & Hm & Hr & Hrb & Hv).
  destruct (Z.eqb_spec (R i) 0); [lia|].
  set (m' := if rm_refs m =? 1 then rm_reset (rm_set_refs m (rm_refs m - 1)) else rm_set_refs m (rm_refs m - 1)).
  destruct (slots_ok_insert n R b i m' (R i - 1) Hok Hi) as (b' & Hb' & Hok' & Hl).
  { unfold m'. rewrite Hr. destruct (Z.eqb_spec (R i) 1); (split; [simpl; lia|]; split; [lia|]); gcase; (done || lia). }
  exists b'. unfold release. rewrite Hm. simpl. rewrite u64_small by lia. fold m'. rewrite Hb'.
  split; [done|]. split.
  - eapply slots_ok_ext; [|done]. intros j _. unfold bit. simpl. destruct (Z.eqb_spec j i); [subst; lia|lia].
  - intros j Hj. rewrite (val_insert _ _ _ _ Hl). unfold val. gcase; [|done]. subst j. rewrite Hm.
    unfold m'. rewrite Hr. gcase; [lia|done].
Qed.

(** Storing a value in a free slot and taking the first reference to it. *)
Lemma emplace_acquire_ok n R b i g v m :
  slots_ok n R b -> 0 <= i < n -> zlookup b i = Some m -> rm_id m = invalid_id -> g <> invalid_id ->
  R i = 0 /\
  exists b1 b2, zinsert b i (rm_emplace g v m) = Some b1 /\ acquire_unsafe i b1 = Ok (Some i, b2) /\
    slots_ok n (fun j => R j + bit (j =? i)) b2 /\ (forall j, val b2 j = if j =? i then Some v else val b j).
Proof.
  intros Hok Hi Hm Hid Hg. pose proof Hok as [Hn Hs].
  destruct (Hs i Hi) as (m' & Hm' & Hr & Hrb & Hv). rewrite Hm in Hm'. injection Hm' as <-.
  destruct (Z.eqb_spec (R i) 0) as [H0|]; [|by destruct Hv].
  split; [done|]. rewrite zinsert_in by lia. do 2 eexists. split; [done|].
  unfold acquire_unsafe. rewrite zlookup_insert, decide_True by (done || lia). simpl.
  rewrite zinsert_in by (rewrite zlen_insert; lia). simpl. split; [done|].
  rewrite list_insert_insert_eq.
  destruct (slots_ok_insert n R b i (rm_set_refs (rm_emplace g v m) (u64 (rm_refs m + 1))) 1 Hok Hi) as (b' & Hb' & Hok' & Hl).
  { split; [simpl; rewrite Hr, H0; done|]. split; [lia|]. simpl. split; [eauto|done]. }
  rewrite zinsert_in in Hb' by lia. injection Hb' as <-. split.
  - eapply slots_ok_ext; [|done]. intros j _. unfold bit. simpl. destruct (Z.eqb_spec j i); [subst; lia|lia].
  - intros j. by rewrite (val_insert _ _ _ _ Hl).
Qed.

(** The free-slot search visits every slot of its area. *)
Lemma find_free_ok fuel : forall k (pb : publisher) b L,
  1 <= k <= 31 -> (pb_area pb).2 = 2 ^ k -> pb_wrap_around pb = 2 ^ k - 1 -> 0 <= L < 2 ^ 32 ->
  0 <= (pb_area pb).1 -> (pb_area pb).1 + 2 ^ k <= zlen b ->
  (exists d m, 0 <= d < Z.of_nat fuel /\ zlookup b ((pb_area pb).1 + (L + d) mod 2 ^ k) = Some m /\ rm_id m = invalid_id) ->
  exists idx L' m, find_free fuel pb b L = Ok (idx, L') /\ 0 <= idx < 2 ^ k /\ 0 <= L' < 2 ^ 32 /\
    zlookup b ((pb_area pb).1 + idx) = Some m /\ rm_id m = invalid_id.
Proof.
  induction fuel as [|fuel IH]; intros k pb b L Hk Hlen Hwrap HL Hlo Hhi (d & m & Hd & Hm & Hid); [lia|].
  assert (0 < 2 ^ k) by (apply Z.pow_pos_nonneg; lia).
  cbn [find_free]. rewrite Hwrap, Hlen.
  assert (Z.land L (2 ^ k - 1) = L mod 2 ^ k) as ->.
  { replace (2 ^ k - 1) with (Z.ones k) by (rewrite Z.ones_equiv; lia). apply Z.land_ones. lia. }
  pose proof (Z.mod_pos_bound L (2 ^ k) ltac:(lia)).
  unfold require. gcase; [|lia].
  destruct (zlookup_is_Some b ((pb_area pb).1 + L mod 2 ^ k)) as [m0 Hm0]; [lia|].
  rewrite Hm0. simpl. pose proof (wrap_range 32 (L + 1) ltac:(lia)).
  destruct (Z.eqb_spec (rm_id m0) invalid_id) as [Hid0|Hne].
  { eexists _, _, m0. split; [done|]. done. }
  apply (IH k); try done; try lia.
  assert (d <> 0) by (intros ->; rewrite Z.add_0_r, Hm0 in Hm; simplify_eq).
  exists (d - 1), m. split; [lia|]. split; [|done]. rewrite <- Hm. do 2 f_equal.
  unfold wrap. rewrite <- (Zplus_mod_idemp_l ((L + 1) mod 2 ^ 32)).
  rewrite Z.mod_mod_divide; [rewrite Zplus_mod_idemp_l; f_equal; lia|].
  exists (2 ^ (32 - k)). rewrite <- Z.pow_add_r by lia. f_equal. lia.
Qed.
End refcounts.

(** * The system: publishers and subscribers of one topic *)
Section system.
Context {T : Type}.

Record system : Type := {
  sy_segment : segment T;
  sy_publishers : list publisher;
  sy_subscribers : list subscriber
}.

Inductive event : Type :=
| EPublish (p : nat) (v : T)
| EFetch (j : nat)
| ERead (j k : nat)         (* subscriber j dereferences its k-th wrapper *)
| EDrop (j k : nat).        (* ... destroys it *)

Inductive reply : Type :=
| RDone
| RFetched (f : fetched T)
| RValue (v : T).

(** [fuel] bounds the search for a free slot. *)
Definition step (fuel : nat) (e : event) (y : system) : option (outcome (reply * system)) :=
  match e with
  | EPublish p v =>
    pb ← sy_publishers y !! p;
    Some ('(pb1, g1) ← publish fuel v pb (sy_segment y);
          Ok (RDone, {| sy_segment := g1; sy_publishers := <[p := pb1]> (sy_publishers y);
                        sy_subscribers := sy_subscribers y |}))
  | EFetch j =>
    s ← sy_subscribers y !! j;
    Some ('(r, g1, s1) ← fetch_message (sy_segment y) s;
          Ok (RFetched r, {| sy_segment := g1; sy_publishers := sy_publishers y;
                             sy_subscribers := <[j := s1]> (sy_subscribers y) |}))
  | ERead j k =>
    s ← sy_subscribers y !! j;
    a ← sb_held s !! k;
    Some (v ← access_deref a (sg_slots (sy_segment y)); Ok (RValue v, y))
  | EDrop j k =>
    s ← sy_subscribers y !! j;
    _ ← sb_held s !! k;
    Some ('(g1, s1) ← drop_wrapper k (sy_segment y) s;
          Ok (RDone, {| sy_segment := g1; sy_publishers := sy_publishers y;
                        sy_subscribers := <[j := s1]> (sy_subscribers y) |}))
  end.

Fixpoint run (fuel : nat) (evs : list event) (y : system) : option (outcome (list reply * system)) :=
  match evs with
  | [] => Some (Ok ([], y))
  | e :: evs' =>
    o ← step fuel e y;
    match o with
    | Ok (r, y1) => o' ← run fuel evs' y1; Some ('(rs, y2) ← o'; Ok (r :: rs, y2))
    | Throw x => Some (Throw x)
    | UB => Some UB
    end
  end.

(** ** The specification: a versioned register

    Publishing replaces the value and always succeeds; fetching returns the
    current value at most once per version; what a subscriber holds is its own
    copy, unaffected by everybody else. *)
Record register : Type := {
  rg_version : Z;
  rg_last : option T;
  rg_subs : list (Z * list T)        (* the version seen and the values held *)
}.

Definition spec_step (np : nat) (acquires : Z) (e : event) (x : register) : option (reply * register) :=
  match e with
  | EPublish p v =>
    if bool_decide (p < np)%nat
    then Some (RDone, {| rg_version := rg_version x + 1; rg_last := Some v; rg_subs := rg_subs x |})
    else None
  | EFetch j =>
    '(seen, held) ← rg_subs x !! j;
    if rg_version x =? seen then Some (RFetched (NoMessage no_message_available), x)
    else
      v ← rg_last x;
      let full := acquires <=? zlen held in
      Some (RFetched (if full then NoMessage invalid_seek else Message v),
            {| rg_version := rg_version x; rg_last := rg_last x;
               rg_subs := <[j := (rg_version x, if full then held else held ++ [v])]> (rg_subs x) |})
  | ERead j k =>
    '(seen, held) ← rg_subs x !! j;
    v ← held !! k;
    Some (RValue v, x)
  | EDrop j k =>
    '(seen, held) ← rg_subs x !! j;
    _ ← held !! k;
    Some (RDone, {| rg_version := rg_version x; rg_last := rg_last x;
                    rg_subs := <[j := (seen, delete k held)]> (rg_subs x) |})
  end.

Fixpoint spec_run (np : nat) (acquires : Z) (evs : list event) (x : register) : option (list reply * register) :=
  match evs with
  | [] => Some ([], x)
  | e :: evs' =>
    '(r, x1) ← spec_step np acquires e x;
    '(rs, x2) ← spec_run np acquires evs' x1;
    Some (r :: rs, x2)
  end.

(** ** The invariant *)
Definition at_slot (i : Z) (a : option Z) : bool := bool_decide (a = Some i).

(** References to slot [i]: one per publisher whose last message it is and one
    per wrapper. *)
Definition pub_refs (pubs : list publisher) (i : Z) : Z := count (fun p => at_slot i (pb_prev p)) pubs.
Definition sub_refs (subs : list subscriber) (i : Z) : Z := zsum (fun s => count (at_slot i) (sb_held s)) subs.
Definition refs_of (pubs : list publisher) (subs : list subscriber) (i : Z) : Z := pub_refs pubs i + sub_refs subs i.

(** Publisher number [p] works in area [p] of the buffer. *)
Definition pub_ok (k : Z) (p : nat) (pb : publisher) : Prop :=
  pb_entry_idx pb = Z.of_nat p /\ pb_buffer_offset pb = Z.of_nat p * 2 ^ k /\
  pb_area pb = (Z.of_nat p * 2 ^ k, 2 ^ k) /\ pb_wrap_around pb = 2 ^ k - 1 /\
  forall i, pb_prev pb = Some i -> Z.of_nat p * 2 ^ k <= i < Z.of_nat p * 2 ^ k + 2 ^ k.

(** A wrapper refers to a slot that holds its value. *)
Definition held_ok (b : list (message T)) (a : option Z) (v : T) : Prop :=
  exists i, a = Some i /\ 0 <= i < zlen b /\ val b i = Some v.

(** A subscriber agrees with its copy in the register. *)
Definition sub_ok (acquires ver : Z) (b : list (message T)) (s : subscriber) (x : Z * list T) : Prop :=
  0 <= x.1 <= ver /\ sb_next_message_id s = u64 (x.1 - 1) /\
  sb_available s = acquires - zlen (sb_held s) /\ 0 <= sb_available s /\
  Forall2 (held_ok b) (sb_held s) x.2.

Record sys_inv (k acquires : Z) (y : system) (x : register) : Prop := {
  yi_k : 1 <= k <= 31;
  yi_size : 2 ^ k * zlen (sy_publishers y) < 2 ^ 32;
  yi_acquires : 0 <= acquires < 2 ^ 32;
  yi_pool : zlen (sy_subscribers y) * acquires + 2 <= 2 ^ k;
  yi_nsubs : zlen (sy_subscribers y) < 2 ^ 32;
  yi_slots : slots_ok (2 ^ k * zlen (sy_publishers y)) (refs_of (sy_publishers y) (sy_subscribers y))
               (sg_slots (sy_segment y));
  yi_pubs : forall p pb, sy_publishers y !! p = Some pb -> pub_ok k p pb;
  yi_entries : forall p, (p < length (sy_publishers y))%nat -> exists e,
    zlookup (sg_publishers (sy_segment y)) (Z.of_nat p) = Some e /\ 0 <= pe_next_local e < 2 ^ 32;
  yi_version : 0 <= rg_version x < 2 ^ 63 /\ sg_next_message_id (sy_segment y) = u64 (rg_version x - 1);
  yi_last : 0 < rg_version x -> exists p pb v,
    sy_publishers y !! p = Some pb /\ pb_prev pb = Some (sg_latest_published_idx (sy_segment y)) /\
    val (sg_slots (sy_segment y)) (sg_latest_published_idx (sy_segment y)) = Some v /\ rg_last x = Some v;
  yi_subs : Forall2 (sub_ok acquires (rg_version x) (sg_slots (sy_segment y))) (sy_subscribers y) (rg_subs x)
}.

(** ** Counting references *)
Lemma at_slot_true i a : at_slot i a = true <-> a = Some i.
Proof. apply bool_decide_eq_true. Qed.

Lemma sub_refs_nonneg subs i : 0 <= sub_refs subs i.
Proof. apply zsum_nonneg. intros. apply count_nonneg. Qed.

Lemma pub_refs_pos pubs p pb i : pubs !! p = Some pb -> pb_prev pb = Some i -> 1 <= pub_refs pubs i.
Proof. intros Hp Hi. eapply count_lookup; [done|]. by apply at_slot_true. Qed.

Lemma sub_refs_pos subs j s h i : subs !! j = Some s -> sb_held s !! h = Some (Some i) -> 1 <= sub_refs subs i.
Proof.
  intros Hj Hh. etrans; [|eapply (zsum_ge _ _ j s); [intros; apply count_nonneg|done]].
  eapply count_lookup; [done|]. by apply at_slot_true.
Qed.

Lemma count_delete {A} (P : A -> bool) (l : list A) i x : l !! i = Some x ->
  count P (delete i l) = count P l - (if P x then 1 else 0).
Proof.
  revert i. induction l as [|a l IH]; intros [|i]; simpl; intros H; try done.
  - injection H as ->. lia.
  - rewrite (IH _ H). lia.
Qed.

(** A handle refers to at most one slot of an area. *)
Lemma area_handle lo n a : 0 <= zsum (fun i => bit (at_slot i a)) (seqZ lo n) <= 1.
Proof.
  destruct a as [x|].
  - rewrite (zsum_ext _ (fun i => if i =? x then 1 else 0)); [apply zsum_seqZ_eqb|].
    intros i _. unfold at_slot, bit. gcase; [subst; by rewrite bool_decide_true|].
    rewrite bool_decide_false by congruence. done.
  - rewrite (zsum_ext _ (fun _ => 0)) by done. rewrite zsum_const. lia.
Qed.

(** The slots of one area are referenced by its publisher once and by the
    subscribers at most [acquires] times each. *)
Lemma area_refs k acquires pubs subs p :
  (forall p pb, pubs !! p = Some pb -> pub_ok k p pb) -> 0 < 2 ^ k ->
  (forall s, s ∈ subs -> zlen (sb_held s) <= acquires) ->
  zsum (refs_of pubs subs) (seqZ (Z.of_nat p * 2 ^ k) (2 ^ k)) <= 1 + acquires * zlen subs.
Proof.
  intros Hp Hk Hs. unfold refs_of. rewrite zsum_add.
  set (area := seqZ (Z.of_nat p * 2 ^ k) (2 ^ k)).
  assert (zsum (pub_refs pubs) area <= 1) as H1.
  { rewrite (zsum_ext _ (fun i => zsum (fun pb => bit (at_slot i (pb_prev pb))) pubs))
      by (intros; apply count_zsum).
    rewrite zsum_swap. apply (zsum_single _ _ p).
    - intros j pb _. apply area_handle.
    - intros j pb Hj Hne. destruct (Hp j pb Hj) as (_ & _ & _ & _ & Hprev).
      rewrite (zsum_ext _ (fun _ => 0)); [apply (zsum_const 0)|].
      intros i Hi%elem_of_seqZ. unfold at_slot, bit. case_bool_decide as Heq; [|done].
      specialize (Hprev i Heq). exfalso. assert (Z.of_nat j = Z.of_nat p) by nia. lia. }
  assert (zsum (sub_refs subs) area <= acquires * zlen subs) as H2.
  { unfold sub_refs. rewrite zsum_swap. rewrite <- zsum_const. apply zsum_le. intros s Hin.
    etrans; [|by apply (Hs s)].
    rewrite (zsum_ext _ (fun i => zsum (fun a => bit (at_slot i a)) (sb_held s))) by (intros; apply count_zsum).
    rewrite zsum_swap. etrans; [apply (zsum_le _ (fun _ => 1)); intros; apply area_handle|].
    rewrite zsum_const. lia. }
  lia.
Qed.

(** So a publisher always has a free slot. *)
Lemma free_slot k acquires y x p :
  sys_inv k acquires y x -> (p < length (sy_publishers y))%nat ->
  exists i m, Z.of_nat p * 2 ^ k <= i < Z.of_nat p * 2 ^ k + 2 ^ k /\
    zlookup (sg_slots (sy_segment y)) i = Some m /\ rm_id m = invalid_id.
Proof.
  intros [Hk Hsize Hacq Hpool Hns Hslots Hpubs _ _ _ Hsubs] Hp.
  assert (0 < 2 ^ k) by (apply Z.pow_pos_nonneg; lia).
  assert (forall s, s ∈ sy_subscribers y -> zlen (sb_held s) <= acquires) as Hheld.
  { intros s [j Hj]%list_elem_of_lookup_1. destruct (Forall2_lookup_l _ _ _ _ _ Hsubs Hj) as (xs & _ & Hok).
    destruct Hok as (_ & _ & Ha & Hnn & _). lia. }
  pose proof (area_refs k acquires _ _ p Hpubs ltac:(done) Hheld) as Hsum.
  destruct (zsum_exists_zero (refs_of (sy_publishers y) (sy_subscribers y)) (seqZ (Z.of_nat p * 2 ^ k) (2 ^ k)))
    as (i & Hi & H0).
  - intros i _. pose proof (sub_refs_nonneg (sy_subscribers y) i).
    pose proof (count_nonneg (fun p => at_slot i (pb_prev p)) (sy_publishers y)). unfold refs_of, pub_refs. lia.
  - unfold zlen at 1. rewrite length_seqZ. lia.
  - apply elem_of_seqZ in Hi. destruct Hslots as [Hn Hs].
    assert (0 <= i < 2 ^ k * zlen (sy_publishers y)) as Hr by (unfold zlen; nia).
    destruct (Hs i Hr) as (m & Hm & _ & _ & Hfree). rewrite H0 in Hfree.
    exists i, m. split_and!; [lia..|done|apply Hfree].
Qed.

Lemma refs_bound k acquires y x i :
  sys_inv k acquires y x ->
  0 <= pub_refs (sy_publishers y) i /\ 0 <= sub_refs (sy_subscribers y) i /\
  refs_of (sy_publishers y) (sy_subscribers y) i + 2 < 2 ^ 62.
Proof.
  intros [Hk Hsize Hacq Hpool Hns Hslots Hpubs _ _ _ Hsubs].
  pose proof (sub_refs_nonneg (sy_subscribers y) i).
  pose proof (count_nonneg (fun p => at_slot i (pb_prev p)) (sy_publishers y)) as H1.
  pose proof (count_le_length (fun p => at_slot i (pb_prev p)) (sy_publishers y)) as H2.
  assert (sub_refs (sy_subscribers y) i <= acquires * zlen (sy_subscribers y)) as H3.
  { unfold sub_refs. rewrite <- zsum_const. apply zsum_le. intros s [j Hj]%list_elem_of_lookup_1.
    destruct (Forall2_lookup_l _ _ _ _ _ Hsubs Hj) as (xs & _ & _ & _ & Ha & Hnn & _).
    pose proof (count_le_length (at_slot i) (sb_held s)). lia. }
  assert (2 ^ k <= 2 ^ 31) by (apply Z.pow_le_mono_r; lia).
  assert (2 ^ 1 <= 2 ^ k) by (apply Z.pow_le_mono_r; lia).
  assert (zlen (sy_publishers y) < 2 ^ 32) by nia.
  unfold refs_of, pub_refs in *. split_and!; lia.
Qed.

Lemma release_ok' n R (b : list (message T)) i :
  slots_ok n R b -> 0 <= i < n -> 0 < R i ->
  exists b', release (Some i) b = Ok b' /\ slots_ok n (fun j => R j - bit (j =? i)) b' /\
    (forall j, 0 < R j - bit (j =? i) -> val b' j = val b j).
Proof.
  intros Hok Hi Hpos. destruct (release_ok n R b i Hok Hi Hpos) as (b' & Hr & Hok' & Hv).
  exists b'. split_and!; [done..|]. intros j Hj. apply Hv. unfold bit in Hj.
  destruct (Z.eqb_spec j i); [subst; right; lia|by left].
Qed.

Lemma held_keep b b' hs vs :
  zlen b' = zlen b -> (forall h i, hs !! h = Some (Some i) -> val b' i = val b i) ->
  Forall2 (held_ok b) hs vs -> Forall2 (held_ok b') hs vs.
Proof.
  intros Hlen Hval H. apply Forall2_same_length_lookup. split; [by eapply Forall2_length|].
  intros h a v Ha Hv. destruct (Forall2_lookup_lr _ _ _ _ _ _ H Ha Hv) as (i & -> & Hi & Hvi).
  exists i. rewrite Hlen, (Hval h i Ha). done.
Qed.

Lemma subs_keep acquires ver ver' b b' subs xs :
  ver <= ver' -> zlen b' = zlen b -> (forall i, 1 <= sub_refs subs i -> val b' i = val b i) ->
  Forall2 (sub_ok acquires ver b) subs xs -> Forall2 (sub_ok acquires ver' b') subs xs.
Proof.
  intros Hver Hlen Hval Hsubs. apply Forall2_same_length_lookup. split; [by eapply Forall2_length|].
  intros j s x Hs Hx. destruct (Forall2_lookup_lr _ _ _ _ _ _ Hsubs Hs Hx) as (H1 & H2 & H3 & H4 & H5).
  split_and!; [lia|lia|done..|].
  eapply held_keep; [done| |done]. intros h i Ha. apply Hval. by eapply sub_refs_pos.
Qed.

Lemma u64_pred_inj a c : 0 <= a < 2 ^ 63 -> 0 <= c < 2 ^ 63 -> (u64 (a - 1) =? u64 (c - 1)) = (a =? c).
Proof.
  intros Ha Hc.
  assert (forall a, 0 <= a < 2 ^ 63 -> u64 (a - 1) = if a =? 0 then 2 ^ 64 - 1 else a - 1) as H.
  { intros z Hz. gcase; [subst; done|apply u64_small; lia]. }
  rewrite !H by done. destruct (Z.eqb_spec a 0), (Z.eqb_spec c 0), (Z.eqb_spec a c); try (apply Z.eqb_eq; lia); apply Z.eqb_neq; lia.
Qed.

(** ** The events *)
Lemma refs_publish pubs subs p pb pb' i :
  pubs !! p = Some pb ->
  refs_of (<[p := pb']> pubs) subs i =
    refs_of pubs subs i - bit (at_slot i (pb_prev pb)) + bit (at_slot i (pb_prev pb')).
Proof. intros Hp. unfold refs_of, pub_refs. rewrite (count_insert _ _ _ _ _ Hp). unfold bit. lia. Qed.

Lemma bit_at_slot i j : bit (at_slot j (Some i)) = bit (j =? i).
Proof.
  unfold at_slot, bit. gcase; [subst; by rewrite bool_decide_true|].
  rewrite bool_decide_false by congruence. done.
Qed.

(** Dropping the handle a publisher keeps; without one nothing happens. *)
Lemma release_prev_ok n R (b : list (message T)) a :
  slots_ok n R b -> (forall i, a = Some i -> 0 <= i < n /\ 0 < R i) ->
  exists b', release a b = Ok b' /\ slots_ok n (fun j => R j - bit (at_slot j a)) b' /\
    (forall j, 0 < R j - bit (at_slot j a) -> val b' j = val b j).
Proof.
  intros Hok Ha. destruct a as [i|].
  - destruct (Ha i eq_refl) as [Hi Hpos]. destruct (release_ok' n R b i Hok Hi Hpos) as (b' & Hr & Hok' & Hv).
    exists b'. split; [done|]. split.
    + eapply slots_ok_ext; [|done]. intros j _. by rewrite bit_at_slot.
    + intros j. rewrite bit_at_slot. apply Hv.
  - exists b. split; [done|]. split; [|done]. eapply slots_ok_ext; [|done]. intros j _. unfold bit, at_slot. simpl. lia.
Qed.

(** [publish] on the slots of the segment: the message is put into a slot of the publisher's
    area that nobody refers to, and the publisher's reference moves there. *)
Lemma publish_slots_ok n R k p pb (g : segment T) v e :
  1 <= k <= 31 -> Z.of_nat p * 2 ^ k + 2 ^ k <= n -> n < 2 ^ 32 -> slots_ok n R (sg_slots g) -> pub_ok k p pb ->
  zlookup (sg_publishers g) (Z.of_nat p) = Some e -> 0 <= pe_next_local e < 2 ^ 32 ->
  (exists i m, Z.of_nat p * 2 ^ k <= i < Z.of_nat p * 2 ^ k + 2 ^ k /\ zlookup (sg_slots g) i = Some m /\ rm_id m = invalid_id) ->
  (forall i, pb_prev pb = Some i -> 0 <= i < n /\ 0 < R i) ->
  exists pb' g' i e', publish (Z.to_nat (2 ^ k)) v pb g = Ok (pb', g') /\ pub_ok k p pb' /\ pb_prev pb' = Some i /\
    sg_latest_published_idx g' = i /\ sg_next_message_id g' = u64 (sg_next_message_id g + 1) /\ R i = 0 /\
    slots_ok n (fun j => R j + bit (j =? i) - bit (at_slot j (pb_prev pb))) (sg_slots g') /\
    (forall j, 0 < R j + bit (j =? i) - bit (at_slot j (pb_prev pb)) ->
      val (sg_slots g') j = if j =? i then Some v else val (sg_slots g) j) /\
    0 <= pe_next_local e' < 2 ^ 32 /\ sg_publishers g' = <[p := e']> (sg_publishers g).
Proof.
  intros Hk Harea Hn Hslots (He & Hoff & Har & Hwrap & Hprev) Hle Hloc (i0 & m0 & Hi0 & Hm0 & Hid0) Hprev1.
  assert (0 < 2 ^ k) as Hpos by (apply Z.pow_pos_nonneg; lia). pose proof (proj1 Hslots) as Hzlen.
  destruct (find_free_ok (Z.to_nat (2 ^ k)) k pb (sg_slots g) (pe_next_local e))
    as (idx & L' & m & Hff & Hidx & HL' & Hm & Hid); rewrite ?Har; try done; simpl; try lia.
  { exists ((i0 - Z.of_nat p * 2 ^ k - pe_next_local e) mod 2 ^ k), m0.
    pose proof (Z.mod_pos_bound (i0 - Z.of_nat p * 2 ^ k - pe_next_local e) (2 ^ k) ltac:(lia)).
    split; [lia|]. split; [|done]. rewrite <- Hm0. f_equal. rewrite Zplus_mod_idemp_r.
    rewrite Z.mod_small; lia. }
  rewrite Har in Hm. simpl in Hm. set (i := Z.of_nat p * 2 ^ k + idx) in *.
  assert (u64 (pb_buffer_offset pb + idx) = i) as Hglobal by (rewrite Hoff; apply u64_small; lia).
  destruct (emplace_acquire_ok _ _ _ i i v m Hslots ltac:(lia) Hm Hid) as (HR0 & b1 & b2 & Hb1 & Hb2 & Hok2 & Hv2).
  { unfold invalid_id, umax. lia. }
  destruct (release_prev_ok _ _ _ (pb_prev pb) Hok2) as (b3 & Hb3 & Hok3 & Hv3).
  { intros i1 Hi1. destruct (Hprev1 i1 Hi1). split; [done|]. unfold bit. destruct (i1 =? i); lia. }
  unfold publish, publish_notify. rewrite He, Hle. simpl. rewrite Hff. simpl.
  pose proof (zlookup_lt _ _ _ Hle). rewrite zinsert_in by done. simpl.
  rewrite Har. simpl. fold i. rewrite Hm. simpl. rewrite Hglobal, Hb1. simpl.
  unfold publish_finish. rewrite Har. simpl. fold i. rewrite Hb2. simpl.
  unfold access_assign. rewrite Hb3. simpl. rewrite Nat2Z.id. eexists _, _, i, _. split; [done|].
  split. { split_and!; try done. simpl. intros ? [= <-]. lia. }
  do 4 (split; [done|]). split; [done|]. split; [|split; [|reflexivity]; done]. intros j Hj. simpl. by rewrite Hv3, Hv2.
Qed.

Lemma publish_ok k acquires y x p pb v :
  sys_inv k acquires y x -> sy_publishers y !! p = Some pb ->
  exists pb' g' i, publish (Z.to_nat (2 ^ k)) v pb (sy_segment y) = Ok (pb', g') /\
    pub_ok k p pb' /\ pb_prev pb' = Some i /\ sg_latest_published_idx g' = i /\
    sg_next_message_id g' = u64 (sg_next_message_id (sy_segment y) + 1) /\
    val (sg_slots g') i = Some v /\
    slots_ok (2 ^ k * zlen (sy_publishers y)) (refs_of (<[p := pb']> (sy_publishers y)) (sy_subscribers y)) (sg_slots g') /\
    (forall j, 1 <= sub_refs (sy_subscribers y) j -> val (sg_slots g') j = val (sg_slots (sy_segment y)) j) /\
    (forall q, (q < length (sy_publishers y))%nat -> exists e,
      zlookup (sg_publishers g') (Z.of_nat q) = Some e /\ 0 <= pe_next_local e < 2 ^ 32).
Proof.
  intros Hinv Hpb. pose proof Hinv as [Hk Hsize Hacq Hpool Hns Hslots Hpubs Hent _ _ Hsubs].
  pose proof (lookup_lt_Some _ _ _ Hpb) as Hplt. pose proof (Hpubs p pb Hpb) as Hpub.
  assert (Z.of_nat p * 2 ^ k + 2 ^ k <= 2 ^ k * zlen (sy_publishers y)) as Harea.
  { assert (0 < 2 ^ k) by (apply Z.pow_pos_nonneg; lia). unfold zlen; nia. }
  destruct (Hent p Hplt) as (e & Hle & Hloc).
  assert (forall j, bit (at_slot j (pb_prev pb)) <= pub_refs (sy_publishers y) j) as Hle1.
  { intros j. unfold bit. destruct (at_slot j (pb_prev pb)) eqn:Hat; [|by destruct (refs_bound k acquires y x j Hinv)].
    apply at_slot_true in Hat. by eapply pub_refs_pos. }
  destruct (publish_slots_ok _ _ k p pb (sy_segment y) v e Hk Harea Hsize Hslots Hpub Hle Hloc)
    as (pb' & g' & i & e' & Hrun & Hpub' & Hprev' & Hlat & Hnext & HR0 & Hok & Hv & Hloc' & Hents).
  { by eapply free_slot. }
  { intros i Hi. destruct Hpub as (_ & _ & _ & _ & Hr). specialize (Hr i Hi). split; [lia|].
    pose proof (pub_refs_pos _ _ _ _ Hpb Hi). pose proof (sub_refs_nonneg (sy_subscribers y) i). unfold refs_of. lia. }
  exists pb', g', i. split_and!; try done.
  - rewrite Hv; rewrite Z.eqb_refl; [done|]. destruct (refs_bound k acquires y x i Hinv) as (? & ? & _).
    specialize (Hle1 i). unfold refs_of in *. simpl. lia.
  - eapply slots_ok_ext; [|done]. intros j _. rewrite (refs_publish _ _ _ _ _ _ Hpb), Hprev', bit_at_slot. lia.
  - intros j Hj. destruct (refs_bound k acquires y x j Hinv) as (? & ? & _). specialize (Hle1 j). unfold refs_of in *.
    rewrite Hv; [|unfold bit in *; destruct (j =? i); lia]. destruct (Z.eqb_spec j i) as [->|]; [lia|done].
  - intros q Hq. rewrite Hents, zlookup_nat, list_lookup_insert. case_decide as Hqp.
    + by exists e'.
    + rewrite <- zlookup_nat. by apply Hent.
Qed.

Lemma rt_sim_publish k acquires y x p v r x' :
  sys_inv k acquires y x -> rg_version x < 2 ^ 62 ->
  spec_step (length (sy_publishers y)) acquires (EPublish p v) x = Some (r, x') ->
  exists y', step (Z.to_nat (2 ^ k)) (EPublish p v) y = Some (Ok (r, y')) /\ sys_inv k acquires y' x' /\
    length (sy_publishers y') = length (sy_publishers y).
Proof.
  intros Hinv Hver Hspec. cbn [spec_step] in Hspec. case_bool_decide as Hp; [|done].
  injection Hspec as <- <-.
  destruct (lookup_lt_is_Some_2 _ _ Hp) as [pb Hpb].
  destruct (publish_ok k acquires y x p pb v Hinv Hpb)
    as (pb' & g' & i & Hpub & Hok & Hprev & Hlat & Hnext & Hval & Hslots & Hkeep & Hent).
  cbn [step]. rewrite Hpb. simpl. rewrite Hpub. simpl. eexists. split; [done|].
  destruct Hinv. split; [|simpl; by rewrite length_insert].
  split; simpl; rewrite ?zlen_insert; try done.
  - intros q pb1 Hq. destruct (decide (p = q)) as [<-|Hne].
    + rewrite list_lookup_insert_eq in Hq by done. by simplify_eq.
    + rewrite list_lookup_insert_ne in Hq by done. by apply yi_pubs0.
  - intros q Hq. rewrite length_insert in Hq. by apply Hent.
  - split; [lia|]. rewrite Hnext, (proj2 yi_version0). unfold wrap.
    rewrite Zplus_mod_idemp_l. f_equal. lia.
  - intros _. exists p, pb', v. rewrite Hlat. split; [by apply list_lookup_insert_eq|]. done.
  - eapply subs_keep; [| | |done]; [lia|by rewrite (proj1 Hslots), (proj1 yi_slots0)|done].
Qed.

(** What a subscriber holds is referenced, and its value is the one it fetched. *)
Lemma held_slot k acquires y x j s sx h a :
  sys_inv k acquires y x -> sy_subscribers y !! j = Some s -> rg_subs x !! j = Some sx ->
  sb_held s !! h = Some a -> exists i v, a = Some i /\ sx.2 !! h = Some v /\
    val (sg_slots (sy_segment y)) i = Some v /\ 0 <= i < 2 ^ k * zlen (sy_publishers y) /\
    1 <= sub_refs (sy_subscribers y) i.
Proof.
  intros [] Hj Hx Hh. destruct (Forall2_lookup_lr _ _ _ _ _ _ yi_subs0 Hj Hx) as (_ & _ & _ & _ & H5).
  destruct (Forall2_lookup_l _ _ _ _ _ H5 Hh) as (v & Hv & i & -> & Hi & Hval).
  exists i, v. rewrite <- (proj1 yi_slots0). split_and!; try done; try lia. by eapply sub_refs_pos.
Qed.

Lemma refs_sub_insert pubs subs j s s' i :
  subs !! j = Some s ->
  refs_of pubs (<[j := s']> subs) i =
    refs_of pubs subs i - count (at_slot i) (sb_held s) + count (at_slot i) (sb_held s').
Proof. intros Hj. unfold refs_of, sub_refs. rewrite (zsum_insert _ _ _ _ _ Hj). lia. Qed.

(** Rebuilding the invariant after a step of one subscriber. *)
Lemma sys_inv_sub k acquires y x j s s' sx b' :
  sys_inv k acquires y x -> sy_subscribers y !! j = Some s ->
  slots_ok (2 ^ k * zlen (sy_publishers y)) (refs_of (sy_publishers y) (<[j := s']> (sy_subscribers y))) b' ->
  (forall i, 1 <= refs_of (sy_publishers y) (<[j := s']> (sy_subscribers y)) i ->
     1 <= refs_of (sy_publishers y) (sy_subscribers y) i ->
     val b' i = val (sg_slots (sy_segment y)) i) ->
  (forall i, 1 <= sub_refs (<[j := s']> (sy_subscribers y)) i -> 
     1 <= refs_of (sy_publishers y) (sy_subscribers y) i) ->
  sub_ok acquires (rg_version x) b' s' sx ->
  sys_inv k acquires
    {| sy_segment := sg_set_slots (sy_segment y) b'; sy_publishers := sy_publishers y;
       sy_subscribers := <[j := s']> (sy_subscribers y) |}
    {| rg_version := rg_version x; rg_last := rg_last x; rg_subs := <[j := sx]> (rg_subs x) |}.
Proof.
  intros Hinv Hj Hslots Hkeep Hold Hs'. pose proof Hinv as [].
  split; simpl; rewrite ?zlen_insert; try done.
  - intros Hv. destruct (yi_last0 Hv) as (p & pb & v & Hp & Hprev & Hval & Hlast).
    exists p, pb, v. split_and!; try done. rewrite <- Hval. 
    pose proof (pub_refs_pos _ _ _ _ Hp Hprev).
    apply Hkeep; unfold refs_of; [pose proof (sub_refs_nonneg (<[j := s']> (sy_subscribers y)) (sg_latest_published_idx (sy_segment y)))
                                 |pose proof (sub_refs_nonneg (sy_subscribers y) (sg_latest_published_idx (sy_segment y)))]; lia.
  - apply Forall2_same_length_lookup. split; [by rewrite !length_insert; eapply Forall2_length|].
    intros j' t tx Ht Htx. destruct (decide (j = j')) as [<-|Hne].
    + rewrite list_lookup_insert_eq in Ht by (by eapply lookup_lt_Some).
      rewrite list_lookup_insert_eq in Htx
        by (rewrite <- (Forall2_length _ _ _ yi_subs0); by eapply lookup_lt_Some).
      by simplify_eq.
    + pose proof Ht as Ht'. rewrite list_lookup_insert_ne in Ht by done.
      rewrite list_lookup_insert_ne in Htx by done.
      destruct (Forall2_lookup_lr _ _ _ _ _ _ yi_subs0 Ht Htx) as (H1 & H2 & H3 & H4 & H5).
      split_and!; [lia|lia|done..|].
      eapply held_keep; [by rewrite (proj1 Hslots), (proj1 yi_slots0)| |done].
      intros h i Ha. rewrite Hkeep; [done| |apply Hold]; pose proof (sub_refs_pos _ _ _ _ _ Ht' Ha);
        pose proof (count_nonneg (fun p => at_slot i (pb_prev p)) (sy_publishers y)); unfold refs_of, pub_refs; lia.
Qed.

(** A new message seen by a subscriber is in the slot of its publisher. *)
Lemma latest_slot k acquires y x :
  sys_inv k acquires y x -> 0 < rg_version x ->
  exists v, rg_last x = Some v /\ val (sg_slots (sy_segment y)) (sg_latest_published_idx (sy_segment y)) = Some v /\
    0 <= sg_latest_published_idx (sy_segment y) < 2 ^ k * zlen (sy_publishers y) /\
    1 <= refs_of (sy_publishers y) (sy_subscribers y) (sg_latest_published_idx (sy_segment y)).
Proof.
  intros [] Hv. destruct (yi_last0 Hv) as (p & pb & v & Hp & Hprev & Hval & Hlast).
  exists v. pose proof (pub_refs_pos _ _ _ _ Hp Hprev). pose proof (sub_refs_nonneg (sy_subscribers y) (sg_latest_published_idx (sy_segment y))).
  destruct (yi_pubs0 p pb Hp) as (_ & _ & _ & _ & Hr). specialize (Hr _ Hprev).
  pose proof (lookup_lt_Some _ _ _ Hp). split_and!; try done; unfold refs_of; try lia.
  unfold zlen. assert (0 < 2 ^ k) by (apply Z.pow_pos_nonneg; lia). nia.
Qed.

Lemma access_val (b : list (message T)) i v :
  val b i = Some v -> access_bool (Some i) b = Ok true /\ access_deref (Some i) b = Ok v.
Proof.
  unfold val, access_bool, access_deref. simpl. destruct (zlookup b i); simpl; [|done].
  intros ->. rewrite bool_decide_true by eauto. done.
Qed.

(** A subscriber that has no wrapper left only moves on to the latest message. *)
Lemma sys_inv_skip k acquires y x j s sx b' :
  sys_inv k acquires y x -> sy_subscribers y !! j = Some s -> sub_ok acquires (rg_version x) (sg_slots (sy_segment y)) s sx ->
  slots_ok (2 ^ k * zlen (sy_publishers y)) (refs_of (sy_publishers y) (sy_subscribers y)) b' ->
  (forall i, 1 <= refs_of (sy_publishers y) (sy_subscribers y) i -> val b' i = val (sg_slots (sy_segment y)) i) ->
  sys_inv k acquires
    {| sy_segment := sg_set_slots (sy_segment y) b'; sy_publishers := sy_publishers y;
       sy_subscribers := <[j := {| sb_available := sb_available s; sb_next_message_id := u64 (rg_version x - 1); sb_held := sb_held s |}]> (sy_subscribers y) |}
    {| rg_version := rg_version x; rg_last := rg_last x; rg_subs := <[j := (rg_version x, sx.2)]> (rg_subs x) |}.
Proof.
  intros Hinv Hs (H1 & H2 & H3 & H4 & H5) Hok Hv. pose proof Hinv as [].
  set (s' := {| sb_available := _; sb_next_message_id := _; sb_held := _ |}).
  assert (forall l, refs_of (sy_publishers y) (<[j := s']> (sy_subscribers y)) l =
                    refs_of (sy_publishers y) (sy_subscribers y) l) as Hrefs.
  { intros l. rewrite (refs_sub_insert _ _ _ _ _ _ Hs). simpl. lia. }
  apply (sys_inv_sub k acquires y x j s); try done.
  - eapply slots_ok_ext; [|done]. intros l _. by rewrite Hrefs.
  - intros l _ Hl. by apply Hv.
  - intros l Hl. rewrite <- Hrefs. unfold refs_of.
    pose proof (count_nonneg (fun p => at_slot l (pb_prev p)) (sy_publishers y)). unfold pub_refs. lia.
  - split_and!; simpl; [lia|lia|done|lia|lia|].
    eapply held_keep; [by rewrite (proj1 Hok), (proj1 yi_slots0)| |done].
    intros h l Hh. pose proof (sub_refs_pos _ _ _ _ _ Hs Hh). pose proof (refs_bound k acquires y x l Hinv) as (? & ? & _).
    apply Hv. unfold refs_of. lia.
Qed.

(** A subscriber that has one left takes a reference to the latest message. *)
Lemma sys_inv_take k acquires y x j s sx i v b' :
  sys_inv k acquires y x -> sy_subscribers y !! j = Some s -> sub_ok acquires (rg_version x) (sg_slots (sy_segment y)) s sx ->
  0 <= i < 2 ^ k * zlen (sy_publishers y) -> 1 <= refs_of (sy_publishers y) (sy_subscribers y) i ->
  val (sg_slots (sy_segment y)) i = Some v -> zlen (sb_held s) < acquires ->
  slots_ok (2 ^ k * zlen (sy_publishers y)) (fun l => refs_of (sy_publishers y) (sy_subscribers y) l + bit (l =? i)) b' ->
  (forall l, val b' l = val (sg_slots (sy_segment y)) l) ->
  sys_inv k acquires
    {| sy_segment := sg_set_slots (sy_segment y) b'; sy_publishers := sy_publishers y;
       sy_subscribers := <[j := {| sb_available := i64 (sb_available s - 1); sb_next_message_id := u64 (rg_version x - 1);
                                   sb_held := sb_held s ++ [Some i] |}]> (sy_subscribers y) |}
    {| rg_version := rg_version x; rg_last := rg_last x; rg_subs := <[j := (rg_version x, sx.2 ++ [v])]> (rg_subs x) |}.
Proof.
  intros Hinv Hs (H1 & H2 & H3 & H4 & H5) Hr Href Hval Hroom Hok Hv. pose proof Hinv as [].
  set (s' := {| sb_available := _; sb_next_message_id := _; sb_held := _ |}).
  assert (forall l, refs_of (sy_publishers y) (<[j := s']> (sy_subscribers y)) l =
                    refs_of (sy_publishers y) (sy_subscribers y) l + bit (l =? i)) as Hrefs.
  { intros l. rewrite (refs_sub_insert _ _ _ _ _ _ Hs). simpl. rewrite count_app. simpl.
    rewrite <- bit_at_slot. unfold bit. lia. }
  pose proof (zlen_nonneg (sb_held s)) as Hnn.
  apply (sys_inv_sub k acquires y x j s); try done.
  - eapply slots_ok_ext; [|done]. intros l _. apply Hrefs.
  - intros l Hl. destruct (decide (l = i)) as [->|Hne]; [done|]. specialize (Hrefs l).
    rewrite (proj2 (Z.eqb_neq l i)) in Hrefs by done. unfold bit in Hrefs.
    pose proof (count_nonneg (fun p => at_slot l (pb_prev p)) (sy_publishers y)). unfold refs_of, pub_refs in *. lia.
  - split_and!; simpl; [lia|lia|done| | |].
    + rewrite i64_small, zlen_app, zlen_cons, zlen_nil; lia.
    + rewrite i64_small; lia.
    + apply Forall2_app; [|constructor; [|done]].
      * eapply held_keep; [by rewrite (proj1 Hok), (proj1 yi_slots0)|by intros; rewrite Hv|done].
      * exists i. rewrite (proj1 Hok), Hv. done.
Qed.

Lemma sim_fetch k acquires y x j r x' :
  sys_inv k acquires y x ->
  spec_step (length (sy_publishers y)) acquires (EFetch j) x = Some (r, x') ->
  exists y', step (Z.to_nat (2 ^ k)) (EFetch j) y = Some (Ok (r, y')) /\ sys_inv k acquires y' x' /\
    length (sy_publishers y') = length (sy_publishers y).
Proof.
  intros Hinv Hspec. cbn [spec_step] in Hspec.
  destruct (rg_subs x !! j) as [[seen held]|] eqn:Hx; simpl in Hspec; [|done].
  pose proof Hinv as [].
  destruct (Forall2_lookup_r _ _ _ _ _ yi_subs0 Hx) as (s & Hs & Hsub). pose proof Hsub as (H1 & H2 & H3 & H4 & H5). simpl in *.
  assert (zlen held = zlen (sb_held s)) as Hzl by (unfold zlen; by rewrite (Forall2_length _ _ _ H5)).
  cbn [step]. rewrite Hs. simpl. unfold fetch_message. rewrite (proj2 yi_version0), H2, u64_pred_inj by lia.
  destruct (Z.eqb_spec (rg_version x) seen) as [Heq|Hne].
  { injection Hspec as <- <-. simpl. eexists. split; [done|]. rewrite list_insert_id by done.
    by destruct y. }
  destruct (latest_slot k acquires y x Hinv ltac:(lia)) as (v & Hlast & Hval & Hr & Href).
  rewrite Hlast in Hspec. simpl in Hspec. injection Hspec as <- <-.
  set (i := sg_latest_published_idx (sy_segment y)) in *. unfold subscript. rewrite (u32_small i) by lia.
  destruct (refs_bound k acquires y x i Hinv) as (Hp0 & Hs0 & Hrb).
  destruct (acquire_unsafe_ok _ _ _ i yi_slots0 Hr ltac:(lia) ltac:(lia)) as (b1 & Ha & Hok1 & Hv1).
  rewrite Ha. cbn [mbind outcome_bind].
  destruct (access_val b1 i v) as [Hbool Hderef]; [by rewrite Hv1|]. rewrite Hbool, Hderef. cbn [mbind outcome_bind].
  rewrite H3, Hzl, <- Hlast. destruct (Z.leb_spec acquires (zlen (sb_held s))) as [Hfull|Hroom].
  - rewrite (proj2 (Z.leb_le _ 0)) by lia.
    destruct (release_ok' _ _ _ i Hok1 Hr) as (b2 & Hb2 & Hok2 & Hv2).
    { unfold bit. rewrite Z.eqb_refl. lia. }
    rewrite Hb2. cbn [mbind outcome_bind]. eexists. split; [done|]. split; [|done].
    rewrite <- H3. apply (sys_inv_skip _ _ _ _ _ _ _ _ Hinv Hs Hsub).
    + eapply slots_ok_ext; [|done]. intros l _. simpl. lia.
    + intros l Hl. rewrite Hv2, Hv1; [done|]. lia.
  - rewrite (proj2 (Z.leb_gt _ 0)) by lia. cbn [mbind outcome_bind]. eexists. split; [done|]. split; [|done].
    rewrite <- H3. by apply (sys_inv_take _ _ _ _ _ _ _ _ _ _ Hinv Hs Hsub).
Qed.

Lemma sim_read k acquires y x j h r x' :
  sys_inv k acquires y x ->
  spec_step (length (sy_publishers y)) acquires (ERead j h) x = Some (r, x') ->
  step (Z.to_nat (2 ^ k)) (ERead j h) y = Some (Ok (r, y)) /\ x' = x.
Proof.
  intros Hinv Hspec. cbn [spec_step step] in *.
  destruct (rg_subs x !! j) as [[seen held]|] eqn:Hx; simpl in Hspec; [|done].
  destruct (held !! h) as [w|] eqn:Hw; simpl in Hspec; [|done]. injection Hspec as <- <-.
  destruct (Forall2_lookup_r _ _ _ _ _ (yi_subs _ _ _ _ Hinv) Hx) as (s & Hs & H1 & H2 & H3 & H4 & H5).
  destruct (Forall2_lookup_r _ _ _ _ _ H5 Hw) as (a & Ha & i & -> & Hi & Hval).
  rewrite Hs. simpl. rewrite Ha. cbn [mbind option_bind].
  destruct (access_val _ _ _ Hval) as [_ Hd]. rewrite Hd. done.
Qed.

Lemma sim_drop k acquires y x j h r x' :
  sys_inv k acquires y x ->
  spec_step (length (sy_publishers y)) acquires (EDrop j h) x = Some (r, x') ->
  exists y', step (Z.to_nat (2 ^ k)) (EDrop j h) y = Some (Ok (r, y')) /\ sys_inv k acquires y' x' /\
    length (sy_publishers y') = length (sy_publishers y).
Proof.
  intros Hinv Hspec. cbn [spec_step step] in *.
  destruct (rg_subs x !! j) as [[seen held]|] eqn:Hx; simpl in Hspec; [|done].
  destruct (held !! h) as [w|] eqn:Hw; simpl in Hspec; [|done]. injection Hspec as <- <-.
  pose proof Hinv as [].
  destruct (Forall2_lookup_r _ _ _ _ _ yi_subs0 Hx) as (s & Hs & H1 & H2 & H3 & H4 & H5). simpl in *.
  destruct (Forall2_lookup_r _ _ _ _ _ H5 Hw) as (a & Ha & i & -> & Hi & Hval).
  rewrite (proj1 yi_slots0) in Hi.
  pose proof (sub_refs_pos _ _ _ _ _ Hs Ha) as Href.
  destruct (refs_bound k acquires y x i Hinv) as (Hp0 & Hs0 & Hrb).
  destruct (release_ok' _ _ _ i yi_slots0 Hi) as (b' & Hb' & Hok & Hv); [unfold refs_of; lia|].
  rewrite Hs. simpl. rewrite Ha. simpl. unfold drop_wrapper. rewrite Ha. simpl must.
  cbn [mbind outcome_bind]. rewrite Hb'. cbn [mbind outcome_bind]. eexists. split; [done|]. split; [|done].
  set (s' := {| sb_available := _; sb_next_message_id := _; sb_held := _ |}).
  assert (forall l, refs_of (sy_publishers y) (<[j := s']> (sy_subscribers y)) l =
                    refs_of (sy_publishers y) (sy_subscribers y) l - bit (l =? i)) as Hrefs.
  { intros l. rewrite (refs_sub_insert _ _ _ _ _ _ Hs). simpl. rewrite (count_delete _ _ _ _ Ha).
    rewrite <- bit_at_slot. unfold bit. lia. }
  pose proof (zlen_nonneg (delete h (sb_held s))) as Hnn.
  assert (zlen (delete h (sb_held s)) = zlen (sb_held s) - 1) as Hdl.
  { unfold zlen. pose proof (lookup_lt_Some _ _ _ Ha). rewrite length_delete by eauto. lia. }
  assert (i64 (sb_available s + 1) = sb_available s + 1) as Hav by (apply i64_small; lia).
  apply (sys_inv_sub k acquires y x j s); try done.
  - eapply slots_ok_ext; [|done]. intros l _. apply Hrefs.
  - intros l Hl _. rewrite Hrefs in Hl. apply Hv. lia.
  - intros l Hl. pose proof (count_nonneg (fun p => at_slot l (pb_prev p)) (sy_publishers y)).
    pose proof (Hrefs l) as Hr. unfold refs_of, pub_refs in *. unfold bit in Hr. destruct (l =? i); lia.
  - split_and!; simpl; [lia|lia|done|lia|lia|].
    eapply held_keep; [by rewrite (proj1 Hok), (proj1 yi_slots0)| |].
    + intros h' l Hh'. apply Hv. rewrite <- Hrefs.
      pose proof (sub_refs_pos (<[j := s']> (sy_subscribers y)) j s' h' l) as Hp.
      rewrite list_lookup_insert_eq in Hp by (by eapply lookup_lt_Some). specialize (Hp eq_refl Hh').
      pose proof (count_nonneg (fun p => at_slot l (pb_prev p)) (sy_publishers y)). unfold refs_of, pub_refs in *. lia.
    + by apply Forall2_list_delete.
Qed.

Lemma rt_sim_run k acquires np evs : forall y x rs x',
  sys_inv k acquires y x -> length (sy_publishers y) = np -> rg_version x + zlen evs < 2 ^ 62 ->
  spec_run np acquires evs x = Some (rs, x') ->
  exists y', run (Z.to_nat (2 ^ k)) evs y = Some (Ok (rs, y')) /\ sys_inv k acquires y' x'.
Proof.
  induction evs as [|e evs IH]; intros y x rs x' Hinv Hnp Hver Hspec; cbn [spec_run run] in *.
  { simplify_eq. eauto. }
  rewrite zlen_cons in Hver. pose proof (zlen_nonneg evs).
  apply bind_Some in Hspec as ([r x1] & Hs1 & Hspec).
  apply bind_Some in Hspec as ([rs' x2] & Hs2 & Hspec). simplify_eq.
  assert (exists y1, step (Z.to_nat (2 ^ k)) e y = Some (Ok (r, y1)) /\ sys_inv k acquires y1 x1 /\
    length (sy_publishers y1) = length (sy_publishers y) /\ rg_version x1 <= rg_version x + 1)
    as (y1 & Hstep & Hinv1 & Hl & Hv1).
  { destruct e.
    - destruct (rt_sim_publish _ _ _ _ _ _ _ _ Hinv ltac:(lia) Hs1) as (y1 & ? & ? & ?). exists y1. split_and!; [done..|].
      cbn [spec_step] in Hs1. case_bool_decide; simplify_eq. simpl. lia.
    - destruct (sim_fetch _ _ _ _ _ _ _ Hinv Hs1) as (y1 & ? & ? & ?). exists y1. split_and!; [done..|].
      cbn [spec_step] in Hs1. destruct (rg_subs x !! j) as [[]|]; simpl in Hs1; [|done].
      destruct (_ =? _); simplify_eq; [lia|]. destruct (rg_last x); simpl in Hs1; simplify_eq. simpl. lia.
    - destruct (sim_read _ _ _ _ _ _ _ _ Hinv Hs1) as [? ->]. exists y. split_and!; (done || lia).
    - destruct (sim_drop _ _ _ _ _ _ _ _ Hinv Hs1) as (y1 & ? & ? & ?). exists y1. split_and!; [done..|].
      cbn [spec_step] in Hs1. destruct (rg_subs x !! j) as [[]|]; simpl in Hs1; [|done].
      destruct (_ !! k0); simpl in Hs1; simplify_eq. simpl. lia. }
  destruct (IH y1 x1 rs' x' Hinv1 Hl ltac:(lia) Hs2) as (y' & Hrun & Hinv').
  exists y'. rewrite Hstep. simpl. by rewrite Hrun.
Qed.

(** ** Starting up *)

(** All publishers the options admit, each with its own entry and the options of
    the segment; [who] are their processes. *)
Fixpoint construct_publishers (c : compiler) (who : Z -> process_data) (n : nat) (p : Z) (g : segment T)
    : outcome (list publisher * segment T) :=
  match n with
  | O => Ok ([], g)
  | S n' =>
    '(pb, g1) ← publisher_construct c (who p) (sg_options g) g p p;
    '(pbs, g2) ← construct_publishers c who n' (p + 1) g1;
    Ok (pb :: pbs, g2)
  end.

(** [n] subscribers that attach before anything is published. *)
Definition start (c : compiler) (who : Z -> process_data) (sizeof_T size_bytes : Z) (o : options) (n : nat) : outcome (expected system Z) :=
  e ← init_at c sizeof_T false false size_bytes o;
  match e with
  | Unexpected err => Ok (Unexpected err)
  | Expected g =>
    '(pbs, g1) ← construct_publishers c who (Z.to_nat (max_publishers o)) 0 g;
    Ok (Expected {| sy_segment := g1; sy_publishers := pbs;
                    sy_subscribers := replicate n (subscriber_construct o (sg_next_message_id g1)) |})
  end.

Definition register_start (n : nat) : register :=
  {| rg_version := 0; rg_last := None; rg_subs := replicate n (0, []) |}.

(** Options whose sizes fit the 32-bit index arithmetic. *)
Definition options_fit (o : options) : Prop :=
  0 < max_publishers o < 2 ^ 31 /\ 0 <= max_subscribers o < 2 ^ 31 /\ 0 <= max_concurrent_acquires o < 2 ^ 31 /\
  (max_subscribers o * max_concurrent_acquires o + 2) * 2 * max_publishers o < 2 ^ 32.

Lemma pool_ok c o : options_fit o ->
  exists k, 1 <= k <= 31 /\ per_publisher_pool_size c o = Ok (2 ^ k) /\
    max_subscribers o * max_concurrent_acquires o + 2 <= 2 ^ k /\
    2 ^ k < 2 * (max_subscribers o * max_concurrent_acquires o + 2) /\ 2 ^ k * max_publishers o < 2 ^ 32.
Proof.
  intros (Hp & Hs & Ha & Hfit). unfold per_publisher_pool_size, require, umax.
  assert (0 <= max_subscribers o * max_concurrent_acquires o) as Hprod by nia.
  assert (max_subscribers o * max_concurrent_acquires o + 2 <= 2 ^ 31) by nia.
  gcase; [|lia]. rewrite (u32_small (_ * _)), u32_small by lia.
  destruct (ceil_ok c 32 (max_subscribers o * max_concurrent_acquires o + 2)) as (k & Hk & Hc & Hb); [by left|split; [lia|done]|].
  exists k. rewrite Hc. split_and!; try done; try lia; [|nia].
  destruct (Z.lt_ge_cases k 1); [|done]. assert (k = 0) as -> by lia. change (2 ^ 0) with 1 in Hb. lia.
Qed.

Lemma construct_publishers_ok c who k n : forall p (g : segment T),
  1 <= k <= 31 -> per_publisher_pool_size c (sg_options g) = Ok (2 ^ k) -> 0 <= p ->
  2 ^ k * (p + Z.of_nat n) < 2 ^ 32 -> zlen (sg_slots g) = 2 ^ k * (p + Z.of_nat n) ->
  zlen (sg_publishers g) = p + Z.of_nat n ->
  exists pbs g', construct_publishers c who n p g = Ok (pbs, g') /\ length pbs = n /\
    sg_slots g' = sg_slots g /\ sg_next_message_id g' = sg_next_message_id g /\
    (forall i pb, pbs !! i = Some pb -> pub_ok k (Z.to_nat p + i) pb /\ pb_prev pb = None) /\
    (forall i e, p <= i < p + Z.of_nat n -> zlookup (sg_publishers g') i = Some e -> pe_next_local e = 0) /\
    zlen (sg_publishers g') = zlen (sg_publishers g) /\
    (forall i, 0 <= i < p -> zlookup (sg_publishers g') i = zlookup (sg_publishers g) i).
Proof.
  induction n as [|n IH]; intros p g Hk Hpool Hp Hsz Hslots Hpubs; cbn [construct_publishers].
  { exists [], g. split_and!; try done. intros; lia. }
  assert (0 < 2 ^ k) by (apply Z.pow_pos_nonneg; lia).
  assert (2 ^ k <= 2 ^ 31) by (apply Z.pow_le_mono_r; lia).
  assert (0 <= p * 2 ^ k /\ p * 2 ^ k + 2 ^ k <= 2 ^ k * (p + Z.of_nat (S n))) as [Hlo Hhi].
  { split; [apply Z.mul_nonneg_nonneg; lia|].
    replace (2 ^ k * (p + Z.of_nat (S n))) with (p * 2 ^ k + 2 ^ k + 2 ^ k * Z.of_nat n) by lia.
    pose proof (Z.mul_nonneg_nonneg (2 ^ k) (Z.of_nat n)). lia. }
  unfold publisher_construct at 1. rewrite Hpool. simpl.
  assert (get_index (2 ^ k) p 0 = p * 2 ^ k) as Hidx.
  { unfold get_index. rewrite Z.land_0_l, Z.add_0_r. rewrite !u32_small by (rewrite ?u32_small; lia). done. }
  rewrite Hidx. unfold subscript. rewrite (u32_small (p * 2 ^ k)) by lia. destruct (zlookup_is_Some (sg_slots g) (p * 2 ^ k)) as [m Hm]; [lia|]. rewrite Hm. simpl.
  rewrite zinsert_in by lia. simpl.
  set (l := <[Z.to_nat p := _]> (sg_publishers g)).
  destruct (IH (p + 1) (sg_set_publishers g l))
    as (pbs & g' & Hc & Hlen & Hsl & Hnx & Hok & Hent & Hpl & Hbefore); try done; try lia; simpl in *.
  { rewrite Hslots. f_equal. lia. }
  { unfold l. rewrite zlen_insert. lia. }
  rewrite Hc. simpl. eexists _, _. split; [done|]. split; [simpl; lia|]. split; [done|]. split; [done|]. split.
  { intros [|i] pb Hpb; simpl in Hpb.
    - injection Hpb as <-. rewrite Nat.add_0_r. split; [|done]. split_and!; simpl; try done; try lia.
      + do 2 f_equal. lia.
      + apply u32_small. lia.
    - replace (Z.to_nat p + S i)%nat with (Z.to_nat (p + 1) + i)%nat by lia. by apply Hok. }
  split.
  { intros i e Hi He. destruct (decide (i = p)) as [->|Hne]; [|eapply Hent; [|done]; lia].
    rewrite Hbefore in He by lia. unfold l in He. rewrite zlookup_insert, decide_True in He by (done || lia).
    by simplify_eq. }
  split; [unfold l in Hpl; by rewrite zlen_insert in Hpl|].
  intros i Hi. rewrite Hbefore by lia. unfold l. rewrite zlookup_insert, decide_False by lia. done.
Qed.

Lemma start_inv c who sizeof_T size_bytes o n :
  options_fit o -> Z.of_nat n <= max_subscribers o ->
  (forall r, required_size_bytes c sizeof_T o = Ok r -> r <= size_bytes) ->
  exists k y, start c who sizeof_T size_bytes o n = Ok (Expected y) /\ 2 ^ k < 2 ^ 32 /\ 0 <= k /\
    per_publisher_pool_size c o = Ok (2 ^ k) /\
    sys_inv k (max_concurrent_acquires o) y (register_start n) /\ length (sy_publishers y) = Z.to_nat (max_publishers o).
Proof.
  intros Hfit Hn Hreq. destruct (pool_ok c o Hfit) as (k & Hk & Hpool & Hge & Hlt & Hsz).
  destruct Hfit as (Hp & Hsub & Hacq & Hfit).
  unfold start, init_at. destruct (required_size_bytes c sizeof_T o) as [r| |] eqn:Hr.
  2,3: unfold required_size_bytes in Hr; rewrite Hpool in Hr; simpl in Hr; discriminate Hr.
  specialize (Hreq r eq_refl). simpl. gcase; [lia|].
  unfold message_buffer_size. rewrite Hpool. simpl. rewrite u32_small by nia.
  unfold umax at 1. gcase; [lia|]. simpl.
  match goal with |- context [construct_publishers _ _ _ _ ?g0] => set (g := g0) end.
  destruct (construct_publishers_ok c who k (Z.to_nat (max_publishers o)) 0 g)
    as (pbs & g' & Hc & Hlen & Hsl & Hnx & Hok & Hent & Hpl & _); try done; try lia.
  { simpl. rewrite zlen_replicate; [|nia]. lia. }
  { simpl. rewrite zlen_replicate; lia. }
  rewrite Hc. simpl. exists k. eexists. split; [done|].
  assert (2 ^ k <= 2 ^ 31) by (apply Z.pow_le_mono_r; lia).
  split; [lia|]. split; [lia|]. split; [done|]. split; [|done].
  assert (zlen pbs = max_publishers o) as Hzp by (unfold zlen; rewrite Hlen; lia).
  split; simpl; rewrite ?Hzp; try done; try lia.
  - unfold zlen. rewrite length_replicate. nia.
  - unfold zlen. rewrite length_replicate. lia.
  - rewrite Hsl. split; [simpl; rewrite zlen_replicate; nia|]. intros i Hi. exists rm_default. split.
    + simpl. unfold zlookup. gcase; [|lia]. apply lookup_replicate_2. nia.
    + assert (refs_of pbs (replicate n (subscriber_construct o (sg_next_message_id g'))) i = 0) as Hrefs.
      { unfold refs_of, pub_refs, sub_refs. rewrite count_zsum.
        rewrite (zsum_ext _ (fun _ => 0) pbs), (zsum_ext _ (fun _ => 0) (replicate n _)); [rewrite !zsum_const; lia| |].
        - intros s [-> _]%elem_of_replicate. done.
        - intros pb [j Hj]%list_elem_of_lookup_1. by rewrite (proj2 (Hok j pb Hj)). }
      rewrite Hrefs. split; [done|]. split; [lia|]. done.
  - intros p pb Hpb. apply (Hok p pb Hpb).
  - intros p Hlt'. destruct (zlookup_is_Some (sg_publishers g') (Z.of_nat p)) as [e He].
    { rewrite Hpl. simpl. rewrite zlen_replicate; lia. }
    exists e. split; [done|]. rewrite (Hent (Z.of_nat p) e) by (done || lia). lia.
  - apply Forall2_replicate. unfold subscriber_construct, sub_ok. simpl.
    split_and!; first [by rewrite ?Hnx | rewrite zlen_nil; lia | lia].
Qed.

(** C2 Real-time publish/subscribe implements a versioned register.  After
    [init_at] in a segment of at least [required_size_bytes] bytes, for options
    whose sizes fit the 32-bit index arithmetic and any number of subscribers they
    admit, every sequence of publish, fetch, read and release events runs without
    undefined behaviour, with the replies of the register: the search of
    [publish] for a free slot always ends within one pass over the pool, a fetch
    returns the latest value exactly when there is a new version, and a held
    message keeps its value until it is released, however much is published in
    the meantime. *)
Theorem real_time_refines_register (c : compiler) (who : Z -> process_data) (sizeof_T size_bytes required : Z) (o : options) (n : nat)
    (evs : list event) rs x' :
  options_fit o -> Z.of_nat n <= max_subscribers o ->
  required_size_bytes c sizeof_T o = Ok required -> required <= size_bytes -> zlen evs < 2 ^ 62 ->
  spec_run (Z.to_nat (max_publishers o)) (max_concurrent_acquires o) evs (register_start n) = Some (rs, x') ->
  exists y y' pool, start c who sizeof_T size_bytes o n = Ok (Expected y) /\
    per_publisher_pool_size c o = Ok pool /\ run (Z.to_nat pool) evs y = Some (Ok (rs, y')).
Proof.
  intros Hfit Hn Hreq Hsize Hevs Hspec.
  destruct (start_inv c who sizeof_T size_bytes o n Hfit Hn) as (k & y & Hstart & Hk & Hk0 & Hpool & Hinv & Hlen).
  { intros r Hr. rewrite Hreq in Hr. injection Hr as <-. done. }
  destruct (rt_sim_run k _ _ evs y _ rs x' Hinv Hlen) as (y' & Hrun & _); [simpl; lia|done|].
  exists y, y', (2 ^ k). done.
Qed.
End system.
Arguments event : clear implicits.
Arguments reply : clear implicits.

Definition demo_options : options := {| max_publishers := 2; max_subscribers := 2; max_concurrent_acquires := 2 |}.

Definition demo_events : list (event Z) :=
  [EFetch 0; EPublish 0 10; EFetch 0; EFetch 0; EPublish 0 11; EPublish 1 12; EFetch 0; EFetch 1; EPublish 0 13;
   EFetch 0; ERead 0 0; ERead 0 1; EDrop 0 0; EPublish 0 14; EPublish 0 15; EPublish 0 16; EPublish 0 17; EFetch 0; ERead 0 0; ERead 0 1; ERead 1 0].

Lemma real_time_refines_register_witness :
  options_fit demo_options /\ Z.of_nat 2 <= max_subscribers demo_options /\
  required_size_bytes GNUC 192 demo_options = Ok 3776 /\ 3776 <= 4096 /\ zlen demo_events < 2 ^ 62 /\
  exists rs x', spec_run (Z.to_nat (max_publishers demo_options)) (max_concurrent_acquires demo_options) demo_events (register_start 2) = Some (rs, x') /\
  rs = [RFetched (NoMessage no_message_available); RDone; RFetched (Message 10); RFetched (NoMessage no_message_available);
        RDone; RDone; RFetched (Message 12); RFetched (Message 12); RDone; RFetched (NoMessage invalid_seek);
        RValue 10; RValue 12; RDone; RDone; RDone; RDone; RDone; RFetched (Message 17); RValue 12; RValue 17; RValue 12] /\
  exists y y' pool, start GNUC (fun _ => this_process 42 7) 192 4096 demo_options 2 = Ok (Expected y) /\
    per_publisher_pool_size GNUC demo_options = Ok pool /\ run (Z.to_nat pool) demo_events y = Some (Ok (rs, y')).
Proof.
  assert (options_fit demo_options) as Hfit by (unfold options_fit; simpl; lia).
  split; [done|]. split; [simpl; lia|]. split; [reflexivity|]. split; [lia|]. split; [vm_compute; done|].
  eexists _, _. split; [vm_compute; reflexivity|]. split; [reflexivity|].
  eapply (real_time_refines_register GNUC (fun _ => this_process 42 7) 192 4096 3776 demo_options 2 demo_events);
    [done|simpl; lia|reflexivity|lia|vm_compute; done|vm_compute; reflexivity].
Defined.

(** C38 The layout of the segment: for options whose sizes fit the 32-bit index
    arithmetic and message slots of less than 2^24 bytes, the three areas follow
    each other without overlap, the sum in [required_size_bytes] does not wrap,
    [get_index] is the position of a message in its publisher's area (two messages
    collide exactly if they have the same publisher and the same local id modulo
    the pool), and every slot it returns lies inside the required bytes. *)
Theorem real_time_layout (c : compiler) (sizeof_T : Z) (o : options) (pool required : Z) :
  options_fit o -> 0 < sizeof_T < 2 ^ 24 ->
  per_publisher_pool_size c o = Ok pool -> required_size_bytes c sizeof_T o = Ok required ->
  publishers_offset <= subscribers_offset o <= slots_offset o /\
  required = slots_offset o + sizeof_T * (pool * max_publishers o) /\
  message_buffer_size c o = Ok (pool * max_publishers o) /\
  (forall p id, 0 <= p < max_publishers o -> 0 <= id < 2 ^ 32 ->
     get_index pool p id = p * pool + id mod pool /\ 0 <= get_index pool p id < pool * max_publishers o /\
     slots_offset o + sizeof_T * get_index pool p id + sizeof_T <= required) /\
  (forall p id p' id', 0 <= p < max_publishers o -> 0 <= p' < max_publishers o -> 0 <= id < 2 ^ 32 -> 0 <= id' < 2 ^ 32 ->
     get_index pool p id = get_index pool p' id' <-> p = p' /\ id mod pool = id' mod pool).
Proof.
  intros Hfit Hs Hpool Hreq. destruct (pool_ok c o Hfit) as (k & Hk & Hpool' & Hge & Hlt & Hsz).
  rewrite Hpool in Hpool'. injection Hpool' as ->. destruct Hfit as (Hp & Hsub & Hacq & _).
  assert (0 < 2 ^ k <= 2 ^ 31) as Hk2 by (split; [apply Z.pow_pos_nonneg; lia|apply Z.pow_le_mono_r; lia]).
  assert (forall p id, 0 <= p < max_publishers o -> 0 <= id < 2 ^ 32 ->
     get_index (2 ^ k) p id = p * 2 ^ k + id mod 2 ^ k /\ 0 <= p * 2 ^ k /\ p * 2 ^ k + 2 ^ k <= 2 ^ k * max_publishers o) as Hidx.
  { intros p id Hpp Hid. assert (0 <= p * 2 ^ k /\ p * 2 ^ k + 2 ^ k <= 2 ^ k * max_publishers o) as [] by nia.
    split; [|done]. unfold get_index. rewrite (u32_small (2 ^ k - 1)), (u32_small (p * 2 ^ k)) by lia.
    replace (2 ^ k - 1) with (Z.ones k) by (rewrite Z.ones_equiv; lia). rewrite Z.land_ones by lia.
    pose proof (Z.mod_pos_bound id (2 ^ k) ltac:(lia)). apply u32_small. lia. }
  assert (required = slots_offset o + sizeof_T * (2 ^ k * max_publishers o)) as ->.
  { unfold required_size_bytes in Hreq. rewrite Hpool in Hreq. simpl in Hreq. injection Hreq as <-.
    unfold slots_offset, subscribers_offset, sizeof_instance_data, sizeof_publisher_entry, sizeof_subscriber_entry.
    assert (0 <= sizeof_T * 2 ^ k /\ 0 <= sizeof_T * 2 ^ k * max_publishers o < 2 ^ 56 /\ sizeof_T * 2 ^ k < 2 ^ 55) as (? & ? & ?) by nia.
    rewrite (u64_small (128 * _)), (u64_small (64 * _)), (u64_small (320 + _)) by lia.
    rewrite (u64_small (_ + 64 * _)), (u64_small (sizeof_T * 2 ^ k)), (u64_small (sizeof_T * 2 ^ k * _)) by lia.
    rewrite u64_small by lia. lia. }
  split. { unfold slots_offset, subscribers_offset, publishers_offset, sizeof_publisher_entry, sizeof_subscriber_entry. lia. }
  split; [done|]. split. { unfold message_buffer_size. rewrite Hpool. simpl. by rewrite u32_small by nia. }
  split.
  - intros p id Hpp Hid. destruct (Hidx p id Hpp Hid) as (-> & H1 & H2).
    pose proof (Z.mod_pos_bound id (2 ^ k) ltac:(lia)). split; [done|]. split; [lia|nia].
  - intros p id p' id' Hpp Hpp' Hid Hid'.
    destruct (Hidx p id Hpp Hid) as (-> & _ & _). destruct (Hidx p' id' Hpp' Hid') as (-> & _ & _).
    pose proof (Z.mod_pos_bound id (2 ^ k) ltac:(lia)). pose proof (Z.mod_pos_bound id' (2 ^ k) ltac:(lia)).
    split; [|by intros [-> ->]]. intros Heq. assert (p = p') as -> by nia. split; [done|lia].
Qed.

Lemma real_time_layout_witness :
  options_fit demo_options /\ 0 < 192 < 2 ^ 24 /\ per_publisher_pool_size GNUC demo_options = Ok 8 /\
  required_size_bytes GNUC 192 demo_options = Ok 3776 /\
  get_index 8 1 13 = 1 * 8 + 13 mod 8.
Proof.
  assert (options_fit demo_options) as Hfit by (unfold options_fit; simpl; lia).
  split; [done|]. split; [lia|]. split; [reflexivity|]. split; [reflexivity|].
  apply (real_time_layout GNUC 192 demo_options 8 3776 Hfit); (lia || reflexivity || (simpl; lia)).
Defined.

(** * Where the code departs from its intent *)

(** [init_at] cannot notice that the message indices overflow: the number of
    messages is already reduced modulo 2^32 when it is compared with the 32-bit
    maximum, so the guard never fires, and for 65536 publishers with pools of
    65536 messages a segment with no message slot at all is reported as
    initialized. *)
Theorem real_time_capacity_guard_dead (c : compiler) :
  (forall o n, message_buffer_size c o = Ok n -> n <= umax 32) /\
  (let o := {| max_publishers := 65536; max_subscribers := 65534; max_concurrent_acquires := 1 |} in
   per_publisher_pool_size c o = Ok 65536 /\
   exists required, required_size_bytes c 192 o = Ok required /\
   forall size, required <= size -> exists g : segment Z,
     init_at c 192 false false size o = Ok (Expected g) /\ sg_slots g = [] /\ zlen (sg_publishers g) = 65536).
Proof.
  split.
  - intros o n. unfold message_buffer_size. rewrite bind_Ok. intros (pool & _ & [= <-]).
    pose proof (wrap_range 32 (pool * max_publishers o) ltac:(lia)). unfold umax. lia.
  - intros o. assert (per_publisher_pool_size c o = Ok 65536) as Hpool by (by destruct c).
    split; [done|]. exists 824646303936.
    assert (required_size_bytes c 192 o = Ok 824646303936) as Hreq
      by (unfold required_size_bytes; rewrite Hpool; reflexivity).
    split; [done|]. intros size Hsize. unfold init_at, message_buffer_size. rewrite Hreq, Hpool.
    cbn [mbind outcome_bind]. rewrite (proj2 (Z.ltb_ge size 824646303936)) by done.
    replace (u32 (65536 * max_publishers o)) with 0 by reflexivity.
    replace (0 >? umax 32) with false by reflexivity. eexists. split; [reflexivity|].
    cbn [sg_slots sg_publishers]. split; [reflexivity|]. apply zlen_replicate. simpl. lia.
Qed.

(** [publish] notifies the subscribers before it takes its own reference.  If a
    subscriber fetches and releases the new message in between, its value is
    destroyed: the publisher then keeps a reference to an empty slot, and every
    other subscriber that fetches afterwards is told that no message is available
    although the version is new to it. *)
Theorem real_time_notify_race {T : Type} (v : T) :
  let empty := subscriber_construct default_options (umax 64) in
  let pb := {| pb_publisher_id := 0; pb_entry_idx := 0; pb_buffer_offset := 0; pb_area := (0, 4);
               pb_wrap_around := 3; pb_prev := None |} in
  let g := {| sg_next_message_id := umax 64; sg_latest_published_idx := umax 64; sg_state := initialized;
              sg_next_publisher_id := 1; sg_next_subscriber_id := 2;
              sg_options := {| max_publishers := 1; max_subscribers := 2; max_concurrent_acquires := 1 |};
              sg_publishers := [default_publisher_entry]; sg_subscribers := replicate 2 default_subscriber_entry;
              sg_slots := replicate 4 rm_default |} in
  exists g1 g2 s2 g3 s3 pb4 g4,
    publish_notify 4 v pb g = Ok (0, g1) /\
    fetch_message g1 empty = Ok (Message v, g2, s2) /\
    drop_wrapper 0 g2 s2 = Ok (g3, s3) /\
    publish_finish 0 pb g3 = Ok (pb4, g4) /\
    pb_prev pb4 = Some 0 /\ val (sg_slots g4) 0 = None /\
    sg_next_message_id g4 <> sb_next_message_id empty /\
    exists g5, fetch_message g4 empty = Ok (NoMessage no_message_available, g5, empty).
Proof.
  do 7 eexists. split; [reflexivity|]. split; [reflexivity|]. split; [reflexivity|]. split; [reflexivity|].
  split; [reflexivity|]. split; [reflexivity|]. split; [discriminate|]. eexists. reflexivity.
Qed.

(** The search for an entry does not wait for its timeout: the elapsed time is
    computed as [start - now] in unsigned arithmetic, so as soon as the clock has
    moved after a pass that found every entry taken, the search fails with
    [timed_out]. *)
Theorem real_time_entry_timeout_immediate (max timeout_ns start now : Z) (try_lock : Z -> Z * bool) rounds :
  scan_entries try_lock (Z.to_nat max) 0 = None ->
  0 <= timeout_ns < 2 ^ 62 -> 0 <= start < now -> now < 2 ^ 63 ->
  get_new_publisher_entry max timeout_ns start ((try_lock, now) :: rounds) = Some (Unexpected timed_out).
Proof.
  intros Hscan Ht Hs Hn. cbn [get_new_publisher_entry]. rewrite Hscan. rewrite (u64_small timeout_ns) by lia.
  unfold wrap. replace (start - now) with (start - now + 2 ^ 64 + (-1) * 2 ^ 64) by lia.
  rewrite Z_mod_plus_full, Z.mod_small by lia. gcase; [done|lia].
Qed.

Lemma real_time_entry_timeout_immediate_witness :
  scan_entries (fun _ => (0, false)) (Z.to_nat 2) 0 = None /\ 0 <= 1000000000 < 2 ^ 62 /\ 0 <= 5 < 6 /\ 6 < 2 ^ 63 /\
  get_new_publisher_entry 2 1000000000 5 [(fun _ => (0, false), 6); (fun _ => (0, true), 7)] = Some (Unexpected timed_out).
Proof.
  split; [reflexivity|]. split; [lia|]. split; [lia|]. split; [lia|].
  apply (real_time_entry_timeout_immediate 2 1000000000 5 6 (fun _ => (0, false)) [(fun _ => (0, true), 7)]); (reflexivity || lia).
Defined.

(** ** Message wrappers as objects

    A wrapper owns an access and points to the acquire counter of its subscriber
    ([mw_counter]); moved-from wrappers have no counter. *)
(* @source include/ipcpp/publish_subscribe/real_time/real_time_subscriber.h 91-94 RealTimeSubscriber::MessageWrapper *)
Record wrapper : Type := { mw_counter : bool; mw_access : option Z }.

Section wrappers.
Context {T : Type}.

(** The slots and the counter the wrappers of one subscriber share. *)
Definition heap : Type := list (message T) * Z.

(* @source include/ipcpp/publish_subscribe/real_time/real_time_subscriber.h 60-66 RealTimeSubscriber::MessageWrapper::cleanup *)
Definition mw_cleanup (w : wrapper) (h : heap) : outcome (wrapper * heap) :=
  if mw_counter w then
    b ← release (mw_access w) h.1;
    Ok ({| mw_counter := true; mw_access := None |}, (b, i64 (h.2 + 1)))
  else Ok (w, h).

(** [~MessageWrapper]: cleanup, then the destructor of the access. *)
(* @source include/ipcpp/publish_subscribe/real_time/real_time_subscriber.h 56-58 RealTimeSubscriber::MessageWrapper::~MessageWrapper *)
Definition mw_destroy (w : wrapper) (h : heap) : outcome heap :=
  '(w1, h1) ← mw_cleanup w h;
  b ← release (mw_access w1) h1.1;
  Ok (b, h1.2).

(* @source include/ipcpp/publish_subscribe/real_time/real_time_subscriber.h 69-71 RealTimeSubscriber::MessageWrapper::MessageWrapper *)
Definition mw_move_construct (other : wrapper) : wrapper * wrapper :=
  ({| mw_counter := mw_counter other; mw_access := mw_access other |},
   {| mw_counter := false; mw_access := None |}).

(** Assignment between two different wrappers. *)
(* @source include/ipcpp/publish_subscribe/real_time/real_time_subscriber.h 73-80 RealTimeSubscriber::MessageWrapper::operator= *)
Definition mw_move_assign (w other : wrapper) (h : heap) : outcome (wrapper * wrapper * heap) :=
  '(w1, h1) ← mw_cleanup w h;
  '(a, a', b) ← access_assign (mw_access w1) (mw_access other) h1.1;
  Ok ({| mw_counter := mw_counter other; mw_access := a |},
      {| mw_counter := mw_counter w1; mw_access := a' |}, (b, h1.2)).

(** Move construction transfers a wrapper: destroying both objects afterwards
    gives its message and its acquire back once, like destroying the original.
    Move assignment does not: the moved-from wrapper keeps a counter, so after
    both objects are destroyed the subscriber has one acquire more than it ever
    had and can exceed its limit. *)
Theorem wrapper_moves (i j : Z) (h h1 : heap) :
  let w := {| mw_counter := true; mw_access := Some i |} in
  let other := {| mw_counter := true; mw_access := Some j |} in
  0 <= h.2 < 2 ^ 62 ->
  ((mw_destroy (mw_move_construct w).2 h ≫= mw_destroy (mw_move_construct w).1) = mw_destroy w h) /\
  ((mw_destroy w h ≫= mw_destroy other) = Ok h1 -> h1.2 = h.2 + 2 /\
   exists w' other' h2 h3, mw_move_assign w other h = Ok (w', other', h2) /\
     (mw_destroy other' h2 ≫= mw_destroy w') = Ok h3 /\ h3.1 = h1.1 /\ h3.2 = h1.2 + 1).
Proof.
  intros w other Hh. split.
  { unfold mw_destroy, mw_cleanup. simpl. by destruct h. }
  unfold mw_destroy, mw_move_assign, mw_cleanup, access_assign. cbn [mw_counter mw_access w other].
  destruct (release (Some i) h.1) as [b1| |] eqn:Hb1; cbn; rewrite ?Hb1; cbn; try done.
  destruct (release (Some j) b1) as [b2| |] eqn:Hb2; cbn in *; rewrite ?Hb1, ?Hb2; cbn; try done.
  intros [= <-]. cbn. rewrite !i64_small by (rewrite ?i64_small; lia). split; [lia|].
  eexists _, _, _, _. split; [done|]. cbn. rewrite Hb2. cbn. split; [done|]. cbn.
  rewrite !i64_small by (rewrite ?i64_small; lia). split; [done|lia].
Qed.
End wrappers.

Lemma wrapper_moves_witness :
  let b := [{| rm_value := Some 7; rm_id := 0; rm_refs := 1 |}; {| rm_value := Some 8; rm_id := 1; rm_refs := 1 |}] in
  0 <= 0 < 2 ^ 62 /\
  exists w' other' h2 h3, mw_move_assign {| mw_counter := true; mw_access := Some 0 |} {| mw_counter := true; mw_access := Some 1 |} (b, 0) = Ok (w', other', h2) /\
    (mw_destroy other' h2 ≫= mw_destroy w') = Ok h3 /\ h3.1 = [rm_default; rm_default] /\ h3.2 = 2 + 1.
Proof.
  intros b. split; [lia|].
  apply (wrapper_moves 0 1 (b, 0) ([rm_default; rm_default], 2)); [simpl; lia|reflexivity].
Defined.

(** A publisher created with options of its own computes its global message
    indices from them but writes into the area the segment's options assign: unless
    the pools agree or it has the first entry, the indices it announces are not
    those of the slots it writes. *)
Theorem publisher_options_mismatch {T : Type} (c : compiler) (me : process_data) (o : options) (g g' : segment T) id entry own pool pb :
  per_publisher_pool_size c o = Ok own -> per_publisher_pool_size c (sg_options g) = Ok pool ->
  0 < entry -> entry * own < 2 ^ 32 -> entry * pool < 2 ^ 32 -> 0 < own -> 0 < pool ->
  publisher_construct c me o g id entry = Ok (pb, g') ->
  (pb_buffer_offset pb = (pb_area pb).1 <-> own = pool).
Proof.
  intros Hown Hpool He Ho Hp Ho0 Hp0. unfold publisher_construct. rewrite Hown, Hpool. cbn [mbind outcome_bind].
  rewrite bind_Ok. intros (m & _ & H). apply bind_Ok in H as (l & _ & H). injection H as <- <-.
  cbn [pb_buffer_offset pb_area fst]. unfold subscript, get_index. rewrite Z.land_0_l, Z.add_0_r.
  rewrite !u32_small by (rewrite ?u32_small; rewrite ?u32_small; nia). split; [intros; nia|by intros ->].
Qed.

Lemma publisher_options_mismatch_witness :
  let o := {| max_publishers := 2; max_subscribers := 1; max_concurrent_acquires := 1 |} in
  let g := {| sg_next_message_id := umax 64; sg_latest_published_idx := umax 64; sg_state := initialized;
              sg_next_publisher_id := 1; sg_next_subscriber_id := 0; sg_options := demo_options;
              sg_publishers := replicate 2 default_publisher_entry; sg_subscribers := [];
              sg_slots := replicate 16 (@rm_default Z) |} in
  per_publisher_pool_size GNUC o = Ok 4 /\ per_publisher_pool_size GNUC (sg_options g) = Ok 8 /\
  exists pb g', publisher_construct GNUC (this_process 42 7) o g 1 1 = Ok (pb, g') /\
    (pb_buffer_offset pb = (pb_area pb).1 <-> 4 = 8).
Proof.
  intros o g. split; [reflexivity|]. split; [reflexivity|].
  eexists _, _. split; [vm_compute; reflexivity|].
  eapply (publisher_options_mismatch GNUC (this_process 42 7) o g _ 1 1 4 8); (reflexivity || lia).
Defined.
