(* ===== verification/RealTimeConcurrent.v ===== *)
(** Real-time publish/subscribe with every access to shared memory a step of its own.

    [RealTime] runs [publish], [fetch_message] and the destruction of a wrapper as one step
    each.  Here any number of publishers and subscribers interleave between any two accesses:
    loads, stores and read-modify-writes of the atomics and the plain accesses to the value
    and the number of a message.  Memory is sequentially consistent.  The counter of
    available acquires belongs to one subscriber and is updated with the step it is part of. *)
From S2P Require Import Prelude Numeric RealTime.

Section concurrent.
Context {T : Type}.

(** * The steps *)
Definition rm_set_value (m : message T) (v : option T) : message T := {| rm_value := v; rm_id := rm_id m; rm_refs := rm_refs m |}.
Definition rm_set_id (m : message T) (i : Z) : message T := {| rm_value := rm_value m; rm_id := i; rm_refs := rm_refs m |}.

(** An access to slot [i] that changes it: the message before, and the segment after. *)
Definition slot_update (g : segment T) (i : Z) (f : message T -> message T) : outcome (message T * segment T) :=
  m ← must (zlookup (sg_slots g) i);
  b ← must (zinsert (sg_slots g) i (f m)); Ok (m, sg_set_slots g b).

(** Where a publisher is in [publish], before the step named; [idx] is the place in its area,
    [j] the slot of the previous message, which it gives up. *)
Inductive pub_pc : Type :=
| PubIdle
| PubSearch (v : T)
| PubValue (idx : Z) (v : T)
| PubId (idx : Z)
| PubLatest (idx : Z)
| PubNext (idx : Z)
| PubAcquire (idx : Z)
| PubRelease (idx j : Z)
| PubReset (idx j : Z)
| PubResetId (idx j : Z).

Record pub_thread : Type := { pt_pub : publisher; pt_pc : pub_pc }.

Definition set_prev (pb : publisher) (a : option Z) : publisher :=
  {| pb_publisher_id := pb_publisher_id pb; pb_entry_idx := pb_entry_idx pb; pb_buffer_offset := pb_buffer_offset pb;
     pb_area := pb_area pb; pb_wrap_around := pb_wrap_around pb; pb_prev := a |}.

Definition pub_at (x : pub_thread) (p : pub_pc) : pub_thread := {| pt_pub := pt_pub x; pt_pc := p |}.
Definition pub_slot (x : pub_thread) (idx : Z) : Z := (pb_area (pt_pub x)).1 + idx.
Definition pub_global (x : pub_thread) (idx : Z) : Z := u64 (pb_buffer_offset (pt_pub x) + idx).
(** The end of [publish]: the publisher holds the message at [idx]. *)
Definition pub_done (x : pub_thread) (idx : Z) : pub_thread :=
  {| pt_pub := set_prev (pt_pub x) (Some (pub_slot x idx)); pt_pc := PubIdle |}.

(** One step of a publisher in [publish]. *)
(* @source include/ipcpp/publish_subscribe/real_time/real_time_publisher.h 86-106 RealTimePublisher::publish *)
Definition pub_step (x : pub_thread) (g : segment T) : option (outcome (pub_thread * segment T)) :=
  match pt_pc x with
  | PubIdle => None
  | PubSearch v => Some (
      e ← must (zlookup (sg_publishers g) (pb_entry_idx (pt_pub x)));
      let idx := Z.land (pe_next_local e) (pb_wrap_around (pt_pub x)) in
      pubs ← must (zinsert (sg_publishers g) (pb_entry_idx (pt_pub x))
                     {| pe_process := pe_process e; pe_next_local := u32 (pe_next_local e + 1); pe_id := pe_id e |});
      _ ← require (idx <? (pb_area (pt_pub x)).2);
      m ← must (zlookup (sg_slots g) (pub_slot x idx));
      Ok (if rm_id m =? invalid_id then pub_at x (PubValue idx v) else x, sg_set_publishers g pubs))
  | PubValue idx v => Some (
      '(_, g1) ← slot_update g (pub_slot x idx) (fun m => rm_set_value m (Some v)); Ok (pub_at x (PubId idx), g1))
  | PubId idx => Some (
      '(_, g1) ← slot_update g (pub_slot x idx) (fun m => rm_set_id m (pub_global x idx)); Ok (pub_at x (PubLatest idx), g1))
  | PubLatest idx => Some (Ok (pub_at x (PubNext idx), sg_notify g (pub_global x idx) (sg_next_message_id g)))
  | PubNext idx => Some (Ok (pub_at x (PubAcquire idx), sg_notify g (sg_latest_published_idx g) (u64 (sg_next_message_id g + 1))))
  | PubAcquire idx => Some (
      '(_, g1) ← slot_update g (pub_slot x idx) (fun m => rm_set_refs m (u64 (rm_refs m + 1)));
      Ok (match pb_prev (pt_pub x) with None => pub_done x idx | Some j => pub_at x (PubRelease idx j) end, g1))
  | PubRelease idx j => Some (
      '(m, g1) ← slot_update g j (fun m => rm_set_refs m (u64 (rm_refs m - 1)));
      Ok (if rm_refs m =? 1 then pub_at x (PubReset idx j) else pub_done x idx, g1))
  | PubReset idx j => Some ('(_, g1) ← slot_update g j (fun m => rm_set_value m None); Ok (pub_at x (PubResetId idx j), g1))
  | PubResetId idx j => Some ('(_, g1) ← slot_update g j (fun m => rm_set_id m invalid_id); Ok (pub_done x idx, g1))
  end.

(** What an access is released for: a call of [fetch_message] that fails, or the end of a
    wrapper. *)
Inductive purpose : Type :=
| ForFetch (e : errc)
| ForDrop.

Inductive result : Type :=
| Fetched (i : Z)          (* a wrapper for slot [i] *)
| NotFetched (e : errc)
| Value (v : T).           (* what a wrapper was read for *)

(** Where a subscriber is; [next] is the number of messages it has loaded. *)
Inductive sub_pc : Type :=
| SubIdle
| SubIdx (next : Z)
| SubCount (next i : Z)
| SubHas (next i : Z)
| SubAvailable (next i : Z)
| SubRelease (i : Z) (w : purpose)
| SubReset (i : Z) (w : purpose)
| SubResetId (i : Z) (w : purpose).

Record sub_thread : Type := { st_sub : subscriber; st_pc : sub_pc; st_got : list result }.

Definition sub_at (s : sub_thread) (p : sub_pc) : sub_thread := {| st_sub := st_sub s; st_pc := p; st_got := st_got s |}.
Definition sub_got (s : sub_thread) (u : subscriber) (r : list result) : sub_thread :=
  {| st_sub := u; st_pc := SubIdle; st_got := st_got s ++ r |}.

(** The access has been released. *)
Definition sub_done (s : sub_thread) (w : purpose) : sub_thread :=
  let u := st_sub s in
  match w with
  | ForFetch e => sub_got s u [NotFetched e]
  | ForDrop => sub_got s {| sb_available := i64 (sb_available u + 1); sb_next_message_id := sb_next_message_id u; sb_held := sb_held u |} []
  end.

(** [fetch_message] from its first load to the return, or to the release of its access. *)
(* @source include/ipcpp/publish_subscribe/real_time/real_time_subscriber.h 135-154 RealTimeSubscriber::fetch_message *)
Definition fetch_step (g : segment T) (s : sub_thread) : option (outcome (segment T * sub_thread)) :=
  let u := st_sub s in
  match st_pc s with
  | SubIdle => Some (Ok (g,
      if sg_next_message_id g =? sb_next_message_id u then sub_got s u [NotFetched no_message_available]
      else sub_at s (SubIdx (sg_next_message_id g))))
  | SubIdx next => Some (Ok (g, sub_at s (SubCount next (subscript (sg_latest_published_idx g)))))
  | SubCount next i => Some (
      '(_, g1) ← slot_update g i (fun m => rm_set_refs m (u64 (rm_refs m + 1))); Ok (g1, sub_at s (SubHas next i)))
  | SubHas next i => Some (
      has ← access_bool (Some i) (sg_slots g);
      Ok (g, sub_at s (if (has : bool) then SubAvailable next i else SubRelease i (ForFetch no_message_available))))
  | SubAvailable next i => Some (Ok (g,
      if sb_available u <=? 0 then
        {| st_sub := {| sb_available := sb_available u; sb_next_message_id := next; sb_held := sb_held u |};
           st_pc := SubRelease i (ForFetch invalid_seek); st_got := st_got s |}
      else sub_got s {| sb_available := i64 (sb_available u - 1); sb_next_message_id := next; sb_held := sb_held u ++ [Some i] |}
             [Fetched i]))
  | _ => None
  end.

(* @source include/ipcpp/publish_subscribe/real_time/real_time_message.h 48-61 Message::Access::release *)
Definition release_step (g : segment T) (s : sub_thread) : option (outcome (segment T * sub_thread)) :=
  match st_pc s with
  | SubRelease i w => Some (
      '(m, g1) ← slot_update g i (fun m => rm_set_refs m (u64 (rm_refs m - 1)));
      Ok (g1, if rm_refs m =? 1 then sub_at s (SubReset i w) else sub_done s w))
  | SubReset i w => Some ('(_, g1) ← slot_update g i (fun m => rm_set_value m None); Ok (g1, sub_at s (SubResetId i w)))
  | SubResetId i w => Some ('(_, g1) ← slot_update g i (fun m => rm_set_id m invalid_id); Ok (g1, sub_done s w))
  | _ => None
  end.

Definition sub_step (g : segment T) (s : sub_thread) : option (outcome (segment T * sub_thread)) :=
  match st_pc s with
  | SubIdle => None
  | SubRelease _ _ | SubReset _ _ | SubResetId _ _ => release_step g s
  | _ => fetch_step g s
  end.

(** The destructor of wrapper [h] begins. *)
(* @source include/ipcpp/publish_subscribe/real_time/real_time_subscriber.h 56-66 RealTimeSubscriber::MessageWrapper::cleanup *)
Definition drop_begin (h : nat) (s : sub_thread) : option sub_thread :=
  let u := st_sub s in
  a ← sb_held u !! h;
  i ← a;
  Some {| st_sub := {| sb_available := sb_available u; sb_next_message_id := sb_next_message_id u; sb_held := delete h (sb_held u) |};
          st_pc := SubRelease i ForDrop; st_got := st_got s |}.

(** * Interleavings *)
Inductive action : Type :=
| Publish (p : nat) (v : T)
| PubStep (p : nat)
| Fetch (j : nat)
| Read (j h : nat)
| Drop (j h : nat)
| SubStep (j : nat).

(** [rc_log] are the values [publish] was called with. *)
Record conc : Type := { rc_segment : segment T; rc_pubs : list pub_thread; rc_subs : list sub_thread; rc_log : list T }.

Definition with_pub (c : conc) (p : nat) (x : pub_thread) (g : segment T) (log : list T) : conc :=
  {| rc_segment := g; rc_pubs := <[p := x]> (rc_pubs c); rc_subs := rc_subs c; rc_log := log |}.
Definition with_sub (c : conc) (j : nat) (g : segment T) (s : sub_thread) : conc :=
  {| rc_segment := g; rc_pubs := rc_pubs c; rc_subs := <[j := s]> (rc_subs c); rc_log := rc_log c |}.

(** [None]: the thread is elsewhere. *)
Definition c_step (e : action) (c : conc) : option (outcome conc) :=
  let g := rc_segment c in
  match e with
  | Publish p v =>
    x ← rc_pubs c !! p;
    match pt_pc x with PubIdle => Some (Ok (with_pub c p (pub_at x (PubSearch v)) g (rc_log c ++ [v]))) | _ => None end
  | PubStep p =>
    x ← rc_pubs c !! p;
    r ← pub_step x g;
    Some ('(y, g1) ← r; Ok (with_pub c p y g1 (rc_log c)))
  | Fetch j =>
    s ← rc_subs c !! j;
    match st_pc s with
    | SubIdle => r ← fetch_step g s; Some ('(g1, s1) ← r; Ok (with_sub c j g1 s1))
    | _ => None
    end
  | Read j h =>
    s ← rc_subs c !! j;
    match st_pc s with
    | SubIdle =>
      a ← sb_held (st_sub s) !! h;
      Some (v ← access_deref a (sg_slots g); Ok (with_sub c j g (sub_got s (st_sub s) [Value v])))
    | _ => None
    end
  | Drop j h =>
    s ← rc_subs c !! j;
    match st_pc s with SubIdle => s1 ← drop_begin h s; Some (Ok (with_sub c j g s1)) | _ => None end
  | SubStep j =>
    s ← rc_subs c !! j;
    r ← sub_step g s;
    Some ('(g1, s1) ← r; Ok (with_sub c j g1 s1))
  end.

Fixpoint c_run (es : list action) (c : conc) : option (outcome conc) :=
  match es with
  | [] => Some (Ok c)
  | e :: es' =>
    r ← c_step e c;
    match r with Ok c1 => c_run es' c1 | Throw x => Some (Throw x) | UB => Some UB end
  end.

(** The threads of a system of [RealTime]. *)
Definition c_start (y : @system T) : conc :=
  {| rc_segment := sy_segment y; rc_pubs := (fun pb => {| pt_pub := pb; pt_pc := PubIdle |}) <$> sy_publishers y;
     rc_subs := (fun u => {| st_sub := u; st_pc := SubIdle; st_got := [] |}) <$> sy_subscribers y; rc_log := [] |}.

(** * The invariant *)

(** The accesses a thread has counted and not given up. *)
Definition pub_handles (x : pub_thread) : list (option Z) :=
  match pt_pc x with
  | PubRelease idx j => [Some j; Some (pub_slot x idx)]
  | PubReset idx _ | PubResetId idx _ => [Some (pub_slot x idx)]
  | _ => [pb_prev (pt_pub x)]
  end.
Definition sub_handles (s : sub_thread) : list (option Z) :=
  sb_held (st_sub s) ++
  match st_pc s with SubHas _ i | SubAvailable _ i | SubRelease i _ => [Some i] | _ => [] end.

Definition handles_at (i : Z) (l : list (option Z)) : Z := count (at_slot i) l.
Definition pub_count (i : Z) (x : pub_thread) : Z := handles_at i (pub_handles x).
Definition sub_count (i : Z) (s : sub_thread) : Z := handles_at i (sub_handles s).
Definition handles (pubs : list pub_thread) (subs : list sub_thread) (i : Z) : Z := zsum (pub_count i) pubs + zsum (sub_count i) subs.

(** The place of a publisher, in its area of [2 ^ k] slots. *)
Definition pub_pc_ok (k : Z) (log : list T) (p : Z) (prev : option Z) (x : pub_pc) : Prop :=
  let place idx := 0 <= idx < 2 ^ k in
  let slot j := p * 2 ^ k <= j < p * 2 ^ k + 2 ^ k in
  match x with
  | PubIdle => True
  | PubSearch v => v ∈ log
  | PubValue idx v => place idx /\ v ∈ log
  | PubId idx | PubLatest idx | PubNext idx | PubAcquire idx => place idx
  | PubRelease idx j | PubReset idx j | PubResetId idx j => place idx /\ slot j /\ prev = Some j
  end.
Definition pub_thread_ok (k : Z) (log : list T) (p : nat) (x : pub_thread) : Prop :=
  pub_ok k p (pt_pub x) /\ pub_pc_ok k log (Z.of_nat p) (pb_prev (pt_pub x)) (pt_pc x).

Definition sub_slot (p : sub_pc) : option Z :=
  match p with
  | SubIdle | SubIdx _ => None
  | SubCount _ i | SubHas _ i | SubAvailable _ i | SubRelease i _ | SubReset i _ | SubResetId i _ => Some i
  end.
Record sub_thread_ok (n : Z) (log : list T) (s : sub_thread) : Prop := {
  sk_held : Forall (fun a => exists i, a = Some i /\ 0 <= i < n) (sb_held (st_sub s));
  sk_slot : forall i, sub_slot (st_pc s) = Some i -> 0 <= i < n;
  sk_got : forall v, Value v ∈ st_got s -> v ∈ log
}.

Definition slot_count_ok (t : Z) (log : list T) (r : Z) (m : message T) : Prop :=
  rm_refs m = r /\ r <= t /\ forall v, rm_value m = Some v -> v ∈ log.

(** It has seen that there is a message. *)
Definition looking (p : sub_pc) : bool :=
  match p with SubIdx _ | SubCount _ _ | SubHas _ _ | SubAvailable _ _ => true | _ => false end.

(** Something has been announced, or nobody has seen anything. *)
Definition announced (n : Z) (c : conc) : Prop := 0 <= sg_latest_published_idx (rc_segment c) < n.
Definition nothing_yet (c : conc) : Prop :=
  sg_next_message_id (rc_segment c) = umax 64 /\
  forall j s, rc_subs c !! j = Some s -> sb_next_message_id (st_sub s) = umax 64 /\ looking (st_pc s) = false.

(** After [t] steps. *)
Record conc_inv (k t : Z) (c : conc) : Prop := {
  vi_k : 1 <= k <= 31;
  vi_size : 2 ^ k * zlen (rc_pubs c) < 2 ^ 32;
  vi_t : 0 <= t < 2 ^ 60;
  vi_len : zlen (sg_slots (rc_segment c)) = 2 ^ k * zlen (rc_pubs c);
  vi_slots : forall i m, zlookup (sg_slots (rc_segment c)) i = Some m ->
    slot_count_ok t (rc_log c) (handles (rc_pubs c) (rc_subs c) i) m;
  vi_pubs : forall p x, rc_pubs c !! p = Some x -> pub_thread_ok k (rc_log c) p x;
  vi_entries : forall p, (p < length (rc_pubs c))%nat -> exists e,
    zlookup (sg_publishers (rc_segment c)) (Z.of_nat p) = Some e /\ 0 <= pe_next_local e < 2 ^ 32;
  vi_announced : announced (2 ^ k * zlen (rc_pubs c)) c \/ nothing_yet c;
  vi_next : forall p x idx, rc_pubs c !! p = Some x -> pt_pc x = PubNext idx -> announced (2 ^ k * zlen (rc_pubs c)) c;
  vi_subs : forall j s, rc_subs c !! j = Some s -> sub_thread_ok (2 ^ k * zlen (rc_pubs c)) (rc_log c) s
}.

(** * Preservation *)
Lemma handles_pub pubs subs p x y i : pubs !! p = Some x ->
  handles (<[p := y]> pubs) subs i = handles pubs subs i - pub_count i x + pub_count i y.
Proof. intros Hp. unfold handles. rewrite (zsum_insert _ _ _ _ y Hp). lia. Qed.
Lemma handles_sub pubs subs j s u i : subs !! j = Some s ->
  handles pubs (<[j := u]> subs) i = handles pubs subs i - sub_count i s + sub_count i u.
Proof. intros Hj. unfold handles. rewrite (zsum_insert _ _ _ _ u Hj). lia. Qed.

Lemma handles_at_nonneg i l : 0 <= handles_at i l.
Proof. apply count_nonneg. Qed.

Lemma handles_pub_pos pubs subs p x i : pubs !! p = Some x -> pub_count i x <= handles pubs subs i.
Proof.
  intros Hp. unfold handles. pose proof (zsum_ge (pub_count i) pubs p x ltac:(intros; apply count_nonneg) Hp).
  pose proof (zsum_nonneg (sub_count i) subs ltac:(intros; apply count_nonneg)). lia.
Qed.
Lemma handles_sub_pos pubs subs j s i : subs !! j = Some s -> sub_count i s <= handles pubs subs i.
Proof.
  intros Hj. unfold handles. pose proof (zsum_ge (sub_count i) subs j s ltac:(intros; apply count_nonneg) Hj).
  pose proof (zsum_nonneg (pub_count i) pubs ltac:(intros; apply count_nonneg)). lia.
Qed.

Lemma slot_count_ok_mono t t' log log' r m : slot_count_ok t log r m -> t <= t' -> (forall v, v ∈ log -> v ∈ log') -> slot_count_ok t' log' r m.
Proof. intros (H1 & H2 & H3) Ht Hl. split_and!; [done|lia|auto]. Qed.

(** An access to a slot that exists. *)
Lemma slot_update_ok (g : segment T) i f : 0 <= i < zlen (sg_slots g) ->
  exists m, zlookup (sg_slots g) i = Some m /\
    slot_update g i f = Ok (m, sg_set_slots g (<[Z.to_nat i := f m]> (sg_slots g))).
Proof.
  intros Hi. destruct (zlookup_is_Some _ _ Hi) as [m Hm]. exists m. split; [done|].
  unfold slot_update. rewrite Hm. simpl. by rewrite zinsert_in by done.
Qed.

(** The slots after a change of [m] to [m1] at [i], with the number of accesses changing as
    the count in the slot does. *)
Lemma slots_after k t c g1 i m m1 pubs subs :
  conc_inv k t c -> zlookup (sg_slots (rc_segment c)) i = Some m ->
  sg_slots g1 = <[Z.to_nat i := m1]> (sg_slots (rc_segment c)) ->
  (forall j, handles pubs subs j = handles (rc_pubs c) (rc_subs c) j + (if j =? i then rm_refs m1 - rm_refs m else 0)) ->
  rm_refs m1 <= t + 1 -> (forall v, rm_value m1 = Some v -> v ∈ rc_log c) ->
  forall j x, zlookup (sg_slots g1) j = Some x -> slot_count_ok (t + 1) (rc_log c) (handles pubs subs j) x.
Proof.
  intros Hc Hm Hg1 Hh Hr Hv j x Hx. pose proof (zlookup_lt _ _ _ Hm). rewrite Hg1, zlookup_insert in Hx by done.
  rewrite Hh. case_decide as Hij.
  - subst j. simplify_eq. rewrite Z.eqb_refl. destruct (vi_slots _ _ _ Hc i m Hm) as (H1 & H2 & H3).
    split_and!; [lia|lia|done].
  - rewrite (proj2 (Z.eqb_neq j i)) by done. rewrite Z.add_0_r.
    eapply slot_count_ok_mono; [by apply (vi_slots _ _ _ Hc)|lia|done].
Qed.

(** ... and after a step that changes no slot. *)
Lemma slots_kept k t c (g1 : segment T) log pubs subs :
  conc_inv k t c -> sg_slots g1 = sg_slots (rc_segment c) ->
  (forall j, handles pubs subs j = handles (rc_pubs c) (rc_subs c) j) -> (forall v, v ∈ rc_log c -> v ∈ log) ->
  forall j x, zlookup (sg_slots g1) j = Some x -> slot_count_ok (t + 1) log (handles pubs subs j) x.
Proof.
  intros Hc Hg1 Hh Hl j x Hx. rewrite Hg1 in Hx. rewrite Hh.
  eapply slot_count_ok_mono; [by apply (vi_slots _ _ _ Hc)|lia|done].
Qed.

Lemma sub_thread_ok_mono n log log' s : (forall v, v ∈ log -> v ∈ log') -> sub_thread_ok n log s -> sub_thread_ok n log' s.
Proof. intros Hl [H1 H2 H3]. split; auto. Qed.

Lemma pub_thread_ok_mono k log log' p x : (forall v, v ∈ log -> v ∈ log') -> pub_thread_ok k log p x -> pub_thread_ok k log' p x.
Proof. intros Hl [H1 H2]. split; [done|]. destruct (pt_pc x); simpl in *; try done; [auto|naive_solver]. Qed.

(** One step of a publisher. *)
Lemma rt_conc_pub k t c p x y g1 log :
  let n := 2 ^ k * zlen (rc_pubs c) in let g := rc_segment c in
  conc_inv k t c -> t + 1 < 2 ^ 60 -> rc_pubs c !! p = Some x -> (forall v, v ∈ rc_log c -> v ∈ log) ->
  zlen (sg_slots g1) = zlen (sg_slots g) ->
  (forall q, (q < length (rc_pubs c))%nat -> exists e, zlookup (sg_publishers g1) (Z.of_nat q) = Some e /\ 0 <= pe_next_local e < 2 ^ 32) ->
  pub_thread_ok k log p y ->
  (sg_latest_published_idx g1 = sg_latest_published_idx g \/ 0 <= sg_latest_published_idx g1 < n) ->
  (sg_next_message_id g1 = sg_next_message_id g \/ 0 <= sg_latest_published_idx g < n) ->
  (forall idx, pt_pc y = PubNext idx -> 0 <= sg_latest_published_idx g1 < n) ->
  (forall i m, zlookup (sg_slots g1) i = Some m -> slot_count_ok (t + 1) log (handles (<[p := y]> (rc_pubs c)) (rc_subs c) i) m) ->
  conc_inv k (t + 1) (with_pub c p y g1 log).
Proof.
  intros n g [Hk Hsz Ht0 Hlen Hsl Hpubs Hent Hann Hnext Hsubs] Ht Hp Hlog Hl1 He1 Hy Hlat Hnx Hpn Hs1. subst n g.
  split; simpl; rewrite ?zlen_insert, ?length_insert; try done; try lia.
  - intros q z [(<- & <- & _)|[_ Hz]]%list_lookup_insert_Some; [done|]. eapply pub_thread_ok_mono; eauto.
  - unfold announced, nothing_yet. simpl. destruct Hann as [Ha|[Hn Hs]]; [left; unfold announced in Ha; destruct Hlat as [->|]; done|].
    destruct Hlat as [Hlat|?]; [|by left]. destruct Hnx as [->|?]; [by right|]. left. by rewrite Hlat.
  - unfold announced. simpl. intros q z idx [(<- & <- & _)|[_ Hz]]%list_lookup_insert_Some Hq; [by eapply Hpn|].
    pose proof (Hnext q z idx Hz Hq) as Ha. unfold announced in Ha. by destruct Hlat as [->|].
  - intros j s Hj. eapply sub_thread_ok_mono; eauto.
Qed.

(** One step of a subscriber. *)
Lemma rt_conc_sub k t c j s u g1 :
  let n := 2 ^ k * zlen (rc_pubs c) in let g := rc_segment c in
  conc_inv k t c -> t + 1 < 2 ^ 60 -> rc_subs c !! j = Some s ->
  zlen (sg_slots g1) = zlen (sg_slots g) -> sg_publishers g1 = sg_publishers g ->
  sg_latest_published_idx g1 = sg_latest_published_idx g -> sg_next_message_id g1 = sg_next_message_id g ->
  sub_thread_ok n (rc_log c) u ->
  (0 <= sg_latest_published_idx g < n \/ sb_next_message_id (st_sub u) = umax 64 /\ looking (st_pc u) = false) ->
  (forall i m, zlookup (sg_slots g1) i = Some m -> slot_count_ok (t + 1) (rc_log c) (handles (rc_pubs c) (<[j := u]> (rc_subs c)) i) m) ->
  conc_inv k (t + 1) (with_sub c j g1 u).
Proof.
  intros n g [Hk Hsz Ht0 Hlen Hsl Hpubs Hent Hann Hnext Hsubs] Ht Hj Hl1 He1 Hlat Hnx Hu Hseen Hs1. subst n g.
  split; simpl; try done; try lia.
  - by rewrite He1.
  - unfold announced, nothing_yet. simpl. rewrite Hlat, Hnx. destruct Hann as [Ha|[Hn Hs]]; [by left|].
    destruct Hseen as [?|Hseen]; [by left|]. right. split; [done|].
    intros j' s' [(<- & <- & _)|[_ Hz]]%list_lookup_insert_Some; [done|]. by eapply Hs.
  - unfold announced. simpl. rewrite Hlat. done.
  - intros j' s' [(<- & <- & _)|[_ Hz]]%list_lookup_insert_Some; [done|]. eauto.
Qed.

Lemma handles_at_app i l l' : handles_at i (l ++ l') = handles_at i l + handles_at i l'.
Proof. apply count_app. Qed.

Lemma handles_at_one i j : handles_at i [Some j] = if i =? j then 1 else 0.
Proof.
  unfold handles_at, at_slot. simpl. destruct (Z.eqb_spec i j) as [->|Hne]; [by rewrite bool_decide_eq_true_2|].
  rewrite bool_decide_eq_false_2 by congruence. done.
Qed.

Lemma handles_at_two i j j' : handles_at i [Some j; Some j'] = (if i =? j then 1 else 0) + (if i =? j' then 1 else 0).
Proof. change [Some j; Some j'] with ([Some j] ++ [Some j']). by rewrite handles_at_app, !handles_at_one. Qed.

(** An access to a slot in range. *)
Lemma conc_slot k t c i f : conc_inv k t c -> 0 <= i < 2 ^ k * zlen (rc_pubs c) ->
  exists m, zlookup (sg_slots (rc_segment c)) i = Some m /\
    slot_update (rc_segment c) i f = Ok (m, sg_set_slots (rc_segment c) (<[Z.to_nat i := f m]> (sg_slots (rc_segment c)))) /\
    slot_count_ok t (rc_log c) (handles (rc_pubs c) (rc_subs c) i) m.
Proof.
  intros Hc Hi. rewrite <- (vi_len _ _ _ Hc) in Hi. destruct (slot_update_ok (rc_segment c) i f Hi) as (m & Hm & Hu).
  exists m. split_and!; [done..|]. by apply (vi_slots _ _ _ Hc).
Qed.

Section publisher.
Context (k t : Z) (c : conc) (p : nat) (x : pub_thread).
Hypothesis Hc : conc_inv k t c.
Hypothesis Ht : t + 1 < 2 ^ 60.
Hypothesis Hp : rc_pubs c !! p = Some x.
Local Abbreviation n := (2 ^ k * zlen (rc_pubs c)).
Local Abbreviation g := (rc_segment c).

Definition pub_stepped : Prop :=
  exists y g1, pub_step x g = Some (Ok (y, g1)) /\ conc_inv k (t + 1) (with_pub c p y g1 (rc_log c)).

Lemma pub_slot_range i : Z.of_nat p * 2 ^ k <= i < Z.of_nat p * 2 ^ k + 2 ^ k -> 0 <= i < n.
Proof.
  intros Hi. destruct Hc as [Hk _ _ _ _ _ _ _ _ _]. apply lookup_lt_Some in Hp.
  assert (0 < 2 ^ k) by (apply Z.pow_pos_nonneg; lia).
  assert (Z.of_nat p + 1 <= zlen (rc_pubs c)) by (unfold zlen; lia). nia.
Qed.

Lemma pub_slot_place idx : 0 <= idx < 2 ^ k -> pub_slot x idx = Z.of_nat p * 2 ^ k + idx /\ 0 <= pub_slot x idx < n /\ pub_global x idx = pub_slot x idx.
Proof.
  intros Hidx. destruct (vi_pubs _ _ _ Hc p x Hp) as [(_ & Hoff & Harea & _ & _) _].
  unfold pub_slot, pub_global. rewrite Harea, Hoff. simpl.
  pose proof (pub_slot_range (Z.of_nat p * 2 ^ k + idx) ltac:(lia)). pose proof (vi_size _ _ _ Hc).
  split_and!; [done|lia|lia|]. rewrite u64_small; lia.
Qed.

(** A step at slot [i]. *)
Lemma pub_slot_step i f y : 0 <= i < n ->
  (forall m, rm_refs m = handles (rc_pubs c) (rc_subs c) i -> rm_refs m <= t ->
    (forall j, pub_count j y = pub_count j x + (if j =? i then rm_refs (f m) - rm_refs m else 0)) /\ rm_refs (f m) <= t + 1) ->
  (forall m v, (forall w, rm_value m = Some w -> w ∈ rc_log c) -> rm_value (f m) = Some v -> v ∈ rc_log c) ->
  pub_thread_ok k (rc_log c) p y -> (forall idx, pt_pc y <> PubNext idx) ->
  exists m, zlookup (sg_slots g) i = Some m /\ rm_refs m = handles (rc_pubs c) (rc_subs c) i /\
    slot_update g i f = Ok (m, sg_set_slots g (<[Z.to_nat i := f m]> (sg_slots g))) /\
    conc_inv k (t + 1) (with_pub c p y (sg_set_slots g (<[Z.to_nat i := f m]> (sg_slots g))) (rc_log c)).
Proof.
  intros Hi Hf Hv Hy Hn. destruct (conc_slot k t c i f Hc Hi) as (m & Hm & Hu & Hr & Hrt & Hval).
  exists m. split_and!; [done..|]. destruct (Hf m Hr ltac:(lia)) as [Hcount Hle].
  eapply rt_conc_pub; try done; simpl; auto.
  - by rewrite zlen_insert.
  - apply (vi_entries _ _ _ Hc).
  - intros idx Hpc. by destruct (Hn idx).
  - apply (slots_after k t c (sg_set_slots g (<[Z.to_nat i := f m]> (sg_slots g))) i m (f m)); try done; eauto.
    intros j. rewrite (handles_pub _ _ _ _ _ j Hp), Hcount. lia.
Qed.

(** A step that leaves the slots alone. *)
Lemma pub_quiet_step y g1 : sg_slots g1 = sg_slots g ->
  (forall q, (q < length (rc_pubs c))%nat -> exists e, zlookup (sg_publishers g1) (Z.of_nat q) = Some e /\ 0 <= pe_next_local e < 2 ^ 32) ->
  pub_handles y = pub_handles x -> pub_thread_ok k (rc_log c) p y ->
  (sg_latest_published_idx g1 = sg_latest_published_idx g \/ 0 <= sg_latest_published_idx g1 < n) ->
  (sg_next_message_id g1 = sg_next_message_id g \/ 0 <= sg_latest_published_idx g < n) ->
  (forall idx, pt_pc y = PubNext idx -> 0 <= sg_latest_published_idx g1 < n) ->
  conc_inv k (t + 1) (with_pub c p y g1 (rc_log c)).
Proof.
  intros Hg He Hh Hy Hl Hnx Hn. eapply rt_conc_pub; try done; [by rewrite Hg|].
  eapply (slots_kept k t c); try done. intros j. rewrite (handles_pub _ _ _ _ _ j Hp). unfold pub_count. rewrite Hh. lia.
Qed.

Lemma pub_search_inv v : pt_pc x = PubSearch v -> pub_stepped.
Proof.
  intros Hpc. destruct (vi_pubs _ _ _ Hc p x Hp) as [Hpub Hpcok]. rewrite Hpc in Hpcok. simpl in Hpcok.
  pose proof Hpub as (Hentry & _ & Harea & Hwrap & _). pose proof (vi_k _ _ _ Hc) as Hk.
  destruct (vi_entries _ _ _ Hc p) as (e & He & Hloc); [by eapply lookup_lt_Some|].
  assert (Z.land (pe_next_local e) (2 ^ k - 1) = pe_next_local e mod 2 ^ k) as Hland.
  { replace (2 ^ k - 1) with (Z.ones k) by (rewrite Z.ones_equiv; lia). apply Z.land_ones. lia. }
  pose proof (Z.mod_pos_bound (pe_next_local e) (2 ^ k) ltac:(lia)) as Hmod.
  set (idx := pe_next_local e mod 2 ^ k) in *. destruct (pub_slot_place idx Hmod) as (Hslot & Hr & _).
  rewrite <- (vi_len _ _ _ Hc) in Hr. destruct (zlookup_is_Some _ _ Hr) as [m Hm].
  unfold pub_stepped, pub_step. rewrite Hpc, Hentry, He. simpl. rewrite Hwrap, Hland. fold idx.
  pose proof (zlookup_lt _ _ _ He). rewrite zinsert_in by done. simpl. rewrite Harea. simpl.
  rewrite (proj2 (Z.ltb_lt _ _)) by lia. simpl. rewrite Hm. simpl. eexists _, _. split; [done|].
  apply pub_quiet_step; simpl; auto; try by destruct (rm_id m =? invalid_id).
  - intros q Hq. rewrite zlookup_insert by done. case_decide as Hpq; [|by apply (vi_entries _ _ _ Hc)].
    eexists. split; [done|]. simpl. apply wrap_range. lia.
  - unfold pub_handles. destruct (rm_id m =? invalid_id); rewrite ?Hpc; done.
  - destruct (rm_id m =? invalid_id); split; try done; simpl; rewrite ?Hpc; done.
  - intros idx' Hn. destruct (rm_id m =? invalid_id); simpl in Hn; congruence.
Qed.

(** What is known at a place in [publish]. *)
Lemma pub_place : pub_ok k p (pt_pub x) /\ pub_pc_ok k (rc_log c) (Z.of_nat p) (pb_prev (pt_pub x)) (pt_pc x).
Proof. exact (vi_pubs _ _ _ Hc p x Hp). Qed.

(** A step at slot [i] that leaves its counter alone. *)
Lemma rt_pub_write_step i f y : 0 <= i < n -> (forall m, rm_refs (f m) = rm_refs m) -> pub_handles y = pub_handles x ->
  (forall m v, (forall w, rm_value m = Some w -> w ∈ rc_log c) -> rm_value (f m) = Some v -> v ∈ rc_log c) ->
  pub_thread_ok k (rc_log c) p y -> (forall idx, pt_pc y <> PubNext idx) ->
  exists m, slot_update g i f = Ok (m, sg_set_slots g (<[Z.to_nat i := f m]> (sg_slots g))) /\
    conc_inv k (t + 1) (with_pub c p y (sg_set_slots g (<[Z.to_nat i := f m]> (sg_slots g))) (rc_log c)).
Proof.
  intros Hi Hf Hh Hv Hy Hn. destruct (pub_slot_step i f y Hi) as (m & _ & _ & Hu & Hinv); try done; [|eauto].
  intros m Hr Hrt. rewrite Hf. split; [|lia]. intros j. unfold pub_count. rewrite Hh. destruct (j =? i); lia.
Qed.

Lemma rt_pub_value_inv idx v : pt_pc x = PubValue idx v -> pub_stepped.
Proof.
  intros Hpc. destruct pub_place as [Hpub Hok]. rewrite Hpc in Hok. simpl in Hok.
  destruct (pub_slot_place idx (proj1 Hok)) as (_ & Hi & _).
  destruct (rt_pub_write_step (pub_slot x idx) (fun m => rm_set_value m (Some v)) (pub_at x (PubId idx)) Hi) as (m & Hu & Hinv); try done.
  - unfold pub_handles. by rewrite Hpc.
  - intros m w _ [= <-]. apply Hok.
  - split; [done|]. simpl. apply Hok.
  - unfold pub_stepped, pub_step. rewrite Hpc, Hu. simpl. eauto.
Qed.

Lemma rt_pub_id_inv idx : pt_pc x = PubId idx -> pub_stepped.
Proof.
  intros Hpc. destruct pub_place as [Hpub Hok]. rewrite Hpc in Hok. simpl in Hok.
  destruct (pub_slot_place idx Hok) as (_ & Hi & _).
  destruct (rt_pub_write_step (pub_slot x idx) (fun m => rm_set_id m (pub_global x idx)) (pub_at x (PubLatest idx)) Hi) as (m & Hu & Hinv); try done.
  - unfold pub_handles. by rewrite Hpc.
  - intros m w Hw. simpl. auto.
  - unfold pub_stepped, pub_step. rewrite Hpc, Hu. simpl. eauto.
Qed.

Lemma pub_latest_inv idx : pt_pc x = PubLatest idx -> pub_stepped.
Proof.
  intros Hpc. destruct pub_place as [Hpub Hok]. rewrite Hpc in Hok. simpl in Hok.
  destruct (pub_slot_place idx Hok) as (_ & Hi & Hgl).
  unfold pub_stepped, pub_step. rewrite Hpc. eexists _, _. split; [done|].
  apply pub_quiet_step; simpl; rewrite ?Hgl; auto; try apply (vi_entries _ _ _ Hc).
  - unfold pub_handles. by rewrite Hpc.
  - by split.
Qed.

Lemma pub_next_inv idx : pt_pc x = PubNext idx -> pub_stepped.
Proof.
  intros Hpc. destruct pub_place as [Hpub Hok]. rewrite Hpc in Hok. simpl in Hok.
  pose proof (vi_next _ _ _ Hc p x idx Hp Hpc) as Ha. unfold announced in Ha.
  unfold pub_stepped, pub_step. rewrite Hpc. eexists _, _. split; [done|].
  apply pub_quiet_step; simpl; auto; try apply (vi_entries _ _ _ Hc).
  - unfold pub_handles. by rewrite Hpc.
  - by split.
Qed.

(** The end of [publish]. *)
Lemma pub_done_ok idx : 0 <= idx < 2 ^ k -> pub_ok k p (pt_pub x) -> pub_thread_ok k (rc_log c) p (pub_done x idx).
Proof.
  intros Hidx (H1 & H2 & H3 & H4 & _). split; [|done]. destruct (pub_slot_place idx Hidx) as (Hs & _).
  split_and!; try done. simpl. intros i [= <-]. rewrite Hs. lia.
Qed.

Lemma pub_acquire_inv idx : pt_pc x = PubAcquire idx -> pub_stepped.
Proof.
  intros Hpc. destruct pub_place as [Hpub Hok]. rewrite Hpc in Hok. simpl in Hok.
  destruct (pub_slot_place idx Hok) as (_ & Hi & _). pose proof (vi_t _ _ _ Hc).
  set (y := match pb_prev (pt_pub x) with None => pub_done x idx | Some j => pub_at x (PubRelease idx j) end).
  destruct (pub_slot_step (pub_slot x idx) (fun m => rm_set_refs m (u64 (rm_refs m + 1))) y Hi) as (m & _ & _ & Hu & Hinv).
  - intros m Hr Hrt. pose proof (handles_pub_pos _ (rc_subs c) _ _ (pub_slot x idx) Hp).
    assert (0 <= pub_count (pub_slot x idx) x) by apply handles_at_nonneg. simpl. rewrite u64_small by lia. split; [|lia].
    intros j. unfold y, pub_count, pub_handles. rewrite Hpc. destruct (pb_prev (pt_pub x)) as [j'|] eqn:Hprev; simpl.
    + rewrite handles_at_two, handles_at_one. unfold pub_slot. simpl. destruct (j =? _ + idx); lia.
    + rewrite handles_at_one. unfold handles_at, at_slot. simpl. destruct (j =? pub_slot x idx); lia.
  - intros m v Hw. simpl. auto.
  - unfold y. destruct (pb_prev (pt_pub x)) as [j|] eqn:Hprev; [|by apply pub_done_ok].
    split; [done|]. simpl. split_and!; [lia..| | |done]; destruct Hpub as (_ & _ & _ & _ & Hj); destruct (Hj j Hprev); lia.
  - unfold y. by destruct (pb_prev (pt_pub x)).
  - unfold pub_stepped, pub_step. rewrite Hpc, Hu. simpl. eauto.
Qed.

Lemma pub_release_inv idx j : pt_pc x = PubRelease idx j -> pub_stepped.
Proof.
  intros Hpc. destruct pub_place as [Hpub Hok]. rewrite Hpc in Hok. simpl in Hok. destruct Hok as (Hidx & Hj & Hprev).
  pose proof (pub_slot_range j Hj) as Hi. pose proof (vi_t _ _ _ Hc).
  set (y (m : message T) := if rm_refs m =? 1 then pub_at x (PubReset idx j) else pub_done x idx).
  destruct (conc_slot k t c j (fun m => rm_set_refs m (u64 (rm_refs m - 1))) Hc Hi) as (m0 & Hm0 & Hu0 & _).
  destruct (pub_slot_step j (fun m => rm_set_refs m (u64 (rm_refs m - 1))) (y m0) Hi) as (m & Hm & _ & Hu & Hinv).
  - intros m Hr Hrt. pose proof (handles_pub_pos _ (rc_subs c) _ _ j Hp) as Hge. unfold pub_count at 1, pub_handles in Hge. rewrite Hpc in Hge.
    rewrite handles_at_two, Z.eqb_refl in Hge. assert (1 <= rm_refs m) by (destruct (j =? pub_slot x idx); lia).
    simpl. rewrite u64_small by lia. split; [|lia].
    intros i. unfold y, pub_count, pub_handles. rewrite Hpc.
    rewrite handles_at_two. destruct (rm_refs m0 =? 1); simpl; rewrite handles_at_one; unfold pub_slot; simpl; destruct (i =? j); lia.
  - intros m v Hw. simpl. auto.
  - unfold y. destruct (rm_refs m0 =? 1); [split; [done|]; simpl; done|by apply pub_done_ok].
  - unfold y. by destruct (rm_refs m0 =? 1).
  - assert (m0 = m) as <- by congruence. unfold pub_stepped, pub_step. rewrite Hpc, Hu. simpl. eauto.
Qed.

Lemma pub_reset_inv idx j : pt_pc x = PubReset idx j -> pub_stepped.
Proof.
  intros Hpc. destruct pub_place as [Hpub Hok]. rewrite Hpc in Hok. simpl in Hok. pose proof (pub_slot_range j (proj1 (proj2 Hok))) as Hi.
  destruct (rt_pub_write_step j (fun m => rm_set_value m None) (pub_at x (PubResetId idx j)) Hi) as (m & Hu & Hinv); try done.
  - unfold pub_handles. by rewrite Hpc.
  - unfold pub_stepped, pub_step. rewrite Hpc, Hu. simpl. eauto.
Qed.

Lemma pub_reset_id_inv idx j : pt_pc x = PubResetId idx j -> pub_stepped.
Proof.
  intros Hpc. destruct pub_place as [Hpub Hok]. rewrite Hpc in Hok. simpl in Hok. pose proof (pub_slot_range j (proj1 (proj2 Hok))) as Hi.
  destruct (rt_pub_write_step j (fun m => rm_set_id m invalid_id) (pub_done x idx) Hi) as (m & Hu & Hinv); try done.
  - unfold pub_handles. by rewrite Hpc.
  - intros m w Hw. simpl. auto.
  - apply pub_done_ok; [apply Hok|done].
  - unfold pub_stepped, pub_step. rewrite Hpc, Hu. simpl. eauto.
Qed.

Lemma rt_pub_step_inv o : pub_step x g = Some o -> exists y g1, o = Ok (y, g1) /\ conc_inv k (t + 1) (with_pub c p y g1 (rc_log c)).
Proof.
  intros Ho. assert (pub_stepped) as (y & g1 & Hs & Hinv); [|rewrite Hs in Ho; injection Ho as <-; eauto].
  destruct (pt_pc x) as [|v|idx v|idx|idx|idx|idx|idx j|idx j|idx j] eqn:Hpc;
    [unfold pub_step in Ho; by rewrite Hpc in Ho|..];
    eauto using pub_search_inv, rt_pub_value_inv, rt_pub_id_inv, pub_latest_inv, pub_next_inv, pub_acquire_inv,
      pub_release_inv, pub_reset_inv, pub_reset_id_inv.
Qed.

End publisher.

Section subscriber.
Context (k t : Z) (c : conc) (j : nat) (s : sub_thread).
Hypothesis Hc : conc_inv k t c.
Hypothesis Ht : t + 1 < 2 ^ 60.
Hypothesis Hj : rc_subs c !! j = Some s.
Local Abbreviation n := (2 ^ k * zlen (rc_pubs c)).
Local Abbreviation g := (rc_segment c).

Definition seen (u : sub_thread) : Prop :=
  0 <= sg_latest_published_idx g < n \/ sb_next_message_id (st_sub u) = umax 64 /\ looking (st_pc u) = false.

(** Whoever looks, or has looked, has seen an announcement. *)
Lemma seen_looking : looking (st_pc s) = true \/ sg_next_message_id g <> sb_next_message_id (st_sub s) -> 0 <= sg_latest_published_idx g < n.
Proof.
  intros Hl. destruct (vi_announced _ _ _ Hc) as [Ha|[Hn Hs]]; [done|]. destruct (Hs j s Hj) as [H1 H2].
  destruct Hl as [Hl|Hl]; congruence.
Qed.

Lemma seen_mono u : sb_next_message_id (st_sub u) = sb_next_message_id (st_sub s) -> (looking (st_pc u) = true -> looking (st_pc s) = true) -> seen u.
Proof.
  intros Hn Hl. destruct (vi_announced _ _ _ Hc) as [Ha|[_ Hs]]; [by left|]. destruct (Hs j s Hj) as [H1 H2]. right.
  rewrite Hn. split; [done|]. destruct (looking (st_pc u)); [by rewrite Hl in H2|done].
Qed.

Lemma sub_slot_step i f u : 0 <= i < n ->
  (forall m, rm_refs m = handles (rc_pubs c) (rc_subs c) i -> rm_refs m <= t ->
    (forall i', sub_count i' u = sub_count i' s + (if i' =? i then rm_refs (f m) - rm_refs m else 0)) /\ rm_refs (f m) <= t + 1) ->
  (forall m v, rm_value (f m) = Some v -> rm_value m = Some v) ->
  sub_thread_ok n (rc_log c) u -> seen u ->
  exists m, zlookup (sg_slots g) i = Some m /\
    slot_update g i f = Ok (m, sg_set_slots g (<[Z.to_nat i := f m]> (sg_slots g))) /\
    conc_inv k (t + 1) (with_sub c j (sg_set_slots g (<[Z.to_nat i := f m]> (sg_slots g))) u).
Proof.
  intros Hi Hf Hv Hu Hseen. destruct (conc_slot k t c i f Hc Hi) as (m & Hm & Hup & Hr & Hrt & Hval).
  exists m. split_and!; [done..|]. destruct (Hf m Hr ltac:(lia)) as [Hcount Hle].
  eapply rt_conc_sub; try done; simpl; auto.
  - by rewrite zlen_insert.
  - apply (slots_after k t c (sg_set_slots g (<[Z.to_nat i := f m]> (sg_slots g))) i m (f m)); try done; eauto.
    intros i'. rewrite (handles_sub _ _ _ _ _ i' Hj), Hcount. lia.
Qed.

Lemma sub_write_step i f u : 0 <= i < n -> (forall m, rm_refs (f m) = rm_refs m) -> (forall i', sub_count i' u = sub_count i' s) ->
  (forall m v, rm_value (f m) = Some v -> rm_value m = Some v) ->
  sub_thread_ok n (rc_log c) u -> seen u ->
  exists m, slot_update g i f = Ok (m, sg_set_slots g (<[Z.to_nat i := f m]> (sg_slots g))) /\
    conc_inv k (t + 1) (with_sub c j (sg_set_slots g (<[Z.to_nat i := f m]> (sg_slots g))) u).
Proof.
  intros Hi Hf Hh Hv Hu Hs. destruct (sub_slot_step i f u Hi) as (m & _ & Hup & Hinv); try done; [|eauto].
  intros m Hr Hrt. rewrite Hf. split; [|lia]. intros i'. rewrite Hh. destruct (i' =? i); lia.
Qed.

Lemma sub_quiet_step u : (forall i, sub_count i u = sub_count i s) -> sub_thread_ok n (rc_log c) u -> seen u ->
  conc_inv k (t + 1) (with_sub c j g u).
Proof.
  intros Hh Hu Hs. eapply rt_conc_sub; try done.
  eapply (slots_kept k t c); try done. intros i. rewrite (handles_sub _ _ _ _ _ i Hj), Hh. lia.
Qed.

Lemma sub_known : sub_thread_ok n (rc_log c) s.
Proof. exact (vi_subs _ _ _ Hc j s Hj). Qed.

Lemma sub_at_ok p : (forall i, sub_slot p = Some i -> 0 <= i < n) -> sub_thread_ok n (rc_log c) (sub_at s p).
Proof. intros Hp. destruct sub_known as [H1 H2 H3]. by split. Qed.

Lemma sub_got_ok u r : Forall (fun a => exists i, a = Some i /\ 0 <= i < n) (sb_held u) ->
  (forall v, Value v ∈ r -> v ∈ rc_log c) -> sub_thread_ok n (rc_log c) (sub_got s u r).
Proof.
  intros Hu Hr. destruct sub_known as [H1 H2 H3]. split; simpl; try done. intros v [Hv|Hv]%elem_of_app; auto.
Qed.

Lemma sub_done_ok w : sub_thread_ok n (rc_log c) (sub_done s w).
Proof.
  destruct sub_known as [H1 H2 H3]. destruct w; apply sub_got_ok; try done.
  - intros v ?%list_elem_of_singleton. done.
  - intros v ?%elem_of_nil. done.
Qed.

Lemma sub_done_handles w i : sub_count i (sub_done s w) = handles_at i (sb_held (st_sub s)).
Proof. unfold sub_count, sub_handles. destruct w; simpl; by rewrite app_nil_r. Qed.

Definition stepped (o : option (outcome (segment T * sub_thread))) : Prop :=
  exists g1 u, o = Some (Ok (g1, u)) /\ conc_inv k (t + 1) (with_sub c j g1 u).

Lemma fetch_inv : looking (st_pc s) = true \/ st_pc s = SubIdle -> stepped (fetch_step g s).
Proof.
  intros Hl. destruct sub_known as [Hheld Hslot Hgot]. pose proof (vi_t _ _ _ Hc).
  unfold stepped, fetch_step. destruct (st_pc s) as [|next|next i|next i|next i|i w|i w|i w] eqn:Hpc; try (destruct Hl; done).
  - eexists _, _. split; [done|]. destruct (Z.eqb_spec (sg_next_message_id g) (sb_next_message_id (st_sub s))) as [He|He].
    + apply sub_quiet_step; [|apply sub_got_ok; [done|by intros v ?%list_elem_of_singleton]|by apply seen_mono].
      intros i. unfold sub_count, sub_handles. by rewrite Hpc.
    + apply sub_quiet_step; [|by apply sub_at_ok|left; apply seen_looking; by right].
      intros i. unfold sub_count, sub_handles. by rewrite Hpc.
  - assert (0 <= sg_latest_published_idx g < n) as Ha by (apply seen_looking; left; by rewrite Hpc).
    eexists _, _. split; [done|]. apply sub_quiet_step; [|apply sub_at_ok; intros i [= <-]; pose proof (vi_size _ _ _ Hc); unfold subscript; rewrite u32_small by lia; exact Ha|by left].
    intros i. unfold sub_count, sub_handles. by rewrite Hpc.
  - assert (0 <= sg_latest_published_idx g < n) as Ha by (apply seen_looking; left; by rewrite Hpc).
    destruct (sub_slot_step i (fun m => rm_set_refs m (u64 (rm_refs m + 1))) (sub_at s (SubHas next i))) as (m & _ & Hu & Hinv);
      [by apply Hslot| |done|apply sub_at_ok; intros i' [= <-]; by apply Hslot|by left|rewrite Hu; simpl; eauto].
    intros m Hr Hrt. pose proof (handles_sub_pos (rc_pubs c) _ _ _ i Hj). assert (0 <= sub_count i s) by apply handles_at_nonneg.
    simpl. rewrite u64_small by lia. split; [|lia].
    intros i'. unfold sub_count, sub_handles. simpl. rewrite Hpc, !handles_at_app, handles_at_one. destruct (i' =? i); unfold handles_at; simpl; lia.
  - assert (0 <= sg_latest_published_idx g < n) as Ha by (apply seen_looking; left; by rewrite Hpc).
    destruct (conc_slot k t c i id Hc) as (m & Hm & _); [by apply Hslot|].
    unfold access_bool. simpl. rewrite Hm. simpl. eexists _, _. split; [done|].
    apply sub_quiet_step; [| |by left].
    + intros i'. unfold sub_count, sub_handles. rewrite Hpc. by destruct (bool_decide _).
    + apply sub_at_ok. intros i'. destruct (bool_decide _); intros [= <-]; by apply Hslot.
  - assert (0 <= sg_latest_published_idx g < n) as Ha by (apply seen_looking; left; by rewrite Hpc).
    eexists _, _. split; [done|]. destruct (sb_available (st_sub s) <=? 0); apply sub_quiet_step; try by left.
    + intros i'. unfold sub_count, sub_handles. by rewrite Hpc.
    + by split.
    + intros i'. unfold sub_count, sub_handles. simpl. rewrite Hpc. by rewrite app_nil_r.
    + apply sub_got_ok; [|by intros v ?%list_elem_of_singleton]. simpl. apply Forall_app. split; [done|].
      constructor; [|constructor]. exists i. split; [done|]. by apply Hslot.
Qed.

Lemma rt_release_inv : (match st_pc s with SubRelease _ _ | SubReset _ _ | SubResetId _ _ => True | _ => False end) -> stepped (release_step g s).
Proof.
  intros Hl. destruct sub_known as [Hheld Hslot Hgot]. pose proof (vi_t _ _ _ Hc).
  unfold stepped, release_step. destruct (st_pc s) as [|next|next i|next i|next i|i w|i w|i w] eqn:Hpc; try done.
  - destruct (conc_slot k t c i (fun m => rm_set_refs m (u64 (rm_refs m - 1))) Hc) as (m0 & Hm0 & _ & _); [by apply Hslot|].
    set (u := if rm_refs m0 =? 1 then sub_at s (SubReset i w) else sub_done s w).
    destruct (sub_slot_step i (fun m => rm_set_refs m (u64 (rm_refs m - 1))) u) as (m & Hm & Hu & Hinv); [by apply Hslot| |done| | |].
    + intros m Hr Hrt. pose proof (handles_sub_pos (rc_pubs c) _ _ _ i Hj) as Hge.
      assert (forall i', sub_count i' s = handles_at i' (sb_held (st_sub s)) + (if i' =? i then 1 else 0)) as Hcount.
      { intros i'. unfold sub_count, sub_handles. rewrite Hpc, handles_at_app, handles_at_one. done. }
      rewrite Hcount, Z.eqb_refl in Hge. pose proof (handles_at_nonneg i (sb_held (st_sub s))).
      simpl. rewrite u64_small by lia. split; [|lia]. intros i'. rewrite Hcount. unfold u. destruct (rm_refs m0 =? 1).
      * unfold sub_count, sub_handles. simpl. rewrite app_nil_r. destruct (i' =? i); lia.
      * rewrite sub_done_handles. destruct (i' =? i); lia.
    + unfold u. destruct (rm_refs m0 =? 1); [apply sub_at_ok; intros i' [= <-]; by apply Hslot|apply sub_done_ok].
    + apply seen_mono; unfold u; destruct (rm_refs m0 =? 1); try done; by destruct w.
    + assert (m0 = m) as <- by congruence. rewrite Hu. simpl. eauto.
  - destruct (sub_write_step i (fun m => rm_set_value m None) (sub_at s (SubResetId i w))) as (m & Hu & Hinv);
      [by apply Hslot|done| |done|apply sub_at_ok; intros i' [= <-]; by apply Hslot|by apply seen_mono|rewrite Hu; simpl; eauto].
    intros i'. unfold sub_count, sub_handles. by rewrite Hpc.
  - destruct (sub_write_step i (fun m => rm_set_id m invalid_id) (sub_done s w)) as (m & Hu & Hinv);
      [by apply Hslot|done| |done|apply sub_done_ok|apply seen_mono; by destruct w|rewrite Hu; simpl; eauto].
    intros i'. rewrite sub_done_handles. unfold sub_count, sub_handles. by rewrite Hpc, app_nil_r.
Qed.

End subscriber.

(** * Every interleaving *)
Definition is_read (e : action) : bool := match e with Read _ _ => true | _ => false end.

Lemma handles_at_delete i l h j : l !! h = Some (Some j) -> handles_at i (delete h l) + (if i =? j then 1 else 0) = handles_at i l.
Proof.
  intros Hh. unfold handles_at. rewrite (count_delete _ _ _ _ Hh). pose proof (handles_at_one i j) as H1.
  unfold handles_at in H1. simpl in H1. destruct (at_slot i (Some j)), (i =? j); lia.
Qed.

Lemma rt_c_step_inv k t c e o : conc_inv k t c -> t + 1 < 2 ^ 60 -> c_step e c = Some o ->
  (exists c1, o = Ok c1 /\ conc_inv k (t + 1) c1) \/ is_read e = true /\ o = Throw bad_optional_access.
Proof.
  intros Hc Ht. destruct e as [p v|p|j|j h|j h|j]; simpl.
  - intros (x & Hp & Ho)%bind_Some. destruct (pt_pc x) eqn:Hpc; simplify_eq. left. eexists. split; [done|].
    pose proof Hc as [Hk Hsz Ht0 Hlen Hsl Hpubs Hent Hann Hnext Hsubs].
    assert (forall w, w ∈ rc_log c -> w ∈ rc_log c ++ [v]) as Hlog by (intros; apply elem_of_app; by left).
    eapply rt_conc_pub; try done; auto.
    + split; [apply (Hpubs p x Hp)|]. simpl. apply elem_of_app. right. by apply list_elem_of_singleton.
    + eapply (slots_kept k t c); try done. intros i. rewrite (handles_pub _ _ _ _ _ i Hp).
      unfold pub_count, pub_handles. rewrite Hpc. simpl. lia.
  - intros (x & Hp & Ho)%bind_Some. apply bind_Some in Ho as (r & Hr & [= <-]).
    destruct (rt_pub_step_inv k t c p x Hc Ht Hp r Hr) as (y & g1 & -> & Hinv). left. simpl. eauto.
  - intros (s & Hj & Ho)%bind_Some. destruct (st_pc s) eqn:Hpc; try done. apply bind_Some in Ho as (r & Hr & [= <-]).
    destruct (fetch_inv k t c j s Hc Ht Hj (or_intror Hpc)) as (g1 & u & Hu & Hinv). rewrite Hr in Hu. injection Hu as ->. left. simpl. eauto.
  - intros (s & Hj & Ho)%bind_Some. destruct (st_pc s) eqn:Hpc; try done. apply bind_Some in Ho as (a & Ha & [= <-]).
    pose proof (vi_subs _ _ _ Hc j s Hj) as [Hheld _ _]. destruct (Forall_lookup_1 _ _ _ _ Hheld Ha) as (i & -> & Hi).
    destruct (conc_slot k t c i id Hc Hi) as (m & Hm & _ & _ & _ & Hval).
    unfold access_deref. simpl. rewrite Hm. simpl. destruct (rm_value m) as [v|] eqn:Hv; simpl; [left|by right].
    eexists. split; [done|]. apply (sub_quiet_step k t c j s Hc Ht Hj).
    + intros i'. unfold sub_count, sub_handles. by rewrite Hpc.
    + apply (sub_got_ok k t c j s Hc Hj); [done|]. intros w Hw%list_elem_of_singleton. injection Hw as ->. auto.
    + by apply (seen_mono k t c j s).
  - intros (s & Hj & Ho)%bind_Some. destruct (st_pc s) eqn:Hpc; try done. apply bind_Some in Ho as (s1 & Hs1 & [= <-]).
    pose proof (vi_subs _ _ _ Hc j s Hj) as [Hheld _ Hgot]. unfold drop_begin in Hs1.
    apply bind_Some in Hs1 as (a & Ha & Hs1). apply bind_Some in Hs1 as (i & -> & [= <-]).
    destruct (Forall_lookup_1 _ _ _ _ Hheld Ha) as (i' & [= <-] & Hi). left. eexists. split; [done|].
    apply (sub_quiet_step k t c j s Hc Ht Hj).
    + intros i'. unfold sub_count, sub_handles. simpl. rewrite Hpc, app_nil_r, handles_at_app, handles_at_one. by apply handles_at_delete.
    + split; simpl; [by apply Forall_delete| |done]. by intros ? [= <-].
    + by apply (seen_mono k t c j s).
  - intros (s & Hj & Ho)%bind_Some. apply bind_Some in Ho as (r & Hr & [= <-]). left.
    assert (stepped k t c j (sub_step (rc_segment c) s)) as (g1 & u & Hu & Hinv).
    { unfold sub_step in *. destruct (st_pc s) eqn:Hpc; try done.
      1-4: apply (fetch_inv k t c j s Hc Ht Hj); left; by rewrite Hpc.
      all: apply (rt_release_inv k t c j s Hc Ht Hj); by rewrite Hpc. }
    rewrite Hr in Hu. injection Hu as ->. simpl. eauto.
Qed.

Lemma rt_c_run_inv k es : forall t c o, conc_inv k t c -> t + zlen es < 2 ^ 60 -> c_run es c = Some o ->
  (exists c1, o = Ok c1 /\ conc_inv k (t + zlen es) c1) \/ existsb is_read es = true /\ o = Throw bad_optional_access.
Proof.
  induction es as [|e es IH]; intros t c o Hc Ht; simpl.
  - intros [= <-]. left. exists c. by rewrite zlen_nil, Z.add_0_r.
  - rewrite zlen_cons in *. pose proof (zlen_nonneg es). intros (r & Hr & Ho)%bind_Some.
    destruct (rt_c_step_inv k t c e r Hc ltac:(lia) Hr) as [(c1 & -> & Hc1)|[He ->]].
    + simpl in Ho. destruct (IH (t + 1) c1 o Hc1 ltac:(lia) Ho) as [(c2 & -> & Hc2)|[He ->]].
      * left. exists c2. replace (t + (zlen es + 1)) with (t + 1 + zlen es) by lia. done.
      * right. by rewrite He, orb_true_r.
    + simpl in Ho. injection Ho as <-. right. by rewrite He.
Qed.

Lemma zsum_fmap {A B} (f : B -> Z) (h : A -> B) (l : list A) : zsum f (h <$> l) = zsum (fun x => f (h x)) l.
Proof. induction l as [|x l IH]; [done|]. change (h <$> x :: l) with (h x :: (h <$> l)). simpl. by rewrite IH. Qed.

(** The publishers of a fresh segment hold nothing. *)
Lemma construct_prev cc who m : forall p (g : segment T) pbs g', construct_publishers cc who m p g = Ok (pbs, g') -> Forall (fun pb => pb_prev pb = None) pbs.
Proof.
  induction m as [|m IH]; intros p g pbs g'; simpl; [by intros [= <- <-]|].
  intros ([pb g1] & Hpb & Ho)%bind_Ok. apply bind_Ok in Ho as ([pbs' g2] & Hpbs & [= <- <-]). constructor; [|by eapply IH].
  unfold publisher_construct in Hpb. apply bind_Ok in Hpb as (? & _ & Hpb). apply bind_Ok in Hpb as (? & _ & Hpb).
  apply bind_Ok in Hpb as (? & _ & Hpb). apply bind_Ok in Hpb as (? & _ & [= <- _]). done.
Qed.

Lemma start_prev cc who sizeof_T size_bytes o m (y : @system T) : start cc who sizeof_T size_bytes o m = Ok (Expected y) ->
  Forall (fun pb => pb_prev pb = None) (sy_publishers y).
Proof.
  unfold start. intros ([g|e] & _ & Ho)%bind_Ok; [|done]. apply bind_Ok in Ho as ([pbs g1] & Hpbs & [= <-]).
  by eapply construct_prev.
Qed.

Lemma rt_c_start_inv k acquires (y : @system T) m : sys_inv k acquires y (register_start m) -> Forall (fun pb => pb_prev pb = None) (sy_publishers y) ->
  conc_inv k 0 (c_start y).
Proof.
  intros [Hk Hsz _ _ _ [Hlen Hsl] Hpubs Hent [_ Hver] _ Hsubs] Hprev. simpl in Hver.
  assert (zlen (rc_pubs (c_start y)) = zlen (sy_publishers y)) as Hn by (unfold zlen; simpl; by rewrite length_fmap).
  assert (forall s, s ∈ sy_subscribers y -> sb_held s = [] /\ sb_next_message_id s = umax 64) as Hs.
  { intros s [j Hj]%list_elem_of_lookup_1. destruct (Forall2_lookup_l _ _ _ _ _ Hsubs Hj) as (x & Hx & Hok).
    simpl in Hx. apply lookup_replicate in Hx as [-> _]. destruct Hok as (_ & H2 & _ & _ & H5). simpl in *.
    split; [by inversion H5|]. rewrite H2. reflexivity. }
  assert (forall pb, pb ∈ sy_publishers y -> pb_prev pb = None) as Hp by by apply Forall_forall.
  split; rewrite ?Hn; simpl; try done.
  - intros i x Hx. pose proof (zlookup_lt _ _ _ Hx) as Hi. rewrite Hlen in Hi. destruct (Hsl i Hi) as (x' & Hx' & Hr & _ & Hv). simplify_eq.
    assert (refs_of (sy_publishers y) (sy_subscribers y) i = 0) as H0.
    { unfold refs_of, pub_refs, sub_refs. rewrite count_zsum, (zsum_ext _ (fun _ => 0) (sy_publishers y)), (zsum_ext _ (fun _ => 0) (sy_subscribers y));
        [rewrite !zsum_const; lia|intros s Hin; by rewrite (proj1 (Hs s Hin))|intros pb Hin; by rewrite (Hp pb Hin)]. }
    assert (handles (rc_pubs (c_start y)) (rc_subs (c_start y)) i = 0) as He.
    { unfold handles. simpl. rewrite !zsum_fmap, (zsum_ext _ (fun _ => 0) (sy_publishers y)), (zsum_ext _ (fun _ => 0) (sy_subscribers y));
        [rewrite !zsum_const; lia|intros s Hin; unfold sub_count, sub_handles; simpl; by rewrite (proj1 (Hs s Hin))|].
      intros pb Hin. unfold pub_count, pub_handles. simpl. by rewrite (Hp pb Hin). }
    simpl in He. rewrite H0 in Hr, Hv. rewrite He. split_and!; [done|done|]. destruct Hv as [-> _]. done.
  - intros p x Hx. apply list_lookup_fmap_Some in Hx as (pb & -> & Hpb). split; [by apply Hpubs|done].
  - intros p Hlt. rewrite length_fmap in Hlt. by apply Hent.
  - right. split; [simpl; by rewrite Hver|]. intros j s Hj. apply list_lookup_fmap_Some in Hj as (u & -> & Hu). simpl.
    split; [|done]. apply Hs. by eapply list_elem_of_lookup_2.
  - intros p x idx Hx Hpc. apply list_lookup_fmap_Some in Hx as (pb & -> & _). done.
  - intros j s Hj. apply list_lookup_fmap_Some in Hj as (u & -> & Hu). apply list_elem_of_lookup_2 in Hu.
    split; simpl; [by rewrite (proj1 (Hs u Hu))|done|by intros v ?%elem_of_nil].
Qed.

(** C4 Real-time publish/subscribe counts its references exactly in every interleaving of the
    accesses of any number of publishers and subscribers: a run never leaves the buffer and ends
    in an exception only where a wrapper is read; after it, the counter of every slot is the
    number of accesses to it that exist, and whatever a wrapper has been read for, and every
    value in a slot, has been passed to [publish]. *)
Theorem real_time_counts_exact (cc : compiler) (who : Z -> process_data) (sizeof_T size_bytes : Z) (o : options) (m : nat) (es : list action) :
  options_fit o -> Z.of_nat m <= max_subscribers o ->
  (forall r, required_size_bytes cc sizeof_T o = Ok r -> r <= size_bytes) -> zlen es < 2 ^ 60 ->
  exists y, start cc who sizeof_T size_bytes o m = Ok (Expected y) /\
    forall r, c_run es (c_start y) = Some r ->
      (existsb is_read es = true /\ r = Throw bad_optional_access) \/
      exists c, r = Ok c /\
        (forall i x, zlookup (sg_slots (rc_segment c)) i = Some x ->
          rm_refs x = handles (rc_pubs c) (rc_subs c) i /\ forall v, rm_value x = Some v -> v ∈ rc_log c) /\
        (forall j s v, rc_subs c !! j = Some s -> Value v ∈ st_got s -> v ∈ rc_log c).
Proof.
  intros Hfit Hm Hreq Hes. destruct (start_inv (T := T) cc who sizeof_T size_bytes o m Hfit Hm Hreq) as (k & y & Hy & _ & _ & _ & Hinv & _).
  exists y. split; [done|]. intros r Hr.
  destruct (rt_c_run_inv k es 0 _ r (rt_c_start_inv _ _ _ _ Hinv (start_prev _ _ _ _ _ _ _ Hy)) ltac:(lia) Hr) as [(c & -> & Hc)|?]; [right|by left].
  exists c. split; [done|]. split.
  - intros i x Hx. destruct (vi_slots _ _ _ Hc i x Hx) as (H1 & _ & H3). done.
  - intros j s v Hj. apply (sk_got _ _ _ (vi_subs _ _ _ Hc j s Hj)).
Qed.

(** * Calls that nobody interrupts *)
Definition pub_next (a b : pub_thread * segment T) : Prop := pub_step a.1 a.2 = Some (Ok b).
Definition sub_next (a b : segment T * sub_thread) : Prop := sub_step a.1 a.2 = Some (Ok b).

Lemma slot_update_eq (g : segment T) i m f : zlookup (sg_slots g) i = Some m ->
  slot_update g i f = Ok (m, sg_set_slots g (<[Z.to_nat i := f m]> (sg_slots g))).
Proof. intros Hm. unfold slot_update. rewrite Hm. simpl. rewrite zinsert_in by (by eapply zlookup_lt). done. Qed.

Lemma set_slots_twice (g : segment T) b b' : sg_set_slots (sg_set_slots g b) b' = sg_set_slots g b'.
Proof. done. Qed.

Lemma zlookup_insert_same (b : list (message T)) i m m' : zlookup b i = Some m -> zlookup (<[Z.to_nat i := m']> b) i = Some m'.
Proof. intros Hm. rewrite zlookup_insert by (by eapply zlookup_lt). by rewrite decide_True. Qed.

Definition put_entry (g : segment T) (pb : publisher) (e : publisher_entry) (next_local : Z) : segment T :=
  sg_set_publishers g (<[Z.to_nat (pb_entry_idx pb) := {| pe_process := pe_process e; pe_next_local := next_local; pe_id := pe_id e |}]> (sg_publishers g)).

(** The search of [publish]. *)
Lemma search_alone pb v fuel : forall (g : segment T) e idx next_local,
  zlookup (sg_publishers g) (pb_entry_idx pb) = Some e ->
  find_free fuel pb (sg_slots g) (pe_next_local e) = Ok (idx, next_local) ->
  rtc pub_next ({| pt_pub := pb; pt_pc := PubSearch v |}, g) ({| pt_pub := pb; pt_pc := PubValue idx v |}, put_entry g pb e next_local).
Proof.
  induction fuel as [|fuel IH]; intros g e idx next_local He Hf; [done|]. simpl in Hf.
  apply bind_Ok in Hf as ([] & Hreq & Hf). apply bind_Ok in Hf as (m & Hm%must_Some & Hf).
  assert (pub_next ({| pt_pub := pb; pt_pc := PubSearch v |}, g)
    (if rm_id m =? invalid_id then {| pt_pub := pb; pt_pc := PubValue (Z.land (pe_next_local e) (pb_wrap_around pb)) v |}
     else {| pt_pub := pb; pt_pc := PubSearch v |}, put_entry g pb e (u32 (pe_next_local e + 1)))) as Hstep.
  { unfold pub_next, pub_step, pub_slot. simpl. rewrite He. simpl. rewrite zinsert_in by (by eapply zlookup_lt). simpl.
    rewrite Hreq. simpl. rewrite Hm. simpl. by destruct (rm_id m =? invalid_id). }
  eapply rtc_l; [exact Hstep|]. destruct (rm_id m =? invalid_id).
  - injection Hf as <- <-. apply rtc_refl.
  - set (e1 := {| pe_process := pe_process e; pe_next_local := u32 (pe_next_local e + 1); pe_id := pe_id e |}).
    replace (put_entry g pb e next_local) with (put_entry (put_entry g pb e (u32 (pe_next_local e + 1))) pb e1 next_local).
    + apply IH; [|done]. simpl. rewrite zlookup_insert by (by eapply zlookup_lt). by rewrite decide_True.
    + unfold put_entry, sg_set_publishers. simpl. by rewrite list_insert_insert_eq.
Qed.

(** Releasing the previous message. *)
Lemma give_up_alone pb idx j (g : segment T) b : release (Some j) (sg_slots g) = Ok b ->
  rtc pub_next ({| pt_pub := pb; pt_pc := PubRelease idx j |}, g)
    (pub_done {| pt_pub := pb; pt_pc := PubRelease idx j |} idx, sg_set_slots g b).
Proof.
  unfold release. intros (m & Hm%must_Some & Hb)%bind_Ok. rewrite zinsert_in in Hb by (by eapply zlookup_lt). injection Hb as <-.
  eapply rtc_l.
  { unfold pub_next, pub_step. simpl. rewrite (slot_update_eq _ _ _ _ Hm). simpl. reflexivity. }
  destruct (rm_refs m =? 1); [|apply rtc_refl]. simpl.
  eapply rtc_l.
  { unfold pub_next, pub_step. simpl. erewrite slot_update_eq by (by eapply zlookup_insert_same). reflexivity. }
  eapply rtc_l.
  { unfold pub_next, pub_step. simpl. erewrite slot_update_eq by (eapply zlookup_insert_same; by eapply zlookup_insert_same). reflexivity. }
  simpl. rewrite !list_insert_insert_eq. apply rtc_refl.
Qed.

Lemma rt_publish_alone fuel v pb (g : segment T) pb' g' : publish fuel v pb g = Ok (pb', g') ->
  rtc pub_next ({| pt_pub := pb; pt_pc := PubSearch v |}, g) ({| pt_pub := pb'; pt_pc := PubIdle |}, g').
Proof.
  unfold publish, publish_notify. intros ([idx g1] & Hn & Hf)%bind_Ok. apply bind_Ok in Hn as (e & He%must_Some & Hn).
  apply bind_Ok in Hn as ([idx0 nl] & Hfree & Hn). apply bind_Ok in Hn as (pubs & Hpubs%must_Some & Hn).
  apply bind_Ok in Hn as (m & Hm%must_Some & Hn). apply bind_Ok in Hn as (b & Hb%must_Some & [= -> <-]).
  rewrite zinsert_in in Hpubs by (by eapply zlookup_lt). injection Hpubs as <-.
  rewrite zinsert_in in Hb by (by eapply zlookup_lt). injection Hb as <-.
  etrans; [by eapply search_alone|]. fold (put_entry g pb e nl) in Hf.
  set (g0 := put_entry g pb e nl) in *. assert (zlookup (sg_slots g0) ((pb_area pb).1 + idx) = Some m) as Hm0 by done.
  change (sg_slots g) with (sg_slots g0) in Hf. clearbody g0.
  eapply rtc_l.
  { unfold pub_next, pub_step. simpl. erewrite slot_update_eq by exact Hm0. reflexivity. }
  eapply rtc_l.
  { unfold pub_next, pub_step. simpl. erewrite slot_update_eq by (by eapply zlookup_insert_same). reflexivity. }
  simpl. rewrite list_insert_insert_eq. eapply rtc_l; [reflexivity|]. eapply rtc_l; [reflexivity|].
  unfold publish_finish, acquire_unsafe in Hf. apply bind_Ok in Hf as ([a b1] & Ha & Hf).
  apply bind_Ok in Ha as (m1 & Hm1%must_Some & Ha). apply bind_Ok in Ha as (b1' & Hb1%must_Some & [= <- ->]).
  rewrite zinsert_in in Hb1 by (by eapply zlookup_lt). injection Hb1 as <-.
  eapply rtc_l.
  { unfold pub_next, pub_step. simpl. erewrite slot_update_eq by exact Hm1. reflexivity. }
  simpl in *. unfold access_assign in Hf.
  destruct (pb_prev pb) as [j|] eqn:Hprev; simpl in Hf |- *.
  - apply bind_Ok in Hf as ([[a b1] b2] & Hrel & [= <- <-]). apply bind_Ok in Hrel as (b & Hrel & [= <- <- <-]).
    etrans; [by eapply give_up_alone|]. apply rtc_refl.
  - injection Hf as <- <-. apply rtc_refl.
Qed.

Lemma rt_release_alone u w got i (g : segment T) b : release (Some i) (sg_slots g) = Ok b ->
  rtc sub_next (g, {| st_sub := u; st_pc := SubRelease i w; st_got := got |})
    (sg_set_slots g b, sub_done {| st_sub := u; st_pc := SubRelease i w; st_got := got |} w).
Proof.
  unfold release. intros (m & Hm%must_Some & Hb)%bind_Ok. rewrite zinsert_in in Hb by (by eapply zlookup_lt). injection Hb as <-.
  eapply rtc_l.
  { unfold sub_next, sub_step, release_step. simpl. rewrite (slot_update_eq _ _ _ _ Hm). simpl. reflexivity. }
  destruct (rm_refs m =? 1); [|apply rtc_refl]. simpl.
  eapply rtc_l.
  { unfold sub_next, sub_step, release_step. simpl. erewrite slot_update_eq by (by eapply zlookup_insert_same). reflexivity. }
  eapply rtc_l.
  { unfold sub_next, sub_step, release_step. simpl. erewrite slot_update_eq by (eapply zlookup_insert_same; by eapply zlookup_insert_same). reflexivity. }
  simpl. rewrite !list_insert_insert_eq. apply rtc_refl.
Qed.

Definition result_of (g : segment T) (r : fetched T) : result :=
  match r with Message _ => Fetched (subscript (sg_latest_published_idx g)) | NoMessage e => NotFetched e end.

Lemma fetch_alone (g : segment T) u r g' u' got : fetch_message g u = Ok (r, g', u') ->
  exists g1 s1, fetch_step g {| st_sub := u; st_pc := SubIdle; st_got := got |} = Some (Ok (g1, s1)) /\
    rtc sub_next (g1, s1) (g', {| st_sub := u'; st_pc := SubIdle; st_got := got ++ [result_of g r] |}).
Proof.
  unfold fetch_message, fetch_step. simpl. destruct (sg_next_message_id g =? sb_next_message_id u).
  { intros [= <- <- <-]. eexists _, _. split; [done|]. apply rtc_refl. }
  intros ([a b1] & Ha & Ho)%bind_Ok. apply bind_Ok in Ha as (m & Hm%must_Some & Ha). apply bind_Ok in Ha as (b1' & Hb1%must_Some & [= <- ->]).
  rewrite zinsert_in in Hb1 by (by eapply zlookup_lt). injection Hb1 as <-.
  apply bind_Ok in Ho as (has & Hhas & Ho). eexists _, _. split; [done|].
  eapply rtc_l; [reflexivity|]. eapply rtc_l.
  { unfold sub_next, sub_step, fetch_step. simpl. erewrite slot_update_eq by exact Hm. reflexivity. }
  eapply rtc_l.
  { unfold sub_next, sub_step, fetch_step. simpl. rewrite Hhas. reflexivity. }
  destruct has; simpl.
  - eapply rtc_l; [reflexivity|]. simpl. destruct (sb_available u <=? 0).
    + apply bind_Ok in Ho as (b2 & Hrel & [= <- <- <-]).
      etrans; [eapply (rt_release_alone _ (ForFetch invalid_seek) got (subscript (sg_latest_published_idx g)) (sg_set_slots g _) b2); exact Hrel|]. apply rtc_refl.
    + apply bind_Ok in Ho as (v & Hv & [= <- <- <-]). apply rtc_refl.
  - apply bind_Ok in Ho as (b2 & Hrel & [= <- <- <-]).
    etrans; [eapply (rt_release_alone u (ForFetch no_message_available) got (subscript (sg_latest_published_idx g)) (sg_set_slots g _) b2); exact Hrel|]. apply rtc_refl.
Qed.

Lemma drop_alone h (g : segment T) u g' u' got : Forall is_Some (sb_held u) -> drop_wrapper h g u = Ok (g', u') ->
  exists s1, drop_begin h {| st_sub := u; st_pc := SubIdle; st_got := got |} = Some s1 /\
    rtc sub_next (g, s1) (g', {| st_sub := u'; st_pc := SubIdle; st_got := got |}).
Proof.
  intros Hheld. unfold drop_wrapper, drop_begin. simpl. intros (a & Ha%must_Some & Ho)%bind_Ok. rewrite Ha. simpl.
  destruct (Forall_lookup_1 _ _ _ _ Hheld Ha) as [i ->]. simpl. apply bind_Ok in Ho as (b & Hrel & [= <- <-]).
  eexists. split; [done|]. etrans; [by eapply rt_release_alone|]. simpl. unfold sub_got. simpl. rewrite app_nil_r. apply rtc_refl.
Qed.

(** A call that nobody interrupts, taken apart into its accesses, is the call of
    [RealTime]: whatever [publish], [fetch_message] and the destruction of a wrapper come to
    there, the steps come to here. *)
Theorem real_time_calls_alone (fuel h : nat) (v : T) (pb : publisher) (u : subscriber) (got : list result) (g : segment T) :
  (forall pb' g', publish fuel v pb g = Ok (pb', g') ->
    rtc pub_next ({| pt_pub := pb; pt_pc := PubSearch v |}, g) ({| pt_pub := pb'; pt_pc := PubIdle |}, g')) /\
  (forall r g' u', fetch_message g u = Ok (r, g', u') -> exists g1 s1,
    fetch_step g {| st_sub := u; st_pc := SubIdle; st_got := got |} = Some (Ok (g1, s1)) /\
    rtc sub_next (g1, s1) (g', {| st_sub := u'; st_pc := SubIdle; st_got := got ++ [result_of g r] |})) /\
  (forall g' u', Forall is_Some (sb_held u) -> drop_wrapper h g u = Ok (g', u') -> exists s1,
    drop_begin h {| st_sub := u; st_pc := SubIdle; st_got := got |} = Some s1 /\
    rtc sub_next (g, s1) (g', {| st_sub := u'; st_pc := SubIdle; st_got := got |})).
Proof.
  split; [intros; by eapply rt_publish_alone|]. split; [intros; by apply fetch_alone|]. intros; by apply drop_alone.
Qed.
End concurrent.
Arguments action : clear implicits.
Arguments conc : clear implicits.
Arguments result : clear implicits.

(** * Schedules *)
Definition one_publisher : options := {| max_publishers := 1; max_subscribers := 2; max_concurrent_acquires := 1 |}.

(** One publisher with a pool of four slots, and two subscribers. *)
Definition demo_start : outcome (conc Z) :=
  e ← start GNUC (fun _ => this_process 42 7) 192 4096 one_publisher 2;
  match e with Expected y => Ok (c_start y) | Unexpected _ => UB end.

(** [publish] and [k] steps of it; [fetch_message] and [k] steps of it. *)
Definition publish_steps (v : Z) (k : nat) : list (action Z) := Publish 0 v :: replicate k (PubStep 0).
Definition fetch_steps (j k : nat) : list (action Z) := Fetch j :: replicate k (SubStep j).

Definition results_of (es : list (action Z)) : outcome (list (list (result Z))) :=
  c ← demo_start;
  match c_run es c with
  | None => UB
  | Some o => c1 ← o; Ok (map st_got (rc_subs c1))
  end.

(** The first message takes 6 steps, a later one 9 while nobody holds the one before. *)
Example rt_demo_smooth :
  results_of (publish_steps 7 6 ++ fetch_steps 0 4 ++ publish_steps 8 7 ++ fetch_steps 1 4 ++ [Read 0 0; Read 1 0; Drop 0 0] ++
    replicate 3 (SubStep 0) ++ fetch_steps 0 4 ++ [Read 0 0]) =
  Ok [[Fetched 0; Value 7; Fetched 1; Value 8]; [Fetched 1; Value 8]].
Proof. vm_compute. reflexivity. Qed.

(** Three schedules in which the reference counter does not protect a message.
    - A subscriber loads the index of the latest message; the publisher moves on and lowers the
      counter of that message to zero.  The subscriber raises it again before the value is
      destroyed, finds the value and gets a wrapper; reading it later throws.
    - If the publisher has meanwhile come around to the slot, the wrapper reads another message.
    - A subscriber raises the counter of a slot that is free, finds no value, and lowers it
      again; by then the publisher has announced a new message there and not counted itself
      yet.  The subscriber destroys it, and nobody else receives it. *)
Theorem real_time_races :
  let late := publish_steps 7 6 ++ fetch_steps 0 1 ++ publish_steps 8 7 ++ replicate 3 (SubStep 0) ++ [Read 0 0] ++ replicate 2 (PubStep 0) in
  results_of late = Ok [[Fetched 0; Value 7]; []] /\
  results_of (late ++ [Read 0 0]) = Throw bad_optional_access /\
  results_of (late ++ publish_steps 9 9 ++ publish_steps 10 9 ++ publish_steps 11 9 ++ [Read 0 0]) = Ok [[Fetched 0; Value 7; Value 11]; []] /\
  results_of (publish_steps 7 6 ++ fetch_steps 0 1 ++ publish_steps 8 9 ++ replicate 2 (SubStep 0) ++
      publish_steps 9 9 ++ publish_steps 10 9 ++ publish_steps 11 5 ++ replicate 3 (SubStep 0) ++ fetch_steps 1 6) =
    Ok [[NotFetched no_message_available]; [NotFetched no_message_available]].
Proof. split_and!; vm_compute; reflexivity. Qed.

Definition demo_schedule : list (action Z) :=
  publish_steps 7 6 ++ fetch_steps 0 1 ++ publish_steps 8 7 ++ replicate 3 (SubStep 0) ++ [Read 0 0] ++ replicate 2 (PubStep 0).

Lemma real_time_counts_exact_witness :
  options_fit one_publisher /\ Z.of_nat 2 <= max_subscribers one_publisher /\
  (forall r, required_size_bytes GNUC 192 one_publisher = Ok r -> r <= 4096) /\ zlen demo_schedule < 2 ^ 60 /\
  exists y, start GNUC (fun _ => this_process 42 7) 192 4096 one_publisher 2 = Ok (Expected y) /\
    forall r, c_run demo_schedule (c_start y) = Some r ->
      (existsb is_read demo_schedule = true /\ r = Throw bad_optional_access) \/
      exists c, r = Ok c /\
        (forall i x, zlookup (sg_slots (rc_segment c)) i = Some x ->
          rm_refs x = handles (rc_pubs c) (rc_subs c) i /\ forall v, rm_value x = Some v -> v ∈ rc_log c) /\
        (forall j s v, rc_subs c !! j = Some s -> Value v ∈ st_got s -> v ∈ rc_log c).
Proof.
  assert (options_fit one_publisher) as Hfit by (unfold options_fit; simpl; lia).
  assert (forall r, required_size_bytes GNUC 192 one_publisher = Ok r -> r <= 4096) as Hreq.
  { intros r Hr. vm_compute in Hr. injection Hr as <-. lia. }
  split; [exact Hfit|]. split; [simpl; lia|]. split; [exact Hreq|]. split; [vm_compute; reflexivity|].
  apply (real_time_counts_exact GNUC (fun _ => this_process 42 7) 192 4096 one_publisher 2 demo_schedule); [exact Hfit|simpl; lia|exact Hreq|vm_compute; reflexivity].
Defined.

Definition demo_publisher : publisher :=
  {| pb_publisher_id := 0; pb_entry_idx := 0; pb_buffer_offset := 0; pb_area := (0, 4); pb_wrap_around := 3; pb_prev := Some 0 |}.
(** Message 7 has been published in slot 0. *)
Definition demo_segment : segment Z :=
  {| sg_next_message_id := 0; sg_latest_published_idx := 0; sg_state := initialized;
     sg_next_publisher_id := 1; sg_next_subscriber_id := 2; sg_options := one_publisher;
     sg_publishers := [{| pe_process := default_process_data; pe_next_local := 4; pe_id := 0 |}];
     sg_subscribers := replicate 2 default_subscriber_entry;
     sg_slots := {| rm_value := Some 7; rm_id := 0; rm_refs := 1 |} :: replicate 3 rm_default |}.
Definition demo_subscriber : subscriber := {| sb_available := 1; sb_next_message_id := umax 64; sb_held := [] |}.

Lemma real_time_calls_alone_witness :
  (exists pb' g', publish 4 8 demo_publisher demo_segment = Ok (pb', g') /\ pb_prev pb' = Some 1 /\
    rtc pub_next ({| pt_pub := demo_publisher; pt_pc := PubSearch 8 |}, demo_segment) ({| pt_pub := pb'; pt_pc := PubIdle |}, g')) /\
  (exists g' u' g1 s1, fetch_message demo_segment demo_subscriber = Ok (Message 7, g', u') /\
    fetch_step demo_segment {| st_sub := demo_subscriber; st_pc := SubIdle; st_got := [] |} = Some (Ok (g1, s1)) /\
    rtc sub_next (g1, s1) (g', {| st_sub := u'; st_pc := SubIdle; st_got := [Fetched 0] |})).
Proof.
  destruct (real_time_calls_alone 4 0 8 demo_publisher demo_subscriber [] demo_segment) as (H1 & H2 & _).
  split.
  - eexists _, _. split; [vm_compute; reflexivity|]. split; [reflexivity|]. apply H1. vm_compute. reflexivity.
  - destruct (H2 (Message 7) _ _ ltac:(vm_compute; reflexivity)) as (g1 & s1 & Hs & Hr).
    eexists _, _, g1, s1. split; [vm_compute; reflexivity|]. split; [exact Hs|exact Hr].
Defined.
