(* ===== verification/PoolAllocator.v ===== *)
(** The pool allocator: [stl/allocator.h] and [stl/alloc_traits.h].

    All state lives in the managed memory: a header, then a chain of blocks, each
    with a list node in front of its data.  Pointers into the memory are their
    offsets from [_memory]; the nodes are a finite map from offsets, which keeps
    nodes that are no longer part of the chain, as the memory does. *)
From S2P Require Import Prelude Numeric.

(** * Data *)

(* @source include/ipcpp/stl/allocator.h 65-72 pool_allocator::AllocatorListNode *)
Record node : Type := {
  nd_size : Z;
  nd_next : Z;
  nd_prev : Z;
  nd_free : bool
}.

Definition invalid_offset : Z := -1.

(** [align_up(sizeof(AllocatorListNode))] and [align_up(sizeof(Header))]: the node
    has 32 bytes, the header 128 because its mutex is aligned to a cache line. *)
Definition node_bytes : Z := align_up 32 16.
Definition header_bytes : Z := align_up 128 16.

(* @source include/ipcpp/stl/allocator.h 59-63 pool_allocator::Header *)
Record pool : Type := {
  ph_size : Z;
  ph_list_head : Z;
  ph_locked : bool;
  ph_nodes : gmap Z node
}.

Definition set_nodes (p : pool) (m : gmap Z node) : pool :=
  {| ph_size := ph_size p; ph_list_head := ph_list_head p; ph_locked := ph_locked p; ph_nodes := m |}.
Definition set_locked (p : pool) (l : bool) : pool :=
  {| ph_size := ph_size p; ph_list_head := ph_list_head p; ph_locked := l; ph_nodes := ph_nodes p |}.

Definition set_free (n : node) (b : bool) : node :=
  {| nd_size := nd_size n; nd_next := nd_next n; nd_prev := nd_prev n; nd_free := b |}.
Definition set_size (n : node) (s : Z) : node :=
  {| nd_size := s; nd_next := nd_next n; nd_prev := nd_prev n; nd_free := nd_free n |}.
Definition set_next (n : node) (o : Z) : node :=
  {| nd_size := nd_size n; nd_next := o; nd_prev := nd_prev n; nd_free := nd_free n |}.
Definition set_prev (n : node) (o : Z) : node :=
  {| nd_size := nd_size n; nd_next := nd_next n; nd_prev := o; nd_free := nd_free n |}.

(** * Construction *)

(* @source include/ipcpp/stl/allocator.h 139-146 pool_allocator::pool_allocator(addr,size) *)
Definition pool_construct (size : Z) : pool :=
  {| ph_size := size; ph_list_head := 0; ph_locked := false;
     ph_nodes := {[ 0 := {| nd_size := u64 (u64 (size - header_bytes) - node_bytes);
                            nd_next := invalid_offset; nd_prev := invalid_offset; nd_free := true |} ]} |}.

(** The address of the process-wide allocator and the pools in memory. *)
Record factory : Type := {
  fa_singleton : Z;
  fa_memory : gmap Z pool
}.

(** The first call constructs the static allocator object over [addr]; later calls
    only move the singleton's address. *)
(* @source include/ipcpp/stl/allocator.h 89-92 pool_allocator::initialize_factory(addr,size) *)
Definition initialize_factory (first : bool) (addr size : Z) (f : factory) : factory :=
  {| fa_singleton := addr;
     fa_memory := if first then <[addr := pool_construct size]> (fa_memory f) else fa_memory f |}.

(* @source include/ipcpp/stl/allocator.h 103-103 pool_allocator::initialize_factory(addr) *)
Definition attach_factory (addr : Z) (f : factory) : factory :=
  {| fa_singleton := addr; fa_memory := fa_memory f |}.

(* @source include/ipcpp/stl/allocator.h 105-105 pool_allocator::factory_initialized *)
Definition factory_initialized (f : factory) : bool := negb (fa_singleton f =? 0).

(* @source include/ipcpp/stl/allocator.h 117-123 pool_allocator::get_singleton *)
Definition get_singleton (f : factory) : outcome pool :=
  if fa_singleton f =? 0 then Throw runtime_error else must (fa_memory f !! fa_singleton f).

(** * Offsets and pointers *)

(* @source include/ipcpp/stl/allocator.h 296-301 pool_allocator::offset_to_pointer *)
Definition offset_to_pointer (p : pool) (offset : Z) : option Z :=
  if (offset <? 0) || (u64 offset >? ph_size p) then None else Some offset.

(* @source include/ipcpp/stl/allocator.h 308-313 pool_allocator::pointer_to_offset *)
Definition pointer_to_offset (p : pool) (addr : option Z) : Z :=
  match addr with
  | None => invalid_offset
  | Some a => if a >? ph_size p then invalid_offset else a
  end.

Section operations.

(** Whether assertions are compiled in, the bound on the length of the walks
    through the list, and the size of the elements. *)
Variables (debug : bool) (fuel : nat) (sizeof_T : Z).

(** [assert(_header->mutex_.is_locked())] *)
Definition assert_locked (p : pool) : outcome unit := require (negb debug || ph_locked p).

Definition load (p : pool) (a : option Z) : outcome node := o ← must a; must (ph_nodes p !! o).
Definition store (p : pool) (a : Z) (n : node) : pool := set_nodes p (<[a := n]> (ph_nodes p)).

(** * Internal operations *)

(* @source include/ipcpp/stl/allocator.h 381-391 pool_allocator::_m_insert_node *)
Definition m_insert_node (p : pool) (at_ new_offset new_size : Z) : outcome pool :=
  _ ← assert_locked p;
  n ← load p (Some at_);
  let next_offset := nd_next n in
  let p1 := store p at_ (set_next n new_offset) in
  new ← must (offset_to_pointer p1 new_offset);
  let p2 := store p1 new {| nd_size := new_size; nd_next := next_offset;
                            nd_prev := pointer_to_offset p1 (Some at_); nd_free := true |} in
  if next_offset =? invalid_offset then Ok p2
  else
    let next := offset_to_pointer p2 next_offset in
    nn ← load p2 next;
    a ← must next;
    Ok (store p2 a (set_prev nn new_offset)).

(** Taking the free block at [a]: split if the rest can hold a node and data. *)
Definition m_take (p : pool) (a size_bytes : Z) : outcome (Z * Z * pool) :=
  n ← load p (Some a);
  let p1 := store p a (set_free n false) in
  p3 ← (if u64 (nd_size n - size_bytes) >? node_bytes then
          p2 ← m_insert_node p1 a (i64 (pointer_to_offset p1 (Some a) + node_bytes + i64 size_bytes))
                 (u64 (u64 (nd_size n - size_bytes) - node_bytes));
          n2 ← load p2 (Some a);
          Ok (store p2 a (set_size n2 size_bytes))
        else Ok p1);
  n3 ← load p3 (Some a);
  Ok (i64 (pointer_to_offset p3 (Some a) + node_bytes), nd_size n3, p3).

Fixpoint m_allocate_loop (k : nat) (p : pool) (a : option Z) (size_bytes : Z) : outcome (Z * Z * pool) :=
  match k with
  | O => UB
  | S k' =>
    n ← load p a;
    o ← must a;
    if nd_free n && (nd_size n >=? size_bytes) then m_take p o size_bytes
    else if nd_next n =? invalid_offset then Throw bad_alloc
    else m_allocate_loop k' p (offset_to_pointer p (nd_next n)) size_bytes
  end.

(* @source include/ipcpp/stl/allocator.h 350-373 pool_allocator::_m_allocate_from_list *)
Definition m_allocate_from_list (p : pool) (size_bytes : Z) : outcome (Z * Z * pool) :=
  _ ← assert_locked p;
  m_allocate_loop fuel p (offset_to_pointer p (ph_list_head p)) size_bytes.

(** The pointer version walks and splits in the same way. *)
(* @source include/ipcpp/stl/allocator.h 316-340 pool_allocator::_m_allocate_from_list_ptr *)
Definition m_allocate_from_list_ptr (p : pool) (bytes : Z) : outcome (Z * Z * pool) :=
  _ ← assert_locked p;
  m_allocate_loop fuel p (offset_to_pointer p (ph_list_head p)) bytes.

(** The merged size and the node after the run of free nodes. *)
Fixpoint m_forward_loop (k : nat) (p : pool) (at_ merged : Z) (next : option Z) : outcome (Z * option Z * pool) :=
  match k with
  | O => UB
  | S k' =>
    match next with
    | None =>
      n ← load p (Some at_);
      Ok (merged, None, store p at_ (set_next n (-1)))
    | Some a =>
      nn ← load p (Some a);
      if nd_free nn then
        m_forward_loop k' p at_ (u64 (merged + u64 (nd_size nn + node_bytes))) (offset_to_pointer p (nd_next nn))
      else Ok (merged, Some a, store p a (set_prev nn (pointer_to_offset p (Some at_))))
    end
  end.

(* @source include/ipcpp/stl/allocator.h 399-420 pool_allocator::_m_merge_forward *)
Definition m_merge_forward (p : pool) (at_ : Z) : outcome pool :=
  _ ← assert_locked p;
  n ← load p (Some at_);
  if nd_next n =? invalid_offset then Ok p
  else
    '(merged, next, p1) ← m_forward_loop fuel p at_ (nd_size n) (offset_to_pointer p (nd_next n));
    n1 ← load p1 (Some at_);
    Ok (store p1 at_ (set_next (set_size n1 merged) (pointer_to_offset p1 next))).

(** The merged size and the first node of the run of free nodes before. *)
Fixpoint m_backward_loop (k : nat) (p : pool) (merged : Z) (prev : option Z) (first : Z) : outcome (Z * Z) :=
  match k with
  | O => UB
  | S k' =>
    match prev with
    | None => Ok (merged, first)
    | Some a =>
      pn ← load p (Some a);
      if nd_free pn then
        m_backward_loop k' p (u64 (merged + u64 (nd_size pn + node_bytes))) (offset_to_pointer p (nd_prev pn)) a
      else Ok (merged, first)
    end
  end.

(* @source include/ipcpp/stl/allocator.h 431-456 pool_allocator::_m_merge_backward *)
Definition m_merge_backward (p : pool) (at_ : Z) : outcome pool :=
  _ ← assert_locked p;
  n ← load p (Some at_);
  if nd_prev n =? invalid_offset then Ok p
  else
    '(merged, first) ← m_backward_loop fuel p (nd_size n) (offset_to_pointer p (nd_prev n)) at_;
    f ← load p (Some first);
    let p1 := store p first (set_size f merged) in
    n1 ← load p1 (Some at_);
    p2 ← match offset_to_pointer p1 (nd_next n1) with
         | None => Ok p1
         | Some a => nn ← load p1 (Some a); Ok (store p1 a (set_prev nn (pointer_to_offset p1 (Some first))))
         end;
    n2 ← load p2 (Some at_);
    f2 ← load p2 (Some first);
    Ok (store p2 first (set_next f2 (nd_next n2))).

(** * The interface *)

(** [std::unique_lock] around an operation; the lock is released on every exit. *)
Definition with_lock {A} (p : pool) (op : pool -> outcome (A * pool)) : outcome (A * pool) :=
  if ph_locked p then UB
  else '(r, p1) ← op (set_locked p true); Ok (r, set_locked p1 false).

(* @source include/ipcpp/stl/allocator.h 176-176 pool_allocator::allocate *)
Definition allocate (p : pool) (n : Z) : outcome (Z * pool) :=
  '(a, _, p1) ← m_allocate_from_list_ptr p (u64 (n * sizeof_T)); Ok (a, p1).

(* @source include/ipcpp/stl/allocator.h 183-186 pool_allocator::allocate_offset *)
Definition allocate_offset (p : pool) (n : Z) : outcome (Z * pool) :=
  with_lock p (fun p => '(o, _, p1) ← m_allocate_from_list p (align_up (u64 (n * sizeof_T)) 16); Ok (o, p1)).

(* @source include/ipcpp/stl/allocator.h 188-191 pool_allocator::allocate_at_least *)
Definition allocate_at_least (p : pool) (n : Z) : outcome (Z * Z * pool) :=
  with_lock p (fun p => m_allocate_from_list_ptr p (align_up (u64 (n * sizeof_T)) 16)).

(* @source include/ipcpp/stl/allocator.h 193-196 pool_allocator::allocate_at_least_offset *)
Definition allocate_at_least_offset (p : pool) (n : Z) : outcome (Z * Z * pool) :=
  with_lock p (fun p => m_allocate_from_list p (align_up (u64 (n * sizeof_T)) 16)).

(* @source include/ipcpp/stl/allocator.h 204-211 pool_allocator::deallocate *)
Definition deallocate (p : pool) (ptr : Z) : outcome (unit * pool) :=
  with_lock p (fun p =>
    let a := ptr - node_bytes in
    n ← load p (Some a);
    p1 ← m_merge_forward (store p a (set_free n true)) a;
    p2 ← m_merge_backward p1 a;
    Ok (tt, p2)).

(* @source include/ipcpp/stl/allocator.h 218-220 pool_allocator::max_size *)
Definition max_size (p : pool) : Z := u64 (ph_size p - node_bytes) / sizeof_T.

(** * Metrics: walks over the whole list *)
Fixpoint m_walk (k : nat) (p : pool) (a : option Z) (measure : node -> Z) (acc : Z) : outcome Z :=
  match k with
  | O => UB
  | S k' =>
    match a with
    | None => Ok acc
    | Some o =>
      n ← load p (Some o);
      m_walk k' p (offset_to_pointer p (nd_next n)) measure
        (if nd_free n then acc else u64 (acc + measure n))
    end
  end.

(* @source include/ipcpp/stl/allocator.h 229-241 pool_allocator::allocated_size *)
Definition allocated_size (p : pool) : outcome (Z * pool) :=
  with_lock p (fun p =>
    r ← m_walk fuel p (offset_to_pointer p (ph_list_head p)) (fun n => u64 (nd_size n + node_bytes)) 0; Ok (r, p)).

(* @source include/ipcpp/stl/allocator.h 247-259 pool_allocator::allocated_data_size *)
Definition allocated_data_size (p : pool) : outcome (Z * pool) :=
  with_lock p (fun p => r ← m_walk fuel p (offset_to_pointer p (ph_list_head p)) nd_size 0; Ok (r, p)).
End operations.

(** * The specification: a list of blocks

    The memory is a sequence of blocks [(free, size)], each occupying its node and
    its data, without gaps. *)
Abbreviation block := (bool * Z)%type.

Lemma node_bytes_eq : node_bytes = 32.
Proof. reflexivity. Qed.
Lemma header_bytes_eq : header_bytes = 128.
Proof. reflexivity. Qed.

(** First fit; a block is split if more than a node's bytes would be left. *)
Fixpoint alloc_blocks (off bytes : Z) (bl : list block) : option (Z * Z * list block) :=
  match bl with
  | [] => None
  | (f, s) :: r =>
    if f && (bytes <=? s) then
      if s - bytes >? 32 then Some (off + 32, bytes, (false, bytes) :: (true, s - bytes - 32) :: r)
      else Some (off + 32, s, (false, s) :: r)
    else
      match alloc_blocks (off + 32 + s) bytes r with
      | Some (o, z, r') => Some (o, z, (f, s) :: r')
      | None => None
      end
  end.

(** A free block in front of a list of blocks, merged with the free blocks there. *)
Fixpoint merge_free (s : Z) (bl : list block) : list block :=
  match bl with
  | (true, s') :: r => merge_free (s + (s' + 32)) r
  | _ => (true, s) :: bl
  end.

(** Freeing the block whose data starts at [o]. *)
Fixpoint free_blocks (off o : Z) (bl : list block) : option (list block) :=
  match bl with
  | [] => None
  | (f, s) :: r =>
    if off + 32 =? o then Some (merge_free s r)
    else
      match free_blocks (off + 32 + s) o r with
      | Some r' => Some (if f then merge_free s r' else (f, s) :: r')
      | None => None
      end
  end.

(** The bytes blocks occupy, and the live allocations (offset of the data, size). *)
Definition extent (bl : list block) : Z := zsum (fun b => b.2 + 32) bl.

Fixpoint live (off : Z) (bl : list block) : list (Z * Z) :=
  match bl with
  | [] => []
  | (f, s) :: r => (if f then [] else [(off + 32, s)]) ++ live (off + 32 + s) r
  end.

(** No two free blocks are neighbours. *)
Fixpoint coalesced (bl : list block) : Prop :=
  match bl with
  | (true, _) :: (((true, _) :: _) as r) => False
  | _ :: r => coalesced r
  | [] => True
  end.

Lemma extent_cons b bl : extent (b :: bl) = b.2 + 32 + extent bl.
Proof. done. Qed.
Lemma extent_app l k : extent (l ++ k) = extent l + extent k.
Proof. induction l; simpl; unfold extent in *; simpl; lia. Qed.

Definition sizes_ok (bl : list block) : Prop := Forall (fun b => 0 <= b.2) bl.

Lemma extent_nonneg bl : sizes_ok bl -> 0 <= extent bl.
Proof. unfold extent. induction 1; simpl; lia. Qed.

Lemma coalesced_tail b bl : coalesced (b :: bl) -> coalesced bl.
Proof. destruct b as [[] ?]; [|done]. destruct bl as [|[[] ?] ?]; [done..|]. simpl. tauto. Qed.

Lemma coalesced_resize s s' r : coalesced ((true, s) :: r) -> coalesced ((true, s') :: r).
Proof. by destruct r as [|[[] ?] ?]. Qed.

Lemma coalesced_used s r : coalesced r -> coalesced ((false, s) :: r).
Proof. done. Qed.

Definition head_free (bl : list block) : bool := match bl with (true, _) :: _ => true | _ => false end.

Lemma coalesced_cons b bl : coalesced bl -> b.1 && head_free bl = false -> coalesced (b :: bl).
Proof. destruct b as [[] ?], bl as [|[[] ?] ?]; simpl; done. Qed.

Lemma coalesced_head b bl : coalesced (b :: bl) -> b.1 && head_free bl = false.
Proof. destruct b as [[] ?], bl as [|[[] ?] ?]; simpl; done. Qed.

Lemma alloc_blocks_inv bytes bl : forall off o z bl',
  0 <= bytes -> sizes_ok bl -> coalesced bl -> alloc_blocks off bytes bl = Some (o, z, bl') ->
  sizes_ok bl' /\ coalesced bl' /\ extent bl' = extent bl /\ bytes <= z <= bytes + 32 /\
  live off bl' ≡ₚ (o, z) :: live off bl /\ (head_free bl' = true -> head_free bl = true).
Proof.
  induction bl as [|[f s] r IH]; intros off o z bl' Hb Hs Hc Ha; [done|].
  inversion Hs as [|? ? Hs1 Hsr]; subst. simpl in Hs1. simpl in Ha.
  destruct (f && (bytes <=? s)) eqn:Hfit.
  - apply andb_prop in Hfit as [-> Hle%Z.leb_le].
    rewrite Z.gtb_ltb in Ha. destruct (Z.ltb_spec 32 (s - bytes)); injection Ha as <- <- <-.
    + split; [repeat constructor; simpl; (lia || done)|].
      split; [exact (coalesced_resize s (s - bytes - 32) r Hc)|].
      split; [rewrite !extent_cons; simpl; lia|]. split; [lia|]. split; [|done].
      simpl. by replace (off + 32 + bytes + 32 + (s - bytes - 32)) with (off + 32 + s) by lia.
    + split; [by constructor|]. split; [exact (coalesced_tail _ _ Hc)|].
      split; [done|]. split; [lia|]. done.
  - destruct (alloc_blocks (off + 32 + s) bytes r) as [[[o1 z1] r1]|] eqn:Hr; [|done].
    injection Ha as <- <- <-.
    destruct (IH _ _ _ _ Hb Hsr (coalesced_tail _ _ Hc) Hr) as (H1 & H2 & H3 & H4 & H5 & H6).
    split; [by constructor|]. split.
    { apply coalesced_cons; [done|]. pose proof (coalesced_head _ _ Hc) as Hh. simpl in *.
      destruct f; [|done]. simpl in *. destruct (head_free r1); [by rewrite H6 in Hh|done]. }
    split; [rewrite !extent_cons; simpl; lia|]. split; [done|]. split; [|done].
    simpl. rewrite H5. destruct f; simpl; [done|]. constructor.
Qed.

Lemma merge_free_inv r : forall s, sizes_ok r -> 0 <= s -> coalesced r ->
  sizes_ok (merge_free s r) /\ coalesced (merge_free s r) /\ extent (merge_free s r) = s + 32 + extent r /\
  forall off, live off (merge_free s r) = live (off + 32 + s) r.
Proof.
  induction r as [|[[] s'] r IH]; intros s Hr Hs Hc; simpl.
  - split_and!; [by constructor|done|unfold extent; simpl; lia|done].
  - inversion Hr as [|? ? H1 H2]; subst. simpl in H1.
    destruct (IH (s + (s' + 32)) H2 ltac:(lia) (coalesced_tail _ _ Hc)) as (G1 & G2 & G3 & G4).
    split_and!; [done|done|rewrite G3, extent_cons; simpl; lia|].
    intros off. rewrite G4. f_equal. lia.
  - split_and!; [by constructor|done|rewrite !extent_cons; simpl; lia|].
    intros off. simpl. done.
Qed.

Lemma live_bounds bl : forall off o z, sizes_ok bl -> (o, z) ∈ live off bl ->
  off + 32 <= o /\ 0 <= z /\ o + z <= off + extent bl.
Proof.
  induction bl as [|[f s] r IH]; intros off o z Hs Hin; simpl in Hin; [by apply elem_of_nil in Hin|].
  inversion Hs as [|? ? Hs1 Hsr]; subst. simpl in Hs1. rewrite extent_cons. simpl.
  pose proof (extent_nonneg r Hsr). apply elem_of_app in Hin as [Hin|Hin].
  - destruct f; [by apply elem_of_nil in Hin|]. apply list_elem_of_singleton in Hin. simplify_eq. lia.
  - destruct (IH _ _ _ Hsr Hin). lia.
Qed.

Lemma free_blocks_inv o bl : forall off bl',
  sizes_ok bl -> coalesced bl -> free_blocks off o bl = Some bl' ->
  sizes_ok bl' /\ coalesced bl' /\ extent bl' = extent bl /\
  (forall z, (o, z) ∈ live off bl -> live off bl ≡ₚ (o, z) :: live off bl').
Proof.
  induction bl as [|[f s] r IH]; intros off bl' Hs Hc Ha; [done|].
  inversion Hs as [|? ? Hs1 Hsr]; subst. simpl in Hs1. simpl in Ha.
  pose proof (coalesced_tail _ _ Hc) as Hc'.
  destruct (Z.eqb_spec (off + 32) o) as [<-|Hne].
  - injection Ha as <-. destruct (merge_free_inv r s Hsr Hs1 Hc') as (G1 & G2 & G3 & G4).
    split_and!; [done|done|rewrite G3, extent_cons; simpl; lia|].
    intros z Hin. rewrite G4. simpl in *. apply elem_of_app in Hin as [Hin|Hin].
    + destruct f; [by apply elem_of_nil in Hin|]. apply list_elem_of_singleton in Hin. simplify_eq. done.
    + apply live_bounds in Hin; [|done]. lia.
  - destruct (free_blocks (off + 32 + s) o r) as [r1|] eqn:Hr; [|done]. injection Ha as <-.
    destruct (IH _ _ Hsr Hc' Hr) as (G1 & G2 & G3 & G4). destruct f.
    + destruct (merge_free_inv r1 s G1 Hs1 G2) as (F1 & F2 & F3 & F4).
      split_and!; [done|done|rewrite F3, G3, extent_cons; simpl; lia|].
      intros z Hin. rewrite F4. simpl in *. by apply G4.
    + split_and!; [by constructor|done|rewrite !extent_cons, G3; simpl; lia|].
      intros z Hin. simpl in *. apply elem_of_cons in Hin as [?|Hin]; [simplify_eq|].
      rewrite (G4 z Hin). constructor.
Qed.

(** * The chain of nodes represents the blocks *)
Fixpoint seg (m : gmap Z node) (prev off : Z) (bl : list block) (nx : Z) : Prop :=
  match bl with
  | [] => True
  | (f, s) :: r =>
    m !! off = Some {| nd_size := s; nd_next := (match r with [] => nx | _ => off + 32 + s end);
                       nd_prev := prev; nd_free := f |} /\
    seg m off (off + 32 + s) r nx
  end.

(** The offset of the last block, [prev] if there is none. *)
Fixpoint last_off (prev off : Z) (bl : list block) : Z :=
  match bl with
  | [] => prev
  | (f, s) :: r => last_off off (off + 32 + s) r
  end.

Lemma seg_app m l k nx : forall prev off, k <> [] ->
  seg m prev off (l ++ k) nx <->
  seg m prev off l (off + extent l) /\ seg m (last_off prev off l) (off + extent l) k nx.
Proof.
  induction l as [|[f s] l IH]; intros prev off Hk; simpl.
  { unfold extent. simpl. rewrite Z.add_0_r. tauto. }
  rewrite IH by done. rewrite extent_cons. simpl.
  replace (off + 32 + s + extent l) with (off + (s + 32 + extent l)) by lia.
  destruct l as [|b l]; simpl.
  - replace (off + (s + 32 + extent [])) with (off + 32 + s) by (unfold extent; simpl; lia).
    destruct k; [done|]. simpl. tauto.
  - tauto.
Qed.

(** Only the nodes inside the segment matter. *)
Lemma seg_frame m m' bl nx : forall prev off, sizes_ok bl ->
  (forall o, off <= o < off + extent bl -> m' !! o = m !! o) ->
  seg m prev off bl nx -> seg m' prev off bl nx.
Proof.
  induction bl as [|[f s] r IH]; intros prev off Hs Hm Hseg; simpl in *; [done|].
  inversion Hs as [|? ? Hs1 Hsr]; subst. simpl in Hs1. pose proof (extent_nonneg r Hsr).
  rewrite extent_cons in Hm. simpl in Hm. destruct Hseg as [Hn Hr]. split.
  - rewrite Hm by lia. done.
  - apply IH; [done| |done]. intros o Ho. apply Hm. lia.
Qed.

Record pool_ok (p : pool) (bl : list block) : Prop := {
  po_head : ph_list_head p = 0;
  po_size : 0 <= ph_size p < 2 ^ 62;
  po_extent : extent bl + 128 = ph_size p;
  po_sizes : sizes_ok bl;
  po_coalesced : coalesced bl;
  po_nonempty : bl <> [];
  po_seg : seg (ph_nodes p) (-1) 0 bl (-1)
}.

Lemma offset_to_pointer_in p off : 0 <= off <= ph_size p -> ph_size p < 2 ^ 62 -> offset_to_pointer p off = Some off.
Proof.
  intros Hoff Hs. unfold offset_to_pointer. rewrite u64_small by lia.
  destruct (Z.ltb_spec off 0); [lia|]. rewrite Z.gtb_ltb. destruct (Z.ltb_spec (ph_size p) off); [lia|done].
Qed.

Lemma pointer_to_offset_in p off : off <= ph_size p -> pointer_to_offset p (Some off) = off.
Proof. intros Hoff. unfold pointer_to_offset. rewrite Z.gtb_ltb. destruct (Z.ltb_spec (ph_size p) off); [lia|done]. Qed.

(** The link of the last node before [r]. *)
Definition link (off : Z) (r : list block) (nx : Z) : Z := match r with [] => nx | _ => off end.

Lemma seg_cons m prev off f s r nx :
  seg m prev off ((f, s) :: r) nx <->
  m !! off = Some {| nd_size := s; nd_next := link (off + 32 + s) r nx; nd_prev := prev; nd_free := f |} /\
  seg m off (off + 32 + s) r nx.
Proof. done. Qed.

(** Redirecting the back link of the first node of a segment. *)
Lemma seg_set_prev m m' prev prev' off r nx :
  sizes_ok r ->
  (forall o, off < o < off + extent r -> m' !! o = m !! o) ->
  (r <> [] -> forall n, m !! off = Some n -> m' !! off = Some (set_prev n prev')) ->
  seg m prev off r nx -> seg m' prev' off r nx.
Proof.
  intros Hs Ho Hp. destruct r as [|[f s] r]; [done|]. rewrite !seg_cons. intros [Hn Hr].
  inversion Hs as [|? ? Hs1 Hsr]; subst. simpl in Hs1. pose proof (extent_nonneg r Hsr).
  rewrite extent_cons in Ho. simpl in Ho. split.
  - by rewrite (Hp ltac:(done) _ Hn).
  - eapply seg_frame; [done| |done]. intros o H1. apply Ho. lia.
Qed.

Lemma seg_split m l f s r :
  seg m (-1) 0 (l ++ (f, s) :: r) (-1) <->
  seg m (-1) 0 l (extent l) /\
  m !! extent l = Some {| nd_size := s; nd_next := link (extent l + 32 + s) r (-1);
                          nd_prev := last_off (-1) 0 l; nd_free := f |} /\
  seg m (extent l) (extent l + 32 + s) r (-1).
Proof. rewrite seg_app by done. rewrite seg_cons. rewrite Z.add_0_l. tauto. Qed.

Lemma sizes_ok_app l k : sizes_ok (l ++ k) <-> sizes_ok l /\ sizes_ok k.
Proof. apply Forall_app. Qed.

(** The positions inside a represented pool. *)
Lemma pool_bounds p l f s r : pool_ok p (l ++ (f, s) :: r) ->
  0 <= extent l /\ 0 <= s /\ 0 <= extent r /\ extent l + 32 + s + extent r + 128 = ph_size p /\
  ph_size p < 2 ^ 62 /\ sizes_ok l /\ sizes_ok r /\ (forall off, 0 <= off <= ph_size p -> offset_to_pointer p off = Some off).
Proof.
  intros [Hh Hsz Hext Hs Hc Hne Hseg]. apply sizes_ok_app in Hs as [H1 H2].
  inversion H2 as [|? ? H3 H4]; subst. simpl in H3. rewrite extent_app, extent_cons in Hext. simpl in Hext.
  pose proof (extent_nonneg l H1). pose proof (extent_nonneg r H4). split_and!; try done; try lia.
  intros. apply offset_to_pointer_in; lia.
Qed.

Section correctness.
Variables (debug : bool) (sizeof_T : Z).

Abbreviation usable := (fun p => negb debug || ph_locked p = true).

Lemma m_insert_node_ok p at_ new_offset new_size n :
  usable p -> ph_nodes p !! at_ = Some n -> 0 <= at_ <= ph_size p -> 0 <= new_offset <= ph_size p -> ph_size p < 2 ^ 62 ->
  (nd_next n = -1 \/ (0 <= nd_next n <= ph_size p /\ nd_next n <> at_ /\ nd_next n <> new_offset /\ is_Some (ph_nodes p !! nd_next n))) ->
  at_ <> new_offset ->
  exists m', m_insert_node debug p at_ new_offset new_size = Ok (set_nodes p m') /\
    m' !! at_ = Some (set_next n new_offset) /\
    m' !! new_offset = Some {| nd_size := new_size; nd_next := nd_next n; nd_prev := at_; nd_free := true |} /\
    (nd_next n <> -1 -> forall nn, ph_nodes p !! nd_next n = Some nn -> m' !! nd_next n = Some (set_prev nn new_offset)) /\
    (forall o, o <> at_ -> o <> new_offset -> o <> nd_next n -> m' !! o = ph_nodes p !! o).
Proof.
  intros Hu Hn Hat Hnew Hsz Hnext Hne. unfold m_insert_node, assert_locked, require, load. rewrite Hu. cbn [mbind outcome_bind must].
  rewrite Hn. cbn [mbind outcome_bind must]. set (p1 := store p at_ (set_next n new_offset)).
  rewrite (offset_to_pointer_in p1 new_offset) by done. cbn [mbind outcome_bind must].
  rewrite (pointer_to_offset_in p1 at_) by (simpl; lia).
  destruct (Z.eqb_spec (nd_next n) invalid_offset) as [Heq|Hneq].
  - eexists. split; [unfold store; simpl; reflexivity|]. unfold invalid_offset in Heq.
    split; [by simplify_map_eq|]. split; [by simplify_map_eq|]. split; [done|].
    intros o H1 H2 _. by rewrite !lookup_insert_ne by done.
  - unfold invalid_offset in Hneq. destruct Hnext as [|(H1 & H2 & H3 & [nn Hnn])]; [done|].
    set (p2 := store p1 new_offset _).
    rewrite (offset_to_pointer_in p2 (nd_next n)) by (simpl; lia). cbn [mbind outcome_bind must].
    cbn [p2 p1 store set_nodes ph_nodes]. rewrite !lookup_insert_ne by done. rewrite Hnn. cbn [mbind outcome_bind must].
    eexists. split; [unfold store; simpl; reflexivity|]. simpl.
    split; [by rewrite !lookup_insert_ne, lookup_insert_eq by done|].
    split; [by rewrite lookup_insert_ne, lookup_insert_eq by done|].
    split; [intros _ nn' Hnn'; assert (nn' = nn) as -> by congruence; apply lookup_insert_eq|].
    intros o G1 G2 G3. by rewrite !lookup_insert_ne by done.
Qed.

(** Splitting a block: the first part keeps the node, the second one gets a node of its own
    behind it. *)
Lemma take_split_ok p l s r bytes n0 :
  usable p -> pool_ok p (l ++ (true, s) :: r) -> 0 <= bytes -> 32 < s - bytes ->
  n0 = {| nd_size := s; nd_next := link (extent l + 32 + s) r (-1); nd_prev := last_off (-1) 0 l; nd_free := false |} ->
  exists m', m_insert_node debug (store p (extent l) n0) (extent l) (extent l + 32 + bytes) (s - bytes - 32)
    = Ok (set_nodes (store p (extent l) n0) m') /\
    m' !! extent l = Some (set_next n0 (extent l + 32 + bytes)) /\
    seg (<[extent l := set_size (set_next n0 (extent l + 32 + bytes)) bytes]> m') (-1) 0
      (l ++ (false, bytes) :: (true, s - bytes - 32) :: r) (-1).
Proof.
  intros Hu Hok Hb Hsplit ->. destruct (pool_bounds _ _ _ _ _ Hok) as (Hl & Hs & Hr & Hext & Hsz & Hsl & Hsr & Hptr).
  pose proof (po_seg _ _ Hok) as Hseg. rewrite seg_split in Hseg. destruct Hseg as (Gl & Gn & Gr).
  set (n0 := {| nd_size := s; nd_next := _; nd_prev := _; nd_free := false |}). set (p1 := store p (extent l) n0).
  destruct (m_insert_node_ok p1 (extent l) (extent l + 32 + bytes) (s - bytes - 32) n0)
    as (m' & Hins & Hm1 & Hm2 & Hm3 & Hm4); try done; simpl; try lia.
  { by simplify_map_eq. }
  { unfold link. destruct r as [|[f2 s2] r]; [by left|right].
    inversion Hsr as [|? ? Hs2 Hsr']; subst. simpl in Hs2. pose proof (extent_nonneg _ Hsr').
    rewrite extent_cons in Hr, Hext. simpl in Hr, Hext.
    split; [lia|]. split; [lia|]. split; [lia|]. rewrite lookup_insert_ne by lia. rewrite seg_cons in Gr. destruct Gr as [-> _]. eauto. }
  exists m'. split; [done|]. split; [done|]. rewrite seg_split. split; [|split].
  - eapply seg_frame; [done| |exact Gl]. intros o Ho. rewrite Z.add_0_l in Ho.
    rewrite lookup_insert_ne by lia. rewrite Hm4; simpl; [by rewrite lookup_insert_ne by lia|lia|lia|].
    unfold link. destruct r; lia.
  - rewrite lookup_insert_eq. done.
  - rewrite seg_cons. replace (extent l + 32 + bytes + 32 + (s - bytes - 32)) with (extent l + 32 + s) by lia. split.
    + rewrite lookup_insert_ne by lia. rewrite Hm2. done.
    + eapply seg_set_prev; [done| | |exact Gr].
      * intros o Ho. rewrite lookup_insert_ne by lia. rewrite Hm4; simpl; [by rewrite lookup_insert_ne by lia|lia|lia|].
        unfold link. destruct r; lia.
      * intros Hne n Hn. rewrite lookup_insert_ne by lia. simpl in Hm3. unfold link in Hm3.
        destruct r; [done|]. apply Hm3; [lia|]. rewrite lookup_insert_ne by lia. done.
Qed.

Lemma m_take_ok p l s r bytes :
  usable p -> pool_ok p (l ++ (true, s) :: r) -> 0 <= bytes <= s ->
  exists o z b p', alloc_blocks (extent l) bytes ((true, s) :: r) = Some (o, z, b) /\
    m_take debug p (extent l) bytes = Ok (o, z, p') /\
    seg (ph_nodes p') (-1) 0 (l ++ b) (-1) /\ ph_list_head p' = ph_list_head p /\ ph_size p' = ph_size p /\
    ph_locked p' = ph_locked p.
Proof.
  intros Hu Hok Hb. destruct (pool_bounds _ _ _ _ _ Hok) as (Hl & Hs & Hr & Hext & Hsz & Hsl & Hsr & Hptr).
  pose proof (po_seg _ _ Hok) as Hseg. rewrite seg_split in Hseg. destruct Hseg as (Gl & Gn & Gr).
  unfold m_take, load. simpl must. cbn [mbind outcome_bind]. rewrite Gn. cbn [must mbind outcome_bind nd_size].
  set (n0 := set_free _ false). set (p1 := store p (extent l) n0).
  rewrite (pointer_to_offset_in p1) by (simpl; lia). rewrite node_bytes_eq.
  rewrite (u64_small (s - bytes)) by lia. simpl alloc_blocks. rewrite (proj2 (Z.leb_le bytes s)) by lia.
  rewrite !Z.gtb_ltb. destruct (Z.ltb_spec 32 (s - bytes)) as [Hsplit|Hwhole].
  - rewrite (i64_small bytes), i64_small, (u64_small (s - bytes - 32)) by lia.
    destruct (take_split_ok p l s r bytes n0 Hu Hok ltac:(lia) ltac:(lia) eq_refl) as (m' & Hins & Hm1 & Hm2).
    fold p1 in Hins. rewrite Hins. cbn [mbind outcome_bind set_nodes ph_nodes]. rewrite Hm1.
    cbn [must mbind outcome_bind store set_nodes ph_nodes]. rewrite lookup_insert_eq. cbn [must mbind outcome_bind].
    eexists _, _, _, _. split; [done|].
    rewrite pointer_to_offset_in by (simpl; lia). rewrite i64_small by lia. done.
  - cbn [p1 mbind outcome_bind store set_nodes ph_nodes must]. rewrite lookup_insert_eq. cbn [must mbind outcome_bind].
    eexists _, _, _, _. split; [done|].
    rewrite (pointer_to_offset_in p1) by (simpl; lia). rewrite i64_small by lia.
    split; [done|]. split; [|done].
    rewrite seg_split. cbn [p1 store set_nodes ph_nodes]. split; [|split].
    + eapply seg_frame; [done| |exact Gl]. intros o Ho. by rewrite lookup_insert_ne by lia.
    + rewrite lookup_insert_eq. done.
    + eapply seg_frame; [done| |exact Gr]. intros o Ho. by rewrite lookup_insert_ne by lia.
Qed.

(** Walking the list finds the first fit, or throws at its end. *)
Lemma m_allocate_loop_ok bytes suf : forall k l p,
  usable p -> pool_ok p (l ++ suf) -> suf <> [] -> (length suf <= k)%nat -> 0 <= bytes ->
  match alloc_blocks (extent l) bytes suf with
  | None => m_allocate_loop debug k p (Some (extent l)) bytes = Throw bad_alloc
  | Some (o, z, b) => exists p', m_allocate_loop debug k p (Some (extent l)) bytes = Ok (o, z, p') /\
      seg (ph_nodes p') (-1) 0 (l ++ b) (-1) /\ ph_list_head p' = ph_list_head p /\ ph_size p' = ph_size p /\
      ph_locked p' = ph_locked p
  end.
Proof.
  induction suf as [|[f s] r IH]; intros k l p Hu Hok Hne Hk Hb; [done|].
  destruct k as [|k]; simpl in Hk; [lia|].
  destruct (pool_bounds _ _ _ _ _ Hok) as (Hl & Hs & Hr & Hext & Hsz & Hsl & Hsr & Hptr).
  pose proof (po_seg _ _ Hok) as Hseg. rewrite seg_split in Hseg. destruct Hseg as (Gl & Gn & Gr).
  assert (m_allocate_loop debug (S k) p (Some (extent l)) bytes =
          if f && (bytes <=? s) then m_take debug p (extent l) bytes
          else if link (extent l + 32 + s) r (-1) =? -1 then Throw bad_alloc
          else m_allocate_loop debug k p (offset_to_pointer p (link (extent l + 32 + s) r (-1))) bytes) as Hbody.
  { cbn [m_allocate_loop]. unfold load at 1. cbn [must mbind outcome_bind]. rewrite Gn.
    cbn [must mbind outcome_bind nd_free nd_size nd_next]. by rewrite Z.geb_leb. }
  rewrite Hbody. cbn [alloc_blocks]. destruct (f && (bytes <=? s)) eqn:Hfit.
  - apply andb_prop in Hfit as [-> Hle%Z.leb_le].
    destruct (m_take_ok p l s r bytes Hu Hok ltac:(lia)) as (o & z & b & p' & Ha & Ht & H1 & H2 & H3 & H4).
    simpl in Ha. rewrite (proj2 (Z.leb_le bytes s)) in Ha by lia. simpl in Ha.
    rewrite Ha, Ht. by exists p'.
  - unfold link. destruct r as [|b1 r].
    { reflexivity. }
    rewrite (proj2 (Z.eqb_neq _ (-1))) by lia. rewrite Hptr by lia.
    assert (extent (l ++ [(f, s)]) = extent l + 32 + s) as He by (rewrite extent_app; unfold extent; simpl; lia).
    pose proof (IH k (l ++ [(f, s)]) p) as IH'. rewrite He, <- app_assoc in IH'. simpl app in IH'.
    specialize (IH' Hu Hok ltac:(done) ltac:(simpl in Hk |- *; lia) Hb).
    destruct (alloc_blocks (extent l + 32 + s) bytes (b1 :: r)) as [[[o z] b']|]; [|done].
    destruct IH' as (p' & H1 & H2 & H3). exists p'. split; [done|]. split; [|done].
    by rewrite <- app_assoc in H2.
Qed.

Lemma m_allocate_ok p bl fuel bytes :
  usable p -> pool_ok p bl -> (length bl <= fuel)%nat -> 0 <= bytes ->
  match alloc_blocks 0 bytes bl with
  | None => m_allocate_from_list debug fuel p bytes = Throw bad_alloc
  | Some (o, z, b) => exists p', m_allocate_from_list debug fuel p bytes = Ok (o, z, p') /\ pool_ok p' b /\
      ph_size p' = ph_size p /\ ph_locked p' = ph_locked p
  end.
Proof.
  intros Hu Hok Hf Hb. pose proof (m_allocate_loop_ok bytes bl fuel [] p Hu Hok (po_nonempty _ _ Hok) Hf Hb) as Hloop.
  unfold m_allocate_from_list, assert_locked, require. rewrite Hu. cbn [mbind outcome_bind].
  rewrite (po_head _ _ Hok), offset_to_pointer_in by (destruct Hok; lia).
  change (extent []) with 0 in Hloop.
  destruct (alloc_blocks 0 bytes bl) as [[[o z] b]|] eqn:Ha; [|done].
  destruct Hloop as (p' & -> & H1 & H2 & H3 & H4). exists p'. split; [done|]. split; [|done].
  destruct Hok. destruct (alloc_blocks_inv bytes bl 0 o z b Hb po_sizes0 po_coalesced0 Ha) as (G1 & G2 & G3 & G4 & G5 & G6).
  split; try done; try congruence; try lia. intros ->. by apply Permutation_nil_cons in G5.
Qed.

(** ** Deallocation *)


(** ** Deallocation *)
Fixpoint run_size (s : Z) (r : list block) : Z :=
  match r with (true, s') :: r' => run_size (s + (s' + 32)) r' | _ => s end.
Fixpoint run_rest (r : list block) : list block :=
  match r with (true, _) :: r' => run_rest r' | _ => r end.

Lemma merge_free_run r : forall s, merge_free s r = (true, run_size s r) :: run_rest r.
Proof. induction r as [|[[] s'] r IH]; intros s; simpl; [done|apply IH|done]. Qed.

Lemma run_bounds r : forall s, sizes_ok r -> sizes_ok (run_rest r) /\ s <= run_size s r /\ run_size s r + extent (run_rest r) = s + extent r.
Proof.
  induction r as [|[[] s'] r IH]; intros s Hr; simpl; [split_and!; (done || lia)| |split_and!; (done || lia)].
  inversion Hr as [|? ? H1 H2]; subst. simpl in H1. rewrite extent_cons. simpl.
  destruct (IH (s + (s' + 32)) H2) as (G1 & G2 & G3). split_and!; (done || lia).
Qed.

Lemma set_next_same n : set_next n (nd_next n) = n.
Proof. by destruct n. Qed.

(** The loop over the free nodes after the node at [a]. *)
Lemma m_forward_loop_ok p a na r : forall k merged prev,
  seg (ph_nodes p) prev (a + 32 + merged) r (-1) -> sizes_ok r -> 0 <= a -> 0 <= merged ->
  a + 32 + merged + extent r <= ph_size p -> ph_size p < 2 ^ 62 -> (length r < k)%nat ->
  ph_nodes p !! a = Some na ->
  let s' := run_size merged r in
  exists m' x, m_forward_loop k p a merged (offset_to_pointer p (link (a + 32 + merged) r (-1))) =
      Ok (s', match run_rest r with [] => None | _ => Some (a + 32 + s') end, set_nodes p m') /\
    m' !! a = Some (set_next na x) /\ seg m' a (a + 32 + s') (run_rest r) (-1) /\
    (forall o, o < a -> m' !! o = ph_nodes p !! o).
Proof.
  induction r as [|[f s] r IH]; intros k merged prev Hseg Hs Ha Hm Hext Hsz Hk Hna s'; (destruct k as [|k]; simpl in Hk; [lia|]).
  - cbn [link m_forward_loop]. unfold load. cbn [offset_to_pointer must mbind outcome_bind]. simpl.
    rewrite Hna. simpl. eexists _, (-1). split; [unfold store; reflexivity|].
    split; [apply lookup_insert_eq|]. split; [done|]. intros o Ho. by rewrite lookup_insert_ne by lia.
  - inversion Hs as [|? ? Hs1 Hsr]; subst. simpl in Hs1. pose proof (extent_nonneg r Hsr).
    rewrite extent_cons in Hext. simpl in Hext. rewrite seg_cons in Hseg. destruct Hseg as [Hn Hr].
    unfold link at 1. rewrite offset_to_pointer_in by lia. cbn [m_forward_loop]. unfold load at 1.
    cbn [must mbind outcome_bind]. rewrite Hn. cbn [must mbind outcome_bind nd_free nd_size nd_next].
    rewrite node_bytes_eq. destruct f; cbn [run_size run_rest] in s' |- *.
    + rewrite (u64_small (s + 32)), u64_small by lia.
      replace (a + 32 + merged + 32 + s) with (a + 32 + (merged + (s + 32))) in * by lia.
      destruct (IH k (merged + (s + 32)) _ Hr Hsr Ha ltac:(lia) ltac:(lia) Hsz ltac:(lia) Hna) as (m' & x & H1 & H2 & H3 & H4).
      exists m', x. split_and!; done.
    + eexists _, (nd_next na). rewrite set_next_same, pointer_to_offset_in by lia.
      split; [unfold store; reflexivity|]. split; [by rewrite lookup_insert_ne by (unfold s'; lia)|].
      split; [|intros o Ho; by rewrite lookup_insert_ne by lia].
      unfold s'. eapply (seg_set_prev (ph_nodes p) _ prev); [done| | |rewrite seg_cons; done].
      * intros o Ho. by rewrite lookup_insert_ne by lia.
      * intros _ n Hn'. rewrite Hn in Hn'. injection Hn' as <-. apply lookup_insert_eq.
Qed.

Lemma m_merge_forward_ok fuel p a s pv r :
  usable p -> ph_nodes p !! a = Some {| nd_size := s; nd_next := link (a + 32 + s) r (-1); nd_prev := pv; nd_free := true |} ->
  seg (ph_nodes p) a (a + 32 + s) r (-1) -> sizes_ok r -> 0 <= a -> 0 <= s ->
  a + 32 + s + extent r <= ph_size p -> ph_size p < 2 ^ 62 -> (length r < fuel)%nat ->
  exists m', m_merge_forward debug fuel p a = Ok (set_nodes p m') /\
    m' !! a = Some {| nd_size := run_size s r; nd_next := link (a + 32 + run_size s r) (run_rest r) (-1);
                      nd_prev := pv; nd_free := true |} /\
    seg m' a (a + 32 + run_size s r) (run_rest r) (-1) /\ (forall o, o < a -> m' !! o = ph_nodes p !! o).
Proof.
  intros Hu Hn Hseg Hs Ha Hs0 Hext Hsz Hf. destruct (run_bounds r s Hs) as (G1 & G2 & G3).
  pose proof (extent_nonneg _ G1).
  unfold m_merge_forward, assert_locked, require, load. rewrite Hu. cbn [must mbind outcome_bind].
  rewrite Hn. cbn [must mbind outcome_bind nd_next nd_size]. unfold invalid_offset.
  destruct (Z.eqb_spec (link (a + 32 + s) r (-1)) (-1)) as [Heq|Hne].
  - destruct r as [|b r]; [|simpl in Heq; lia]. exists (ph_nodes p). split; [by destruct p|]. done.
  - destruct (m_forward_loop_ok p a _ r fuel s a Hseg Hs Ha Hs0 Hext Hsz Hf Hn) as (m' & x & -> & H1 & H2 & H3).
    cbn [must mbind outcome_bind set_nodes ph_nodes]. rewrite H1. cbn [must mbind outcome_bind].
    eexists. split; [unfold store; cbn; reflexivity|]. split; [|split].
    + rewrite lookup_insert_eq. unfold set_next, set_size. cbn. do 2 f_equal.
      unfold link. destruct (run_rest r) as [|b r'] eqn:Hrest; [done|].
      unfold pointer_to_offset. cbn. rewrite Z.gtb_ltb, (proj2 (Z.ltb_ge _ _)); [done|].
      lia.
    + eapply seg_frame; [done| |exact H2]. intros o Ho. by rewrite lookup_insert_ne by lia.
    + intros o Ho. rewrite lookup_insert_ne by lia. by apply H3.
Qed.

Lemma last_off_snoc l b : forall prev off, last_off prev off (l ++ [b]) = off + extent l.
Proof.
  induction l as [|[f s] l IH]; intros prev off; simpl.
  - destruct b. unfold extent. simpl. lia.
  - rewrite IH, extent_cons. simpl. lia.
Qed.

Lemma extent_snoc l f s : extent (l ++ [(f, s)]) = extent l + 32 + s.
Proof. rewrite extent_app. unfold extent at 2. simpl. lia. Qed.

(** Closing the gap in front of a free list head. *)
Fixpoint close (l x : list block) : list block :=
  match l with
  | [] => x
  | (f, s) :: l' => if f then merge_free s (close l' x) else (f, s) :: close l' x
  end.

Lemma close_snoc l b x : coalesced (l ++ [b]) ->
  close (l ++ [b]) x = l ++ (if b.1 then merge_free b.2 x else b :: x).
Proof.
  induction l as [|[f s] l IH]; intros Hc; simpl.
  - by destruct b as [[] ?].
  - rewrite IH by (by apply (coalesced_tail (f, s))). pose proof (coalesced_head _ _ Hc) as Hh. destruct f; [|done].
    destruct l as [|[[] ?] l]; simpl in *; [|done..]. destruct b as [[] ?]; done.
Qed.

Lemma free_blocks_at l f s r : forall off, sizes_ok l ->
  free_blocks off (off + extent l + 32) (l ++ (f, s) :: r) = Some (close l (merge_free s r)).
Proof.
  induction l as [|[g t] l IH]; intros off Hs; simpl.
  - replace (off + extent [] + 32) with (off + 32) by (unfold extent; simpl; lia). by rewrite Z.eqb_refl.
  - inversion Hs as [|? ? H1 H2]; subst. simpl in H1. rewrite extent_cons. simpl. pose proof (extent_nonneg l H2).
    rewrite (proj2 (Z.eqb_neq _ _)) by lia.
    replace (off + (t + 32 + extent l) + 32) with (off + 32 + t + extent l + 32) by lia. by rewrite IH.
Qed.

(** The loop over the free nodes before [a] stops at the first used one. *)
Lemma m_backward_loop_ok k p l a merged :
  (2 <= k)%nat -> seg (ph_nodes p) (-1) 0 l a -> a = extent l -> coalesced l -> sizes_ok l -> l <> [] ->
  0 <= merged -> a + merged <= ph_size p -> ph_size p < 2 ^ 62 ->
  m_backward_loop k p merged (offset_to_pointer p (last_off (-1) 0 l)) a =
    Ok (match last l with Some (true, s0) => (merged + (s0 + 32), a - 32 - s0) | _ => (merged, a) end).
Proof.
  intros Hk Hseg Ha Hc Hs Hne Hm Hext Hsz.
  destruct l as [|[f0 s0] l _] using rev_ind; [done|]. rewrite last_snoc, last_off_snoc, Z.add_0_l.
  apply sizes_ok_app in Hs as [Hs1 Hs2]. inversion Hs2 as [|? ? Hs0 _]; subst. simpl in Hs0.
  rewrite extent_snoc in *. pose proof (extent_nonneg l Hs1).
  apply seg_app in Hseg as [Hseg Hn]; [|done]. rewrite Z.add_0_l in *. rewrite seg_cons in Hn. destruct Hn as [Hn _].
  destruct k as [|[|k]]; [lia..|]. rewrite offset_to_pointer_in by lia.
  cbn [m_backward_loop]. unfold load. cbn [must mbind outcome_bind]. rewrite Hn.
  cbn [must mbind outcome_bind nd_free nd_size nd_prev]. destruct f0; [|done].
  rewrite node_bytes_eq, (u64_small (s0 + 32)), u64_small by lia.
  replace (extent l + 32 + s0 - 32 - s0) with (extent l) by lia.
  destruct l as [|[f1 s1] l _] using rev_ind; [done|]. rewrite last_off_snoc, Z.add_0_l.
  assert (f1 = false) as ->.
  { clear -Hc. induction l as [|b l IH]; simpl in Hc; [by destruct f1|]. apply IH. by eapply coalesced_tail. }
  apply sizes_ok_app in Hs1 as [Hs3 Hs4]. inversion Hs4 as [|? ? Hs5 _]; subst. simpl in Hs5.
  rewrite extent_snoc in *. pose proof (extent_nonneg l Hs3).
  apply seg_app in Hseg as [_ Hn1]; [|done]. rewrite Z.add_0_l in *. rewrite seg_cons in Hn1. destruct Hn1 as [Hn1 _].
  rewrite offset_to_pointer_in by lia. unfold load. cbn [must mbind outcome_bind]. by rewrite Hn1.
Qed.

(** The updates after the backward walk: the first node of the run takes over. *)
Lemma m_backward_tail p first a e merged fn n r :
  ph_nodes p !! first = Some fn -> ph_nodes p !! a = Some n -> nd_next n = link e r (-1) ->
  seg (ph_nodes p) a e r (-1) -> sizes_ok r -> 0 <= first <= a -> a < e -> e + extent r <= ph_size p -> ph_size p < 2 ^ 62 ->
  exists m',
    (let p1 := store p first (set_size fn merged) in
     n1 ← load p1 (Some a);
     p2 ← match offset_to_pointer p1 (nd_next n1) with
          | None => Ok p1
          | Some x => nn ← load p1 (Some x); Ok (store p1 x (set_prev nn (pointer_to_offset p1 (Some first))))
          end;
     n2 ← load p2 (Some a);
     f2 ← load p2 (Some first);
     Ok (store p2 first (set_next f2 (nd_next n2)))) = Ok (set_nodes p m') /\
    m' !! first = Some (set_next (set_size fn merged) (link e r (-1))) /\ seg m' first e r (-1) /\
    (forall o, o < first -> m' !! o = ph_nodes p !! o).
Proof.
  intros Hf Ha Hnx Hseg Hs Hfa Hae Hext Hsz. pose proof (extent_nonneg r Hs). cbn zeta.
  unfold load, store. cbn [must mbind outcome_bind set_nodes ph_nodes]. set (m1 := <[first := set_size fn merged]> (ph_nodes p)).
  assert (exists n1, m1 !! a = Some n1 /\ nd_next n1 = link e r (-1)) as (n1 & Hn1 & Hnx1).
  { unfold m1. destruct (decide (first = a)) as [->|Hne].
    - rewrite lookup_insert_eq. eexists. split; [done|]. rewrite Hf in Ha. by simplify_eq.
    - rewrite lookup_insert_ne by done. eauto. }
  assert (m1 !! first = Some (set_size fn merged)) as Hf1 by apply lookup_insert_eq.
  assert (forall o, o <> first -> m1 !! o = ph_nodes p !! o) as Hm1.
  { intros o Ho. unfold m1. by rewrite lookup_insert_ne. }
  clearbody m1. rewrite Hn1.
  cbn [must mbind outcome_bind]. rewrite Hnx1.
  destruct r as [|[f s] r].
  - cbn [link]. replace (offset_to_pointer (set_nodes p m1) (-1)) with (@None Z) by reflexivity.
    cbn [must mbind outcome_bind set_nodes ph_nodes]. rewrite Hn1. cbn [must mbind outcome_bind]. rewrite Hf1.
    cbn [must mbind outcome_bind]. rewrite Hnx1.
    eexists. split; [cbn; reflexivity|]. split; [apply lookup_insert_eq|]. split; [done|].
    intros o Ho. by rewrite lookup_insert_ne, Hm1 by lia.
  - cbn [link]. rewrite extent_cons in Hext. simpl in Hext. inversion Hs as [|? ? Hs1 Hsr]; subst. simpl in Hs1.
    pose proof (extent_nonneg r Hsr). rewrite (offset_to_pointer_in (set_nodes p m1)) by (simpl; lia).
    rewrite (pointer_to_offset_in (set_nodes p m1)) by (simpl; lia).
    apply seg_cons in Hseg as [Hn Hr].
    cbn [must mbind outcome_bind set_nodes ph_nodes]. rewrite Hm1, Hn by lia.
    cbn [must mbind outcome_bind set_nodes ph_nodes].
    match goal with |- context [<[_ := set_prev ?n0 first]> m1] => set (m2 := <[e := set_prev n0 first]> m1) end.
    assert (m2 !! a = Some n1 /\ m2 !! first = Some (set_size fn merged)) as [Ha2 Hf2].
    { unfold m2. rewrite !lookup_insert_ne by lia. done. }
    rewrite Ha2. cbn [must mbind outcome_bind]. rewrite Hf2. cbn [must mbind outcome_bind]. rewrite Hnx1. unfold m2.
    eexists. split; [cbn; reflexivity|]. split; [apply lookup_insert_eq|].
    split; [|intros o Ho; by rewrite !lookup_insert_ne, Hm1 by lia].
    eapply (seg_set_prev (ph_nodes p) _ a); [done| | |rewrite seg_cons; done].
    + intros o Ho. by rewrite !lookup_insert_ne, Hm1 by lia.
    + intros _ nn Hnn. rewrite Hn in Hnn. injection Hnn as <-. by rewrite lookup_insert_ne, lookup_insert_eq by lia.
Qed.

Lemma load_Some p a n : ph_nodes p !! a = Some n -> load p (Some a) = Ok n.
Proof. intros Hn. unfold load. cbn [must mbind outcome_bind]. by rewrite Hn. Qed.

Lemma m_merge_backward_ok fuel p l s r :
  usable p -> (2 <= fuel)%nat -> sizes_ok l -> sizes_ok r -> 0 <= s -> coalesced l -> head_free r = false ->
  seg (ph_nodes p) (-1) 0 (l ++ (true, s) :: r) (-1) ->
  extent l + 32 + s + extent r <= ph_size p -> ph_size p < 2 ^ 62 ->
  exists m', m_merge_backward debug fuel p (extent l) = Ok (set_nodes p m') /\
    seg m' (-1) 0 (close l ((true, s) :: r)) (-1).
Proof.
  intros Hu Hf Hsl Hsr Hs Hc Hhr Hseg Hext Hsz.
  pose proof Hseg as Hseg0. rewrite seg_split in Hseg. destruct Hseg as (Gl & Gn & Gr).
  pose proof (extent_nonneg l Hsl). pose proof (extent_nonneg r Hsr).
  unfold m_merge_backward, assert_locked, require. rewrite Hu. cbn [must mbind outcome_bind].
  rewrite (load_Some _ _ _ Gn). cbn [must mbind outcome_bind nd_prev nd_size]. unfold invalid_offset.
  destruct l as [|[f0 s0] l _] using rev_ind.
  { exists (ph_nodes p). split; [by destruct p|]. done. }
  apply sizes_ok_app in Hsl as Hsl'. destruct Hsl' as [Hsl0 Hs0].
  inversion Hs0 as [|? ? Hs1 _]; subst. simpl in Hs1. pose proof (extent_nonneg l Hsl0).
  rewrite (proj2 (Z.eqb_neq (last_off _ _ _) (-1))) by (rewrite last_off_snoc; lia).
  rewrite (m_backward_loop_ok fuel p (l ++ [(f0, s0)]) (extent (l ++ [(f0, s0)])) s)
    by (done || lia || by destruct l).
  rewrite last_snoc. rewrite extent_snoc in *. rewrite last_off_snoc, Z.add_0_l in Gn.
  rewrite (close_snoc l (f0, s0)) by done. simpl fst. simpl snd.
  apply seg_app in Gl as [Gl0 Gn0]; [|done]. rewrite Z.add_0_l in *. apply seg_cons in Gn0 as [Gn0 _].
  destruct f0; cbn [mbind outcome_bind].
  - replace (extent l + 32 + s0 - 32 - s0) with (extent l) by lia.
    rewrite (load_Some _ _ _ Gn0). cbn [must mbind outcome_bind].
    edestruct (m_backward_tail p (extent l) (extent l + 32 + s0) (extent l + 32 + s0 + 32 + s) (s + (s0 + 32)))
      as (m' & Hm' & R1 & R2 & R3); [exact Gn0|exact Gn|done|exact Gr|done|lia|lia|lia|done|].
    exists m'. split; [exact Hm'|]. rewrite merge_free_run.
    assert (run_size (s0) ((true, s) :: r) = s0 + (s + 32) /\ run_rest ((true, s) :: r) = r) as [-> ->].
    { simpl. by destruct r as [|[[] ?] ?]. }
    rewrite seg_split. split; [|split].
    + eapply seg_frame; [done| |exact Gl0]. intros o Ho. apply R3. lia.
    + rewrite R1. unfold set_next, set_size. cbn.
      replace (extent l + 32 + (s0 + (s + 32))) with (extent l + 32 + s0 + 32 + s) by lia.
      replace (s0 + (s + 32)) with (s + (s0 + 32)) by lia. done.
    + replace (extent l + 32 + (s0 + (s + 32))) with (extent l + 32 + s0 + 32 + s) by lia. done.
  - rewrite (load_Some _ _ _ Gn). cbn [must mbind outcome_bind].
    edestruct (m_backward_tail p (extent l + 32 + s0) (extent l + 32 + s0) (extent l + 32 + s0 + 32 + s) s)
      as (m' & Hm' & R1 & R2 & R3); [exact Gn|exact Gn|done|exact Gr|done|lia|lia|lia|done|].
    exists m'. split; [exact Hm'|].
    replace (l ++ (false, s0) :: (true, s) :: r) with ((l ++ [(false, s0)]) ++ (true, s) :: r) by (by rewrite <- app_assoc).
    rewrite seg_split. rewrite extent_snoc, last_off_snoc, Z.add_0_l. split; [|split; [|done]].
    + apply seg_app; [done|]. rewrite Z.add_0_l. split.
      * eapply seg_frame; [done| |exact Gl0]. intros o Ho. apply R3. lia.
      * apply seg_cons. split; [|done]. rewrite R3 by lia. exact Gn0.
    + by rewrite R1.
Qed.

Lemma deallocate_ok p l s r fuel :
  ph_locked p = false -> pool_ok p (l ++ (false, s) :: r) -> (2 <= fuel)%nat -> (length r < fuel)%nat ->
  exists p', deallocate debug fuel p (extent l + 32) = Ok (tt, p') /\
    pool_ok p' (close l (merge_free s r)) /\ ph_locked p' = false /\ ph_size p' = ph_size p.
Proof.
  intros Hlock Hok Hf Hlen. destruct (pool_bounds _ _ _ _ _ Hok) as (Hl & Hs & Hr & Hext & Hsz & Hsl & Hsr & Hptr).
  pose proof (po_seg _ _ Hok) as Hseg. rewrite seg_split in Hseg. destruct Hseg as (Gl & Gn & Gr).
  assert (coalesced l /\ coalesced r) as [Hcl Hcr].
  { pose proof (po_coalesced _ _ Hok) as Hc. clear -Hc. induction l as [|b l IH].
    - split; [done|exact Hc].
    - pose proof (coalesced_tail _ _ Hc) as Hc'. destruct (IH Hc') as [H1 H2]. split; [|done].
      apply coalesced_cons; [done|]. pose proof (coalesced_head _ _ Hc) as Hh. destruct l as [|[[] ?] ?]; simpl in *; rewrite ?andb_false_r; done. }
  unfold deallocate, with_lock. rewrite Hlock, node_bytes_eq.
  replace (extent l + 32 - 32) with (extent l) by lia.
  rewrite (load_Some (set_locked p true) _ _ Gn). cbn [mbind outcome_bind].
  set (p1 := store (set_locked p true) (extent l) _).
  destruct (m_merge_forward_ok fuel p1 (extent l) s (last_off (-1) 0 l) r) as (m' & Hfw & H1 & H2 & H3);
    try done; try lia; try (simpl; lia).
  { unfold p1. cbn. by rewrite lookup_insert_eq. }
  { eapply seg_frame; [done| |exact Gr]. intros o Ho. unfold p1. cbn. by rewrite lookup_insert_ne by lia. }
  rewrite Hfw. cbn [mbind outcome_bind].
  destruct (run_bounds r s Hsr) as (B1 & B2 & B3).
  destruct (m_merge_backward_ok fuel (set_nodes p1 m') l (run_size s r) (run_rest r)) as (m'' & Hbw & H4);
    try done; try lia; try (simpl; lia).
  { clear. induction r as [|[[] ?] ? ?]; simpl; done. }
  { rewrite seg_split. split; [|split; [done|done]].
    eapply seg_frame; [done| |exact Gl]. intros o Ho. cbn. rewrite H3 by lia. unfold p1. cbn. by rewrite lookup_insert_ne by lia. }
  rewrite Hbw. cbn [mbind outcome_bind]. eexists. split; [reflexivity|]. split; [|done].
  pose proof (free_blocks_at l false s r 0 Hsl) as Hfree. rewrite Z.add_0_l in Hfree.
  destruct (free_blocks_inv _ _ _ _ (po_sizes _ _ Hok) (po_coalesced _ _ Hok) Hfree) as (F1 & F2 & F3 & F4).
  destruct Hok. split; cbn; try done.
  - rewrite F3. done.
  - intros Hnil. rewrite Hnil in F3. rewrite extent_app, extent_cons in F3. unfold extent at 1 in F3. simpl in F3. lia.
  - rewrite merge_free_run. done.
Qed.

(** * Whole runs *)
Inductive op : Type :=
| OpAlloc (n : Z)          (* allocate_offset(n) *)
| OpFree (offset : Z).     (* deallocate of the data at that offset *)

(** [None] as a reply: the allocation threw [std::bad_alloc]. *)
Definition exec (fuel : nat) (o : op) (p : pool) : outcome (option Z * pool) :=
  match o with
  | OpAlloc n =>
    match allocate_offset debug fuel sizeof_T p n with
    | Ok (off, p') => Ok (Some off, p')
    | Throw bad_alloc => Ok (None, p)
    | Throw e => Throw e
    | UB => UB
    end
  | OpFree off => '(_, p') ← deallocate debug fuel p off; Ok (Some off, p')
  end.

Fixpoint run (fuel : nat) (ops : list op) (p : pool) : outcome (list (option Z) * pool) :=
  match ops with
  | [] => Ok ([], p)
  | o :: ops' =>
    '(r, p1) ← exec fuel o p;
    '(rs, p2) ← run fuel ops' p1;
    Ok (r :: rs, p2)
  end.

Definition bytes_of (n : Z) : Z := align_up (u64 (n * sizeof_T)) 16.

(** [None]: freeing an offset that is not live. *)
Definition spec_exec (o : op) (bl : list block) : option (option Z * list block) :=
  match o with
  | OpAlloc n =>
    match alloc_blocks 0 (bytes_of n) bl with
    | Some (off, _, bl') => Some (Some off, bl')
    | None => Some (None, bl)
    end
  | OpFree off =>
    if bool_decide (off ∈ (live 0 bl).*1)
    then bl' ← free_blocks 0 off bl; Some (Some off, bl')
    else None
  end.

Fixpoint spec_run (ops : list op) (bl : list block) : option (list (option Z) * list block) :=
  match ops with
  | [] => Some ([], bl)
  | o :: ops' =>
    '(r, bl1) ← spec_exec o bl;
    '(rs, bl2) ← spec_run ops' bl1;
    Some (r :: rs, bl2)
  end.

Lemma live_split bl : forall off o z, (o, z) ∈ live off bl ->
  exists l r, bl = l ++ (false, z) :: r /\ o = off + extent l + 32.
Proof.
  induction bl as [|[f s] bl IH]; intros off o z Hin; simpl in Hin; [by apply elem_of_nil in Hin|].
  apply elem_of_app in Hin as [Hin|Hin].
  - destruct f; [by apply elem_of_nil in Hin|]. apply list_elem_of_singleton in Hin. simplify_eq.
    exists [], bl. split; [done|]. unfold extent. simpl. lia.
  - destruct (IH _ _ _ Hin) as (l & r & -> & ->). exists ((f, s) :: l), r. split; [done|]. rewrite extent_cons. simpl. lia.
Qed.

Lemma bytes_of_nonneg n : 0 <= bytes_of n.
Proof. unfold bytes_of, align_up. apply Z.land_nonneg. left. apply wrap_range. lia. Qed.

Lemma alloc_blocks_length bytes bl : forall off o z bl', alloc_blocks off bytes bl = Some (o, z, bl') ->
  (length bl' <= length bl + 1)%nat.
Proof.
  induction bl as [|[f s] r IH]; intros off o z bl' Ha; simpl in Ha; [done|].
  destruct (f && _).
  - destruct (_ >? _); simplify_eq; simpl; lia.
  - destruct (alloc_blocks _ _ r) as [[[? ?] r']|] eqn:Hr; simplify_eq. apply IH in Hr. simpl. lia.
Qed.

Lemma merge_free_length r : forall s, (length (merge_free s r) <= length r + 1)%nat.
Proof. induction r as [|[[] s'] r IH]; intros s; simpl; [lia| |lia]. pose proof (IH (s + (s' + 32))). lia. Qed.

Lemma free_blocks_length o bl : forall off bl', free_blocks off o bl = Some bl' -> (length bl' <= length bl)%nat.
Proof.
  induction bl as [|[f s] r IH]; intros off bl' Ha; simpl in Ha; [done|].
  destruct (_ =? _); simplify_eq.
  - pose proof (merge_free_length r s). simpl. lia.
  - destruct (free_blocks _ _ r) as [r'|] eqn:Hr; simplify_eq. apply IH in Hr. simpl.
    destruct f; simpl; [pose proof (merge_free_length r' s)|]; lia.
Qed.

Lemma exec_ok fuel o p bl r bl' :
  ph_locked p = false -> pool_ok p bl -> (length bl + 2 <= fuel)%nat -> spec_exec o bl = Some (r, bl') ->
  exists p', exec fuel o p = Ok (r, p') /\ pool_ok p' bl' /\ ph_locked p' = false /\ ph_size p' = ph_size p /\
    (length bl' <= length bl + 1)%nat.
Proof.
  intros Hlock Hok Hf Hs. destruct o as [n|off]; cbn [spec_exec exec] in *.
  - unfold allocate_offset, with_lock. rewrite Hlock. fold (bytes_of n).
    assert (pool_ok (set_locked p true) bl) as Hok' by (destruct Hok; by split).
    pose proof (m_allocate_ok (set_locked p true) bl fuel (bytes_of n) ltac:(apply orb_true_r) Hok' ltac:(lia) (bytes_of_nonneg n)) as Ha.
    destruct (alloc_blocks 0 (bytes_of n) bl) as [[[o z] b]|] eqn:Hb; injection Hs as <- <-.
    + destruct Ha as (p' & -> & H1 & H2 & H3). cbn [mbind outcome_bind]. eexists. split; [done|].
      split; [destruct H1; by split|]. split; [done|]. split; [done|]. by eapply alloc_blocks_length.
    + rewrite Ha. cbn [mbind outcome_bind]. exists p. split_and!; (done || lia).
  - case_bool_decide as Hin; [|done]. apply list_elem_of_fmap in Hin as ([o z] & -> & Hin). simpl in *.
    destruct (free_blocks 0 o bl) as [b|] eqn:Hb; [|done]. injection Hs as <- <-.
    pose proof (free_blocks_length _ _ _ _ Hb) as Hlen.
    destruct (live_split bl 0 o z Hin) as (l & r & -> & ->). rewrite Z.add_0_l in *.
    rewrite length_app in Hf. simpl in Hf.
    destruct (deallocate_ok p l z r fuel Hlock Hok ltac:(lia) ltac:(lia)) as (p' & -> & H1 & H2 & H3).
    cbn [mbind outcome_bind]. exists p'. split; [done|].
    assert (sizes_ok l) as Hsl by (pose proof (po_sizes _ _ Hok) as H4; apply sizes_ok_app in H4; tauto).
    pose proof (free_blocks_at l false z r 0 Hsl) as Hfree. rewrite Z.add_0_l, Hb in Hfree. injection Hfree as ->.
    split_and!; (done || lia).
Qed.

Lemma run_ok fuel ops : forall p bl rs bl',
  ph_locked p = false -> pool_ok p bl -> (length bl + length ops + 2 <= fuel)%nat -> spec_run ops bl = Some (rs, bl') ->
  exists p', run fuel ops p = Ok (rs, p') /\ pool_ok p' bl' /\ ph_locked p' = false /\ ph_size p' = ph_size p.
Proof.
  induction ops as [|o ops IH]; intros p bl rs bl' Hlock Hok Hf Hs; cbn [spec_run run] in *; [simplify_eq; eauto|].
  apply bind_Some in Hs as ([r bl1] & H1 & Hs). apply bind_Some in Hs as ([rs' bl2] & H2 & Hs). simplify_eq.
  simpl in Hf. destruct (exec_ok fuel o p bl r bl1 Hlock Hok ltac:(lia) H1) as (p1 & He & Hok1 & Hl1 & Hs1 & Hn1).
  destruct (IH p1 bl1 rs' bl' Hl1 Hok1 ltac:(lia) H2) as (p' & Hr & Hok' & Hl' & Hs').
  exists p'. rewrite He. cbn [mbind outcome_bind]. rewrite Hr. cbn [mbind outcome_bind]. split_and!; (done || congruence).
Qed.

Lemma pool_construct_ok size : 160 <= size < 2 ^ 62 -> pool_ok (pool_construct size) [(true, size - 160)].
Proof.
  intros Hs. unfold pool_construct. rewrite header_bytes_eq, node_bytes_eq, (u64_small (size - 128)), u64_small by lia.
  split; cbn; try done; try lia.
  all: first [unfold extent; simpl; lia | repeat constructor; simpl; lia
             | split; [|done]; rewrite lookup_singleton_eq; do 2 f_equal; lia].
Qed.

Lemma live_sorted bl : forall off i j oi zi oj zj, sizes_ok bl -> (i < j)%nat ->
  live off bl !! i = Some (oi, zi) -> live off bl !! j = Some (oj, zj) -> oi + zi + 32 <= oj.
Proof.
  induction bl as [|[f s] r IH]; intros off i j oi zi oj zj Hs Hij Hi Hj; simpl in Hi, Hj; [done|].
  inversion Hs as [|? ? Hs1 Hsr]; subst. destruct f; simpl in Hi, Hj; [by eapply IH|].
  destruct j as [|j]; [lia|]. destruct i as [|i]; simpl in *.
  - simplify_eq. apply list_elem_of_lookup_2 in Hj. apply live_bounds in Hj; [|done]. lia.
  - eapply (IH _ i j); (done || lia).
Qed.

(** What the metrics measure: the sum over the blocks in use. *)
Definition used (g : Z -> Z) (bl : list block) : Z := zsum (fun b : block => if b.1 then 0 else g b.2) bl.

Lemma m_walk_ok p (g : Z -> Z) : (forall s, 0 <= s < 2 ^ 62 -> 0 <= g s <= s + 32) ->
  forall r k l acc, pool_ok p (l ++ r) -> r <> [] -> (length r < k)%nat -> 0 <= acc <= extent l ->
  m_walk k p (Some (extent l)) (fun n => g (nd_size n)) acc = Ok (acc + used g r).
Proof.
  intros Hg. induction r as [|[f s] r IH]; intros [|k] l acc Hok Hne Hk Hacc; try done; simpl in Hk; [lia|].
  pose proof (pool_bounds p l f s r Hok) as (Hl & Hs & Hr & Hext & Hsz & _ & _ & Hptr).
  pose proof (proj1 (seg_split _ _ _ _ _) (po_seg _ _ Hok)) as (_ & Hn & _).
  pose proof (Hg s ltac:(lia)). cbn [m_walk]. rewrite (load_Some _ _ _ Hn). cbn [mbind outcome_bind nd_next nd_free nd_size].
  set (acc' := if f then acc else u64 (acc + g s)).
  assert (acc' = acc + used g [(f, s)] /\ 0 <= acc' <= extent (l ++ [(f, s)])) as [Hu Hacc'].
  { unfold acc', used. rewrite extent_snoc. destruct f; simpl; rewrite ?u64_small by lia; lia. }
  assert (used g ((f, s) :: r) = used g [(f, s)] + used g r) as -> by (unfold used; simpl; lia).
  destruct r as [|b r]; simpl link.
  - destruct k as [|k]; [simpl in Hk; lia|]. unfold used at 2. simpl. f_equal. lia.
  - rewrite Hptr by lia. replace (extent l + 32 + s) with (extent (l ++ [(f, s)])) by (rewrite extent_snoc; lia).
    rewrite (IH k (l ++ [(f, s)]) acc'); [f_equal; lia| |done|lia|done]. by rewrite <- app_assoc.
Qed.

(** Every block is in use and live, or free. *)
Lemma used_live bl : forall off,
  used (fun s => s) bl = zsum snd (live off bl) /\
  extent bl = zsum snd (live off bl) + 32 * zlen (live off bl) + zsum (fun b : block => if b.1 then b.2 + 32 else 0) bl.
Proof.
  unfold used, extent. induction bl as [|[f s] r IH]; intros off; [done|].
  destruct (IH (off + 32 + s)) as [H1 H2]. destruct f; simpl; rewrite ?zlen_cons; cbn [snd]; lia.
Qed.

Lemma used_with_node bl : extent bl < 2 ^ 64 -> sizes_ok bl ->
  forall off, used (fun s => u64 (s + node_bytes)) bl = zsum snd (live off bl) + 32 * zlen (live off bl).
Proof.
  unfold used, extent. rewrite node_bytes_eq. induction bl as [|[f s] r IH]; intros Hx Hs off; [done|].
  inversion Hs as [|? ? Hs1 Hr]; subst. simpl in Hs1, Hx. pose proof (extent_nonneg r Hr) as Hnn. unfold extent in Hnn.
  specialize (IH ltac:(lia) Hr (off + 32 + s)).
  destruct f; simpl; rewrite ?zlen_cons; cbn [snd]; rewrite ?u64_small by lia; lia.
Qed.

Lemma no_live_one_block bl off : coalesced bl -> bl <> [] -> live off bl = [] -> exists s, bl = [(true, s)].
Proof.
  intros Hc Hne Hl. destruct bl as [|[f s] bl]; [done|]. destruct f; simpl in Hl; [|done].
  destruct bl as [|[[] s'] bl]; [by exists s|done|done].
Qed.
End correctness.

(** C5 The pool allocator implements first fit with splitting and full coalescing:
    from any represented pool, a sequence of [allocate_offset] and [deallocate]
    calls (each deallocation of a live block) behaves exactly like the block-list
    specification: the same offsets, [bad_alloc] exactly when no free block is
    large enough, no failed assertion and no access outside the chain of nodes,
    and the chain represents the specified blocks again. *)
Theorem pool_refines_blocks (debug : bool) (sizeof_T : Z) (fuel : nat) (ops : list op) (p : pool) (bl : list (bool * Z)) rs bl' :
  ph_locked p = false -> pool_ok p bl -> (length bl + length ops + 2 <= fuel)%nat ->
  spec_run sizeof_T ops bl = Some (rs, bl') ->
  exists p', run debug sizeof_T fuel ops p = Ok (rs, p') /\ pool_ok p' bl' /\ ph_locked p' = false.
Proof.
  intros Hl Hok Hf Hs. destruct (run_ok debug sizeof_T fuel ops p bl rs bl' Hl Hok Hf Hs) as (p' & H1 & H2 & H3 & _).
  eauto.
Qed.

Definition demo_ops : list op :=
  [OpAlloc 5; OpAlloc 100; OpAlloc 1; OpFree 32; OpFree 224; OpAlloc 2; OpFree 80; OpAlloc 1000].
Definition demo_replies : list (option Z) := [Some 32; Some 80; Some 224; Some 32; Some 224; Some 32; Some 80; None].

Lemma pool_refines_blocks_witness :
  ph_locked (pool_construct 1024) = false /\ pool_ok (pool_construct 1024) [(true, 864)] /\
  spec_run 1 demo_ops [(true, 864)] = Some (demo_replies, [(false, 16); (true, 816)]) /\
  exists p', run true 1 20 demo_ops (pool_construct 1024) = Ok (demo_replies, p') /\
    pool_ok p' [(false, 16); (true, 816)] /\ ph_locked p' = false.
Proof.
  assert (pool_ok (pool_construct 1024) [(true, 864)]) as Hok by (apply (pool_construct_ok 1024); lia).
  split; [done|]. split; [done|]. split; [reflexivity|].
  apply (pool_refines_blocks true 1 20 demo_ops (pool_construct 1024) [(true, 864)]); [done|done|simpl; lia|reflexivity].
Defined.

(** Memory safety of a pool created in [size] bytes: after any such sequence the
    live blocks lie inside the managed memory behind their nodes, in order and
    without overlap; the blocks account for every byte; a freshly allocated block
    has at least the requested bytes and is disjoint from all others; and once
    everything has been freed the pool is one single free block again. *)
Theorem pool_blocks_disjoint (debug : bool) (sizeof_T : Z) (fuel : nat) (size : Z) (ops : list op) rs bl :
  160 <= size < 2 ^ 62 -> (length ops + 3 <= fuel)%nat ->
  spec_run sizeof_T ops [(true, size - 160)] = Some (rs, bl) ->
  exists p, run debug sizeof_T fuel ops (pool_construct size) = Ok (rs, p) /\ pool_ok p bl /\
    extent bl = size - 128 /\
    (forall o z, (o, z) ∈ live 0 bl -> 32 <= o /\ 0 <= z /\ o + z <= size - 128) /\
    (forall i j oi zi oj zj, (i < j)%nat -> live 0 bl !! i = Some (oi, zi) -> live 0 bl !! j = Some (oj, zj) -> oi + zi + 32 <= oj) /\
    (forall n o bl', spec_exec sizeof_T (OpAlloc n) bl = Some (Some o, bl') ->
       exists z, bytes_of sizeof_T n <= z /\ live 0 bl' ≡ₚ (o, z) :: live 0 bl) /\
    (live 0 bl = [] -> bl = [(true, size - 160)]).
Proof.
  intros Hs Hf Hrun.
  destruct (run_ok debug sizeof_T fuel ops (pool_construct size) _ rs bl eq_refl (pool_construct_ok size Hs)) as (p & Hr & Hok & _ & Hsz);
    [simpl; lia|done|].
  exists p. split; [done|]. split; [done|]. pose proof (po_extent _ _ Hok) as He. rewrite Hsz in He. simpl in He.
  pose proof (po_sizes _ _ Hok) as Hsizes. pose proof (po_coalesced _ _ Hok) as Hc.
  split; [lia|]. split; [|split; [|split]].
  - intros o z Hin. apply live_bounds in Hin; [|done]. lia.
  - intros. by eapply live_sorted.
  - intros n o bl' Hx. cbn [spec_exec] in Hx.
    destruct (alloc_blocks 0 (bytes_of sizeof_T n) bl) as [[[o' z] b]|] eqn:Ha; [|done]. injection Hx as <- <-.
    destruct (alloc_blocks_inv _ _ _ _ _ _ (bytes_of_nonneg _ _) Hsizes Hc Ha) as (_ & _ & _ & Hz & Hl & _).
    exists z. split; [lia|done].
  - intros Hl. destruct (no_live_one_block bl 0 Hc (po_nonempty _ _ Hok) Hl) as [s ->].
    unfold extent in He. simpl in He. do 2 f_equal. lia.
Qed.

Lemma pool_blocks_disjoint_witness :
  160 <= 1024 < 2 ^ 62 /\ (length demo_ops + 3 <= 20)%nat /\
  exists p, run true 1 20 demo_ops (pool_construct 1024) = Ok (demo_replies, p) /\ pool_ok p [(false, 16); (true, 816)].
Proof.
  split; [lia|]. split; [simpl; lia|].
  destruct (pool_blocks_disjoint true 1 20 1024 demo_ops demo_replies [(false, 16); (true, 816)]) as (p & H1 & H2 & _);
    [lia|simpl; lia|reflexivity|].
  exists p. split; assumption.
Defined.

(** Two gaps in the interface.  [max_size] does not subtract the header: on a
    fresh pool an allocation of [max_size()] elements of at most 128 bytes always
    throws.  And [allocate], unlike its siblings, neither takes the lock its helper
    asserts (with assertions enabled every call fails) nor rounds the size up. *)
Theorem pool_interface_gaps (sizeof_T size n : Z) (fuel : nat) (debug : bool) :
  0 < sizeof_T <= 128 -> 160 <= size < 2 ^ 62 -> (0 < fuel)%nat ->
  allocate_offset debug fuel sizeof_T (pool_construct size) (max_size sizeof_T (pool_construct size)) = Throw bad_alloc /\
  allocate true fuel sizeof_T (pool_construct size) n = UB /\
  (0 <= n * sizeof_T <= size - 160 - 33 -> exists p', allocate false fuel sizeof_T (pool_construct size) n = Ok (32, p') /\
     pool_ok p' [(false, n * sizeof_T); (true, size - 160 - n * sizeof_T - 32)]).
Proof.
  intros Ht Hs Hf. pose proof (pool_construct_ok size Hs) as Hok. split; [|split].
  - unfold allocate_offset, with_lock. cbn [ph_locked pool_construct].
    set (m := max_size _ _). assert (m = (size - 32) / sizeof_T) as Hm.
    { unfold m, max_size. cbn [ph_size pool_construct]. rewrite node_bytes_eq, u64_small by lia. done. }
    pose proof (Z.mul_succ_div_gt (size - 32) sizeof_T ltac:(lia)) as Hgt.
    pose proof (Z.mul_div_le (size - 32) sizeof_T ltac:(lia)).
    pose proof (Z.div_pos (size - 32) sizeof_T ltac:(lia) ltac:(lia)).
    rewrite u64_small by (rewrite Hm; nia).
    pose proof (align_up16_bounds (m * sizeof_T) ltac:(rewrite Hm; nia)) as [Ha _].
    assert (pool_ok (set_locked (pool_construct size) true) [(true, size - 160)]) as Hok' by (destruct Hok; by split).
    pose proof (m_allocate_ok debug (set_locked (pool_construct size) true) [(true, size - 160)] fuel (align_up (m * sizeof_T) 16) ltac:(apply orb_true_r) Hok' ltac:(simpl; lia) ltac:(nia)) as Hloop.
    simpl alloc_blocks in Hloop. rewrite (proj2 (Z.leb_gt _ _)) in Hloop by (rewrite Hm in *; nia).
    simpl in Hloop. by rewrite Hloop.
  - unfold allocate, m_allocate_from_list_ptr, assert_locked, require.
    cbn [negb orb ph_locked pool_construct mbind outcome_bind]. reflexivity.
  - intros Hn. unfold allocate. rewrite u64_small by lia.
    pose proof (m_allocate_ok false (pool_construct size) _ fuel (n * sizeof_T) eq_refl Hok ltac:(simpl; lia) ltac:(lia)) as Hloop.
    simpl alloc_blocks in Hloop. rewrite (proj2 (Z.leb_le _ _)) in Hloop by lia.
    rewrite Z.gtb_ltb, (proj2 (Z.ltb_lt _ _)) in Hloop by lia. simpl in Hloop.
    destruct Hloop as (p' & Ha & Hp & _). unfold m_allocate_from_list_ptr. unfold m_allocate_from_list in Ha.
    rewrite Ha. cbn [mbind outcome_bind]. exists p'. done.
Qed.

Lemma pool_interface_gaps_witness :
  0 < 8 <= 128 /\ 160 <= 1024 < 2 ^ 62 /\ (0 < 5)%nat /\
  allocate_offset true 5 8 (pool_construct 1024) 124 = Throw bad_alloc.
Proof.
  split; [lia|]. split; [lia|]. split; [lia|].
  apply (pool_interface_gaps 8 1024 0 5 true); lia.
Defined.

(** C22 The metrics of an unlocked pool that represents a list of blocks, as
    every pool made and used through its operations does: [allocated_data_size] is the
    sum of the sizes of the live blocks, [allocated_size] counts the 32 bytes of a node for
    each of them as well; together with the free blocks, their nodes and the 128
    bytes of the header this is the size of the pool.  Both walks end after one step for
    each block, and leave the pool, its lock included, as it was. *)
Theorem pool_metrics (fuel : nat) (p : pool) (bl : list (bool * Z)) :
  ph_locked p = false -> pool_ok p bl -> (length bl < fuel)%nat ->
  let data := zsum snd (live 0 bl) in
  let total := data + 32 * zlen (live 0 bl) in
  allocated_data_size fuel p = Ok (data, p) /\ allocated_size fuel p = Ok (total, p) /\
  total + zsum (fun b : bool * Z => if b.1 then b.2 + 32 else 0) bl + 128 = ph_size p.
Proof.
  intros Hl Hok Hf data total.
  assert (pool_ok (set_locked p true) bl) as Hok' by (destruct Hok; by split).
  assert (set_locked (set_locked p true) false = p) as Hback by (destruct p; simpl in Hl; by subst).
  pose proof (po_nonempty _ _ Hok) as Hne.
  assert (offset_to_pointer (set_locked p true) (ph_list_head (set_locked p true)) = Some (extent [])) as Hhead.
  { rewrite (po_head _ _ Hok'). change (extent []) with 0. apply offset_to_pointer_in; pose proof (po_size _ _ Hok'); lia. }
  destruct (used_live bl 0) as [Hd Hx]. pose proof (po_extent _ _ Hok). pose proof (po_size _ _ Hok).
  pose proof (used_with_node bl ltac:(lia) (po_sizes _ _ Hok) 0) as Ht.
  unfold allocated_data_size, allocated_size, with_lock. rewrite Hl, Hhead. split_and!; [| |unfold total, data; lia].
  - rewrite (m_walk_ok _ (fun s => s)) with (l := []) (r := bl); [|lia|done..|unfold extent; simpl; lia].
    cbn [mbind outcome_bind]. rewrite Hback, Hd. done.
  - rewrite (m_walk_ok _ (fun s => u64 (s + node_bytes))) with (l := []) (r := bl);
      [|intros s Hs; rewrite node_bytes_eq, u64_small; lia|done..|unfold extent; simpl; lia].
    cbn [mbind outcome_bind]. rewrite Hback, Ht. done.
Qed.

(** One block of 16 bytes in use, 816 bytes free behind it. *)
Lemma pool_metrics_witness : exists p,
  allocate_at_least_offset true 5 4 (pool_construct 1024) 4 = Ok (32, 16, p) /\
  allocated_data_size 3 p = Ok (16, p) /\ allocated_size 3 p = Ok (48, p) /\ 48 + 848 + 128 = ph_size p.
Proof.
  eexists. split; [vm_compute; reflexivity|].
  match goal with |- allocated_data_size 3 ?p = _ /\ _ =>
    assert (pool_ok p [(false, 16); (true, 816)]) as Hok by (split; cbn; try done; try (unfold extent; cbn; lia); by repeat constructor);
    exact (pool_metrics 3 p [(false, 16); (true, 816)] eq_refl Hok ltac:(cbn; lia)) end.
Defined.

(** The product of the number of elements and their size wraps around: a request for
    [2 ^ 62] elements of 4 bytes gets a block without a single byte. *)
Theorem pool_request_wraps :
  exists p, allocate_at_least_offset true 5 4 (pool_construct 1024) (2 ^ 62) = Ok (32, 0, p) /\ pool_ok p [(false, 0); (true, 832)].
Proof.
  eexists. split; [vm_compute; reflexivity|]. split; cbn; try done; try (unfold extent; cbn; lia).
  - by repeat constructor.
Qed.
