(* ===== verification/FixedString.v ===== *)
(** The fixed-capacity string: [stl/fixed_size/basic_string.h].

    A string is its size and its buffer of [N + 1] characters.  Character arrays are
    lists of integers (0 is the terminator); [char_traits] copies are reads and
    writes of such arrays that have undefined behaviour outside them. *)
From S2P Require Import Prelude.

(** * Memory of characters: [std::char_traits] *)
Definition mem_read (src : list Z) (pos count : Z) : outcome (list Z) :=
  if (0 <=? pos) && (0 <=? count) && (pos + count <=? zlen src)
  then Ok (take (Z.to_nat count) (drop (Z.to_nat pos) src)) else UB.

Definition mem_write (dst : list Z) (pos : Z) (cs : list Z) : outcome (list Z) :=
  if (0 <=? pos) && (pos + zlen cs <=? zlen dst)
  then Ok (take (Z.to_nat pos) dst ++ cs ++ drop (Z.to_nat pos + length cs) dst) else UB.

(** [traits::copy] / [traits::move] within or between buffers. *)
Definition mem_copy (dst : list Z) (dpos : Z) (src : list Z) (spos count : Z) : outcome (list Z) :=
  cs ← mem_read src spos count; mem_write dst dpos cs.

(** [traits::assign(p, count, t)] *)
Definition mem_fill (dst : list Z) (pos count t : Z) : outcome (list Z) :=
  if count <=? zlen dst then mem_write dst pos (replicate (Z.to_nat count) t) else UB.

(** [traits::length] *)
Fixpoint cstr_length (s : list Z) : outcome Z :=
  match s with
  | [] => UB
  | c :: s' => if c =? 0 then Ok 0 else n ← cstr_length s'; Ok (n + 1)
  end.

(** [traits::compare] on arrays of the same length: the sign of the difference of
    the first two characters that differ. *)
Fixpoint traits_compare (a b : list Z) : Z :=
  match a, b with
  | x :: a', y :: b' => if x <? y then -1 else if y <? x then 1 else traits_compare a' b'
  | _, _ => 0
  end.

(** [traits::find(p, n, c)] in [cs]: the position of the first [c]. *)
Fixpoint traits_find (cs : list Z) (c : Z) : option Z :=
  match cs with
  | [] => None
  | x :: cs' => if x =? c then Some 0 else i ← traits_find cs' c; Some (i + 1)
  end.

Definition npos : Z := umax 64.

Section basic_string.
Variable N : Z.

(* @source include/ipcpp/stl/fixed_size/basic_string.h 531-533 basic_string *)
Record string : Type := { fs_size : Z; fs_data : list Z }.

Definition set_terminated (size : Z) (data : list Z) : outcome string :=
  d ← mem_write data size [0]; Ok {| fs_size := size; fs_data := d |}.

(** * Constructors *)

(* @source include/ipcpp/stl/fixed_size/basic_string.h 38-38 basic_string::basic_string *)
Definition fs_default : string := {| fs_size := 0; fs_data := replicate (Z.to_nat (N + 1)) 0 |}.

(* @source include/ipcpp/stl/fixed_size/basic_string.h 39-43 basic_string::basic_string(init_value) *)
Definition fs_init (init_value : Z) : outcome string :=
  d ← mem_fill (fs_data fs_default) 0 N init_value; set_terminated N d.

(* @source include/ipcpp/stl/fixed_size/basic_string.h 55-62 basic_string::basic_string(str,count) *)
Definition fs_from_ptr (str : list Z) (count : Z) : outcome string :=
  if count >? N then Throw out_of_range
  else d ← mem_copy (fs_data fs_default) 0 str 0 count; set_terminated count d.

(** A string view is the list of its characters; [assign] takes views of mutable
    characters (it passes [sv.data()] as a pointer to mutable characters). *)
(* @source include/ipcpp/stl/fixed_size/basic_string.h 65-74 basic_string::basic_string(sv) *)
Definition fs_from_view (t : list Z) : outcome string :=
  if zlen t >? N then Throw out_of_range
  else d ← mem_copy (fs_data fs_default) 0 t 0 (zlen t); set_terminated (zlen t) d.

(** The new string and what remains in the source. *)
(* @source include/ipcpp/stl/fixed_size/basic_string.h 76-79 basic_string::basic_string(basic_string&&) *)
Definition fs_move_construct (other : string) : outcome (string * string) :=
  d ← mem_copy (fs_data fs_default) 0 (fs_data other) 0 (u64 (fs_size other + 1));
  Ok ({| fs_size := fs_size other; fs_data := d |}, {| fs_size := 0; fs_data := fs_data other |}).

(* @source include/ipcpp/stl/fixed_size/basic_string.h 81-85 basic_string::basic_string(const_basic_string&) *)
Definition fs_copy_construct (other : string) : outcome string :=
  d ← mem_copy (fs_data fs_default) 0 (fs_data other) 0 (u64 (fs_size other + 1));
  set_terminated (fs_size other) d.

(** The copy is missing: the parenthesised arguments are a comma expression. *)
(* @source include/ipcpp/stl/fixed_size/basic_string.h 87-91 basic_string::basic_string(other,pos) *)
Definition fs_copy_construct_pos (other : string) (pos : Z) : outcome string :=
  set_terminated (fs_size other) (fs_data fs_default).

(* @source include/ipcpp/stl/fixed_size/basic_string.h 93-97 basic_string::basic_string(other,pos,count) *)
Definition fs_copy_construct_range (other : string) (pos count : Z) : outcome string :=
  d ← mem_copy (fs_data fs_default) 0 (fs_data other) pos (u64 (count + 1));
  set_terminated count d.

(** * operator= *)

(* @source include/ipcpp/stl/fixed_size/basic_string.h 107-114 basic_string::operator=(const_basic_string&) *)
Definition fs_copy_assign (s str : string) : outcome string :=
  d ← mem_copy (fs_data s) 0 (fs_data str) 0 (u64 (fs_size str + 1));
  Ok {| fs_size := fs_size str; fs_data := d |}.

(* @source include/ipcpp/stl/fixed_size/basic_string.h 116-123 basic_string::operator=(basic_string&&) *)
Definition fs_move_assign (s str : string) : outcome (string * string) :=
  d ← mem_copy (fs_data s) 0 (fs_data str) 0 (u64 (fs_size str + 1));
  Ok ({| fs_size := fs_size str; fs_data := d |}, {| fs_size := fs_size s; fs_data := fs_data str |}).

(* @source include/ipcpp/stl/fixed_size/basic_string.h 125-131 basic_string::operator=(cstr) *)
Definition fs_assign_cstr_op (s : string) (t : list Z) : outcome string :=
  size ← cstr_length t;
  d ← mem_copy (fs_data s) 0 t 0 size; set_terminated size d.

(* @source include/ipcpp/stl/fixed_size/basic_string.h 133-138 basic_string::operator=(value_type) *)
Definition fs_assign_char (s : string) (t : Z) : outcome string :=
  d ← mem_write (fs_data s) 0 [t];
  d ← mem_write d 1 [0];
  Ok {| fs_size := 1; fs_data := d |}.

(* @source include/ipcpp/stl/fixed_size/basic_string.h 140-149 basic_string::operator=(sv) *)
Definition fs_assign_view_op (s : string) (sv : list Z) : outcome string :=
  if zlen sv >? N then Throw out_of_range
  else d ← mem_copy (fs_data s) 0 sv 0 (zlen sv); set_terminated (zlen sv) d.

(** * assign *)

(* @source include/ipcpp/stl/fixed_size/basic_string.h 154-162 basic_string::assign(count,t) *)
Definition fs_assign_fill (s : string) (count t : Z) : outcome string :=
  if count >? N then Throw out_of_range
  else d ← mem_fill (fs_data s) 0 count t; set_terminated count d.

(* @source include/ipcpp/stl/fixed_size/basic_string.h 164-168 basic_string::assign(str) *)
Definition fs_assign_string (s str : string) : outcome string := fs_copy_assign s str.

(** The new size is the size of the source, not [count]. *)
(* @source include/ipcpp/stl/fixed_size/basic_string.h 170-182 basic_string::assign(str,pos,count) *)
Definition fs_assign_substring (s str : string) (pos count : Z) : outcome string :=
  if pos >? fs_size str then Throw out_of_range
  else if count >? u64 (fs_size str - pos) then Throw out_of_range
  else
    d ← mem_copy (fs_data s) 0 (fs_data str) pos (u64 (count + 1));
    Ok {| fs_size := fs_size str; fs_data := d |}.

(* @source include/ipcpp/stl/fixed_size/basic_string.h 184-193 basic_string::assign(t,count) *)
Definition fs_assign_ptr (s : string) (t : list Z) (count : Z) : outcome string :=
  if count >? N then Throw out_of_range
  else d ← mem_copy (fs_data s) 0 t 0 count; set_terminated count d.

(* @source include/ipcpp/stl/fixed_size/basic_string.h 195-205 basic_string::assign(t) *)
Definition fs_assign_cstr (s : string) (t : list Z) : outcome string :=
  size ← cstr_length t;
  if size >? N then Throw out_of_range
  else d ← mem_copy (fs_data s) 0 t 0 size; set_terminated size d.

(** The loop tests [current], which it never advances. *)
Fixpoint assign_range_loop (fuel : nat) (d : list Z) (i : Z) (range : list Z) : outcome (list Z) :=
  match range with
  | [] => Ok d
  | c :: _ =>
    match fuel with
    | O => UB
    | S fuel' => d' ← mem_write d i [c]; assign_range_loop fuel' d' (i + 1) range
    end
  end.

(* @source include/ipcpp/stl/fixed_size/basic_string.h 207-221 basic_string::assign(first,last) *)
Definition fs_assign_range (s : string) (range : list Z) : outcome string :=
  if zlen range >? N then Throw out_of_range
  else d ← assign_range_loop (Z.to_nat (N + 2)) (fs_data s) 0 range; set_terminated (zlen range) d.

(* @source include/ipcpp/stl/fixed_size/basic_string.h 231-235 basic_string::assign(sv) *)
Definition fs_assign_view (s : string) (sv : list Z) : outcome string := fs_assign_ptr s sv (zlen sv).

(* @source include/ipcpp/stl/fixed_size/basic_string.h 237-248 basic_string::assign(sv,pos,count) *)
Definition fs_assign_view_range (s : string) (sv : list Z) (pos count : Z) : outcome string :=
  let count := if count =? npos then u64 (zlen sv - pos) else count in
  if count >? u64 (zlen sv - pos) then Throw out_of_range
  else cs ← mem_read sv pos (Z.min count (zlen sv - pos)); fs_assign_ptr s cs count.

(** * Element access *)

(* @source include/ipcpp/stl/fixed_size/basic_string.h 253-267 basic_string::at *)
Definition fs_at (s : string) (index : Z) : outcome Z :=
  if index >? fs_size s then Throw out_of_range else must (zlookup (fs_data s) index).

(* @source include/ipcpp/stl/fixed_size/basic_string.h 269-271 basic_string::operator[] *)
Definition fs_get (s : string) (index : Z) : outcome Z := must (zlookup (fs_data s) index).

(* @source include/ipcpp/stl/fixed_size/basic_string.h 273-274 basic_string::front *)
Definition fs_front (s : string) : outcome Z := must (zlookup (fs_data s) 0).

(* @source include/ipcpp/stl/fixed_size/basic_string.h 276-277 basic_string::back *)
Definition fs_back (s : string) : outcome Z := must (zlookup (fs_data s) (u64 (fs_size s - 1))).

(* @source include/ipcpp/stl/fixed_size/basic_string.h 284-286 basic_string::operator_basic_string_view *)
Definition fs_view (s : string) : outcome (list Z) := mem_read (fs_data s) 0 (fs_size s).

(* @source include/ipcpp/stl/fixed_size/basic_string.h 292-292 basic_string::empty *)
Definition fs_empty (s : string) : bool := fs_size s =? 0.
(* @source include/ipcpp/stl/fixed_size/basic_string.h 294-299 basic_string::size *)
Definition fs_length (s : string) : Z := fs_size s.

(** * Modifiers *)

(* @source include/ipcpp/stl/fixed_size/basic_string.h 302-305 basic_string::clear *)
Definition fs_clear (s : string) : outcome string := set_terminated 0 (fs_data s).

(** Opening a gap of [count] characters at [index]. *)
Definition fs_open_gap (s : string) (index count : Z) : outcome (list Z) :=
  mem_copy (fs_data s) (index + count) (fs_data s) index (u64 (u64 (fs_size s - index) + 1)).

(* @source include/ipcpp/stl/fixed_size/basic_string.h 307-315 basic_string::insert(index,count,t) *)
Definition fs_insert_fill (s : string) (index count t : Z) : outcome string :=
  if u64 (fs_size s + count) >? N then Throw out_of_range
  else
    d ← fs_open_gap s index count;
    d ← mem_fill d index count t;
    Ok {| fs_size := u64 (fs_size s + count); fs_data := d |}.

(* @source include/ipcpp/stl/fixed_size/basic_string.h 322-330 basic_string::insert(index,s,count) *)
Definition fs_insert_ptr (s : string) (index : Z) (t : list Z) (count : Z) : outcome string :=
  if u64 (fs_size s + count) >? N then Throw out_of_range
  else
    d ← fs_open_gap s index count;
    d ← mem_copy d index t 0 count;
    Ok {| fs_size := u64 (fs_size s + count); fs_data := d |}.

(* @source include/ipcpp/stl/fixed_size/basic_string.h 317-320 basic_string::insert(index,s) *)
Definition fs_insert_cstr (s : string) (index : Z) (t : list Z) : outcome string :=
  size ← cstr_length t; fs_insert_ptr s index t size.

(* @source include/ipcpp/stl/fixed_size/basic_string.h 332-335 basic_string::insert(index,str) *)
Definition fs_insert_string (s : string) (index : Z) (str : string) : outcome string :=
  fs_insert_ptr s index (fs_data str) (fs_size str).

(** [s_index] is ignored. *)
(* @source include/ipcpp/stl/fixed_size/basic_string.h 337-345 basic_string::insert(index,str,s_index,count) *)
Definition fs_insert_substring (s : string) (index : Z) (str : string) (s_index count : Z) : outcome string :=
  if count =? npos then fs_insert_ptr s index (fs_data str) (fs_size str)
  else fs_insert_ptr s index (fs_data str) count.

(* @source include/ipcpp/stl/fixed_size/basic_string.h 348-351 basic_string::insert(index,sv) *)
Definition fs_insert_view (s : string) (index : Z) (sv : list Z) : outcome string :=
  fs_insert_ptr s index sv (zlen sv).

(* @source include/ipcpp/stl/fixed_size/basic_string.h 353-360 basic_string::insert(index,sv,sv_index,count) *)
Definition fs_insert_view_range (s : string) (index : Z) (sv : list Z) (sv_index count : Z) : outcome string :=
  cs ← mem_read sv sv_index (zlen sv - sv_index);
  fs_insert_ptr s index cs (if count =? npos then u64 (zlen sv - sv_index) else count).

(* @source include/ipcpp/stl/fixed_size/basic_string.h 364-368 basic_string::push_back *)
Definition fs_push_back (s : string) (v : Z) : outcome string :=
  d ← mem_write (fs_data s) (fs_size s) [v]; set_terminated (u64 (fs_size s + 1)) d.

(* @source include/ipcpp/stl/fixed_size/basic_string.h 370-373 basic_string::pop_back *)
Definition fs_pop_back (s : string) : outcome string := set_terminated (u64 (fs_size s - 1)) (fs_data s).

(* @source include/ipcpp/stl/fixed_size/basic_string.h 375-384 basic_string::append(count,v) *)
Definition fs_append_fill (s : string) (count v : Z) : outcome string :=
  if u64 (fs_size s + count) >? N then Throw out_of_range
  else d ← mem_fill (fs_data s) (fs_size s) count v; set_terminated (u64 (fs_size s + count)) d.

(* @source include/ipcpp/stl/fixed_size/basic_string.h 399-408 basic_string::append(s,count) *)
Definition fs_append_ptr (s : string) (t : list Z) (count : Z) : outcome string :=
  if u64 (fs_size s + count) >? N then Throw out_of_range
  else d ← mem_copy (fs_data s) (fs_size s) t 0 count; set_terminated (u64 (fs_size s + count)) d.

(* @source include/ipcpp/stl/fixed_size/basic_string.h 386-389 basic_string::append(str) *)
Definition fs_append_string (s str : string) : outcome string := fs_append_ptr s (fs_data str) (fs_size str).

(* @source include/ipcpp/stl/fixed_size/basic_string.h 390-397 basic_string::append(str,pos,count) *)
Definition fs_append_substring (s str : string) (pos count : Z) : outcome string :=
  cs ← mem_read (fs_data str) pos (zlen (fs_data str) - pos);
  fs_append_ptr s cs (if count =? npos then u64 (fs_size str - pos) else count).

(* @source include/ipcpp/stl/fixed_size/basic_string.h 410-413 basic_string::append(s) *)
Definition fs_append_cstr (s : string) (t : list Z) : outcome string :=
  size ← cstr_length t; fs_append_ptr s t size.

(* @source include/ipcpp/stl/fixed_size/basic_string.h 415-415 basic_string::append(ilist) *)
Definition fs_append_list (s : string) (ilist : list Z) : outcome string := fs_append_ptr s ilist (zlen ilist).

(* @source include/ipcpp/stl/fixed_size/basic_string.h 422-429 basic_string::append(sv,pos,count) *)
Definition fs_append_view_range (s : string) (sv : list Z) (pos count : Z) : outcome string :=
  cs ← mem_read sv pos (zlen sv - pos);
  fs_append_ptr s cs (if count =? npos then u64 (zlen sv - pos) else count).

(* @source include/ipcpp/stl/fixed_size/basic_string.h 432-444 basic_string::operator+= *)
Inductive appended : Type :=
| AppString (str : string)
| AppChar (v : Z)
| AppCstr (t : list Z)
| AppList (l : list Z).

Definition fs_append_op (s : string) (a : appended) : outcome string :=
  match a with
  | AppString str => fs_append_string s str
  | AppChar v => fs_push_back s v
  | AppCstr t => fs_append_cstr s t
  | AppList l => fs_append_list s l
  end.

(** The characters written to [dest] and the count. *)
(* @source include/ipcpp/stl/fixed_size/basic_string.h 454-458 basic_string::copy *)
Definition fs_copy (s : string) (dest : list Z) (count pos : Z) : outcome (Z * list Z) :=
  let count := if u64 (count + pos) >? fs_size s then u64 (fs_size s - pos) else count in
  d ← mem_copy dest 0 (fs_data s) pos count; Ok (count, d).

(** * Search *)

(** The loop from [first] with [len] characters left. *)
Fixpoint find_loop (fuel : nat) (s : string) (pat : list Z) (count elem0 first len : Z) : outcome Z :=
  match fuel with
  | O => UB
  | S fuel' =>
    if len >=? count then
      window ← mem_read (fs_data s) first (u64 (u64 (len - count) + 1));
      match traits_find window elem0 with
      | None => Ok npos
      | Some i =>
        here ← mem_read (fs_data s) (first + i) count;
        if traits_compare here pat =? 0 then Ok (first + i)
        else find_loop fuel' s pat count elem0 (first + i + 1) (fs_size s - (first + i + 1))
      end
    else Ok npos
  end.

(* @source include/ipcpp/stl/fixed_size/basic_string.h 466-485 basic_string::find *)
Definition fs_find (fuel : nat) (s : string) (pat : list Z) (pos count : Z) : outcome Z :=
  let size := fs_size s in
  if count =? 0 then Ok (if pos <=? size then pos else npos)
  else if pos >=? size then Ok npos
  else
    elem0 ← must (zlookup pat 0);
    p ← mem_read pat 0 count;
    find_loop fuel s p count elem0 pos (u64 (size - pos)).

(* @source include/ipcpp/stl/fixed_size/basic_string.h 461-464 basic_string::find(str,pos) *)
Definition fs_find_string (fuel : nat) (s str : string) (pos : Z) : outcome Z :=
  fs_find fuel s (fs_data str) pos (fs_size str).

(* @source include/ipcpp/stl/fixed_size/basic_string.h 487-489 basic_string::find(s,count) *)
Definition fs_find_from_start (fuel : nat) (s : string) (pat : list Z) (count : Z) : outcome Z :=
  fs_find fuel s pat 0 count.

(* @source include/ipcpp/stl/fixed_size/basic_string.h 495-498 basic_string::find(sv,pos) *)
Definition fs_find_view (fuel : nat) (s : string) (sv : list Z) (pos : Z) : outcome Z :=
  fs_find fuel s sv pos (zlen sv).

(** * Comparison *)

(* @source include/ipcpp/stl/fixed_size/basic_string.h 536-546 basic_string::S_compare *)
Definition S_compare (n1 n2 : Z) : Z :=
  let d := i64 (u64 (n1 - n2)) in
  if d >? 2 ^ 31 - 1 then 2 ^ 31 - 1
  else if d <? - 2 ^ 31 then - 2 ^ 31
  else d.

(* @source include/ipcpp/stl/fixed_size/basic_string.h 507-513 basic_string::compare *)
Definition fs_compare (s str : string) : outcome Z :=
  a ← mem_read (fs_data s) 0 (fs_size s);
  b ← mem_read (fs_data str) 0 (fs_size s);
  let r := traits_compare a b in
  Ok (if r =? 0 then S_compare (fs_size s) (fs_size str) else r).

(** [std::basic_string_view]: [substr] and [compare]. *)
Definition sv_substr (v : list Z) (pos count : Z) : outcome (list Z) :=
  if pos >? zlen v then Throw out_of_range
  else Ok (take (Z.to_nat (Z.min count (zlen v - pos))) (drop (Z.to_nat pos) v)).

Definition sv_compare (a b : list Z) : Z :=
  let r := traits_compare a b in
  if r =? 0 then (if zlen a <? zlen b then -1 else if zlen b <? zlen a then 1 else 0) else r.

(* @source include/ipcpp/stl/fixed_size/basic_string.h 515-518 basic_string::compare(pos1,count1,str) *)
Definition fs_compare_range (s : string) (pos1 count1 : Z) (str : string) : outcome Z :=
  sv ← fs_view str; v ← fs_view s; a ← sv_substr v pos1 count1; Ok (sv_compare a sv).

(* @source include/ipcpp/stl/fixed_size/basic_string.h 520-523 basic_string::compare(pos1,count1,str,pos2,count2) *)
Definition fs_compare_ranges (s : string) (pos1 count1 : Z) (str : string) (pos2 count2 : Z) : outcome Z :=
  sv ← fs_view str; v ← fs_view s; a ← sv_substr v pos1 count1; b ← sv_substr sv pos2 count2; Ok (sv_compare a b).

(* @source include/ipcpp/stl/fixed_size/basic_string.h 527-527 basic_string::substr *)
Definition fs_substr (s : string) (pos count : Z) : string := fs_default.
End basic_string.

(** * Lemmas on character memory *)
Lemma mem_read_split (a m b : list Z) pos count :
  zlen a = pos -> zlen m = count -> mem_read (a ++ m ++ b) pos count = Ok m.
Proof.
  intros <- <-. unfold mem_read. rewrite !zlen_app.
  pose proof (zlen_nonneg a). pose proof (zlen_nonneg m). pose proof (zlen_nonneg b).
  gcase; try lia. rewrite !to_nat_zlen, drop_app_length, take_app_length. done.
Qed.

Lemma mem_write_split (a m b cs : list Z) pos :
  zlen a = pos -> zlen m = zlen cs -> mem_write (a ++ m ++ b) pos cs = Ok (a ++ cs ++ b).
Proof.
  intros <- Hm. unfold mem_write. rewrite !zlen_app.
  pose proof (zlen_nonneg a). pose proof (zlen_nonneg m). pose proof (zlen_nonneg b).
  gcase; try lia. f_equal. rewrite to_nat_zlen, take_app_length. do 2 f_equal.
  replace (length a + length cs)%nat with (length (a ++ m)) by (rewrite length_app; unfold zlen in *; lia).
  by rewrite app_assoc, drop_app_length.
Qed.

Lemma mem_read_UB s pos count : ~ (0 <= pos /\ 0 <= count /\ pos + count <= zlen s) -> mem_read s pos count = UB.
Proof. unfold mem_read. gcase; try done; lia. Qed.

Lemma mem_write_UB d pos cs : ~ (0 <= pos /\ pos + zlen cs <= zlen d) -> mem_write d pos cs = UB.
Proof. unfold mem_write. gcase; try done; lia. Qed.

(** An array with room for [n] characters splits after [n]. *)
Lemma split_at (d : list Z) n : 0 <= n <= zlen d -> exists m b, d = m ++ b /\ zlen m = n /\ zlen b = zlen d - n.
Proof.
  intros H. exists (take (Z.to_nat n) d), (drop (Z.to_nat n) d).
  unfold zlen in *. rewrite take_drop, length_take, length_drop. split; [done|lia].
Qed.

Lemma split_at_take (d : list Z) n : 0 <= n <= zlen d ->
  exists b, d = take (Z.to_nat n) d ++ b /\ zlen (take (Z.to_nat n) d) = n /\ zlen b = zlen d - n.
Proof.
  intros H. exists (drop (Z.to_nat n) d).
  unfold zlen in *. rewrite take_drop, length_take, length_drop. split; [done|lia].
Qed.

(** A C string is a terminated array. *)
Lemma cstr_length_ok cs rest : Forall (fun c => c <> 0) cs -> cstr_length (cs ++ 0 :: rest) = Ok (zlen cs).
Proof.
  induction 1 as [|c cs Hc _ IH]; [done|]. simpl. destruct (Z.eqb_spec c 0); [done|].
  rewrite IH, zlen_cons. done.
Qed.

(** * The abstraction: a string of capacity [N] holds a list *)
Definition holds (N : Z) (s : string) (cs : list Z) : Prop :=
  fs_size s = zlen cs /\ zlen (fs_data s) = N + 1 /\ exists rest, fs_data s = cs ++ 0 :: rest.

(** The specification of the checked operations: the list, or [out_of_range]. *)
Definition bounded (N : Z) (cs : list Z) : outcome (list Z) :=
  if zlen cs >? N then Throw out_of_range else Ok cs.

(** The specification of the operations that compare the capacity with the old size plus
    [count], a sum that wraps around from [2 ^ 64] on and then passes for a small one. *)
Definition grown (N : Z) (cs : list Z) (count : Z) (result : list Z) : outcome (list Z) :=
  if zlen cs + count <=? N then Ok result
  else if zlen cs + count <? 2 ^ 64 then Throw out_of_range else UB.

Definition implements (N : Z) (op : outcome string) (spec : outcome (list Z)) : Prop :=
  match spec with
  | Ok cs => exists s, op = Ok s /\ holds N s cs
  | Throw e => op = Throw e
  | UB => op = UB
  end.

Lemma holds_bound N s cs : holds N s cs -> zlen cs <= N.
Proof.
  intros (_ & Hd & rest & Hr). rewrite Hr, zlen_app, zlen_cons in Hd. pose proof (zlen_nonneg rest). lia.
Qed.

Lemma set_terminated_holds N cs d rest :
  d = cs ++ rest -> zlen d = N + 1 -> zlen cs <= N ->
  exists s, set_terminated (zlen cs) d = Ok s /\ holds N s cs.
Proof.
  intros -> Hd Hc. rewrite zlen_app in Hd. destruct rest as [|r rest]; [unfold zlen at 2 in Hd; simpl in Hd; lia|].
  unfold set_terminated. change (r :: rest) with ([r] ++ rest). rewrite (mem_write_split cs [r] rest [0]) by done.
  cbn [mbind outcome_bind]. eexists; split; [done|]. unfold holds; cbn [fs_size fs_data].
  split; [done|]. split; [|by exists rest]. rewrite !zlen_app in *. rewrite zlen_cons in Hd. change (zlen [0]) with 1. lia.
Qed.

(** Writing the first characters of the buffer and the terminator after them. *)
Lemma write_terminated_holds N d cs :
  zlen d = N + 1 -> zlen cs <= N ->
  exists d' s, mem_write d 0 cs = Ok d' /\ set_terminated (zlen cs) d' = Ok s /\ holds N s cs.
Proof.
  intros Hd Hc. pose proof (zlen_nonneg cs). destruct (split_at d (zlen cs)) as (m & b & -> & Hm & Hb); [lia|].
  exists (cs ++ b). destruct (set_terminated_holds N cs (cs ++ b) b) as (s & Hs & Hh); [done| |done|].
  { rewrite zlen_app in *. lia. }
  exists s. split; [|done]. apply (mem_write_split [] m b cs 0); done.
Qed.

(** Writing [t] at the end of the contents. *)
Lemma append_terminated_holds N s cs t :
  holds N s cs -> zlen cs + zlen t <= N ->
  exists d' s', mem_write (fs_data s) (zlen cs) t = Ok d' /\ set_terminated (zlen cs + zlen t) d' = Ok s' /\ holds N s' (cs ++ t).
Proof.
  intros (Hsz & Hd & rest & Hr) Hle. pose proof (zlen_nonneg t).
  rewrite Hr, zlen_app in Hd. destruct (split_at (0 :: rest) (zlen t)) as (m & b & Hmb & Hm & Hb); [lia|].
  rewrite Hr, Hmb. exists (cs ++ t ++ b). rewrite <- zlen_app.
  destruct (set_terminated_holds N (cs ++ t) (cs ++ t ++ b) b) as (s' & Hs' & Hh);
    [by rewrite app_assoc| |rewrite zlen_app; lia|].
  { rewrite !zlen_app in *. lia. }
  exists s'. split; [|done]. by apply mem_write_split.
Qed.

(** Reading the contents with the terminator, and writing both. *)
Lemma read_all N s cs : holds N s cs -> zlen cs < 2 ^ 63 -> mem_read (fs_data s) 0 (u64 (fs_size s + 1)) = Ok (cs ++ [0]).
Proof.
  intros (Hsz & Hd & rest & Hr) Hlt. rewrite Hr, Hsz, u64_small by (pose proof (zlen_nonneg cs); lia).
  replace (cs ++ 0 :: rest) with ([] ++ (cs ++ [0]) ++ rest) by (rewrite <- app_assoc; done).
  apply mem_read_split; [done|]. by rewrite zlen_app.
Qed.

Lemma write_all N d cs :
  zlen d = N + 1 -> zlen cs <= N ->
  exists d', mem_write d 0 (cs ++ [0]) = Ok d' /\ zlen d' = N + 1 /\ exists rest, d' = cs ++ 0 :: rest.
Proof.
  intros Hd Hc. assert (zlen (cs ++ [0]) = zlen cs + 1) as Hz by (rewrite zlen_app; done).
  pose proof (zlen_nonneg cs). destruct (split_at d (zlen cs + 1)) as (m & b & -> & Hm & Hb); [lia|].
  exists ((cs ++ [0]) ++ b). split; [apply (mem_write_split [] m b (cs ++ [0]) 0); [done|lia]|].
  rewrite zlen_app in Hd. split; [rewrite zlen_app; lia|]. exists b. by rewrite <- app_assoc.
Qed.

(** The gap of an insertion. *)
Lemma open_gap_holds N s a b count :
  holds N s (a ++ b) -> 0 <= count -> zlen (a ++ b) + count <= N -> N < 2 ^ 63 ->
  exists m rest, zlen m = count /\ fs_open_gap s (zlen a) count = Ok (a ++ m ++ b ++ 0 :: rest) /\
    zlen (a ++ m ++ b ++ 0 :: rest) = N + 1.
Proof.
  intros (Hsz & Hd & rest & Hr) Hc Hle HN. rewrite zlen_app in *.
  pose proof (zlen_nonneg a). pose proof (zlen_nonneg b). pose proof (zlen_nonneg rest).
  rewrite Hr in Hd. rewrite !zlen_app, zlen_cons in Hd.
  assert (u64 (u64 (fs_size s - zlen a) + 1) = zlen b + 1) as Hn.
  { rewrite Hsz. rewrite (u64_small (zlen a + zlen b - zlen a)) by lia. rewrite u64_small by lia. lia. }
  unfold fs_open_gap, mem_copy. rewrite Hn, Hr.
  replace ((a ++ b) ++ 0 :: rest) with (a ++ (b ++ [0]) ++ rest) by (rewrite <- !app_assoc; done).
  rewrite (mem_read_split a (b ++ [0]) rest) by (try done; rewrite zlen_app; done).
  cbn [mbind outcome_bind].
  destruct (split_at ((b ++ [0]) ++ rest) count) as (m & q & Hq & Hm & Hql).
  { rewrite !zlen_app. change (zlen [0]) with 1. lia. }
  rewrite !zlen_app in Hql. change (zlen [0]) with 1 in Hql.
  destruct (split_at q (zlen b + 1)) as (w & e & -> & Hw & He); [lia|].
  rewrite Hq. exists m, e. split; [done|].
  replace (a ++ m ++ w ++ e) with ((a ++ m) ++ w ++ e) by (rewrite <- app_assoc; done).
  rewrite (mem_write_split (a ++ m) w e (b ++ [0])) by (rewrite ?zlen_app; change (zlen [0]) with 1; lia).
  split; [f_equal; rewrite <- !app_assoc; done|]. rewrite !zlen_app, zlen_cons. lia.
Qed.

Section operations.
Variable N : Z.
Hypothesis HN : 0 <= N < 2 ^ 63.

Lemma default_holds : holds N (fs_default N) [].
Proof.
  unfold holds, fs_default; cbn [fs_size fs_data]. split; [done|]. split; [by rewrite zlen_replicate by lia|].
  exists (replicate (Z.to_nat N) 0). replace (Z.to_nat (N + 1)) with (S (Z.to_nat N)) by lia. done.
Qed.

Lemma default_data : zlen (fs_data (fs_default N)) = N + 1.
Proof. apply default_holds. Qed.

(** Every operation that copies [t] over the buffer and terminates it. *)
Lemma copy_over d t rest n :
  zlen d = N + 1 -> zlen t <= N -> n = zlen t ->
  exists s, (d' ← mem_copy d 0 (t ++ rest) 0 n; set_terminated n d') = Ok s /\ holds N s t.
Proof.
  intros Hd Ht ->. unfold mem_copy. rewrite (mem_read_split [] t rest) by done. cbn [mbind outcome_bind].
  destruct (write_terminated_holds N d t) as (d' & s & Hw & Hs & Hh); [done..|].
  rewrite Hw. cbn [mbind outcome_bind]. by exists s.
Qed.

Lemma from_ptr_ok t rest : implements N (fs_from_ptr N (t ++ rest) (zlen t)) (bounded N t).
Proof.
  unfold fs_from_ptr, bounded. gcase; [done|]. apply copy_over; [apply default_data|done..].
Qed.

Lemma from_view_ok t : implements N (fs_from_view N t) (bounded N t).
Proof.
  unfold fs_from_view, bounded. gcase; [done|].
  pose proof (copy_over (fs_data (fs_default N)) t [] _ default_data ltac:(done) eq_refl) as Hc.
  by rewrite app_nil_r in Hc.
Qed.

Lemma assign_ptr_ok s cs t rest : holds N s cs -> implements N (fs_assign_ptr N s (t ++ rest) (zlen t)) (bounded N t).
Proof.
  intros (_ & Hd & _). unfold fs_assign_ptr, bounded. gcase; [done|]. by apply copy_over.
Qed.

Lemma assign_view_op_ok s cs t : holds N s cs -> implements N (fs_assign_view_op N s t) (bounded N t).
Proof.
  intros (_ & Hd & _). unfold fs_assign_view_op, bounded. gcase; [done|].
  pose proof (copy_over (fs_data s) t [] _ Hd ltac:(done) eq_refl) as Hc. by rewrite app_nil_r in Hc.
Qed.

Lemma assign_cstr_ok s cs t rest :
  holds N s cs -> Forall (fun c => c <> 0) t -> implements N (fs_assign_cstr N s (t ++ 0 :: rest)) (bounded N t).
Proof.
  intros (_ & Hd & _) Ht. unfold fs_assign_cstr, bounded. rewrite cstr_length_ok by done. cbn [mbind outcome_bind].
  gcase; [done|]. by apply copy_over.
Qed.

(** Assigning a C string does not look at its length: a longer one is written past the end. *)
Lemma assign_cstr_op_ok s cs t rest : holds N s cs -> Forall (fun c => c <> 0) t ->
  implements N (fs_assign_cstr_op s (t ++ 0 :: rest)) (if zlen t <=? N then Ok t else UB).
Proof.
  intros (_ & Hd & _) Ht. unfold fs_assign_cstr_op. rewrite cstr_length_ok by done. cbn [mbind outcome_bind].
  destruct (Z.leb_spec (zlen t) N) as [Hle|Hgt].
  - by apply copy_over.
  - pose proof (zlen_nonneg t). unfold implements, mem_copy. pose proof (mem_read_split [] t (0 :: rest) 0 (zlen t) eq_refl eq_refl) as Hr.
    cbn [app] in Hr. rewrite Hr. cbn [mbind outcome_bind].
    destruct (Z.eqb_spec (zlen t) (N + 1)) as [Heq|Hne]; [|by rewrite mem_write_UB by lia].
    pose proof (mem_write_split [] (fs_data s) [] t 0 eq_refl ltac:(lia)) as Hw. rewrite app_nil_r in Hw. cbn [app] in Hw.
    rewrite Hw, app_nil_r. cbn [mbind outcome_bind]. unfold set_terminated. rewrite mem_write_UB; [done|]. change (zlen [0]) with 1. lia.
Qed.

Lemma assign_char_ok s cs v : holds N s cs -> implements N (fs_assign_char s v) (if 1 <=? N then Ok [v] else UB).
Proof.
  intros (_ & Hd & _). unfold fs_assign_char. destruct (Z.leb_spec 1 N) as [Hle|Hgt].
  - destruct (fs_data s) as [|x [|y d]] eqn:Hf; [rewrite zlen_nil in Hd; lia|rewrite zlen_cons, zlen_nil in Hd; lia|].
    change (x :: y :: d) with ([] ++ [x] ++ y :: d). rewrite (mem_write_split [] [x] (y :: d) [v] 0) by done.
    cbn [app mbind outcome_bind]. change (v :: y :: d) with ([v] ++ [y] ++ d). rewrite (mem_write_split [v] [y] d [0] 1) by done. cbn [mbind outcome_bind]. eexists. split; [done|].
    split; [done|]. split; [|by exists d]. cbn [fs_data app]. by rewrite !zlen_cons in *.
  - destruct (fs_data s) as [|x [|y d]]; [rewrite zlen_nil in Hd; lia|done|]. rewrite !zlen_cons in Hd. pose proof (zlen_nonneg d). lia.
Qed.

Lemma fill_over d count t :
  zlen d = N + 1 -> 0 <= count <= N ->
  exists s, (d' ← mem_fill d 0 count t; set_terminated count d') = Ok s /\ holds N s (replicate (Z.to_nat count) t).
Proof.
  intros Hd Hc. unfold mem_fill. gcase; [|lia].
  destruct (write_terminated_holds N d (replicate (Z.to_nat count) t)) as (d' & s & Hw & Hs & Hh);
    [done|rewrite zlen_replicate; lia|].
  rewrite Hw. cbn [mbind outcome_bind]. rewrite zlen_replicate in Hs by lia. by exists s.
Qed.

Lemma assign_fill_ok s cs count t : holds N s cs -> 0 <= count ->
  implements N (fs_assign_fill N s count t) (if count >? N then Throw out_of_range else Ok (replicate (Z.to_nat count) t)).
Proof.
  intros (_ & Hd & _) Hc. unfold fs_assign_fill. gcase; [done|]. by apply fill_over.
Qed.

Lemma copy_into d str t : zlen d = N + 1 -> holds N str t ->
  exists d', mem_copy d 0 (fs_data str) 0 (u64 (fs_size str + 1)) = Ok d' /\ holds N {| fs_size := fs_size str; fs_data := d' |} t.
Proof.
  intros Hd Ht. pose proof (holds_bound _ _ _ Ht). unfold mem_copy. rewrite (read_all N str t) by (done || lia).
  cbn [mbind outcome_bind]. destruct (write_all N d t) as (d' & Hw & Hd' & Hr); [done..|].
  exists d'. split; [done|]. destruct Ht as (Hsz & _). done.
Qed.

Lemma copy_assign_ok s cs str t : holds N s cs -> holds N str t -> implements N (fs_copy_assign s str) (Ok t).
Proof.
  intros (_ & Hd & _) Ht. unfold fs_copy_assign. destruct (copy_into _ _ _ Hd Ht) as (d' & -> & Hh).
  cbn [mbind outcome_bind]. by eexists.
Qed.

Lemma copy_construct_ok str t : holds N str t -> implements N (fs_copy_construct N str) (Ok t).
Proof.
  intros Ht. unfold fs_copy_construct. destruct (copy_into _ _ _ default_data Ht) as (d' & -> & Hsz & Hd & rest & Hr).
  cbn [mbind outcome_bind fs_size fs_data] in *. rewrite Hsz. apply (set_terminated_holds N t d' (0 :: rest)); [done..|].
  by eapply holds_bound.
Qed.

Lemma append_ptr_ok s cs t rest :
  holds N s cs -> zlen t < 2 ^ 63 -> implements N (fs_append_ptr N s (t ++ rest) (zlen t)) (bounded N (cs ++ t)).
Proof.
  intros Hh Ht. pose proof (holds_bound _ _ _ Hh). pose proof (zlen_nonneg t). pose proof (zlen_nonneg cs).
  unfold fs_append_ptr, bounded. rewrite zlen_app. pose proof (proj1 Hh) as ->. rewrite u64_small by lia.
  gcase; [done|]. unfold mem_copy. rewrite (mem_read_split [] t rest) by done. cbn [mbind outcome_bind].
  destruct (append_terminated_holds N s cs t) as (d' & s' & Hw & Hs & Hh'); [done..|].
  rewrite Hw. cbn [mbind outcome_bind]. by exists s'.
Qed.

Lemma append_list_ok s cs t : holds N s cs -> zlen t < 2 ^ 63 -> implements N (fs_append_list N s t) (bounded N (cs ++ t)).
Proof.
  intros Hh Ht. pose proof (append_ptr_ok s cs t [] Hh Ht) as Ha. by rewrite app_nil_r in Ha.
Qed.

Lemma append_string_ok s cs str t : holds N s cs -> holds N str t -> implements N (fs_append_string N s str) (bounded N (cs ++ t)).
Proof.
  intros Hs Ht. pose proof (holds_bound _ _ _ Ht). unfold fs_append_string. destruct Ht as (-> & _ & rest & ->).
  apply append_ptr_ok; [done|lia].
Qed.

Lemma append_cstr_ok s cs t rest :
  holds N s cs -> Forall (fun c => c <> 0) t -> zlen t < 2 ^ 63 ->
  implements N (fs_append_cstr N s (t ++ 0 :: rest)) (bounded N (cs ++ t)).
Proof.
  intros. unfold fs_append_cstr. rewrite cstr_length_ok by done. cbn [mbind outcome_bind]. by apply append_ptr_ok.
Qed.

(** The sum of a size and a count that is too large. *)
Lemma u64_wrapped size count : 0 <= size < 2 ^ 63 -> 0 <= count < 2 ^ 64 -> 2 ^ 64 <= size + count -> u64 (size + count) = size + count - 2 ^ 64.
Proof. intros Hs Hc Hle. unfold u64, wrap. rewrite <- (Z.mod_add _ (-1)) by lia. rewrite Z.mod_small; lia. Qed.

Lemma append_fill_ok s cs count v : holds N s cs -> 0 <= count < 2 ^ 64 ->
  implements N (fs_append_fill N s count v) (grown N cs count (cs ++ replicate (Z.to_nat count) v)).
Proof.
  intros Hh Hc. pose proof (holds_bound _ _ _ Hh). pose proof (zlen_nonneg cs). pose proof (proj1 (proj2 Hh)) as Hd.
  unfold fs_append_fill, grown. pose proof (proj1 Hh) as ->. destruct (Z.leb_spec (zlen cs + count) N) as [Hle|Hgt].
  2: { destruct (Z.ltb_spec (zlen cs + count) (2 ^ 64)); [rewrite u64_small by lia; gcase; [done|lia]|].
       rewrite u64_wrapped by lia. gcase; [lia|]. unfold mem_fill. gcase; [lia|done]. }
  rewrite u64_small by lia. gcase; [lia|]. unfold mem_fill. gcase; [|lia].
  destruct (append_terminated_holds N s cs (replicate (Z.to_nat count) v)) as (d' & s' & Hw & Hs & Hh');
    [done|rewrite zlen_replicate; lia|].
  rewrite Hw. cbn [mbind outcome_bind]. rewrite zlen_replicate in Hs by lia. by exists s'.
Qed.

Lemma fs_push_back_ok s cs v : holds N s cs -> zlen cs < N -> implements N (fs_push_back s v) (Ok (cs ++ [v])).
Proof.
  intros Hh Hlt. unfold fs_push_back. pose proof (zlen_nonneg cs). pose proof (proj1 Hh) as ->.
  rewrite u64_small by lia. destruct (append_terminated_holds N s cs [v]) as (d' & s' & Hw & Hs & Hh'); [done| |].
  { change (zlen [v]) with 1. lia. }
  rewrite Hw. cbn [mbind outcome_bind]. by exists s'.
Qed.

Lemma push_back_full s cs v : holds N s cs -> zlen cs = N -> fs_push_back s v = UB.
Proof.
  intros Hh Hlt. unfold fs_push_back. pose proof (zlen_nonneg cs). destruct Hh as (-> & Hd & rest & Hr).
  rewrite u64_small by lia. rewrite Hr in Hd |- *. rewrite zlen_app, zlen_cons in Hd.
  change (0 :: rest) with ([0] ++ rest). rewrite (mem_write_split cs [0] rest [v]) by done.
  cbn [mbind outcome_bind]. unfold set_terminated. rewrite mem_write_UB; [done|].
  rewrite !zlen_app. change (zlen [v]) with 1. change (zlen [0]) with 1. lia.
Qed.

Lemma pop_back_ok s cs v : holds N s (cs ++ [v]) -> implements N (fs_pop_back s) (Ok cs).
Proof.
  intros Hh. pose proof (holds_bound _ _ _ Hh) as Hb. destruct Hh as (Hs & Hd & rest & Hr). unfold fs_pop_back.
  rewrite zlen_app in *. change (zlen [v]) with 1 in *. pose proof (zlen_nonneg cs).
  rewrite Hs, u64_small by lia. replace (zlen cs + 1 - 1) with (zlen cs) by lia.
  apply (set_terminated_holds N cs _ (v :: 0 :: rest)); [by rewrite Hr, <- app_assoc|done|lia].
Qed.

Lemma clear_ok s cs : holds N s cs -> implements N (fs_clear s) (Ok []).
Proof.
  intros (_ & Hd & _). apply (set_terminated_holds N [] (fs_data s) (fs_data s)); [done..|]. rewrite zlen_nil. lia.
Qed.

Lemma insert_ptr_ok s a b t rest :
  holds N s (a ++ b) -> zlen t < 2 ^ 63 ->
  implements N (fs_insert_ptr N s (zlen a) (t ++ rest) (zlen t)) (bounded N (a ++ t ++ b)).
Proof.
  intros Hh Ht. pose proof (holds_bound _ _ _ Hh) as Hb. pose proof (zlen_nonneg t). pose proof (zlen_nonneg a).
  pose proof (zlen_nonneg b). unfold fs_insert_ptr, bounded. pose proof (proj1 Hh) as ->. rewrite !zlen_app in *.
  rewrite u64_small by lia. replace (zlen a + (zlen t + zlen b)) with (zlen a + zlen b + zlen t) by lia. gcase; [done|].
  destruct (open_gap_holds N s a b (zlen t)) as (m & e & Hm & -> & Hz); [done|lia|rewrite zlen_app; lia|lia|].
  cbn [mbind outcome_bind]. unfold mem_copy. rewrite (mem_read_split [] t rest) by done. cbn [mbind outcome_bind].
  rewrite (mem_write_split a m (b ++ 0 :: e) t) by done. cbn [mbind outcome_bind].
  eexists; split; [done|]. unfold holds; cbn [fs_size fs_data]. rewrite !zlen_app in *. rewrite !zlen_cons in *.
  split; [lia|]. split; [lia|]. exists e. rewrite <- !app_assoc. done.
Qed.

Lemma insert_fill_ok s a b count v :
  holds N s (a ++ b) -> 0 <= count < 2 ^ 64 ->
  implements N (fs_insert_fill N s (zlen a) count v) (grown N (a ++ b) count (a ++ replicate (Z.to_nat count) v ++ b)).
Proof.
  intros Hh Ht. pose proof (holds_bound _ _ _ Hh) as Hb. pose proof (zlen_nonneg a).
  pose proof (zlen_nonneg b). unfold fs_insert_fill, grown. pose proof (proj1 Hh) as Hsz. rewrite !zlen_app in *. rewrite Hsz.
  destruct (Z.leb_spec (zlen a + zlen b + count) N) as [Hle|Hgt].
  2: { destruct (Z.ltb_spec (zlen a + zlen b + count) (2 ^ 64)); [rewrite u64_small by lia; gcase; [done|lia]|].
       rewrite u64_wrapped by lia. gcase; [lia|]. unfold fs_open_gap, mem_copy, mem_read. case_match; [|done].
       cbn [mbind outcome_bind]. rewrite mem_write_UB; [done|]. rewrite (proj1 (proj2 Hh)).
       match goal with |- context [zlen (take ?n ?l)] => pose proof (zlen_nonneg (take n l)) end. lia. }
  rewrite u64_small by lia. gcase; [lia|].
  destruct (open_gap_holds N s a b count) as (m & e & Hm & -> & Hz); [done|lia|rewrite zlen_app; lia|lia|].
  cbn [mbind outcome_bind]. unfold mem_fill. rewrite Hz. gcase; [|lia].
  rewrite (mem_write_split a m (b ++ 0 :: e)) by (try done; rewrite zlen_replicate; lia). cbn [mbind outcome_bind].
  eexists; split; [done|]. unfold holds; cbn [fs_size fs_data]. rewrite !zlen_app in *. rewrite !zlen_cons in *.
  rewrite zlen_replicate by lia.
  split; [lia|]. split; [lia|]. exists e. rewrite <- !app_assoc. done.
Qed.

Lemma at_ok s cs i : holds N s cs -> 0 <= i ->
  fs_at s i = if i <? zlen cs then must (zlookup cs i) else if i =? zlen cs then Ok 0 else Throw out_of_range.
Proof.
  intros (Hs & _ & rest & Hr) Hi. unfold fs_at. rewrite Hs, Hr. unfold zlookup. gcase; try done; try lia.
  - subst i. rewrite to_nat_zlen, list_lookup_middle by done. done.
  - rewrite lookup_app_l by (unfold zlen in *; lia). done.
Qed.

Lemma view_ok s cs : holds N s cs -> fs_view s = Ok cs.
Proof. intros (Hs & _ & rest & Hr). unfold fs_view. rewrite Hs, Hr. by apply (mem_read_split []). Qed.
End operations.

(** * Search *)

(** [pat] occurs in [cs] at position [i]. *)
Definition occurs (cs pat : list Z) (i : Z) : Prop := exists a b, cs = a ++ pat ++ b /\ zlen a = i.

Lemma occurs_bound cs pat i : occurs cs pat i -> 0 <= i /\ i + zlen pat <= zlen cs.
Proof.
  intros (a & b & -> & <-). rewrite !zlen_app. pose proof (zlen_nonneg a). pose proof (zlen_nonneg b). lia.
Qed.

Lemma occurs_head cs c p i : occurs cs (c :: p) i -> cs !! Z.to_nat i = Some c.
Proof. intros (a & b & -> & <-). cbn [app]. by rewrite to_nat_zlen, list_lookup_middle. Qed.

Lemma split_three (cs : list Z) i n : 0 <= i -> 0 <= n -> i + n <= zlen cs ->
  exists a m b, cs = a ++ m ++ b /\ zlen a = i /\ zlen m = n.
Proof.
  intros Hi Hn Hle. destruct (split_at cs i) as (a & q & -> & Ha & Hq); [lia|]. rewrite zlen_app in *.
  destruct (split_at q n) as (m & b & -> & Hm & Hb); [lia|]. by exists a, m, b.
Qed.

Lemma app_inj_zlen (a b a' b' : list Z) : zlen a = zlen a' -> a ++ b = a' ++ b' -> a = a' /\ b = b'.
Proof. unfold zlen. intros H. apply app_inj_1. lia. Qed.

Lemma traits_find_Some l c i : traits_find l c = Some i ->
  0 <= i < zlen l /\ l !! Z.to_nat i = Some c /\ forall j, 0 <= j < i -> l !! Z.to_nat j <> Some c.
Proof.
  revert i. induction l as [|x l IH]; intros i; [done|]. cbn [traits_find]. rewrite zlen_cons.
  pose proof (zlen_nonneg l). destruct (Z.eqb_spec x c) as [->|Hne].
  - intros [= <-]. split; [lia|]. split; [done|]. intros j Hj. lia.
  - destruct (traits_find l c) as [k|] eqn:E; [|done]. cbn [mbind option_bind]. intros [= <-].
    destruct (IH k eq_refl) as (Hk & Hl & Hb). split; [lia|]. split.
    + replace (Z.to_nat (k + 1)) with (S (Z.to_nat k)) by lia. done.
    + intros j Hj. destruct (decide (j = 0)) as [->|]; [simpl; congruence|].
      replace (Z.to_nat j) with (S (Z.to_nat (j - 1))) by lia. apply Hb. lia.
Qed.

Lemma traits_find_None l c : traits_find l c = None -> forall j, l !! j <> Some c.
Proof.
  induction l as [|x l IH]; intros H j; [done|]. simpl in H.
  destruct (Z.eqb_spec x c); [done|]. destruct (traits_find l c); [done|].
  destruct j; simpl; [congruence|]. by apply IH.
Qed.

Lemma traits_compare_refl a : traits_compare a a = 0.
Proof. induction a as [|x a IH]; [done|]. cbn [traits_compare]. gcase; (lia || done). Qed.

Lemma traits_compare_zero a b : zlen a = zlen b -> traits_compare a b = 0 -> a = b.
Proof.
  revert b. induction a as [|x a IH]; intros [|y b]; rewrite ?zlen_cons, ?zlen_nil; intros Hl.
  - done.
  - pose proof (zlen_nonneg b). lia.
  - pose proof (zlen_nonneg a). lia.
  - cbn [traits_compare]. gcase; try (intros; lia). intros Hc. f_equal; [lia|]. apply IH; [lia|done].
Qed.

(** What a search from [pos] returns: the first occurrence, or [npos]. *)
Definition first_occurrence (cs pat : list Z) (pos r : Z) : Prop :=
  (r = npos /\ forall i, pos <= i -> ~ occurs cs pat i) \/
  (pos <= r /\ occurs cs pat r /\ forall i, pos <= i < r -> ~ occurs cs pat i).

Section find.
Variables (N : Z) (s : string) (cs pat rest : list Z) (c : Z) (p : list Z).
Hypothesis HN : 0 <= N < 2 ^ 63.
Hypothesis Hs : holds N s cs.
Hypothesis Hpat : pat = c :: p.

Lemma find_loop_correct fuel pos first len :
  first + len = zlen cs -> 0 <= pos <= first -> 0 <= len -> (Z.to_nat len < fuel)%nat ->
  (forall i, pos <= i < first -> ~ occurs cs pat i) ->
  exists r, find_loop fuel s pat (zlen pat) c first len = Ok r /\ first_occurrence cs pat pos r.
Proof.
  pose proof (holds_bound _ _ _ Hs) as Hb. pose proof (zlen_nonneg p).
  assert (1 <= zlen pat) as Hp1 by (rewrite Hpat, zlen_cons; lia).
  revert first len. induction fuel as [|fuel IH]; intros first len Hfl Hpf Hl Hf Hno; [lia|].
  cbn [find_loop]. rewrite Z.geb_leb. destruct (Z.leb_spec (zlen pat) len) as [Hge|Hlt].
  2:{ exists npos. split; [done|]. left. split; [done|]. intros i Hi Ho.
      destruct (decide (i < first)); [apply (Hno i); [lia|done]|].
      apply occurs_bound in Ho. lia. }
  pose proof Hs as (Hsz & _ & tl & Hd).
  rewrite (u64_small (len - zlen pat)), u64_small by lia. rewrite Hd.
  destruct (split_three cs first (len - zlen pat + 1)) as (a & w & b & Hcs & Ha & Hw); [lia..|].
  assert (mem_read (cs ++ 0 :: tl) first (len - zlen pat + 1) = Ok w) as Hread.
  { rewrite Hcs, <- !app_assoc. by apply mem_read_split. }
  rewrite Hread. cbn [mbind outcome_bind].
  assert (forall j, 0 <= j < zlen w -> cs !! Z.to_nat (first + j) = w !! Z.to_nat j) as Hwl.
  { intros j Hj. rewrite Hcs, lookup_app_r by (unfold zlen in *; lia).
    rewrite lookup_app_l by (unfold zlen in *; lia). f_equal. unfold zlen in *; lia. }
  assert (forall j, 0 <= j -> w !! Z.to_nat j <> Some c -> ~ occurs cs pat (first + j)) as Hskip.
  { intros j Hj Hne Ho. pose proof (occurs_bound _ _ _ Ho). rewrite Hpat in Ho.
    apply occurs_head in Ho. rewrite Hwl in Ho by lia. done. }
  destruct (traits_find w c) as [k|] eqn:E.
  - destruct (traits_find_Some _ _ _ E) as (Hk & Hwk & Hbefore).
    destruct (split_three cs (first + k) (zlen pat)) as (a' & h & b' & Hcs' & Ha' & Hh); [lia..|].
    assert (mem_read (cs ++ 0 :: tl) (first + k) (zlen pat) = Ok h) as Hread'.
    { rewrite Hcs', <- !app_assoc. by apply mem_read_split. }
    rewrite Hread'. cbn [mbind outcome_bind].
    assert (forall i, pos <= i < first + k -> ~ occurs cs pat i) as Hno'.
    { intros i Hi. destruct (decide (i < first)); [apply Hno; lia|].
      replace i with (first + (i - first)) by lia. apply Hskip; [lia|]. apply Hbefore. lia. }
    destruct (Z.eqb_spec (traits_compare h pat) 0) as [Heq|Hneq].
    + exists (first + k). split; [done|]. right. apply traits_compare_zero in Heq; [|done]. subst h.
      split; [lia|]. split; [by exists a', b'|done].
    + rewrite Hsz. apply IH; try lia. intros i Hi. destruct (decide (i = first + k)) as [->|]; [|apply Hno'; lia].
      intros (a2 & b2 & Hcs2 & Ha2). apply Hneq. rewrite Hcs2 in Hcs'.
      apply app_inj_zlen in Hcs' as [_ Hcs'2]; [|lia]. apply app_inj_zlen in Hcs'2 as [-> _]; [|lia].
      apply traits_compare_refl.
  - exists npos. split; [done|]. left. split; [done|]. intros i Hi.
    destruct (decide (i < first)); [apply Hno; lia|].
    replace i with (first + (i - first)) by lia. apply Hskip; [lia|]. by apply traits_find_None.
Qed.
End find.

Lemma find_correct N fuel s cs pat rest pos :
  0 <= N < 2 ^ 63 -> holds N s cs -> 0 <= pos -> (Z.to_nat N < fuel)%nat ->
  exists r, fs_find fuel s (pat ++ rest) pos (zlen pat) = Ok r /\ first_occurrence cs pat pos r.
Proof.
  intros HN Hs Hpos Hfuel. pose proof (holds_bound _ _ _ Hs). pose proof (proj1 Hs) as Hsz.
  unfold fs_find. rewrite Hsz. destruct pat as [|c p].
  - cbn [app]. rewrite zlen_nil. cbn [Z.eqb]. eexists; split; [done|]. destruct (Z.leb_spec pos (zlen cs)).
    + right. split; [lia|]. split; [|intros; lia].
      destruct (split_at cs pos) as (a & b & -> & Ha & _); [lia|]. by exists a, b.
    + left. split; [done|]. intros i Hi Ho. apply occurs_bound in Ho. pose proof (@zlen_nil Z). lia.
  - pose proof (zlen_nonneg p). pose proof (zlen_cons c p).
    destruct (Z.eqb_spec (zlen (c :: p)) 0); [lia|].
    destruct (Z.geb_spec pos (zlen cs)).
    + eexists; split; [done|]. left. split; [done|]. intros i Hi Ho. apply occurs_bound in Ho. lia.
    + rewrite (mem_read_split [] (c :: p) rest) by done.
      change (zlookup ((c :: p) ++ rest) 0) with (Some c). cbn [must mbind outcome_bind].
      rewrite u64_small by lia. eapply (find_loop_correct N s cs (c :: p) c p); try done; try lia.
Qed.

(** * Comparison *)

(** The lexicographic order of character lists. *)
Fixpoint lex_compare (a b : list Z) : Z :=
  match a, b with
  | [], [] => 0
  | [], _ => -1
  | _, [] => 1
  | x :: a', y :: b' => if x <? y then -1 else if y <? x then 1 else lex_compare a' b'
  end.

Lemma sv_compare_lex a b : sv_compare a b = lex_compare a b.
Proof.
  unfold sv_compare. revert b. induction a as [|x a IH]; intros [|y b]; cbn [traits_compare lex_compare].
  - done.
  - cbn [Z.eqb]. rewrite zlen_cons, zlen_nil. pose proof (zlen_nonneg b). gcase; lia.
  - cbn [Z.eqb]. rewrite zlen_cons, zlen_nil. pose proof (zlen_nonneg a). gcase; lia.
  - rewrite <- IH, !zlen_cons. gcase; (done || lia).
Qed.

Lemma S_compare_sgn n1 n2 : 0 <= n1 < 2 ^ 62 -> 0 <= n2 < 2 ^ 62 -> Z.sgn (S_compare n1 n2) = Z.sgn (n1 - n2).
Proof.
  intros H1 H2. unfold S_compare.
  assert (i64 (u64 (n1 - n2)) = n1 - n2) as ->.
  { unfold swrap, wrap. rewrite Zplus_mod_idemp_l, Z.mod_small; simpl; lia. }
  gcase; lia.
Qed.

(** Comparing the buffers of terminated strings without terminators inside. *)
Lemma traits_compare_terminated a b rb :
  Forall (fun c => 0 < c) a -> Forall (fun c => 0 <= c) b ->
  let r := traits_compare a (take (length a) (b ++ 0 :: rb)) in
  lex_compare a b = (if r =? 0 then Z.sgn (zlen a - zlen b) else r) /\ (r = 0 -> zlen a <= zlen b).
Proof.
  intros Ha Hb r. split.
  - subst r. revert b Hb. induction Ha as [|x a Hx Ha IH]; intros b Hb.
    + destruct b as [|y b]; [done|]. rewrite zlen_cons. pose proof (zlen_nonneg b). cbn [length take traits_compare lex_compare Z.eqb].
      change (zlen []) with 0. lia.
    + destruct b as [|y b].
      * cbn [app length take traits_compare lex_compare]. gcase; (lia || done).
      * apply Forall_cons in Hb as [Hy Hb]. cbn [app length take traits_compare lex_compare].
        rewrite !zlen_cons. replace (zlen a + 1 - (zlen b + 1)) with (zlen a - zlen b) by lia.
        rewrite (IH b Hb). gcase; (lia || done).
  - subst r. revert b Hb. induction Ha as [|x a Hx Ha IH]; intros b Hb Hr.
    + rewrite zlen_nil. apply zlen_nonneg.
    + destruct b as [|y b].
      * cbn [app length take traits_compare] in Hr. revert Hr. gcase; (lia || done).
      * apply Forall_cons in Hb as [Hy Hb]. cbn [app length take traits_compare] in Hr. rewrite !zlen_cons.
        revert Hr. gcase; try lia. intros Hr. specialize (IH b Hb Hr). lia.
Qed.

Lemma compare_correct N s str a b :
  0 <= N < 2 ^ 62 -> holds N s a -> holds N str b ->
  Forall (fun c => 0 < c) a -> Forall (fun c => 0 <= c) b ->
  exists r, fs_compare s str = Ok r /\ Z.sgn r = lex_compare a b.
Proof.
  intros HN Hs Ht Ha Hb. pose proof (holds_bound _ _ _ Hs). pose proof (holds_bound _ _ _ Ht).
  pose proof (zlen_nonneg a). pose proof (zlen_nonneg b).
  pose proof Hs as (Hsz & _ & ra & Hda). pose proof Ht as (Htz & Htl & rb & Hdb).
  unfold fs_compare. rewrite Hsz, Htz, Hda, Hdb, (mem_read_split [] a (0 :: ra)) by done. cbn [mbind outcome_bind].
  unfold mem_read. rewrite <- Hdb, Htl. gcase; try lia. cbn [mbind outcome_bind]. rewrite to_nat_zlen, Hdb.
  destruct (traits_compare_terminated a b rb Ha Hb) as [-> Hz]. rewrite drop_0. eexists; split; [done|]. gcase.
  - rewrite S_compare_sgn by lia. done.
  - assert (forall u v, traits_compare u v = -1 \/ traits_compare u v = 0 \/ traits_compare u v = 1) as Hr.
    { intros u. induction u as [|x u IH]; intros [|y v]; cbn [traits_compare]; gcase; auto. }
    destruct (Hr a (take (length a) (b ++ 0 :: rb))) as [->|[->| ->]]; done.
Qed.

Lemma compare_ranges_correct N s str a b pos1 count1 pos2 count2 :
  holds N s a -> holds N str b -> 0 <= pos1 <= zlen a -> 0 <= pos2 <= zlen b -> 0 <= count1 -> 0 <= count2 ->
  fs_compare_ranges s pos1 count1 str pos2 count2 =
    Ok (lex_compare (take (Z.to_nat count1) (drop (Z.to_nat pos1) a)) (take (Z.to_nat count2) (drop (Z.to_nat pos2) b))).
Proof.
  intros Hs Ht H1 H2 Hc1 Hc2. unfold fs_compare_ranges. rewrite (view_ok _ _ _ Ht), (view_ok _ _ _ Hs).
  cbn [mbind outcome_bind]. unfold sv_substr. gcase; try lia. cbn [mbind outcome_bind]. rewrite sv_compare_lex.
  assert (forall (l : list Z) p c, 0 <= p <= zlen l -> 0 <= c ->
    take (Z.to_nat (Z.min c (zlen l - p))) (drop (Z.to_nat p) l) = take (Z.to_nat c) (drop (Z.to_nat p) l)) as Htake.
  { intros l p c Hp Hc. destruct (Z.min_spec c (zlen l - p)) as [[_ ->]|[Hge ->]]; [done|].
    rewrite !take_ge; [done|rewrite length_drop; unfold zlen in *; lia..]. }
  by rewrite !Htake.
Qed.

(** * Properties *)

(** C9 A fixed-capacity string implements a list of at most [N] characters, for
    [N < 2 ^ 63] and arrays of fewer than [2 ^ 63] characters.  From a string whose
    buffer holds [cs] (the characters, a terminator, then anything), construction, copy,
    assignment, append, insertion inside the contents, removal and clearing produce a
    string that holds the list one expects.  When that list is longer than [N], the
    checked operations throw [out_of_range]; those that take a [count] do so unless the
    size and [count] add up to [2 ^ 64] or more, when the check passes and the write
    leaves the buffer.  Three operations check nothing and leave the buffer:
    [push_back] on a full string, the assignment of a longer C string, and that of a
    character if [N] is 0.  [at] returns the element, or the terminator at the size, or
    throws, and the view is [cs]. *)
Theorem fixed_string_refines_list (N : Z) (s str : string) (cs ds t rest : list Z) (i count v : Z) :
  0 <= N < 2 ^ 63 -> holds N s cs -> holds N str ds -> zlen t < 2 ^ 63 -> 0 <= count < 2 ^ 64 -> 0 <= i ->
  holds N (fs_default N) [] /\
  implements N (fs_from_ptr N (t ++ rest) (zlen t)) (bounded N t) /\
  implements N (fs_from_view N t) (bounded N t) /\
  implements N (fs_copy_construct N s) (Ok cs) /\
  implements N (fs_copy_assign s str) (Ok ds) /\
  implements N (fs_assign_ptr N s (t ++ rest) (zlen t)) (bounded N t) /\
  implements N (fs_assign_view_op N s t) (bounded N t) /\
  (Forall (fun c => c <> 0) t -> implements N (fs_assign_cstr N s (t ++ 0 :: rest)) (bounded N t)) /\
  (Forall (fun c => c <> 0) t -> implements N (fs_assign_cstr_op s (t ++ 0 :: rest)) (if zlen t <=? N then Ok t else UB)) /\
  implements N (fs_assign_char s v) (if 1 <=? N then Ok [v] else UB) /\
  implements N (fs_assign_fill N s count v) (if count >? N then Throw out_of_range else Ok (replicate (Z.to_nat count) v)) /\
  implements N (fs_append_ptr N s (t ++ rest) (zlen t)) (bounded N (cs ++ t)) /\
  implements N (fs_append_string N s str) (bounded N (cs ++ ds)) /\
  implements N (fs_append_list N s t) (bounded N (cs ++ t)) /\
  (Forall (fun c => c <> 0) t -> implements N (fs_append_cstr N s (t ++ 0 :: rest)) (bounded N (cs ++ t))) /\
  implements N (fs_append_fill N s count v) (grown N cs count (cs ++ replicate (Z.to_nat count) v)) /\
  (forall a b, cs = a ++ b ->
     implements N (fs_insert_ptr N s (zlen a) (t ++ rest) (zlen t)) (bounded N (a ++ t ++ b)) /\
     implements N (fs_insert_fill N s (zlen a) count v) (grown N cs count (a ++ replicate (Z.to_nat count) v ++ b))) /\
  implements N (fs_push_back s v) (if zlen cs <? N then Ok (cs ++ [v]) else UB) /\
  (forall a, cs = a ++ [v] -> implements N (fs_pop_back s) (Ok a)) /\
  implements N (fs_clear s) (Ok []) /\
  fs_at s i = (if i <? zlen cs then must (zlookup cs i) else if i =? zlen cs then Ok 0 else Throw out_of_range) /\
  fs_view s = Ok cs /\ fs_length s = zlen cs /\ fs_empty s = bool_decide (cs = []).
Proof.
  intros HN Hs Ht Htl Hc Hi. pose proof (holds_bound _ _ _ Hs).
  repeat match goal with |- _ /\ _ => split end;
    eauto using default_holds, from_ptr_ok, from_view_ok, copy_construct_ok, copy_assign_ok, assign_ptr_ok,
      assign_view_op_ok, assign_cstr_ok, append_ptr_ok, append_string_ok, append_list_ok, append_cstr_ok,
      append_fill_ok, assign_cstr_op_ok, assign_char_ok, clear_ok, view_ok.
  - apply (assign_fill_ok N s cs); [done|lia].
  - intros a b ->. split; [by apply insert_ptr_ok|by apply insert_fill_ok].
  - destruct (Z.ltb_spec (zlen cs) N); [by apply fs_push_back_ok|]. simpl. apply (push_back_full N HN s cs); [done|lia].
  - intros a ->. by eapply pop_back_ok.
  - by eapply at_ok.
  - apply Hs.
  - unfold fs_empty. rewrite (proj1 Hs). destruct cs; [done|]. rewrite zlen_cons. pose proof (zlen_nonneg cs).
    gcase; [lia|done].
Qed.

Definition abc : string := {| fs_size := 3; fs_data := [97; 98; 99; 0; 0] |}.
Lemma abc_holds : holds 4 abc [97; 98; 99].
Proof. split; [done|]. split; [done|]. by exists [0]. Qed.

Lemma fixed_string_refines_list_witness :
  implements 4 (fs_append_list 4 abc [100]) (Ok [97; 98; 99; 100]) /\ fs_append_list 4 abc [100; 101] = Throw out_of_range.
Proof.
  assert (forall t, zlen t < 2 ^ 63 -> implements 4 (fs_append_list 4 abc t) (bounded 4 ([97; 98; 99] ++ t))) as Ha.
  { intros t Ht.
    destruct (fixed_string_refines_list 4 abc abc [97; 98; 99] [97; 98; 99] t [] 0 0 0)
      as (_ & _ & _ & _ & _ & _ & _ & _ & _ & _ & _ & _ & _ & H & _); [lia|apply abc_holds..|done|lia|lia|]. exact H. }
  split; [apply (Ha [100])|apply (Ha [100; 101])]; vm_compute; reflexivity.
Defined.

(** [find] terminates and returns the position of the first occurrence of the
    pattern at or after [pos], or [npos] when there is none; an empty pattern occurs
    everywhere up to the end.  The loop needs at most one round per character, so
    [N + 1] rounds are enough. *)
Theorem fixed_string_find (N : Z) (fuel : nat) (s : string) (cs pat rest : list Z) (pos : Z) :
  0 <= N < 2 ^ 63 -> holds N s cs -> 0 <= pos -> (Z.to_nat N < fuel)%nat ->
  exists r, fs_find fuel s (pat ++ rest) pos (zlen pat) = Ok r /\ first_occurrence cs pat pos r.
Proof. apply find_correct. Qed.

Lemma fixed_string_find_witness :
  exists r, fs_find 5 abc ([98; 99] ++ []) 0 (zlen [98; 99]) = Ok r /\ first_occurrence [97; 98; 99] [98; 99] 0 r.
Proof. apply (fixed_string_find 4); [lia|apply abc_holds|lia|]. vm_compute. repeat constructor. Defined.

(** C37 For strings of one capacity [N] below 2^62, [compare] has the sign of the
    lexicographic order when the compared string has no terminator among its
    characters, and the range comparisons have it for the two substrings whatever they
    contain. *)
Theorem fixed_string_compare (N : Z) (s str : string) (a b : list Z) :
  0 <= N < 2 ^ 62 -> holds N s a -> holds N str b ->
  (Forall (fun c => 0 < c) a -> Forall (fun c => 0 <= c) b ->
     exists r, fs_compare s str = Ok r /\ Z.sgn r = lex_compare a b) /\
  (forall pos1 count1 pos2 count2, 0 <= pos1 <= zlen a -> 0 <= pos2 <= zlen b -> 0 <= count1 -> 0 <= count2 ->
     fs_compare_ranges s pos1 count1 str pos2 count2 =
       Ok (lex_compare (take (Z.to_nat count1) (drop (Z.to_nat pos1) a))
                       (take (Z.to_nat count2) (drop (Z.to_nat pos2) b)))).
Proof.
  intros HN Hs Ht. split; [by eapply compare_correct|]. intros. by eapply compare_ranges_correct.
Qed.

Lemma fixed_string_compare_witness : exists r, fs_compare abc abc = Ok r /\ Z.sgn r = 0.
Proof.
  apply (fixed_string_compare 4 abc abc [97; 98; 99] [97; 98; 99]); [lia|apply abc_holds..| |];
    repeat (apply Forall_cons; split; [lia|]); apply Forall_nil_2.
Defined.

(** where the string departs from a list.  Moving leaves the source without a
    size of its own: a moved-from string of the assignment carries the size of the
    target, which its own buffer need not have.  The copy with a position copies
    nothing, [assign] of a substring takes the size of the whole source,
    [assign(first, last)] never advances and leaves the buffer, [insert] of a
    substring ignores its position, insertion after the end keeps
    the terminator as a character and leaves the result without one, the ranges of [append] are not checked against the view, [substr] is
    always empty, and [compare] reads past the terminator of the other string. *)
Theorem fixed_string_gaps :
  (forall s str s' str', fs_move_assign s str = Ok (s', str') -> fs_size str' = fs_size s /\ fs_data str' = fs_data str) /\
  (forall N other pos s, 0 <= N -> fs_copy_construct_pos N other pos = Ok s ->
     fs_size s = fs_size other /\ Forall (fun c => c = 0) (fs_data s)) /\
  (forall s str pos count s', fs_assign_substring s str pos count = Ok s' -> fs_size s' = fs_size str) /\
  (forall N s c l, 0 <= N -> zlen (fs_data s) = N + 1 -> zlen (c :: l) <= N -> fs_assign_range N s (c :: l) = UB) /\
  (forall N s index str i j count, fs_insert_substring N s index str i count = fs_insert_substring N s index str j count) /\
  (forall N s pos count, fs_substr N s pos count = fs_default N) /\
  holds 4 abc [97; 98; 99] /\
  (exists s', fs_insert_ptr 8 {| fs_size := 1; fs_data := [97; 0; 0; 0; 0; 0; 0; 0; 0] |} 2 [98] 1 = Ok s' /\
     fs_view s' = Ok [97; 0] /\ forall cs, ~ holds 8 s' cs) /\
  (let a := {| fs_size := 3; fs_data := [1; 0; 5; 0] |} in let b := {| fs_size := 1; fs_data := [1; 0; 7; 0] |} in
   holds 3 a [1; 0; 5] /\ holds 3 b [1] /\ fs_compare a b = Ok (-1) /\ lex_compare [1; 0; 5] [1] = 1).
Proof.
  repeat match goal with |- _ /\ _ => split end.
  - intros s str s' str'. unfold fs_move_assign. intros (d & _ & [= <- <-])%bind_Ok. done.
  - intros N other pos s HN. unfold fs_copy_construct_pos, set_terminated. intros (d & Hd & [= <-])%bind_Ok.
    split; [done|]. cbn [fs_data]. unfold mem_write in Hd. cbn [fs_default fs_data] in Hd.
    destruct (_ && _); [|done]. injection Hd as <-. rewrite take_replicate. cbn [app].
    apply Forall_app; split; [by apply Forall_replicate|]. constructor; [done|].
    apply Forall_drop, Forall_replicate. done.
  - intros s str pos count s'. unfold fs_assign_substring. gcase; try done. intros (d & _ & [= <-])%bind_Ok. done.
  - intros N s c l HN Hd Hl. unfold fs_assign_range. gcase; [lia|].
    assert (forall fuel d i, assign_range_loop fuel d i (c :: l) = UB) as ->; [|done].
    induction fuel as [|fuel IH]; intros d i; [done|]. cbn [assign_range_loop].
    destruct (mem_write d i [c]) eqn:E; cbn [mbind outcome_bind]; [apply IH| |done].
    unfold mem_write in E. destruct (_ && _); done.
  - done.
  - done.
  - apply abc_holds.
  - eexists; split; [vm_compute; reflexivity|]. split; [done|]. intros cs (Hsz & _ & rest & Hr). cbn [fs_size fs_data] in *.
    destruct cs as [|x [|y [|z cs]]]; try discriminate.
    rewrite !zlen_cons in Hsz. pose proof (zlen_nonneg cs). lia.
  - cbv zeta. repeat match goal with |- _ /\ _ => split end.
    + split; [done|]. split; [done|]. by exists [].
    + split; [done|]. split; [done|]. by exists [7; 0].
    + vm_compute. reflexivity.
    + vm_compute. reflexivity.
Qed.
