(* ===== verification/Vector.v ===== *)
(** The vector: [stl/vector.h] over [stl/alloc_traits.h].

    A vector holds three offsets into memory of its allocator.  The elements are
    trivially copyable values of a type [T] of [sizeof_T] bytes (the library
    instantiates the arithmetic types); they live in cells of a heap that also
    records the live blocks of the allocator, so that an access outside them is
    undefined behaviour.  Pointers are byte addresses, [None] is the null pointer. *)
From S2P Require Import Prelude Numeric PoolAllocator.

(** * Allocators as the traits see them *)

(** What [allocate] returns decides how the traits use it. *)
Inductive allocate_member (A : Type) : Type :=
| AllocatesPair (f : A -> Z -> outcome (Z * Z * A))
| AllocatesOffset (f : A -> Z -> outcome (Z * A))
| AllocatesPointer (f : A -> Z -> outcome (option Z * A)).
Arguments AllocatesPair {A} f.
Arguments AllocatesOffset {A} f.
Arguments AllocatesPointer {A} f.

(** The members of an allocator type; [None] for those it does not have. *)
Record members (A : Type) : Type := {
  mb_allocate_at_least_offset : option (A -> Z -> outcome (Z * Z * A));
  mb_allocate_at_least : option (A -> Z -> outcome (Z * Z * A));
  mb_allocate_offset : option (A -> Z -> outcome (Z * Z * A));
  mb_allocate : allocate_member A;
  mb_deallocate : A -> Z -> outcome A;
  mb_offset_to_pointer : option (A -> Z -> option Z);
  mb_pointer_to_offset : option (A -> option Z -> Z);
  mb_max_size : option (A -> Z)
}.
Arguments mb_allocate_at_least_offset {A} m.
Arguments mb_allocate_at_least {A} m.
Arguments mb_allocate_offset {A} m.
Arguments mb_allocate {A} m.
Arguments mb_deallocate {A} m.
Arguments mb_offset_to_pointer {A} m.
Arguments mb_pointer_to_offset {A} m.
Arguments mb_max_size {A} m.

Section traits.
Context {A : Type} (mb : members A) (sizeof_T : Z).

(* @source include/ipcpp/stl/alloc_traits.h 89-101 allocator_traits::offset_to_pointer *)
Definition traits_offset_to_pointer (a : A) (offset : Z) : option Z :=
  match mb_offset_to_pointer mb with
  | Some f => f a offset
  | None => if offset <? 0 then None else Some offset
  end.

(* @source include/ipcpp/stl/alloc_traits.h 103-114 allocator_traits::pointer_to_offset *)
Definition traits_pointer_to_offset (a : A) (p : option Z) : Z :=
  match mb_pointer_to_offset mb with
  | Some f => f a p
  | None => match p with None => -1 | Some addr => addr end
  end.

(* @source include/ipcpp/stl/alloc_traits.h 55-83 allocator_traits::allocate_at_least *)
Definition traits_allocate_at_least (a : A) (n : Z) : outcome (Z * Z * A) :=
  match mb_allocate_at_least_offset mb, mb_allocate_at_least mb, mb_allocate mb, mb_allocate_offset mb with
  | Some f, _, _, _ => f a n
  | None, Some f, _, _ => f a n
  | None, None, AllocatesPair f, _ => f a n
  | None, None, _, Some f => f a n
  | None, None, AllocatesOffset f, None => '(o, a1) ← f a n; Ok (o, u64 (n * sizeof_T), a1)
  | None, None, AllocatesPointer f, None =>
      '(p, a1) ← f a n; Ok (traits_pointer_to_offset a1 p, u64 (n * sizeof_T), a1)
  end.

(* @source include/ipcpp/stl/alloc_traits.h 85-85 allocator_traits::deallocate *)
Definition traits_deallocate (a : A) (p : Z) : outcome A := mb_deallocate mb a p.

(* @source include/ipcpp/stl/alloc_traits.h 131-139 allocator_traits::max_size *)
Definition traits_max_size (a : A) : Z :=
  match mb_max_size mb with Some f => f a | None => umax 64 / sizeof_T end.
End traits.

(** What the vector relies on: [al_inv a live] relates the state of the allocator
    to its live blocks (offset and bytes). *)
Class AllocatorLaws {A : Type} (mb : members A) (sizeof_T : Z) (al_inv : A -> gmap Z Z -> Prop) : Prop := {
  al_sizeof : 0 < sizeof_T < 2 ^ 32;
  al_block : forall a live o b, al_inv a live -> live !! o = Some b ->
    0 <= o /\ 0 < b /\ o + b < 2 ^ 62 /\ (sizeof_T | b) /\
    forall k, 0 <= k <= b ->
      traits_offset_to_pointer mb a (o + k) = Some (o + k) /\ traits_pointer_to_offset mb a (Some (o + k)) = o + k;
  al_null : forall a live, al_inv a live ->
    traits_offset_to_pointer mb a (-1) = None /\ traits_pointer_to_offset mb a None = -1;
  al_disjoint : forall a live o b o' b', al_inv a live -> live !! o = Some b -> live !! o' = Some b' -> o <> o' ->
    o + b <= o' \/ o' + b' <= o;
  al_max : forall a live, al_inv a live -> 0 <= traits_max_size mb sizeof_T a < 2 ^ 61 /\
    traits_max_size mb sizeof_T a * sizeof_T < 2 ^ 62;
  al_block_max : forall a live o b, al_inv a live -> live !! o = Some b -> b <= traits_max_size mb sizeof_T a * sizeof_T;
  al_allocate : forall a live n, al_inv a live -> 0 < n -> n * sizeof_T < 2 ^ 62 ->
    traits_allocate_at_least mb sizeof_T a n = Throw bad_alloc \/
    exists o b a', traits_allocate_at_least mb sizeof_T a n = Ok (o, b, a') /\ al_inv a' (<[o := b]> live) /\
      live !! o = None /\ n * sizeof_T <= b;
  al_deallocate : forall a live o b, al_inv a live -> live !! o = Some b ->
    exists a', traits_deallocate mb a o = Ok a' /\ al_inv a' (delete o live)
}.

Section vector.
Context {A T : Type} (mb : members A) (sizeof_T : Z) (default_T : T).

(** * The heap *)
Record heap : Type := {
  hp_alloc : A;
  hp_live : gmap Z Z;
  hp_cells : gmap Z T
}.

Definition owned (h : heap) (a : Z) : bool :=
  existsb (fun b => (b.1 <=? a) && (a + sizeof_T <=? b.1 + b.2)) (map_to_list (hp_live h)).

Definition set_cells (h : heap) (c : gmap Z T) : heap :=
  {| hp_alloc := hp_alloc h; hp_live := hp_live h; hp_cells := c |}.

Definition read (h : heap) (p : option Z) : outcome T :=
  a ← must p; _ ← require (owned h a); must (hp_cells h !! a).

(* @source include/ipcpp/stl/vector.h 569-572 vector::_m_construct_at *)
Definition m_construct_at (h : heap) (p : option Z) (x : T) : outcome heap :=
  a ← must p; _ ← require (owned h a); Ok (set_cells h (<[a := x]> (hp_cells h))).

(** [std::destroy_at] of an object that is there. *)
Definition destroy_at (h : heap) (p : option Z) : outcome heap :=
  a ← must p; _ ← read h p; Ok (set_cells h (delete a (hp_cells h))).

(** Pointer arithmetic in elements; a difference that is not a whole number of
    elements is undefined. *)
Definition ptr_add (p : option Z) (k : Z) : outcome (option Z) :=
  match p with
  | Some a => Ok (Some (a + sizeof_T * k))
  | None => if k =? 0 then Ok None else UB
  end.

Definition ptr_sub (p q : option Z) : outcome Z :=
  match p, q with
  | Some a, Some b => if (a - b) mod sizeof_T =? 0 then Ok ((a - b) / sizeof_T) else UB
  | None, None => Ok 0
  | _, _ => UB
  end.

(* @source include/ipcpp/stl/vector.h 582-587 vector::vector_data *)
Record vector : Type := { vd_start : Z; vd_finish : Z; vd_end : Z }.

Definition null_vector : vector := {| vd_start := -1; vd_finish := -1; vd_end := -1 |}.
Definition set_finish (v : vector) (f : Z) : vector :=
  {| vd_start := vd_start v; vd_finish := f; vd_end := vd_end v |}.

(** * Pointers, sizes *)

(* @source include/ipcpp/stl/vector.h 407-409 vector::_m_start_ptr *)
Definition to_ptr (h : heap) (offset : Z) : option Z := traits_offset_to_pointer mb (hp_alloc h) offset.
Definition start_ptr (h : heap) (v : vector) : option Z := to_ptr h (vd_start v).
Definition finish_ptr (h : heap) (v : vector) : option Z := to_ptr h (vd_finish v).

(* @source include/ipcpp/stl/vector.h 221-221 vector::size *)
Definition vec_size (h : heap) (v : vector) : outcome Z :=
  n ← ptr_sub (finish_ptr h v) (start_ptr h v); Ok (u64 n).

(* @source include/ipcpp/stl/vector.h 230-230 vector::capacity *)
Definition vec_capacity (h : heap) (v : vector) : outcome Z :=
  n ← ptr_sub (to_ptr h (vd_end v)) (start_ptr h v); Ok (u64 n).

(* @source include/ipcpp/stl/vector.h 219-219 vector::empty *)
Definition vec_empty (v : vector) : bool := vd_start v =? vd_finish v.

(* @source include/ipcpp/stl/vector.h 223-223 vector::max_size *)
Definition vec_max_size (h : heap) : Z := traits_max_size mb sizeof_T (hp_alloc h).

(* @source include/ipcpp/stl/vector.h 195-212 vector::begin *)
Definition vec_begin (h : heap) (v : vector) : option Z := start_ptr h v.
Definition vec_end (h : heap) (v : vector) : outcome (option Z) :=
  n ← vec_size h v; ptr_add (start_ptr h v) n.

(** * Storage *)

(* @source include/ipcpp/stl/vector.h 395-400 vector::_m_allocate *)
Definition m_allocate (h : heap) (n : Z) : outcome (Z * Z * heap) :=
  if n =? 0 then Ok (-1, 0, h)
  else
    '(o, b, a) ← traits_allocate_at_least mb sizeof_T (hp_alloc h) n;
    Ok (o, b, {| hp_alloc := a; hp_live := <[o := b]> (hp_live h); hp_cells := hp_cells h |}).

(** The cells of a freed block are gone. *)
(* @source include/ipcpp/stl/vector.h 401-405 vector::_m_deallocate *)
Definition m_deallocate (h : heap) (p : option Z) : outcome heap :=
  match p with
  | None => Ok h
  | Some o =>
    b ← must (hp_live h !! o);
    a ← traits_deallocate mb (hp_alloc h) o;
    Ok {| hp_alloc := a; hp_live := delete o (hp_live h);
          hp_cells := filter (fun c => ~ (o <= c.1 < o + b)) (hp_cells h) |}
  end.

(* @source include/ipcpp/stl/vector.h 411-416 vector::_m_create_storage *)
Definition m_create_storage (h : heap) (n : Z) : outcome (vector * heap) :=
  '(start, size, h1) ← m_allocate h n;
  Ok ({| vd_start := start; vd_finish := start; vd_end := start + size |}, h1).

(** * Loops over elements *)

Fixpoint fill_loop (n : nat) (h : heap) (dst : option Z) (x : T) : outcome heap :=
  match n with
  | O => Ok h
  | S n' => h1 ← m_construct_at h dst x; dst1 ← ptr_add dst 1; fill_loop n' h1 dst1 x
  end.

Fixpoint list_loop (h : heap) (dst : option Z) (xs : list T) : outcome heap :=
  match xs with
  | [] => Ok h
  | x :: xs' => h1 ← m_construct_at h dst x; dst1 ← ptr_add dst 1; list_loop h1 dst1 xs'
  end.

Fixpoint copy_loop (n : nat) (h : heap) (dst src : option Z) : outcome heap :=
  match n with
  | O => Ok h
  | S n' =>
    x ← read h src; h1 ← m_construct_at h dst x;
    dst1 ← ptr_add dst 1; src1 ← ptr_add src 1; copy_loop n' h1 dst1 src1
  end.

(* @source include/ipcpp/stl/vector.h 418-423 vector::_m_default_initialize *)
Definition m_default_initialize (h : heap) (v : vector) (n : Z) : outcome (vector * heap) :=
  h1 ← fill_loop (Z.to_nat n) h (start_ptr h v) default_T;
  Ok (set_finish v (vd_finish v + n * sizeof_T), h1).

(* @source include/ipcpp/stl/vector.h 425-430 vector::_m_fill_initialize *)
Definition m_fill_initialize (h : heap) (v : vector) (n : Z) (x : T) : outcome (vector * heap) :=
  h1 ← fill_loop (Z.to_nat n) h (start_ptr h v) x;
  Ok (set_finish v (vd_finish v + n * sizeof_T), h1).

(* @source include/ipcpp/stl/vector.h 432-438 vector::_m_copy_initialize(n,first) *)
Definition m_copy_initialize (h : heap) (v : vector) (n : Z) (first : option Z) : outcome (vector * heap) :=
  h1 ← copy_loop (Z.to_nat n) h (start_ptr h v) first;
  Ok (set_finish v (vd_finish v + n * sizeof_T), h1).

(** The elements of an iterator range or an initializer list are a list of values. *)
(* @source include/ipcpp/stl/vector.h 440-448 vector::_m_copy_initialize(first,last) *)
Definition m_copy_initialize_range (h : heap) (v : vector) (xs : list T) : outcome (vector * heap) :=
  h1 ← list_loop h (start_ptr h v) xs;
  Ok (set_finish v (vd_finish v + zlen xs * sizeof_T), h1).

(** The number of rounds of a loop from [cur] to [last]; when [last] is not reached
    the loop runs out of the memory. *)
Definition rounds (last cur : option Z) : outcome nat :=
  n ← ptr_sub last cur; if n <? 0 then UB else Ok (Z.to_nat n).

(* @source include/ipcpp/stl/vector.h 460-468 vector::_m_uninitialized_move *)
Definition m_uninitialized_move (h : heap) (src_start src_end dst : option Z) : outcome (option Z * heap) :=
  n ← rounds src_end src_start;
  h1 ← copy_loop n h dst src_start;
  finish ← ptr_add dst (Z.of_nat n); Ok (finish, h1).

Fixpoint destroy_loop (n : nat) (h : heap) (p : option Z) : outcome heap :=
  match n with
  | O => Ok h
  | S n' => h1 ← destroy_at h p; p1 ← ptr_add p 1; destroy_loop n' h1 p1
  end.

(* @source include/ipcpp/stl/vector.h 574-579 vector::_m_destroy *)
Definition m_destroy (h : heap) (first last : option Z) : outcome heap :=
  n ← rounds last first; destroy_loop n h first.

(** Destroying all elements. *)
Definition m_destroy_all (h : heap) (v : vector) : outcome heap :=
  e ← vec_end h v; m_destroy h (vec_begin h v) e.

(* @source include/ipcpp/stl/vector.h 479-485 vector::_m_check_length *)
Definition m_check_length (h : heap) (v : vector) (n : Z) : outcome Z :=
  size ← vec_size h v;
  if u64 (vec_max_size h - size) <? n then Throw length_error
  else
    let len := u64 (size + Z.max size n) in
    Ok (if (len <? size) || (len >? vec_max_size h) then vec_max_size h else len).

(** * Reallocation *)

(* @source include/ipcpp/stl/vector.h 487-501 vector::_m_realloc_append *)
Definition m_realloc_append (h : heap) (v : vector) (x : T) : outcome (vector * heap) :=
  len ← m_check_length h v 1;
  let old_start := start_ptr h v in
  let old_finish := finish_ptr h v in
  '(new_start, new_size, h1) ← m_allocate h len;
  '(new_finish, h2) ← m_uninitialized_move h1 old_start old_finish (to_ptr h1 new_start);
  h3 ← m_construct_at h2 new_finish x;
  new_finish ← ptr_add new_finish 1;
  _ ← vec_capacity h3 v;
  h4 ← m_deallocate h3 old_start;
  Ok ({| vd_start := new_start; vd_finish := traits_pointer_to_offset mb (hp_alloc h4) new_finish;
         vd_end := new_start + new_size |}, h4).

(* @source include/ipcpp/stl/vector.h 503-519 vector::_m_realloc_append_n *)
Definition m_realloc_append_n (h : heap) (v : vector) (n : Z) (x : T) : outcome (vector * heap) :=
  len ← m_check_length h v n;
  let old_start := start_ptr h v in
  let old_finish := finish_ptr h v in
  '(new_start, new_capacity, h1) ← m_allocate h len;
  '(new_finish, h2) ← m_uninitialized_move h1 old_start old_finish (to_ptr h1 new_start);
  size ← vec_size h2 v;
  h3 ← fill_loop (Z.to_nat (n - size)) h2 new_finish x;
  new_finish ← ptr_add new_finish (Z.max 0 (n - size));
  _ ← vec_capacity h3 v;
  h4 ← m_deallocate h3 old_start;
  Ok ({| vd_start := new_start; vd_finish := traits_pointer_to_offset mb (hp_alloc h4) new_finish;
         vd_end := new_start + new_capacity |}, h4).

(** The common tail of the two reallocations that add nothing. *)
Definition m_realloc_to (h : heap) (v : vector) (len : Z) : outcome (vector * heap) :=
  let old_start := start_ptr h v in
  let old_finish := finish_ptr h v in
  '(new_start, new_size, h1) ← m_allocate h len;
  '(new_finish, h2) ← m_uninitialized_move h1 old_start old_finish (to_ptr h1 new_start);
  _ ← vec_capacity h2 v;
  h3 ← m_deallocate h2 old_start;
  Ok ({| vd_start := new_start; vd_finish := traits_pointer_to_offset mb (hp_alloc h3) new_finish;
         vd_end := new_start + new_size |}, h3).

(* @source include/ipcpp/stl/vector.h 521-532 vector::_m_uninitialized_realloc_n *)
Definition m_uninitialized_realloc_n (h : heap) (v : vector) (n : Z) : outcome (vector * heap) :=
  len ← m_check_length h v n; m_realloc_to h v len.

(* @source include/ipcpp/stl/vector.h 534-548 vector::_m_realloc_copy *)
Definition m_realloc_copy (h : heap) (v : vector) (n : Z) : outcome (vector * heap) :=
  if vec_max_size h <? n then Throw length_error else m_realloc_to h v n.

(** * Constructors and the destructor *)

(* @source include/ipcpp/stl/vector.h 43-43 vector::vector *)
Definition vec_default : vector := null_vector.

(* @source include/ipcpp/stl/vector.h 44-47 vector::vector(n) *)
Definition vec_new (h : heap) (n : Z) : outcome (vector * heap) :=
  '(v, h1) ← m_create_storage h n; m_default_initialize h1 v n.

(* @source include/ipcpp/stl/vector.h 48-51 vector::vector(n,v) *)
Definition vec_new_fill (h : heap) (n : Z) (x : T) : outcome (vector * heap) :=
  '(v, h1) ← m_create_storage h n; m_fill_initialize h1 v n x.

(* @source include/ipcpp/stl/vector.h 52-65 vector::vector(const_vector&) *)
Definition vec_copy_construct (h : heap) (other : vector) : outcome (vector * heap) :=
  n ← vec_size h other;
  '(v, h1) ← m_create_storage h n; m_copy_initialize h1 v n (start_ptr h1 other).

(** The new vector and what remains of the source. *)
(* @source include/ipcpp/stl/vector.h 588-591 vector::vector(vector&&) *)
Definition vec_move_construct (other : vector) : vector * vector := (other, null_vector).

(* @source include/ipcpp/stl/vector.h 78-91 vector::vector(first,last) *)
Definition vec_from_range (h : heap) (xs : list T) : outcome (vector * heap) :=
  '(v, h1) ← m_create_storage h (zlen xs); m_copy_initialize_range h1 v xs.

(* @source include/ipcpp/stl/vector.h 94-97 vector::~vector *)
Definition vec_destroy (h : heap) (v : vector) : outcome heap :=
  h1 ← m_destroy_all h v; _ ← vec_capacity h1 v; m_deallocate h1 (start_ptr h1 v).

(** * Assignment *)

(** Old storage is replaced when the new size exceeds the capacity. *)
Definition replace_storage (h : heap) (v : vector) (n : Z) (otherwise : vector) : outcome (vector * heap) :=
  capacity ← vec_capacity h v;
  if n >? capacity then
    _ ← vec_size h v; h1 ← m_deallocate h (start_ptr h v); m_create_storage h1 n
  else Ok (otherwise, h).

(** [self]: whether the argument is the vector itself. *)
(* @source include/ipcpp/stl/vector.h 100-114 vector::operator=(const_vector&) *)
Definition vec_copy_assign (self : bool) (h : heap) (v other : vector) : outcome (vector * heap) :=
  if self then Ok (v, h)
  else
    h1 ← m_destroy_all h v;
    n ← vec_size h1 other;
    '(v1, h2) ← replace_storage h1 v n v;
    m_copy_initialize h2 v1 n (start_ptr h2 other).

(* @source include/ipcpp/stl/vector.h 597-602 vector::vector_data::_m_swap_data *)
Definition m_swap_data (v other : vector) : vector * vector := (other, v).

(* @source include/ipcpp/stl/vector.h 115-118 vector::operator=(vector&&) *)
Definition vec_move_assign (v other : vector) : vector * vector := m_swap_data v other.

(* @source include/ipcpp/stl/vector.h 119-132 vector::operator=(ilist) *)
Definition vec_assign_op_list (h : heap) (v : vector) (xs : list T) : outcome (vector * heap) :=
  h1 ← m_destroy_all h v;
  '(v1, h2) ← replace_storage h1 v (zlen xs) (set_finish v (vd_start v));
  m_copy_initialize_range h2 v1 xs.

(* @source include/ipcpp/stl/vector.h 135-144 vector::assign(count,value) *)
Definition vec_assign_fill (h : heap) (v : vector) (count : Z) (x : T) : outcome (vector * heap) :=
  h1 ← m_destroy_all h v;
  '(v1, h2) ← replace_storage h1 v count v;
  m_fill_initialize h2 v1 count x.

(* @source include/ipcpp/stl/vector.h 145-174 vector::assign(first,last) *)
Definition vec_assign_range (h : heap) (v : vector) (xs : list T) : outcome (vector * heap) :=
  h1 ← m_destroy_all h v;
  '(v1, h2) ← replace_storage h1 v (zlen xs) v;
  m_copy_initialize_range h2 v1 xs.

(** * Element access *)

(* @source include/ipcpp/stl/vector.h 177-178 vector::operator[] *)
Definition vec_get (h : heap) (v : vector) (n : Z) : outcome T :=
  p ← ptr_add (start_ptr h v) n; read h p.

(* @source include/ipcpp/stl/vector.h 473-477 vector::_m_range_check *)
Definition m_range_check (h : heap) (v : vector) (n : Z) : outcome unit :=
  size ← vec_size h v; if n >=? size then Throw out_of_range else Ok tt.

(* @source include/ipcpp/stl/vector.h 180-187 vector::at *)
Definition vec_at (h : heap) (v : vector) (n : Z) : outcome T :=
  _ ← m_range_check h v n; vec_get h v n.

(* @source include/ipcpp/stl/vector.h 189-190 vector::front *)
Definition vec_front (h : heap) (v : vector) : outcome T := read h (vec_begin h v).

(* @source include/ipcpp/stl/vector.h 192-193 vector::back *)
Definition vec_back (h : heap) (v : vector) : outcome T :=
  e ← vec_end h v; p ← ptr_add e (-1); read h p.

(** * Capacity *)

(* @source include/ipcpp/stl/vector.h 225-228 vector::reserve *)
Definition vec_reserve (h : heap) (v : vector) (new_cap : Z) : outcome (vector * heap) :=
  capacity ← vec_capacity h v;
  if new_cap <=? capacity then Ok (v, h) else m_realloc_copy h v new_cap.

(* @source include/ipcpp/stl/vector.h 232-235 vector::shrink_to_fit *)
Definition vec_shrink_to_fit (h : heap) (v : vector) : outcome (vector * heap) :=
  capacity ← vec_capacity h v; size ← vec_size h v;
  if capacity =? size then Ok (v, h) else m_realloc_copy h v size.

(** * Modifiers *)

(* @source include/ipcpp/stl/vector.h 238-241 vector::clear *)
Definition vec_clear (h : heap) (v : vector) : outcome (vector * heap) :=
  h1 ← m_destroy_all h v; Ok (set_finish v (vd_start v), h1).

Fixpoint move_forward_loop (n : nat) (h : heap) (dst first : option Z) : outcome heap :=
  match n with
  | O => Ok h
  | S n' => x ← read h first; h1 ← m_construct_at h dst x; first1 ← ptr_add first 1; move_forward_loop n' h1 dst first1
  end.

Fixpoint move_backward_loop (n : nat) (h : heap) (dst first : option Z) : outcome heap :=
  match n with
  | O => Ok h
  | S n' =>
    s ← ptr_add first (Z.of_nat n'); x ← read h s;
    d ← ptr_add dst (Z.of_nat n'); h1 ← m_construct_at h d x; move_backward_loop n' h1 dst first
  end.

(** The first loop advances [dst] but writes through [dst_it], which stays. *)
(* @source include/ipcpp/stl/vector.h 550-567 vector::_m_move_to *)
Definition m_move_to (h : heap) (v : vector) (first last dst : option Z) : outcome heap :=
  match first, last, dst with
  | Some f, Some l, Some d =>
    if d =? f then Ok h
    else
      k ← ptr_sub dst (vec_begin h v);
      dst_it ← ptr_add (vec_begin h v) k;
      n ← ptr_sub last first;
      if (d <? f) || (d >? l + sizeof_T) then move_forward_loop (Z.to_nat n) h dst_it first
      else move_backward_loop (Z.to_nat n) h dst_it first
  | None, None, None => Ok h
  | _, _, _ => UB
  end.

(** Constructing [xs] from [pos] on, each of them extending the vector. *)
Definition construct_run (h : heap) (v : vector) (pos : option Z) (xs : list T) : outcome (vector * heap) :=
  h1 ← list_loop h pos xs; Ok (set_finish v (vd_finish v + zlen xs * sizeof_T), h1).

(** The resulting iterator is [begin() + offset]; the sum that decides about a new storage is
    taken in [size_type] and can wrap around. *)
(* @source include/ipcpp/stl/vector.h 248-262 vector::insert(pos,count,value) *)
Definition vec_insert_fill (h : heap) (v : vector) (pos : option Z) (count : Z) (x : T) : outcome (option Z * vector * heap) :=
  offset ← ptr_sub pos (vec_begin h v);
  capacity ← vec_capacity h v; size ← vec_size h v;
  '(v1, h1, pos) ← (if capacity <? u64 (size + count) then
      '(v1, h1) ← m_uninitialized_realloc_n h v count;
      p ← ptr_add (vec_begin h1 v1) offset; Ok (v1, h1, p)
    else Ok (v, h, pos));
  position ← ptr_add (vec_begin h1 v1) offset;
  e ← vec_end h1 v1;
  dst ← ptr_add pos count;
  h2 ← m_move_to h1 v1 pos e dst;
  '(v2, h3) ← construct_run h2 v1 position (replicate (Z.to_nat count) x);
  r ← ptr_add (vec_begin h3 v2) offset; Ok (r, v2, h3).

(* @source include/ipcpp/stl/vector.h 243-247 vector::insert(pos,value) *)
Definition vec_insert (h : heap) (v : vector) (pos : option Z) (x : T) : outcome (option Z * vector * heap) :=
  vec_insert_fill h v pos 1 x.

(** [pos] keeps pointing into the old storage. *)
(* @source include/ipcpp/stl/vector.h 263-284 vector::insert(pos,first,last) *)
Definition vec_insert_range (h : heap) (v : vector) (pos : option Z) (xs : list T) : outcome (option Z * vector * heap) :=
  offset ← ptr_sub pos (vec_begin h v);
  capacity ← vec_capacity h v; size ← vec_size h v;
  '(v1, h1) ← (if capacity <? u64 (size + zlen xs) then m_uninitialized_realloc_n h v (zlen xs) else Ok (v, h));
  e ← vec_end h1 v1;
  dst ← ptr_add pos (zlen xs);
  h2 ← m_move_to h1 v1 pos e dst;
  pos_it ← ptr_add (vec_begin h2 v1) offset;
  '(v2, h3) ← construct_run h2 v1 pos_it xs;
  r ← ptr_add (vec_begin h3 v2) offset; Ok (r, v2, h3).

(* @source include/ipcpp/stl/vector.h 294-297 vector::emplace *)
Definition vec_emplace (h : heap) (v : vector) (pos : option Z) (x : T) : outcome (option Z * vector * heap) :=
  vec_insert h v pos x.

(* @source include/ipcpp/stl/vector.h 299-310 vector::erase(pos) *)
Definition vec_erase (h : heap) (v : vector) (pos : option Z) : outcome (option Z * vector * heap) :=
  next ← ptr_add pos 1;
  e ← vec_end h v;
  if bool_decide (next = e) then
    h1 ← destroy_at h pos;
    let v1 := set_finish v (vd_finish v - sizeof_T) in
    e1 ← vec_end h1 v1; Ok (e1, v1, h1)
  else
    offset ← ptr_sub pos (vec_begin h v);
    h1 ← m_move_to h v next e pos;
    let v1 := set_finish v (vd_finish v - sizeof_T) in
    r ← ptr_add (vec_begin h1 v1) offset; Ok (r, v1, h1).

(* @source include/ipcpp/stl/vector.h 311-321 vector::erase(first,last) *)
Definition vec_erase_range (h : heap) (v : vector) (first last : option Z) : outcome (option Z * vector * heap) :=
  offset ← ptr_sub first (vec_begin h v);
  len ← ptr_sub last first;
  if len <=? 0 then k ← ptr_sub last (vec_begin h v); r ← ptr_add (vec_begin h v) k; Ok (r, v, h)
  else
    e ← vec_end h v;
    h1 ← m_move_to h v last e first;
    let v1 := set_finish v (vd_finish v - len * sizeof_T) in
    r ← ptr_add (vec_begin h1 v1) offset; Ok (r, v1, h1).

(* @source include/ipcpp/stl/vector.h 323-330 vector::push_back *)
Definition vec_push_back (h : heap) (v : vector) (x : T) : outcome (vector * heap) :=
  if negb (vd_finish v =? vd_end v) then
    h1 ← m_construct_at h (finish_ptr h v) x; Ok (set_finish v (vd_finish v + sizeof_T), h1)
  else m_realloc_append h v x.

(* @source include/ipcpp/stl/vector.h 333-342 vector::emplace_back *)
Definition vec_emplace_back (h : heap) (v : vector) (x : T) : outcome (T * vector * heap) :=
  '(v1, h1) ← (if negb (vd_finish v =? vd_end v) then
      h1 ← m_construct_at h (finish_ptr h v) x; Ok (set_finish v (vd_finish v + sizeof_T), h1)
    else m_realloc_append h v x);
  y ← vec_back h1 v1; Ok (y, v1, h1).

(* @source include/ipcpp/stl/vector.h 344-347 vector::pop_back *)
Definition vec_pop_back (h : heap) (v : vector) : outcome (vector * heap) :=
  e ← vec_end h v; p ← ptr_add e (-1); h1 ← destroy_at h p;
  Ok (set_finish v (vd_finish v - sizeof_T), h1).

(** Both versions of [resize]: without a value the new elements are value-initialized. *)
(* @source include/ipcpp/stl/vector.h 370-390 vector::resize(count,value) *)
Definition vec_resize_fill (h : heap) (v : vector) (count : Z) (x : T) : outcome (vector * heap) :=
  size ← vec_size h v;
  if count =? size then Ok (v, h)
  else if count <? size then
    first ← ptr_add (vec_begin h v) count; e ← vec_end h v;
    h1 ← m_destroy h first e;
    Ok (set_finish v (vd_start v + count * sizeof_T), h1)
  else
    capacity ← vec_capacity h v;
    if count <=? capacity then
      p ← ptr_add (start_ptr h v) size;
      h1 ← fill_loop (Z.to_nat (count - size)) h p x;
      Ok (set_finish v (vd_start v + count * sizeof_T), h1)
    else m_realloc_append_n h v count x.

(* @source include/ipcpp/stl/vector.h 349-369 vector::resize(count) *)
Definition vec_resize (h : heap) (v : vector) (count : Z) : outcome (vector * heap) :=
  vec_resize_fill h v count default_T.

(* @source include/ipcpp/stl/vector.h 392-392 vector::swap *)
Definition vec_swap (v other : vector) : vector * vector := m_swap_data v other.

(** The converting move: the elements are moved over, then the source is cleared
    and shrunk (here both vectors use the same heap). *)
(* @source include/ipcpp/stl/vector.h 67-77 vector::vector(vector<T_Allocator2>&&) *)
Definition vec_move_construct_from (h : heap) (other : vector) : outcome (vector * vector * heap) :=
  n ← vec_size h other;
  '(v, h1) ← m_create_storage h n;
  '(v1, h2) ← m_copy_initialize h1 v n (start_ptr h1 other);
  '(other1, h3) ← vec_clear h2 other;
  '(other2, h4) ← vec_shrink_to_fit h3 other1;
  Ok (v1, other2, h4).

(** * Comparison *)
Section compare.
Variables (eqb : T -> T -> bool) (cmp : T -> T -> comparison).

Fixpoint equal_loop (n : nat) (h : heap) (lhs rhs : vector) (i : Z) : outcome bool :=
  match n with
  | O => Ok true
  | S n' =>
    x ← vec_at h lhs i; y ← vec_at h rhs i;
    if eqb x y then equal_loop n' h lhs rhs (i + 1) else Ok false
  end.

(* @source include/ipcpp/stl/vector.h 608-617 operator== *)
Definition vec_equal (h : heap) (lhs rhs : vector) : outcome bool :=
  n ← vec_size h lhs; m ← vec_size h rhs;
  if negb (n =? m) then Ok false else equal_loop (Z.to_nat n) h lhs rhs 0.

Fixpoint three_way_loop (n m : nat) (h : heap) (p q : option Z) : outcome comparison :=
  match n, m with
  | O, O => Ok Eq
  | O, S _ => Ok Lt
  | S _, O => Ok Gt
  | S n', S m' =>
    x ← read h p; y ← read h q;
    match cmp x y with
    | Eq => p1 ← ptr_add p 1; q1 ← ptr_add q 1; three_way_loop n' m' h p1 q1
    | c => Ok c
    end
  end.

(* @source include/ipcpp/stl/vector.h 619-624 operator<=> *)
Definition vec_compare (h : heap) (lhs rhs : vector) : outcome comparison :=
  n ← vec_size h lhs; m ← vec_size h rhs;
  three_way_loop (Z.to_nat n) (Z.to_nat m) h (start_ptr h lhs) (start_ptr h rhs).
End compare.
End vector.
Arguments heap : clear implicits.

(** * Laws of the heap *)
Section laws.
Context {A T : Type} (mb : members A) (sizeof_T : Z) (default_T : T) (al_inv : A -> gmap Z Z -> Prop).
Context `{!AllocatorLaws mb sizeof_T al_inv}.
Abbreviation heap := (heap A T).
Abbreviation sz := sizeof_T.

Definition heap_ok (h : heap) : Prop := al_inv (hp_alloc h) (hp_live h).

(** The block at [s] and what its places hold. *)
Definition block_at (h : heap) (s : Z) (ss : list (option T)) : Prop :=
  hp_live h !! s = Some (sz * zlen ss) /\
  forall i c, ss !! i = Some c -> hp_cells h !! (s + sz * Z.of_nat i) = c.

(** The other blocks are as before. *)
Definition frame (s : Z) (h h' : heap) : Prop := forall o ss, o <> s -> block_at h o ss -> block_at h' o ss.

(** Only places of the block [s] have changed. *)
Definition within (s : Z) (h h' : heap) : Prop :=
  hp_alloc h' = hp_alloc h /\ hp_live h' = hp_live h /\ frame s h h'.

Lemma sz_pos : 0 < sz < 2 ^ 32.
Proof. apply al_sizeof. Qed.

Lemma within_refl s h : within s h h.
Proof. split; [done|]. split; [done|]. by intros o ss _ Hb. Qed.

Lemma within_trans s h1 h2 h3 : within s h1 h2 -> within s h2 h3 -> within s h1 h3.
Proof.
  intros (A1 & L1 & F1) (A2 & L2 & F2). split; [congruence|]. split; [congruence|].
  intros o ss Ho Hb. apply F2; [done|]. by apply F1.
Qed.

Lemma within_ok s h h' : within s h h' -> heap_ok h -> heap_ok h'.
Proof. intros (Ha & Hl & _). unfold heap_ok. by rewrite Ha, Hl. Qed.

Lemma block_bounds h s ss : heap_ok h -> block_at h s ss -> 0 <= s /\ 0 < zlen ss /\ s + sz * zlen ss < 2 ^ 62.
Proof.
  intros Hh (Hl & _). destruct (al_block _ _ _ _ Hh Hl) as (H1 & H2 & H3 & _). pose proof sz_pos. nia.
Qed.

Lemma zlen_bound h s ss : heap_ok h -> block_at h s ss -> zlen ss < 2 ^ 62.
Proof. intros Hh Hb. pose proof (block_bounds _ _ _ Hh Hb). pose proof sz_pos. nia. Qed.

Lemma to_ptr_ok h s ss k : heap_ok h -> block_at h s ss -> 0 <= k <= zlen ss ->
  to_ptr mb h (s + sz * k) = Some (s + sz * k) /\
  traits_pointer_to_offset mb (hp_alloc h) (Some (s + sz * k)) = s + sz * k.
Proof.
  intros Hh (Hl & _) Hk. destruct (al_block _ _ _ _ Hh Hl) as (_ & _ & _ & _ & Hp). apply Hp.
  pose proof sz_pos. nia.
Qed.

Lemma to_ptr_null h : heap_ok h -> to_ptr mb h (-1) = None /\ traits_pointer_to_offset mb (hp_alloc h) None = -1.
Proof. intros Hh. by eapply al_null. Qed.

Lemma ptr_add_ok s i k : ptr_add sz (Some (s + sz * i)) k = Ok (Some (s + sz * (i + k))).
Proof. unfold ptr_add. do 2 f_equal. lia. Qed.

Lemma ptr_add_start s k : ptr_add sz (Some s) k = Ok (Some (s + sz * k)).
Proof. done. Qed.

Lemma ptr_sub_ok s i j : ptr_sub sz (Some (s + sz * i)) (Some (s + sz * j)) = Ok (i - j).
Proof.
  unfold ptr_sub. pose proof sz_pos. replace (s + sz * i - (s + sz * j)) with ((i - j) * sz) by lia.
  rewrite Z_mod_mult, Z.div_mul by lia. done.
Qed.

Lemma owned_ok h s ss i : heap_ok h -> block_at h s ss -> 0 <= i < zlen ss -> owned sz h (s + sz * i) = true.
Proof.
  intros Hh (Hl & _) Hi. unfold owned. apply existsb_exists. exists (s, sz * zlen ss). split.
  { apply list_elem_of_In. by apply elem_of_map_to_list. }
  cbn [fst snd]. pose proof sz_pos. gcase; nia.
Qed.

Lemma read_ok h s ss i x : heap_ok h -> block_at h s ss -> 0 <= i -> ss !! Z.to_nat i = Some (Some x) ->
  read sz h (Some (s + sz * i)) = Ok x.
Proof.
  intros Hh Hb Hi Hx. pose proof (lookup_lt_Some _ _ _ Hx). unfold read. cbn [must mbind outcome_bind].
  rewrite (owned_ok h s ss) by (done || (unfold zlen; lia)). cbn [require mbind outcome_bind].
  destruct Hb as [_ Hc]. specialize (Hc _ _ Hx). rewrite Z2Nat.id in Hc by done. by rewrite Hc.
Qed.

(** Changing one place of a block. *)
Lemma set_cell_ok h s ss i c (cells : gmap Z T) : heap_ok h -> block_at h s ss -> 0 <= i < zlen ss ->
  (forall a, a <> s + sz * i -> cells !! a = hp_cells h !! a) -> cells !! (s + sz * i) = c ->
  block_at (set_cells h cells) s (<[Z.to_nat i := c]> ss) /\ within s h (set_cells h cells).
Proof.
  intros Hh Hb Hi Hne Heq. pose proof sz_pos as Hsz. split.
  - destruct Hb as [Hl Hc]. split; [by rewrite zlen_insert|]. intros j d Hj. cbn [hp_cells set_cells].
    destruct (decide (j = Z.to_nat i)) as [->|Hji].
    + rewrite list_lookup_insert_eq in Hj by (unfold zlen in *; lia). injection Hj as <-.
      by rewrite Z2Nat.id by lia.
    + rewrite list_lookup_insert_ne in Hj by done. rewrite Hne by nia. by apply Hc.
  - split; [done|]. split; [done|]. intros o st Ho [Hlo Hco]. split; [done|]. intros j d Hj.
    cbn [hp_cells set_cells]. rewrite Hne; [by apply Hco|].
    destruct (al_disjoint _ _ _ _ _ _ Hh Hlo (proj1 Hb) Ho);
      pose proof (lookup_lt_Some _ _ _ Hj); unfold zlen in *; nia.
Qed.

Lemma construct_ok h s ss i x : heap_ok h -> block_at h s ss -> 0 <= i < zlen ss ->
  exists h', m_construct_at sz h (Some (s + sz * i)) x = Ok h' /\
    block_at h' s (<[Z.to_nat i := Some x]> ss) /\ within s h h'.
Proof.
  intros Hh Hb Hi. unfold m_construct_at. cbn [must mbind outcome_bind].
  rewrite (owned_ok h s ss) by done. cbn [require mbind outcome_bind]. eexists; split; [done|].
  apply set_cell_ok; try done; intros; [by rewrite lookup_insert_ne|by rewrite lookup_insert_eq].
Qed.

Lemma destroy_ok h s ss i x : heap_ok h -> block_at h s ss -> 0 <= i -> ss !! Z.to_nat i = Some (Some x) ->
  exists h', destroy_at sz h (Some (s + sz * i)) = Ok h' /\
    block_at h' s (<[Z.to_nat i := None]> ss) /\ within s h h'.
Proof.
  intros Hh Hb Hi Hx. pose proof (lookup_lt_Some _ _ _ Hx). unfold destroy_at. cbn [must mbind outcome_bind].
  rewrite (read_ok h s ss i x) by done. cbn [mbind outcome_bind]. eexists; split; [done|].
  apply set_cell_ok; try done; intros; [unfold zlen; lia|by rewrite lookup_delete_ne|by rewrite lookup_delete_eq].
Qed.

Lemma zsplit_at {B} (l : list B) n : 0 < n <= zlen l ->
  exists l1 z, l = l1 ++ z :: drop (Z.to_nat n) l /\ zlen l1 = n - 1.
Proof.
  intros Hn. destruct (zlookup_is_Some l (n - 1)) as [z Hz]; [lia|].
  unfold zlookup in Hz. rewrite (proj2 (Z.leb_le 0 (n - 1))) in Hz by lia.
  exists (take (Z.to_nat (n - 1)) l), z. replace (Z.to_nat n) with (S (Z.to_nat (n - 1))) by lia.
  rewrite (take_drop_middle _ _ _ Hz). split; [done|]. unfold zlen in *. rewrite length_take. lia.
Qed.

Lemma lookup_some_middle {B} (a b : list B) (c : list (option B)) i x : b !! i = Some x ->
  ((Some <$> a) ++ (Some <$> b) ++ c) !! (Z.to_nat (zlen a) + i)%nat = Some (Some x).
Proof.
  intros Hi. pose proof (lookup_lt_Some _ _ _ Hi). rewrite lookup_app_r by (rewrite length_fmap; unfold zlen; lia).
  rewrite length_fmap. replace (_ - length a)%nat with i by (unfold zlen; lia).
  rewrite lookup_app_l by (by rewrite length_fmap). by rewrite list_lookup_fmap, Hi.
Qed.

Lemma insert_middle {B} (a : list B) (m : B) (c : list B) x n : zlen a = n ->
  <[Z.to_nat n := x]> (a ++ m :: c) = a ++ x :: c.
Proof. intros <-. rewrite to_nat_zlen, insert_app_r_alt by lia. by rewrite Nat.sub_diag. Qed.

(** * Loops over the places of a block *)
Lemma list_loop_ok xs : forall h s a m c, heap_ok h -> block_at h s (a ++ m ++ c) -> zlen m = zlen xs ->
  exists h', list_loop sz h (Some (s + sz * zlen a)) xs = Ok h' /\ block_at h' s (a ++ (Some <$> xs) ++ c) /\ within s h h'.
Proof.
  induction xs as [|x xs IH]; intros h s a m c Hh Hb Hm.
  - destruct m; [|rewrite zlen_cons, zlen_nil in Hm; pose proof (zlen_nonneg m); lia].
    exists h. split; [done|]. split; [done|]. apply within_refl.
  - destruct m as [|y m]; [rewrite zlen_cons, zlen_nil in Hm; pose proof (zlen_nonneg xs); lia|].
    rewrite !zlen_cons in Hm. cbn [list_loop app] in *.
    destruct (construct_ok h s (a ++ y :: m ++ c) (zlen a) x) as (h1 & -> & Hb1 & Hw1); [done|done| |].
    { rewrite zlen_app, zlen_cons. pose proof (zlen_nonneg a). pose proof (zlen_nonneg (m ++ c)). lia. }
    rewrite insert_middle in Hb1 by done. cbn [mbind outcome_bind]. rewrite ptr_add_ok. cbn [mbind outcome_bind].
    destruct (IH h1 s (a ++ [Some x]) m c) as (h' & Hl & Hb' & Hw'); [by eapply within_ok|by rewrite <- app_assoc|lia|].
    rewrite zlen_app in Hl. exists h'. split; [exact Hl|]. rewrite <- app_assoc in Hb'. split; [exact Hb'|].
    by eapply within_trans.
Qed.

Lemma fill_loop_list n : forall (h : heap) p x, fill_loop sz n h p x = list_loop sz h p (replicate n x).
Proof.
  induction n as [|n IH]; intros h p x; [done|]. cbn [fill_loop list_loop replicate].
  destruct (m_construct_at sz h p x); [|done..]. cbn [mbind outcome_bind].
  destruct (ptr_add sz p 1); [|done..]. apply IH.
Qed.

(** Copying from another block writes the values it holds. *)
Lemma copy_loop_list xs : forall h s i s2 a2 c2 ss, heap_ok h -> s <> s2 ->
  block_at h s ss -> 0 <= i -> i + zlen xs <= zlen ss ->
  block_at h s2 (a2 ++ (Some <$> xs) ++ c2) ->
  copy_loop sz (length xs) h (Some (s + sz * i)) (Some (s2 + sz * zlen a2)) = list_loop sz h (Some (s + sz * i)) xs.
Proof.
  induction xs as [|x xs IH]; intros h s i s2 a2 c2 ss Hh Hne Hb Hi Hle Hb2; [done|].
  rewrite zlen_cons in Hle. pose proof (zlen_nonneg xs). cbn [copy_loop list_loop length fmap list_fmap app] in *.
  rewrite (read_ok h s2 _ (zlen a2) x Hh Hb2) by (try apply zlen_nonneg; by rewrite to_nat_zlen, list_lookup_middle).
  cbn [mbind outcome_bind]. destruct (construct_ok h s ss i x Hh Hb ltac:(lia)) as (h1 & -> & Hb1 & Hw1).
  cbn [mbind outcome_bind]. rewrite !ptr_add_ok. cbn [mbind outcome_bind].
  replace (zlen a2 + 1) with (zlen (a2 ++ [Some x])) by (rewrite zlen_app; done).
  apply (IH h1 s (i + 1) s2 (a2 ++ [Some x]) c2 (<[Z.to_nat i := Some x]> ss)); try done; try lia.
  - by eapply within_ok.
  - rewrite zlen_insert. lia.
  - rewrite <- app_assoc. apply Hw1; [congruence|exact Hb2].
Qed.

Lemma destroy_loop_ok xs : forall h s a c, heap_ok h -> block_at h s (a ++ (Some <$> xs) ++ c) ->
  exists h', destroy_loop sz (length xs) h (Some (s + sz * zlen a)) = Ok h' /\
    block_at h' s (a ++ replicate (length xs) None ++ c) /\ within s h h'.
Proof.
  induction xs as [|x xs IH]; intros h s a c Hh Hb.
  - exists h. split; [done|]. split; [done|]. apply within_refl.
  - cbn [destroy_loop length fmap list_fmap app] in *.
    destruct (destroy_ok h s _ (zlen a) x Hh Hb) as (h1 & -> & Hb1 & Hw1);
      [apply zlen_nonneg|by rewrite to_nat_zlen, list_lookup_middle|].
    rewrite insert_middle in Hb1 by done. cbn [mbind outcome_bind]. rewrite ptr_add_ok. cbn [mbind outcome_bind].
    destruct (IH h1 s (a ++ [None]) c) as (h' & Hl & Hb' & Hw'); [by eapply within_ok|by rewrite <- app_assoc|].
    rewrite zlen_app in Hl. exists h'. split; [exact Hl|]. rewrite <- app_assoc in Hb'. split; [exact Hb'|].
    by eapply within_trans.
Qed.

(** * Allocation and deallocation *)

(** [m] yields a result that satisfies [P], or throws for lack of memory. *)
Definition runs {R} (P : R -> Prop) (m : outcome R) : Prop :=
  m = Throw bad_alloc \/ m = Throw length_error \/ exists r, m = Ok r /\ P r.

Lemma runs_ok {R} (P : R -> Prop) r : P r -> runs P (Ok r).
Proof. intros. right; right. by exists r. Qed.

Lemma runs_bind {R S} (P : R -> Prop) (Q : S -> Prop) m k :
  runs P m -> (forall r, P r -> runs Q (k r)) -> runs Q (m ≫= k).
Proof. intros [->|[->|(r & -> & Hr)]] Hk; [by left|right; by left|]. by apply Hk. Qed.

Lemma runs_mono {R} (P Q : R -> Prop) m : runs P m -> (forall r, P r -> Q r) -> runs Q m.
Proof. intros [->|[->|(r & -> & Hr)]] Hk; [by left|right; by left|]. right; right. eauto. Qed.

(** A block whatever it holds. *)
Lemma block_exists h o b : heap_ok h -> hp_live h !! o = Some b -> exists ss, block_at h o ss /\ b = sz * zlen ss.
Proof.
  intros Hh Hl. destruct (al_block _ _ _ _ Hh Hl) as (_ & Hb & _ & [n Hn] & _). pose proof sz_pos.
  assert (0 <= n) by nia.
  exists ((fun i => hp_cells h !! (o + sz * i)) <$> seqZ 0 n).
  assert (zlen ((fun i => hp_cells h !! (o + sz * i)) <$> seqZ 0 n) = n) as Hz.
  { unfold zlen. rewrite length_fmap, length_seqZ. lia. }
  split; [|rewrite Hz; lia]. split; [rewrite Hz; by rewrite Hl, Hn, Z.mul_comm|].
  intros i c Hi. apply list_lookup_fmap_Some in Hi as (k & -> & Hk).
  apply lookup_seqZ in Hk as [-> _]. f_equal; lia.
Qed.

Lemma allocate_ok h n : heap_ok h -> 0 < n -> n * sz < 2 ^ 62 ->
  runs (fun '(o, b, h1) => heap_ok h1 /\ hp_live h !! o = None /\ frame o h h1 /\ 0 <= o /\
    exists ss, block_at h1 o ss /\ b = sz * zlen ss /\ n <= zlen ss) (m_allocate mb sz h n).
Proof.
  intros Hh Hn Hb. unfold m_allocate. rewrite (proj2 (Z.eqb_neq n 0)) by lia.
  destruct (al_allocate (hp_alloc h) (hp_live h) n Hh Hn Hb) as [->|(o & b & a' & -> & Hinv & Hfresh & Hle)];
    [by left|].
  cbn [mbind outcome_bind]. apply runs_ok. set (h1 := {| hp_alloc := a' |}).
  assert (heap_ok h1) as Hh1 by exact Hinv. split; [done|]. split; [done|].
  split.
  { intros s ss Hs [Hl Hc]. split; [|done]. cbn [hp_live h1]. by rewrite lookup_insert_ne. }
  destruct (block_exists h1 o b Hh1) as (ss & Hbl & ->); [by cbn [hp_live h1]; rewrite lookup_insert_eq|].
  split; [by eapply block_bounds|]. exists ss. split; [done|]. split; [done|]. pose proof sz_pos. nia.
Qed.

Lemma deallocate_heap_ok h s ss : heap_ok h -> block_at h s ss ->
  exists h1, m_deallocate mb h (Some s) = Ok h1 /\ heap_ok h1 /\ frame s h h1 /\ hp_live h1 = delete s (hp_live h).
Proof.
  intros Hh [Hl Hc]. unfold m_deallocate. rewrite Hl. cbn [must mbind outcome_bind].
  destruct (al_deallocate _ _ _ _ Hh Hl) as (a' & -> & Hinv). cbn [mbind outcome_bind].
  eexists. split; [done|]. split; [exact Hinv|]. split; [|done].
  intros o so Ho [Hlo Hco]. split; [cbn [hp_live]; by rewrite lookup_delete_ne|].
  intros i c Hi. cbn [hp_cells]. pose proof (lookup_lt_Some _ _ _ Hi). pose proof sz_pos.
  rewrite map_lookup_filter. rewrite (Hco _ _ Hi). destruct c as [x|]; [|done]. cbn [mbind option_bind].
  rewrite option_guard_True; [done|]. cbn [fst].
  destruct (al_disjoint _ _ _ _ _ _ Hh Hlo Hl Ho); unfold zlen in *; nia.
Qed.

(** * Vectors *)

(** [v] owns a block that holds [xs] and then places that hold [rest]. *)
Definition vrep (h : heap) (v : vector) (xs : list T) (rest : list (option T)) : Prop :=
  block_at h (vd_start v) ((Some <$> xs) ++ rest) /\
  vd_finish v = vd_start v + sz * zlen xs /\ vd_end v = vd_start v + sz * (zlen xs + zlen rest).

Definition vec_holds (h : heap) (v : vector) (xs : list T) : Prop :=
  (v = null_vector /\ xs = []) \/ exists rest, vrep h v xs rest.

(** The vector [v] of [h] has become [v'] of [h'], which holds [xs']; nothing else
    has changed, and a new block was free before. *)
Definition upd (h : heap) (v : vector) (h' : heap) (v' : vector) (xs' : list T) : Prop :=
  heap_ok h' /\ vec_holds h' v' xs' /\ frame (vd_start v) h h' /\
  (vd_start v' = vd_start v \/ vd_start v' = -1 \/ hp_live h !! vd_start v' = None).

Lemma zlen_fmap {B C} (f : B -> C) l : zlen (f <$> l) = zlen l.
Proof. unfold zlen. by rewrite length_fmap. Qed.

Lemma vrep_bounds h v xs rest : heap_ok h -> vrep h v xs rest ->
  0 <= vd_start v /\ 0 < zlen xs + zlen rest /\ vd_start v + sz * (zlen xs + zlen rest) < 2 ^ 62.
Proof.
  intros Hh (Hb & _). pose proof (block_bounds _ _ _ Hh Hb) as H. rewrite zlen_app, zlen_fmap in H. done.
Qed.

Lemma vrep_length h v xs rest : heap_ok h -> vrep h v xs rest -> zlen xs + zlen rest < 2 ^ 62.
Proof. intros Hh Hv. pose proof (vrep_bounds _ _ _ _ Hh Hv). pose proof sz_pos. nia. Qed.

Lemma vrep_ptr h v xs rest k : heap_ok h -> vrep h v xs rest -> 0 <= k <= zlen xs + zlen rest ->
  to_ptr mb h (vd_start v + sz * k) = Some (vd_start v + sz * k) /\
  traits_pointer_to_offset mb (hp_alloc h) (Some (vd_start v + sz * k)) = vd_start v + sz * k.
Proof. intros Hh (Hb & _) Hk. eapply to_ptr_ok; [done..|]. rewrite zlen_app, zlen_fmap. done. Qed.

Lemma vrep_start_ptr h v xs rest : heap_ok h -> vrep h v xs rest -> start_ptr mb h v = Some (vd_start v).
Proof.
  intros Hh Hv. pose proof (zlen_nonneg xs). pose proof (zlen_nonneg rest).
  pose proof (proj1 (vrep_ptr h v xs rest 0 Hh Hv ltac:(lia))) as Hp. rewrite Z.mul_0_r, Z.add_0_r in Hp. exact Hp.
Qed.

Lemma vrep_finish_ptr h v xs rest : heap_ok h -> vrep h v xs rest ->
  finish_ptr mb h v = Some (vd_start v + sz * zlen xs).
Proof.
  intros Hh Hv. pose proof (zlen_nonneg xs). pose proof (zlen_nonneg rest). unfold finish_ptr.
  rewrite (proj1 (proj2 Hv)). eapply vrep_ptr; [done..|lia].
Qed.

Lemma null_ptrs h : heap_ok h ->
  start_ptr mb h null_vector = None /\ finish_ptr mb h null_vector = None /\ to_ptr mb h (vd_end null_vector) = None.
Proof. intros Hh. repeat split; by apply to_ptr_null. Qed.

Lemma ptr_sub_start s k : ptr_sub sz (Some (s + sz * k)) (Some s) = Ok k.
Proof. pose proof (ptr_sub_ok s k 0) as H. rewrite Z.mul_0_r, Z.add_0_r, Z.sub_0_r in H. exact H. Qed.

Lemma vec_size_ok h v xs : heap_ok h -> vec_holds h v xs -> vec_size mb sz h v = Ok (zlen xs).
Proof.
  intros Hh [[-> ->]|[rest Hv]]; unfold vec_size.
  - destruct (null_ptrs h Hh) as (-> & -> & _). done.
  - rewrite (vrep_start_ptr _ _ _ _ Hh Hv), (vrep_finish_ptr _ _ _ _ Hh Hv), ptr_sub_start. cbn [mbind outcome_bind].
    pose proof (vrep_length _ _ _ _ Hh Hv). pose proof (zlen_nonneg xs). pose proof (zlen_nonneg rest).
    rewrite u64_small by lia. done.
Qed.

Lemma vrep_capacity h v xs rest : heap_ok h -> vrep h v xs rest -> vec_capacity mb sz h v = Ok (zlen xs + zlen rest).
Proof.
  intros Hh Hv. pose proof (vrep_length _ _ _ _ Hh Hv). pose proof (zlen_nonneg xs). pose proof (zlen_nonneg rest).
  unfold vec_capacity. rewrite (vrep_start_ptr _ _ _ _ Hh Hv), (proj2 (proj2 Hv)).
  rewrite (proj1 (vrep_ptr _ _ _ _ (zlen xs + zlen rest) Hh Hv ltac:(lia))), ptr_sub_start. cbn [mbind outcome_bind].
  rewrite u64_small by lia. done.
Qed.

Lemma null_capacity h : heap_ok h -> vec_capacity mb sz h null_vector = Ok 0.
Proof. intros Hh. unfold vec_capacity. destruct (null_ptrs h Hh) as (-> & _ & ->). done. Qed.

Lemma vec_capacity_ok h v xs : heap_ok h -> vec_holds h v xs -> exists c, vec_capacity mb sz h v = Ok c /\ zlen xs <= c.
Proof.
  intros Hh [[-> ->]|[rest Hv]].
  - exists 0. split; [by apply null_capacity|done].
  - exists (zlen xs + zlen rest). split; [by eapply vrep_capacity|]. pose proof (zlen_nonneg rest). lia.
Qed.

Lemma vec_length h v xs : heap_ok h -> vec_holds h v xs -> zlen xs < 2 ^ 62.
Proof.
  intros Hh [[-> ->]|[rest Hv]]; [done|]. pose proof (vrep_length _ _ _ _ Hh Hv). pose proof (zlen_nonneg rest). lia.
Qed.

Lemma vrep_end h v xs rest : heap_ok h -> vrep h v xs rest -> vec_end mb sz h v = Ok (Some (vd_start v + sz * zlen xs)).
Proof.
  intros Hh Hv. unfold vec_end. rewrite (vec_size_ok h v xs) by (done || (right; by exists rest)).
  cbn [mbind outcome_bind]. by rewrite (vrep_start_ptr _ _ _ _ Hh Hv).
Qed.

(** A frame keeps the vectors of other blocks. *)
Lemma vec_holds_frame s h h' w ys : heap_ok h' -> frame s h h' -> vec_holds h w ys -> vd_start w <> s -> vec_holds h' w ys.
Proof.
  intros Hh Hf [[-> ->]|(rest & Hb & Hv)] Hne; [by left|]. right. exists rest. split; [by apply Hf|done].
Qed.

Lemma upd_refl h v xs : heap_ok h -> vec_holds h v xs -> upd h v h v xs.
Proof. intros Hh Hv. split; [done|]. split; [done|]. split; [by intros o ss _ Hb|by left]. Qed.

(** The result of writing inside the block of the vector. *)
Lemma upd_within h v xs rest h' v' xs' rest' :
  heap_ok h -> vrep h v xs rest -> within (vd_start v) h h' -> vd_start v' = vd_start v ->
  vrep h' v' xs' rest' -> upd h v h' v' xs'.
Proof.
  intros Hh Hv Hw Hs Hv'. split; [by eapply within_ok|]. split; [right; by exists rest'|].
  split; [apply Hw|]. by left.
Qed.

Lemma upd_trans h v h1 v1 xs1 h2 v2 xs2 :
  heap_ok h -> upd h v h1 v1 xs1 -> upd h1 v1 h2 v2 xs2 -> upd h v h2 v2 xs2.
Proof.
  intros Hh (Hh1 & _ & Hf1 & Hs1) (Hh2 & Hv2 & Hf2 & Hs2). split; [done|]. split; [done|]. split.
  - intros o ss Ho Hb. apply Hf2; [|by apply Hf1]. intros ->.
    destruct Hs1 as [?|[Hs1|Hs1]]; [done| |by destruct Hb; congruence].
    pose proof (block_bounds _ _ _ Hh Hb). lia.
  - destruct Hs2 as [->|[Hs2|Hs2]]; [done|by right; left|].
    destruct (decide (vd_start v2 = vd_start v)); [by left|]. right; right.
    destruct (hp_live h !! vd_start v2) as [b|] eqn:E; [|done].
    destruct (block_exists h _ b Hh E) as (ss & Hb & _). apply Hf1 in Hb; [|done]. destruct Hb. congruence.
Qed.

(** * Reallocation *)

(** Moving the elements of [v] to the front of a new block. *)
Lemma move_elements_ok h v xs o h1 m1 m2 r :
  heap_ok h -> vec_holds h v xs -> heap_ok h1 -> frame o h h1 -> block_at h1 o (m1 ++ m2 ++ r) -> zlen m1 = zlen xs -> vd_start v <> o ->
  exists h2, m_uninitialized_move sz h1 (start_ptr mb h v) (finish_ptr mb h v) (Some o) = Ok (Some (o + sz * zlen xs), h2) /\
    block_at h2 o ((Some <$> xs) ++ m2 ++ r) /\ within o h1 h2.
Proof.
  intros Hh Hv Hh1 Hfr Hb Hm1 Hne. pose proof (zlen_nonneg xs).
  assert (zlen xs <= zlen (m1 ++ m2 ++ r)) by (rewrite (zlen_app m1); pose proof (zlen_nonneg (m2 ++ r)); lia).
  destruct (list_loop_ok xs h1 o [] m1 (m2 ++ r) Hh1 Hb Hm1) as (h2 & Hloop & Hb2 & Hw2).
  rewrite zlen_nil, Z.mul_0_r, Z.add_0_r in Hloop.
  exists h2. split; [|done]. unfold m_uninitialized_move, rounds.
  destruct Hv as [[-> ->]|[rest Hv]].
  - destruct (null_ptrs h Hh) as (-> & -> & _). injection Hloop as <-.
    change (zlen []) with 0. cbn. do 3 f_equal; lia.
  - rewrite (vrep_start_ptr _ _ _ _ Hh Hv), (vrep_finish_ptr _ _ _ _ Hh Hv), ptr_sub_start.
    cbn [mbind outcome_bind]. destruct (Z.ltb_spec (zlen xs) 0); [lia|]. cbn [mbind outcome_bind].
    rewrite to_nat_zlen.
    pose proof (copy_loop_list xs h1 o 0 (vd_start v) [] rest (m1 ++ m2 ++ r)) as Hcopy.
    change (zlen []) with 0 in Hcopy. replace (o + sz * 0) with o in Hcopy by lia.
    replace (vd_start v + sz * 0) with (vd_start v) in Hcopy by lia. rewrite Hcopy, Hloop; try done; try lia.
    apply Hfr; [congruence|]. apply Hv.
Qed.

(** Giving back the old block, if there is one. *)
Lemma free_elements_ok h v xs h3 :
  heap_ok h -> vec_holds h v xs -> heap_ok h3 -> vec_holds h3 v xs ->
  exists h4, m_deallocate mb h3 (start_ptr mb h v) = Ok h4 /\ heap_ok h4 /\ frame (vd_start v) h3 h4.
Proof.
  intros Hh Hv Hh3 Hv3. destruct Hv3 as [[-> ->]|[rest Hv3]].
  - destruct (null_ptrs h Hh) as (-> & _ & _). exists h3. split; [done|]. split; [done|]. by intros ? ? _ ?.
  - destruct (deallocate_heap_ok h3 (vd_start v) _ Hh3 (proj1 Hv3)) as (h4 & Hd & Hh4 & Hf4 & _).
    exists h4. destruct Hv as [[-> _]|[rest' Hv]].
    + cbn in *. destruct (block_bounds _ _ _ Hh3 (proj1 Hv3)). simpl in *. lia.
    + by rewrite (vrep_start_ptr _ _ _ _ Hh Hv).
Qed.

(** After an allocation of block [o], moving the elements and constructing [ys]
    behind them, the old storage is freed and the new vector holds both. *)
Lemma realloc_core h v xs o b h1 ss ys :
  heap_ok h -> vec_holds h v xs -> heap_ok h1 -> hp_live h !! o = None -> frame o h h1 -> block_at h1 o ss ->
  b = sz * zlen ss -> zlen xs + zlen ys <= zlen ss -> vd_start v <> o ->
  exists h2 h3 h4, m_uninitialized_move sz h1 (start_ptr mb h v) (finish_ptr mb h v) (to_ptr mb h1 o) =
      Ok (Some (o + sz * zlen xs), h2) /\
    list_loop sz h2 (Some (o + sz * zlen xs)) ys = Ok h3 /\
    vec_size mb sz h2 v = Ok (zlen xs) /\ (exists c, vec_capacity mb sz h2 v = Ok c) /\ (exists c, vec_capacity mb sz h3 v = Ok c) /\
    m_deallocate mb h3 (start_ptr mb h v) = Ok h4 /\
    traits_pointer_to_offset mb (hp_alloc h4) (Some (o + sz * (zlen xs + zlen ys))) = o + sz * (zlen xs + zlen ys) /\
    let v' := {| vd_start := o; vd_finish := o + sz * (zlen xs + zlen ys); vd_end := o + b |} in
    upd h v h4 v' (xs ++ ys) /\ exists rest, vrep h4 v' (xs ++ ys) rest /\ zlen xs + zlen ys + zlen rest = zlen ss.
Proof.
  intros Hh Hv Hh1 Hfresh Hfr Hb -> Hle Hne. pose proof (zlen_nonneg xs). pose proof (zlen_nonneg ys).
  pose proof (vec_holds_frame _ _ _ _ _ Hh1 Hfr Hv Hne) as Hv1.
  assert (to_ptr mb h1 o = Some o) as Hptr.
  { pose proof (proj1 (to_ptr_ok h1 o ss 0 Hh1 Hb ltac:(lia))) as Hp. by rewrite Z.mul_0_r, Z.add_0_r in Hp. }
  rewrite Hptr.
  (* the places of the new block *)
  assert (exists m1 m2 r, ss = m1 ++ m2 ++ r /\ zlen m1 = zlen xs /\ zlen m2 = zlen ys) as (m1 & m2 & r & -> & Hm1 & Hm2).
  { exists (take (length xs) ss), (take (length ys) (drop (length xs) ss)), (drop (length xs + length ys) ss).
    unfold zlen in *. rewrite <- drop_drop, !take_drop, !length_take, length_drop. split; [done|lia]. }
  (* moving *)
  destruct (move_elements_ok h v xs o h1 m1 m2 r) as (h2 & Hmove & Hb2 & Hw2); [done..|].
  pose proof (within_ok _ _ _ Hw2 Hh1) as Hh2.
  destruct (list_loop_ok ys h2 o (Some <$> xs) m2 r Hh2 Hb2 Hm2) as (h3 & Hloop & Hb3 & Hw3).
  rewrite zlen_fmap in Hloop. pose proof (within_ok _ _ _ Hw3 Hh2) as Hh3.
  assert (vec_holds h2 v xs) as Hv2 by (eapply vec_holds_frame; [done|apply Hw2|done|done]).
  assert (vec_holds h3 v xs) as Hv3 by (eapply vec_holds_frame; [done|apply Hw3|done|done]).
  (* freeing *)
  destruct (free_elements_ok h v xs h3) as (h4 & Hd & Hh4 & Hf4); [done..|].
  assert (block_at h4 o ((Some <$> (xs ++ ys)) ++ r)) as Hb4.
  { apply Hf4; [congruence|]. rewrite fmap_app, <- app_assoc. exact Hb3. }
  assert (zlen (m1 ++ m2 ++ r) = zlen xs + zlen ys + zlen r) as Hz by (rewrite !zlen_app; lia).
  exists h2, h3, h4. split; [exact Hmove|]. split; [exact Hloop|]. split; [by apply vec_size_ok|].
  split; [destruct (vec_capacity_ok _ _ _ Hh2 Hv2) as (c & ? & _); by exists c|].
  split; [destruct (vec_capacity_ok _ _ _ Hh3 Hv3) as (c & ? & _); by exists c|]. split; [done|].
  split. { eapply (to_ptr_ok h4 o); [done..|]. rewrite zlen_app, zlen_fmap, zlen_app. pose proof (zlen_nonneg r). lia. }
  cbv zeta.
  assert (vrep h4 {| vd_start := o; vd_finish := o + sz * (zlen xs + zlen ys); vd_end := o + sz * zlen (m1 ++ m2 ++ r) |} (xs ++ ys) r) as Hr.
  { split; [done|]. cbn [vd_start vd_finish vd_end]. rewrite Hz, zlen_app. done. }
  split; [|exists r; split; [done|lia]].
  split; [done|]. split; [right; by exists r|]. cbn [vd_start]. split; [|by right; right].
  intros p st Hp Hbp. apply Hf4; [done|]. apply Hw3; [|apply Hw2; [|apply Hfr; [|done]]];
    intros ->; destruct Hbp; congruence.
Qed.

(** [n] elements, not more than [max_size], fit the address space. *)
Lemma max_size_bytes h n : heap_ok h -> 0 <= n <= vec_max_size mb sz h -> n * sz < 2 ^ 62.
Proof. intros Hh Hn. pose proof (al_max _ _ Hh). unfold vec_max_size in Hn. pose proof sz_pos. nia. Qed.

Lemma check_length_ok h v xs n : heap_ok h -> vec_holds h v xs -> 0 < n ->
  runs (fun len => zlen xs + n <= len <= vec_max_size mb sz h) (m_check_length mb sz h v n).
Proof.
  intros Hh Hv Hn. unfold m_check_length. rewrite (vec_size_ok _ _ _ Hh Hv). cbn [mbind outcome_bind].
  pose proof (al_max _ _ Hh) as Hmax. fold (vec_max_size mb sz h) in Hmax.
  pose proof (vec_length _ _ _ Hh Hv). pose proof (zlen_nonneg xs).
  assert (zlen xs <= vec_max_size mb sz h) as Hle.
  { destruct Hv as [[-> ->]|[rest Hv]]; [rewrite zlen_nil; lia|]. destruct Hv as ((Hl & _) & _).
    pose proof (al_block_max _ _ _ _ Hh Hl) as Hb. rewrite zlen_app, zlen_fmap in Hb. fold (vec_max_size mb sz h) in Hb.
    pose proof sz_pos. pose proof (zlen_nonneg rest). nia. }
  rewrite u64_small by lia. destruct (Z.ltb_spec (vec_max_size mb sz h - zlen xs) n); [by right; left|]. apply runs_ok.
  rewrite u64_small by lia. gcase; lia.
Qed.

Lemma start_fresh h v xs o : heap_ok h -> vec_holds h v xs -> 0 <= o -> hp_live h !! o = None -> vd_start v <> o.
Proof.
  intros Hh [[-> _]|(rest & (Hl & _) & _)] Ho Hf; [cbn; lia|]. intros Heq; congruence.
Qed.

Lemma realloc_append_ok h v xs x : heap_ok h -> vec_holds h v xs ->
  runs (fun '(v', h') => upd h v h' v' (xs ++ [x])) (m_realloc_append mb sz h v x).
Proof.
  intros Hh Hv. unfold m_realloc_append. eapply runs_bind; [by apply check_length_ok|]. intros len [Hlen Hmax].
  pose proof (zlen_nonneg xs). eapply runs_bind; [apply allocate_ok; [done|lia|apply (max_size_bytes h); [done|lia]]|].
  intros [[o b] h1] (Hh1 & Hfresh & Hfr & Ho & ss & Hb & -> & Hle).
  destruct (realloc_core h v xs o _ h1 ss [x] Hh Hv Hh1 Hfresh Hfr Hb eq_refl) as
    (h2 & h3 & h4 & -> & Hl & _ & _ & [c Hc] & Hd & Hoff & Hupd & _); [change (zlen [x]) with 1; lia|exact (start_fresh h v xs o Hh Hv Ho Hfresh)|].
  cbn [mbind outcome_bind]. cbn [list_loop] in Hl. apply bind_Ok in Hl as (h3' & Hx & Hl). rewrite Hx.
  rewrite ptr_add_ok in Hl. injection Hl as ->. cbn [mbind outcome_bind]. rewrite ptr_add_ok, Hc. cbn [mbind outcome_bind].
  rewrite Hd. cbn [mbind outcome_bind]. change (zlen [x]) with 1 in *. rewrite Hoff. by apply runs_ok.
Qed.

Lemma realloc_append_n_ok h v xs n x : heap_ok h -> vec_holds h v xs -> zlen xs < n ->
  runs (fun '(v', h') => upd h v h' v' (xs ++ replicate (Z.to_nat (n - zlen xs)) x)) (m_realloc_append_n mb sz h v n x).
Proof.
  intros Hh Hv Hn. pose proof (zlen_nonneg xs). unfold m_realloc_append_n.
  eapply runs_bind; [apply check_length_ok; [done..|lia]|]. intros len [Hlen Hmax].
  eapply runs_bind; [apply allocate_ok; [done|lia|apply (max_size_bytes h); [done|lia]]|].
  intros [[o b] h1] (Hh1 & Hfresh & Hfr & Ho & ss & Hb & -> & Hle).
  assert (zlen (replicate (Z.to_nat (n - zlen xs)) x) = n - zlen xs) as Hrep by (apply zlen_replicate; lia).
  destruct (realloc_core h v xs o _ h1 ss (replicate (Z.to_nat (n - zlen xs)) x) Hh Hv Hh1 Hfresh Hfr Hb eq_refl) as
    (h2 & h3 & h4 & -> & Hl & Hsz & _ & [c Hc] & Hd & Hoff & Hupd & _); [lia|exact (start_fresh h v xs o Hh Hv Ho Hfresh)|].
  cbn [mbind outcome_bind]. rewrite Hsz. cbn [mbind outcome_bind]. rewrite fill_loop_list, Hl. cbn [mbind outcome_bind].
  rewrite ptr_add_ok, Hc. cbn [mbind outcome_bind]. rewrite Hd. cbn [mbind outcome_bind].
  rewrite Z.max_r by lia. rewrite Hrep in Hoff. rewrite Hrep in Hupd. rewrite Hoff. apply runs_ok. exact Hupd.
Qed.

(** A reallocation to room for [len] elements keeps the elements. *)
Lemma realloc_to_ok h v xs len : heap_ok h -> vec_holds h v xs -> zlen xs <= len <= vec_max_size mb sz h ->
  runs (fun '(v', h') => upd h v h' v' xs /\ (0 < len -> exists rest, vrep h' v' xs rest /\ len <= zlen xs + zlen rest))
    (m_realloc_to mb sz h v len).
Proof.
  intros Hh Hv Hlen. pose proof (zlen_nonneg xs). unfold m_realloc_to. destruct (decide (len = 0)) as [->|Hne].
  - assert (xs = []) as -> by (destruct xs; [done|rewrite zlen_cons in *; pose proof (zlen_nonneg xs); lia]).
    unfold m_allocate. cbn [Z.eqb mbind outcome_bind]. destruct (to_ptr_null h Hh) as [-> Hoff].
    destruct Hv as [[-> _]|[rest Hv]].
    + destruct (null_ptrs h Hh) as (-> & -> & _).
      assert (m_uninitialized_move sz h None None None = Ok (None, h)) as -> by done.
      cbn [mbind outcome_bind]. rewrite null_capacity by done. cbn [mbind outcome_bind m_deallocate]. rewrite Hoff.
      apply runs_ok. split; [|lia]. apply upd_refl; [done|by left].
    + rewrite (vrep_start_ptr _ _ _ _ Hh Hv), (vrep_finish_ptr _ _ _ _ Hh Hv). unfold m_uninitialized_move, rounds.
      rewrite ptr_sub_start. cbn [mbind outcome_bind]. change (zlen []) with 0.
      cbn [Z.ltb Z.compare mbind outcome_bind ptr_add].
      change (copy_loop sz (Z.to_nat 0) h None (Some (vd_start v))) with (Ok h).
      change (Z.of_nat (Z.to_nat 0) =? 0) with true. cbn [mbind outcome_bind].
      rewrite (vrep_capacity _ _ _ _ Hh Hv).
      cbn [mbind outcome_bind]. destruct (deallocate_heap_ok h _ _ Hh (proj1 Hv)) as (h1 & -> & Hh1 & Hf1 & Hl1).
      cbn [mbind outcome_bind]. rewrite (proj2 (to_ptr_null h1 Hh1)). apply runs_ok. split; [|lia].
      split; [done|]. split; [by left|]. split; [done|]. by right; left.
  - eapply runs_bind; [apply allocate_ok; [done|lia|apply (max_size_bytes h); [done|lia]]|].
    intros [[o b] h1] (Hh1 & Hfresh & Hfr & Ho & ss & Hb & -> & Hle).
    destruct (realloc_core h v xs o _ h1 ss [] Hh Hv Hh1 Hfresh Hfr Hb eq_refl) as
      (h2 & h3 & h4 & -> & Hl & _ & [c Hc] & _ & Hd & Hoff & Hupd & rest & Hrep & Hz);
      [change (zlen []) with 0; lia|exact (start_fresh h v xs o Hh Hv Ho Hfresh)|].
    injection Hl as <-. cbn [mbind outcome_bind]. rewrite Hc. cbn [mbind outcome_bind]. rewrite Hd. cbn [mbind outcome_bind].
    change (zlen []) with 0 in *. rewrite Z.add_0_r in *. rewrite Hoff. rewrite app_nil_r in *. apply runs_ok.
    split; [done|]. intros _. exists rest. split; [done|lia].
Qed.

(** A new vector with room for [n] elements. *)
Lemma create_storage_ok h n : heap_ok h -> 0 <= n -> n * sz < 2 ^ 62 ->
  runs (fun '(v, h1) => upd h null_vector h1 v [] /\
    ((n = 0 /\ v = null_vector) \/ exists rest, vrep h1 v [] rest /\ n <= zlen rest)) (m_create_storage mb sz h n).
Proof.
  intros Hh Hn Hb. unfold m_create_storage. destruct (decide (n = 0)) as [->|Hne].
  - unfold m_allocate. cbn [Z.eqb mbind outcome_bind]. apply runs_ok. split; [|by left].
    apply upd_refl; [done|by left].
  - eapply runs_bind; [apply allocate_ok; [done|lia|done]|].
    intros [[o b] h1] (Hh1 & Hfresh & Hfr & Ho & ss & Hbl & -> & Hle). apply runs_ok.
    assert (vrep h1 {| vd_start := o; vd_finish := o; vd_end := o + sz * zlen ss |} [] ss) as Hrep.
    { split; [done|]. cbn [vd_start vd_finish vd_end]. rewrite zlen_nil. lia. }
    split; [|right; by exists ss]. split; [done|]. split; [right; by exists ss|].
    cbn [vd_start null_vector]. split; [|by right; right]. intros p st Hp Hst. apply Hfr; [|done].
    intros ->. destruct Hst. congruence.
Qed.

(** Constructing [xs] behind the elements of a vector with room for them. *)
Lemma append_within h v xs rest ys : heap_ok h -> vrep h v xs rest -> zlen ys <= zlen rest ->
  exists h' rest', list_loop sz h (Some (vd_start v + sz * zlen xs)) ys = Ok h' /\ within (vd_start v) h h' /\
    vrep h' (set_finish v (vd_finish v + sz * zlen ys)) (xs ++ ys) rest' /\ zlen rest' = zlen rest - zlen ys.
Proof.
  intros Hh (Hb & Hf & He) Hle. pose proof (zlen_nonneg ys).
  assert (exists m c, rest = m ++ c /\ zlen m = zlen ys) as (m & c & -> & Hm).
  { exists (take (length ys) rest), (drop (length ys) rest). rewrite take_drop.
    unfold zlen in *. rewrite length_take. split; [done|lia]. }
  destruct (list_loop_ok ys h (vd_start v) (Some <$> xs) m c Hh Hb Hm) as (h' & Hl & Hb' & Hw).
  rewrite zlen_fmap in Hl. exists h', c. split; [done|]. split; [done|]. rewrite zlen_app in *. split; [|lia].
  split; [cbn [vd_start set_finish]; by rewrite fmap_app, <- app_assoc|]. cbn [vd_start vd_finish vd_end set_finish].
  rewrite zlen_app. lia.
Qed.

Lemma push_back_ok h v xs x : heap_ok h -> vec_holds h v xs ->
  runs (fun '(v', h') => upd h v h' v' (xs ++ [x])) (vec_push_back mb sz h v x).
Proof.
  intros Hh Hv. unfold vec_push_back. destruct Hv as [[-> ->]|[rest Hv]].
  { cbn [vd_finish vd_end null_vector Z.eqb negb]. apply realloc_append_ok; [done|by left]. }
  destruct (Z.eqb_spec (vd_finish v) (vd_end v)) as [Heq|Hne]; cbn [negb].
  { apply realloc_append_ok; [done|]. right. by exists rest. }
  rewrite (vrep_finish_ptr _ _ _ _ Hh Hv). pose proof (zlen_nonneg rest).
  destruct (append_within h v xs rest [x] Hh Hv) as (h' & rest' & Hl & Hw & Hv' & _).
  { change (zlen [x]) with 1. destruct Hv as (_ & Hf & He). rewrite Hf, He in Hne.
    destruct (decide (zlen rest = 0)) as [Hz|]; [rewrite Hz in Hne; lia|lia]. }
  cbn [list_loop] in Hl. apply bind_Ok in Hl as (h1 & -> & Hl). rewrite ptr_add_ok in Hl. injection Hl as ->.
  cbn [mbind outcome_bind]. apply runs_ok. change (zlen [x]) with 1 in Hv'. rewrite Z.mul_1_r in Hv'.
  by eapply upd_within.
Qed.

(** Storage for [n] elements filled with [ys]. *)
Lemma filled_storage_ok h v v1 h1 ys : heap_ok h -> upd h v h1 v1 [] ->
  (zlen ys = 0 /\ v1 = null_vector) \/ (exists rest, vrep h1 v1 [] rest /\ zlen ys <= zlen rest) ->
  exists h2, list_loop sz h1 (start_ptr mb h1 v1) ys = Ok h2 /\
    upd h v h2 (set_finish v1 (vd_finish v1 + zlen ys * sz)) ys.
Proof.
  intros Hh Hu Hroom. pose proof (proj1 Hu) as Hh1. destruct Hroom as [[Hz ->]|(rest & Hv & Hle)].
  - assert (ys = []) as -> by (destruct ys; [done|rewrite zlen_cons in Hz; pose proof (zlen_nonneg ys); lia]).
    exists h1. split; [done|]. exact Hu.
  - destruct (append_within h1 v1 [] rest ys Hh1 Hv Hle) as (h2 & rest' & Hl & Hw & Hv' & _).
    rewrite (vrep_start_ptr _ _ _ _ Hh1 Hv). change (zlen []) with 0 in Hl. rewrite Z.mul_0_r, Z.add_0_r in Hl.
    exists h2. split; [done|]. rewrite Z.mul_comm. eapply upd_trans; [done|done|]. by eapply upd_within.
Qed.

Lemma new_fill_ok h n x : heap_ok h -> 0 <= n -> n * sz < 2 ^ 62 ->
  runs (fun '(v, h') => upd h null_vector h' v (replicate (Z.to_nat n) x)) (vec_new_fill mb sz h n x).
Proof.
  intros Hh Hn Hb. unfold vec_new_fill. eapply runs_bind; [by apply create_storage_ok|]. intros [v h1] [Hu Hroom].
  unfold m_fill_initialize. rewrite fill_loop_list.
  assert (zlen (replicate (Z.to_nat n) x) = n) as Hz by (by apply zlen_replicate).
  destruct (filled_storage_ok h null_vector v h1 (replicate (Z.to_nat n) x) Hh Hu) as (h2 & -> & Hu2); [by rewrite Hz|].
  cbn [mbind outcome_bind]. rewrite Hz in Hu2. by apply runs_ok.
Qed.

Lemma from_range_ok h xs : heap_ok h -> zlen xs * sz < 2 ^ 62 ->
  runs (fun '(v, h') => upd h null_vector h' v xs) (vec_from_range mb sz h xs).
Proof.
  intros Hh Hb. unfold vec_from_range. eapply runs_bind; [apply create_storage_ok; [done|apply zlen_nonneg|done]|].
  intros [v h1] [Hu Hroom]. unfold m_copy_initialize_range.
  destruct (filled_storage_ok h null_vector v h1 xs Hh Hu Hroom) as (h2 & -> & Hu2). cbn [mbind outcome_bind]. by apply runs_ok.
Qed.

(** Copying the elements of a vector [w] that has not changed. *)
Lemma copy_elements h1 v1 w ys : heap_ok h1 -> vec_holds h1 w ys -> vd_start v1 <> vd_start w \/ ys = [] ->
  (zlen ys = 0 /\ v1 = null_vector) \/ (exists rest, vrep h1 v1 [] rest /\ zlen ys <= zlen rest) ->
  copy_loop sz (length ys) h1 (start_ptr mb h1 v1) (start_ptr mb h1 w) = list_loop sz h1 (start_ptr mb h1 v1) ys.
Proof.
  intros Hh1 Hw Hne Hroom. destruct ys as [|y ys]; [done|]. destruct Hne as [Hne|]; [|done].
  destruct Hroom as [[Hz _]|(rest & Hv & Hle)]; [rewrite zlen_cons in Hz; pose proof (zlen_nonneg ys); lia|].
  destruct Hw as [[_ ?]|[rest' Hw]]; [done|].
  rewrite (vrep_start_ptr _ _ _ _ Hh1 Hv), (vrep_start_ptr _ _ _ _ Hh1 Hw).
  pose proof (copy_loop_list (y :: ys) h1 (vd_start v1) 0 (vd_start w) [] rest' rest Hh1 Hne (proj1 Hv) ltac:(lia) ltac:(lia) (proj1 Hw)) as Hc.
  change (zlen []) with 0 in Hc. rewrite Z.mul_0_r, !Z.add_0_r in Hc. exact Hc.
Qed.

(** * Destruction *)
Lemma destroy_tail_ok h v xs ys rest : heap_ok h -> vrep h v (xs ++ ys) rest ->
  exists h', destroy_loop sz (length ys) h (Some (vd_start v + sz * zlen xs)) = Ok h' /\ within (vd_start v) h h' /\
    vrep h' (set_finish v (vd_start v + sz * zlen xs)) xs (replicate (length ys) None ++ rest).
Proof.
  intros Hh (Hb & Hf & He). rewrite fmap_app, <- app_assoc in Hb.
  destruct (destroy_loop_ok ys h _ _ _ Hh Hb) as (h' & Hl & Hb' & Hw). rewrite zlen_fmap in Hl.
  exists h'. split; [done|]. split; [done|]. split; [done|]. cbn [vd_start vd_finish vd_end set_finish].
  split; [done|]. rewrite He, !zlen_app. unfold zlen at 5. rewrite length_replicate. unfold zlen. lia.
Qed.

Lemma destroy_all_ok h v xs : heap_ok h -> vec_holds h v xs ->
  exists h', m_destroy_all mb sz h v = Ok h' /\ hp_alloc h' = hp_alloc h /\ upd h v h' (set_finish v (vd_start v)) [].
Proof.
  intros Hh Hv. unfold m_destroy_all, m_destroy, rounds, vec_begin. destruct Hv as [[-> ->]|[rest Hv]].
  - unfold vec_end, vec_size. destruct (null_ptrs h Hh) as (-> & -> & _). exists h. split; [done|]. split; [done|].
    apply upd_refl; [done|by left].
  - rewrite (vrep_end _ _ _ _ Hh Hv), (vrep_start_ptr _ _ _ _ Hh Hv). cbn [mbind outcome_bind].
    rewrite ptr_sub_start. cbn [mbind outcome_bind]. pose proof (zlen_nonneg xs).
    rewrite (proj2 (Z.ltb_ge _ _)) by lia. cbn [mbind outcome_bind]. rewrite to_nat_zlen.
    destruct (destroy_tail_ok h v [] xs rest Hh Hv) as (h' & Hl & Hw & Hv'). change (zlen []) with 0 in *.
    rewrite Z.mul_0_r, Z.add_0_r in *. exists h'. split; [done|]. split; [apply Hw|]. by eapply upd_within.
Qed.

Lemma clear_vec_ok h v xs : heap_ok h -> vec_holds h v xs ->
  exists v' h', vec_clear mb sz h v = Ok (v', h') /\ upd h v h' v' [].
Proof.
  intros Hh Hv. unfold vec_clear. destruct (destroy_all_ok h v xs Hh Hv) as (h' & -> & _ & Hu). cbn [mbind outcome_bind]. eauto.
Qed.

Lemma deallocate_vec h v xs : heap_ok h -> vec_holds h v xs ->
  exists h1, m_deallocate mb h (start_ptr mb h v) = Ok h1 /\ upd h v h1 null_vector [].
Proof.
  intros Hh [[-> ->]|[rest Hv]].
  - destruct (null_ptrs h Hh) as (-> & _ & _). exists h. split; [done|]. apply upd_refl; [done|by left].
  - rewrite (vrep_start_ptr _ _ _ _ Hh Hv). destruct (deallocate_heap_ok h _ _ Hh (proj1 Hv)) as (h1 & -> & Hh1 & Hf1 & _).
    exists h1. split; [done|]. split; [done|]. split; [by left|]. split; [done|]. by right; left.
Qed.

Lemma destroy_vec_ok h v xs : heap_ok h -> vec_holds h v xs ->
  exists h', vec_destroy mb sz h v = Ok h' /\ upd h v h' null_vector [].
Proof.
  intros Hh Hv. unfold vec_destroy. destruct (destroy_all_ok h v xs Hh Hv) as (h1 & -> & _ & Hu). cbn [mbind outcome_bind].
  pose proof Hu as (Hh1 & Hv1 & _). destruct (vec_capacity_ok h1 _ _ Hh1 Hv1) as (c & Hc & _).
  change (vec_capacity mb sz h1 (set_finish v (vd_start v))) with (vec_capacity mb sz h1 v) in Hc. rewrite Hc.
  cbn [mbind outcome_bind]. destruct (deallocate_vec h1 _ _ Hh1 Hv1) as (h2 & Hd & Hu2).
  exists h2. split; [exact Hd|]. by eapply upd_trans.
Qed.

Lemma size_same_alloc (h h1 : heap) v : hp_alloc h1 = hp_alloc h -> vec_size mb sz h1 v = vec_size mb sz h v.
Proof. intros Ha. unfold vec_size, finish_ptr, start_ptr, to_ptr. by rewrite Ha. Qed.

Lemma replace_storage_ok h v xs n : heap_ok h -> vec_holds h v xs -> 0 <= n -> n * sz < 2 ^ 62 ->
  exists h1, m_destroy_all mb sz h v = Ok h1 /\
  runs (fun '(v2, h2) => upd h v h2 v2 [] /\ ((n = 0 /\ v2 = null_vector) \/ exists rest, vrep h2 v2 [] rest /\ n <= zlen rest))
    (replace_storage mb sz h1 v n (set_finish v (vd_start v))).
Proof.
  intros Hh Hv Hn Hb. destruct (destroy_all_ok h v xs Hh Hv) as (h1 & Hd & Ha & Hu). exists h1. split; [done|].
  pose proof Hu as (Hh1 & Hv1 & _). unfold replace_storage.
  destruct Hv1 as [[Hnull _]|[rest Hv1]].
  - assert (vd_start v = -1) as Hs by (by injection Hnull).
    assert (v = null_vector) as ->.
    { destruct Hv as [[-> _]|[r Hv]]; [done|]. pose proof (vrep_bounds _ _ _ _ Hh Hv). lia. }
    rewrite null_capacity by done. cbn [mbind outcome_bind]. rewrite Z.gtb_ltb. destruct (Z.ltb_spec 0 n) as [Hlt|Hle].
    + rewrite (size_same_alloc h h1) by done. rewrite (vec_size_ok _ _ _ Hh Hv). cbn [mbind outcome_bind].
      destruct (null_ptrs h1 Hh1) as (-> & _ & _). cbn [m_deallocate mbind outcome_bind].
      eapply runs_mono; [by apply create_storage_ok|]. intros [v2 h2] [Hu2 Hroom]. split; [|done]. by eapply upd_trans.
    + apply runs_ok. split; [done|]. left. split; [lia|done].
  - change (vec_capacity mb sz h1 v) with (vec_capacity mb sz h1 (set_finish v (vd_start v))).
    rewrite (vrep_capacity _ _ _ _ Hh1 Hv1). cbn [mbind outcome_bind]. change (zlen []) with 0. rewrite Z.gtb_ltb.
    destruct (Z.ltb_spec (0 + zlen rest) n) as [Hlt|Hle].
    + rewrite (size_same_alloc h h1) by done. rewrite (vec_size_ok _ _ _ Hh Hv). cbn [mbind outcome_bind].
      destruct (deallocate_vec h1 _ [] Hh1 (or_intror (ex_intro _ rest Hv1))) as (h2 & Hd2 & Hu2).
      change (start_ptr mb h1 (set_finish v (vd_start v))) with (start_ptr mb h1 v) in Hd2. rewrite Hd2.
      cbn [mbind outcome_bind]. pose proof (proj1 Hu2) as Hh2.
      eapply runs_mono; [by apply create_storage_ok|]. intros [v3 h3] [Hu3 Hroom]. split; [|done].
      eapply upd_trans; [done|done|]. by eapply upd_trans.
    + apply runs_ok. split; [done|]. right. exists rest. split; [done|lia].
Qed.

Lemma assign_op_list_ok h v xs ys : heap_ok h -> vec_holds h v xs -> zlen ys * sz < 2 ^ 62 ->
  runs (fun '(v', h') => upd h v h' v' ys) (vec_assign_op_list mb sz h v ys).
Proof.
  intros Hh Hv Hb. unfold vec_assign_op_list.
  destruct (replace_storage_ok h v xs (zlen ys) Hh Hv (zlen_nonneg ys) Hb) as (h1 & -> & Hr). cbn [mbind outcome_bind].
  eapply runs_bind; [exact Hr|]. intros [v2 h2] [Hu Hroom]. unfold m_copy_initialize_range.
  destruct (filled_storage_ok h v v2 h2 ys Hh Hu Hroom) as (h3 & -> & Hu3). cbn [mbind outcome_bind]. by apply runs_ok.
Qed.

(** * Access *)
Lemma get_ok h v xs n : heap_ok h -> vec_holds h v xs -> 0 <= n < zlen xs -> vec_get mb sz h v n = must (zlookup xs n).
Proof.
  intros Hh [[-> ->]|[rest Hv]] Hn; [change (zlen []) with 0 in Hn; lia|]. unfold vec_get.
  rewrite (vrep_start_ptr _ _ _ _ Hh Hv), ptr_add_start. cbn [mbind outcome_bind].
  destruct (zlookup_is_Some xs n Hn) as [x Hx]. rewrite Hx. cbn [must]. unfold zlookup in Hx.
  rewrite (proj2 (Z.leb_le 0 n)) in Hx by lia. eapply read_ok; [done|apply Hv|lia|].
  rewrite lookup_app_l by (rewrite length_fmap; unfold zlen in *; lia). rewrite list_lookup_fmap, Hx. done.
Qed.

Lemma vec_at_ok h v xs n : heap_ok h -> vec_holds h v xs -> 0 <= n ->
  vec_at mb sz h v n = if n <? zlen xs then must (zlookup xs n) else Throw out_of_range.
Proof.
  intros Hh Hv Hn. unfold vec_at, m_range_check. rewrite (vec_size_ok _ _ _ Hh Hv). cbn [mbind outcome_bind].
  rewrite Z.geb_leb. destruct (Z.leb_spec (zlen xs) n), (Z.ltb_spec n (zlen xs)); try lia; [done|].
  cbn [mbind outcome_bind]. apply get_ok; [done..|lia].
Qed.

Lemma back_ok h v xs x : heap_ok h -> vec_holds h v (xs ++ [x]) -> vec_back mb sz h v = Ok x.
Proof.
  intros Hh [[_ Hnil]|[rest Hv]]; [by destruct xs|]. unfold vec_back. rewrite (vrep_end _ _ _ _ Hh Hv).
  cbn [mbind outcome_bind]. rewrite ptr_add_ok. cbn [mbind outcome_bind]. rewrite zlen_app.
  change (zlen [x]) with 1. replace (zlen xs + 1 + -1) with (zlen xs) by lia. pose proof (zlen_nonneg xs).
  eapply read_ok; [done|apply Hv|done|]. rewrite fmap_app, <- app_assoc, to_nat_zlen.
  rewrite lookup_app_r by (rewrite length_fmap; lia). rewrite length_fmap, Nat.sub_diag. done.
Qed.

Lemma front_ok h v xs x : heap_ok h -> vec_holds h v (x :: xs) -> vec_front mb sz h v = Ok x.
Proof.
  intros Hh [[_ Hnil]|[rest Hv]]; [done|]. unfold vec_front, vec_begin. rewrite (vrep_start_ptr _ _ _ _ Hh Hv).
  replace (Some (vd_start v)) with (Some (vd_start v + sz * 0)) by (f_equal; lia).
  eapply read_ok; [done|apply Hv|lia|done].
Qed.

Lemma pop_back_vec_ok h v xs x : heap_ok h -> vec_holds h v (xs ++ [x]) ->
  exists v' h', vec_pop_back mb sz h v = Ok (v', h') /\ upd h v h' v' xs.
Proof.
  intros Hh [[_ Hnil]|[rest Hv]]; [by destruct xs|]. unfold vec_pop_back. rewrite (vrep_end _ _ _ _ Hh Hv).
  cbn [mbind outcome_bind]. rewrite ptr_add_ok, zlen_app. change (zlen [x]) with 1. cbn [mbind outcome_bind].
  replace (zlen xs + 1 + -1) with (zlen xs) by lia.
  destruct (destroy_tail_ok h v xs [x] rest Hh Hv) as (h' & Hl & Hw & Hv'). cbn [destroy_loop length] in Hl.
  apply bind_Ok in Hl as (h1 & -> & Hl). rewrite ptr_add_ok in Hl. injection Hl as ->. cbn [mbind outcome_bind].
  eexists _, h'. split; [done|]. replace (vd_finish v - sz) with (vd_start v + sz * zlen xs); [by eapply upd_within|].
  rewrite (proj1 (proj2 Hv)), zlen_app. change (zlen [x]) with 1. lia.
Qed.

Lemma emplace_back_ok h v xs x : heap_ok h -> vec_holds h v xs ->
  runs (fun '(y, v', h') => y = x /\ upd h v h' v' (xs ++ [x])) (vec_emplace_back mb sz h v x).
Proof.
  intros Hh Hv. eapply (runs_bind _ _ (vec_push_back mb sz h v x)); [by apply push_back_ok|].
  intros [v' h'] Hu. pose proof Hu as (Hh' & Hv' & _). rewrite (back_ok _ _ _ _ Hh' Hv'). cbn [mbind outcome_bind].
  by apply runs_ok.
Qed.

(** * Capacity *)
Lemma reserve_ok h v xs n : heap_ok h -> vec_holds h v xs ->
  runs (fun '(v', h') => upd h v h' v' xs /\ exists c, vec_capacity mb sz h' v' = Ok c /\ n <= c) (vec_reserve mb sz h v n).
Proof.
  intros Hh Hv. unfold vec_reserve. destruct (vec_capacity_ok _ _ _ Hh Hv) as (c & Hc & Hle). rewrite Hc.
  cbn [mbind outcome_bind]. destruct (Z.leb_spec n c).
  { apply runs_ok. split; [by apply upd_refl|]. by exists c. }
  unfold m_realloc_copy. destruct (Z.ltb_spec (vec_max_size mb sz h) n); [by right; left|].
  pose proof (zlen_nonneg xs). eapply runs_mono; [by apply realloc_to_ok; [done|done|lia]|].
  intros [v' h'] [Hu Hcap]. split; [done|]. destruct (Hcap ltac:(lia)) as (rest & Hr & Hlen).
  exists (zlen xs + zlen rest). split; [|done]. eapply vrep_capacity; [apply Hu|done].
Qed.

Lemma shrink_ok h v xs : heap_ok h -> vec_holds h v xs ->
  runs (fun '(v', h') => upd h v h' v' xs) (vec_shrink_to_fit mb sz h v).
Proof.
  intros Hh Hv. unfold vec_shrink_to_fit. destruct (vec_capacity_ok _ _ _ Hh Hv) as (c & Hc & Hle).
  rewrite Hc, (vec_size_ok _ _ _ Hh Hv). cbn [mbind outcome_bind]. destruct (Z.eqb_spec c (zlen xs)).
  { apply runs_ok. by apply upd_refl. }
  unfold m_realloc_copy. destruct (Z.ltb_spec (vec_max_size mb sz h) (zlen xs)); [by right; left|].
  eapply runs_mono; [by apply realloc_to_ok; [done|done|lia]|]. by intros [v' h'] [Hu _].
Qed.

Lemma resize_ok h v xs n x : heap_ok h -> vec_holds h v xs -> 0 <= n ->
  runs (fun '(v', h') => upd h v h' v' (take (Z.to_nat n) xs ++ replicate (Z.to_nat (n - zlen xs)) x))
    (vec_resize_fill mb sz h v n x).
Proof.
  intros Hh Hv Hn. unfold vec_resize_fill. rewrite (vec_size_ok _ _ _ Hh Hv). cbn [mbind outcome_bind].
  destruct (Z.eqb_spec n (zlen xs)) as [->|Hne].
  { rewrite Z.sub_diag, to_nat_zlen, firstn_all. cbn. rewrite app_nil_r. apply runs_ok. by apply upd_refl. }
  destruct (Z.ltb_spec n (zlen xs)) as [Hlt|Hge].
  - destruct Hv as [[_ ->]|[rest Hv]]; [change (zlen []) with 0 in Hlt; lia|]. unfold vec_begin.
    rewrite (vrep_start_ptr _ _ _ _ Hh Hv), ptr_add_start, (vrep_end _ _ _ _ Hh Hv). cbn [mbind outcome_bind].
    unfold m_destroy, rounds. rewrite ptr_sub_ok. cbn [mbind outcome_bind]. rewrite (proj2 (Z.ltb_ge _ _)) by lia.
    cbn [mbind outcome_bind]. assert (zlen (take (Z.to_nat n) xs) = n) as Hz by (unfold zlen in *; rewrite length_take; lia).
    destruct (destroy_tail_ok h v (take (Z.to_nat n) xs) (drop (Z.to_nat n) xs) rest Hh) as (h' & Hl & Hw & Hv');
      [by rewrite take_drop|]. rewrite Hz, length_drop in Hl.
    replace (Z.to_nat (zlen xs - n)) with (length xs - Z.to_nat n)%nat by (unfold zlen in *; lia). rewrite Hl.
    cbn [mbind outcome_bind]. replace (Z.to_nat (n - zlen xs)) with 0%nat by lia. cbn [replicate]. rewrite app_nil_r.
    apply runs_ok. rewrite Hz in Hv'. rewrite (Z.mul_comm n). by eapply upd_within.
  - rewrite take_ge by (unfold zlen in *; lia). destruct (vec_capacity_ok _ _ _ Hh Hv) as (c & Hc & Hle). rewrite Hc.
    cbn [mbind outcome_bind]. destruct (Z.leb_spec n c) as [Hfit|Hbig]; [|apply realloc_append_n_ok; [done|done|lia]].
    destruct Hv as [[-> ->]|[rest Hv]]; [rewrite null_capacity in Hc by done; injection Hc as <-; change (zlen []) with 0 in *; lia|].
    rewrite (vrep_capacity _ _ _ _ Hh Hv) in Hc. injection Hc as <-.
    rewrite (vrep_start_ptr _ _ _ _ Hh Hv), ptr_add_start. cbn [mbind outcome_bind]. rewrite fill_loop_list.
    assert (zlen (replicate (Z.to_nat (n - zlen xs)) x) = n - zlen xs) as Hz by (apply zlen_replicate; lia).
    destruct (append_within h v xs rest (replicate (Z.to_nat (n - zlen xs)) x) Hh Hv) as (h' & rest' & -> & Hw & Hv' & _); [lia|].
    cbn [mbind outcome_bind]. apply runs_ok. rewrite Hz, (proj1 (proj2 Hv)) in Hv'.
    replace (vd_start v + n * sz) with (vd_start v + sz * zlen xs + sz * (n - zlen xs)) by lia. by eapply upd_within.
Qed.

(** * Copies *)
Lemma vec_bytes h v xs : heap_ok h -> vec_holds h v xs -> zlen xs * sz < 2 ^ 62.
Proof.
  intros Hh [[-> ->]|[rest Hv]]; [done|]. pose proof (vrep_bounds _ _ _ _ Hh Hv). pose proof (zlen_nonneg rest).
  pose proof sz_pos. nia.
Qed.

(** A vector stays valid when a new one is created. *)
Lemma keep_holds h h1 v1 ys w xs : heap_ok h -> upd h null_vector h1 v1 ys -> vec_holds h w xs -> vec_holds h1 w xs.
Proof.
  intros Hh (Hh1 & _ & Hf & _) Hw. destruct Hw as [|[rest Hw]]; [by left|]. right. exists rest.
  split; [|apply Hw]. apply Hf; [|apply Hw]. pose proof (vrep_bounds _ _ _ _ Hh Hw). cbn. lia.
Qed.

Lemma copied_storage h v1 h1 w xs : heap_ok h -> vec_holds h w xs -> upd h null_vector h1 v1 [] ->
  (zlen xs = 0 /\ v1 = null_vector) \/ (exists rest, vrep h1 v1 [] rest /\ zlen xs <= zlen rest) ->
  exists h2, m_copy_initialize mb sz h1 v1 (zlen xs) (start_ptr mb h1 w) = Ok (set_finish v1 (vd_finish v1 + zlen xs * sz), h2) /\
    upd h null_vector h2 (set_finish v1 (vd_finish v1 + zlen xs * sz)) xs.
Proof.
  intros Hh Hw Hu Hroom. pose proof (keep_holds _ _ _ _ _ _ Hh Hu Hw) as Hw1.
  destruct (filled_storage_ok h null_vector v1 h1 xs Hh Hu Hroom) as (h2 & Hl & Hu2).
  exists h2. split; [|done]. unfold m_copy_initialize. rewrite to_nat_zlen.
  rewrite copy_elements with (ys := xs); [by rewrite Hl|apply Hu|done| |done].
  destruct Hw as [[_ ->]|[rest Hw]]; [by right|]. left. intros Heq. destruct Hu as (_ & _ & _ & Hs).
  pose proof (vrep_bounds _ _ _ _ Hh Hw). rewrite Heq in Hs. cbn in Hs.
  destruct Hs as [?|[?|Hs]]; [lia..|]. destruct Hw as ((Hl' & _) & _). congruence.
Qed.

Lemma copy_construct_vec_ok h w xs : heap_ok h -> vec_holds h w xs ->
  runs (fun '(v, h') => upd h null_vector h' v xs) (vec_copy_construct mb sz h w).
Proof.
  intros Hh Hw. unfold vec_copy_construct. rewrite (vec_size_ok _ _ _ Hh Hw). cbn [mbind outcome_bind].
  eapply runs_bind; [apply create_storage_ok; [done|apply zlen_nonneg|by eapply vec_bytes]|].
  intros [v1 h1] [Hu Hroom]. destruct (copied_storage h v1 h1 w xs Hh Hw Hu Hroom) as (h2 & -> & Hu2). by apply runs_ok.
Qed.

(** * Moving elements inside a block *)

(** The loop with a fixed destination leaves the last element there. *)
Lemma move_forward_ok b : forall h s ss d f, heap_ok h -> block_at h s ss -> 0 <= d < zlen ss -> 0 <= f ->
  (forall i x, b !! i = Some x -> ss !! (Z.to_nat f + i)%nat = Some (Some x)) -> d < f \/ f + zlen b <= d ->
  exists h', move_forward_loop sz (length b) h (Some (s + sz * d)) (Some (s + sz * f)) = Ok h' /\ within s h h' /\
    block_at h' s (match last b with None => ss | Some y => <[Z.to_nat d := Some y]> ss end).
Proof.
  induction b as [|x b IH]; intros h s ss d f Hh Hb Hd Hf Hsrc Hout.
  { exists h. split; [done|]. split; [apply within_refl|done]. }
  rewrite zlen_cons in Hout. pose proof (zlen_nonneg b). cbn [move_forward_loop length].
  rewrite (read_ok h s ss f x) by (done || (specialize (Hsrc 0%nat x eq_refl); by rewrite Nat.add_0_r in Hsrc)).
  cbn [mbind outcome_bind]. destruct (construct_ok h s ss d x Hh Hb Hd) as (h1 & -> & Hb1 & Hw1). cbn [mbind outcome_bind].
  rewrite ptr_add_ok. cbn [mbind outcome_bind].
  destruct (IH h1 s (<[Z.to_nat d := Some x]> ss) d (f + 1)) as (h' & Hl & Hw & Hb'); try lia.
  - by eapply within_ok.
  - done.
  - by rewrite zlen_insert.
  - intros i y Hi. rewrite list_lookup_insert_ne.
    + specialize (Hsrc (S i) y Hi). by replace (Z.to_nat (f + 1) + i)%nat with (Z.to_nat f + S i)%nat by lia.
    + apply lookup_lt_Some in Hi. unfold zlen in *. lia.
  - exists h'. split; [done|]. split; [by eapply within_trans|]. rewrite last_cons.
    destruct (last b); [by rewrite list_insert_insert_eq in Hb'|done].
Qed.

(** The loop from the back shifts the elements up by [k]. *)
Lemma move_backward_ok b : forall h s a r1 r2 k, heap_ok h -> 0 < k -> zlen r1 = k ->
  block_at h s (a ++ (Some <$> b) ++ r1 ++ r2) ->
  exists h' m, move_backward_loop sz (length b) h (Some (s + sz * (zlen a + k))) (Some (s + sz * zlen a)) = Ok h' /\
    within s h h' /\ zlen m = k /\ block_at h' s (a ++ m ++ (Some <$> b) ++ r2).
Proof.
  induction b as [|y b IH] using rev_ind; intros h s a r1 r2 k Hh Hk Hr Hb.
  { exists h, r1. split; [done|]. split; [apply within_refl|]. done. }
  rewrite fmap_app in Hb. cbn [fmap list_fmap] in Hb. rewrite length_app, Nat.add_1_r. cbn [move_backward_loop].
  fold (zlen b). rewrite !ptr_add_ok. cbn [mbind outcome_bind]. pose proof (zlen_nonneg a). pose proof (zlen_nonneg b).
  rewrite (read_ok h s _ (zlen a + zlen b) y Hh Hb); [|lia|].
  2:{ rewrite <- app_assoc, app_assoc, lookup_app_r by (rewrite length_app, length_fmap; unfold zlen; lia).
      rewrite length_app, length_fmap. replace (_ - _)%nat with 0%nat by (unfold zlen; lia). done. }
  cbn [mbind outcome_bind].
  assert (exists w z, Some y :: r1 = w ++ [z] /\ zlen w = k) as (w & z & Hwz & Hw).
  { destruct (exists_last (l := Some y :: r1)) as (w & z & Hwz); [done|]. exists w, z. split; [done|].
    apply (f_equal zlen) in Hwz. rewrite zlen_app, zlen_cons in Hwz. change (zlen [z]) with 1 in Hwz. lia. }
  assert (a ++ ((Some <$> b) ++ [Some y]) ++ r1 ++ r2 = (a ++ (Some <$> b) ++ w) ++ z :: r2) as Heq.
  { rewrite <- !app_assoc. do 2 f_equal. change ([Some y] ++ r1 ++ r2) with ((Some y :: r1) ++ r2).
    rewrite Hwz, <- app_assoc. done. }
  rewrite Heq in Hb. replace (zlen a + k + zlen b) with (zlen a + zlen b + k) by lia.
  assert (zlen (a ++ (Some <$> b) ++ w) = zlen a + zlen b + k) as Hlen by (rewrite !zlen_app, zlen_fmap; lia).
  destruct (construct_ok h s _ (zlen a + zlen b + k) y Hh Hb) as (h1 & -> & Hb1 & Hw1).
  { rewrite zlen_app, zlen_cons, Hlen. pose proof (zlen_nonneg r2). lia. }
  rewrite insert_middle in Hb1 by done. cbn [mbind outcome_bind].
  destruct (IH h1 s a w (Some y :: r2) k) as (h' & m & Hl & Hw' & Hm & Hb'); [by eapply within_ok|done|done| |].
  { by rewrite <- !app_assoc in Hb1. }
  exists h', m. split; [done|]. split; [by eapply within_trans|]. split; [done|].
  rewrite fmap_app, <- app_assoc. exact Hb'.
Qed.

(** Making room for [k] elements: right when one element or none is behind the
    position, or when the gap is at most one larger than what is moved. *)
Lemma make_room_ok h v a b rest k : heap_ok h -> vrep h v (a ++ b) rest -> 0 < k <= zlen rest ->
  zlen b <= 1 \/ k <= zlen b + 1 ->
  exists h' m r, m_move_to mb sz h v (Some (vd_start v + sz * zlen a)) (Some (vd_start v + sz * zlen (a ++ b)))
      (Some (vd_start v + sz * (zlen a + k))) = Ok h' /\ within (vd_start v) h h' /\
    zlen m = k /\ zlen r = zlen rest - k /\ block_at h' (vd_start v) ((Some <$> a) ++ m ++ (Some <$> b) ++ r).
Proof.
  intros Hh Hv Hk Hcond. pose proof sz_pos. pose proof (zlen_nonneg a). pose proof (zlen_nonneg b).
  unfold m_move_to. rewrite (proj2 (Z.eqb_neq _ _)) by nia. unfold vec_begin. rewrite (vrep_start_ptr _ _ _ _ Hh Hv).
  rewrite ptr_sub_start. cbn [mbind outcome_bind]. rewrite ptr_add_start, ptr_sub_ok. cbn [mbind outcome_bind].
  rewrite zlen_app. replace (zlen a + zlen b - zlen a) with (zlen b) by lia. rewrite to_nat_zlen.
  pose proof (proj1 Hv) as Hb. rewrite fmap_app, <- app_assoc in Hb.
  rewrite (proj2 (Z.ltb_ge (vd_start v + sz * (zlen a + k)) _)) by nia. cbn [orb]. rewrite Z.gtb_ltb.
  destruct (Z.ltb_spec (vd_start v + sz * (zlen a + zlen b) + sz) (vd_start v + sz * (zlen a + k))) as [Hlt|Hge].
  - assert (zlen b + 1 < k) as Hlt' by nia. destruct Hcond as [Hb1|]; [|lia].
    destruct b as [|x b].
    + cbn [length move_forward_loop]. exists h, (take (Z.to_nat k) rest), (drop (Z.to_nat k) rest).
      split; [done|]. split; [apply within_refl|]. unfold zlen in *. rewrite length_take, length_drop.
      split; [lia|]. split; [lia|]. cbn [fmap list_fmap app] in *. by rewrite take_drop.
    + destruct b; [|rewrite !zlen_cons in Hb1; pose proof (zlen_nonneg b); lia].
      destruct (zsplit_at rest k) as (m & z & Hrest & Hm); [lia|]. set (r := drop (Z.to_nat k) rest) in *.
      assert (zlen r = zlen rest - k) as Hr by (unfold r, zlen in *; rewrite length_drop; lia).
      rewrite Hrest in Hb, Hk, Hr |- *.
      destruct (move_forward_ok [x] h (vd_start v) _ (zlen a + k) (zlen a) Hh Hb) as (h' & Hl & Hw & Hb').
      { cbn [fmap list_fmap app]. rewrite ?zlen_app, ?zlen_cons, ?zlen_app, ?zlen_cons, ?zlen_fmap. pose proof (zlen_nonneg r). lia. }
      { done. }
      { intros i y. apply lookup_some_middle. }
      { right. change (zlen [x]) with 1. lia. }
      cbn [length] in Hl. exists h', (Some x :: m), r. split; [exact Hl|]. split; [done|]. rewrite zlen_cons. split; [lia|].
      split; [lia|]. cbn [last] in Hb'.
      replace ((Some <$> a) ++ (Some <$> [x]) ++ m ++ z :: r) with (((Some <$> a) ++ Some x :: m) ++ z :: r) in Hb'
        by (rewrite <- !app_assoc; done).
      rewrite insert_middle in Hb' by (rewrite zlen_app, zlen_fmap, zlen_cons; lia).
      rewrite <- app_assoc in Hb'. exact Hb'.
  - assert (exists r1 r2, rest = r1 ++ r2 /\ zlen r1 = k) as (r1 & r2 & -> & Hr1).
    { exists (take (Z.to_nat k) rest), (drop (Z.to_nat k) rest). rewrite take_drop. unfold zlen in *.
      rewrite length_take. split; [done|lia]. }
    destruct (move_backward_ok b h (vd_start v) (Some <$> a) r1 r2 k Hh ltac:(lia) Hr1 Hb) as (h' & m & Hl & Hw & Hm & Hb').
    rewrite zlen_fmap in Hl. exists h', m, r2. rewrite zlen_app. split; [done|]. split; [done|]. split; [done|].
    split; [lia|done].
Qed.

(** The insertion once there is room. *)
Lemma insert_room_ok h v a b rest k x : heap_ok h -> vrep h v (a ++ b) rest -> 0 < k <= zlen rest ->
  zlen b <= 1 \/ k <= zlen b + 1 ->
  exists h' v', (position ← ptr_add sz (vec_begin mb h v) (zlen a);
    e ← vec_end mb sz h v;
    dst ← ptr_add sz (Some (vd_start v + sz * zlen a)) k;
    h2 ← m_move_to mb sz h v (Some (vd_start v + sz * zlen a)) e dst;
    '(v2, h3) ← construct_run sz h2 v position (replicate (Z.to_nat k) x);
    r ← ptr_add sz (vec_begin mb h3 v2) (zlen a); Ok (r, v2, h3)) = Ok (Some (vd_start v' + sz * zlen a), v', h') /\
    upd h v h' v' (a ++ replicate (Z.to_nat k) x ++ b).
Proof.
  intros Hh Hv Hk Hcond. unfold vec_begin. rewrite (vrep_start_ptr _ _ _ _ Hh Hv), (vrep_end _ _ _ _ Hh Hv), ptr_add_ok.
  cbn [mbind outcome_bind]. rewrite (ptr_add_start (vd_start v)). cbn [mbind outcome_bind].
  destruct (make_room_ok h v a b rest k Hh Hv Hk Hcond) as (h1 & m & r & -> & Hw & Hm & Hr & Hb). cbn [mbind outcome_bind].
  pose proof (within_ok _ _ _ Hw Hh) as Hh1. unfold construct_run.
  assert (zlen (replicate (Z.to_nat k) x) = k) as Hz by (apply zlen_replicate; lia).
  destruct (list_loop_ok (replicate (Z.to_nat k) x) h1 (vd_start v) (Some <$> a) m ((Some <$> b) ++ r) Hh1 Hb) as (h2 & Hl & Hb2 & Hw2);
    [by rewrite Hz|]. rewrite zlen_fmap in Hl. rewrite Hl. cbn [mbind outcome_bind]. rewrite Hz.
  set (v' := set_finish v (vd_finish v + k * sz)). pose proof (within_ok _ _ _ Hw2 Hh1) as Hh2.
  assert (vrep h2 v' (a ++ replicate (Z.to_nat k) x ++ b) r) as Hv'.
  { destruct Hv as (_ & Hf & He). split; [rewrite !fmap_app, <- !app_assoc; exact Hb2|].
    cbn [vd_start vd_finish vd_end set_finish v']. rewrite !zlen_app in *. rewrite Hz. lia. }
  rewrite (vrep_start_ptr _ _ _ _ Hh2 Hv'), ptr_add_start. exists h2, v'. split; [done|].
  eapply upd_within; [done|done|by eapply within_trans|done|done].
Qed.

Lemma uninitialized_realloc_ok h v xs k : heap_ok h -> vec_holds h v xs -> 0 < k ->
  runs (fun '(v1, h1) => upd h v h1 v1 xs /\ exists rest, vrep h1 v1 xs rest /\ k <= zlen rest)
    (m_uninitialized_realloc_n mb sz h v k).
Proof.
  intros Hh Hv Hk. pose proof (zlen_nonneg xs). unfold m_uninitialized_realloc_n.
  eapply runs_bind; [by apply check_length_ok|]. intros len [Hlen Hmax].
  eapply runs_mono; [apply (realloc_to_ok h v xs len); [done..|lia]|]. intros [v1 h1] [Hu Hcap]. split; [done|].
  destruct (Hcap ltac:(lia)) as (rest & Hr & Hle). exists rest. split; [done|lia].
Qed.

(** The iterator of a position. *)
Lemma position_ok h v a b : heap_ok h -> vec_holds h v (a ++ b) ->
  exists p, ptr_add sz (vec_begin mb h v) (zlen a) = Ok p /\ ptr_sub sz p (vec_begin mb h v) = Ok (zlen a) /\
    (forall rest, vrep h v (a ++ b) rest -> p = Some (vd_start v + sz * zlen a)).
Proof.
  intros Hh [[-> Hnil]|[rest Hv]]; unfold vec_begin.
  - apply app_eq_nil in Hnil as [-> ->]. destruct (null_ptrs h Hh) as (-> & _). exists None.
    split; [done|]. split; [done|]. intros rest Hr. pose proof (vrep_bounds _ _ _ _ Hh Hr). cbn in *. lia.
  - rewrite (vrep_start_ptr _ _ _ _ Hh Hv), ptr_add_start. eexists. split; [done|]. split; [apply ptr_sub_start|done].
Qed.

Lemma insert_fill_vec_ok h v a b k x p : heap_ok h -> vec_holds h v (a ++ b) -> 0 < k -> zlen (a ++ b) + k < 2 ^ 64 ->
  zlen b <= 1 \/ k <= zlen b + 1 -> ptr_add sz (vec_begin mb h v) (zlen a) = Ok p ->
  runs (fun '(r, v', h') => r = Some (vd_start v' + sz * zlen a) /\ upd h v h' v' (a ++ replicate (Z.to_nat k) x ++ b))
    (vec_insert_fill mb sz h v p k x).
Proof.
  intros Hh Hv Hk Hfit Hcond Hpos. destruct (position_ok h v a b Hh Hv) as (p' & Hpos' & Hp & Hp').
  rewrite Hpos in Hpos'. injection Hpos' as <-. pose proof (zlen_nonneg (a ++ b)). unfold vec_insert_fill. rewrite Hp.
  cbn [mbind outcome_bind]. destruct (vec_capacity_ok _ _ _ Hh Hv) as (c & Hc & Hle).
  rewrite Hc, (vec_size_ok _ _ _ Hh Hv). cbn [mbind outcome_bind]. rewrite u64_small by lia.
  eapply (runs_bind (fun '(v1, h1, p1) => upd h v h1 v1 (a ++ b) /\ p1 = Some (vd_start v1 + sz * zlen a) /\
      exists rest, vrep h1 v1 (a ++ b) rest /\ k <= zlen rest)).
  - destruct (Z.ltb_spec c (zlen (a ++ b) + k)) as [Hgrow|Hfits].
    + eapply runs_bind; [by apply uninitialized_realloc_ok|]. intros [v1 h1] (Hu & rest & Hr & Hlen).
      unfold vec_begin. rewrite (vrep_start_ptr _ _ _ _ (proj1 Hu) Hr), ptr_add_start. cbn [mbind outcome_bind].
      apply runs_ok. eauto.
    + apply runs_ok. destruct Hv as [[-> Hnil]|[rest Hv]].
      { rewrite null_capacity in Hc by done. injection Hc as <-. lia. }
      rewrite (vrep_capacity _ _ _ _ Hh Hv) in Hc. injection Hc as <-.
      split; [apply upd_refl; [done|right; by exists rest]|]. split; [by eapply Hp'|]. exists rest. split; [done|lia].
  - intros [[v1 h1] p1] (Hu & -> & rest & Hr & Hlen).
    destruct (insert_room_ok h1 v1 a b rest k x (proj1 Hu) Hr ltac:(lia) Hcond) as (h' & v' & -> & Hu').
    apply runs_ok. split; [done|]. by eapply upd_trans.
Qed.

(** * Erasing: the last element takes the place of the erased one *)
Lemma erase_vec_ok h v a x b : heap_ok h -> vec_holds h v (a ++ x :: b) ->
  exists p, ptr_add sz (vec_begin mb h v) (zlen a) = Ok p /\
  exists r v' h', vec_erase mb sz h v p = Ok (r, v', h') /\
    upd h v h' v' (match last b with None => a | Some y => a ++ y :: removelast b end).
Proof.
  intros Hh [[_ Hnil]|[rest Hv]]; [by destruct a|]. unfold vec_begin. rewrite (vrep_start_ptr _ _ _ _ Hh Hv), ptr_add_start.
  eexists. split; [done|]. unfold vec_erase. rewrite ptr_add_ok, (vrep_end _ _ _ _ Hh Hv). cbn [mbind outcome_bind].
  pose proof (zlen_nonneg a). pose proof (zlen_nonneg b). pose proof sz_pos. rewrite zlen_app, zlen_cons.
  pose proof (vrep_start_ptr _ _ _ _ Hh Hv) as Hstart. pose proof Hv as Hv0. destruct Hv as (Hb & Hf & He). rewrite fmap_app, fmap_cons, <- app_assoc in Hb. cbn [app] in Hb.
  case_bool_decide as Hend.
  - assert (b = []) as ->.
    { destruct b as [|y b]; [done|]. injection Hend. rewrite zlen_cons. pose proof (zlen_nonneg b). nia. }
    destruct (destroy_ok h (vd_start v) _ (zlen a) x Hh Hb) as (h1 & -> & Hb1 & Hw);
      [done|by rewrite <- (zlen_fmap Some a), to_nat_zlen, list_lookup_middle|]. cbn [mbind outcome_bind last].
    rewrite insert_middle in Hb1 by (by rewrite zlen_fmap). pose proof (within_ok _ _ _ Hw Hh) as Hh1.
    assert (vrep h1 (set_finish v (vd_finish v - sz)) a (None :: rest)) as Hv1.
    { split; [done|]. cbn [vd_start vd_finish vd_end set_finish]. rewrite zlen_cons. rewrite zlen_app, zlen_cons in *.
      change (zlen []) with 0 in *. lia. }
    rewrite (vrep_end _ _ _ _ Hh1 Hv1). cbn [mbind outcome_bind]. eexists _, _, h1. split; [done|].
    eapply upd_within; [done|exact Hv0|done|done|done].
  - assert (b <> []) as Hne by (intros ->; apply Hend; do 2 f_equal; change (zlen []) with 0; lia).
    destruct (exists_last Hne) as (b' & y & ->). rewrite last_snoc, removelast_last.
    unfold vec_begin. rewrite Hstart, ptr_sub_start. cbn [mbind outcome_bind]. unfold m_move_to.
    rewrite (proj2 (Z.eqb_neq _ _)) by nia. unfold vec_begin. rewrite Hstart, ptr_sub_start. cbn [mbind outcome_bind].
    rewrite (ptr_add_start (vd_start v)), ptr_sub_ok. cbn [mbind outcome_bind].
    rewrite (proj2 (Z.ltb_lt _ _)) by nia. cbn [orb].
    replace (zlen a + (zlen (b' ++ [y]) + 1) - (zlen a + 1)) with (zlen (b' ++ [y])) by lia. rewrite to_nat_zlen.
    destruct (move_forward_ok (b' ++ [y]) h (vd_start v) _ (zlen a) (zlen a + 1) Hh Hb) as (h1 & -> & Hw & Hb1).
    { rewrite zlen_app, zlen_cons, zlen_fmap. pose proof (zlen_nonneg ((Some <$> b' ++ [y]) ++ rest)). lia. }
    { lia. }
    { intros i z Hi. pose proof (lookup_lt_Some _ _ _ Hi). rewrite lookup_app_r by (rewrite length_fmap; unfold zlen; lia).
      rewrite length_fmap. replace (_ - length a)%nat with (S i) by (unfold zlen; lia).
      change (((Some <$> b' ++ [y]) ++ rest) !! i = Some (Some z)).
      rewrite lookup_app_l by (by rewrite length_fmap). rewrite list_lookup_fmap, Hi. done. }
    { left. lia. }
    cbn [mbind outcome_bind]. rewrite last_snoc, insert_middle in Hb1 by (by rewrite zlen_fmap).
    pose proof (within_ok _ _ _ Hw Hh) as Hh1.
    assert (vrep h1 (set_finish v (vd_finish v - sz)) (a ++ y :: b') (Some y :: rest)) as Hv1.
    { split.
      - cbn [vd_start set_finish]. rewrite fmap_app, fmap_cons, <- app_assoc. rewrite fmap_app, <- app_assoc in Hb1. exact Hb1.
      - cbn [vd_start vd_finish vd_end set_finish]. rewrite !zlen_app, !zlen_cons, zlen_app in *. change (zlen [y]) with 1 in *. lia. }
    rewrite (vrep_start_ptr _ _ _ _ Hh1 Hv1), ptr_add_start. cbn [mbind outcome_bind]. eexists _, _, h1. split; [done|].
    eapply upd_within; [done|exact Hv0|done|done|done].
Qed.

(** * Comparison *)
Lemma zlookup_drop_cons {B} (l : list B) i : 0 <= i < zlen l ->
  exists x, zlookup l i = Some x /\ drop (Z.to_nat i) l = x :: drop (Z.to_nat (i + 1)) l.
Proof.
  intros Hi. destruct (zlookup_is_Some l i Hi) as [x Hx]. exists x. split; [done|]. unfold zlookup in Hx.
  rewrite (proj2 (Z.leb_le 0 i)) in Hx by lia. rewrite (drop_S _ _ _ Hx). do 2 f_equal. lia.
Qed.

Lemma equal_loop_ok `{EqDecision T} h v w xs ys : heap_ok h -> vec_holds h v xs -> vec_holds h w ys -> zlen xs = zlen ys ->
  forall n i, 0 <= i -> i + Z.of_nat n = zlen xs ->
  equal_loop mb sz (fun x y => bool_decide (x = y)) n h v w i =
    Ok (bool_decide (drop (Z.to_nat i) xs = drop (Z.to_nat i) ys)).
Proof.
  intros Hh Hv Hw Hlen. induction n as [|n IH]; intros i Hi Hin.
  - cbn [equal_loop]. rewrite !drop_ge by (unfold zlen in *; lia). by rewrite bool_decide_true.
  - cbn [equal_loop]. rewrite (vec_at_ok h v xs i Hh Hv Hi), (vec_at_ok h w ys i Hh Hw Hi).
    rewrite <- Hlen, (proj2 (Z.ltb_lt i (zlen xs))) by lia.
    destruct (zlookup_drop_cons xs i) as (x & -> & ->); [lia|].
    destruct (zlookup_drop_cons ys i) as (y & -> & ->); [lia|]. cbn [must mbind outcome_bind].
    destruct (bool_decide_reflect (x = y)) as [->|Hne].
    + rewrite IH by lia. f_equal. apply bool_decide_ext. split; [by intros ->|by intros [=]].
    + rewrite bool_decide_false; [done|by intros [=]].
Qed.

Lemma vec_equal_ok `{EqDecision T} h v w xs ys : heap_ok h -> vec_holds h v xs -> vec_holds h w ys ->
  vec_equal mb sz (fun x y => bool_decide (x = y)) h v w = Ok (bool_decide (xs = ys)).
Proof.
  intros Hh Hv Hw. unfold vec_equal. rewrite (vec_size_ok _ _ _ Hh Hv), (vec_size_ok _ _ _ Hh Hw). cbn [mbind outcome_bind].
  destruct (Z.eqb_spec (zlen xs) (zlen ys)) as [Heq|Hne]; cbn [negb].
  - rewrite (equal_loop_ok h v w xs ys Hh Hv Hw Heq) by (rewrite ?to_nat_zlen; unfold zlen; lia). done.
  - rewrite bool_decide_false; [done|]. by intros ->.
Qed.

(** The lexicographic order. *)
Fixpoint lex_order (cmp : T -> T -> comparison) (xs ys : list T) : comparison :=
  match xs, ys with
  | [], [] => Eq
  | [], _ => Lt
  | _, [] => Gt
  | x :: xs', y :: ys' => match cmp x y with Eq => lex_order cmp xs' ys' | c => c end
  end.

Lemma vec_compare_ok cmp h v w xs ys : heap_ok h -> vec_holds h v xs -> vec_holds h w ys ->
  vec_compare mb sz cmp h v w = Ok (lex_order cmp xs ys).
Proof.
  intros Hh Hv Hw. unfold vec_compare. rewrite (vec_size_ok _ _ _ Hh Hv), (vec_size_ok _ _ _ Hh Hw). cbn [mbind outcome_bind].
  rewrite !to_nat_zlen. destruct Hv as [[-> ->]|[rest Hv]]; [by destruct ys|].
  destruct Hw as [[-> ->]|[rest' Hw]]; [by destruct xs|].
  rewrite (vrep_start_ptr _ _ _ _ Hh Hv), (vrep_start_ptr _ _ _ _ Hh Hw).
  assert (forall xs ys a a2 c c2 s s2, block_at h s (a ++ (Some <$> xs) ++ c) -> block_at h s2 (a2 ++ (Some <$> ys) ++ c2) ->
    three_way_loop sz cmp (length xs) (length ys) h (Some (s + sz * zlen a)) (Some (s2 + sz * zlen a2)) = Ok (lex_order cmp xs ys)) as Hloop.
  { clear -Hh AllocatorLaws0. induction xs as [|x xs IH]; intros [|y ys] a a2 c c2 s s2 Hb Hb2; [done..|].
    cbn [three_way_loop length lex_order fmap list_fmap app] in *.
    rewrite (read_ok h s _ (zlen a) x Hh Hb) by (try apply zlen_nonneg; by rewrite to_nat_zlen, list_lookup_middle).
    rewrite (read_ok h s2 _ (zlen a2) y Hh Hb2) by (try apply zlen_nonneg; by rewrite to_nat_zlen, list_lookup_middle).
    cbn [mbind outcome_bind]. destruct (cmp x y); [|done..]. rewrite !ptr_add_ok. cbn [mbind outcome_bind].
    specialize (IH ys (a ++ [Some x]) (a2 ++ [Some y]) c c2 s s2). rewrite !zlen_app in IH. apply IH; by rewrite <- app_assoc. }
  specialize (Hloop xs ys [] [] rest rest' _ _ (proj1 Hv) (proj1 Hw)). change (zlen []) with 0 in Hloop.
  rewrite Z.mul_0_r, !Z.add_0_r in Hloop. exact Hloop.
Qed.

(** * Assignment inside the old storage *)
Lemma read_none h s ss i : heap_ok h -> block_at h s ss -> 0 <= i -> ss !! Z.to_nat i = Some None ->
  read sz h (Some (s + sz * i)) = UB.
Proof.
  intros Hh Hb Hi Hx. pose proof (lookup_lt_Some _ _ _ Hx). unfold read. cbn [must mbind outcome_bind].
  rewrite (owned_ok h s ss) by (done || (unfold zlen; lia)). cbn [require mbind outcome_bind].
  destruct Hb as [_ Hc]. specialize (Hc _ _ Hx). rewrite Z2Nat.id in Hc by done. by rewrite Hc.
Qed.

(** What [m_destroy_all] and the construction of [ys] leave when the storage is kept. *)
Definition overwritten (h : heap) (v : vector) (xs ys : list T) (h' : heap) : Prop :=
  heap_ok h' /\ hp_alloc h' = hp_alloc h /\
  (forall i, 0 <= i < zlen ys -> vec_get mb sz h' v i = must (zlookup ys i)) /\
  (forall i, zlen ys <= i < zlen xs -> vec_get mb sz h' v i = UB).

Lemma overwrite_ok h v xs rest ys : heap_ok h -> vrep h v xs rest -> zlen ys <= zlen xs + zlen rest ->
  exists h1 h2, m_destroy_all mb sz h v = Ok h1 /\ upd h v h1 (set_finish v (vd_start v)) [] /\
    replace_storage mb sz h1 v (zlen ys) v = Ok (v, h1) /\
    list_loop sz h1 (start_ptr mb h1 v) ys = Ok h2 /\ overwritten h v xs ys h2.
Proof.
  intros Hh Hv Hle. pose proof (zlen_nonneg xs). pose proof (zlen_nonneg ys).
  destruct (destroy_tail_ok h v [] xs rest Hh Hv) as (h1 & Hl & Hw & Hv1). change (zlen []) with 0 in *.
  rewrite Z.mul_0_r, Z.add_0_r in *. pose proof (within_ok _ _ _ Hw Hh) as Hh1.
  destruct (destroy_all_ok h v xs Hh (or_intror (ex_intro _ rest Hv))) as (h1' & Hd & _ & Hu).
  assert (h1' = h1) as ->.
  { unfold m_destroy_all, m_destroy, rounds, vec_begin in Hd.
    rewrite (vrep_end _ _ _ _ Hh Hv), (vrep_start_ptr _ _ _ _ Hh Hv) in Hd. cbn [mbind outcome_bind] in Hd.
    rewrite ptr_sub_start in Hd. cbn [mbind outcome_bind] in Hd.
    rewrite (proj2 (Z.ltb_ge _ _)) in Hd by lia. cbn [mbind outcome_bind] in Hd. rewrite to_nat_zlen, Hl in Hd. congruence. }
  pose proof (vrep_start_ptr _ _ _ _ Hh1 Hv1) as Hstart. change (start_ptr mb h1 v = Some (vd_start v)) in Hstart.
  assert (exists m c, replicate (length xs) None ++ rest = m ++ c /\ zlen m = zlen ys /\
    forall i, (length ys <= i < length xs)%nat -> c !! (i - length ys)%nat = Some None) as (m & c & Hmc & Hm & Hnone).
  { exists (take (length ys) (replicate (length xs) None ++ rest)), (drop (length ys) (replicate (length xs) None ++ rest)).
    rewrite take_drop. split; [done|]. split.
    - unfold zlen in *. rewrite length_take, length_app, length_replicate. lia.
    - intros i Hi. rewrite lookup_drop, lookup_app_l by (rewrite length_replicate; lia).
      apply lookup_replicate. split; [done|lia]. }
  destruct (list_loop_ok ys h1 (vd_start v) [] m c Hh1) as (h2 & Hl2 & Hb2 & Hw2); [|done|].
  { pose proof (proj1 Hv1) as Hb1. cbn [fmap list_fmap app vd_start set_finish] in Hb1. by rewrite Hmc in Hb1. }
  change (zlen []) with 0 in Hl2. rewrite Z.mul_0_r, Z.add_0_r in Hl2. pose proof (within_ok _ _ _ Hw2 Hh1) as Hh2.
  exists h1, h2. split; [done|]. split; [done|]. split.
  { unfold replace_storage. change (vec_capacity mb sz h1 v) with (vec_capacity mb sz h1 (set_finish v (vd_start v))).
    rewrite (vrep_capacity _ _ _ _ Hh1 Hv1). cbn [mbind outcome_bind]. change (zlen []) with 0. rewrite zlen_app.
    assert (zlen (replicate (length xs) (@None T)) = zlen xs) as -> by (unfold zlen; by rewrite length_replicate).
    rewrite Z.gtb_ltb, (proj2 (Z.ltb_ge _ _)) by lia. done. }
  rewrite Hstart. split; [done|]. split; [done|]. split; [destruct Hw as (? & _), Hw2 as (? & _); congruence|].
  assert (start_ptr mb h2 v = Some (vd_start v)) as Hstart2.
  { unfold start_ptr, to_ptr in *. destruct Hw2 as (-> & _). exact Hstart. }
  unfold vec_get. rewrite Hstart2. split; intros i Hi; rewrite ptr_add_start; cbn [mbind outcome_bind].
  - destruct (zlookup_is_Some ys i Hi) as [x Hx]. rewrite Hx. unfold zlookup in Hx.
    rewrite (proj2 (Z.leb_le 0 i)) in Hx by lia. eapply read_ok; [done|exact Hb2|lia|]. cbn [app].
    rewrite lookup_app_l by (rewrite length_fmap; unfold zlen in *; lia). by rewrite list_lookup_fmap, Hx.
  - eapply read_none; [done|exact Hb2|lia|]. cbn [app].
    rewrite lookup_app_r by (rewrite length_fmap; unfold zlen in *; lia). rewrite length_fmap. apply Hnone. unfold zlen in *. lia.
Qed.

(** * Several vectors over one heap *)
Inductive vop : Type :=
| VNewFill (n : Z) (x : T)          (* vector(n, x) *)
| VFromList (l : list T)            (* vector{l} *)
| VCopy (i : nat)                   (* vector(v_i) *)
| VMove (i : nat)                   (* vector(std::move(v_i)) *)
| VPush (i : nat) (x : T)
| VEmplace (i : nat) (x : T)
| VPop (i : nat)
| VInsert (i : nat) (k n : Z) (x : T)   (* v_i.insert(begin() + k, n, x) *)
| VErase (i : nat) (k : Z)
| VResize (i : nat) (n : Z) (x : T)
| VReserve (i : nat) (n : Z)
| VShrink (i : nat)
| VClear (i : nat)
| VSwap (i j : nat)
| VAssignList (i : nat) (l : list T)    (* v_i = {l} *)
| VAt (i : nat) (n : Z)
| VFront (i : nat)
| VBack (i : nat)
| VSize (i : nat)
| VEqual (i j : nat)
| VDestroy (i : nat).

Inductive vreply : Type :=
| RNone
| RElem (x : T)
| RSize (n : Z)
| RBool (b : bool)
| ROutOfRange.

Section worlds.
Context `{EqDecision T}.
Abbreviation world := (heap * list vector)%type.

(** An operation that updates vector [i]. *)
Definition on (w : world) (i : nat) (f : heap -> vector -> outcome (vreply * vector * heap)) : outcome (vreply * world) :=
  v ← must (w.2 !! i);
  '(r, v', h') ← f w.1 v; Ok (r, (h', <[i := v']> w.2)).

Definition quiet (m : outcome (vector * heap)) : outcome (vreply * vector * heap) :=
  '(v, h) ← m; Ok (RNone, v, h).

Definition vexec (o : vop) (w : world) : outcome (vreply * world) :=
  match o with
  | VNewFill n x => '(v, h) ← vec_new_fill mb sz w.1 n x; Ok (RNone, (h, w.2 ++ [v]))
  | VFromList l => '(v, h) ← vec_from_range mb sz w.1 l; Ok (RNone, (h, w.2 ++ [v]))
  | VCopy i => v ← must (w.2 !! i); '(v', h) ← vec_copy_construct mb sz w.1 v; Ok (RNone, (h, w.2 ++ [v']))
  | VMove i => v ← must (w.2 !! i); let '(v', v1) := vec_move_construct v in Ok (RNone, (w.1, <[i := v1]> w.2 ++ [v']))
  | VPush i x => on w i (fun h v => quiet (vec_push_back mb sz h v x))
  | VEmplace i x => on w i (fun h v => '(y, v', h') ← vec_emplace_back mb sz h v x; Ok (RElem y, v', h'))
  | VPop i => on w i (fun h v => quiet (vec_pop_back mb sz h v))
  | VInsert i k n x => on w i (fun h v =>
      p ← ptr_add sz (vec_begin mb h v) k; '(_, v', h') ← vec_insert_fill mb sz h v p n x; Ok (RNone, v', h'))
  | VErase i k => on w i (fun h v =>
      p ← ptr_add sz (vec_begin mb h v) k; '(_, v', h') ← vec_erase mb sz h v p; Ok (RNone, v', h'))
  | VResize i n x => on w i (fun h v => quiet (vec_resize_fill mb sz h v n x))
  | VReserve i n => on w i (fun h v => quiet (vec_reserve mb sz h v n))
  | VShrink i => on w i (fun h v => quiet (vec_shrink_to_fit mb sz h v))
  | VClear i => on w i (fun h v => quiet (vec_clear mb sz h v))
  | VSwap i j =>
      v ← must (w.2 !! i); v2 ← must (w.2 !! j);
      let '(a, b) := vec_swap v v2 in Ok (RNone, (w.1, <[i := a]> (<[j := b]> w.2)))
  | VAssignList i l => on w i (fun h v => quiet (vec_assign_op_list mb sz h v l))
  | VAt i n => on w i (fun h v =>
      match vec_at mb sz h v n with
      | Throw out_of_range => Ok (ROutOfRange, v, h)
      | m => x ← m; Ok (RElem x, v, h)
      end)
  | VFront i => on w i (fun h v => x ← vec_front mb sz h v; Ok (RElem x, v, h))
  | VBack i => on w i (fun h v => x ← vec_back mb sz h v; Ok (RElem x, v, h))
  | VSize i => on w i (fun h v => n ← vec_size mb sz h v; Ok (RSize n, v, h))
  | VEqual i j =>
      v ← must (w.2 !! i); v2 ← must (w.2 !! j);
      b ← vec_equal mb sz (fun x y => bool_decide (x = y)) w.1 v v2; Ok (RBool b, w)
  | VDestroy i => on w i (fun h v => h' ← vec_destroy mb sz h v; Ok (RNone, null_vector, h'))
  end.

Fixpoint vrun (os : list vop) (w : world) : outcome (list vreply * world) :=
  match os with
  | [] => Ok ([], w)
  | o :: os' => '(r, w1) ← vexec o w; '(rs, w2) ← vrun os' w1; Ok (r :: rs, w2)
  end.

(** The specification on lists; [None] outside the domain of an operation. *)
Abbreviation lists := (list (list T)).

Definition vspec (o : vop) (ls : lists) : option (vreply * lists) :=
  match o with
  | VNewFill n x => if (0 <=? n) && (n * sz <? 2 ^ 62) then Some (RNone, ls ++ [replicate (Z.to_nat n) x]) else None
  | VFromList l => if zlen l * sz <? 2 ^ 62 then Some (RNone, ls ++ [l]) else None
  | VCopy i => l ← ls !! i; Some (RNone, ls ++ [l])
  | VMove i => l ← ls !! i; Some (RNone, <[i := []]> ls ++ [l])
  | VPush i x => l ← ls !! i; Some (RNone, <[i := l ++ [x]]> ls)
  | VEmplace i x => l ← ls !! i; Some (RElem x, <[i := l ++ [x]]> ls)
  | VPop i => l ← ls !! i; if zlen l =? 0 then None else Some (RNone, <[i := removelast l]> ls)
  | VInsert i k n x =>
      l ← ls !! i;
      if (0 <? n) && (zlen l + n <? 2 ^ 64) && (0 <=? k) && (k <=? zlen l) && ((zlen l - k <=? 1) || (n <=? zlen l - k + 1))
      then Some (RNone, <[i := take (Z.to_nat k) l ++ replicate (Z.to_nat n) x ++ drop (Z.to_nat k) l]> ls) else None
  | VErase i k =>
      l ← ls !! i;
      if (0 <=? k) && (k <? zlen l) && (zlen l <=? k + 2) then Some (RNone, <[i := delete (Z.to_nat k) l]> ls) else None
  | VResize i n x =>
      l ← ls !! i;
      if 0 <=? n then Some (RNone, <[i := take (Z.to_nat n) l ++ replicate (Z.to_nat (n - zlen l)) x]> ls) else None
  | VReserve i n => l ← ls !! i; Some (RNone, <[i := l]> ls)
  | VShrink i => l ← ls !! i; Some (RNone, <[i := l]> ls)
  | VClear i | VDestroy i => l ← ls !! i; Some (RNone, <[i := []]> ls)
  | VSwap i j => l ← ls !! i; k ← ls !! j; Some (RNone, <[i := k]> (<[j := l]> ls))
  | VAssignList i l => _ ← ls !! i; if zlen l * sz <? 2 ^ 62 then Some (RNone, <[i := l]> ls) else None
  | VAt i n =>
      l ← ls !! i;
      if n <? 0 then None
      else match zlookup l n with Some x => Some (RElem x, ls) | None => Some (ROutOfRange, ls) end
  | VFront i => l ← ls !! i; x ← head l; Some (RElem x, ls)
  | VBack i => l ← ls !! i; x ← last l; Some (RElem x, ls)
  | VSize i => l ← ls !! i; Some (RSize (zlen l), ls)
  | VEqual i j => l ← ls !! i; k ← ls !! j; Some (RBool (bool_decide (l = k)), ls)
  end.

Fixpoint vspec_run (os : list vop) (ls : lists) : option (list vreply * lists) :=
  match os with
  | [] => Some ([], ls)
  | o :: os' => '(r, ls1) ← vspec o ls; '(rs, ls2) ← vspec_run os' ls1; Some (r :: rs, ls2)
  end.

(** Every vector holds its list, and no two share a block. *)
Definition world_ok (w : world) (ls : lists) : Prop :=
  heap_ok w.1 /\ length w.2 = length ls /\
  (forall i v l, w.2 !! i = Some v -> ls !! i = Some l -> vec_holds w.1 v l) /\
  (forall i j v v', i <> j -> w.2 !! i = Some v -> w.2 !! j = Some v' -> vd_start v = vd_start v' -> vd_start v = -1).

Lemma world_lookup w ls i l : world_ok w ls -> ls !! i = Some l -> exists v, w.2 !! i = Some v /\ vec_holds w.1 v l.
Proof.
  intros (_ & Hlen & Hv & _) Hl. destruct (lookup_lt_is_Some_2 w.2 i) as [v Hi].
  { rewrite Hlen. by eapply lookup_lt_Some. }
  exists v. split; [done|]. by eapply Hv.
Qed.

Lemma holds_live h v l : vec_holds h v l -> vd_start v = -1 \/ is_Some (hp_live h !! vd_start v).
Proof. intros [[-> _]|(rest & (Hl & _) & _)]; [by left|right; by rewrite Hl]. Qed.

Lemma holds_other h h' v v' xs' w l : heap_ok h -> upd h v h' v' xs' -> vec_holds h w l ->
  (vd_start v = vd_start w -> vd_start v = -1) -> vec_holds h' w l.
Proof.
  intros Hh (Hh' & _ & Hf & _) Hw Hne. destruct Hw as [[-> ->]|[rest Hw]]; [by left|]. right. exists rest.
  split; [|apply Hw]. apply Hf; [|apply Hw]. intros Heq. pose proof (vrep_bounds _ _ _ _ Hh Hw).
  specialize (Hne (eq_sym Heq)). lia.
Qed.

Lemma upd_distinct h h' v v' xs' w l : heap_ok h -> upd h v h' v' xs' -> vec_holds h w l ->
  (vd_start v = vd_start w -> vd_start v = -1) -> vd_start v' = vd_start w -> vd_start v' = -1.
Proof.
  intros Hh (_ & _ & _ & [Hs|[Hs|Hs]]) Hw Hne Heq; [rewrite Hs; apply Hne; congruence|done|].
  destruct (holds_live _ _ _ Hw) as [Hl|[b Hl]]; [congruence|]. rewrite <- Heq in Hl. congruence.
Qed.

Lemma world_upd h vs ls i v h' v' xs' : world_ok (h, vs) ls -> vs !! i = Some v -> upd h v h' v' xs' ->
  world_ok (h', <[i := v']> vs) (<[i := xs']> ls).
Proof.
  intros (Hh & Hlen & Hv & Hd) Hi Hu. cbn [fst snd] in *. pose proof (lookup_lt_Some _ _ _ Hi).
  split; [apply Hu|]. cbn [fst snd]. split; [by rewrite !length_insert|].
  assert (forall j w l, i <> j -> vs !! j = Some w -> ls !! j = Some l ->
    vec_holds h w l /\ (vd_start v = vd_start w -> vd_start v = -1)) as Hother.
  { intros j w l Hij Hj Hlj. split; [by eapply Hv|]. by apply (Hd i j). }
  split.
  - intros j w l Hj Hl. destruct (decide (i = j)) as [<-|Hij].
    + rewrite list_lookup_insert_eq in Hj by done. rewrite list_lookup_insert_eq in Hl by lia. simplify_eq. apply Hu.
    + rewrite list_lookup_insert_ne in Hj by done. rewrite list_lookup_insert_ne in Hl by done.
      destruct (Hother j w l Hij Hj Hl). by eapply holds_other.
  - assert (forall j w, i <> j -> vs !! j = Some w -> vd_start v' = vd_start w -> vd_start v' = -1) as Hnew.
    { intros j w Hij Hj. destruct (lookup_lt_is_Some_2 ls j) as [l Hl]; [rewrite <- Hlen; by eapply lookup_lt_Some|].
      destruct (Hother j w l Hij Hj Hl). by eapply upd_distinct. }
    intros j k w w' Hjk Hj Hk Heq. destruct (decide (i = j)) as [<-|Hij], (decide (i = k)) as [<-|Hik]; [done| | |].
    + rewrite list_lookup_insert_eq in Hj by done. rewrite list_lookup_insert_ne in Hk by done. simplify_eq. by eapply Hnew.
    + rewrite list_lookup_insert_eq in Hk by done. rewrite list_lookup_insert_ne in Hj by done. simplify_eq.
      rewrite Heq. eapply (Hnew j w); done.
    + rewrite list_lookup_insert_ne in Hj by done. rewrite list_lookup_insert_ne in Hk by done. by eapply (Hd j k).
Qed.

Lemma world_snoc_null h vs ls : world_ok (h, vs) ls -> world_ok (h, vs ++ [null_vector]) (ls ++ [[]]).
Proof.
  intros (Hh & Hlen & Hv & Hd). cbn [fst snd] in *. split; [done|]. cbn [fst snd]. split; [rewrite !length_app; simpl; lia|].
  split.
  - intros i v l Hi Hl. apply lookup_app_Some in Hi as [Hi|[Hge Hi]].
    + rewrite lookup_app_l in Hl by (rewrite <- Hlen; by eapply lookup_lt_Some). by eapply Hv.
    + rewrite lookup_app_r in Hl by lia. rewrite Hlen in Hi. destruct (i - length ls)%nat as [|n]; [|done].
      injection Hi as <-. injection Hl as <-. by left.
  - intros i j v v' Hij Hi Hj Heq. apply lookup_app_Some in Hi as [Hi|[_ Hi]], Hj as [Hj|[_ Hj]]; [by eapply (Hd i j)| | |];
      try (apply list_lookup_singleton_Some in Hj as [_ <-]; by rewrite Heq);
      apply list_lookup_singleton_Some in Hi as [_ <-]; done.
Qed.

Lemma world_new h vs ls h' v xs : world_ok (h, vs) ls -> upd h null_vector h' v xs -> world_ok (h', vs ++ [v]) (ls ++ [xs]).
Proof.
  intros Hw Hu. pose proof Hw as (_ & Hlen & _). cbn [fst snd] in Hlen. pose proof (world_snoc_null _ _ _ Hw) as Hw'.
  apply (world_upd _ _ _ (length vs) null_vector h' v xs Hw') in Hu; [|by rewrite lookup_app_r, Nat.sub_diag by lia].
  rewrite insert_app_r_alt, Nat.sub_diag in Hu by lia. rewrite insert_app_r_alt in Hu by lia.
  by rewrite Hlen, Nat.sub_diag in Hu.
Qed.

Definition swapped (i j k : nat) : nat := if decide (k = i) then j else if decide (k = j) then i else k.

Lemma swapped_inj i j k k' : k <> k' -> swapped i j k <> swapped i j k'.
Proof. unfold swapped. repeat case_decide; congruence. Qed.

Lemma lookup_swapped {B} (l : list B) i j x y k : l !! i = Some x -> l !! j = Some y ->
  <[i := y]> (<[j := x]> l) !! k = l !! swapped i j k.
Proof.
  intros Hi Hj. pose proof (lookup_lt_Some _ _ _ Hi). pose proof (lookup_lt_Some _ _ _ Hj). unfold swapped.
  case_decide as E; [subst k|].
  - rewrite list_lookup_insert_eq by (rewrite length_insert; done). done.
  - rewrite list_lookup_insert_ne by done. case_decide as E'; [subst k|].
    + by rewrite list_lookup_insert_eq by done.
    + by rewrite list_lookup_insert_ne by done.
Qed.

Lemma world_swap h vs ls i j v v2 l l2 : world_ok (h, vs) ls -> vs !! i = Some v -> vs !! j = Some v2 ->
  ls !! i = Some l -> ls !! j = Some l2 -> world_ok (h, <[i := v2]> (<[j := v]> vs)) (<[i := l2]> (<[j := l]> ls)).
Proof.
  intros (Hh & Hlen & Hv & Hd) Hi Hj Hli Hlj. cbn [fst snd] in *. split; [done|]. cbn [fst snd].
  split; [by rewrite !length_insert|]. split.
  - intros k w m. rewrite !lookup_swapped by done. apply Hv.
  - intros k k' w w' Hk. rewrite !lookup_swapped by done. apply Hd. by apply swapped_inj.
Qed.

Lemma on_ok h vs ls i l r l' f : world_ok (h, vs) ls -> ls !! i = Some l ->
  (forall v, vec_holds h v l -> runs (fun '(r', v', h') => r' = r /\ upd h v h' v' l') (f h v)) ->
  runs (fun '(r', w') => r' = r /\ world_ok w' (<[i := l']> ls)) (on (h, vs) i f).
Proof.
  intros Hw Hl Hf. unfold on. destruct (world_lookup _ _ _ _ Hw Hl) as (v & Hi & Hv). cbn [fst snd] in *. rewrite Hi.
  cbn [must mbind outcome_bind]. eapply runs_bind; [by apply Hf|]. intros [[r' v'] h'] [-> Hu]. apply runs_ok.
  split; [done|]. by eapply world_upd.
Qed.

(** The same for operations that only read. *)
Lemma on_read_ok h vs ls i l r f : world_ok (h, vs) ls -> ls !! i = Some l ->
  (forall v, vec_holds h v l -> f h v = Ok (r, v, h)) ->
  runs (fun '(r', w') => r' = r /\ world_ok w' ls) (on (h, vs) i f).
Proof.
  intros Hw Hl Hf. eapply runs_mono.
  - apply (on_ok h vs ls i l r l f Hw Hl). intros v Hv. rewrite (Hf v Hv). apply runs_ok. split; [done|].
    apply upd_refl; [apply Hw|done].
  - intros [r' w'] [-> Hok]. rewrite (list_insert_id ls i l Hl) in Hok. done.
Qed.

Lemma quiet_ok h v l' m : runs (fun '(v', h') => upd h v h' v' l') m ->
  runs (fun '(r', v', h') => r' = RNone /\ upd h v h' v' l') (quiet m).
Proof. intros Hm. unfold quiet. eapply runs_bind; [exact Hm|]. intros [v' h'] Hu. by apply runs_ok. Qed.

Lemma runs_exists h v l' m : (exists v' h', m = Ok (v', h') /\ upd h v h' v' l') -> runs (fun '(v', h') => upd h v h' v' l') m.
Proof. intros (v' & h' & -> & Hu). by apply runs_ok. Qed.

Lemma zlen_zero {B} (l : list B) : zlen l = 0 -> l = [].
Proof. destruct l as [|b l]; [done|]. rewrite zlen_cons. pose proof (zlen_nonneg l). lia. Qed.

Lemma take_split {B} (l : list B) k : 0 <= k <= zlen l ->
  l = take (Z.to_nat k) l ++ drop (Z.to_nat k) l /\ zlen (take (Z.to_nat k) l) = k /\ zlen (drop (Z.to_nat k) l) = zlen l - k.
Proof. intros Hk. rewrite take_drop. unfold zlen in *. rewrite length_take, length_drop. split; [done|lia]. Qed.

Lemma vexec_at h vs ls i n r ls' : world_ok (h, vs) ls -> vspec (VAt i n) ls = Some (r, ls') ->
  runs (fun '(r', w') => r' = r /\ world_ok w' ls') (vexec (VAt i n) (h, vs)).
Proof.
  intros Hw Hs. cbn [vspec vexec] in *. destruct (ls !! i) as [l|] eqn:Hl; [|done]. cbn [mbind option_bind] in Hs.
  destruct (Z.ltb_spec n 0); [done|].
  assert (ls' = ls /\ r = match zlookup l n with Some x => RElem x | None => ROutOfRange end) as [-> ->]
    by (destruct (zlookup l n); by simplify_eq).
  eapply on_read_ok; [done|done|]. intros v Hv. rewrite (vec_at_ok h v l n) by (done || apply Hw).
  destruct (Z.ltb_spec n (zlen l)).
  - destruct (zlookup_is_Some l n) as [x Hx]; [lia|]. by rewrite Hx.
  - by rewrite zlookup_None by lia.
Qed.

Lemma vexec_insert h vs ls i k n x r ls' : world_ok (h, vs) ls -> vspec (VInsert i k n x) ls = Some (r, ls') ->
  runs (fun '(r', w') => r' = r /\ world_ok w' ls') (vexec (VInsert i k n x) (h, vs)).
Proof.
  intros Hw Hs. cbn [vspec vexec] in *. destruct (ls !! i) as [l|] eqn:Hl; [|done]. cbn [mbind option_bind] in Hs.
  destruct (_ && _) eqn:Hc in Hs; [|done]. injection Hs as <- <-.
  apply andb_prop in Hc as [Hc Hcond]. apply andb_prop in Hc as [Hc Hk%Z.leb_le]. apply andb_prop in Hc as [Hc Hk0%Z.leb_le].
  apply andb_prop in Hc as [Hn%Z.ltb_lt Hfit%Z.ltb_lt].
  destruct (take_split l k ltac:(lia)) as (Hsplit & Ha & Hb).
  eapply on_ok; [done|done|]. intros v Hv. rewrite Hsplit in Hv. pose proof (proj1 Hw) as Hh. cbn [fst] in Hh.
  destruct (position_ok h v _ _ Hh Hv) as (p & Hp & _). rewrite Ha in Hp. rewrite Hp. cbn [mbind outcome_bind].
  eapply runs_bind; [apply (insert_fill_vec_ok h v _ _ n x p Hh Hv Hn)|].
  - by rewrite <- Hsplit.
  - rewrite Hb. apply orb_prop in Hcond as [Hc%Z.leb_le|Hc%Z.leb_le]; lia.
  - by rewrite Ha.
  - intros [[q v'] h'] [_ Hu]. by apply runs_ok.
Qed.

Lemma vexec_erase h vs ls i k r ls' : world_ok (h, vs) ls -> vspec (VErase i k) ls = Some (r, ls') ->
  runs (fun '(r', w') => r' = r /\ world_ok w' ls') (vexec (VErase i k) (h, vs)).
Proof.
  intros Hw Hs. cbn [vspec vexec] in *. destruct (ls !! i) as [l|] eqn:Hl; [|done]. cbn [mbind option_bind] in Hs.
  destruct (_ && _) eqn:Hc in Hs; [|done]. injection Hs as <- <-. apply andb_prop in Hc as [Hc Hlast%Z.leb_le]. apply andb_prop in Hc as [Hk0%Z.leb_le Hk%Z.ltb_lt].
  destruct (take_split l k ltac:(lia)) as (Hsplit & Ha & _).
  assert (exists x, l !! Z.to_nat k = Some x) as [x Hx] by (apply lookup_lt_is_Some; unfold zlen in *; lia).
  rewrite (drop_S _ _ _ Hx) in Hsplit. rewrite delete_take_drop.
  assert (length (drop (S (Z.to_nat k)) l) <= 1)%nat as Hshort by (rewrite length_drop; unfold zlen in *; lia).
  eapply on_ok; [done|done|]. intros v Hv. rewrite Hsplit in Hv. pose proof (proj1 Hw) as Hh. cbn [fst] in Hh.
  destruct (erase_vec_ok h v _ x _ Hh Hv) as (p & Hp & q & v' & h' & He & Hu). rewrite Ha in Hp. rewrite Hp.
  cbn [mbind outcome_bind]. rewrite He. cbn [mbind outcome_bind]. apply runs_ok. split; [done|].
  destruct (drop (S (Z.to_nat k)) l) as [|y [|]]; cbn in Hshort, Hu; [by rewrite app_nil_r|exact Hu|lia].
Qed.

Lemma vexec_move h vs ls i r ls' : world_ok (h, vs) ls -> vspec (VMove i) ls = Some (r, ls') ->
  runs (fun '(r', w') => r' = r /\ world_ok w' ls') (vexec (VMove i) (h, vs)).
Proof.
  intros Hw Hs. cbn [vspec vexec] in *. destruct (ls !! i) as [l|] eqn:Hl; [|done]. injection Hs as <- <-.
  destruct (world_lookup _ _ _ _ Hw Hl) as (v & Hi & Hv). cbn [fst snd] in *. rewrite Hi. cbn [must mbind outcome_bind].
  apply runs_ok. split; [done|]. pose proof (proj1 (proj2 Hw)) as Hlen. cbn [snd] in Hlen.
  pose proof (lookup_lt_Some _ _ _ Hi). pose proof (lookup_lt_Some _ _ _ Hl).
  assert (forall B (bs : list B) (b : B), (bs ++ [b]) !! length bs = Some b) as Hlast
    by (intros; by rewrite lookup_app_r, Nat.sub_diag by lia).
  pose proof (world_swap _ _ _ i (length vs) v null_vector l [] (world_snoc_null _ _ _ Hw)) as Hsw.
  rewrite (lookup_app_l vs) in Hsw by done. rewrite (lookup_app_l ls) in Hsw by done.
  specialize (Hsw Hi (Hlast _ _ _) Hl ltac:(rewrite Hlen; apply Hlast)).
  assert (forall B (bs : list B) (b c d : B) k, (i < length bs)%nat -> k = length bs ->
    <[i := c]> (<[k := d]> (bs ++ [b])) = <[i := c]> bs ++ [d]) as Hins.
  { intros B bs b c d k Hlt ->. rewrite insert_app_r_alt by lia. rewrite Nat.sub_diag, insert_app_l by done. done. }
  rewrite (Hins _ vs _ _ _ (length vs)), (Hins _ ls _ _ _ (length vs)) in Hsw by (done || lia). exact Hsw.
Qed.

(** The operations that build a new vector. *)
Lemma vexec_new h vs ls o r ls' :
  match o with VNewFill _ _ | VFromList _ | VCopy _ => True | _ => False end ->
  world_ok (h, vs) ls -> vspec o ls = Some (r, ls') ->
  runs (fun '(r', w') => r' = r /\ world_ok w' ls') (vexec o (h, vs)).
Proof.
  intros Ho Hw Hs. pose proof (proj1 Hw) as Hh. cbn [fst] in Hh. destruct o; try done; cbn [vspec vexec fst snd] in *.
  - destruct (_ && _) eqn:Hc in Hs; [|done]. apply andb_prop in Hc as [Hn%Z.leb_le Hb%Z.ltb_lt]. injection Hs as <- <-.
    eapply runs_bind; [by apply new_fill_ok|]. intros [v h'] Hu. apply runs_ok. split; [done|by eapply world_new].
  - destruct (Z.ltb_spec (zlen l * sz) (2 ^ 62)); [|done]. injection Hs as <- <-.
    eapply runs_bind; [by apply from_range_ok|]. intros [v h'] Hu. apply runs_ok. split; [done|by eapply world_new].
  - destruct (ls !! i) as [l|] eqn:Hl; [|done]. injection Hs as <- <-.
    destruct (world_lookup _ _ _ _ Hw Hl) as (v & Hi & Hv). cbn [fst snd] in *. rewrite Hi. cbn [must mbind outcome_bind].
    eapply runs_bind; [by apply copy_construct_vec_ok|]. intros [v' h'] Hu. apply runs_ok. split; [done|by eapply world_new].
Qed.

(** The operations that change one vector. *)
Lemma vexec_update h vs ls o r ls' :
  match o with
  | VPush _ _ | VEmplace _ _ | VPop _ | VResize _ _ _ | VReserve _ _ | VShrink _ | VClear _ | VAssignList _ _ | VDestroy _ => True
  | _ => False
  end ->
  world_ok (h, vs) ls -> vspec o ls = Some (r, ls') ->
  runs (fun '(r', w') => r' = r /\ world_ok w' ls') (vexec o (h, vs)).
Proof.
  intros Ho Hw Hs. pose proof (proj1 Hw) as Hh. cbn [fst] in Hh. destruct o; try done; cbn [vspec vexec fst snd] in *;
    (destruct (ls !! i) as [m|] eqn:Hl; [|done]); cbn [mbind option_bind] in Hs.
  - injection Hs as <- <-. eapply on_ok; [done|done|]. intros v Hv. apply quiet_ok. by apply push_back_ok.
  - injection Hs as <- <-. eapply on_ok; [done|done|]. intros v Hv. eapply runs_bind; [by apply emplace_back_ok|].
    intros [[y v'] h'] [-> Hu]. by apply runs_ok.
  - destruct (Z.eqb_spec (zlen m) 0) as [|Hne]; [done|]. injection Hs as <- <-. eapply on_ok; [done|done|]. intros v Hv.
    assert (m <> []) as Hm by (by intros ->). destruct (exists_last Hm) as (m' & y & ->). rewrite removelast_last.
    apply quiet_ok, runs_exists. by eapply pop_back_vec_ok.
  - destruct (Z.leb_spec 0 n); [|done]. injection Hs as <- <-. eapply on_ok; [done|done|]. intros v Hv. apply quiet_ok. by apply resize_ok.
  - injection Hs as <- <-. eapply on_ok; [done|done|]. intros v Hv. apply quiet_ok. eapply runs_mono; [by apply reserve_ok|].
    by intros [v' h'] [Hu _].
  - injection Hs as <- <-. eapply on_ok; [done|done|]. intros v Hv. apply quiet_ok. by apply shrink_ok.
  - injection Hs as <- <-. eapply on_ok; [done|done|]. intros v Hv. apply quiet_ok, runs_exists. by eapply clear_vec_ok.
  - destruct (Z.ltb_spec (zlen l * sz) (2 ^ 62)); [|done]. injection Hs as <- <-. eapply on_ok; [done|done|]. intros v Hv.
    apply quiet_ok. by eapply assign_op_list_ok.
  - injection Hs as <- <-. eapply on_ok; [done|done|]. intros v Hv.
    destruct (destroy_vec_ok h v m Hh Hv) as (h' & -> & Hu). cbn [mbind outcome_bind]. by apply runs_ok.
Qed.

(** The operations that only read, and [swap]. *)
Lemma vexec_read h vs ls o r ls' :
  match o with VFront _ | VBack _ | VSize _ | VEqual _ _ | VSwap _ _ => True | _ => False end ->
  world_ok (h, vs) ls -> vspec o ls = Some (r, ls') ->
  runs (fun '(r', w') => r' = r /\ world_ok w' ls') (vexec o (h, vs)).
Proof.
  intros Ho Hw Hs. pose proof (proj1 Hw) as Hh. cbn [fst] in Hh. destruct o; try done; cbn [vspec vexec fst snd] in *;
    (destruct (ls !! i) as [l|] eqn:Hl; [|done]); cbn [mbind option_bind] in Hs.
  - destruct (ls !! j) as [k|] eqn:Hk; [|done]. injection Hs as <- <-.
    destruct (world_lookup _ _ _ _ Hw Hl) as (v & Hi & _), (world_lookup _ _ _ _ Hw Hk) as (v2 & Hj & _). cbn [fst snd] in *.
    rewrite Hi, Hj. cbn [must mbind outcome_bind vec_swap m_swap_data]. apply runs_ok. split; [done|]. by apply world_swap.
  - destruct l as [|x l]; [done|]. injection Hs as <- <-. eapply on_read_ok; [done|done|]. intros v Hv.
    by rewrite (front_ok _ _ _ _ Hh Hv).
  - destruct (last l) as [x|] eqn:Hlast; [|done]. injection Hs as <- <-. apply last_Some in Hlast as [l' ->].
    eapply on_read_ok; [done|done|]. intros v Hv. by rewrite (back_ok _ _ _ _ Hh Hv).
  - injection Hs as <- <-. eapply on_read_ok; [done|done|]. intros v Hv. by rewrite (vec_size_ok _ _ _ Hh Hv).
  - destruct (ls !! j) as [k|] eqn:Hk; [|done]. injection Hs as <- <-.
    destruct (world_lookup _ _ _ _ Hw Hl) as (v & Hi & Hv), (world_lookup _ _ _ _ Hw Hk) as (v2 & Hj & Hv2). cbn [fst snd] in *.
    rewrite Hi, Hj. cbn [must mbind outcome_bind]. rewrite (vec_equal_ok _ _ _ _ _ Hh Hv Hv2). by apply runs_ok.
Qed.

Lemma vexec_ok o w ls r ls' : world_ok w ls -> vspec o ls = Some (r, ls') ->
  runs (fun '(r', w') => r' = r /\ world_ok w' ls') (vexec o w).
Proof.
  destruct w as [h vs]. intros Hw Hs.
  destruct o; first [by eapply vexec_new | by eapply vexec_update | by eapply vexec_read | by eapply vexec_at
    | by eapply vexec_insert | by eapply vexec_erase | by eapply vexec_move].
Qed.

Lemma vrun_ok os : forall w ls rs ls', world_ok w ls -> vspec_run os ls = Some (rs, ls') ->
  runs (fun '(rs', w') => rs' = rs /\ world_ok w' ls') (vrun os w).
Proof.
  induction os as [|o os IH]; intros w ls rs ls' Hw Hs; cbn [vspec_run vrun] in *.
  { injection Hs as <- <-. by apply runs_ok. }
  apply bind_Some in Hs as ([r ls1] & H1 & Hs). apply bind_Some in Hs as ([rs1 ls2] & H2 & Hs). injection Hs as <- <-.
  eapply runs_bind; [by eapply vexec_ok|]. intros [r' w1] [-> Hw1].
  eapply runs_bind; [by eapply IH|]. intros [rs' w2] [-> Hw2]. by apply runs_ok.
Qed.
End worlds.
End laws.

(** * The pool allocator behind the interface *)
Section pool_members.
Variables (debug : bool) (fuel : nat) (sizeof_T : Z).

(* @source include/ipcpp/stl/alloc_traits.h 25-38 allocator_traits::get_allocator *)
Definition pool_members : members pool := {|
  mb_allocate_at_least_offset := Some (allocate_at_least_offset debug fuel sizeof_T);
  mb_allocate_at_least := None;
  mb_allocate_offset := None;
  mb_allocate := AllocatesPointer (fun p n => '(a, p1) ← allocate debug fuel sizeof_T p n; Ok (Some a, p1));
  mb_deallocate := fun p a => '(_, p1) ← deallocate debug fuel p a; Ok p1;
  mb_offset_to_pointer := Some offset_to_pointer;
  mb_pointer_to_offset := Some pointer_to_offset;
  mb_max_size := Some (max_size sizeof_T)
|}.

(** The state between the calls of the vector: unlocked, sizes in units of 16 bytes,
    and [live] are the blocks in use. *)
Definition pool_inv (p : pool) (live_blocks : gmap Z Z) : Prop :=
  exists bl, pool_ok p bl /\ ph_locked p = false /\ ph_size p <= 32 * (Z.of_nat fuel - 2) /\ ph_size p < 2 ^ 61 /\
    Forall (fun b => (16 | b.2)) bl /\ live_blocks = list_to_map (live 0 bl) /\
    Forall (fun b => 0 < b.2) (live 0 bl).

Lemma alloc_blocks_div off bytes bl o z bl' : (16 | bytes) -> Forall (fun b => (16 | b.2)) bl ->
  alloc_blocks off bytes bl = Some (o, z, bl') -> Forall (fun b => (16 | b.2)) bl' /\ (16 | z).
Proof.
  intros Hd. revert off o z bl'. induction bl as [|[f s] r IH]; intros off o z bl' Hf Ha; [done|].
  apply Forall_cons in Hf as [Hs Hr]. cbn [alloc_blocks] in Ha. cbn [snd] in Hs. destruct (f && _).
  - destruct (_ >? _); injection Ha as <- <- <-.
    + split; [|done]. repeat (apply Forall_cons; split; [|]); try done. cbn [snd].
      apply Z.divide_sub_r; [by apply Z.divide_sub_r|by exists 2].
    + split; [|done]. by constructor.
  - destruct (alloc_blocks _ _ r) as [[[o1 z1] r1]|] eqn:E; [|done]. injection Ha as <- <- <-.
    destruct (IH _ _ _ _ Hr E) as [H1 H2]. split; [by constructor|done].
Qed.

Lemma merge_free_div r : forall s, (16 | s) -> Forall (fun b => (16 | b.2)) r -> Forall (fun b => (16 | b.2)) (merge_free s r).
Proof.
  induction r as [|[[] s'] r IH]; intros s Hs Hr; cbn [merge_free]; [by repeat constructor| |by constructor].
  apply Forall_cons in Hr as [Hs' Hr]. apply IH; [|done].
  apply Z.divide_add_r; [done|]. apply Z.divide_add_r; [done|by exists 2].
Qed.

Lemma free_blocks_div o bl : forall off bl', Forall (fun b => (16 | b.2)) bl -> free_blocks off o bl = Some bl' ->
  Forall (fun b => (16 | b.2)) bl'.
Proof.
  induction bl as [|[f s] r IH]; intros off bl' Hf Ha; [done|]. apply Forall_cons in Hf as [Hs Hr].
  cbn [free_blocks snd] in *. destruct (_ =? _); [injection Ha as <-; by apply merge_free_div|].
  destruct (free_blocks _ o r) as [r1|] eqn:E; [|done]. injection Ha as <-. specialize (IH _ _ Hr E).
  destruct f; [by apply merge_free_div|by constructor].
Qed.

Lemma live_NoDup off bl : sizes_ok bl -> NoDup (live off bl).*1.
Proof.
  intros Hs. apply NoDup_alt. intros i j o Hi Hj.
  apply list_lookup_fmap_Some in Hi as ([oi zi] & -> & Hi). apply list_lookup_fmap_Some in Hj as ([oj zj] & Heq & Hj).
  cbn in Heq. subst oj. destruct (Nat.lt_trichotomy i j) as [Hlt|[|Hlt]]; [exfalso|done|exfalso].
  - pose proof (live_sorted _ _ _ _ _ _ _ _ Hs Hlt Hi Hj). pose proof (list_elem_of_lookup_2 _ _ _ Hi) as Hin.
    apply live_bounds in Hin; [lia|done].
  - pose proof (live_sorted _ _ _ _ _ _ _ _ Hs Hlt Hj Hi). pose proof (list_elem_of_lookup_2 _ _ _ Hj) as Hin.
    apply live_bounds in Hin; [lia|done].
Qed.

Lemma length_extent bl : sizes_ok bl -> 32 * zlen bl <= extent bl.
Proof.
  induction 1 as [|[f s] r Hs _ IH]; [done|]. rewrite zlen_cons, extent_cons. cbn [snd] in *. lia.
Qed.

Lemma live_block p live_blocks o b : pool_inv p live_blocks -> live_blocks !! o = Some b ->
  exists bl, pool_ok p bl /\ (o, b) ∈ live 0 bl /\ 32 <= o /\ 0 < b /\ o + b <= ph_size p - 128 /\ (16 | b) /\ ph_size p < 2 ^ 61.
Proof.
  intros (bl & Hok & Hlock & Hf & Hsz & Hdiv & -> & Hpos) Hl. apply elem_of_list_to_map_2 in Hl.
  exists bl. split; [done|]. split; [done|]. pose proof (po_extent _ _ Hok).
  destruct (live_bounds _ _ _ _ (po_sizes _ _ Hok) Hl) as (H1 & _ & H3). rewrite Forall_forall in Hpos.
  specialize (Hpos _ Hl). cbn [snd] in Hpos. split; [lia|]. split; [done|]. split; [lia|]. split; [|done].
  destruct (live_split _ _ _ _ Hl) as (l & r & -> & _). apply Forall_app in Hdiv as [_ Hdiv].
  apply Forall_cons in Hdiv as [Hd _]. done.
Qed.

Lemma pool_fuel p bl : pool_ok p bl -> ph_size p <= 32 * (Z.of_nat fuel - 2) -> (length bl + 2 <= fuel)%nat.
Proof.
  intros Hok Hf. pose proof (length_extent _ (po_sizes _ _ Hok)). pose proof (po_extent _ _ Hok). unfold zlen in *. lia.
Qed.

Lemma pool_allocates p live_blocks n : 0 < sizeof_T -> pool_inv p live_blocks -> 0 < n -> n * sizeof_T < 2 ^ 62 ->
  allocate_at_least_offset debug fuel sizeof_T p n = Throw bad_alloc \/
  exists o b p', allocate_at_least_offset debug fuel sizeof_T p n = Ok (o, b, p') /\ pool_inv p' (<[o := b]> live_blocks) /\
    live_blocks !! o = None /\ n * sizeof_T <= b.
Proof.
  intros Hsz (bl & Hok & Hlock & Hf & Hsize & Hdiv & -> & Hpos) Hn Hb.
  unfold allocate_at_least_offset, with_lock. rewrite Hlock, u64_small by nia.
  destruct (align_up16_bounds (n * sizeof_T) ltac:(nia)) as [Hup Hmod]. set (bytes := align_up (n * sizeof_T) 16) in *.
  assert (pool_ok (set_locked p true) bl) as Hok' by (destruct Hok; by split).
  pose proof (m_allocate_ok debug (set_locked p true) bl fuel bytes ltac:(apply orb_true_r) Hok'
    ltac:(pose proof (pool_fuel p bl Hok Hf); lia) ltac:(nia)) as Ha.
  destruct (alloc_blocks 0 bytes bl) as [[[o z] b]|] eqn:Hbl; [|left; by rewrite Ha].
  right. destruct Ha as (p' & -> & Hp' & Hs' & _). exists o, z, (set_locked p' false). cbn [mbind outcome_bind].
  destruct (alloc_blocks_inv bytes bl 0 o z b ltac:(nia) (po_sizes _ _ Hok) (po_coalesced _ _ Hok) Hbl) as (G1 & G2 & G3 & G4 & G5 & G6).
  destruct (alloc_blocks_div 0 bytes bl o z b ltac:(by apply Z.mod_divide) Hdiv Hbl) as [Hd1 Hd2].
  pose proof (live_NoDup 0 b G1) as Hnd. pose proof Hnd as Hnd'. rewrite G5 in Hnd'. cbn in Hnd'. apply NoDup_cons in Hnd' as [Hni _].
  split; [done|]. split; [|split; [by apply not_elem_of_list_to_map_1|nia]].
  exists b. split; [destruct Hp'; by split|]. split; [done|]. cbn [ph_size set_locked] in *. rewrite Hs'. split; [done|]. split; [done|].
  split; [done|]. split.
  - rewrite (list_to_map_proper _ _ Hnd G5). done.
  - rewrite G5. constructor; [cbn [snd]; nia|done].
Qed.

Lemma pool_deallocates p live_blocks o b : pool_inv p live_blocks -> live_blocks !! o = Some b ->
  exists p', ('(_, p1) ← deallocate debug fuel p o; Ok p1) = Ok p' /\ pool_inv p' (delete o live_blocks).
Proof.
  intros (bl & Hok & Hlock & Hf & Hsize & Hdiv & -> & Hpos) Hl. apply elem_of_list_to_map_2 in Hl.
  pose proof (pool_fuel p bl Hok Hf) as Hfuel. pose proof (po_sizes _ _ Hok) as Hsz.
  destruct (live_split _ _ _ _ Hl) as (l & r & -> & ->). rewrite Z.add_0_l in *. rewrite length_app in Hfuel. simpl in Hfuel.
  destruct (deallocate_ok debug p l b r fuel Hlock Hok ltac:(lia) ltac:(lia)) as (p' & -> & H1 & H2 & H3).
  cbn [mbind outcome_bind]. exists p'. split; [done|].
  apply sizes_ok_app in Hsz as Hsz'. destruct Hsz' as [Hsl _].
  pose proof (free_blocks_at l false b r 0 Hsl) as Hfree. rewrite Z.add_0_l in Hfree.
  destruct (free_blocks_inv _ _ _ _ Hsz (po_coalesced _ _ Hok) Hfree) as (F1 & F2 & F3 & F4). specialize (F4 _ Hl).
  exists (close l (merge_free b r)). split; [done|]. split; [done|]. rewrite H3. split; [done|]. split; [done|].
  split; [by eapply free_blocks_div|]. pose proof (live_NoDup 0 _ Hsz) as Hnd. split.
  - rewrite (list_to_map_proper _ _ Hnd F4). cbn [list_to_map foldr uncurry]. rewrite delete_insert_id; [done|].
    apply not_elem_of_list_to_map_1. rewrite F4 in Hnd. by apply NoDup_cons in Hnd as [Hni _].
  - rewrite F4 in Hpos. by apply Forall_cons in Hpos as [_ Hpos].
Qed.

(** The pool implements the interface for element sizes that divide 16. *)
Lemma pool_laws : 0 < sizeof_T -> (sizeof_T | 16) -> AllocatorLaws pool_members sizeof_T pool_inv.
Proof.
  intros Hpos Hdiv. assert (sizeof_T <= 16) as Hle by (by apply Z.divide_pos_le).
  split.
  - lia.
  - intros p lv o b Hinv Hl. destruct (live_block _ _ _ _ Hinv Hl) as (bl & Hok & _ & H1 & H2 & H3 & H4 & H5).
    split; [lia|]. split; [lia|]. split; [lia|]. split; [by etrans|]. intros k Hk.
    split; [apply offset_to_pointer_in; lia|]. cbn. rewrite Z.gtb_ltb. destruct (Z.ltb_spec (ph_size p) (o + k)); [lia|done].
  - done.
  - intros p lv o b o' b' Hinv Hl Hl' Hne. destruct Hinv as (bl & Hok & _ & _ & _ & _ & -> & _).
    apply elem_of_list_to_map_2, list_elem_of_lookup_1 in Hl as [i Hi]. apply elem_of_list_to_map_2, list_elem_of_lookup_1 in Hl' as [j Hj].
    pose proof (po_sizes _ _ Hok) as Hs. destruct (Nat.lt_trichotomy i j) as [Hlt|[->|Hlt]].
    + left. pose proof (live_sorted _ _ _ _ _ _ _ _ Hs Hlt Hi Hj). lia.
    + congruence.
    + right. pose proof (live_sorted _ _ _ _ _ _ _ _ Hs Hlt Hj Hi). lia.
  - intros p lv (bl & Hok & _ & _ & Hs & _). unfold traits_max_size. cbn [mb_max_size pool_members]. unfold max_size.
    rewrite node_bytes_eq. pose proof (po_extent _ _ Hok). pose proof (length_extent _ (po_sizes _ _ Hok)). pose proof (zlen_nonneg bl).
    rewrite u64_small by lia. pose proof (Z.div_pos (ph_size p - 32) sizeof_T ltac:(lia) Hpos).
    pose proof (Z.mul_div_le (ph_size p - 32) sizeof_T Hpos). nia.
  - intros p lv o b Hinv Hl. destruct (live_block _ _ _ _ Hinv Hl) as (bl & Hok & _ & H1 & H2 & H3 & H4 & H5).
    unfold traits_max_size. cbn [mb_max_size pool_members]. unfold max_size. rewrite node_bytes_eq, u64_small by lia.
    pose proof (Z.mul_succ_div_gt (ph_size p - 32) sizeof_T Hpos). nia.
  - intros p lv n Hinv Hn Hb. by apply pool_allocates.
  - intros p lv o b Hinv Hl. by eapply pool_deallocates.
Qed.
End pool_members.

(** * Properties *)

(** C6 Vectors over one heap implement lists: whatever allocator keeps the laws of
    the interface, every sequence of constructions, pushes, pops, insertions,
    erasures, resizes, reservations, list assignments, swaps, moves, reads and
    destructions on any number of vectors has no undefined behaviour and gives the
    replies of the lists, unless it throws for lack of memory; the vectors never
    share a block.  Two operations are specified only where the code does what a list
    does: an insertion of [n] elements where at most one element is behind the
    position or [n] is at most one more than the elements behind it, and where
    the size and [n] add up to less than [2 ^ 64]; an erasure of the last element or
    of the one before it.  (With more elements behind the erased one, the last of
    them takes its place: [vector_erase_misplaces].) *)
Theorem vector_refines_lists {A T : Type} `{EqDecision T} (mb : members A) (sizeof_T : Z) (al_inv : A -> gmap Z Z -> Prop)
    (laws : AllocatorLaws mb sizeof_T al_inv) (os : list vop) (w : heap A T * list vector) (ls : list (list T)) rs ls' :
  world_ok sizeof_T al_inv w ls -> vspec_run sizeof_T os ls = Some (rs, ls') ->
  vrun mb sizeof_T os w = Throw bad_alloc \/ vrun mb sizeof_T os w = Throw length_error \/
  exists w', vrun mb sizeof_T os w = Ok (rs, w') /\ world_ok sizeof_T al_inv w' ls'.
Proof.
  intros Hw Hs. destruct (vrun_ok mb sizeof_T al_inv os w ls rs ls' Hw Hs) as [?|[?|([rs' w'] & ? & -> & ?)]]; eauto.
Qed.

(** An empty pool of 1024 bytes and no vectors. *)
Definition demo_heap : heap pool Z := {| hp_alloc := pool_construct 1024; hp_live := ∅; hp_cells := ∅ |}.

Lemma demo_pool_inv : pool_inv 40 (pool_construct 1024) ∅.
Proof.
  exists [(true, 864)]. split; [apply (pool_construct_ok 1024); lia|]. split; [done|]. split; [cbn; lia|]. split; [cbn; lia|].
  split; [|split; [done|by constructor]]. repeat constructor. by exists 54.
Qed.

Lemma demo_world_ok : world_ok 4 (pool_inv 40) (demo_heap, []) [].
Proof. split; [exact demo_pool_inv|]. done. Qed.

Definition demo_vops : list (@vop Z) :=
  [VFromList [1; 2; 3]; VPush 0 4; VInsert 0 1 2 9; VCopy 0; VErase 1 4; VPop 0; VMove 1; VSwap 0 2; VResize 2 6 7;
   VEmplace 0 5; VAssignList 1 [8]; VEqual 0 2; VAt 2 4; VAt 2 6; VShrink 0; VDestroy 1; VSize 2].
Definition demo_vreplies : list (@vreply Z) :=
  [RNone; RNone; RNone; RNone; RNone; RNone; RNone; RNone; RNone; RElem 5; RNone; RBool false; RElem 3; ROutOfRange; RNone; RNone; RSize 6].

Lemma vector_refines_lists_witness :
  AllocatorLaws (pool_members true 40 4) 4 (pool_inv 40) /\ world_ok 4 (pool_inv 40) (demo_heap, []) [] /\
  vspec_run 4 demo_vops [] = Some (demo_vreplies, [[1; 9; 9; 2; 4; 5]; []; [1; 9; 9; 2; 3; 7]]) /\
  exists w', vrun (pool_members true 40 4) 4 demo_vops (demo_heap, []) = Ok (demo_vreplies, w') /\
    world_ok 4 (pool_inv 40) w' [[1; 9; 9; 2; 4; 5]; []; [1; 9; 9; 2; 3; 7]].
Proof.
  assert (AllocatorLaws (pool_members true 40 4) 4 (pool_inv 40)) as Hlaws by (apply pool_laws; [lia|by exists 4]).
  assert (vspec_run 4 demo_vops [] = Some (demo_vreplies, [[1; 9; 9; 2; 4; 5]; []; [1; 9; 9; 2; 3; 7]])) as Hspec
    by (vm_compute; reflexivity).
  split; [exact Hlaws|]. split; [exact demo_world_ok|]. split; [exact Hspec|].
  destruct (vector_refines_lists (pool_members true 40 4) 4 (pool_inv 40) Hlaws demo_vops (demo_heap, []) [] _ _ demo_world_ok Hspec)
    as [Hr|[Hr|Hr]]; [vm_compute in Hr; discriminate Hr..|exact Hr].
Defined.

(** C25 The pool allocator provides what the vector relies on, for element sizes that
    divide its alignment of 16: the blocks are disjoint, inside the address range and
    whole numbers of elements, offsets and pointers convert back and forth, an
    allocation of at least one element and of fewer than [2 ^ 62] bytes in all returns a
    fresh block that is large enough or throws [bad_alloc] (the vector asks for no
    more; from [2 ^ 64] bytes on the product wraps around,
    [PoolAllocator.pool_request_wraps]), and freeing gives exactly that block back. *)
Theorem pool_provides_vector_memory (debug : bool) (fuel : nat) (sizeof_T : Z) :
  0 < sizeof_T -> (sizeof_T | 16) -> AllocatorLaws (pool_members debug fuel sizeof_T) sizeof_T (pool_inv fuel).
Proof. apply pool_laws. Qed.

Lemma pool_provides_vector_memory_witness :
  0 < 8 /\ (8 | 16) /\ AllocatorLaws (pool_members true 40 8) 8 (pool_inv 40) /\ pool_inv 40 (pool_construct 1024) ∅.
Proof.
  split; [lia|]. split; [by exists 2|]. split; [apply (pool_provides_vector_memory true 40 8); [lia|by exists 2]|].
  exact demo_pool_inv.
Defined.

(** Assigning to a vector whose storage is large enough does not replace its
    contents: [operator=(const vector&)], [assign(count, value)] and [assign] of a
    range destroy the old elements and construct the new ones in their place, but
    keep the old end, so the vector afterwards has the old and the new number of
    elements together, those between the new and the old size being destroyed
    objects whose reads are undefined. *)
Theorem vector_assign_extends {A T : Type} (mb : members A) (sizeof_T : Z) (al_inv : A -> gmap Z Z -> Prop)
    (laws : AllocatorLaws mb sizeof_T al_inv) (h : heap A T) (v w : vector) (xs ys : list T) (rest : list (option T)) (n : Z) (x : T) :
  heap_ok al_inv h -> vrep sizeof_T h v xs rest -> vec_holds sizeof_T h w ys -> vd_start w <> vd_start v ->
  zlen ys <= zlen xs + zlen rest -> 0 <= n <= zlen xs + zlen rest ->
  (exists h', vec_copy_assign mb sizeof_T false h v w = Ok (set_finish v (vd_start v + sizeof_T * (zlen xs + zlen ys)), h') /\
     overwritten mb sizeof_T al_inv h v xs ys h') /\
  (exists h', vec_assign_range mb sizeof_T h v ys = Ok (set_finish v (vd_start v + sizeof_T * (zlen xs + zlen ys)), h') /\
     overwritten mb sizeof_T al_inv h v xs ys h') /\
  (exists h', vec_assign_fill mb sizeof_T h v n x = Ok (set_finish v (vd_start v + sizeof_T * (zlen xs + n)), h') /\
     overwritten mb sizeof_T al_inv h v xs (replicate (Z.to_nat n) x) h').
Proof.
  intros Hh Hv' Hw Hne Hys Hn. pose proof Hv' as (_ & Hf & He).
  assert (forall k, vd_finish v + k * sizeof_T = vd_start v + sizeof_T * (zlen xs + k)) as Hfin by (intros; lia).
  split; [|split].
  - destruct (overwrite_ok mb sizeof_T al_inv h v xs rest ys Hh Hv' Hys) as (h1 & h2 & Hd & Hu & Hr & Hl & Ho).
    exists h2. split; [|done]. unfold vec_copy_assign. rewrite Hd. cbn [mbind outcome_bind].
    assert (vec_holds sizeof_T h1 w ys) as Hw1 by (eapply holds_other; [exact laws|exact Hh|exact Hu|exact Hw|congruence]).
    rewrite (vec_size_ok mb sizeof_T al_inv h1 w ys (proj1 Hu) Hw1). cbn [mbind outcome_bind]. rewrite Hr. cbn [mbind outcome_bind].
    unfold m_copy_initialize. rewrite to_nat_zlen.
    pose proof (copy_elements mb sizeof_T al_inv h1 (set_finish v (vd_start v)) w ys (proj1 Hu) Hw1) as Hc.
    change (start_ptr mb h1 (set_finish v (vd_start v))) with (start_ptr mb h1 v) in Hc. rewrite Hc, Hl.
    + cbn [mbind outcome_bind]. by rewrite Hfin.
    + left. cbn. congruence.
    + right. destruct Hu as (_ & [[Hnull _]|[rest1 Hv1]] & _).
      { assert (0 <= vd_start v) by (eapply vrep_bounds; done). injection Hnull as Hs' _. lia. }
      exists rest1. split; [done|]. destruct Hv1 as (_ & _ & He1). cbn [vd_end set_finish vd_start] in He1.
      pose proof (sz_pos mb sizeof_T al_inv). change (zlen []) with 0 in He1. rewrite He in He1. nia.
  - destruct (overwrite_ok mb sizeof_T al_inv h v xs rest ys Hh Hv' Hys) as (h1 & h2 & Hd & Hu & Hr & Hl & Ho).
    exists h2. split; [|done]. unfold vec_assign_range, m_copy_initialize_range. rewrite Hd. cbn [mbind outcome_bind].
    rewrite Hr. cbn [mbind outcome_bind]. rewrite Hl. cbn [mbind outcome_bind]. by rewrite Hfin.
  - assert (zlen (replicate (Z.to_nat n) x) = n) as Hz by (apply zlen_replicate; lia).
    destruct (overwrite_ok mb sizeof_T al_inv h v xs rest (replicate (Z.to_nat n) x) Hh Hv') as (h1 & h2 & Hd & Hu & Hr & Hl & Ho); [lia|].
    rewrite Hz in Hr. exists h2. split; [|done]. unfold vec_assign_fill, m_fill_initialize. rewrite Hd. cbn [mbind outcome_bind].
    rewrite Hr. cbn [mbind outcome_bind]. rewrite fill_loop_list, Hl. cbn [mbind outcome_bind]. by rewrite Hfin.
Qed.

(** The witness of the assignment: [v = {1, 2, 3}] and [w = {9}] in a pool. *)
Lemma vector_assign_extends_witness :
  exists (h : heap pool Z) v w rest, heap_ok (pool_inv 40) h /\ vrep 4 h v [1; 2; 3] rest /\ vec_holds 4 h w [9] /\
    exists h', vec_copy_assign (pool_members true 40 4) 4 false h v w = Ok (set_finish v (vd_start v + 4 * (3 + 1)), h') /\
      overwritten (pool_members true 40 4) 4 (pool_inv 40) h v [1; 2; 3] [9] h'.
Proof.
  assert (AllocatorLaws (pool_members true 40 4) 4 (pool_inv 40)) as Hlaws by (apply pool_laws; [lia|by exists 4]).
  destruct (vrun_ok (pool_members true 40 4) 4 (pool_inv 40) [VFromList [1; 2; 3]; VFromList [9]] (demo_heap, []) [] _ _ demo_world_ok eq_refl)
    as [Hr|[Hr|([rs [h vs]] & Hr & _ & Hw)]]; [vm_compute in Hr; discriminate Hr..|].
  destruct (world_lookup _ _ _ _ 0 [1; 2; 3] Hw eq_refl) as (v & Hv0 & Hv).
  destruct (world_lookup _ _ _ _ 1 [9] Hw eq_refl) as (w & Hw0 & Hw1). cbn [fst snd] in *.
  destruct Hv as [[_ ?]|[rest Hv]]; [done|]. exists h, v, w, rest. split; [apply Hw|]. split; [exact Hv|]. split; [exact Hw1|].
  assert (0 <= vd_start v) by (eapply vrep_bounds; [exact Hlaws|apply Hw|exact Hv]).
  pose proof (zlen_nonneg rest).
  destruct (vector_assign_extends (pool_members true 40 4) 4 (pool_inv 40) Hlaws h v w [1; 2; 3] [9] rest 0 0) as [Hc _];
    [apply Hw|exact Hv|exact Hw1| | | |exact Hc].
  - intros Heq. pose proof (proj2 (proj2 (proj2 Hw)) 1%nat 0%nat w v ltac:(done) Hw0 Hv0 Heq). lia.
  - change (zlen [9]) with 1. change (zlen [1; 2; 3]) with 3. lia.
  - change (zlen [1; 2; 3]) with 3. lia.
Defined.

(** Inserting more than one element beyond what follows the position loses
    elements: [_m_move_to] then takes its first branch, which writes every element
    behind the position to the same place.  After inserting [k] copies into
    [a ++ b ++ y] in front of [b ++ y], with [b] not empty and room for [k], the last
    element [y] is the only one of them that is found behind the copies; the places
    of the others hold what the unused storage held before. *)
Theorem vector_insert_loses {A T : Type} (mb : members A) (sizeof_T : Z) (al_inv : A -> gmap Z Z -> Prop)
    (laws : AllocatorLaws mb sizeof_T al_inv) (h : heap A T) (v : vector) (a b : list T) (y : T) (rest : list (option T)) (k : Z) (x : T) p :
  heap_ok al_inv h -> vrep sizeof_T h v (a ++ b ++ [y]) rest -> b <> [] -> zlen b + 2 < k <= zlen rest ->
  ptr_add sizeof_T (vec_begin mb h v) (zlen a) = Ok p ->
  exists r v' h', vec_insert_fill mb sizeof_T h v p k x = Ok (r, v', h') /\
    vd_start v' = vd_start v /\ vd_finish v' = vd_start v + sizeof_T * (zlen a + zlen b + 1 + k) /\
    block_at sizeof_T h' (vd_start v)
      ((Some <$> a) ++ replicate (Z.to_nat k) (Some x) ++ Some y :: drop (Z.to_nat (k - zlen b)) rest).
Proof.
  intros Hh Hv Hb Hk Hp. pose proof (sz_pos mb sizeof_T al_inv) as Hsz.
  pose proof (zlen_nonneg a). pose proof (zlen_nonneg b).
  assert (vec_holds sizeof_T h v (a ++ b ++ [y])) as Hholds by (right; by exists rest).
  assert (zlen (b ++ [y]) = zlen b + 1) as Hby by (by rewrite zlen_app).
  assert (zlen (a ++ b ++ [y]) = zlen a + zlen b + 1) as Hall by (rewrite zlen_app, Hby; lia).
  assert (start_ptr mb h v = Some (vd_start v)) as Hstart by (eapply vrep_start_ptr; done).
  unfold vec_begin in Hp. rewrite Hstart, ptr_add_start in Hp. injection Hp as <-.
  unfold vec_insert_fill, vec_begin. rewrite Hstart, (ptr_sub_start mb sizeof_T al_inv). cbn [mbind outcome_bind].
  rewrite (vrep_capacity mb sizeof_T al_inv h v _ rest Hh Hv), (vec_size_ok mb sizeof_T al_inv h v _ Hh Hholds). cbn [mbind outcome_bind].
  pose proof (vrep_length mb sizeof_T al_inv h v _ rest Hh Hv) as Hlen.
  rewrite u64_small by lia. rewrite (proj2 (Z.ltb_ge _ _)) by lia. cbn [mbind outcome_bind]. rewrite Hstart.
  rewrite (vrep_end mb sizeof_T al_inv h v _ rest Hh Hv), !(ptr_add_ok sizeof_T), ptr_add_start. cbn [mbind outcome_bind].
  unfold m_move_to. rewrite (proj2 (Z.eqb_neq _ _)) by nia. unfold vec_begin.
  rewrite Hstart, (ptr_sub_start mb sizeof_T al_inv), Hall. cbn [mbind outcome_bind].
  rewrite (ptr_add_start sizeof_T (vd_start v)), (ptr_sub_ok mb sizeof_T al_inv). cbn [mbind outcome_bind].
  rewrite (proj2 (Z.ltb_ge (vd_start v + sizeof_T * (zlen a + k)) _)) by nia. rewrite Z.gtb_ltb, (proj2 (Z.ltb_lt _ _)) by nia. cbn [orb].
  replace (zlen a + zlen b + 1 - zlen a) with (zlen (b ++ [y])) by lia. rewrite to_nat_zlen.
  pose proof (proj1 Hv) as Hbl. rewrite fmap_app, <- app_assoc in Hbl.
  destruct (zsplit_at rest (k - zlen b)) as (r1 & z & Hrest & Hr1); [lia|].
  set (r2 := drop (Z.to_nat (k - zlen b)) rest) in *.
  destruct (move_forward_ok mb sizeof_T al_inv (b ++ [y]) h (vd_start v) _ (zlen a + k) (zlen a) Hh Hbl) as (h1 & -> & Hw & Hb1).
  { rewrite !zlen_app, !zlen_fmap, Hby. lia. }
  { done. }
  { intros i q. apply lookup_some_middle. }
  { right. lia. }
  cbn [mbind outcome_bind]. rewrite last_snoc in Hb1.
  replace ((Some <$> a) ++ (Some <$> b ++ [y]) ++ rest) with (((Some <$> a) ++ (Some <$> b ++ [y]) ++ r1) ++ z :: r2) in Hb1
    by (rewrite <- !app_assoc, <- Hrest; done).
  rewrite insert_middle in Hb1 by (rewrite !zlen_app, !zlen_fmap, Hby; lia). rewrite <- app_assoc in Hb1.
  assert (heap_ok al_inv h1) as Hh1 by (by eapply within_ok).
  assert (zlen (replicate (Z.to_nat k) x) = k) as Hz by (apply zlen_replicate; lia). unfold construct_run.
  destruct (list_loop_ok mb sizeof_T al_inv (replicate (Z.to_nat k) x) h1 (vd_start v) (Some <$> a)
    ((Some <$> b ++ [y]) ++ r1) (Some y :: r2) Hh1 Hb1) as (h2 & Hl & Hb2 & Hw2).
  { rewrite zlen_app, zlen_fmap, Hby, Hz. lia. }
  rewrite zlen_fmap in Hl. rewrite Hl. cbn [mbind outcome_bind].
  assert (start_ptr mb h2 v = Some (vd_start v)) as Hstart2.
  { unfold start_ptr, to_ptr in *. destruct Hw as (Ha1 & _), Hw2 as (Ha2 & _). by rewrite Ha2, Ha1. }
  change (start_ptr mb h2 (set_finish v (vd_finish v + zlen (replicate (Z.to_nat k) x) * sizeof_T))) with (start_ptr mb h2 v).
  rewrite Hstart2. cbn [mbind outcome_bind ptr_add]. eexists _, _, h2. split; [done|]. cbn [vd_start vd_finish set_finish].
  split; [done|]. split; [rewrite (proj1 (proj2 Hv)), Hall, Hz; lia|]. by rewrite fmap_replicate in Hb2.
Qed.

Lemma vector_insert_loses_witness :
  exists (h : heap pool Z) v rest p, heap_ok (pool_inv 40) h /\ vrep 4 h v [1; 2; 3] rest /\ 4 <= zlen rest /\
  ptr_add 4 (vec_begin (pool_members true 40 4) h v) 1 = Ok p /\
  exists r v' h', vec_insert_fill (pool_members true 40 4) 4 h v p 4 9 = Ok (r, v', h') /\
    block_at 4 h' (vd_start v) ([Some 1; Some 9; Some 9; Some 9; Some 9; Some 3] ++ drop 3 rest).
Proof.
  assert (AllocatorLaws (pool_members true 40 4) 4 (pool_inv 40)) as Hlaws by (apply pool_laws; [lia|by exists 4]).
  set (os := [VFromList [1; 2; 3]; VReserve 0 8]).
  assert (('(_, w) ← vrun (pool_members true 40 4) 4 os (demo_heap, []); v ← must (w.2 !! 0%nat);
    vec_capacity (pool_members true 40 4) 4 w.1 v) = Ok 8) as Hcap by (vm_compute; reflexivity).
  destruct (vrun_ok (pool_members true 40 4) 4 (pool_inv 40) os (demo_heap, []) [] _ _ demo_world_ok eq_refl)
    as [Hr|[Hr|([rs [h vs]] & Hr & _ & Hw)]]; [vm_compute in Hr; discriminate Hr..|].
  destruct (world_lookup _ _ _ _ 0 [1; 2; 3] Hw eq_refl) as (v & Hv0 & Hv). rewrite Hr in Hcap.
  cbn [fst snd mbind outcome_bind] in *. rewrite Hv0 in Hcap. cbn [must mbind outcome_bind] in Hcap.
  destruct Hv as [[_ ?]|[rest Hv]]; [done|].
  rewrite (vrep_capacity _ 4 (pool_inv 40) h v _ rest (proj1 Hw) Hv) in Hcap. change (zlen [1; 2; 3]) with 3 in Hcap. injection Hcap as Hcap.
  assert (start_ptr (pool_members true 40 4) h v = Some (vd_start v)) as Hstart by (eapply vrep_start_ptr; [exact Hlaws|apply Hw|exact Hv]).
  assert (ptr_add 4 (vec_begin (pool_members true 40 4) h v) 1 = Ok (Some (vd_start v + 4 * 1))) as Hp.
  { unfold vec_begin. rewrite Hstart. reflexivity. }
  exists h, v, rest, (Some (vd_start v + 4 * 1)). split; [apply Hw|]. split; [exact Hv|]. split; [lia|]. split; [exact Hp|].
  destruct (vector_insert_loses (pool_members true 40 4) 4 (pool_inv 40) Hlaws h v [1] [2] 3 rest 4 9 (Some (vd_start v + 4 * 1)) (proj1 Hw) Hv) as (r & v' & h' & Hi & _ & _ & Hb);
    [discriminate|change (zlen [2]) with 1; lia|exact Hp|].
  exists r, v', h'. split; [exact Hi|exact Hb].
Defined.

(** Erasing an element that has others behind it puts the last one in its place and drops
    nothing else: the vector holds the other elements, but when more than one was behind
    the place they are no longer in order. *)
Theorem vector_erase_misplaces {A T : Type} (mb : members A) (sizeof_T : Z) (al_inv : A -> gmap Z Z -> Prop)
    (laws : AllocatorLaws mb sizeof_T al_inv) (h : heap A T) (v : vector) (a b : list T) (x y : T) p :
  heap_ok al_inv h -> vec_holds sizeof_T h v (a ++ x :: b ++ [y]) -> ptr_add sizeof_T (vec_begin mb h v) (zlen a) = Ok p ->
  exists r v' h', vec_erase mb sizeof_T h v p = Ok (r, v', h') /\ vec_holds sizeof_T h' v' (a ++ y :: b).
Proof.
  intros Hh Hv Hp. destruct (erase_vec_ok mb sizeof_T al_inv h v a x (b ++ [y]) Hh Hv) as (p' & Hp' & r & v' & h' & He & Hu).
  rewrite Hp in Hp'. injection Hp' as <-. exists r, v', h'. split; [done|]. rewrite last_snoc, removelast_last in Hu. apply Hu.
Qed.

(** Two more ways out of the memory of the vector, in a pool of 1024 bytes.  The
    end of the storage is the end of the block the allocator returned, which is a
    multiple of 16 bytes: for elements of 24 bytes it is never reached by whole
    elements, so the second [push_back] writes behind the block (and [capacity] is
    the difference of pointers that are not whole elements apart).  And inserting a
    range that does not fit keeps the iterator into the freed storage. *)
Theorem vector_leaves_storage :
  (exists v h, vec_new_fill (pool_members true 40 24) 24 demo_heap 1 5 = Ok (v, h) /\
     vd_start v = 32 /\ vd_finish v = 32 + 24 /\ vd_end v = 32 + 32 /\
     vec_push_back (pool_members true 40 24) 24 h v 6 = UB /\ vec_capacity (pool_members true 40 24) 24 h v = UB) /\
  (exists v h p, vec_from_range (pool_members true 40 4) 4 demo_heap [1; 2; 3] = Ok (v, h) /\
     ptr_add 4 (vec_begin (pool_members true 40 4) h v) 1 = Ok p /\
     vec_insert_range (pool_members true 40 4) 4 h v p [7; 8; 9] = UB /\
     exists r v' h', vec_insert_range (pool_members true 40 4) 4 h v p [7] = Ok (r, v', h')).
Proof.
  split.
  - eexists _, _. split; [vm_compute; reflexivity|]. repeat (split; [reflexivity|]). split; vm_compute; reflexivity.
  - eexists _, _, _. split; [vm_compute; reflexivity|]. split; [vm_compute; reflexivity|].
    split; [vm_compute; reflexivity|]. eexists _, _, _. vm_compute. reflexivity.
Qed.
