(* ===== verification/VectorTests.v ===== *)
(** The unit tests of the vector, evaluated on the model of [Vector].

    [tests/unit_tests/stl/vector_test.cpp] builds a vector of integers in a pool,
    edits it and compares its contents.  Each case below is one block of that file:
    the initial list, the edit and what the test expects.  The cases over
    [std::string] and other types that are not trivially copyable are outside the
    model.  [passing_cases] hold on the model as they stand in the source;
    [failing_cases] are those where the code, as it is written, gives something else. *)
From S2P Require Import Prelude Numeric PoolAllocator Vector.

(** * Running a case *)

(** The pool of the test program is larger; no case comes near the end of this one. *)
Definition suite_heap : heap pool Z := {| hp_alloc := pool_construct 4096; hp_live := ∅; hp_cells := ∅ |}.
Definition suite_members : members pool := pool_members true 200 4.

Fixpoint read_elements (h : heap pool Z) (v : vector) (k : nat) : outcome (list Z) :=
  match k with
  | O => Ok []
  | S k' => l ← read_elements h v k'; x ← vec_get suite_members 4 h v (Z.of_nat k'); Ok (l ++ [x])
  end.
Definition contents (h : heap pool Z) (v : vector) : outcome (list Z) :=
  n ← vec_size suite_members 4 h v; read_elements h v (Z.to_nat n).

Inductive edit : Type :=
| Insert (k x : Z)                  (* insert(begin() + k, x), also emplace *)
| InsertFill (k n x : Z)            (* insert(begin() + k, n, x) *)
| InsertRange (k : Z) (l : list Z)  (* insert(begin() + k, l.begin(), l.end()) *)
| Erase (k : Z)                     (* erase(begin() + k) *)
| EraseRange (k k' : Z)             (* erase(begin() + k, begin() + k') *)
| AssignOp (l : list Z)             (* operator=(l) *)
| AssignFill (n x : Z)              (* assign(n, x) *)
| AssignRange (l : list Z)          (* assign(l.begin(), l.end()) *)
| Resize (n : Z)                    (* resize(n) *)
| ResizeFill (n x : Z).             (* resize(n, x) *)

Definition apply_edit (e : edit) (h : heap pool Z) (v : vector) : outcome (vector * heap pool Z) :=
  let position k := ptr_add 4 (vec_begin suite_members h v) k in
  let drop_iterator (m : outcome (option Z * vector * heap pool Z)) := '(_, v', h') ← m; Ok (v', h') in
  match e with
  | Insert k x => p ← position k; drop_iterator (vec_insert suite_members 4 h v p x)
  | InsertFill k n x => p ← position k; drop_iterator (vec_insert_fill suite_members 4 h v p n x)
  | InsertRange k l => p ← position k; drop_iterator (vec_insert_range suite_members 4 h v p l)
  | Erase k => p ← position k; drop_iterator (vec_erase suite_members 4 h v p)
  | EraseRange k k' => p ← position k; q ← position k'; drop_iterator (vec_erase_range suite_members 4 h v p q)
  | AssignOp l => vec_assign_op_list suite_members 4 h v l
  | AssignFill n x => vec_assign_fill suite_members 4 h v n x
  | AssignRange l => vec_assign_range suite_members 4 h v l
  | Resize n => vec_resize suite_members 4 0 h v n
  | ResizeFill n x => vec_resize_fill suite_members 4 h v n x
  end.

(** [None] is a vector constructed without arguments. *)
Definition run_case (init : option (list Z)) (e : edit) : outcome (list Z) :=
  '(v, h) ← (match init with None => Ok (vec_default, suite_heap) | Some l => vec_from_range suite_members 4 suite_heap l end);
  '(v', h') ← apply_edit e h v;
  contents h' v'.

(** * The cases *)
Definition passing_cases : list (option (list Z) * edit * list Z) :=
  [ (* ilist_assign_operator, assign_size_value, assign_iterator, assign_initializer_list *)
    (None, AssignOp [1; 2; 3; 4; 5], [1; 2; 3; 4; 5]);
    (None, AssignFill 5 42, [42; 42; 42; 42; 42]);
    (None, AssignRange [1; 2; 3; 4; 5], [1; 2; 3; 4; 5]);
    (* insert_const_iterator, emplace *)
    (Some [1; 2; 3; 4; 5], Insert 2 10, [1; 2; 10; 3; 4; 5]);
    (Some [1; 2; 3], Insert 3 4, [1; 2; 3; 4]);
    (Some [2; 3; 4], Insert 0 1, [1; 2; 3; 4]);
    (None, Insert 0 1, [1]);
    (* insert_count_value *)
    (Some [1; 2; 6; 7], InsertFill 2 3 5, [1; 2; 5; 5; 5; 6; 7]);
    (Some [4; 5; 6; 7], InsertFill 0 2 1, [1; 1; 4; 5; 6; 7]);
    (Some [10; 20; 30], InsertFill 3 4 50, [10; 20; 30; 50; 50; 50; 50]);
    (Some [100; 200; 300], InsertFill 1 0 500, [100; 200; 300]);
    (None, InsertFill 0 3 42, [42; 42; 42]);
    (* insert_input_iterators, insert_initializer_list *)
    (Some [100; 200; 300], InsertRange 1 [], [100; 200; 300]);
    (* erase_iterator *)
    (Some [100; 200; 300], Erase 2, [100; 200]);
    (Some [42], Erase 0, []);
    (* erase_first_last_iterator *)
    (Some [10; 20; 30; 40], EraseRange 0 0, [10; 20; 30; 40]);
    (Some [10; 20; 30; 40], EraseRange 1 0, [10; 20; 30; 40]);
    (Some [100; 200; 300], EraseRange 1 3, [100]);
    (Some [100; 200; 300], EraseRange 2 3, [100; 200]);
    (Some [42], EraseRange 0 1, []);
    (Some [1; 2; 3; 4], EraseRange 0 4, []);
    (* resize, resize_with_value *)
    (Some [1; 2; 3], Resize 6, [1; 2; 3; 0; 0; 0]);
    (Some [1; 2; 3; 4; 5], Resize 3, [1; 2; 3]);
    (Some [1; 2; 3], Resize 3, [1; 2; 3]);
    (Some [1; 2; 3], ResizeFill 6 42, [1; 2; 3; 42; 42; 42]);
    (Some [1; 2; 3; 4; 5], ResizeFill 3 42, [1; 2; 3]);
    (None, ResizeFill 3 7, [7; 7; 7]) ].

(** The last component is what the code gives. *)
Definition failing_cases : list (option (list Z) * edit * list Z * outcome (list Z)) :=
  [ (* insert_input_iterators, insert_initializer_list: the storage is replaced *)
    (Some [1; 2; 6; 7], InsertRange 2 [3; 4; 5], [1; 2; 3; 4; 5; 6; 7], UB);
    (Some [4; 5; 6], InsertRange 0 [1; 2; 3], [1; 2; 3; 4; 5; 6], UB);
    (Some [10; 20; 30], InsertRange 3 [40; 50; 60], [10; 20; 30; 40; 50; 60], UB);
    (Some [1; 2], InsertRange 0 [3; 4; 5], [3; 4; 5; 1; 2], UB);
    (* erase_iterator, erase_first_last_iterator: elements remain behind the place *)
    (Some [1; 2; 3; 4; 5], Erase 2, [1; 2; 4; 5], Ok [1; 2; 5; 4]);
    (Some [10; 20; 30; 40], Erase 0, [20; 30; 40], Ok [40; 20; 30]);
    (Some [1; 2; 3; 4; 5], EraseRange 0 1, [2; 3; 4; 5], Ok [5; 2; 3; 4]);
    (Some [1; 2; 3; 4; 5], EraseRange 0 2, [3; 4; 5], Ok [5; 2; 3]) ].

(** Every case of the first list ends with the contents the test file expects. *)
Theorem vector_suite_passes : Forall (fun '(init, e, expected) => run_case init e = Ok expected) passing_cases.
Proof. unfold passing_cases. repeat (apply Forall_cons; split; [vm_compute; reflexivity|]). constructor. Qed.

(** The cases of the second list end otherwise: erasing elements that are not at the
    end overwrites one place again and again and then drops the wrong elements, and a
    range insert that replaces the storage goes on with a position in the old one. *)
Theorem vector_suite_fails :
  Forall (fun '(init, e, expected, actual) => run_case init e = actual /\ actual <> Ok expected) failing_cases.
Proof.
  unfold failing_cases.
  repeat (apply Forall_cons; split; [split; [vm_compute; reflexivity|discriminate]|]). constructor.
Qed.
