(* ===== verification/Iterators.v ===== *)
(** The iterators of the vector: [stl/ipcpp_iterator.h] over the pointers of [stl/vector.h].

    A [normal_iterator] is a pointer with the operators of a pointer; every operator is
    translated on its own.  What they are for is stated at the end: walking from
    [begin()] to [end()] of a vector, in either direction, reads its elements. *)
From S2P Require Import Prelude Numeric PoolAllocator Vector.

(** * Three-way comparison *)

(* @source include/ipcpp/stl/ipcpp_iterator.h 38-56 detail::synth3way *)
Definition synth3way {B : Type} (three_way : option (B -> B -> comparison)) (lt : B -> B -> bool) (t u : B) : comparison :=
  match three_way with
  | Some cmp => cmp t u
  | None => if lt t u then Lt else if lt u t then Gt else Eq
  end.

(** The two ways to compare agree for an order whose [<] belongs to its [<=>]. *)
Lemma synth3way_agree {B : Type} (cmp : B -> B -> comparison) (lt : B -> B -> bool) t u :
  (forall a b, lt a b = true <-> cmp a b = Lt) -> (forall a b, cmp b a = CompOpp (cmp a b)) ->
  synth3way (Some cmp) lt t u = synth3way None lt t u.
Proof.
  intros Hlt Hopp. cbn. destruct (lt t u) eqn:Htu; [by apply Hlt|]. destruct (lt u t) eqn:Hut.
  - apply Hlt in Hut. by rewrite Hopp, Hut.
  - destruct (cmp t u) eqn:Hc; [done|by apply Hlt in Hc; congruence|].
    pose proof (Hopp t u) as Hb. rewrite Hc in Hb. apply Hlt in Hb. congruence.
Qed.

Section normal_iterator.
Context {A T : Type} (sizeof_T : Z).

(* @source include/ipcpp/stl/ipcpp_iterator.h 64-66 normal_iterator *)
Record normal_iterator : Type := { it_current : option Z }.

(* @source include/ipcpp/stl/ipcpp_iterator.h 81-81 normal_iterator::normal_iterator *)
Definition it_default : normal_iterator := {| it_current := None |}.
(* @source include/ipcpp/stl/ipcpp_iterator.h 83-83 normal_iterator::normal_iterator(i) *)
Definition it_construct (i : option Z) : normal_iterator := {| it_current := i |}.
(* @source include/ipcpp/stl/ipcpp_iterator.h 125-125 normal_iterator::base *)
Definition it_base (i : normal_iterator) : option Z := it_current i.
(** From the iterator over elements to the one over constant elements. *)
(* @source include/ipcpp/stl/ipcpp_iterator.h 85-86 normal_iterator::normal_iterator(normal_iterator) *)
Definition it_convert (i : normal_iterator) : normal_iterator := {| it_current := it_base i |}.

(** ** Access *)

(* @source include/ipcpp/stl/ipcpp_iterator.h 89-89 normal_iterator::operator_star *)
Definition it_deref (h : heap A T) (i : normal_iterator) : outcome T := read sizeof_T h (it_current i).
(* @source include/ipcpp/stl/ipcpp_iterator.h 91-91 normal_iterator::operator_arrow *)
Definition it_arrow (i : normal_iterator) : option Z := it_current i.

(** ** Moving; a postfix operator returns the old iterator and the new one *)

(* @source include/ipcpp/stl/ipcpp_iterator.h 111-114 normal_iterator::operator_plus_assign *)
Definition it_plus_assign (i : normal_iterator) (n : Z) : outcome normal_iterator :=
  p ← ptr_add sizeof_T (it_current i) n; Ok {| it_current := p |}.
(* @source include/ipcpp/stl/ipcpp_iterator.h 118-121 normal_iterator::operator_minus_assign *)
Definition it_minus_assign (i : normal_iterator) (n : Z) : outcome normal_iterator :=
  p ← ptr_add sizeof_T (it_current i) (- n); Ok {| it_current := p |}.
(* @source include/ipcpp/stl/ipcpp_iterator.h 93-96 normal_iterator::operator_increment *)
Definition it_inc (i : normal_iterator) : outcome normal_iterator :=
  p ← ptr_add sizeof_T (it_current i) 1; Ok {| it_current := p |}.
(* @source include/ipcpp/stl/ipcpp_iterator.h 98-98 normal_iterator::operator_increment(int) *)
Definition it_post_inc (i : normal_iterator) : outcome (normal_iterator * normal_iterator) :=
  p ← ptr_add sizeof_T (it_current i) 1; Ok (it_construct (it_current i), {| it_current := p |}).
(* @source include/ipcpp/stl/ipcpp_iterator.h 101-104 normal_iterator::operator_decrement *)
Definition it_dec (i : normal_iterator) : outcome normal_iterator :=
  p ← ptr_add sizeof_T (it_current i) (-1); Ok {| it_current := p |}.
(* @source include/ipcpp/stl/ipcpp_iterator.h 106-106 normal_iterator::operator_decrement(int) *)
Definition it_post_dec (i : normal_iterator) : outcome (normal_iterator * normal_iterator) :=
  p ← ptr_add sizeof_T (it_current i) (-1); Ok (it_construct (it_current i), {| it_current := p |}).

(* @source include/ipcpp/stl/ipcpp_iterator.h 116-116 normal_iterator::operator_plus *)
Definition it_plus (i : normal_iterator) (n : Z) : outcome normal_iterator :=
  p ← ptr_add sizeof_T (it_current i) n; Ok (it_construct p).
(* @source include/ipcpp/stl/ipcpp_iterator.h 123-123 normal_iterator::operator_minus *)
Definition it_minus (i : normal_iterator) (n : Z) : outcome normal_iterator :=
  p ← ptr_add sizeof_T (it_current i) (- n); Ok (it_construct p).
(* @source include/ipcpp/stl/ipcpp_iterator.h 109-109 normal_iterator::operator_index *)
Definition it_index (h : heap A T) (i : normal_iterator) (n : Z) : outcome T :=
  p ← ptr_add sizeof_T (it_current i) n; read sizeof_T h p.

(** ** Free operators *)

(* @source include/ipcpp/stl/ipcpp_iterator.h 149-159 operator_equal *)
Definition it_equal (lhs rhs : normal_iterator) : bool := bool_decide (it_base lhs = it_base rhs).

(** [<=>] of two pointers.  Between a null pointer and another one the language does not
    say what it gives. *)
Definition ptr_three_way (p q : option Z) : outcome comparison :=
  match p, q with
  | Some a, Some b => Ok (synth3way (Some Z.compare) Z.ltb a b)
  | None, None => Ok Eq
  | _, _ => UB
  end.
(* @source include/ipcpp/stl/ipcpp_iterator.h 161-167 operator_three_way *)
Definition it_three_way (lhs rhs : normal_iterator) : outcome comparison := ptr_three_way (it_base lhs) (it_base rhs).

(* @source include/ipcpp/stl/ipcpp_iterator.h 176-180 operator_minus *)
Definition it_difference (lhs rhs : normal_iterator) : outcome Z := ptr_sub sizeof_T (it_base lhs) (it_base rhs).
(* @source include/ipcpp/stl/ipcpp_iterator.h 182-187 operator_plus *)
Definition it_offset (n : Z) (i : normal_iterator) : outcome normal_iterator :=
  p ← ptr_add sizeof_T (it_base i) n; Ok (it_construct p).

(** ** Walks *)

(** [for (it = from; it != to; ++it) visit( *it)]; the values in the order of the visits. *)
Fixpoint walk (fuel : nat) (h : heap A T) (from to : normal_iterator) : outcome (list T) :=
  if it_equal from to then Ok [] else
  match fuel with
  | O => UB
  | S fuel' => x ← it_deref h from; i ← it_inc from; xs ← walk fuel' h i to; Ok (x :: xs)
  end.

(** The same with [std::reverse_iterator]: it refers to the place before its base, and
    going on moves the base back. *)
Fixpoint walk_back (fuel : nat) (h : heap A T) (from to : normal_iterator) : outcome (list T) :=
  if it_equal from to then Ok [] else
  match fuel with
  | O => UB
  | S fuel' => p ← it_dec from; x ← it_deref h p; i ← it_dec from; xs ← walk_back fuel' h i to; Ok (x :: xs)
  end.
End normal_iterator.
Arguments walk {A T} sizeof_T fuel h from to.
Arguments walk_back {A T} sizeof_T fuel h from to.

(** * Iterators of a vector *)
Section vector_iterators.
Context {A T : Type} (mb : members A) (sizeof_T : Z) (al_inv : A -> gmap Z Z -> Prop).
Context `{!AllocatorLaws mb sizeof_T al_inv}.
Local Abbreviation sz := sizeof_T.

(* @source include/ipcpp/stl/vector.h 202-202 vector::begin *)
Definition it_begin (h : heap A T) (v : vector) : normal_iterator := it_construct (vec_begin mb h v).
(* @source include/ipcpp/stl/vector.h 204-204 vector::end *)
Definition it_end (h : heap A T) (v : vector) : outcome normal_iterator := p ← vec_end mb sz h v; Ok (it_construct p).

(** The iterator at place [i] of the block at [s]. *)
Definition at_place (s i : Z) : normal_iterator := it_construct (Some (s + sz * i)).

Lemma it_equal_place s i j : it_equal (at_place s i) (at_place s j) = (i =? j).
Proof.
  pose proof (sz_pos mb sz al_inv). unfold it_equal, at_place. cbn. destruct (Z.eqb_spec i j) as [->|Hne].
  - by rewrite bool_decide_true.
  - rewrite bool_decide_false; [done|]. intros [= Heq]. nia.
Qed.

(** Moving is addition, the difference its inverse, and the order that of the places. *)
Lemma iterator_arithmetic s i j n :
  it_plus sz (at_place s i) n = Ok (at_place s (i + n)) /\ it_minus sz (at_place s i) n = Ok (at_place s (i - n)) /\
  it_offset sz n (at_place s i) = Ok (at_place s (i + n)) /\
  it_plus_assign sz (at_place s i) n = Ok (at_place s (i + n)) /\ it_minus_assign sz (at_place s i) n = Ok (at_place s (i - n)) /\
  it_inc sz (at_place s i) = Ok (at_place s (i + 1)) /\ it_dec sz (at_place s i) = Ok (at_place s (i - 1)) /\
  it_post_inc sz (at_place s i) = Ok (at_place s i, at_place s (i + 1)) /\
  it_post_dec sz (at_place s i) = Ok (at_place s i, at_place s (i - 1)) /\
  it_difference sz (at_place s i) (at_place s j) = Ok (i - j) /\
  it_three_way (at_place s i) (at_place s j) = Ok (i ?= j).
Proof.
  pose proof (sz_pos mb sz al_inv).
  unfold it_plus, it_minus, it_offset, it_plus_assign, it_minus_assign, it_inc, it_dec, it_post_inc, it_post_dec, it_difference,
    it_base, at_place, it_construct. cbn [it_current].
  rewrite !(ptr_add_ok sz), (ptr_sub_ok mb sz al_inv). unfold it_three_way. cbn. split_and!; try done.
  f_equal. rewrite Zcompare_plus_compat. symmetry. apply Zmult_compare_compat_l. lia.
Qed.

Lemma it_deref_ok (h : heap A T) s ss i x : heap_ok al_inv h -> block_at sz h s ss -> 0 <= i -> ss !! Z.to_nat i = Some (Some x) ->
  it_deref sz h (at_place s i) = Ok x.
Proof. apply (read_ok mb sz al_inv). Qed.

(** Walks over a run of elements inside a block. *)
Lemma walk_run (h : heap A T) s xs : forall a c fuel, heap_ok al_inv h -> block_at sz h s (a ++ (Some <$> xs) ++ c) -> (length xs <= fuel)%nat ->
  walk sz fuel h (at_place s (zlen a)) (at_place s (zlen a + zlen xs)) = Ok xs.
Proof.
  induction xs as [|x xs IH]; intros a c fuel Hh Hb Hf.
  - rewrite zlen_nil, Z.add_0_r. destruct fuel; cbn [walk]; by rewrite it_equal_place, Z.eqb_refl.
  - destruct fuel as [|fuel]; [cbn in Hf; lia|]. cbn [walk]. rewrite it_equal_place, zlen_cons. pose proof (zlen_nonneg xs).
    rewrite (proj2 (Z.eqb_neq _ _)) by lia. pose proof (zlen_nonneg a).
    rewrite (it_deref_ok h s _ (zlen a) x Hh Hb); [|done|rewrite to_nat_zlen; by apply list_lookup_middle].
    cbn [mbind outcome_bind]. destruct (iterator_arithmetic s (zlen a) 0 0) as (_ & _ & _ & _ & _ & -> & _).
    cbn [mbind outcome_bind]. specialize (IH (a ++ [Some x]) c fuel Hh). rewrite zlen_app, zlen_cons, zlen_nil in IH.
    replace (zlen a + (zlen xs + 1)) with (zlen a + (0 + 1) + zlen xs) by lia.
    replace (zlen a + 1) with (zlen a + (0 + 1)) by lia. rewrite IH; [done| |cbn in Hf; lia]. by rewrite <- app_assoc.
Qed.

Lemma walk_back_run (h : heap A T) s xs : forall a c fuel, heap_ok al_inv h -> block_at sz h s (a ++ (Some <$> xs) ++ c) -> (length xs <= fuel)%nat ->
  walk_back sz fuel h (at_place s (zlen a + zlen xs)) (at_place s (zlen a)) = Ok (reverse xs).
Proof.
  induction xs as [|x xs IH] using rev_ind; intros a c fuel Hh Hb Hf.
  - rewrite zlen_nil, Z.add_0_r. destruct fuel; cbn [walk_back]; by rewrite it_equal_place, Z.eqb_refl.
  - rewrite length_app in Hf. destruct fuel as [|fuel]; [cbn in Hf; lia|]. cbn [walk_back]. rewrite it_equal_place, zlen_app. pose proof (zlen_nonneg xs).
    change (zlen [x]) with 1. rewrite (proj2 (Z.eqb_neq _ _)) by lia. pose proof (zlen_nonneg a).
    destruct (iterator_arithmetic s (zlen a + (zlen xs + 1)) 0 0) as (_ & _ & _ & _ & _ & _ & -> & _). cbn [mbind outcome_bind].
    replace (zlen a + (zlen xs + 1) - 1) with (zlen a + zlen xs) by lia. rewrite fmap_app, <- app_assoc in Hb.
    rewrite (it_deref_ok h s _ (zlen a + zlen xs) x Hh Hb); [|lia|].
    + cbn [mbind outcome_bind]. rewrite (IH a (Some x :: c)); [|done|done|cbn in Hf; lia]. cbn. by rewrite reverse_snoc.
    + rewrite app_assoc. apply list_lookup_middle. rewrite length_app, length_fmap. unfold zlen. lia.
Qed.

Lemma it_bounds (h : heap A T) v xs rest : heap_ok al_inv h -> vrep sz h v xs rest ->
  it_begin h v = at_place (vd_start v) 0 /\ it_end h v = Ok (at_place (vd_start v) (zlen xs)).
Proof.
  intros Hh Hv. unfold it_begin, it_end, vec_begin, at_place. rewrite (vrep_start_ptr mb sz al_inv h v xs rest Hh Hv), (vrep_end mb sz al_inv h v xs rest Hh Hv).
  by rewrite Z.mul_0_r, Z.add_0_r.
Qed.

(** A walk from [begin()] to [end()] ends after as many rounds as there are elements and reads
    them in order, a walk with the reverse iterators reads them in reverse, the difference of
    the ends is the size; the empty vector, whose pointers are null, included. *)
Theorem walks_read_vector (h : heap A T) v xs fuel : heap_ok al_inv h -> vec_holds sz h v xs -> (length xs <= fuel)%nat ->
  exists e, it_end h v = Ok e /\ walk sz fuel h (it_begin h v) e = Ok xs /\
    walk_back sz fuel h e (it_begin h v) = Ok (reverse xs) /\ it_difference sz e (it_begin h v) = Ok (zlen xs).
Proof.
  intros Hh [[-> ->]|[rest Hv]] Hf.
  - unfold it_end, vec_end. rewrite (vec_size_ok mb sz al_inv h null_vector []) by (done || by left).
    destruct (null_ptrs mb sz al_inv h Hh) as (Hs & _). unfold it_begin, vec_begin. rewrite Hs. cbn. eexists. split; [done|].
    by destruct fuel.
  - destruct (it_bounds h v xs rest Hh Hv) as [-> ->]. exists (at_place (vd_start v) (zlen xs)). pose proof (proj1 Hv) as Hb.
    split; [done|]. split; [by apply (walk_run h (vd_start v) xs [] rest)|].
    split; [by apply (walk_back_run h (vd_start v) xs [] rest)|].
    destruct (iterator_arithmetic (vd_start v) (zlen xs) 0 0) as (_ & _ & _ & _ & _ & _ & _ & _ & _ & -> & _). f_equal. lia.
Qed.
End vector_iterators.
