(* ===== verification/ShmAllocator.v ===== *)
(** The first-fit allocator of a shared memory region: [shm/allocator.h] with the
    doubly linked list of [utils/linked_list.h].

    The chunk headers are in the region, addressed by their address; the list that
    orders them is on the process heap, its nodes named by numbers.  Tracing output
    is left out. *)
From S2P Require Import Prelude Numeric.

(** * The linked list *)

(* @source include/ipcpp/utils/linked_list.h 44-47 linked_list::Node *)
Record lnode : Type := { ln_element : Z; ln_prev : option Z; ln_next : option Z }.

(** The heap of nodes and the next free name. *)
Record lheap : Type := { lh_nodes : gmap Z lnode; lh_fresh : Z }.

Definition set_ln_prev (n : lnode) (p : option Z) : lnode := {| ln_element := ln_element n; ln_prev := p; ln_next := ln_next n |}.
Definition set_ln_next (n : lnode) (p : option Z) : lnode := {| ln_element := ln_element n; ln_prev := ln_prev n; ln_next := p |}.

Definition load_node (h : lheap) (i : Z) : outcome lnode := must (lh_nodes h !! i).
Definition store_node (h : lheap) (i : Z) (n : lnode) : lheap := {| lh_nodes := <[i := n]> (lh_nodes h); lh_fresh := lh_fresh h |}.

(* @source include/ipcpp/utils/linked_list.h 16-16 linked_list::Node::Node *)
Definition node_new (h : lheap) (element : Z) : Z * lheap :=
  (lh_fresh h, {| lh_nodes := <[lh_fresh h := {| ln_element := element; ln_prev := None; ln_next := None |}]> (lh_nodes h);
                  lh_fresh := lh_fresh h + 1 |}).

(* @source include/ipcpp/utils/linked_list.h 18-27 linked_list::Node::insert *)
Definition node_insert (h : lheap) (this element : Z) : outcome (Z * lheap) :=
  let '(new_node, h1) := node_new h element in
  nn ← load_node h1 new_node;
  let h2 := store_node h1 new_node (set_ln_prev nn (Some this)) in
  t ← load_node h2 this;
  h4 ← match ln_next t with
       | Some next =>
         x ← load_node h2 next;
         let h3 := store_node h2 next (set_ln_prev x (Some new_node)) in
         nn ← load_node h3 new_node;
         Ok (store_node h3 new_node (set_ln_next nn (Some next)))
       | None => Ok h2
       end;
  t ← load_node h4 this;
  Ok (new_node, store_node h4 this (set_ln_next t (Some new_node))).

(* @source include/ipcpp/utils/linked_list.h 29-37 linked_list::Node::pop *)
Definition node_pop (h : lheap) (this : Z) : outcome lheap :=
  t ← load_node h this;
  h1 ← match ln_prev t with
       | Some p => x ← load_node h p; Ok (store_node h p (set_ln_next x (ln_next t)))
       | None => Ok h
       end;
  t ← load_node h1 this;
  match ln_next t with
  | Some n => x ← load_node h1 n; Ok (store_node h1 n (set_ln_prev x (ln_prev t)))
  | None => Ok h1
  end.

Definition node_delete (h : lheap) (this : Z) : lheap := {| lh_nodes := delete this (lh_nodes h); lh_fresh := lh_fresh h |}.

(** * The allocator *)

(* @source include/ipcpp/shm/allocator.h 54-61 SharedMemoryAllocator::Chunk *)
Record chunk : Type := { ck_size : Z; ck_free : bool }.

Definition sizeof_Chunk : Z := 16.

(* @source include/ipcpp/shm/allocator.h 178-183 SharedMemoryAllocator *)
Record shm_allocator : Type := {
  sa_addr : Z;
  sa_size : Z;
  sa_allocated_size : Z;
  sa_chunk_list : Z;
  sa_list : lheap;
  sa_chunks : gmap Z chunk
}.

Definition set_list (a : shm_allocator) (l : lheap) : shm_allocator :=
  {| sa_addr := sa_addr a; sa_size := sa_size a; sa_allocated_size := sa_allocated_size a;
     sa_chunk_list := sa_chunk_list a; sa_list := l; sa_chunks := sa_chunks a |}.
Definition set_chunk (a : shm_allocator) (addr : Z) (c : chunk) : shm_allocator :=
  {| sa_addr := sa_addr a; sa_size := sa_size a; sa_allocated_size := sa_allocated_size a;
     sa_chunk_list := sa_chunk_list a; sa_list := sa_list a; sa_chunks := <[addr := c]> (sa_chunks a) |}.
Definition set_allocated (a : shm_allocator) (n : Z) : shm_allocator :=
  {| sa_addr := sa_addr a; sa_size := sa_size a; sa_allocated_size := n;
     sa_chunk_list := sa_chunk_list a; sa_list := sa_list a; sa_chunks := sa_chunks a |}.

Definition load_chunk (a : shm_allocator) (addr : Z) : outcome chunk := must (sa_chunks a !! addr).

(* @source include/ipcpp/shm/allocator.h 64-75 SharedMemoryAllocator::SharedMemoryAllocator *)
Definition sa_construct (addr size : Z) : shm_allocator :=
  let '(n, l) := node_new {| lh_nodes := ∅; lh_fresh := 0 |} addr in
  {| sa_addr := addr; sa_size := size; sa_allocated_size := 0; sa_chunk_list := n; sa_list := l;
     sa_chunks := {[ addr := {| ck_size := u64 (size - sizeof_Chunk); ck_free := true |} ]} |}.

(* @source include/ipcpp/shm/allocator.h 112-137 SharedMemoryAllocator::allocate_from_list *)
Fixpoint allocate_from_list (fuel : nat) (a : shm_allocator) (node : option Z) (size : Z) : outcome (option Z * shm_allocator) :=
  match fuel, node with
  | O, _ => UB
  | S _, None => Ok (None, a)
  | S fuel', Some i =>
    n ← load_node (sa_list a) i;
    let c := ln_element n in
    ck ← load_chunk a c;
    if ck_free ck && (ck_size ck =? size) then
      Ok (Some c, set_chunk a c {| ck_size := ck_size ck; ck_free := false |})
    else if ck_free ck && (ck_size ck >? size) then
      let new_chunk := u64 (c + size) in
      '(_, l) ← node_insert (sa_list a) i new_chunk;
      let a1 := set_chunk (set_list a l) new_chunk {| ck_size := u64 (ck_size ck - size); ck_free := true |} in
      Ok (Some c, set_chunk a1 c {| ck_size := size; ck_free := false |})
    else allocate_from_list fuel' a (ln_next n) size
  end.

(* @source include/ipcpp/shm/allocator.h 77-88 SharedMemoryAllocator::allocate *)
Definition sa_allocate (fuel : nat) (a : shm_allocator) (size : Z) : outcome (Z * shm_allocator) :=
  let size := align_up (u64 (size + sizeof_Chunk)) 16 in
  '(c, a1) ← allocate_from_list fuel a (Some (sa_chunk_list a)) size;
  match c with
  | None => Throw bad_alloc
  | Some c => Ok (u64 (c + sizeof_Chunk), set_allocated a1 (u64 (sa_allocated_size a1 + size)))
  end.

(** One round of a coalescing loop: the chunk of [popped] is added to the one of [node]. *)
Definition absorb (a : shm_allocator) (node popped : Z) : outcome shm_allocator :=
  l ← node_pop (sa_list a) popped;
  n ← load_node l node; p ← load_node l popped;
  c ← load_chunk a (ln_element n); d ← load_chunk a (ln_element p);
  let a1 := set_chunk a (ln_element n) {| ck_size := u64 (ck_size c + ck_size d); ck_free := ck_free c |} in
  Ok (set_list a1 (node_delete l popped)).

(* @source include/ipcpp/shm/allocator.h 166-175 SharedMemoryAllocator::coalesce_forward *)
Fixpoint coalesce_forward (fuel : nat) (a : shm_allocator) (node : Z) : outcome shm_allocator :=
  match fuel with
  | O => UB
  | S fuel' =>
    n ← load_node (sa_list a) node;
    match ln_next n with
    | None => Ok a
    | Some next =>
      x ← load_node (sa_list a) next;
      c ← load_chunk a (ln_element x);
      if negb (ck_free c) then Ok a
      else a1 ← absorb a node next; coalesce_forward fuel' a1 node
    end
  end.

(* @source include/ipcpp/shm/allocator.h 154-164 SharedMemoryAllocator::coalesce_backwards *)
Fixpoint coalesce_backwards (fuel : nat) (a : shm_allocator) (node : Z) : outcome shm_allocator :=
  match fuel with
  | O => UB
  | S fuel' =>
    n ← load_node (sa_list a) node;
    match ln_prev n with
    | None => Ok a
    | Some prev =>
      x ← load_node (sa_list a) prev;
      c ← load_chunk a (ln_element x);
      if negb (ck_free c) then Ok a
      else next ← must (ln_next x); a1 ← absorb a prev next; coalesce_backwards fuel' a1 prev
    end
  end.

(** The search for the node of a chunk. *)
Fixpoint find_node (fuel : nat) (l : lheap) (node : option Z) (c : Z) : outcome (option Z) :=
  match fuel, node with
  | O, _ => UB
  | S _, None => Ok None
  | S fuel', Some i => n ← load_node l i; if ln_element n =? c then Ok (Some i) else find_node fuel' l (ln_next n) c
  end.

(* @source include/ipcpp/shm/allocator.h 139-152 SharedMemoryAllocator::coalesce *)
Definition coalesce (fuel : nat) (a : shm_allocator) (c : Z) : outcome shm_allocator :=
  found ← find_node fuel (sa_list a) (Some (sa_chunk_list a)) c;
  match found with
  | None => Ok a
  | Some node => a1 ← coalesce_forward fuel a node; coalesce_backwards fuel a1 node
  end.

(* @source include/ipcpp/shm/allocator.h 90-100 SharedMemoryAllocator::deallocate *)
Definition sa_deallocate (fuel : nat) (a : shm_allocator) (data : Z) : outcome shm_allocator :=
  if data =? 0 then Ok a
  else
    let c := u64 (data - sizeof_Chunk) in
    ck ← load_chunk a c;
    let a1 := set_chunk a c {| ck_size := ck_size ck; ck_free := true |} in
    let a2 := set_allocated a1 (u64 (sa_allocated_size a1 - ck_size ck)) in
    coalesce fuel a2 c.

(** The adapter: elements of [sizeof_T] bytes. *)
(* @source include/ipcpp/shm/allocator.h 197-197 SharedMemoryAllocatorAdapter::allocate *)
Definition adapter_allocate (fuel : nat) (sizeof_T : Z) (a : shm_allocator) (n : Z) : outcome (Z * shm_allocator) :=
  sa_allocate fuel a (u64 (n * sizeof_T)).

(* @source include/ipcpp/shm/allocator.h 199-203 SharedMemoryAllocatorAdapter::deallocate *)
Definition adapter_deallocate (fuel : nat) (a : shm_allocator) (p : Z) : outcome shm_allocator :=
  if p =? 0 then Ok a else sa_deallocate fuel a p.

(** * The specification: a list of chunks [(free, size)], sizes with their headers *)
Abbreviation block := (bool * Z)%type.

Definition extent (bl : list block) : Z := zsum snd bl.
Definition used_bytes (bl : list block) : Z := zsum (fun b : block => if b.1 then 0 else b.2) bl.

(** First fit: an exact fit is taken, a larger chunk is split. *)
Fixpoint spec_alloc (addr size : Z) (bl : list block) : option (Z * list block) :=
  match bl with
  | [] => None
  | (f, s) :: r =>
    if f && (s =? size) then Some (addr, (false, s) :: r)
    else if f && (size <? s) then Some (addr, (false, size) :: (true, s - size) :: r)
    else '(a, r') ← spec_alloc (addr + s) size r; Some (a, (f, s) :: r')
  end.

(** A free chunk of [s] bytes swallows the free chunks it meets. *)
Fixpoint swallow (s : Z) (r : list block) : Z * list block :=
  match r with
  | (true, s') :: r' => swallow (s + s') r'
  | _ => (s, r)
  end.

Definition spec_free (l : list block) (s : Z) (r : list block) : list block :=
  let '(s1, r1) := swallow s r in
  let '(s2, l2) := swallow s1 (rev l) in rev l2 ++ (true, s2) :: r1.

(** The chunks before, at and behind an address. *)
Fixpoint split_block (addr c : Z) (bl : list block) : option (list block * block * list block) :=
  match bl with
  | [] => None
  | b :: r =>
    if addr =? c then Some ([], b, r)
    else '(l, x, r') ← split_block (addr + b.2) c r; Some (b :: l, x, r')
  end.

Lemma sa_extent_app l k : extent (l ++ k) = extent l + extent k.
Proof. unfold extent. induction l; simpl; lia. Qed.
Lemma sa_extent_cons b l : extent (b :: l) = b.2 + extent l.
Proof. done. Qed.
Lemma used_app l k : used_bytes (l ++ k) = used_bytes l + used_bytes k.
Proof. unfold used_bytes. induction l; simpl; lia. Qed.
Lemma used_cons b l : used_bytes (b :: l) = (if b.1 then 0 else b.2) + used_bytes l.
Proof. done. Qed.

Definition sizes_ok (bl : list block) : Prop := Forall (fun b => 0 < b.2) bl.

Lemma sa_extent_nonneg bl : sizes_ok bl -> 0 <= extent bl.
Proof. unfold extent. induction 1; simpl; lia. Qed.

(** * Representation *)
Definition head_or (ids : list Z) (nx : option Z) : option Z := match ids with [] => nx | i :: _ => Some i end.
Definition last_or (p : option Z) (ids : list Z) : option Z := match last ids with None => p | Some i => Some i end.

(** Nodes [ids] carry the chunks [bl] from [addr] on, linked both ways. *)
Fixpoint chain (m : gmap Z lnode) (c : gmap Z chunk) (prev : option Z) (addr : Z) (ids : list Z) (bl : list block) (nx : option Z) : Prop :=
  match ids, bl with
  | [], [] => True
  | i :: ids', (f, s) :: bl' =>
    m !! i = Some {| ln_element := addr; ln_prev := prev; ln_next := head_or ids' nx |} /\
    c !! addr = Some {| ck_size := s; ck_free := f |} /\ chain m c (Some i) (addr + s) ids' bl' nx
  | _, _ => False
  end.

Lemma chain_length m c p a ids bl nx : chain m c p a ids bl nx -> length ids = length bl.
Proof.
  revert p a bl. induction ids as [|i ids IH]; intros p a [|[f s] bl]; try done. cbn. intros (_ & _ & H). f_equal. by eapply IH.
Qed.

Lemma chain_app m c ids1 bl1 ids2 bl2 nx : length ids1 = length bl1 -> forall p a,
  chain m c p a (ids1 ++ ids2) (bl1 ++ bl2) nx <->
  chain m c p a ids1 bl1 (head_or ids2 nx) /\ chain m c (last_or p ids1) (a + extent bl1) ids2 bl2 nx.
Proof.
  revert bl1. induction ids1 as [|i ids1 IH]; intros [|[f s] bl1] Hlen p a; try done.
  - cbn [app]. change (extent []) with 0. rewrite Z.add_0_r. cbn. tauto.
  - cbn [app chain]. injection Hlen as Hlen. rewrite (IH bl1 Hlen), sa_extent_cons. cbn [snd].
    replace (a + (s + extent bl1)) with (a + s + extent bl1) by lia.
    assert (last_or (Some i) ids1 = last_or p (i :: ids1)) as ->.
    { unfold last_or. rewrite last_cons. by destruct (last ids1). }
    assert (head_or (ids1 ++ ids2) nx = head_or ids1 (head_or ids2 nx)) as -> by (by destruct ids1). tauto.
Qed.

Lemma chain_split m c ids1 bl1 i ids2 f s bl2 nx p a : length ids1 = length bl1 ->
  chain m c p a (ids1 ++ i :: ids2) (bl1 ++ (f, s) :: bl2) nx <->
  chain m c p a ids1 bl1 (Some i) /\
  m !! i = Some {| ln_element := a + extent bl1; ln_prev := last_or p ids1; ln_next := head_or ids2 nx |} /\
  c !! (a + extent bl1) = Some {| ck_size := s; ck_free := f |} /\
  chain m c (Some i) (a + extent bl1 + s) ids2 bl2 nx.
Proof. intros Hlen. rewrite chain_app by done. cbn. tauto. Qed.

Lemma chain_frame m c m' c' ids bl nx : forall p a, sizes_ok bl ->
  (forall i, i ∈ ids -> m' !! i = m !! i) -> (forall o, a <= o < a + extent bl -> c' !! o = c !! o) ->
  chain m c p a ids bl nx -> chain m' c' p a ids bl nx.
Proof.
  revert bl. induction ids as [|i ids IH]; intros [|[f s] bl] p a Hs Hm Hc; try done. cbn [chain].
  apply Forall_cons in Hs as [Hs1 Hs]. cbn [snd] in Hs1. pose proof (sa_extent_nonneg bl Hs) as He.
  rewrite sa_extent_cons in Hc. cbn [snd] in Hc. intros (H1 & H2 & H3).
  split; [rewrite Hm; [done|apply elem_of_cons; by left]|]. split; [rewrite Hc; [done|lia]|].
  apply IH; [done| | |done]; intros; [apply Hm, elem_of_cons; by right|apply Hc; lia].
Qed.

(** Changing the predecessor of the first node. *)
Lemma chain_set_prev m c m' p p' a ids bl nx : NoDup ids ->
  (forall i, head ids = Some i -> exists n, m !! i = Some n /\ m' !! i = Some (set_ln_prev n p')) ->
  (forall i, i ∈ tail ids -> m' !! i = m !! i) ->
  chain m c p a ids bl nx -> chain m' c p' a ids bl nx.
Proof.
  intros Hnd Hhd Htl. destruct ids as [|i ids], bl as [|[f s] bl]; try done. cbn [chain].
  intros (H1 & H2 & H3). destruct (Hhd i eq_refl) as (n & Hn & Hn'). rewrite H1 in Hn. injection Hn as <-.
  split; [exact Hn'|]. split; [done|]. clear -Htl H3. cbn [tail] in Htl.
  assert (forall ids bl p a, (forall i, i ∈ ids -> m' !! i = m !! i) -> chain m c p a ids bl nx -> chain m' c p a ids bl nx) as Hfr.
  { clear. induction ids as [|i ids IH]; intros [|[f s] bl] p a Hm; try done. cbn. intros (H1 & H2 & H3).
    split; [rewrite Hm; [done|apply elem_of_cons; by left]|]. split; [done|]. apply IH; [|done].
    intros. apply Hm, elem_of_cons. by right. }
  by apply Hfr.
Qed.

Record sa_rep (a : shm_allocator) (ids : list Z) (bl : list block) : Prop := {
  sr_nodup : NoDup ids;
  sr_fresh : forall i, i ∈ ids -> i < lh_fresh (sa_list a);
  sr_head : head ids = Some (sa_chunk_list a);
  sr_sizes : sizes_ok bl;
  sr_addr : 0 < sa_addr a;
  sr_bound : sa_addr a + extent bl < 2 ^ 63;
  sr_chain : chain (lh_nodes (sa_list a)) (sa_chunks a) None (sa_addr a) ids bl None
}.

Lemma load_node_Some l i n : lh_nodes l !! i = Some n -> load_node l i = Ok n.
Proof. intros H. unfold load_node. by rewrite H. Qed.

Lemma load_chunk_Some a o c : sa_chunks a !! o = Some c -> load_chunk a o = Ok c.
Proof. intros H. unfold load_chunk. by rewrite H. Qed.

Lemma NoDup_mid (li rj : list Z) i j : NoDup (li ++ i :: j :: rj) ->
  (i ∉ li) /\ (j ∉ li) /\ i <> j /\ (i ∉ rj) /\ (j ∉ rj) /\ (forall k, k ∈ li -> k ∉ rj) /\ NoDup (li ++ i :: rj) /\ NoDup rj.
Proof.
  intros Hnd. assert (NoDup (li ++ i :: rj)) as Hnd'.
  { replace (li ++ i :: j :: rj) with ((li ++ [i]) ++ [j] ++ rj) in Hnd by (rewrite <- app_assoc; done).
    replace (li ++ i :: rj) with ((li ++ [i]) ++ rj) by (rewrite <- app_assoc; done).
    apply NoDup_app in Hnd as (H1 & H2 & H3). apply NoDup_app. split; [done|].
    split; [set_solver|]. by apply NoDup_app in H3 as (_ & _ & ?). }
  apply NoDup_app in Hnd as (H1 & H2 & H3). apply NoDup_cons in H3 as [H3 H4]. apply NoDup_cons in H4 as [H4 H5].
  repeat split; try done; set_solver.
Qed.

(** Popping [j] behind [i]. *)
Lemma node_pop_ok l i j pi rj A B : lh_nodes l !! i = Some {| ln_element := A; ln_prev := pi; ln_next := Some j |} ->
  lh_nodes l !! j = Some {| ln_element := B; ln_prev := Some i; ln_next := head rj |} ->
  i <> j -> i ∉ rj -> j ∉ rj -> (forall n, head rj = Some n -> is_Some (lh_nodes l !! n)) ->
  exists m', node_pop l j = Ok {| lh_nodes := m'; lh_fresh := lh_fresh l |} /\
    m' !! i = Some {| ln_element := A; ln_prev := pi; ln_next := head rj |} /\ m' !! j = lh_nodes l !! j /\
    (forall n, head rj = Some n -> exists x, lh_nodes l !! n = Some x /\ m' !! n = Some (set_ln_prev x (Some i))) /\
    (forall k, k <> i -> Some k <> head rj -> m' !! k = lh_nodes l !! k).
Proof.
  intros Hi Hj Hij Hirj Hjrj Hn. unfold node_pop. rewrite (load_node_Some _ _ _ Hj). cbn [mbind outcome_bind ln_prev ln_next].
  rewrite (load_node_Some _ _ _ Hi). cbn [mbind outcome_bind].
  rewrite (load_node_Some _ j _) by (cbn; rewrite lookup_insert_ne by done; exact Hj). cbn [mbind outcome_bind ln_prev ln_next].
  destruct rj as [|n rj]; cbn [head].
  - eexists. split; [done|]. cbn. rewrite lookup_insert_eq, lookup_insert_ne by done. repeat split; try done.
    intros k Hk _. by rewrite lookup_insert_ne.
  - assert (n <> i /\ n <> j) as [Hni Hnj] by (split; intros ->; set_solver).
    destruct (Hn n eq_refl) as [x Hx].
    rewrite (load_node_Some _ n x) by (cbn; rewrite lookup_insert_ne by done; exact Hx). cbn [mbind outcome_bind].
    eexists. split; [done|]. cbn. split; [by rewrite lookup_insert_ne, lookup_insert_eq by done|].
    split; [by rewrite !lookup_insert_ne by done|]. split.
    + intros n' [= <-]. exists x. split; [done|]. by rewrite lookup_insert_eq.
    + intros k Hki Hkn. rewrite !lookup_insert_ne; [done|done|congruence].
Qed.

Lemma absorb_ok a li i j rj l f s g t r : length li = length l ->
  sa_rep a (li ++ i :: j :: rj) (l ++ (f, s) :: (g, t) :: r) ->
  exists a', absorb a i j = Ok a' /\ sa_rep a' (li ++ i :: rj) (l ++ (f, s + t) :: r) /\
    sa_allocated_size a' = sa_allocated_size a /\ sa_addr a' = sa_addr a /\ sa_size a' = sa_size a.
Proof.
  intros Hlen [Hnd Hfr Hhd Hsz Haddr Hbd Hch].
  destruct (NoDup_mid _ _ _ _ Hnd) as (Hili & Hjli & Hij & Hirj & Hjrj & Hlirj & Hnd' & Hndr).
  apply chain_split in Hch as (Hc1 & Hi & Hci & Hc2); [|done]. cbn [chain head_or] in Hc2. destruct Hc2 as (Hj & Hcj & Hc2).
  replace (head_or rj None) with (head rj) in Hj by (by destruct rj).
  apply Forall_app in Hsz as Hsz'. destruct Hsz' as [Hsl Hsr]. apply Forall_cons in Hsr as [Hs Hsr].
  apply Forall_cons in Hsr as [Ht Hsr]. cbn [snd] in *.
  rewrite sa_extent_app, !sa_extent_cons in Hbd. cbn [snd] in Hbd.
  pose proof (sa_extent_nonneg l Hsl). pose proof (sa_extent_nonneg r Hsr).
  set (A := sa_addr a + extent l) in *.
  destruct (node_pop_ok _ i j _ rj _ _ Hi Hj Hij Hirj Hjrj) as (m' & Hpop & Hi' & Hj' & Hn' & Ho').
  { intros n Hn. destruct rj as [|n' rj]; [done|]. injection Hn as ->. destruct r as [|[f' s'] r]; [done|]. cbn in Hc2.
    destruct Hc2 as (Hx & _). by rewrite Hx. }
  unfold absorb. rewrite Hpop. cbn [mbind outcome_bind]. rewrite (load_node_Some {| lh_nodes := m' |} i _ Hi').
  rewrite Hj in Hj'. rewrite (load_node_Some {| lh_nodes := m' |} j _ Hj'). cbn [mbind outcome_bind ln_element].
  rewrite (load_chunk_Some _ _ _ Hci), (load_chunk_Some _ _ _ Hcj). cbn [mbind outcome_bind ck_size ck_free].
  rewrite u64_small by lia. eexists. split; [done|]. split; [|done].
  split; cbn [set_list set_chunk node_delete sa_list sa_chunks sa_addr sa_chunk_list lh_nodes lh_fresh].
  - done.
  - intros k Hk. apply Hfr. set_solver.
  - rewrite <- Hhd. by destruct li.
  - apply Forall_app. split; [done|]. constructor; [cbn [snd]; lia|done].
  - done.
  - rewrite sa_extent_app, sa_extent_cons. cbn [snd]. lia.
  - apply chain_split; [done|]. fold A. split; [|split; [|split]].
    + eapply chain_frame; [done| | |exact Hc1].
      * intros k Hk. rewrite lookup_delete_ne by (by intros ->). apply Ho'; [by intros ->|].
        destruct rj as [|n rj]; [done|]. intros [= ->]. apply (Hlirj n Hk). set_solver.
      * intros o Ho. rewrite lookup_insert_ne by lia. done.
    + rewrite lookup_delete_ne by done. rewrite Hi'. by destruct rj.
    + by rewrite lookup_insert_eq.
    + replace (A + (s + t)) with (A + s + t) by lia.
      eapply (chain_set_prev (lh_nodes (sa_list a)) _ _ (Some j)); [done| | |].
      * intros n Hn. destruct (Hn' n Hn) as (x & Hx & Hx'). exists x. split; [done|].
        rewrite lookup_delete_ne; [done|]. intros ->. destruct rj; [done|]. injection Hn as ->. set_solver.
      * intros n Hn. assert (n ∈ rj) as Hin by (destruct rj; [done|set_solver]).
        rewrite lookup_delete_ne by (by intros ->). apply Ho'; [by intros ->|].
        destruct rj as [|n' rj]; [done|]. intros [= ->]. cbn in Hn. by apply NoDup_cons in Hndr as [? _].
      * eapply chain_frame; [exact Hsr|done| |exact Hc2]. intros o Ho. rewrite lookup_insert_ne by lia. done.
Qed.

(** What an operation on the chunks keeps. *)
Definition same_region (a a' : shm_allocator) : Prop :=
  sa_allocated_size a' = sa_allocated_size a /\ sa_addr a' = sa_addr a /\ sa_size a' = sa_size a.

Lemma same_region_trans a b c : same_region a b -> same_region b c -> same_region a c.
Proof. unfold same_region. intuition congruence. Qed.

Lemma rep_node a li i rj l f s r : length li = length l -> sa_rep a (li ++ i :: rj) (l ++ (f, s) :: r) ->
  lh_nodes (sa_list a) !! i = Some {| ln_element := sa_addr a + extent l; ln_prev := last li; ln_next := head rj |} /\
  sa_chunks a !! (sa_addr a + extent l) = Some {| ck_size := s; ck_free := f |}.
Proof.
  intros Hlen Hr. pose proof (sr_chain _ _ _ Hr) as Hch. apply chain_split in Hch as (_ & H1 & H2 & _); [|done].
  split; [|done]. rewrite H1. unfold last_or. destruct rj; cbn; by destruct (last li).
Qed.

Lemma rep_length a ids bl : sa_rep a ids bl -> length ids = length bl.
Proof. intros Hr. eapply chain_length. apply Hr. Qed.

Lemma coalesce_forward_ok r : forall fuel a li i rj l f s, length li = length l -> (length r < fuel)%nat ->
  sa_rep a (li ++ i :: rj) (l ++ (f, s) :: r) ->
  exists a' rj', coalesce_forward fuel a i = Ok a' /\ same_region a a' /\
    sa_rep a' (li ++ i :: rj') (l ++ (f, (swallow s r).1) :: (swallow s r).2).
Proof.
  induction r as [|[g t] r IH]; intros [|fuel] a li i rj l f s Hlen Hf Hr; try (simpl in Hf; lia);
    cbn [coalesce_forward]; destruct (rep_node _ _ _ _ _ _ _ _ Hlen Hr) as [Hi Hci];
    rewrite (load_node_Some _ _ _ Hi); cbn [mbind outcome_bind ln_next]; pose proof (rep_length _ _ _ Hr) as Hl;
    rewrite !length_app in Hl; cbn [length] in Hl.
  - destruct rj; [|simpl in Hl; lia]. cbn [head swallow fst snd]. by exists a, [].
  - destruct rj as [|j rj]; [simpl in Hl; lia|]. cbn [head].
    assert (sa_rep a ((li ++ [i]) ++ j :: rj) ((l ++ [(f, s)]) ++ (g, t) :: r)) as Hr' by (by rewrite <- !app_assoc).
    assert (length (li ++ [i]) = length (l ++ [(f, s)])) as Hli by (rewrite !length_app; simpl; lia).
    destruct (rep_node _ _ _ _ _ _ _ _ Hli Hr') as [Hj Hcj].
    rewrite (load_node_Some _ _ _ Hj). cbn [mbind outcome_bind ln_element]. rewrite (load_chunk_Some _ _ _ Hcj).
    cbn [mbind outcome_bind ck_free]. destruct g; cbn [negb swallow fst snd]; [|by exists a, (j :: rj)].
    destruct (absorb_ok a li i j rj l f s true t r Hlen Hr) as (a1 & -> & Hr1 & Hs1). cbn [mbind outcome_bind].
    destruct (IH fuel a1 li i rj l f (s + t) Hlen ltac:(simpl in Hf; lia) Hr1) as (a' & rj' & -> & Hs2 & Hr2).
    exists a', rj'. split; [done|]. split; [by eapply same_region_trans|done].
Qed.

Lemma coalesce_backwards_ok l : forall fuel a li i rj s r, length li = length l -> (length l < fuel)%nat ->
  sa_rep a (li ++ i :: rj) (l ++ (true, s) :: r) ->
  exists a' ids', coalesce_backwards fuel a i = Ok a' /\ same_region a a' /\
    sa_rep a' ids' (rev (swallow s (rev l)).2 ++ (true, (swallow s (rev l)).1) :: r).
Proof.
  induction l as [|[g t] l IH] using rev_ind; intros [|fuel] a li i rj s r Hlen Hf Hr; try lia;
    cbn [coalesce_backwards]; destruct (rep_node _ _ _ _ _ _ _ _ Hlen Hr) as [Hi Hci];
    rewrite (load_node_Some _ _ _ Hi); cbn [mbind outcome_bind ln_prev].
  - destruct li; [|done]. cbn [last rev swallow fst snd]. by exists a, (i :: rj).
  - rewrite length_app in Hlen, Hf. simpl in Hlen, Hf. destruct (exists_last (l := li)) as (li' & j & ->); [by destruct li; simpl in *; [lia|]|].
    rewrite length_app in Hlen. simpl in Hlen. rewrite last_snoc, rev_app_distr. cbn [rev app].
    rewrite <- !app_assoc in Hr. cbn [app] in Hr. assert (length li' = length l) as Hlen' by lia.
    destruct (rep_node _ _ _ _ _ _ _ _ Hlen' Hr) as [Hj Hcj].
    rewrite (load_node_Some _ _ _ Hj). cbn [mbind outcome_bind ln_element ln_next]. rewrite (load_chunk_Some _ _ _ Hcj).
    cbn [mbind outcome_bind ck_free]. destruct g; cbn [negb swallow fst snd].
    + cbn [head must mbind outcome_bind].
      destruct (absorb_ok a li' j i rj l true t true s r Hlen' Hr) as (a1 & -> & Hr1 & Hs1). cbn [mbind outcome_bind].
      destruct (IH fuel a1 li' j rj (t + s) r Hlen' ltac:(lia) Hr1) as (a' & ids' & -> & Hs2 & Hr2).
      exists a', ids'. split; [done|]. split; [by eapply same_region_trans|]. by rewrite (Z.add_comm s t).
    + exists a, (li' ++ j :: i :: rj). split; [done|]. split; [done|].
      cbn [rev]. rewrite rev_involutive, <- app_assoc. exact Hr.
Qed.

Lemma find_node_ok l2 : forall fuel a li1 li2 l1 i rj f s r, length li1 = length l1 -> length li2 = length l2 -> (length l2 < fuel)%nat ->
  sa_rep a ((li1 ++ li2) ++ i :: rj) ((l1 ++ l2) ++ (f, s) :: r) ->
  find_node fuel (sa_list a) (head (li2 ++ i :: rj)) (sa_addr a + extent (l1 ++ l2)) = Ok (Some i).
Proof.
  induction l2 as [|[g t] l2 IH]; intros [|fuel] a li1 li2 l1 i rj f s r H1 H2 Hf Hr; try (simpl in Hf; lia).
  - destruct li2; [|done]. rewrite !app_nil_r in *. cbn [app head find_node].
    destruct (rep_node _ _ _ _ _ _ _ _ H1 Hr) as [Hi _]. rewrite (load_node_Some _ _ _ Hi). cbn [mbind outcome_bind ln_element].
    by rewrite Z.eqb_refl.
  - destruct li2 as [|j li2]; [done|]. cbn [app head find_node].
    assert (sa_rep a (li1 ++ j :: (li2 ++ i :: rj)) (l1 ++ (g, t) :: (l2 ++ (f, s) :: r))) as Hr' by (by rewrite <- !app_assoc in Hr).
    destruct (rep_node _ _ _ _ _ _ _ _ H1 Hr') as [Hj _]. rewrite (load_node_Some _ _ _ Hj). cbn [mbind outcome_bind ln_element ln_next].
    pose proof (sr_sizes _ _ _ Hr') as Hsz. apply Forall_app in Hsz as [_ Hsz]. apply Forall_cons in Hsz as [Ht Hsz]. cbn [snd] in Ht.
    apply Forall_app in Hsz as [Hsz _]. pose proof (sa_extent_nonneg l2 Hsz).
    rewrite sa_extent_app, sa_extent_cons. cbn [snd]. rewrite (proj2 (Z.eqb_neq _ _)) by lia.
    specialize (IH fuel a (li1 ++ [j]) li2 (l1 ++ [(g, t)]) i rj f s r). rewrite <- !app_assoc in IH. cbn [app] in IH.
    rewrite sa_extent_app, sa_extent_cons in IH. cbn [snd] in IH. apply IH; [rewrite !length_app; simpl; lia|simpl in H2; lia|simpl in Hf; lia|].
    rewrite <- !app_assoc in Hr. exact Hr.
Qed.

(** Freeing a chunk merges it with the free chunks on both sides. *)
Lemma sa_deallocate_ok fuel a ids l s r : sa_rep a ids (l ++ (false, s) :: r) -> (length l + length r + 1 < fuel)%nat ->
  sa_allocated_size a = used_bytes (l ++ (false, s) :: r) ->
  exists a' ids', sa_deallocate fuel a (sa_addr a + extent l + 16) = Ok a' /\ sa_rep a' ids' (spec_free l s r) /\
    sa_addr a' = sa_addr a /\ sa_size a' = sa_size a /\ sa_allocated_size a' = used_bytes (l ++ r).
Proof.
  intros Hr Hf Hacc. pose proof (rep_length _ _ _ Hr) as Hlen. rewrite length_app in Hlen. cbn [length] in Hlen.
  assert (exists li i rj, ids = li ++ i :: rj /\ length li = length l) as (li & i & rj & -> & Hli).
  { assert (is_Some (ids !! length l)) as [i Hi] by (apply lookup_lt_is_Some; lia).
    exists (take (length l) ids), i, (drop (S (length l)) ids). rewrite (take_drop_middle _ _ _ Hi), length_take. split; [done|lia]. }
  destruct (rep_node _ _ _ _ _ _ _ _ Hli Hr) as [Hi Hci]. pose proof (sr_addr _ _ _ Hr). pose proof (sr_bound _ _ _ Hr) as Hbd.
  pose proof (sr_sizes _ _ _ Hr) as Hsz. apply Forall_app in Hsz as [Hsl Hsr]. apply Forall_cons in Hsr as [Hs Hsr]. cbn [snd] in Hs.
  pose proof (sa_extent_nonneg l Hsl). pose proof (sa_extent_nonneg r Hsr). rewrite sa_extent_app, sa_extent_cons in Hbd. cbn [snd] in Hbd.
  unfold sa_deallocate. rewrite (proj2 (Z.eqb_neq _ _)) by lia. change sizeof_Chunk with 16.
  rewrite u64_small by lia. replace (sa_addr a + extent l + 16 - 16) with (sa_addr a + extent l) by lia.
  rewrite (load_chunk_Some _ _ _ Hci). cbn [mbind outcome_bind ck_size].
  set (a2 := set_allocated _ _).
  assert (sa_rep a2 (li ++ i :: rj) (l ++ (true, s) :: r)) as Hr2.
  { destruct Hr as [R1 R2 R3 R4 R5 R6 R7]. split; cbn; try done.
    - apply Forall_app. split; [done|]. by constructor.
    - rewrite sa_extent_app, sa_extent_cons in *. cbn [snd] in *. lia.
    - apply chain_split in R7 as (C1 & C2 & C3 & C4); [|done]. apply chain_split; [done|]. split; [|split; [done|split]].
      + eapply chain_frame; [done|done| |exact C1]. intros o Ho. by rewrite lookup_insert_ne by lia.
      + by rewrite lookup_insert_eq.
      + eapply chain_frame; [done|done| |exact C4]. intros o Ho. by rewrite lookup_insert_ne by lia. }
  unfold coalesce.
  pose proof (find_node_ok l fuel a2 [] li [] i rj true s r eq_refl Hli ltac:(lia) Hr2) as Hfind. cbn [app] in Hfind.
  rewrite <- (sr_head _ _ _ Hr2). change (sa_addr a2) with (sa_addr a) in Hfind. rewrite Hfind. cbn [mbind outcome_bind].
  destruct (coalesce_forward_ok r fuel a2 li i rj l true s Hli ltac:(lia) Hr2) as (a3 & rj' & -> & Hs3 & Hr3). cbn [mbind outcome_bind].
  destruct (coalesce_backwards_ok l fuel a3 li i rj' _ _ Hli ltac:(lia) Hr3) as (a4 & ids' & -> & Hs4 & Hr4).
  exists a4, ids'. split; [done|]. unfold spec_free. destruct (swallow s r) as [s1 r1]. cbn [fst snd] in Hr4.
  destruct (swallow s1 (rev l)) as [s2 l2]. split; [exact Hr4|].
  destruct Hs3 as (E1 & E2 & E3), Hs4 as (F1 & F2 & F3). split; [rewrite F2, E2; done|]. split; [rewrite F3, E3; done|].
  rewrite F1, E1. cbn. rewrite Hacc, !used_app, used_cons. cbn [fst snd].
  assert (forall bl, sizes_ok bl -> 0 <= used_bytes bl <= extent bl) as Hub.
  { unfold used_bytes, extent. induction 1 as [|[[] z] k Hz _ IHk]; cbn [zsum fst snd] in *; lia. }
  pose proof (Hub l Hsl). pose proof (Hub r Hsr). rewrite u64_small by lia. lia.
Qed.

(** Inserting a fresh node behind [i]. *)
Lemma node_insert_ok l i pi rj A element : lh_nodes l !! i = Some {| ln_element := A; ln_prev := pi; ln_next := head rj |} ->
  i < lh_fresh l -> (i ∉ rj) -> (forall n, head rj = Some n -> n < lh_fresh l /\ is_Some (lh_nodes l !! n)) ->
  exists m', node_insert l i element = Ok (lh_fresh l, {| lh_nodes := m'; lh_fresh := lh_fresh l + 1 |}) /\
    m' !! i = Some {| ln_element := A; ln_prev := pi; ln_next := Some (lh_fresh l) |} /\
    m' !! lh_fresh l = Some {| ln_element := element; ln_prev := Some i; ln_next := head rj |} /\
    (forall n, head rj = Some n -> exists x, lh_nodes l !! n = Some x /\ m' !! n = Some (set_ln_prev x (Some (lh_fresh l)))) /\
    (forall k, k <> i -> k <> lh_fresh l -> Some k <> head rj -> m' !! k = lh_nodes l !! k).
Proof.
  intros Hi Hfi Hirj Hn. unfold node_insert, node_new. set (F := lh_fresh l) in *.
  rewrite (load_node_Some {| lh_nodes := <[F := _]> _ |} F {| ln_element := element; ln_prev := None; ln_next := None |})
    by (cbn; by rewrite lookup_insert_eq).
  cbn [mbind outcome_bind]. unfold store_node. cbn [lh_nodes lh_fresh set_ln_prev ln_element ln_next].
  rewrite insert_insert_eq.
  rewrite (load_node_Some _ i {| ln_element := A; ln_prev := pi; ln_next := head rj |})
    by (cbn; rewrite lookup_insert_ne by lia; exact Hi).
  cbn [mbind outcome_bind ln_next]. destruct rj as [|n rj]; cbn [head].
  - cbn [mbind outcome_bind]. rewrite (load_node_Some _ i {| ln_element := A; ln_prev := pi; ln_next := None |})
      by (cbn; rewrite lookup_insert_ne by lia; exact Hi).
    cbn [mbind outcome_bind]. eexists. split; [done|]. cbn.
    split; [by rewrite lookup_insert_eq|]. split; [by rewrite lookup_insert_ne, lookup_insert_eq by lia|].
    split; [done|]. intros k Hki Hkf _. by rewrite !lookup_insert_ne by congruence.
  - destruct (Hn n eq_refl) as [Hnf [x Hx]]. assert (n <> i) as Hni by (intros ->; apply Hirj, elem_of_cons; by left).
    rewrite (load_node_Some _ n x) by (cbn; rewrite lookup_insert_ne by lia; exact Hx). cbn [mbind outcome_bind].
    rewrite (load_node_Some _ F {| ln_element := element; ln_prev := Some i; ln_next := None |})
      by (cbn; rewrite lookup_insert_ne by lia; by rewrite lookup_insert_eq).
    cbn [mbind outcome_bind]. rewrite (load_node_Some _ i {| ln_element := A; ln_prev := pi; ln_next := Some n |})
      by (cbn; rewrite !lookup_insert_ne by lia; exact Hi).
    cbn [mbind outcome_bind]. eexists. split; [done|]. cbn.
    split; [by rewrite lookup_insert_eq|]. split; [rewrite lookup_insert_ne by lia; by rewrite lookup_insert_eq|].
    split.
    + intros n' [= <-]. exists x. split; [done|]. rewrite !lookup_insert_ne by lia. by rewrite lookup_insert_eq.
    + intros k Hki Hkf Hkn. by rewrite !lookup_insert_ne by congruence.
Qed.

Lemma take_chunk_rep a li i rj l s r : length li = length l -> sa_rep a (li ++ i :: rj) (l ++ (true, s) :: r) ->
  sa_rep (set_chunk a (sa_addr a + extent l) {| ck_size := s; ck_free := false |}) (li ++ i :: rj) (l ++ (false, s) :: r).
Proof.
  intros Hlen [R1 R2 R3 R4 R5 R6 R7]. apply Forall_app in R4 as [Hsl Hsr]. apply Forall_cons in Hsr as [Hs Hsr]. cbn [snd] in Hs.
  pose proof (sa_extent_nonneg l Hsl). split; cbn; try done.
  - apply Forall_app. split; [done|]. by constructor.
  - rewrite sa_extent_app, sa_extent_cons in *. cbn [snd] in *. lia.
  - apply chain_split in R7 as (C1 & C2 & C3 & C4); [|done]. apply chain_split; [done|]. split; [|split; [done|split]].
    + eapply chain_frame; [done|done| |exact C1]. intros o Ho. by rewrite lookup_insert_ne by lia.
    + by rewrite lookup_insert_eq.
    + eapply chain_frame; [done|done| |exact C4]. intros o Ho. by rewrite lookup_insert_ne by lia.
Qed.

Lemma split_chunk_rep a li i rj l s r size m' : length li = length l ->
  sa_rep a (li ++ i :: rj) (l ++ (true, s) :: r) -> 0 < size < s ->
  let F := lh_fresh (sa_list a) in let A := sa_addr a + extent l in
  m' !! i = Some {| ln_element := A; ln_prev := last li; ln_next := Some F |} ->
  m' !! F = Some {| ln_element := A + size; ln_prev := Some i; ln_next := head rj |} ->
  (forall n, head rj = Some n -> exists x, lh_nodes (sa_list a) !! n = Some x /\ m' !! n = Some (set_ln_prev x (Some F))) ->
  (forall k, k <> i -> k <> F -> Some k <> head rj -> m' !! k = lh_nodes (sa_list a) !! k) ->
  sa_rep (set_chunk (set_chunk (set_list a {| lh_nodes := m'; lh_fresh := F + 1 |}) (A + size) {| ck_size := s - size; ck_free := true |})
    A {| ck_size := size; ck_free := false |}) (li ++ i :: F :: rj) (l ++ (false, size) :: (true, s - size) :: r).
Proof.
  intros Hlen [R1 R2 R3 R4 R5 R6 R7] Hsize F A Hi HF Hn Ho. apply Forall_app in R4 as [Hsl Hsr].
  apply Forall_cons in Hsr as [Hs Hsr]. cbn [snd] in Hs. pose proof (sa_extent_nonneg l Hsl).
  assert (F ∉ li ++ i :: rj) as HFn by (intros Hin; specialize (R2 _ Hin); subst F; lia).
  assert (NoDup (li ++ i :: F :: rj)) as Hnd.
  { clear -R1 HFn. apply NoDup_app in R1 as (H1 & H2 & H3). apply NoDup_cons in H3 as [H3 H4].
    apply NoDup_app. split; [done|]. split; [set_solver|]. repeat (apply NoDup_cons; split); set_solver. }
  destruct (NoDup_mid _ _ _ _ Hnd) as (Hili & HFli & HiF & Hirj & HFrj & Hlirj & _ & Hndr).
  split; cbn [set_chunk set_list sa_list sa_chunks sa_addr sa_chunk_list lh_nodes lh_fresh]; try done.
  - intros k Hk. subst F. apply elem_of_app in Hk as [Hk|Hk]; [pose proof (R2 k); set_solver by lia|].
    apply elem_of_cons in Hk as [->|Hk]; [assert (i < lh_fresh (sa_list a)); [apply R2|lia]; apply elem_of_app; right; apply elem_of_cons; by left|].
    apply elem_of_cons in Hk as [->|Hk]; [lia|]. assert (k < lh_fresh (sa_list a)); [|lia]. apply R2, elem_of_app. right. apply elem_of_cons. by right.
  - rewrite <- R3. by destruct li.
  - apply Forall_app. split; [done|]. constructor; [cbn [snd]; lia|]. constructor; [cbn [snd]; lia|done].
  - rewrite sa_extent_app, !sa_extent_cons in *. cbn [snd] in *. lia.
  - apply chain_split in R7 as (C1 & C2 & C3 & C4); [|done]. apply chain_split; [done|]. fold A. fold A in C3, C4.
    split; [|split; [|split]].
    + eapply chain_frame; [done| | |exact C1].
      * intros k Hk. apply Ho; [by intros ->|by intros ->|]. destruct rj as [|n rj]; [done|]. intros [= ->].
        apply (Hlirj n Hk), elem_of_cons. by left.
      * intros o Hoo. by rewrite !lookup_insert_ne by lia.
    + rewrite Hi. cbn. unfold last_or. by destruct (last li).
    + by rewrite lookup_insert_eq.
    + cbn [chain]. split; [rewrite HF; by destruct rj|]. split; [by rewrite lookup_insert_ne, lookup_insert_eq by lia|].
      replace (A + size + (s - size)) with (A + s) by lia.
      eapply (chain_set_prev (lh_nodes (sa_list a)) _ _ (Some i)); [done|exact Hn| |].
      * intros n Hin. assert (n ∈ rj) as Hin' by (destruct rj; [done|apply elem_of_cons; by right]).
        apply Ho; [by intros ->|by intros ->|]. destruct rj as [|n' rj]; [done|]. intros [= ->]. cbn in Hin. by apply NoDup_cons in Hndr as [? _].
      * eapply chain_frame; [exact Hsr|done| |exact C4]. intros o Hoo. by rewrite !lookup_insert_ne by lia.
Qed.

Lemma allocate_from_list_ok r : forall fuel a li rj l size, length li = length l -> (length r < fuel)%nat -> 0 < size ->
  sa_rep a (li ++ rj) (l ++ r) ->
  match spec_alloc (sa_addr a + extent l) size r with
  | None => allocate_from_list fuel a (head rj) size = Ok (None, a)
  | Some (c, r') => exists a' ids', allocate_from_list fuel a (head rj) size = Ok (Some c, a') /\
      same_region a a' /\ sa_rep a' ids' (l ++ r')
  end.
Proof.
  induction r as [|[f s] r IH]; intros [|fuel] a li rj l size Hlen Hf Hsize Hr; try (simpl in Hf; lia);
    pose proof (rep_length _ _ _ Hr) as Hl; rewrite !length_app in Hl; cbn [length spec_alloc] in *.
  - destruct rj; [done|simpl in Hl; lia].
  - destruct rj as [|i rj]; [simpl in Hl; lia|]. cbn [head allocate_from_list].
    destruct (rep_node _ _ _ _ _ _ _ _ Hlen Hr) as [Hi Hci]. rewrite (load_node_Some _ _ _ Hi). cbn [mbind outcome_bind ln_element].
    rewrite (load_chunk_Some _ _ _ Hci). cbn [mbind outcome_bind ck_free ck_size].
    destruct (f && (s =? size)) eqn:E1.
    { apply andb_prop in E1 as [-> _]. eexists _, (li ++ i :: rj). split; [done|]. split; [done|]. by apply take_chunk_rep. }
    rewrite Z.gtb_ltb. destruct (f && (size <? s)) eqn:E2.
    + apply andb_prop in E2 as [-> Hlt%Z.ltb_lt]. pose proof (sr_bound _ _ _ Hr) as Hbd. pose proof (sr_addr _ _ _ Hr).
      pose proof (sr_sizes _ _ _ Hr) as Hsz. apply Forall_app in Hsz as [Hsl Hsr]. apply Forall_cons in Hsr as [Hs Hsr].
      pose proof (sa_extent_nonneg l Hsl). pose proof (sa_extent_nonneg r Hsr). rewrite sa_extent_app, sa_extent_cons in Hbd. cbn [snd] in *.
      pose proof (sr_nodup _ _ _ Hr) as Hnd. apply NoDup_app in Hnd as (_ & _ & Hnd). apply NoDup_cons in Hnd as [Hirj _].
      destruct (node_insert_ok (sa_list a) i (last li) rj _ (sa_addr a + extent l + size) Hi) as (m' & Hins & M1 & M2 & M3 & M4).
      { apply (sr_fresh _ _ _ Hr), elem_of_app. right. apply elem_of_cons. by left. }
      { done. }
      { intros n Hn. destruct rj as [|n' rj]; [done|]. injection Hn as ->. split.
        - apply (sr_fresh _ _ _ Hr), elem_of_app. right. apply elem_of_cons. right. apply elem_of_cons. by left.
        - pose proof (sr_chain _ _ _ Hr) as Hch. apply chain_split in Hch as (_ & _ & _ & Hch); [|done].
          destruct r as [|[f' s'] r]; [done|]. cbn in Hch. destruct Hch as (Hx & _). by rewrite Hx. }
      rewrite (u64_small (sa_addr a + extent l + size)) by lia. rewrite Hins. cbn [mbind outcome_bind]. rewrite u64_small by lia.
      eexists _, (li ++ i :: lh_fresh (sa_list a) :: rj). split; [done|]. split; [done|]. by apply split_chunk_rep.
    + specialize (IH fuel a (li ++ [i]) rj (l ++ [(f, s)]) size). rewrite <- !app_assoc in IH. cbn [app] in IH.
      rewrite sa_extent_app, sa_extent_cons in IH. cbn [snd] in IH. change (extent []) with 0 in IH.
      replace (sa_addr a + (extent l + (s + 0))) with (sa_addr a + extent l + s) in IH by lia.
      specialize (IH ltac:(rewrite !length_app; simpl; lia) ltac:(lia) Hsize Hr). cbn [ln_next].
      destruct (spec_alloc _ size r) as [[c r']|]; cbn [mbind option_bind]; [|exact IH].
      destruct IH as (a' & ids' & IH & Hs' & Hr'). exists a', ids'. split; [exact IH|]. split; [done|].
      rewrite <- app_assoc in Hr'. exact Hr'.
Qed.

(** * Facts of the specification *)
Definition first_free (bl : list block) : bool := match bl with (true, _) :: _ => true | _ => false end.

(** No two free chunks are neighbours. *)
Fixpoint coalesced (bl : list block) : bool :=
  match bl with
  | [] => true
  | (f, _) :: r => negb (f && first_free r) && coalesced r
  end.

Definition last_free (bl : list block) : bool := first_free (rev bl).

Lemma coalesced_app l r : coalesced (l ++ r) = coalesced l && coalesced r && negb (last_free l && first_free r).
Proof.
  induction l as [|[f s] l IH]; [unfold last_free; cbn; by destruct (coalesced r)|]. cbn [app coalesced]. rewrite IH. unfold last_free. cbn [rev].
  destruct l as [|[g t] l]; [cbn; destruct f, (coalesced r), (first_free r); done|].
  assert (first_free (rev ((g, t) :: l) ++ [(f, s)]) = first_free (rev ((g, t) :: l))) as ->.
  { destruct (rev ((g, t) :: l)) eqn:E; [|done]. apply (f_equal length) in E. rewrite length_rev in E. done. }
  cbn [app first_free]. destruct f, g, (coalesced _), (coalesced r), (first_free r), (first_free (rev _)); done.
Qed.

Lemma swallow_facts r : forall s, 0 < s -> sizes_ok r ->
  let '(s', r') := swallow s r in
  0 < s' /\ sizes_ok r' /\ s' + extent r' = s + extent r /\ used_bytes r' = used_bytes r /\ first_free r' = false /\
  (coalesced r = true -> coalesced r' = true) /\ (length r' <= length r)%nat.
Proof.
  induction r as [|[[] t] r IH]; intros s Hs Hr; cbn [swallow].
  - repeat split; done || lia.
  - apply Forall_cons in Hr as [Ht Hr]. cbn [snd] in Ht. specialize (IH (s + t) ltac:(lia) Hr).
    destruct (swallow (s + t) r) as [s' r']. destruct IH as (H1 & H2 & H3 & H4 & H5 & H6 & H7).
    rewrite sa_extent_cons, used_cons. cbn [fst snd coalesced length]. repeat split; try done; try lia.
    intros [_ Hc]%andb_prop. by apply H6.
  - repeat split; done || lia.
Qed.

Lemma extent_rev l : extent (rev l) = extent l.
Proof. induction l as [|b l IH]; [done|]. cbn [rev]. rewrite sa_extent_app, IH, !sa_extent_cons. change (extent []) with 0. lia. Qed.
Lemma used_rev l : used_bytes (rev l) = used_bytes l.
Proof. induction l as [|b l IH]; [done|]. cbn [rev]. rewrite used_app, IH, !used_cons. change (used_bytes []) with 0. lia. Qed.
Lemma coalesced_rev l : coalesced (rev l) = coalesced l.
Proof.
  induction l as [|[f s] l IH]; [done|]. cbn [rev]. rewrite coalesced_app, IH. unfold last_free. rewrite rev_involutive.
  cbn. destruct f, (coalesced l), (first_free l); done.
Qed.

Lemma spec_free_facts l s r : sizes_ok (l ++ (false, s) :: r) -> coalesced (l ++ (false, s) :: r) = true ->
  extent (spec_free l s r) = extent (l ++ (false, s) :: r) /\ coalesced (spec_free l s r) = true /\
  used_bytes (spec_free l s r) = used_bytes (l ++ r) /\ (length (spec_free l s r) <= length (l ++ (false, s) :: r))%nat.
Proof.
  intros Hsz Hc. apply Forall_app in Hsz as [Hl Hr]. apply Forall_cons in Hr as [Hs Hr]. cbn [snd] in Hs.
  rewrite coalesced_app in Hc. cbn [coalesced first_free andb negb] in Hc.
  apply andb_prop in Hc as [Hc _]. apply andb_prop in Hc as [Hcl Hcr].
  pose proof (swallow_facts r s Hs Hr) as H1. unfold spec_free. destruct (swallow s r) as [s1 r1].
  destruct H1 as (A1 & A2 & A3 & A4 & A5 & A6 & A7).
  pose proof (swallow_facts (rev l) s1 A1 ltac:(by apply Forall_rev)) as H2. destruct (swallow s1 (rev l)) as [s2 l2].
  destruct H2 as (B1 & B2 & B3 & B4 & B5 & B6 & B7). rewrite extent_rev in B3. rewrite used_rev in B4. rewrite coalesced_rev in B6.
  rewrite length_rev in B7. rewrite !sa_extent_app, !sa_extent_cons, extent_rev, !used_app, used_cons, used_rev, !length_app, length_rev.
  cbn [fst snd length]. split; [lia|]. split; [|split; lia].
  rewrite coalesced_app, coalesced_rev. unfold last_free. rewrite rev_involutive. cbn [coalesced].
  by rewrite A5, B5, A6, B6 by done.
Qed.

Lemma spec_alloc_facts size bl : forall addr c bl', 0 < size -> sizes_ok bl -> spec_alloc addr size bl = Some (c, bl') ->
  extent bl' = extent bl /\ used_bytes bl' = used_bytes bl + size /\ (length bl' <= length bl + 1)%nat /\
  (coalesced bl = true -> coalesced bl' = true) /\ (first_free bl' = true -> first_free bl = true) /\
  addr <= c /\ (exists l r, bl' = l ++ (false, size) :: r /\ c = addr + extent l).
Proof.
  induction bl as [|[f s] r IH]; intros addr c bl' Hsize Hsz Ha; [done|]. apply Forall_cons in Hsz as [Hs Hr]. cbn [snd] in Hs.
  cbn [spec_alloc] in Ha. destruct (f && (s =? size)) eqn:E1; [|destruct (f && (size <? s)) eqn:E2].
  - apply andb_prop in E1 as [-> ->%Z.eqb_eq]. injection Ha as <- <-. rewrite !sa_extent_cons, !used_cons. cbn [fst snd length coalesced first_free andb negb].
    repeat split; try lia; try done. { by intros [_ ?]%andb_prop. } exists [], r. split; [done|]. change (extent []) with 0. lia.
  - apply andb_prop in E2 as [-> Hlt%Z.ltb_lt]. injection Ha as <- <-. rewrite !sa_extent_cons, !used_cons. cbn [fst snd length coalesced first_free andb negb].
    repeat split; try lia; try done. exists [], ((true, s - size) :: r). split; [done|]. change (extent []) with 0. lia.
  - apply bind_Some in Ha as ([c' r'] & Ha & [= <- <-]). destruct (IH _ _ _ Hsize Hr Ha) as (H1 & H2 & H3 & H4 & H5 & H6 & l & r2 & -> & ->).
    rewrite !sa_extent_cons, !used_cons. cbn [fst snd length coalesced]. repeat split; try lia.
    + intros [Hff Hc]%andb_prop. rewrite H4 by done. destruct f; [|done]. cbn [andb] in *.
      destruct (first_free (l ++ _)); [by rewrite H5 in Hff|done].
    + by destruct f.
    + exists ((f, s) :: l), r2. rewrite sa_extent_cons. cbn [snd]. split; [done|lia].
Qed.

Lemma split_block_ok bl : forall addr c l b r, split_block addr c bl = Some (l, b, r) -> bl = l ++ b :: r /\ c = addr + extent l.
Proof.
  induction bl as [|b0 bl IH]; intros addr c l b r Hs; [done|]. cbn [split_block] in Hs. destruct (Z.eqb_spec addr c) as [->|].
  - injection Hs as <- <- <-. change (extent []) with 0. split; [done|lia].
  - apply bind_Some in Hs as ([[l' x] r'] & Hs & [= <- <- <-]). destruct (IH _ _ _ _ _ Hs) as [-> ->].
    rewrite sa_extent_cons. split; [done|lia].
Qed.

(** * Whole runs *)
Inductive sop : Type :=
| SAlloc (size : Z)
| SFree (data : Z).

(** [None] as a reply: [std::bad_alloc]. *)
Definition sexec (fuel : nat) (o : sop) (a : shm_allocator) : outcome (option Z * shm_allocator) :=
  match o with
  | SAlloc size =>
    match sa_allocate fuel a size with
    | Throw bad_alloc => Ok (None, a)
    | m => '(p, a1) ← m; Ok (Some p, a1)
    end
  | SFree data => a1 ← sa_deallocate fuel a data; Ok (Some data, a1)
  end.

Fixpoint srun (fuel : nat) (os : list sop) (a : shm_allocator) : outcome (list (option Z) * shm_allocator) :=
  match os with
  | [] => Ok ([], a)
  | o :: os' => '(r, a1) ← sexec fuel o a; '(rs, a2) ← srun fuel os' a1; Ok (r :: rs, a2)
  end.

(** The bytes of the chunk for [size] bytes of data. *)
Definition chunk_bytes (size : Z) : Z := align_up (u64 (size + sizeof_Chunk)) 16.

(** [None]: freeing what is not a chunk in use, or a size that wraps around. *)
Definition spec_exec (addr : Z) (o : sop) (bl : list block) : option (option Z * list block) :=
  match o with
  | SAlloc size =>
    if (0 <=? size) && (size <? 2 ^ 62) then
      match spec_alloc addr (chunk_bytes size) bl with
      | Some (c, bl') => Some (Some (c + 16), bl')
      | None => Some (None, bl)
      end
    else None
  | SFree data =>
    match split_block addr (data - 16) bl with
    | Some (l, (false, s), r) => Some (Some data, spec_free l s r)
    | _ => None
    end
  end.

Fixpoint spec_run (addr : Z) (os : list sop) (bl : list block) : option (list (option Z) * list block) :=
  match os with
  | [] => Some ([], bl)
  | o :: os' => '(r, bl1) ← spec_exec addr o bl; '(rs, bl2) ← spec_run addr os' bl1; Some (r :: rs, bl2)
  end.

(** The state between operations. *)
Definition sa_ok (addr size : Z) (a : shm_allocator) (bl : list block) : Prop :=
  (exists ids, sa_rep a ids bl) /\ sa_addr a = addr /\ sa_size a = size /\ sa_allocated_size a = used_bytes bl /\
  extent bl = size - 16 /\ coalesced bl = true.

Lemma chunk_bytes_ok size : 0 <= size < 2 ^ 62 -> size + 16 <= chunk_bytes size < size + 32 /\ chunk_bytes size mod 16 = 0.
Proof.
  intros Hs. unfold chunk_bytes. change sizeof_Chunk with 16. rewrite u64_small by lia.
  destruct (align_up16_bounds (size + 16)); [lia|]. split; [lia|done].
Qed.

Lemma used_le bl : sizes_ok bl -> 0 <= used_bytes bl <= extent bl.
Proof. unfold used_bytes, extent. induction 1 as [|[[] z] k Hz _ IHk]; cbn [zsum fst snd] in *; lia. Qed.

Lemma sexec_ok fuel o addr size a bl r bl' : sa_ok addr size a bl -> (length bl + 2 <= fuel)%nat ->
  spec_exec addr o bl = Some (r, bl') ->
  exists a', sexec fuel o a = Ok (r, a') /\ sa_ok addr size a' bl' /\ (length bl' <= length bl + 1)%nat.
Proof.
  intros ([ids Hr] & <- & Hsize & Hacc & Hext & Hc) Hf Hs. pose proof (sr_sizes _ _ _ Hr) as Hsz.
  pose proof (sr_bound _ _ _ Hr) as Hbd. pose proof (sr_addr _ _ _ Hr). destruct o as [n|data]; cbn [spec_exec sexec] in *.
  - destruct (_ && _) eqn:Hn in Hs; [|done]. apply andb_prop in Hn as [Hn0%Z.leb_le Hn%Z.ltb_lt].
    destruct (chunk_bytes_ok n ltac:(lia)) as [Hcb _].
    pose proof (allocate_from_list_ok bl fuel a [] ids [] (chunk_bytes n) eq_refl ltac:(lia) ltac:(lia) Hr) as Ha.
    change (extent []) with 0 in Ha. rewrite Z.add_0_r in Ha. rewrite (sr_head _ _ _ Hr) in Ha.
    unfold sa_allocate. fold (chunk_bytes n).
    destruct (spec_alloc (sa_addr a) (chunk_bytes n) bl) as [[c b]|] eqn:Hsp; injection Hs as <- <-.
    + destruct Ha as (a' & ids' & -> & (S1 & S2 & S3) & Hr'). cbn [mbind outcome_bind app] in *.
      destruct (spec_alloc_facts (chunk_bytes n) bl (sa_addr a) c b ltac:(lia) Hsz Hsp) as (F1 & F2 & F3 & F4 & F5 & F6 & l & rr & Hb & Hcc).
      pose proof (sr_sizes _ _ _ Hr') as Hsz'. pose proof (used_le _ Hsz'). pose proof (used_le _ Hsz).
      assert (c + 16 < 2 ^ 63) as Hc16.
      { rewrite Hb in F1, Hsz'. apply Forall_app in Hsz' as [Hl1 Hl2]. apply Forall_cons in Hl2 as [_ Hl2].
        rewrite sa_extent_app, sa_extent_cons in F1. cbn [snd] in F1. pose proof (sa_extent_nonneg _ Hl2). lia. }
      rewrite u64_small by (change sizeof_Chunk with 16; lia). change sizeof_Chunk with 16.
      eexists. split; [done|]. split; [|done]. split.
      { exists ids'. destruct Hr'. by split. }
      cbn. rewrite S1, Hacc, u64_small by lia. repeat split; try done; try congruence; try lia. by apply F4.
    + rewrite Ha. cbn [mbind outcome_bind]. exists a. split; [done|]. split; [|lia]. split; [by exists ids|done].
  - destruct (split_block (sa_addr a) (data - 16) bl) as [[[l [[] s]] rr]|] eqn:Hsp; try done. injection Hs as <- <-.
    destruct (split_block_ok _ _ _ _ _ _ Hsp) as [-> Hd].
    destruct (spec_free_facts l s rr Hsz Hc) as (F1 & F2 & F3 & F4). rewrite length_app in Hf. cbn [length] in Hf.
    destruct (sa_deallocate_ok fuel a ids l s rr Hr ltac:(lia) Hacc) as (a' & ids' & Hx & Hr' & G1 & G2 & G3).
    replace (sa_addr a + extent l + 16) with data in Hx by lia. rewrite Hx. cbn [mbind outcome_bind].
    exists a'. split; [done|]. split; [|lia]. split; [by exists ids'|]. repeat split; try done; try congruence.
Qed.

Lemma srun_ok fuel os addr size : forall a bl rs bl', sa_ok addr size a bl -> (length bl + length os + 2 <= fuel)%nat ->
  spec_run addr os bl = Some (rs, bl') -> exists a', srun fuel os a = Ok (rs, a') /\ sa_ok addr size a' bl'.
Proof.
  induction os as [|o os IH]; intros a bl rs bl' Hok Hf Hs; cbn [spec_run srun length] in *.
  { injection Hs as <- <-. by exists a. }
  apply bind_Some in Hs as ([r bl1] & H1 & Hs). apply bind_Some in Hs as ([rs1 bl2] & H2 & [= <- <-]).
  destruct (sexec_ok fuel o addr size a bl r bl1 Hok ltac:(lia) H1) as (a1 & -> & Hok1 & Hl1). cbn [mbind outcome_bind].
  destruct (IH a1 bl1 rs1 bl2 Hok1 ltac:(lia) H2) as (a2 & -> & Hok2). by exists a2.
Qed.

Lemma sa_construct_ok addr size : 0 < addr -> 16 < size -> addr + size < 2 ^ 63 ->
  sa_ok addr size (sa_construct addr size) [(true, size - 16)].
Proof.
  intros Ha Hs Hb. unfold sa_construct. cbn [node_new lh_fresh lh_nodes]. split; [|repeat split; cbn; unfold extent; simpl; lia].
  exists [0]. change sizeof_Chunk with 16. rewrite u64_small by lia. split; cbn.
  - apply NoDup_singleton.
  - intros i Hi. apply list_elem_of_singleton in Hi as ->. lia.
  - done.
  - repeat constructor. cbn. lia.
  - done.
  - unfold extent. simpl. lia.
  - rewrite lookup_insert_eq, lookup_singleton_eq. done.
Qed.


(** Where the chunks of a region begin, counted from its start. *)
Fixpoint starts (o : Z) (bl : list block) : list Z :=
  match bl with [] => [] | b :: r => o :: starts (o + b.2) r end.

Definition headers_aligned (bl : list block) : Prop := Forall (fun o => o mod 16 = 0) (starts 0 bl).

Lemma starts_app l : forall o r, starts o (l ++ r) = starts o l ++ starts (o + extent l) r.
Proof.
  induction l as [|b l IH]; intros o r; cbn [app starts].
  - change (extent []) with 0. by rewrite Z.add_0_r.
  - rewrite IH, sa_extent_cons. by replace (o + b.2 + extent l) with (o + (b.2 + extent l)) by lia.
Qed.

Lemma swallow_prefix r : forall s, let '(s1, r1) := swallow s r in exists k, r = k ++ r1 /\ s1 = s + extent k.
Proof.
  induction r as [|[f s'] r IH]; intros s; [exists []; split; [done|change (extent []) with 0; lia]|].
  destruct f; cbn [swallow]; [|exists []; split; [done|change (extent []) with 0; lia]].
  specialize (IH (s + s')). destruct (swallow (s + s') r) as [s1 r1]. destruct IH as (k & -> & ->).
  exists ((true, s') :: k). rewrite sa_extent_cons. cbn [snd]. split; [done|lia].
Qed.

Lemma spec_free_aligned l f s r : headers_aligned (l ++ (f, s) :: r) -> headers_aligned (spec_free l s r).
Proof.
  unfold spec_free, headers_aligned. intros H. pose proof (swallow_prefix r s) as H1. destruct (swallow s r) as [s1 r1].
  destruct H1 as (k & -> & ->). pose proof (swallow_prefix (rev l) (s + extent k)) as H2.
  destruct (swallow (s + extent k) (rev l)) as [s2 l2]. destruct H2 as (k2 & Hl & ->).
  assert (l = rev l2 ++ rev k2) as -> by (by rewrite <- (rev_involutive l), Hl, rev_app_distr).
  rewrite <- app_assoc in H. rewrite starts_app in *. apply Forall_app in H as [Ha Hb]. apply Forall_app. split; [done|].
  rewrite starts_app in Hb. cbn [starts snd] in *. rewrite starts_app in Hb.
  apply Forall_app in Hb as [Hb Hc]. apply Forall_cons in Hc as [Hc1 Hc]. apply Forall_app in Hc as [_ Hc].
  apply Forall_cons. split.
  - destruct (rev k2) as [|b k3]; [|by apply Forall_cons in Hb as [Hb _]]. change (extent []) with 0 in Hc1. by rewrite Z.add_0_r in Hc1.
  - rewrite <- (extent_rev k2).
    by replace (0 + extent (rev l2) + (s + extent k + extent (rev k2))) with (0 + extent (rev l2) + extent (rev k2) + s + extent k) by lia.
Qed.

Lemma spec_alloc_aligned size bl : size mod 16 = 0 -> forall addr o c bl', o mod 16 = 0 -> Forall (fun o => o mod 16 = 0) (starts o bl) ->
  spec_alloc addr size bl = Some (c, bl') -> Forall (fun o => o mod 16 = 0) (starts o bl').
Proof.
  intros Hs. induction bl as [|[f s] r IH]; intros addr o c bl' Ho H Ha; [done|]. cbn [spec_alloc starts snd] in *.
  apply Forall_cons in H as [_ H]. case_match.
  - injection Ha as _ <-. by apply Forall_cons.
  - case_match.
    + injection Ha as _ <-. cbn [starts snd]. do 2 (apply Forall_cons; split; [first [done|by rewrite Z.add_mod, Ho, Hs]|]).
      by replace (o + size + (s - size)) with (o + s) by lia.
    + apply bind_Some in Ha as ([c' r'] & Ha & [= _ <-]). cbn [starts snd]. apply Forall_cons. split; [done|].
      destruct r as [|b r]; [done|]. eapply IH; [|exact H|exact Ha]. cbn [starts] in H. by apply Forall_cons in H as [H _].
Qed.

Lemma spec_exec_aligned addr o bl r bl' : headers_aligned bl -> spec_exec addr o bl = Some (r, bl') -> headers_aligned bl'.
Proof.
  intros Ha Hs. destruct o as [n|data]; cbn [spec_exec] in Hs.
  - destruct (_ && _) eqn:Hn in Hs; [|done]. apply andb_prop in Hn as [Hn0%Z.leb_le Hn%Z.ltb_lt].
    destruct (chunk_bytes_ok n ltac:(lia)) as [_ Hm].
    destruct (spec_alloc addr (chunk_bytes n) bl) as [[c b]|] eqn:Hsp; injection Hs as _ <-; [|done].
    by apply (spec_alloc_aligned (chunk_bytes n) bl Hm addr 0 c b).
  - destruct (split_block addr (data - 16) bl) as [[[l [[] s]] rr]|] eqn:Hsp; try done. injection Hs as _ <-.
    destruct (split_block_ok _ _ _ _ _ _ Hsp) as [-> _]. by eapply spec_free_aligned.
Qed.

Lemma spec_run_aligned addr os : forall bl rs bl', headers_aligned bl -> spec_run addr os bl = Some (rs, bl') -> headers_aligned bl'.
Proof.
  induction os as [|o os IH]; intros bl rs bl' Ha Hs; cbn [spec_run] in Hs; [by injection Hs as _ <-|].
  apply bind_Some in Hs as ([r bl1] & H1 & Hs). apply bind_Some in Hs as ([rs1 bl2] & H2 & [= _ <-]).
  eapply IH; [|exact H2]. by eapply spec_exec_aligned.
Qed.

Lemma unused_single bl : sizes_ok bl -> coalesced bl = true -> used_bytes bl = 0 -> bl <> [] -> bl = [(true, extent bl)].
Proof.
  intros Hs Hc Hu Hne. destruct bl as [|[f s] r]; [done|]. apply Forall_cons in Hs as [Hs Hr]. cbn [snd] in Hs.
  rewrite used_cons in Hu. cbn [fst snd] in Hu. pose proof (used_le r Hr). destruct f; [|lia].
  destruct r as [|[[] s'] r']; [unfold extent; simpl; f_equal; f_equal; lia|done|].
  apply Forall_cons in Hr as [Hs' Hr']. rewrite used_cons in Hu. cbn [fst snd] in *. pose proof (used_le r' Hr'). lia.
Qed.

(** C7 The shared-memory allocator implements first fit with splitting and full
    coalescing.  From a fresh region, any sequence of allocations below 2^62 bytes and
    of deallocations of live chunks replies as the specification on chunk lists does
    ([bad_alloc] exactly when no free chunk is large enough) and the linked list
    represents the specified chunks again: they tile the region up to its last 16
    bytes, no two free chunks are adjacent, every header starts at a multiple of 16
    so that headers never overlap, [_allocated_size] counts the bytes in use, and
    once nothing is in use the region is a single free chunk again. *)
Theorem shm_allocator_refines_chunks (addr size : Z) (os : list sop) (fuel : nat) rs bl :
  0 < addr -> 16 < size -> addr + size < 2 ^ 63 -> (length os + 3 <= fuel)%nat ->
  spec_run addr os [(true, size - 16)] = Some (rs, bl) ->
  exists a ids, srun fuel os (sa_construct addr size) = Ok (rs, a) /\ sa_rep a ids bl /\
    sa_allocated_size a = used_bytes bl /\ extent bl = size - 16 /\ coalesced bl = true /\ headers_aligned bl /\
    (used_bytes bl = 0 -> bl = [(true, size - 16)]).
Proof.
  intros Ha Hs Hb Hf Hr. pose proof (sa_construct_ok addr size Ha Hs Hb) as H0.
  destruct (srun_ok fuel os addr size _ _ rs bl H0 ltac:(simpl; lia) Hr) as (a & Hrun & [ids Hrep] & H1 & H2 & H3 & H4 & H5).
  exists a, ids. do 5 (split; [done|]). split.
  - eapply spec_run_aligned; [|exact Hr]. by repeat constructor.
  - intros Hu. rewrite <- H4. apply unused_single; [by destruct Hrep|done..|]. intros ->. change (extent []) with 0 in H4. lia.
Qed.

Definition demo_sops : list sop := [SAlloc 20; SAlloc 8; SAlloc 60; SFree 4112; SAlloc 16; SFree 4192; SFree 4160; SAlloc 1000; SFree 4112].

Lemma shm_allocator_refines_chunks_witness :
  exists bl, let rs := [Some 4112; Some 4160; Some 4192; Some 4112; Some 4112; Some 4192; Some 4160; None; Some 4112] in
  spec_run 4096 demo_sops [(true, 500 - 16)] = Some (rs, bl) /\
  exists a ids, srun 12 demo_sops (sa_construct 4096 500) = Ok (rs, a) /\ sa_rep a ids bl /\
    sa_allocated_size a = used_bytes bl /\ extent bl = 500 - 16 /\ coalesced bl = true /\ headers_aligned bl /\
    (used_bytes bl = 0 -> bl = [(true, 500 - 16)]).
Proof.
  eexists. cbv zeta. split; [reflexivity|].
  apply (shm_allocator_refines_chunks 4096 500 demo_sops 12); [lia|lia|lia|simpl; lia|reflexivity].
Defined.

Lemma chunk_bytes_wraps n : 2 ^ 64 - 31 <= n <= 2 ^ 64 - 16 -> chunk_bytes n = 0.
Proof.
  intros Hn. unfold chunk_bytes. change sizeof_Chunk with 16. destruct (Z.eq_dec n (2 ^ 64 - 16)) as [->|]; [reflexivity|].
  rewrite u64_small by lia. apply (align_up_wraps (n + 16) 4); lia.
Qed.

(** Splitting nothing off the only chunk of a list. *)
Lemma split_nothing a i c s : lh_nodes (sa_list a) !! i = Some {| ln_element := c; ln_prev := None; ln_next := None |} ->
  sa_chunks a !! c = Some {| ck_size := s; ck_free := true |} -> 0 < s < 2 ^ 64 -> 0 <= c < 2 ^ 64 -> lh_fresh (sa_list a) <> i ->
  exists a', allocate_from_list 1 a (Some i) 0 = Ok (Some c, a') /\ sa_chunk_list a' = sa_chunk_list a /\
    lh_nodes (sa_list a') !! i = Some {| ln_element := c; ln_prev := None; ln_next := Some (lh_fresh (sa_list a)) |} /\
    lh_nodes (sa_list a') !! lh_fresh (sa_list a) = Some {| ln_element := c; ln_prev := Some i; ln_next := None |} /\
    sa_chunks a' !! c = Some {| ck_size := 0; ck_free := false |}.
Proof.
  intros Hi Hc Hs Hb Hf. cbn [allocate_from_list]. rewrite (load_node_Some _ _ _ Hi). cbn [mbind outcome_bind ln_element].
  rewrite (load_chunk_Some _ _ _ Hc). cbn [mbind outcome_bind ck_free ck_size andb].
  rewrite (proj2 (Z.eqb_neq s 0)), Z.gtb_ltb, (proj2 (Z.ltb_lt 0 s)) by lia. rewrite Z.add_0_r, (u64_small c) by lia.
  unfold node_insert, node_new. erewrite load_node_Some by apply lookup_insert_eq. cbn [mbind outcome_bind].
  erewrite load_node_Some; [|cbn; rewrite lookup_insert_ne, lookup_insert_ne by done; exact Hi].
  cbn [mbind outcome_bind ln_next].
  erewrite load_node_Some; [|cbn; rewrite lookup_insert_ne, lookup_insert_ne by done; exact Hi].
  cbn [mbind outcome_bind]. eexists. split; [reflexivity|]. cbn. split; [done|].
  rewrite lookup_insert_eq, lookup_insert_ne by done. rewrite !lookup_insert_eq. done.
Qed.

(** Two nodes that share a chunk in use serve no request. *)
Lemma shared_chunk_fails a i j c s size fuel : (3 <= fuel)%nat ->
  lh_nodes (sa_list a) !! i = Some {| ln_element := c; ln_prev := None; ln_next := Some j |} ->
  lh_nodes (sa_list a) !! j = Some {| ln_element := c; ln_prev := Some i; ln_next := None |} ->
  sa_chunks a !! c = Some {| ck_size := s; ck_free := false |} ->
  allocate_from_list fuel a (Some i) size = Ok (None, a).
Proof.
  intros Hf Hi Hj Hc. destruct fuel as [|[|[|fuel]]]; try lia. cbn [allocate_from_list].
  rewrite (load_node_Some _ _ _ Hi). cbn [mbind outcome_bind ln_element ln_next].
  rewrite (load_chunk_Some _ _ _ Hc). cbn [mbind outcome_bind ck_free andb].
  rewrite (load_node_Some _ _ _ Hj). cbn [mbind outcome_bind ln_element ln_next].
  by rewrite (load_chunk_Some _ _ _ Hc).
Qed.

(** The size of a request is not checked before the header size is added and
    rounded up.  A request of 2^64-31 to 2^64-16 bytes in a fresh region succeeds with
    a chunk of no bytes; the split puts the remainder's header on top of the chunk's
    own header, so the region is lost and every later request fails. *)
Theorem shm_allocator_size_wraps (addr size n : Z) :
  0 < addr -> 16 < size -> addr + size < 2 ^ 63 -> 2 ^ 64 - 31 <= n <= 2 ^ 64 - 16 ->
  exists a, sa_allocate 1 (sa_construct addr size) n = Ok (addr + 16, a) /\
    sa_chunks a !! addr = Some {| ck_size := 0; ck_free := false |} /\
    forall fuel m, (3 <= fuel)%nat -> sa_allocate fuel a m = Throw bad_alloc.
Proof.
  intros Ha Hs Hb Hn. destruct (split_nothing (sa_construct addr size) 0 addr (size - 16)) as (a & H1 & H2 & H3 & H4 & H5).
  - apply lookup_insert_eq.
  - cbn. rewrite lookup_singleton_eq. by rewrite u64_small by (change sizeof_Chunk with 16; lia).
  - lia.
  - lia.
  - done.
  - unfold sa_allocate. fold (chunk_bytes n). rewrite (chunk_bytes_wraps n Hn).
    change (sa_chunk_list (sa_construct addr size)) with 0 in *. rewrite H1. cbn [mbind outcome_bind].
    rewrite u64_small by (change sizeof_Chunk with 16; lia). eexists. split; [done|]. split; [done|].
    intros fuel m Hf. cbn [set_allocated sa_chunk_list]. rewrite H2.
    by erewrite (shared_chunk_fails _ 0 (lh_fresh (sa_list (sa_construct addr size))) addr 0); [|done|exact H3|exact H4|exact H5].
Qed.

Lemma shm_allocator_size_wraps_witness : 2 ^ 64 - 31 <= 2 ^ 64 - 20 <= 2 ^ 64 - 16 /\
  exists a, sa_allocate 1 (sa_construct 4096 512) (2 ^ 64 - 20) = Ok (4096 + 16, a) /\
    sa_chunks a !! 4096 = Some {| ck_size := 0; ck_free := false |} /\
    forall fuel m, (3 <= fuel)%nat -> sa_allocate fuel a m = Throw bad_alloc.
Proof. split; [lia|]. apply (shm_allocator_size_wraps 4096 512 (2 ^ 64 - 20)); lia. Defined.
