(* ===== verification/ChunkAllocator.v ===== *)
(** The chunk allocator of [shm/chunk_allocator.h] and the list built on it,
    [shm/datatypes/list.h].

    A segment holds a header (the head and the capacity of the stack of free
    indexes), the stack and the chunks.  The locks these files name
    ([StackHeader::mutex], [SharedMutex], [UniqueLock]) are not declared anywhere in
    the sources; the operations are modelled without them, and the interleavings of
    two allocations that nothing prevents as a step relation. *)
From S2P Require Import Prelude Numeric.

(** * ChunkAllocator *)
Section chunk_allocator.
Context {T : Type} (sizeof_T : Z).

Definition sizeof_StackHeader : Z := 64.

(* @source include/ipcpp/shm/chunk_allocator.h 17-19 shm::align_up *)
Definition shm_align_up (size alignment : Z) : Z :=
  Z.land (u64 (size + alignment - 1)) (u64 (Z.lnot (u64 (alignment - 1)))).

(* @source include/ipcpp/shm/chunk_allocator.h 38-43 ChunkAllocator::StackHeader *)
Record stack_header : Type := { sh_head : Z; sh_capacity : Z }.

(** What is in the memory: the header, the slots of the stack and the chunks. *)
Record segment : Type := { sg_header : stack_header; sg_slots : list Z; sg_chunks : list T }.

(** The process-local part: the two spans have [ca_count] elements each. *)
(* @source include/ipcpp/shm/chunk_allocator.h 139-145 ChunkAllocator *)
Record chunk_allocator : Type := { ca_addr : Z; ca_count : Z; ca_chunks_start : Z }.

Definition set_head (g : segment) (head : Z) : segment :=
  {| sg_header := {| sh_head := head; sh_capacity := sh_capacity (sg_header g) |}; sg_slots := sg_slots g; sg_chunks := sg_chunks g |}.
Definition set_slots (g : segment) (slots : list Z) : segment :=
  {| sg_header := sg_header g; sg_slots := slots; sg_chunks := sg_chunks g |}.
Definition set_chunks (g : segment) (chunks : list T) : segment :=
  {| sg_header := sg_header g; sg_slots := sg_slots g; sg_chunks := chunks |}.

(* @source include/ipcpp/shm/chunk_allocator.h 46-48 ChunkAllocator::required_memory_size *)
Definition required_memory_size (num_chunks : Z) : Z :=
  u64 (shm_align_up sizeof_StackHeader 16 + shm_align_up (u64 (num_chunks * 8 + num_chunks * sizeof_T)) 16).

(** [_stack_slots[head] = value] through the span. *)
(* @source include/ipcpp/shm/chunk_allocator.h 119-122 ChunkAllocator::push_to_stack *)
Definition push_to_stack (a : chunk_allocator) (g : segment) (value : Z) : outcome segment :=
  let head := sh_head (sg_header g) in
  _ ← require (head <? ca_count a);
  slots ← must (zinsert (sg_slots g) head value);
  Ok (set_head (set_slots g slots) (i64 (head + 1))).

(* @source include/ipcpp/shm/chunk_allocator.h 134-137 ChunkAllocator::pop_from_stack *)
Definition pop_from_stack (a : chunk_allocator) (g : segment) : outcome (Z * segment) :=
  let head := sh_head (sg_header g) in
  let g1 := set_head g (i64 (head - 1)) in
  let index := i64 (head - 1) in
  _ ← require (index <? ca_count a);
  v ← must (zlookup (sg_slots g1) index);
  Ok (v, g1).

Fixpoint push_all (a : chunk_allocator) (g : segment) (ids : list Z) : outcome segment :=
  match ids with
  | [] => Ok g
  | i :: r => g1 ← push_to_stack a g i; push_all a g1 r
  end.

(** Where the chunks begin behind [n] slots. *)
Definition chunks_start (addr n : Z) : Z :=
  u64 (addr + shm_align_up sizeof_StackHeader 16 + shm_align_up (u64 (n * 8)) 16).

(* @source include/ipcpp/shm/chunk_allocator.h 51-65 ChunkAllocator::ChunkAllocator *)
Definition ca_construct (addr size : Z) (init : T) : outcome (chunk_allocator * segment) :=
  let num_chunks := u64 (size - sizeof_StackHeader) / u64 (8 + sizeof_T) in
  let a := {| ca_addr := addr; ca_count := num_chunks; ca_chunks_start := chunks_start addr num_chunks |} in
  let g := {| sg_header := {| sh_head := 0; sh_capacity := num_chunks |};
              sg_slots := replicate (Z.to_nat num_chunks) 0; sg_chunks := replicate (Z.to_nat num_chunks) init |} in
  g1 ← push_all a g (seqZ 0 num_chunks); Ok (a, g1).

(* @source include/ipcpp/shm/chunk_allocator.h 72-77 ChunkAllocator::ChunkAllocator(void) *)
Definition ca_attach (addr : Z) (g : segment) : chunk_allocator :=
  let n := sh_capacity (sg_header g) in
  {| ca_addr := addr; ca_count := n; ca_chunks_start := chunks_start addr n |}.

(* @source include/ipcpp/shm/chunk_allocator.h 83-88 ChunkAllocator::allocate_get_index *)
Definition allocate_get_index (a : chunk_allocator) (g : segment) : outcome (Z * segment) :=
  if sh_head (sg_header g) =? 0 then Throw bad_alloc else pop_from_stack a g.

(* @source include/ipcpp/shm/chunk_allocator.h 103-103 ChunkAllocator::index_to_ptr *)
Definition index_to_ptr (a : chunk_allocator) (index : Z) : Z := ca_chunks_start a + index * sizeof_T.

(* @source include/ipcpp/shm/chunk_allocator.h 105-105 ChunkAllocator::ptr_to_index *)
Definition ptr_to_index (a : chunk_allocator) (ptr : Z) : Z := (ptr - ca_chunks_start a) / sizeof_T.

(* @source include/ipcpp/shm/chunk_allocator.h 79-81 ChunkAllocator::allocate *)
Definition ca_allocate (a : chunk_allocator) (g : segment) : outcome (Z * segment) :=
  '(i, g1) ← allocate_get_index a g; Ok (index_to_ptr a i, g1).

(* @source include/ipcpp/shm/chunk_allocator.h 98-101 ChunkAllocator::deallocate(std::size_t) *)
Definition deallocate_index (a : chunk_allocator) (g : segment) (index : Z) : outcome segment := push_to_stack a g index.

(** A null pointer is 0. *)
(* @source include/ipcpp/shm/chunk_allocator.h 90-96 ChunkAllocator::deallocate(T) *)
Definition ca_deallocate (a : chunk_allocator) (g : segment) (t : Z) : outcome segment :=
  if t =? 0 then Ok g else push_to_stack a g (ptr_to_index a t).

(** * The specification: the free indexes, the next one to be handed out first *)
Inductive cop : Type :=
| CAlloc
| CFree (index : Z).

(** [None] as a reply: [std::bad_alloc]. *)
Definition cexec (a : chunk_allocator) (o : cop) (g : segment) : outcome (option Z * segment) :=
  match o with
  | CAlloc =>
    match ca_allocate a g with
    | Throw bad_alloc => Ok (None, g)
    | m => '(p, g1) ← m; Ok (Some p, g1)
    end
  | CFree index => g1 ← ca_deallocate a g (index_to_ptr a index); Ok (Some (index_to_ptr a index), g1)
  end.

Fixpoint crun (a : chunk_allocator) (os : list cop) (g : segment) : outcome (list (option Z) * segment) :=
  match os with
  | [] => Ok ([], g)
  | o :: os' => '(r, g1) ← cexec a o g; '(rs, g2) ← crun a os' g1; Ok (r :: rs, g2)
  end.

(** The free and the live indexes; only live ones may be freed. *)
Definition spec_chunk (o : cop) (free live : list Z) : option (option Z * list Z * list Z) :=
  match o with
  | CAlloc => match free with [] => Some (None, [], live) | i :: f => Some (Some i, f, i :: live) end
  | CFree i => if decide (i ∈ live) then Some (Some i, i :: free, filter (fun j => j <> i) live) else None
  end.

Fixpoint spec_chunks (os : list cop) (free live : list Z) : option (list (option Z) * list Z * list Z) :=
  match os with
  | [] => Some ([], free, live)
  | o :: os' => '(r, f, l) ← spec_chunk o free live; '(rs, f', l') ← spec_chunks os' f l; Some (r :: rs, f', l')
  end.

(** [free] is the stack, the head last. *)
Record ca_rep (a : chunk_allocator) (n : Z) (g : segment) (free : list Z) : Prop := {
  cr_count : ca_count a = n;
  cr_bound : 0 <= n < 2 ^ 63;
  cr_capacity : sh_capacity (sg_header g) = n;
  cr_slots : zlen (sg_slots g) = n;
  cr_chunks : zlen (sg_chunks g) = n;
  cr_head : sh_head (sg_header g) = zlen free;
  cr_stack : take (length free) (sg_slots g) = rev free;
  cr_fits : zlen free <= n
}.

Lemma push_to_stack_ok a n g free v : ca_rep a n g free -> zlen free < n ->
  exists g', push_to_stack a g v = Ok g' /\ ca_rep a n g' (v :: free) /\ sg_chunks g' = sg_chunks g.
Proof.
  intros [H1 H2 H3 H4 H5 H6 H7 H8] Hlt. unfold push_to_stack. pose proof (zlen_nonneg free).
  rewrite H6, H1, (proj2 (Z.ltb_lt _ _) Hlt). cbn [mbind outcome_bind require].
  rewrite zinsert_in by lia. cbn [mbind outcome_bind must]. eexists. split; [done|]. split; [|done].
  split; cbn; rewrite ?zlen_insert, ?zlen_cons; try done; try lia; [rewrite i64_small; lia|].
  rewrite to_nat_zlen. rewrite (take_S_r _ _ v) by (apply list_lookup_insert_eq; unfold zlen in *; lia).
  by rewrite take_insert_ge, H7 by lia.
Qed.

Lemma pop_from_stack_ok a n g v free : ca_rep a n g (v :: free) ->
  exists g', pop_from_stack a g = Ok (v, g') /\ ca_rep a n g' free /\ sg_chunks g' = sg_chunks g.
Proof.
  intros [H1 H2 H3 H4 H5 H6 H7 H8]. unfold pop_from_stack. rewrite zlen_cons in *. pose proof (zlen_nonneg free).
  rewrite H6, H1. replace (zlen free + 1 - 1) with (zlen free) by lia. rewrite i64_small by lia.
  rewrite (proj2 (Z.ltb_lt _ _)) by lia. cbn [mbind outcome_bind require set_head sg_slots].
  assert (sg_slots g !! length free = Some v) as Hv.
  { rewrite <- (lookup_take_lt _ (length (v :: free))) by (simpl; lia). rewrite H7. cbn [rev].
    rewrite lookup_app_r by (rewrite length_rev; lia). by rewrite length_rev, Nat.sub_diag. }
  rewrite zlookup_zlen, Hv. cbn [mbind outcome_bind must]. eexists. split; [done|]. split; [|done].
  split; cbn; try done; try lia. cbn [length rev] in H7. rewrite (take_S_r _ _ v Hv) in H7. by apply app_inj_tail in H7 as [-> _].
Qed.

Lemma push_all_ok a n g ids : forall free, ca_rep a n g free -> zlen free + zlen ids <= n ->
  exists g', push_all a g ids = Ok g' /\ ca_rep a n g' (rev ids ++ free) /\ sg_chunks g' = sg_chunks g.
Proof.
  revert g. induction ids as [|i ids IH]; intros g free Hr Hl; [by exists g|]. rewrite zlen_cons in Hl. pose proof (zlen_nonneg ids).
  destruct (push_to_stack_ok a n g free i Hr) as (g1 & H1 & Hr1 & Hc1); [lia|].
  destruct (IH g1 (i :: free) Hr1) as (g2 & H2 & Hr2 & Hc2); [rewrite zlen_cons; lia|].
  exists g2. cbn [push_all rev]. rewrite H1. cbn [mbind outcome_bind]. rewrite <- app_assoc. split; [done|]. split; [done|congruence].
Qed.

Lemma index_of_ptr a i : 0 < sizeof_T -> ptr_to_index a (index_to_ptr a i) = i.
Proof. intros. unfold ptr_to_index, index_to_ptr. replace (_ + _ - _) with (i * sizeof_T) by lia. apply Z.div_mul. lia. Qed.

Lemma spec_chunk_perm o free live r f l all : free ++ live ≡ₚ all -> NoDup all -> spec_chunk o free live = Some (r, f, l) -> f ++ l ≡ₚ all.
Proof.
  intros Hp Hd Hs. destruct o as [|i]; cbn in Hs.
  - destruct free as [|i f']; simplify_eq; [done|]. rewrite <- Hp. cbn. by rewrite Permutation_middle.
  - case_decide as Hi; simplify_eq. rewrite <- Hp in Hd |- *. cbn.
    apply NoDup_app in Hd as (_ & _ & Hd). clear Hp.
    by rewrite Permutation_middle, (filter_ne_perm i live).
Qed.

Lemma cexec_ok a n o g free live r f l : 0 < sizeof_T -> 0 < ca_chunks_start a -> ca_rep a n g free -> free ++ live ≡ₚ seqZ 0 n ->
  spec_chunk o free live = Some (r, f, l) ->
  exists g', cexec a o g = Ok (option_map (index_to_ptr a) r, g') /\ ca_rep a n g' f /\ sg_chunks g' = sg_chunks g.
Proof.
  intros Hs Hst Hr Hp Ho. destruct o as [|i]; cbn [spec_chunk cexec] in *.
  - unfold ca_allocate, allocate_get_index. rewrite (cr_head _ _ _ _ Hr). destruct free as [|i f0]; injection Ho as <- <- <-; [by exists g|].
    rewrite zlen_cons, (proj2 (Z.eqb_neq _ _)) by (pose proof (zlen_nonneg f0); lia).
    destruct (pop_from_stack_ok a n g i f0 Hr) as (g1 & -> & Hr1 & Hc1). by exists g1.
  - case_decide as Hi; [|done]. injection Ho as <- <- <-.
    assert (0 <= i < n) as Hin by (assert (i ∈ seqZ 0 n) as H%elem_of_seqZ; [rewrite <- Hp; set_solver|lia]).
    unfold ca_deallocate. rewrite (proj2 (Z.eqb_neq _ _)) by (unfold index_to_ptr; nia). rewrite index_of_ptr by done.
    destruct (push_to_stack_ok a n g free i Hr) as (g1 & -> & Hr1 & Hc1); [|by exists g1].
    apply Permutation_length in Hp. rewrite length_app, length_seqZ in Hp.
    assert (0 < length live)%nat by (destruct live; [set_solver|simpl; lia]). unfold zlen. lia.
Qed.

Lemma crun_ok a n os : 0 < sizeof_T -> 0 < ca_chunks_start a -> forall g free live rs f l, ca_rep a n g free -> free ++ live ≡ₚ seqZ 0 n ->
  spec_chunks os free live = Some (rs, f, l) ->
  exists g', crun a os g = Ok (map (option_map (index_to_ptr a)) rs, g') /\ ca_rep a n g' f /\ f ++ l ≡ₚ seqZ 0 n /\ sg_chunks g' = sg_chunks g.
Proof.
  intros Hs Hst. induction os as [|o os IH]; intros g free live rs f l Hr Hp Ho; cbn [spec_chunks crun] in *.
  { injection Ho as <- <- <-. by exists g. }
  apply bind_Some in Ho as ([[r f1] l1] & H1 & Ho). apply bind_Some in Ho as ([[rs1 f2] l2] & H2 & [= <- <- <-]).
  destruct (cexec_ok a n o g free live r f1 l1 Hs Hst Hr Hp H1) as (g1 & -> & Hr1 & Hc1). cbn [mbind outcome_bind].
  destruct (IH g1 f1 l1 rs1 f2 l2 Hr1 (spec_chunk_perm _ _ _ _ _ _ _ Hp (NoDup_seqZ _ _) H1) H2) as (g2 & -> & Hr2 & Hp2 & Hc2).
  exists g2. split; [done|]. split; [done|]. split; [done|congruence].
Qed.

(** How many chunks a segment of [size] bytes is divided into. *)
Definition chunk_count (size : Z) : Z := (size - sizeof_StackHeader) / (8 + sizeof_T).

Lemma shm_align_up16 size : 0 <= size < 2 ^ 63 -> size <= shm_align_up size 16 < size + 16 /\ shm_align_up size 16 mod 16 = 0.
Proof. intros. apply (align_up16_bounds size); lia. Qed.

Lemma ca_construct_ok addr size init : 0 < sizeof_T < 2 ^ 62 -> 64 <= size -> 0 < addr -> addr + size < 2 ^ 62 ->
  exists a g, ca_construct addr size init = Ok (a, g) /\ ca_rep a (chunk_count size) g (rev (seqZ 0 (chunk_count size))) /\
    a = ca_attach addr g /\ 0 < ca_chunks_start a /\ sg_chunks g = replicate (Z.to_nat (chunk_count size)) init.
Proof.
  intros HT Hs Ha Hb. unfold ca_construct. change sizeof_StackHeader with 64. rewrite !u64_small by lia.
  change ((size - 64) / (8 + sizeof_T)) with (chunk_count size).
  assert (0 <= chunk_count size < 2 ^ 62 / 9) as Hn.
  { unfold chunk_count. split; [apply Z.div_pos; change sizeof_StackHeader with 64; lia|].
    apply Z.div_lt_upper_bound; [lia|]. change sizeof_StackHeader with 64. change (2 ^ 62 / 9) with 512409557603043100. lia. }
  change (2 ^ 62 / 9) with 512409557603043100 in Hn. set (n := chunk_count size) in *.
  match goal with |- context [push_all ?a ?g _] => destruct (push_all_ok a n g (seqZ 0 n) []) as (g1 & Hg & Hr & Hc) end.
  - split; cbn; rewrite ?zlen_replicate by lia; first [done|lia|change (zlen (@nil Z)) with 0; lia].
  - change (zlen (@nil Z)) with 0. unfold zlen. rewrite length_seqZ. lia.
  - rewrite Hg. cbn [mbind outcome_bind]. eexists _, g1. split; [done|]. rewrite app_nil_r in Hr.
    split; [exact Hr|]. split; [|split; [|exact Hc]].
    + unfold ca_attach. by rewrite (cr_capacity _ _ _ _ Hr).
    + cbn. unfold chunks_start. rewrite (u64_small (n * 8)) by lia. destruct (shm_align_up16 (n * 8)) as [? _]; [lia|].
      change (shm_align_up sizeof_StackHeader 16) with 64. rewrite u64_small; lia.
Qed.
End chunk_allocator.

(** C11 The chunk allocator hands out the free chunks of a segment last in, first out.
    From a freshly constructed segment every sequence of [allocate] and [deallocate]
    calls (a deallocation of a live chunk) gives the pointers the stack of free indexes
    prescribes and [bad_alloc] exactly when no chunk is free; the free and the live
    indexes always partition 0..n-1, so live chunks are pairwise different; no access
    leaves the stack and no chunk is written; and a process that attaches to the
    segment obtains the same allocator as the one that constructed it. *)
Theorem chunk_allocator_refines_stack {T} (sizeof_T addr size : Z) (init : T) (os : list cop) rs free live :
  0 < sizeof_T < 2 ^ 62 -> 64 <= size -> 0 < addr -> addr + size < 2 ^ 62 ->
  spec_chunks os (rev (seqZ 0 (chunk_count sizeof_T size))) [] = Some (rs, free, live) ->
  exists a g0 g, ca_construct sizeof_T addr size init = Ok (a, g0) /\
    crun sizeof_T a os g0 = Ok (map (option_map (index_to_ptr sizeof_T a)) rs, g) /\
    ca_rep a (chunk_count sizeof_T size) g free /\ free ++ live ≡ₚ seqZ 0 (chunk_count sizeof_T size) /\
    ca_attach addr g = a /\ sg_chunks g = replicate (Z.to_nat (chunk_count sizeof_T size)) init.
Proof.
  intros HT Hs Ha Hb Ho. destruct (ca_construct_ok sizeof_T addr size init HT Hs Ha Hb) as (a & g0 & H1 & H2 & H3 & H4 & H5).
  destruct (crun_ok sizeof_T a (chunk_count sizeof_T size) os ltac:(lia) H4 g0 _ [] rs free live H2) as (g & H6 & H7 & H8 & H9);
    [rewrite app_nil_r; symmetry; apply Permutation_rev|done|].
  exists a, g0, g. split_and!; try done; [|congruence].
  rewrite H3. unfold ca_attach. by rewrite (cr_capacity _ _ _ _ H7), (cr_capacity _ _ _ _ H2).
Qed.

Lemma chunk_allocator_refines_stack_witness :
  spec_chunks [CAlloc; CAlloc; CFree 2; CAlloc; CAlloc; CAlloc] (rev (seqZ 0 (chunk_count 16 136))) [] =
    Some ([Some 2; Some 1; Some 2; Some 2; Some 0; None], [], [0; 2; 1]) /\
  exists a g0 g, ca_construct 16 4096 136 7 = Ok (a, g0) /\
    crun 16 a [CAlloc; CAlloc; CFree 2; CAlloc; CAlloc; CAlloc] g0 =
      Ok (map (option_map (index_to_ptr 16 a)) [Some 2; Some 1; Some 2; Some 2; Some 0; None], g) /\
    ca_rep a (chunk_count 16 136) g [] /\ [] ++ [0; 2; 1] ≡ₚ seqZ 0 (chunk_count 16 136) /\
    ca_attach 4096 g = a /\ sg_chunks g = replicate (Z.to_nat (chunk_count 16 136)) 7.
Proof.
  split; [by vm_compute|]. apply (chunk_allocator_refines_stack 16 4096 136 7); [lia|lia|lia|lia|by vm_compute].
Defined.

(** * The chunks and the memory they are in *)
Lemma align_slots n : 0 <= n < 2 ^ 59 -> shm_align_up (n * 8) 16 = n * 8 + (if Z.even n then 0 else 8).
Proof.
  intros Hn. destruct (shm_align_up16 (n * 8)) as [Hb Hm]; [lia|]. apply Z.div_exact in Hm; [|lia].
  destruct (Z.even n) eqn:He; [apply Z.even_spec in He as [k ->]; lia|].
  assert (Z.odd n = true) as Ho%Z.odd_spec by (by rewrite <- Z.negb_even, He). destruct Ho as [k ->]. lia.
Qed.

(** The padding that aligns the chunks is not accounted for.  The last of the
    [n] chunks of a segment ends inside its memory exactly when [n] is even or the
    division that computed [n] left at least 8 bytes; in particular a segment of
    [required_memory_size(n)] bytes, [n] odd and [8 + sizeof(T)] a multiple of 16, ends
    8 bytes before its last chunk does. *)
Theorem chunk_memory_too_small (sizeof_T addr size : Z) :
  0 < sizeof_T < 2 ^ 62 -> 64 <= size -> 0 < addr -> addr + size < 2 ^ 62 ->
  let n := chunk_count sizeof_T size in
  (chunks_start addr n + n * sizeof_T <= addr + size <-> Z.even n = true \/ 8 <= (size - 64) mod (8 + sizeof_T)) /\
  (forall k, 0 <= k -> k * (8 + sizeof_T) < 2 ^ 61 -> Z.even k = false -> (8 + sizeof_T) mod 16 = 0 ->
     size = required_memory_size sizeof_T k -> n = k /\ chunks_start addr n + n * sizeof_T = addr + size + 8).
Proof.
  intros HT Hs Ha Hb n. assert (size - 64 = n * (8 + sizeof_T) + (size - 64) mod (8 + sizeof_T)) as Hd.
  { rewrite (Z.div_mod (size - 64) (8 + sizeof_T)) at 1 by lia. unfold n, chunk_count. change sizeof_StackHeader with 64. lia. }
  pose proof (Z.mod_pos_bound (size - 64) (8 + sizeof_T) ltac:(lia)) as Hm.
  assert (0 <= n < 2 ^ 59) as Hn by nia.
  assert (chunks_start addr n = addr + 64 + (n * 8 + (if Z.even n then 0 else 8))) as ->.
  { unfold chunks_start. change (shm_align_up sizeof_StackHeader 16) with 64.
    rewrite (u64_small (n * 8)), (align_slots n Hn) by lia. apply u64_small. destruct (Z.even n); lia. }
  split.
  - destruct (Z.even n); split; intros; [by left|lia|right; lia|destruct H as [H|H]; [done|lia]].
  - intros k Hk0 Hk He Hal Hsz. assert (size = 64 + k * (8 + sizeof_T)) as Hsz'.
    { rewrite Hsz. unfold required_memory_size. change (shm_align_up sizeof_StackHeader 16) with 64. rewrite (u64_small (k * 8 + _)) by lia.
      destruct (shm_align_up16 (k * 8 + k * sizeof_T)) as [H1 H2]; [lia|].
      apply Z.div_exact in H2; [|lia]. apply Z.div_exact in Hal; [|lia]. rewrite u64_small by lia.
      assert (k * 8 + k * sizeof_T = 16 * (k * ((8 + sizeof_T) / 16))) by nia. lia. }
    assert (n = k) as ->; [|rewrite He; lia].
    unfold n, chunk_count. change sizeof_StackHeader with 64. rewrite Hsz'. replace (64 + _ - 64) with (k * (8 + sizeof_T)) by lia.
    apply Z.div_mul. lia.
Qed.

Lemma chunk_memory_too_small_witness :
  chunk_count 24 (required_memory_size 24 3) = 3 /\ chunks_start 4096 3 + 3 * 24 = 4096 + required_memory_size 24 3 + 8.
Proof.
  assert (required_memory_size 24 3 = 160) as H by reflexivity.
  destruct (chunk_memory_too_small 24 4096 160) as [_ Hk]; [lia|lia|lia|lia|].
  destruct (Hk 3) as [Hk1 Hk2]; [lia|lia|reflexivity|reflexivity|by rewrite H|].
  rewrite H. split; [reflexivity|exact Hk2].
Defined.

(** * Concurrent allocations

    [allocate_get_index] reads the head twice, and nothing makes the two reads one
    step: a thread loads the head to test it, subtracts one and then reads the slot.
    The slots do not change while chunks are only allocated. *)
Inductive alloc_pc : Type :=
| PLoad
| PSub
| PRead (index : Z)
| PDone (index v : Z)
| PBadAlloc
| PUB (index : Z).

(** The head and the threads. *)
Record alloc_state : Type := { as_head : Z; as_threads : list alloc_pc }.

(** One atomic access of thread [t]. *)
(* @source include/ipcpp/shm/chunk_allocator.h 83-88 ChunkAllocator::allocate_get_index *)
Inductive alloc_step (slots : list Z) : alloc_state -> alloc_state -> Prop :=
| step_load_empty t s : as_threads s !! t = Some PLoad -> as_head s = 0 ->
    alloc_step slots s {| as_head := as_head s; as_threads := <[t := PBadAlloc]> (as_threads s) |}
| step_load t s : as_threads s !! t = Some PLoad -> as_head s <> 0 ->
    alloc_step slots s {| as_head := as_head s; as_threads := <[t := PSub]> (as_threads s) |}
| step_sub t s : as_threads s !! t = Some PSub ->
    alloc_step slots s {| as_head := i64 (as_head s - 1); as_threads := <[t := PRead (i64 (as_head s - 1))]> (as_threads s) |}
| step_read t s i v : as_threads s !! t = Some (PRead i) -> zlookup slots i = Some v ->
    alloc_step slots s {| as_head := as_head s; as_threads := <[t := PDone i v]> (as_threads s) |}
| step_read_out t s i : as_threads s !! t = Some (PRead i) -> zlookup slots i = None ->
    alloc_step slots s {| as_head := as_head s; as_threads := <[t := PUB i]> (as_threads s) |}.

(** The slot a thread has taken. *)
Definition taken (p : alloc_pc) : option Z :=
  match p with PRead i | PDone i _ | PUB i => Some i | _ => None end.

Definition pc_ok (slots : list Z) (p : alloc_pc) : Prop :=
  match p with PBadAlloc | PUB _ => False | PDone i v => zlookup slots i = Some v | _ => True end.

(** [f] chunks were free at the beginning. *)
Record alloc_inv (slots : list Z) (f : Z) (s : alloc_state) : Prop := {
  ai_slots : f <= zlen slots < 2 ^ 63;
  ai_threads : zlen (as_threads s) <= f;
  ai_head : as_head s + zlen (omap taken (as_threads s)) = f;
  ai_taken : Forall (fun i => as_head s <= i < f) (omap taken (as_threads s));
  ai_nodup : NoDup (omap taken (as_threads s));
  ai_pcs : Forall (pc_ok slots) (as_threads s)
}.

Lemma omap_insert_same (ts : list alloc_pc) t p q : ts !! t = Some p -> taken p = taken q ->
  omap taken (<[t := q]> ts) = omap taken ts.
Proof.
  revert t. induction ts as [|x ts IH]; intros [|t] Ht Hpq; try done; cbn in *.
  - injection Ht as ->. by rewrite Hpq.
  - specialize (IH t Ht Hpq). destruct (taken x); [f_equal|]; exact IH.
Qed.

Lemma omap_insert_new (ts : list alloc_pc) t p q i : ts !! t = Some p -> taken p = None -> taken q = Some i ->
  omap taken (<[t := q]> ts) ≡ₚ i :: omap taken ts.
Proof.
  revert t. induction ts as [|x ts IH]; intros [|t] Ht Hp Hq; try done; cbn in *.
  - injection Ht as ->. by rewrite Hp, Hq.
  - specialize (IH t Ht Hp Hq). destruct (taken x); [|exact IH]. etrans; [by apply Permutation_skip, IH|constructor].
Qed.

Lemma taken_length (ts : list alloc_pc) : zlen (omap taken ts) <= zlen ts.
Proof. unfold zlen. induction ts as [|x ts IH]; cbn in *; [lia|]. destruct (taken x); cbn; lia. Qed.

(** A thread that has taken nothing leaves something to take. *)
Lemma untaken_length (ts : list alloc_pc) t p : ts !! t = Some p -> taken p = None -> zlen (omap taken ts) < zlen ts.
Proof.
  pose proof taken_length as Hle.
  unfold zlen in *. revert t. induction ts as [|x ts IH]; intros [|t] Ht Hp; try done; cbn in *.
  - injection Ht as ->. rewrite Hp. specialize (Hle ts). lia.
  - specialize (IH t Ht Hp). destruct (taken x); cbn; lia.
Qed.

Lemma alloc_step_inv slots f s s' : alloc_inv slots f s -> alloc_step slots s s' -> alloc_inv slots f s'.
Proof.
  intros [H1 H2 H3 H4 H5 H6] Hs. inversion Hs as [t ? Ht Hh|t ? Ht Hh|t ? Ht|t ? i v Ht Hv|t ? i Ht Hv]; subst;
    pose proof (taken_length (as_threads s)); pose proof (zlen_nonneg (omap taken (as_threads s))).
  - pose proof (untaken_length _ _ _ Ht eq_refl). lia.
  - pose proof (omap_insert_same _ t _ PSub Ht eq_refl) as He. split; cbn; rewrite ?He, ?zlen_insert; try done.
    by apply Forall_insert.
  - pose proof (untaken_length _ _ _ Ht eq_refl). rewrite i64_small by lia.
    pose proof (omap_insert_new _ t _ (PRead (as_head s - 1)) _ Ht eq_refl eq_refl) as He.
    split; cbn; rewrite ?zlen_insert; try done.
    + unfold zlen in *. rewrite He. cbn. lia.
    + rewrite He. apply Forall_cons. split; [lia|]. eapply Forall_impl; [exact H4|]. cbn. lia.
    + rewrite He. apply NoDup_cons. split; [|done]. intros Hi. rewrite Forall_forall in H4. specialize (H4 _ Hi). lia.
    + by apply Forall_insert.
  - pose proof (omap_insert_same _ t _ (PDone i v) Ht eq_refl) as He. split; cbn; rewrite ?He, ?zlen_insert; try done.
    by apply Forall_insert.
  - exfalso. assert (i ∈ omap taken (as_threads s)) as Hi.
    { apply list_elem_of_omap. exists (PRead i). split; [by eapply list_elem_of_lookup_2|done]. }
    rewrite Forall_forall in H4. specialize (H4 _ Hi). destruct (zlookup_is_Some slots i) as [v Hv']; [lia|congruence].
Qed.

Lemma alloc_inv_reach slots f s s' : alloc_inv slots f s -> rtc (alloc_step slots) s s' -> alloc_inv slots f s'.
Proof. intros Hi Hr. induction Hr; [done|]. eauto using alloc_step_inv. Qed.

(** C33 Concurrent allocations are safe only while there are enough chunks.  When at
    most as many threads allocate as chunks are free, in every interleaving no thread
    fails, none reads outside the stack, and different threads obtain different slots;
    but two threads that allocate from a segment with one free chunk can both pass
    the test: one gets the chunk, the other reads slot -1 and the head is left at -1,
    so that a later allocation passes the test as well. *)
Theorem concurrent_allocations (slots : list Z) :
  zlen slots < 2 ^ 63 ->
  (forall f k s, Z.of_nat k <= f <= zlen slots ->
     rtc (alloc_step slots) {| as_head := f; as_threads := replicate k PLoad |} s ->
     Forall (pc_ok slots) (as_threads s) /\ NoDup (omap taken (as_threads s)) /\
     Forall (fun i => 0 <= i < f) (omap taken (as_threads s))) /\
  (forall v, zlookup slots 0 = Some v ->
     rtc (alloc_step slots) {| as_head := 1; as_threads := [PLoad; PLoad; PLoad] |}
       {| as_head := -1; as_threads := [PDone 0 v; PUB (-1); PSub] |}).
Proof.
  intros Hl. split.
  - intros f k s Hk Hr. assert (omap taken (replicate k PLoad) = []) as He by (clear; induction k; done).
    refine (_ (alloc_inv_reach slots f _ s _ Hr)); [intros [H1 H2 H3 H4 H5 H6]|].
    2: { assert (zlen (replicate k PLoad) = Z.of_nat k) as Hk' by (unfold zlen; by rewrite length_replicate).
         split; cbn [as_head as_threads]; rewrite ?He, ?Hk'; change (zlen (@nil Z)) with 0;
           first [lia|by constructor|by apply Forall_replicate]. }
    split; [done|]. split; [done|]. eapply Forall_impl; [exact H4|]. cbn. intros i Hi.
    pose proof (taken_length (as_threads s)). lia.
  - intros v Hv.
    eapply rtc_l; [apply (step_load slots 0%nat); [reflexivity|done]|]. cbn.
    eapply rtc_l; [apply (step_load slots 1%nat); [reflexivity|done]|]. cbn.
    eapply rtc_l; [apply (step_sub slots 0%nat); reflexivity|]. cbn.
    eapply rtc_l; [apply (step_sub slots 1%nat); reflexivity|]. cbn.
    eapply rtc_l; [apply (step_load slots 2%nat); [reflexivity|done]|]. cbn.
    eapply rtc_l; [eapply (step_read slots 0%nat); [reflexivity|exact Hv]|]. cbn.
    eapply rtc_l; [eapply (step_read_out slots 1%nat); reflexivity|]. apply rtc_refl.
Qed.

Lemma concurrent_allocations_witness :
  zlen [0; 1; 2] < 2 ^ 63 /\
  rtc (alloc_step [0; 1; 2]) {| as_head := 1; as_threads := [PLoad; PLoad; PLoad] |}
    {| as_head := -1; as_threads := [PDone 0 0; PUB (-1); PSub] |}.
Proof. split; [done|]. apply (concurrent_allocations [0; 1; 2]); [done|reflexivity]. Defined.

(** * List *)
Section shm_list.
Context {V : Type} (sizeof_Header sizeof_ListNode : Z) (value_init : V).

(* @source include/ipcpp/shm/datatypes/list.h 26-30 List::ListNode *)
Record list_node : Type := { nd_value : V; nd_index_next : Z; nd_index_prev : Z }.

(** Header and the segment of the allocator behind it. *)
(* @source include/ipcpp/shm/datatypes/list.h 32-36 List::Header *)
Record shm_list : Type := { sl_header_index : Z; sl_tail_index : Z; sl_segment : @segment list_node }.

(* @source include/ipcpp/shm/datatypes/list.h 106-108 List::required_size *)
Definition list_required_size (num_nodes : Z) : Z :=
  u64 (shm_align_up sizeof_Header 16 + required_memory_size sizeof_ListNode num_nodes).

(* @source include/ipcpp/shm/datatypes/list.h 39-42 List::List *)
Definition list_construct (addr size : Z) : outcome (@chunk_allocator * shm_list) :=
  '(a, g) ← ca_construct sizeof_ListNode (addr + shm_align_up sizeof_Header 16) (u64 (size - shm_align_up sizeof_Header 16))
              {| nd_value := value_init; nd_index_next := 0; nd_index_prev := 0 |};
  Ok (a, {| sl_header_index := 0; sl_tail_index := 0; sl_segment := g |}).

(* @source include/ipcpp/shm/datatypes/list.h 44-44 List::List(void) *)
Definition list_attach (addr : Z) (l : shm_list) : @chunk_allocator := ca_attach (addr + shm_align_up sizeof_Header 16) (sl_segment l).

(** [index_to_ptr] and the construction of a node there. *)
Definition write_node (g : @segment list_node) (i : Z) (x : list_node) : outcome (@segment list_node) :=
  chunks ← must (zinsert (sg_chunks g) i x); Ok (set_chunks g chunks).

(** Both overloads: the value is copied or moved into the node. *)
(* @source include/ipcpp/shm/datatypes/list.h 46-64 List::push_front *)
Definition push_front (a : @chunk_allocator) (l : shm_list) (value : V) : outcome shm_list :=
  '(node_idx, g) ← allocate_get_index a (sl_segment l);
  g1 ← write_node g node_idx {| nd_value := value; nd_index_next := 0; nd_index_prev := sl_header_index l |};
  Ok {| sl_header_index := node_idx; sl_tail_index := sl_tail_index l; sl_segment := g1 |}.

(* @source include/ipcpp/shm/datatypes/list.h 66-74 List::pop_front *)
Definition pop_front (a : @chunk_allocator) (l : shm_list) : outcome (V * shm_list) :=
  node ← must (zlookup (sg_chunks (sl_segment l)) (sl_header_index l));
  g ← deallocate_index a (sl_segment l) (sl_header_index l);
  Ok (nd_value node, {| sl_header_index := nd_index_prev node; sl_tail_index := sl_tail_index l; sl_segment := g |}).

(* @source include/ipcpp/shm/datatypes/list.h 76-94 List::push_back *)
Definition push_back (a : @chunk_allocator) (l : shm_list) (value : V) : outcome shm_list :=
  '(node_idx, g) ← allocate_get_index a (sl_segment l);
  g1 ← write_node g node_idx {| nd_value := value; nd_index_next := sl_tail_index l; nd_index_prev := 0 |};
  Ok {| sl_header_index := sl_header_index l; sl_tail_index := node_idx; sl_segment := g1 |}.

(* @source include/ipcpp/shm/datatypes/list.h 96-104 List::pop_back *)
Definition pop_back (a : @chunk_allocator) (l : shm_list) : outcome (V * shm_list) :=
  node ← must (zlookup (sg_chunks (sl_segment l)) (sl_tail_index l));
  g ← deallocate_index a (sl_segment l) (sl_tail_index l);
  Ok (nd_value node, {| sl_header_index := sl_header_index l; sl_tail_index := nd_index_next node; sl_segment := g |}).

(** * The specification: two stacks that share [n] nodes *)
Inductive lop : Type := LPushFront (v : V) | LPopFront | LPushBack (v : V) | LPopBack.

(** Pushing onto full stacks fails ([None]); popping an empty one is not specified. *)
Definition spec_list (n : Z) (o : lop) (s : list V * list V) : option (option V * (list V * list V)) :=
  let '(f, b) := s in
  match o with
  | LPushFront v => if zlen f + zlen b =? n then Some (None, s) else Some (Some v, (v :: f, b))
  | LPushBack v => if zlen f + zlen b =? n then Some (None, s) else Some (Some v, (f, v :: b))
  | LPopFront => match f with v :: f' => Some (Some v, (f', b)) | [] => None end
  | LPopBack => match b with v :: b' => Some (Some v, (f, b')) | [] => None end
  end.

Fixpoint spec_lists (n : Z) (os : list lop) (s : list V * list V) : option (list (option V) * (list V * list V)) :=
  match os with
  | [] => Some ([], s)
  | o :: os' => '(r, s1) ← spec_list n o s; '(rs, s2) ← spec_lists n os' s1; Some (r :: rs, s2)
  end.

Definition catch_bad_alloc (l : shm_list) (m : outcome (V * shm_list)) : outcome (option V * shm_list) :=
  match m with
  | Throw bad_alloc => Ok (None, l)
  | _ => '(v, l1) ← m; Ok (Some v, l1)
  end.

Definition lexec (a : @chunk_allocator) (o : lop) (l : shm_list) : outcome (option V * shm_list) :=
  match o with
  | LPushFront v => catch_bad_alloc l (l1 ← push_front a l v; Ok (v, l1))
  | LPushBack v => catch_bad_alloc l (l1 ← push_back a l v; Ok (v, l1))
  | LPopFront => '(v, l1) ← pop_front a l; Ok (Some v, l1)
  | LPopBack => '(v, l1) ← pop_back a l; Ok (Some v, l1)
  end.

Fixpoint lrun (a : @chunk_allocator) (os : list lop) (l : shm_list) : outcome (list (option V) * shm_list) :=
  match os with
  | [] => Ok ([], l)
  | o :: os' => '(r, l1) ← lexec a o l; '(rs, l2) ← lrun a os' l1; Ok (r :: rs, l2)
  end.

(** A stack of nodes, the top at [top], linked by [next]. *)
Fixpoint linked (next : list_node -> Z) (chunks : list list_node) (top : Z) (ids : list Z) (vs : list V) : Prop :=
  match ids, vs with
  | [], [] => top = 0
  | i :: ids', v :: vs' =>
    top = i /\ exists x, zlookup chunks i = Some x /\ nd_value x = v /\ linked next chunks (next x) ids' vs'
  | _, _ => False
  end.

Lemma linked_write next chunks top ids vs i x : i ∉ ids -> linked next chunks top ids vs ->
  0 <= i < zlen chunks -> linked next (<[Z.to_nat i := x]> chunks) top ids vs.
Proof.
  revert top vs. induction ids as [|j ids IH]; intros top [|v vs] Hi Hl Hb; try done. cbn in *.
  destruct Hl as (-> & y & Hy & Hv & Hl). split; [done|]. exists y.
  rewrite zlookup_insert by done. rewrite decide_False by set_solver. split; [done|]. split; [done|]. apply IH; [set_solver|done|done].
Qed.

Lemma linked_length next chunks top ids vs : linked next chunks top ids vs -> zlen ids = zlen vs.
Proof.
  revert top vs. induction ids as [|j ids IH]; intros top [|v vs] Hl; try done. cbn in Hl.
  destruct Hl as (_ & y & _ & _ & Hl). rewrite !zlen_cons. by erewrite IH.
Qed.

(** Two stacks in one segment, each with its link field. *)
Record two_stacks (a : @chunk_allocator) (n : Z) (g : @segment list_node) (free : list Z)
    (nx1 : list_node -> Z) (top1 : Z) (ids1 : list Z) (vs1 : list V) (nx2 : list_node -> Z) (top2 : Z) (ids2 : list Z) (vs2 : list V) : Prop := {
  ts_alloc : ca_rep a n g free;
  ts_first : linked nx1 (sg_chunks g) top1 ids1 vs1;
  ts_second : linked nx2 (sg_chunks g) top2 ids2 vs2;
  ts_perm : free ++ ids1 ++ ids2 ≡ₚ seqZ 0 n
}.

Lemma two_stacks_sym a n g free nx1 top1 ids1 vs1 nx2 top2 ids2 vs2 :
  two_stacks a n g free nx1 top1 ids1 vs1 nx2 top2 ids2 vs2 -> two_stacks a n g free nx2 top2 ids2 vs2 nx1 top1 ids1 vs1.
Proof. intros [H1 H2 H3 H4]. split; try done. by rewrite (Permutation_app_comm ids2). Qed.

Lemma two_stacks_full a n g free nx1 top1 ids1 vs1 nx2 top2 ids2 vs2 :
  two_stacks a n g free nx1 top1 ids1 vs1 nx2 top2 ids2 vs2 -> zlen free + (zlen vs1 + zlen vs2) = n.
Proof.
  intros [H1 H2 H3 H4]. apply Permutation_length in H4. rewrite !length_app, length_seqZ in H4.
  apply linked_length in H2, H3. destruct H1. unfold zlen in *. lia.
Qed.

(** Taking a node, writing it and putting it on top of the first stack. *)
Lemma two_stacks_push a n g free nx1 top1 ids1 vs1 nx2 top2 ids2 vs2 :
  two_stacks a n g free nx1 top1 ids1 vs1 nx2 top2 ids2 vs2 ->
  if zlen vs1 + zlen vs2 =? n then allocate_get_index a g = Throw bad_alloc
  else exists i g1, allocate_get_index a g = Ok (i, g1) /\ forall x, nx1 x = top1 ->
    exists g2 f, write_node g1 i x = Ok g2 /\
      two_stacks a n g2 f nx1 i (i :: ids1) (nd_value x :: vs1) nx2 top2 ids2 vs2.
Proof.
  intros Hts. pose proof (two_stacks_full _ _ _ _ _ _ _ _ _ _ _ _ Hts) as Hn. destruct Hts as [H1 H2 H3 H4].
  pose proof (NoDup_seqZ 0 n) as Hd. rewrite <- H4 in Hd. unfold allocate_get_index. rewrite (cr_head _ _ _ _ H1).
  destruct free as [|i f].
  { change (zlen (@nil Z)) with 0 in *. rewrite (proj2 (Z.eqb_eq _ _)) by lia. done. }
  rewrite zlen_cons in *. pose proof (zlen_nonneg f). rewrite !(proj2 (Z.eqb_neq _ _)) by lia.
  destruct (pop_from_stack_ok a n g i f H1) as (g1 & -> & Hr & Hc). exists i, g1. split; [done|]. intros x Hx.
  assert (i ∈ seqZ 0 n) as Hi%elem_of_seqZ by (rewrite <- H4; set_solver).
  pose proof (cr_chunks _ _ _ _ H1) as Hch. unfold write_node. rewrite zinsert_in by (rewrite Hc, Hch; lia).
  cbn [mbind outcome_bind must]. eexists _, f. split; [done|].
  apply NoDup_app in Hd as (Hd1 & Hd2 & _). apply NoDup_cons in Hd1 as [Hd1 _]. specialize (Hd2 i ltac:(set_solver)). rewrite elem_of_app in Hd2.
  split; cbn [set_chunks sg_chunks]; rewrite ?Hc.
  - destruct Hr. split; cbn; rewrite ?zlen_insert; done || congruence.
  - cbn [linked]. split; [done|]. exists x. rewrite zlookup_insert, decide_True by (done || lia). split; [done|]. split; [done|].
    rewrite Hx. apply linked_write; [tauto|done|lia].
  - apply linked_write; [tauto|done|lia].
  - rewrite <- H4. cbn. symmetry. apply Permutation_middle.
Qed.

Lemma two_stacks_pop a n g free nx1 top1 ids1 v vs1 nx2 top2 ids2 vs2 :
  two_stacks a n g free nx1 top1 ids1 (v :: vs1) nx2 top2 ids2 vs2 ->
  exists x g1 ids, zlookup (sg_chunks g) top1 = Some x /\ nd_value x = v /\ deallocate_index a g top1 = Ok g1 /\
    two_stacks a n g1 (top1 :: free) nx1 (nx1 x) ids vs1 nx2 top2 ids2 vs2.
Proof.
  intros Hts. pose proof (two_stacks_full _ _ _ _ _ _ _ _ _ _ _ _ Hts) as Hn. destruct Hts as [H1 H2 H3 H4].
  destruct ids1 as [|i ids1]; [done|]. cbn [linked] in H2. destruct H2 as (-> & x & Hx & Hv & Hl).
  rewrite zlen_cons in Hn. pose proof (zlen_nonneg vs1). pose proof (zlen_nonneg vs2).
  destruct (push_to_stack_ok a n g free i H1) as (g1 & Hg & Hr & Hc); [lia|].
  exists x, g1, ids1. split; [done|]. split; [done|]. split; [exact Hg|]. split; rewrite ?Hc; try done.
  rewrite <- H4. cbn. by rewrite <- Permutation_middle.
Qed.

(** Both stacks and the free nodes of a list. *)
Definition list_rep (a : @chunk_allocator) (n : Z) (l : shm_list) (s : list V * list V) : Prop :=
  exists free idf idb, two_stacks a n (sl_segment l) free nd_index_prev (sl_header_index l) idf s.1
                         nd_index_next (sl_tail_index l) idb s.2.

Lemma lexec_ok a n o l s r s' : list_rep a n l s -> spec_list n o s = Some (r, s') ->
  exists l', lexec a o l = Ok (r, l') /\ list_rep a n l' s'.
Proof.
  intros (free & idf & idb & Hr) Ho. destruct s as [f b]. cbn [fst snd] in *.
  destruct o as [v| |v|]; cbn [spec_list lexec] in *; unfold push_front, push_back, pop_front, pop_back.
  - pose proof (two_stacks_push _ _ _ _ _ _ _ _ _ _ _ _ Hr) as Ha. destruct (_ =? n); injection Ho as <- <-.
    { rewrite Ha. exists l. split; [done|]. by exists free, idf, idb. }
    destruct Ha as (i & g1 & -> & Hw). destruct (Hw {| nd_value := v; nd_index_next := 0; nd_index_prev := sl_header_index l |} eq_refl) as (g2 & fr & H1 & H2).
    cbn [mbind outcome_bind]. rewrite H1. eexists. split; [done|]. by exists fr, (i :: idf), idb.
  - destruct f as [|v f]; [done|]. injection Ho as <- <-.
    destruct (two_stacks_pop _ _ _ _ _ _ _ _ _ _ _ _ _ Hr) as (x & g1 & ids & Hx & <- & Hg & Hr').
    rewrite Hx. cbn [mbind outcome_bind must]. rewrite Hg. eexists. split; [done|]. by eexists _, ids, idb.
  - pose proof (two_stacks_push _ _ _ _ _ _ _ _ _ _ _ _ (two_stacks_sym _ _ _ _ _ _ _ _ _ _ _ _ Hr)) as Ha.
    rewrite (Z.add_comm (zlen b)) in Ha. destruct (_ =? n); injection Ho as <- <-.
    { rewrite Ha. exists l. split; [done|]. by exists free, idf, idb. }
    destruct Ha as (i & g1 & -> & Hw). destruct (Hw {| nd_value := v; nd_index_next := sl_tail_index l; nd_index_prev := 0 |} eq_refl) as (g2 & fr & H1 & H2).
    cbn [mbind outcome_bind]. rewrite H1. eexists. split; [done|]. exists fr, idf, (i :: idb). by apply two_stacks_sym.
  - destruct b as [|v b]; [done|]. injection Ho as <- <-. apply two_stacks_sym in Hr.
    destruct (two_stacks_pop _ _ _ _ _ _ _ _ _ _ _ _ _ Hr) as (x & g1 & ids & Hx & <- & Hg & Hr').
    rewrite Hx. cbn [mbind outcome_bind must]. rewrite Hg. eexists. split; [done|]. eexists _, idf, ids. by apply two_stacks_sym.
Qed.

Lemma lrun_ok a n os : forall l s rs s', list_rep a n l s -> spec_lists n os s = Some (rs, s') ->
  exists l', lrun a os l = Ok (rs, l') /\ list_rep a n l' s'.
Proof.
  induction os as [|o os IH]; intros l s rs s' Hr Ho; cbn [spec_lists lrun] in *; [injection Ho as <- <-; by exists l|].
  apply bind_Some in Ho as ([r s1] & H1 & Ho). apply bind_Some in Ho as ([rs1 s2] & H2 & [= <- <-]).
  destruct (lexec_ok a n o l s r s1 Hr H1) as (l1 & -> & Hr1). cbn [mbind outcome_bind].
  destruct (IH l1 s1 rs1 s2 Hr1 H2) as (l2 & -> & Hr2). by exists l2.
Qed.

(** Popping when all nodes are free overruns the stack of free nodes. *)
Lemma deallocate_full a n (g : @segment list_node) free i : ca_rep a n g free -> zlen free = n -> deallocate_index a g i = UB.
Proof.
  intros [H1 H2 H3 H4 H5 H6 H7 H8] Hn. unfold deallocate_index, push_to_stack.
  rewrite H6, H1, (proj2 (Z.ltb_ge _ _)) by lia. done.
Qed.

Lemma pop_empty a n l : list_rep a n l ([], []) -> pop_front a l = UB /\ pop_back a l = UB.
Proof.
  intros (free & idf & idb & Hr). pose proof (two_stacks_full _ _ _ _ _ _ _ _ _ _ _ _ Hr) as Hn. destruct Hr as [Hr _ _ _].
  cbn [fst snd] in Hn. change (zlen (@nil V)) with 0 in Hn. unfold pop_front, pop_back.
  split; (destruct (zlookup _ _) as [x|]; [|done]; cbn [mbind outcome_bind must]; rewrite (deallocate_full a n _ free) by (done || lia); done).
Qed.

(** A node taken from and written in a fresh segment, and then node 0 given back. *)
Lemma fresh_take_return a n (g : @segment list_node) nd x : ca_rep a n g (rev (seqZ 0 n)) -> 1 <= n -> sg_chunks g = replicate (Z.to_nat n) nd ->
  exists g1 g2 g3, allocate_get_index a g = Ok (n - 1, g1) /\ write_node g1 (n - 1) x = Ok g2 /\
    zlookup (sg_chunks g2) 0 = Some (if n =? 1 then x else nd) /\
    deallocate_index a g2 0 = Ok g3 /\ ca_rep a n g3 (0 :: rev (seqZ 0 (n - 1))).
Proof.
  intros H2 Hn H6. assert (rev (seqZ 0 n) = (n - 1) :: rev (seqZ 0 (n - 1))) as Hrev.
  { replace n with (n - 1 + 1) at 1 by lia. rewrite seqZ_app by lia. rewrite rev_app_distr. by rewrite Z.add_0_l. }
  rewrite Hrev in H2. unfold allocate_get_index. rewrite (cr_head _ _ _ _ H2), zlen_cons.
  rewrite (proj2 (Z.eqb_neq _ _)) by (pose proof (zlen_nonneg (rev (seqZ 0 (n - 1)))); lia).
  destruct (pop_from_stack_ok a n _ _ _ H2) as (g1 & Hp & Hr1 & Hc1). exists g1.
  unfold write_node. rewrite zinsert_in by (rewrite (cr_chunks _ _ _ _ Hr1); lia). cbn [mbind outcome_bind must].
  exists (set_chunks g1 (<[Z.to_nat (n - 1):=x]> (sg_chunks g1))). unfold deallocate_index.
  assert (ca_rep a n (set_chunks g1 (<[Z.to_nat (n - 1):=x]> (sg_chunks g1))) (rev (seqZ 0 (n - 1)))) as Hr2.
  { destruct Hr1; split; cbn; rewrite ?zlen_insert, ?zlen_replicate; done || lia. }
  destruct (push_to_stack_ok a n _ _ 0 Hr2) as (g3 & Hd & Hr3 & _); [unfold zlen; rewrite length_rev, length_seqZ; lia|].
  exists g3. split; [done|]. split; [reflexivity|]. split; [|done].
  cbn [set_chunks sg_chunks]. rewrite Hc1, H6, zlookup_insert by (rewrite zlen_replicate; lia).
  destruct (Z.eqb_spec n 1) as [->|Hne]; [by rewrite decide_True by lia|]. rewrite decide_False by lia.
  unfold zlookup. cbn. apply lookup_replicate_2. lia.
Qed.

Lemma list_construct_ok addr size : 0 < sizeof_ListNode < 2 ^ 60 -> 0 <= sizeof_Header < 2 ^ 60 -> 0 < addr ->
  shm_align_up sizeof_Header 16 + 64 <= size -> addr + size < 2 ^ 61 ->
  exists a l, list_construct addr size = Ok (a, l) /\
    let n := chunk_count sizeof_ListNode (size - shm_align_up sizeof_Header 16) in
    ca_rep a n (sl_segment l) (rev (seqZ 0 n)) /\ list_rep a n l ([], []) /\ a = list_attach addr l /\
    sl_header_index l = 0 /\ sl_tail_index l = 0 /\
    sg_chunks (sl_segment l) = replicate (Z.to_nat n) {| nd_value := value_init; nd_index_next := 0; nd_index_prev := 0 |}.
Proof.
  intros HT HH Ha Hs Hb. unfold list_construct. destruct (shm_align_up16 sizeof_Header) as [Hh _]; [lia|].
  rewrite (u64_small (size - _)) by lia.
  destruct (ca_construct_ok sizeof_ListNode (addr + shm_align_up sizeof_Header 16) (size - shm_align_up sizeof_Header 16)
    {| nd_value := value_init; nd_index_next := 0; nd_index_prev := 0 |}) as (a & g & -> & Hr & Hat & _ & Hc); [lia..|].
  eexists a, _. split; [done|]. cbn. split; [done|]. split; [|by split_and!].
  exists (rev (seqZ 0 (chunk_count sizeof_ListNode (size - shm_align_up sizeof_Header 16)))), [], [].
  split; try done. rewrite !app_nil_r. symmetry. apply Permutation_rev.
Qed.

(** C34 The shared-memory list is two independent stacks.  From a freshly constructed
    list of [n] nodes (each of less than 2^60 bytes, in a region that ends below address 2^61
    and has at least 64 bytes behind the header), every sequence of pushes at either end and of pops from an end that has
    elements behaves as two stacks that share the nodes: [pop_front] returns what
    [push_front] added last and never what [push_back] added, and the other way
    round; a push fails with [bad_alloc] exactly when all nodes are in use.  For pops
    from an end without elements it speaks of a freshly constructed list: a pop at either
    end overruns the stack of free nodes (undefined behaviour); after one push of [x] at
    one end, a pop at the other end reads node 0 and gives it back, so with at least two
    nodes it returns the initial value instead of [x] and node 0 is on the stack of free
    nodes twice.  (With one node, node 0 is the node of [x], and the pop returns [x].) *)
Theorem list_is_two_stacks (addr size : Z) :
  0 < sizeof_ListNode < 2 ^ 60 -> 0 <= sizeof_Header < 2 ^ 60 -> 0 < addr ->
  shm_align_up sizeof_Header 16 + 64 <= size -> addr + size < 2 ^ 61 ->
  let n := chunk_count sizeof_ListNode (size - shm_align_up sizeof_Header 16) in
  exists a l, list_construct addr size = Ok (a, l) /\
    (forall os rs s, spec_lists n os ([], []) = Some (rs, s) -> exists l', lrun a os l = Ok (rs, l') /\ list_rep a n l' s) /\
    (pop_front a l = UB /\ pop_back a l = UB) /\
    (1 <= n -> forall x, let y := if n =? 1 then x else value_init in
       (exists l1 l2, push_back a l x = Ok l1 /\ pop_front a l1 = Ok (y, l2) /\
          ca_rep a n (sl_segment l2) (0 :: rev (seqZ 0 (n - 1)))) /\
       (exists l1 l2, push_front a l x = Ok l1 /\ pop_back a l1 = Ok (y, l2) /\
          ca_rep a n (sl_segment l2) (0 :: rev (seqZ 0 (n - 1))))).
Proof.
  intros HT HH Ha Hs Hb n. destruct (list_construct_ok addr size HT HH Ha Hs Hb) as (a & l & H1 & H2 & H3 & _ & H4 & H5 & H6).
  fold n in H2, H3, H6. exists a, l. split; [done|]. split; [intros os rs s Ho; by eapply lrun_ok|].
  split; [by apply (pop_empty a n)|]. intros Hn x. unfold push_back, push_front, pop_front, pop_back.
  split.
  - destruct (fresh_take_return a n _ _ {| nd_value := x; nd_index_next := sl_tail_index l; nd_index_prev := 0 |} H2 Hn H6)
      as (g1 & g2 & g3 & E1 & E2 & E3 & E4 & Hr).
    do 2 eexists. rewrite E1. cbn [mbind outcome_bind]. rewrite E2. cbn [mbind outcome_bind]. split; [reflexivity|].
    cbn [sl_segment sl_header_index]. rewrite H4, E3. cbn [mbind outcome_bind must]. rewrite E4. cbn [mbind outcome_bind].
    split; [by destruct (n =? 1)|exact Hr].
  - destruct (fresh_take_return a n _ _ {| nd_value := x; nd_index_next := 0; nd_index_prev := sl_header_index l |} H2 Hn H6)
      as (g1 & g2 & g3 & E1 & E2 & E3 & E4 & Hr).
    do 2 eexists. rewrite E1. cbn [mbind outcome_bind]. rewrite E2. cbn [mbind outcome_bind]. split; [reflexivity|].
    cbn [sl_segment sl_tail_index]. rewrite H5, E3. cbn [mbind outcome_bind must]. rewrite E4. cbn [mbind outcome_bind].
    split; [by destruct (n =? 1)|exact Hr].
Qed.
End shm_list.

Lemma list_is_two_stacks_witness :
  0 < 24 < 2 ^ 60 /\ exists a (l : @shm_list Z), list_construct 16 24 7 4096 176 = Ok (a, l) /\
    (pop_front a l = UB /\ pop_back a l = UB) /\
    (exists l1 l2, push_back a l 5 = Ok l1 /\ pop_front a l1 = Ok (7, l2)) /\
    exists l', lrun a [LPushFront 1; LPushBack 2; LPushBack 3; LPushBack 4; LPopBack; LPopFront] l =
      Ok ([Some 1; Some 2; Some 3; None; Some 3; Some 1], l') /\ list_rep a 3 l' ([], [2]).
Proof.
  split; [lia|]. destruct (list_is_two_stacks 16 24 7 4096 176) as (a & l & H1 & H2 & H3 & H4); [lia|lia|lia|vm_compute; done|lia|].
  exists a, l. split; [exact H1|]. split; [exact H3|]. split.
  - destruct (H4 ltac:(vm_compute; done) 5) as [(l1 & l2 & E1 & E2 & _) _]. by exists l1, l2.
  - apply H2. reflexivity.
Defined.
