(* ===== verification/Errors.v ===== *)
(** Error enumerations, their [std::error_category] classes and the printers of
    enumerations: [shm/error.h], [event/error.h], [publish_subscribe/error.h],
    [publish_subscribe/error_codes.h], [publish_subscribe/real_time/error_codes.h],
    [types.h] and [types.cpp]. *)
From S2P Require Import Prelude.

Local Open Scope string_scope.

(** The categories of the sources and the two of the standard library they use. *)
Inductive category : Type :=
| shm_category
| event_category
| socket_category
| publish_subscribe_category
| publisher_category
| rt_subscriber_category
| system_category
| generic_category.

#[export] Instance category_eq_dec : EqDecision category.
Proof. solve_decision. Defined.

(** [std::error_code], and the one its default constructor makes. *)
Record error_code : Type := { ec_value : Z; ec_category : category }.
Definition no_error : error_code := {| ec_value := 0; ec_category := system_category |}.

#[export] Instance error_code_eq_dec : EqDecision error_code.
Proof. solve_decision. Defined.

(** [static_cast] of a number to an enumeration whose constants are 0, 1, ... *)
Definition enum_cast {E} (all : list E) (ev : Z) : option E := zlookup all ev.

(** ** shm/error.h *)
(* @source include/ipcpp/shm/error.h 14-26 shm::error_t *)
Inductive shm_error_t : Type :=
| shm_success
| creation_error
| resize_error
| open_error
| size_error
| file_not_found
| mapping_error
| anonymous_mapping_not_allowed
| mapped_at_wrong_address
| access_error
| shm_unknown_error.

#[export] Instance shm_error_t_eq_dec : EqDecision shm_error_t.
Proof. solve_decision. Defined.

Definition all_shm_errors : list shm_error_t :=
  [shm_success; creation_error; resize_error; open_error; size_error; file_not_found; mapping_error;
   anonymous_mapping_not_allowed; mapped_at_wrong_address; access_error; shm_unknown_error].

Definition shm_error_value (e : shm_error_t) : Z :=
  match e with
  | shm_success => 0 | creation_error => 1 | resize_error => 2 | open_error => 3 | size_error => 4
  | file_not_found => 5 | mapping_error => 6 | anonymous_mapping_not_allowed => 7
  | mapped_at_wrong_address => 8 | access_error => 9 | shm_unknown_error => 10
  end.

(* @source include/ipcpp/shm/error.h 28-58 shm::error_category::message *)
Definition shm_message (ev : Z) : string :=
  match enum_cast all_shm_errors ev with
  | Some shm_success => "success"
  | Some creation_error => "creation_error"
  | Some resize_error => "resize_error"
  | Some open_error => "open_error"
  | Some size_error => "size_error"
  | Some file_not_found => "file_not_found"
  | Some mapping_error => "mapping_error"
  | Some anonymous_mapping_not_allowed => "anonymous_mapping_not_allowed"
  | Some mapped_at_wrong_address => "mapped_at_wrong_address"
  | Some access_error => "access_error"
  | Some shm_unknown_error => "unknown_error"
  | None => "unlisted_error"
  end.

Definition shm_code (e : shm_error_t) : error_code := {| ec_value := shm_error_value e; ec_category := shm_category |}.

(** ** event/error.h *)
(* @source include/ipcpp/event/error.h 15-26 event::error_t *)
Inductive event_error_t : Type :=
| event_success
| timeout
| notifier_down
| observer_down
| not_subscribed
| subscription_paused
| subscription_failed
| message_invalid
| notification_failed
| event_unknown_error.

Definition all_event_errors : list event_error_t :=
  [event_success; timeout; notifier_down; observer_down; not_subscribed; subscription_paused;
   subscription_failed; message_invalid; notification_failed; event_unknown_error].

Definition event_error_value (e : event_error_t) : Z :=
  match e with
  | event_success => 0 | timeout => 1 | notifier_down => 2 | observer_down => 3 | not_subscribed => 4
  | subscription_paused => 5 | subscription_failed => 6 | message_invalid => 7 | notification_failed => 8
  | event_unknown_error => 9
  end.

(* @source include/ipcpp/event/error.h 28-56 event::error_category::message *)
Definition event_message (ev : Z) : string :=
  match enum_cast all_event_errors ev with
  | Some event_success => "success"
  | Some timeout => "timeout"
  | Some notifier_down => "notifier_down"
  | Some observer_down => "observer_down"
  | Some not_subscribed => "not_subscribed"
  | Some subscription_paused => "subscription_paused"
  | Some subscription_failed => "subscription_failed"
  | Some message_invalid => "message_invalid"
  | Some notification_failed => "notification_failed"
  | Some event_unknown_error => "unknown_error"
  | None => "unlisted_error"
  end.

Definition event_code (e : event_error_t) : error_code := {| ec_value := event_error_value e; ec_category := event_category |}.

(* @source include/ipcpp/event/error.h 58-64 event::socket_error_t *)
Inductive socket_error_t : Type :=
| socket_success
| create_error
| bind_error
| listen_error
| socket_unknown_error.

Definition all_socket_errors : list socket_error_t :=
  [socket_success; create_error; bind_error; listen_error; socket_unknown_error].

Definition socket_error_value (e : socket_error_t) : Z :=
  match e with
  | socket_success => 0 | create_error => 1 | bind_error => 2 | listen_error => 3 | socket_unknown_error => 4
  end.

(* @source include/ipcpp/event/error.h 66-84 event::socket_error_category::message *)
Definition socket_message (ev : Z) : string :=
  match enum_cast all_socket_errors ev with
  | Some socket_success => "success"
  | Some create_error => "create_error"
  | Some bind_error => "bind_error"
  | Some listen_error => "listen_error"
  | Some socket_unknown_error => "unknown_error"
  | None => "unlisted_error"
  end.

Definition socket_code (e : socket_error_t) : error_code := {| ec_value := socket_error_value e; ec_category := socket_category |}.

(** ** publish_subscribe *)
(* @source include/ipcpp/publish_subscribe/error.h 12-15 publish_subscribe::error_t *)
Inductive ps_error_t : Type := ps_success | ps_unknown_error.

Definition all_ps_errors : list ps_error_t := [ps_success; ps_unknown_error].
Definition ps_error_value (e : ps_error_t) : Z := match e with ps_success => 0 | ps_unknown_error => 1 end.

(* @source include/ipcpp/publish_subscribe/error.h 17-29 publish_subscribe::error_category::message *)
Definition ps_message (ev : Z) : string :=
  match enum_cast all_ps_errors ev with
  | Some ps_success => "success"
  | Some ps_unknown_error => "unknown_error"
  | None => "unlisted_error"
  end.

(* @source include/ipcpp/publish_subscribe/error.h 33-38 publisher::error_t *)
Inductive publisher_error_t : Type :=
| publisher_success
| no_active_subscription
| publish_rate_limit_exceeded
| publisher_unknown_error.

Definition all_publisher_errors : list publisher_error_t :=
  [publisher_success; no_active_subscription; publish_rate_limit_exceeded; publisher_unknown_error].

Definition publisher_error_value (e : publisher_error_t) : Z :=
  match e with
  | publisher_success => 0 | no_active_subscription => 1 | publish_rate_limit_exceeded => 2 | publisher_unknown_error => 3
  end.

(* @source include/ipcpp/publish_subscribe/error.h 40-56 publisher::error_category::message *)
Definition publisher_message (ev : Z) : string :=
  match enum_cast all_publisher_errors ev with
  | Some publisher_success => "success"
  | Some no_active_subscription => "no_active_subscription"
  | Some publish_rate_limit_exceeded => "publish_rate_limit_exceeded"
  | Some publisher_unknown_error => "unknown_error"
  | None => "unlisted_error"
  end.

(* @source include/ipcpp/publish_subscribe/error_codes.h 12-18 error::MemoryInitialization *)
Inductive memory_initialization : Type :=
| BufferTooSmall
| TooManyElements
| InvalidInitializationState
| CorruptedInitializationState
| Timeout.

(* @source include/ipcpp/publish_subscribe/real_time/error_codes.h 14-17 error::Subscriber *)
Inductive rt_subscriber_error : Type := NoMessageAvailable | AcquireLimitExceeded.

Definition all_rt_subscriber_errors : list rt_subscriber_error := [NoMessageAvailable; AcquireLimitExceeded].
Definition rt_subscriber_error_value (e : rt_subscriber_error) : Z :=
  match e with NoMessageAvailable => 0 | AcquireLimitExceeded => 1 end.

(* @source include/ipcpp/publish_subscribe/real_time/error_codes.h 26-35 error::SubscriberCategory::message *)
Definition rt_subscriber_message (ev : Z) : string :=
  match enum_cast all_rt_subscriber_errors ev with
  | Some NoMessageAvailable => "no message available"
  | Some AcquireLimitExceeded => "acquire limit exceeded"
  | None => "unlisted_error"
  end.

(** ** Printers of types.cpp: what is written to the stream *)
(* @source include/ipcpp/types.h 34-37 AccessMode *)
Inductive access_mode : Type := READ | WRITE.

#[export] Instance access_mode_eq_dec : EqDecision access_mode.
Proof. solve_decision. Defined.

(* @source src/types.cpp 13-23 operator<<(AccessMode) *)
Definition print_access_mode (am : access_mode) : string :=
  match am with
  | READ => "AccessMode::READ"
  | WRITE => "AccessMode::WRITE"
  end.

(* @source include/ipcpp/types.h 43-50 event::NotificationType *)
Inductive notification_type : Type :=
| UNINITIALIZED
| REGISTRATION_SUCCESS
| REGISTRATION_FAILED
| PUBLISHER_DOWN
| REGULAR
| EXIT.

(* @source src/types.cpp 33-52 operator<<(NotificationType) *)
Definition print_notification_type (nt : notification_type) : string :=
  match nt with
  | UNINITIALIZED => "NotificationType::UNINITIALIZED"
  | REGISTRATION_SUCCESS => "NotificationType::REGISTRATION_SUCCESS"
  | REGISTRATION_FAILED => "NotificationType::REGISTRATION_FAILED"
  | PUBLISHER_DOWN => "NotificationType::PUBLISHER_DOWN"
  | REGULAR => "NotificationType::REGULAR"
  | EXIT => ""
  end.

(** * What the categories and printers promise *)

(** A code survives the way through [std::error_code]. *)
Class EnumCodes (E : Type) (all : list E) (value : E -> Z) (message : Z -> string) : Prop := {
  ec_cast : forall e, enum_cast all (value e) = Some e;
  ec_values : forall ev e, enum_cast all ev = Some e -> value e = ev;
  ec_listed : forall e, message (value e) <> "unlisted_error";
  ec_distinct : forall e e', message (value e) = message (value e') -> e = e';
  ec_unlisted : forall ev, ~ (0 <= ev < zlen all)%Z -> message ev = "unlisted_error"
}.

(** A constant is at the place of its value. *)
Lemma places_values {E} (all : list E) (value : E -> Z) : map value all = seqZ 0 (zlen all) ->
  forall ev e, enum_cast all ev = Some e -> value e = ev.
Proof.
  intros Hall ev e He. unfold enum_cast in He. pose proof (zlookup_lt _ _ _ He) as Hlt. unfold zlookup in He. case_match; [|done].
  apply (f_equal (lookup (Z.to_nat ev))) in Hall. rewrite list_lookup_fmap, He, lookup_seqZ_lt in Hall by lia.
  injection Hall as ->. lia.
Qed.

Ltac enum_codes unf :=
  split; [by intros []|by apply places_values|by intros []|intros [] []; first [done|intros H; discriminate H]
         |intros ev Hev; unfold unf, enum_cast; by rewrite zlookup_None].

#[export] Instance shm_codes : EnumCodes shm_error_t all_shm_errors shm_error_value shm_message.
Proof. enum_codes shm_message. Qed.
#[export] Instance event_codes : EnumCodes event_error_t all_event_errors event_error_value event_message.
Proof. enum_codes event_message. Qed.
#[export] Instance socket_codes : EnumCodes socket_error_t all_socket_errors socket_error_value socket_message.
Proof. enum_codes socket_message. Qed.
#[export] Instance ps_codes : EnumCodes ps_error_t all_ps_errors ps_error_value ps_message.
Proof. enum_codes ps_message. Qed.
#[export] Instance publisher_codes : EnumCodes publisher_error_t all_publisher_errors publisher_error_value publisher_message.
Proof. enum_codes publisher_message. Qed.
#[export] Instance rt_subscriber_codes : EnumCodes rt_subscriber_error all_rt_subscriber_errors rt_subscriber_error_value rt_subscriber_message.
Proof. enum_codes rt_subscriber_message. Qed.

(** * Codes and messages *)

(** The errors the sources report. *)
Inductive any_error : Type :=
| Shm (e : shm_error_t)
| Event (e : event_error_t)
| Socket (e : socket_error_t)
| PublishSubscribe (e : ps_error_t)
| Publisher (e : publisher_error_t)
| Subscriber (e : rt_subscriber_error).

Definition any_code (a : any_error) : error_code :=
  match a with
  | Shm e => {| ec_value := shm_error_value e; ec_category := shm_category |}
  | Event e => {| ec_value := event_error_value e; ec_category := event_category |}
  | Socket e => {| ec_value := socket_error_value e; ec_category := socket_category |}
  | PublishSubscribe e => {| ec_value := ps_error_value e; ec_category := publish_subscribe_category |}
  | Publisher e => {| ec_value := publisher_error_value e; ec_category := publisher_category |}
  | Subscriber e => {| ec_value := rt_subscriber_error_value e; ec_category := rt_subscriber_category |}
  end.

(** [error_code::message]: the category is asked; [library]: what the categories of the
    standard library say. *)
Definition code_message (library : error_code -> string) (c : error_code) : string :=
  match ec_category c with
  | shm_category => shm_message (ec_value c)
  | event_category => event_message (ec_value c)
  | socket_category => socket_message (ec_value c)
  | publish_subscribe_category => ps_message (ec_value c)
  | publisher_category => publisher_message (ec_value c)
  | rt_subscriber_category => rt_subscriber_message (ec_value c)
  | system_category | generic_category => library c
  end.

(** Reading a message back. *)
Definition find_error {E} (all : list E) (value : E -> Z) (message : Z -> string) (s : string) : option E :=
  List.find (fun e => bool_decide (message (value e) = s)) all.

Definition parse_message (c : category) (s : string) : option any_error :=
  match c with
  | shm_category => Shm <$> find_error all_shm_errors shm_error_value shm_message s
  | event_category => Event <$> find_error all_event_errors event_error_value event_message s
  | socket_category => Socket <$> find_error all_socket_errors socket_error_value socket_message s
  | publish_subscribe_category => PublishSubscribe <$> find_error all_ps_errors ps_error_value ps_message s
  | publisher_category => Publisher <$> find_error all_publisher_errors publisher_error_value publisher_message s
  | rt_subscriber_category => Subscriber <$> find_error all_rt_subscriber_errors rt_subscriber_error_value rt_subscriber_message s
  | system_category | generic_category => None
  end.

Lemma find_error_message {E} (all : list E) (value : E -> Z) (message : Z -> string) `{!EnumCodes E all value message} e :
  find_error all value message (message (value e)) = Some e.
Proof.
  unfold find_error. destruct (List.find _ all) as [e'|] eqn:F.
  - apply List.find_some in F as [_ H%bool_decide_eq_true]. f_equal. by apply ec_distinct.
  - pose proof (ec_cast e) as H. unfold enum_cast, zlookup in H. case_match; [|done].
    apply list_elem_of_lookup_2, list_elem_of_In in H. apply (List.find_none _ _ F) in H. by apply bool_decide_eq_false in H.
Qed.

(** A number that is not a constant of the enumeration. *)
Lemma unlisted_message {E} (all : list E) (value : E -> Z) (message : Z -> string) `{!EnumCodes E all value message} ev :
  (forall e, value e <> ev) -> message ev = "unlisted_error".
Proof.
  intros Hev. apply ec_unlisted. intros Hr. destruct (zlookup_is_Some all ev Hr) as [e He]. by apply (Hev e), ec_values.
Qed.

(** C40 Error codes round trip.  The number and category of an error give a message that no
    other error of its category has and that is never the one of unlisted numbers, and
    from the category and the message the error can be read back; in the category of each of
    the six enumerations every number that is not one of its constants gives the
    unlisted message. *)
Theorem error_codes_roundtrip (library : error_code -> string) (a : any_error) :
  parse_message (ec_category (any_code a)) (code_message library (any_code a)) = Some a /\
  code_message library (any_code a) <> "unlisted_error" /\
  (forall b, any_code a = any_code b -> a = b) /\
  forall ev, let c := {| ec_value := ev; ec_category := ec_category (any_code a) |} in
    (forall b, any_code b <> c) -> code_message library c = "unlisted_error".
Proof.
  assert (Hp : forall a, parse_message (ec_category (any_code a)) (code_message library (any_code a)) = Some a).
  { intros [e|e|e|e|e|e]; cbn [any_code ec_category ec_value parse_message code_message];
      match goal with |- _ <$> find_error ?all ?v ?m _ = _ => by rewrite (find_error_message all v m e) end. }
  split; [apply Hp|]. split; [|split].
  - destruct a; cbn [any_code ec_category code_message ec_value]; apply ec_listed.
  - intros b H. apply (inj Some). by rewrite <- (Hp a), <- (Hp b), H.
  - intros ev c Hev. unfold c, code_message. cbn [ec_category ec_value].
    destruct a; cbn [any_code ec_category] in *.
    + apply (unlisted_message all_shm_errors shm_error_value shm_message). intros e' He. apply (Hev (Shm e')). unfold c. cbn. by rewrite He.
    + apply (unlisted_message all_event_errors event_error_value event_message). intros e' He. apply (Hev (Event e')). unfold c. cbn. by rewrite He.
    + apply (unlisted_message all_socket_errors socket_error_value socket_message). intros e' He. apply (Hev (Socket e')). unfold c. cbn. by rewrite He.
    + apply (unlisted_message all_ps_errors ps_error_value ps_message). intros e' He. apply (Hev (PublishSubscribe e')). unfold c. cbn. by rewrite He.
    + apply (unlisted_message all_publisher_errors publisher_error_value publisher_message). intros e' He. apply (Hev (Publisher e')). unfold c. cbn. by rewrite He.
    + apply (unlisted_message all_rt_subscriber_errors rt_subscriber_error_value rt_subscriber_message). intros e' He. apply (Hev (Subscriber e')). unfold c. cbn. by rewrite He.
Qed.
