(* ===== verification/Os.v ===== *)
(** Programs that call the operating system.

    A function of the sources that makes system calls is a tree of calls, each with
    the continuation that receives the reply; it can return or throw.  The operating
    system is not modelled: it is a parameter, any function that answers a call
    given the calls made so far, and a run records the calls with their replies.
    What the theorems say of such a program therefore holds whatever the operating
    system does. *)
From S2P Require Import Prelude.

(** * Calls *)
Inductive lock_kind : Type := F_RDLCK | F_WRLCK | F_UNLCK.

(** The calls of POSIX, and those of the Windows API ([Win_]), of which a program makes
    only one kind.  File descriptors, addresses and sizes are numbers.  Pointers to structures are
    replaced by the fields the sources set. *)
Inductive call : Type :=
| Sys_getpagesize
| Sys_shm_open (path : string) (write create : bool)
| Sys_shm_unlink (path : string)
| Sys_ftruncate (fd size : Z)
| Sys_fstat (fd : Z)
| Sys_close (fd : Z)
| Sys_mmap (addr length : Z) (write fixed shared_file : bool) (fd offset : Z)
| Sys_munmap (addr length : Z)
| Sys_msync (addr length : Z) (sync : bool)
| Sys_open (path : string)
| Sys_fcntl (fd : Z) (wait : bool) (kind : lock_kind)
| Sys_unlink (path : string)
| Sys_socket
| Sys_bind (fd : Z) (path : string)
| Sys_listen (fd backlog : Z)
| Sys_recv_timeout (fd microseconds : Z)
| Sys_get_recv_timeout (fd : Z)
| Sys_accept (fd : Z)
| Sys_connect (fd : Z) (path : string)
| Sys_send (fd : Z) (no_signal : bool) (bytes : list Z)
| Sys_recv (fd size : Z)
| Sys_shutdown (fd : Z)
| Win_CreateFileMapping (size_high size_low : Z) (name : string)
| Win_OpenFileMapping (write : bool) (name : string)
| Win_MapViewOfFile (handle : Z) (write : bool) (offset_high offset_low size : Z) (address : option Z)
| Win_UnmapViewOfFile (address : Z)
| Win_VirtualQuery (address : Z)
| Win_VirtualAlloc (address size : Z)
| Win_VirtualFree (address size : Z)
| Win_CloseHandle (handle : Z)
| Win_CreateMutex (name : string)
| Win_WaitForSingleObject (handle : Z) (wait : bool)
| Win_ReleaseMutex (handle : Z)
| Win_GetLastError.

(** What a call returns: its value, or -1 with [errno].  The value of [recv] also
    carries the received number: 0 at the end of the stream, 1 + [x] when bytes have
    been received after which the variable they are stored in reads [x]. *)
Inductive reply : Type := Rval (v : Z) | Rerr (errno : Z).

(** The value the call returns to the program. *)
Definition rc (r : reply) : Z := match r with Rval v => v | Rerr _ => -1 end.

(** [== -1], [== MAP_FAILED]. *)
Definition failed (r : reply) : bool := match r with Rval _ => false | Rerr _ => true end.

(** * Programs *)
Inductive prog (A : Type) : Type :=
| Ret (a : A)
| Raise (e : exn)
| Sys (c : call) (k : reply -> prog A).
Arguments Ret {A} a.
Arguments Raise {A} e.
Arguments Sys {A} c k.

#[export] Instance prog_ret : MRet prog := fun _ a => Ret a.
#[export] Instance prog_bind : MBind prog := fun A B k =>
  fix bind (p : prog A) : prog B :=
    match p with
    | Ret a => k a
    | Raise e => Raise e
    | Sys c q => Sys c (fun r => bind (q r))
    end.

Definition sys (c : call) : prog reply := Sys c Ret.
(** A call whose result is not looked at. *)
Definition sys_ (c : call) : prog unit := Sys c (fun _ => Ret tt).

(** [p], then [d] whether it returned or threw: the destructor of a local. *)
Fixpoint finally {A} (p : prog A) (d : prog unit) : prog A :=
  match p with
  | Ret a => d ≫= fun _ => Ret a
  | Raise e => d ≫= fun _ => Raise e
  | Sys c q => Sys c (fun r => finally (q r) d)
  end.

(** * Runs *)

(** The calls made so far, the latest last, with their replies. *)
Abbreviation history := (list (call * reply)).

(** An operating system answers a call; what it answers may depend on all that
    happened before. *)
Abbreviation os := (history -> call -> reply).

Inductive result (A : Type) : Type := Returned (a : A) | Threw (e : exn).
Arguments Returned {A} a.
Arguments Threw {A} e.

(** The result of a run that starts after [h], and the calls it makes. *)
Fixpoint prun {A} (w : os) (h : history) (p : prog A) : result A * history :=
  match p with
  | Ret a => (Returned a, [])
  | Raise e => (Threw e, [])
  | Sys c q => let r := w h c in let '(x, t) := prun w (h ++ [(c, r)]) (q r) in (x, (c, r) :: t)
  end.

Lemma prun_sys {A} w h c (q : reply -> prog A) :
  prun w h (Sys c q) = let '(x, t) := prun w (h ++ [(c, w h c)]) (q (w h c)) in (x, (c, w h c) :: t).
Proof. done. Qed.

Lemma prun_fst {A} w h c (q : reply -> prog A) : (prun w h (Sys c q)).1 = (prun w (h ++ [(c, w h c)]) (q (w h c))).1.
Proof. rewrite prun_sys. by destruct (prun _ _ _). Qed.

Lemma prun_bind {A B} w (p : prog A) (k : A -> prog B) : forall h, prun w h (p ≫= k) =
  match prun w h p with
  | (Returned a, t) => let '(y, t') := prun w (h ++ t) (k a) in (y, t ++ t')
  | (Threw e, t) => (Threw e, t)
  end.
Proof.
  induction p as [a|e|c q IH]; intros h.
  - cbn. rewrite app_nil_r. by destruct (prun _ _ _).
  - done.
  - change (Sys c q ≫= k) with (Sys c (fun r => q r ≫= k)). rewrite !prun_sys, IH. destruct (prun w _ (q _)) as [[a|e] t]; [|done].
    rewrite <- app_assoc. cbn. by destruct (prun _ _ (k a)).
Qed.

(** The replies of a run are those of the operating system. *)
Lemma prun_replies {A} w (p : prog A) : forall h, Forall (fun x : call * reply => exists h', x.2 = w h' x.1) (prun w h p).2.
Proof.
  induction p as [a|e|c q IH]; intros h; [constructor..|]. rewrite prun_sys. specialize (IH (w h c) (h ++ [(c, w h c)])).
  destruct (prun _ _ _) as [x t]. constructor; [by exists h|exact IH].
Qed.

(** A specification: whatever the replies, the program ends, and its result and the
    calls it made satisfy [P]. *)
Fixpoint wp {A} (p : prog A) (P : result A -> history -> Prop) : Prop :=
  match p with
  | Ret a => P (Returned a) []
  | Raise e => P (Threw e) []
  | Sys c q => forall r, wp (q r) (fun x t => P x ((c, r) :: t))
  end.

(** Such a specification holds of every run on every operating system. *)
Lemma wp_sound {A} (p : prog A) : forall P w h, wp p P -> P (prun w h p).1 (prun w h p).2.
Proof.
  induction p as [a|e|c q IH]; intros P w h Hp; cbn in *; [done..|].
  specialize (IH (w h c) _ w (h ++ [(c, w h c)]) (Hp (w h c))). by destruct (prun _ _ _).
Qed.

Lemma wp_mono {A} (p : prog A) : forall P Q : result A -> history -> Prop, (forall x t, P x t -> Q x t) -> wp p P -> wp p Q.
Proof.
  induction p as [a|e|c q IH]; intros P Q H Hp; cbn in *; [by apply H..|].
  intros r. apply (IH r (fun x t => P x ((c, r) :: t))); [intros; by apply H|apply Hp].
Qed.

Lemma wp_bind {A B} (p : prog A) (k : A -> prog B) : forall P,
  wp p (fun x t => match x with Returned a => wp (k a) (fun y t' => P y (t ++ t')) | Threw e => P (Threw e) t end) -> wp (p ≫= k) P.
Proof.
  induction p as [a|e|c q IH]; intros P Hp; cbn in *; [done..|].
  intros r. by apply (IH r (fun x t => P x ((c, r) :: t))).
Qed.

Lemma wp_finally {A} (p : prog A) (d : prog unit) : forall P,
  wp p (fun x t => wp d (fun y t' => P (match y with Returned _ => x | Threw e => Threw e end) (t ++ t'))) -> wp (finally p d) P.
Proof.
  induction p as [a|e|c q IH]; intros P Hp; cbn [finally wp] in *.
  - apply wp_bind. eapply wp_mono; [|exact Hp]. intros [[]|e] t Ht; cbn in *; [by rewrite app_nil_r|done].
  - apply wp_bind. eapply wp_mono; [|exact Hp]. intros [[]|e'] t Ht; cbn in *; [by rewrite app_nil_r|done].
  - intros r. apply (IH r (fun x t => P x ((c, r) :: t))), (Hp r).
Qed.

(** A monadic step whose specification is known. *)
Lemma wp_step {A B} (p : prog A) (k : A -> prog B) (Q : result A -> history -> Prop) P :
  wp p Q -> (forall a t, Q (Returned a) t -> wp (k a) (fun y t' => P y (t ++ t'))) -> (forall e t, Q (Threw e) t -> P (Threw e) t) -> wp (p ≫= k) P.
Proof. intros Hp Hr Ht. apply wp_bind. eapply wp_mono; [|exact Hp]. intros [a|e] t; eauto. Qed.

(** Two specifications of the same run. *)
Lemma wp_and {A} (p : prog A) : forall P Q : result A -> history -> Prop, wp p P -> wp p Q -> wp p (fun x t => P x t /\ Q x t).
Proof.
  induction p as [v|e|c q IH]; intros P Q Hp Hq; cbn in *; [done..|].
  intros r. by apply (IH r (fun x t => P x ((c, r) :: t)) (fun x t => Q x ((c, r) :: t))).
Qed.

(** A premise that does not depend on the run. *)
Lemma wp_impl {A} (p : prog A) (H : Prop) : forall P, (H -> wp p P) -> wp p (fun x t => H -> P x t).
Proof. induction p as [a|e|c q IH]; intros P Hp; cbn in *; [done..|]. intros r. apply (IH r (fun x t => P x ((c, r) :: t))). intros HH. by apply Hp. Qed.

(** * Which calls a program can make *)
Fixpoint only {A} (P : call -> Prop) (p : prog A) : Prop :=
  match p with
  | Ret _ | Raise _ => True
  | Sys c q => P c /\ forall r, only P (q r)
  end.

Lemma only_bind {A B} P (p : prog A) (k : A -> prog B) : only P p -> (forall a, only P (k a)) -> only P (p ≫= k).
Proof. intros Hp Hk. induction p as [a|e|c q IH]; cbn in *; [done..|]. destruct Hp as [Hc Hq]. split; [done|]. intros r. by apply IH. Qed.

Lemma only_wp {A} P (p : prog A) : only P p -> wp p (fun _ t => Forall (fun x => P x.1) t).
Proof.
  intros Hp. induction p as [a|e|c q IH]; cbn in *; [constructor..|]. destruct Hp as [Hc Hq]. intros r.
  eapply wp_mono; [|by apply IH]. intros x t Ht. by constructor.
Qed.

(** Discharges [only] along the structure of a program. *)
Ltac only_calls :=
  repeat first
    [ progress cbn [only sys sys_]
    | apply only_bind
    | match goal with
      | |- forall _, _ => intros ?
      | |- _ /\ _ => split
      | |- only _ (match ?x with _ => _ end) => destruct x
      | |- only _ (if ?b then _ else _) => destruct b
      | |- only _ (let '(_, _) := ?x in _) => destruct x
      end ]; try done.

(** * Counting what was done with a resource *)

(** Sum over the calls of a history. *)
Definition tally (f : call -> reply -> Z) (h : history) : Z := zsum (fun x : call * reply => f x.1 x.2) h.

#[global] Arguments tally : simpl never.

Lemma tally_app f h k : tally f (h ++ k) = tally f h + tally f k.
Proof. unfold tally. induction h as [|x h IH]; cbn; [done|]. rewrite IH. lia. Qed.
Lemma tally_cons f c r h : tally f ((c, r) :: h) = f c r + tally f h.
Proof. done. Qed.
Lemma tally_nil f : tally f [] = 0.
Proof. done. Qed.

Definition b2z (b : bool) : Z := if b then 1 else 0.

(** Descriptor [fd]: +1 when a call hands it out, -1 when it is closed. *)
Definition opens (fd : Z) (c : call) (r : reply) : Z :=
  match c with
  | Sys_shm_open _ _ _ | Sys_open _ | Sys_socket | Sys_accept _ => match r with Rval v => b2z (v =? fd) | Rerr _ => 0 end
  | Sys_close fd' => - b2z (fd' =? fd)
  | _ => 0
  end.

(** A region at [addr] of [length] bytes: mapped and unmapped. *)
Definition maps (addr length : Z) (c : call) (r : reply) : Z :=
  match c with
  | Sys_mmap _ l _ _ _ _ _ => match r with Rval v => b2z ((v =? addr) && (l =? length)) | Rerr _ => 0 end
  | Sys_munmap a l => - b2z ((a =? addr) && (l =? length))
  | _ => 0
  end.

(** How often a name is removed. *)
Definition unlinks (path : string) (c : call) (r : reply) : Z :=
  match c with Sys_shm_unlink p => b2z (bool_decide (p = path)) | _ => 0 end.

(** The lock on descriptor [fd] that a successful [fcntl] left. *)
Definition lock_after (fd : Z) (l : lock_kind) (x : call * reply) : lock_kind :=
  match x with (Sys_fcntl fd' _ k, Rval _) => if fd' =? fd then k else l | (Sys_close fd', _) => if fd' =? fd then F_UNLCK else l | _ => l end.

Create Rewrite HintDb ipc_tally.
#[export] Hint Rewrite tally_app tally_cons tally_nil : ipc_tally.
