(* ===== verification/SharedMemory.v ===== *)
(** Shared memory files and their mappings: [shm/shared_memory_file.h],
    [src/shm/shared_memory_file.cpp], [src/shm/linux/shared_memory_file.cpp],
    [shm/mapped_memory.h], [src/shm/mapped_memory.cpp] and
    [src/shm/linux/mapped_memory.cpp].

    The classes own a descriptor and a mapping; moves, destructors and early returns
    are written out, so that the theorems can follow what becomes of them. *)
From S2P Require Import Prelude Numeric Errors Os.

(** What the standard library leaves in a string that has been moved from. *)
Section shared_memory.
Context (moved_from : string -> string).

(** * shared_memory_file *)
(* @source include/ipcpp/shm/shared_memory_file.h 46-51 shared_memory_file *)
Record shared_memory_file : Type := {
  sf_access_mode : access_mode;
  sf_path : string;
  sf_native_handle : Z;
  sf_size : Z;
  sf_was_created : bool
}.

(* @source src/shm/shared_memory_file.cpp 17-18 shared_memory_file::shared_memory_file *)
Definition smf_new (path : string) (size : Z) : shared_memory_file :=
  {| sf_access_mode := READ; sf_path := path; sf_native_handle := 0; sf_size := size; sf_was_created := false |}.

(** The new object and what is left in [other]. *)
(* @source src/shm/shared_memory_file.cpp 21-27 shared_memory_file::shared_memory_file(shared_memory_file) *)
Definition smf_move_construct (other : shared_memory_file) : shared_memory_file * shared_memory_file :=
  ({| sf_access_mode := sf_access_mode other; sf_path := sf_path other; sf_native_handle := sf_native_handle other;
      sf_size := sf_size other; sf_was_created := sf_was_created other |},
   {| sf_access_mode := sf_access_mode other; sf_path := moved_from (sf_path other); sf_native_handle := 0;
      sf_size := 0; sf_was_created := false |}).

(* @source src/shm/linux/shared_memory_file.cpp 34-34 shared_memory_file::unlink *)
Definition smf_unlink (f : shared_memory_file) : prog unit := sys_ (Sys_shm_unlink (sf_path f)).

(** Both members as the destructor and the assignment release them. *)
Definition smf_release (f : shared_memory_file) : prog unit :=
  _ ← (if negb (sf_native_handle f =? 0) then sys_ (Sys_close (sf_native_handle f)) else Ret tt);
  if sf_was_created f then smf_unlink f else Ret tt.

(* @source src/shm/linux/shared_memory_file.cpp 24-31 shared_memory_file::~shared_memory_file *)
Definition smf_destroy (f : shared_memory_file) : prog unit := smf_release f.

(** [same]: the object is assigned to itself.  [this] and [other] afterwards. *)
(* @source src/shm/shared_memory_file.cpp 30-45 shared_memory_file::operator= *)
Definition smf_move_assign (same : bool) (this other : shared_memory_file) : prog (shared_memory_file * shared_memory_file) :=
  if same then Ret (this, other)
  else
    _ ← smf_release this;
    Ret ({| sf_access_mode := sf_access_mode other; sf_path := sf_path other; sf_native_handle := sf_native_handle other;
            sf_size := sf_size other; sf_was_created := sf_was_created other |},
         {| sf_access_mode := sf_access_mode other; sf_path := moved_from (sf_path other); sf_native_handle := sf_native_handle this;
            sf_size := sf_size this; sf_was_created := sf_was_created this |}).

(* @source src/shm/shared_memory_file.cpp 48-48 shared_memory_file::name *)
Definition smf_name (f : shared_memory_file) : string := sf_path f.
(* @source src/shm/shared_memory_file.cpp 51-51 shared_memory_file::size *)
Definition smf_size (f : shared_memory_file) : Z := sf_size f.
(* @source src/shm/shared_memory_file.cpp 54-54 shared_memory_file::access_mode *)
Definition smf_access_mode (f : shared_memory_file) : access_mode := sf_access_mode f.
(* @source src/shm/shared_memory_file.cpp 57-59 shared_memory_file::native_handle *)
Definition smf_native_handle (f : shared_memory_file) : Z := sf_native_handle f.

(** [return self;]: the result is moved out of the local, which is then destroyed. *)
Definition smf_return (self : shared_memory_file) : prog (expected shared_memory_file error_code) :=
  let '(v, self) := smf_move_construct self in
  _ ← smf_destroy self; Ret (Expected v).

Definition smf_fail (self : shared_memory_file) (e : shm_error_t) : prog (expected shared_memory_file error_code) :=
  _ ← smf_destroy self; Ret (Unexpected (shm_code e)).

(* @source src/shm/linux/shared_memory_file.cpp 37-58 shared_memory_file::create *)
Definition smf_create (path : string) (size : Z) : prog (expected shared_memory_file error_code) :=
  page ← sys Sys_getpagesize;
  let size := align_up size (u64 (rc page)) in
  let self := smf_new path size in
  let self := {| sf_access_mode := WRITE; sf_path := sf_path self; sf_native_handle := sf_native_handle self;
                 sf_size := sf_size self; sf_was_created := sf_was_created self |} in
  _ ← sys_ (Sys_shm_unlink (sf_path self));
  fd ← sys (Sys_shm_open (sf_path self) true true);
  if failed fd then smf_fail self creation_error
  else
    t ← sys (Sys_ftruncate (rc fd) (i64 (sf_size self)));
    if failed t then smf_fail self resize_error
    else smf_return {| sf_access_mode := sf_access_mode self; sf_path := sf_path self; sf_native_handle := rc fd;
                       sf_size := sf_size self; sf_was_created := true |}.

(** The reply to [fstat] is [st_size]. *)
(* @source src/shm/linux/shared_memory_file.cpp 61-80 shared_memory_file::open *)
Definition smf_open (path : string) (access_mode : access_mode) : prog (expected shared_memory_file error_code) :=
  fd ← sys (Sys_shm_open path (bool_decide (access_mode = WRITE)) false);
  if failed fd then Ret (Unexpected (shm_code open_error))
  else
    st ← sys (Sys_fstat (rc fd));
    if failed st then Ret (Unexpected (shm_code file_not_found))
    else
      let self := smf_new path (u64 (rc st)) in
      smf_return {| sf_access_mode := access_mode; sf_path := sf_path self; sf_native_handle := rc fd;
                    sf_size := sf_size self; sf_was_created := sf_was_created self |}.

(** * MappedMemory *)
(* @source include/ipcpp/shm/mapped_memory.h 19-19 MappingType *)
Inductive mapping_type : Type := SINGLE | DOUBLE.

(* @source include/ipcpp/shm/mapped_memory.h 50-53 MappedMemory *)
Record mapped_memory : Type := {
  mm_mapped_region : Z;
  mm_size : Z;
  mm_total_size : Z;
  mm_shm_file : shared_memory_file
}.

Definition set_mapped_region (m : mapped_memory) (a : Z) : mapped_memory :=
  {| mm_mapped_region := a; mm_size := mm_size m; mm_total_size := mm_total_size m; mm_shm_file := mm_shm_file m |}.

(** The new object and what is left in [other]; the two specialisations agree. *)
(* @source src/shm/mapped_memory.cpp 27-40 MappedMemory::MappedMemory(MappedMemory) *)
Definition mm_move_construct (other : mapped_memory) : mapped_memory * mapped_memory :=
  let '(f, f') := smf_move_construct (mm_shm_file other) in
  ({| mm_mapped_region := mm_mapped_region other; mm_size := mm_size other; mm_total_size := mm_total_size other; mm_shm_file := f |},
   {| mm_mapped_region := 0; mm_size := 0; mm_total_size := 0; mm_shm_file := f' |}).

(* @source src/shm/mapped_memory.cpp 44-63 MappedMemory::operator= *)
Definition mm_move_assign (same : bool) (this other : mapped_memory) : prog (mapped_memory * mapped_memory) :=
  '(f, f') ← smf_move_assign same (mm_shm_file this) (mm_shm_file other);
  if same then Ret (this, other)
  else
    Ret ({| mm_mapped_region := mm_mapped_region other; mm_size := mm_size other; mm_total_size := mm_total_size other; mm_shm_file := f |},
         {| mm_mapped_region := mm_mapped_region this; mm_size := mm_size this; mm_total_size := mm_total_size this; mm_shm_file := f' |}).

(* @source src/shm/linux/mapped_memory.cpp 51-60 MappedMemory::msync *)
Definition mm_msync (m : mapped_memory) (sync : bool) : prog unit := sys_ (Sys_msync (mm_mapped_region m) (mm_total_size m) sync).

(** The destructors of the two specialisations, then the one of the file. *)
(* @source src/shm/linux/mapped_memory.cpp 64-87 MappedMemory::~MappedMemory *)
Definition mm_destroy (mt : mapping_type) (m : mapped_memory) : prog unit :=
  _ ← (if negb (mm_mapped_region m =? 0) then
         _ ← mm_msync m true;
         match mt with
         | SINGLE => sys_ (Sys_munmap (mm_mapped_region m) (mm_total_size m))
         | DOUBLE =>
           _ ← sys_ (Sys_munmap (mm_mapped_region m) (mm_size m));
           _ ← sys_ (Sys_munmap (u64 (mm_mapped_region m + mm_size m)) (mm_size m));
           sys_ (Sys_munmap (mm_mapped_region m) (mm_total_size m))
         end
       else Ret tt);
  smf_destroy (mm_shm_file m).

(* @source src/shm/mapped_memory.cpp 67-76 MappedMemory::size *)
Definition mm_get_size (m : mapped_memory) : Z := mm_size m.
(* @source src/shm/mapped_memory.cpp 214-223 MappedMemory::addr *)
Definition mm_addr (m : mapped_memory) : Z := mm_mapped_region m.
(* @source src/shm/mapped_memory.cpp 197-210 MappedMemory::release *)
Definition mm_release (m : mapped_memory) : mapped_memory :=
  {| mm_mapped_region := 0; mm_size := 0; mm_total_size := 0; mm_shm_file := mm_shm_file m |}.

(* @source src/shm/linux/mapped_memory.cpp 21-46 _map_memory *)
Definition map_memory (expected_size start_addr file_handle offset : Z) (access_mode : access_mode) : prog (expected Z error_code) :=
  r ← sys (Sys_mmap start_addr expected_size (bool_decide (access_mode = WRITE)) (negb (start_addr =? 0))
             (negb (file_handle =? 0)) file_handle offset);
  if failed r then Ret (Unexpected (shm_code mapping_error))
  else if negb (start_addr =? 0) && negb (start_addr =? rc r) then Ret (Unexpected (shm_code mapped_at_wrong_address))
  else Ret (Expected (rc r)).

(** [return self;] and the returns of an error: the local is destroyed last. *)
Definition mm_return (mt : mapping_type) (self : mapped_memory) : prog (expected mapped_memory error_code) :=
  let '(v, self) := mm_move_construct self in
  _ ← mm_destroy mt self; Ret (Expected v).
Definition mm_fail (mt : mapping_type) (self : mapped_memory) (e : error_code) : prog (expected mapped_memory error_code) :=
  _ ← mm_destroy mt self; Ret (Unexpected e).

(** The object a file has been moved into. *)
Definition mm_new (mt : mapping_type) (f : shared_memory_file) : mapped_memory :=
  {| mm_mapped_region := 0; mm_size := sf_size f;
     mm_total_size := match mt with SINGLE => sf_size f | DOUBLE => u64 (sf_size f + sf_size f) end; mm_shm_file := f |}.

(** The guard of both [open]s: a file opened for reading is not mapped for writing. *)
Definition refuses (shm_file : shared_memory_file) (access_mode : access_mode) : bool :=
  bool_decide (sf_access_mode shm_file = READ) && bool_decide (access_mode = WRITE).

(** The result and what is left in [shm_file]. *)
(* @source src/shm/mapped_memory.cpp 80-97 MappedMemory<SINGLE>::open(shared_memory_file) *)
Definition mm_open_file_single (shm_file : shared_memory_file) (access_mode : access_mode)
    : prog (expected mapped_memory error_code * shared_memory_file) :=
  if refuses shm_file access_mode then Ret (Unexpected (shm_code access_error), shm_file)
  else
    let '(f, shm_file) := smf_move_construct shm_file in
    let self := mm_new SINGLE f in
    result ← map_memory (mm_size self) 0 (sf_native_handle (mm_shm_file self)) 0 access_mode;
    r ← match result with
        | Expected a => mm_return SINGLE (set_mapped_region self a)
        | Unexpected e => mm_fail SINGLE self e
        end;
    Ret (r, shm_file).

(* @source src/shm/mapped_memory.cpp 113-139 MappedMemory<DOUBLE>::open(shared_memory_file) *)
Definition mm_open_file_double (shm_file : shared_memory_file) (access_mode : access_mode)
    : prog (expected mapped_memory error_code * shared_memory_file) :=
  if refuses shm_file access_mode then Ret (Unexpected (shm_code access_error), shm_file)
  else
    let '(f, shm_file) := smf_move_construct shm_file in
    let self := mm_new DOUBLE f in
    double_mapping ← map_memory (mm_total_size self) 0 0 0 WRITE;
    r ← match double_mapping with
        | Unexpected e => mm_fail DOUBLE self e
        | Expected a =>
          let self := set_mapped_region self a in
          first_mapping ← map_memory (mm_size self) (mm_mapped_region self) (sf_native_handle (mm_shm_file self)) 0 access_mode;
          match first_mapping with
          | Unexpected e => mm_fail DOUBLE self e
          | Expected _ =>
            second_mapping ← map_memory (mm_size self) (u64 (mm_mapped_region self + mm_size self)) (sf_native_handle (mm_shm_file self)) 0 access_mode;
            match second_mapping with
            | Unexpected e => mm_fail DOUBLE self e
            | Expected _ => mm_return DOUBLE self
            end
          end
        end;
    Ret (r, shm_file).

(** The local [shm_result] is destroyed after the result has been made from it. *)
Definition mm_with_file (open : shared_memory_file -> prog (expected mapped_memory error_code * shared_memory_file))
    (shm_result : expected shared_memory_file error_code) : prog (expected mapped_memory error_code) :=
  match shm_result with
  | Unexpected e => Ret (Unexpected e)
  | Expected f => '(r, f) ← open f; _ ← smf_destroy f; Ret r
  end.

(** The second argument of the overload for files is left at its default. *)
(* @source src/shm/mapped_memory.cpp 100-110 MappedMemory<SINGLE>::open *)
Definition mm_open_single (shm_id : string) (access_mode : access_mode) : prog (expected mapped_memory error_code) :=
  shm_result ← smf_open shm_id access_mode;
  mm_with_file (fun f => mm_open_file_single f WRITE) shm_result.

(* @source src/shm/mapped_memory.cpp 142-152 MappedMemory<DOUBLE>::open *)
Definition mm_open_double (shm_id : string) (access_mode : access_mode) : prog (expected mapped_memory error_code) :=
  shm_result ← smf_open shm_id access_mode;
  mm_with_file (fun f => mm_open_file_double f access_mode) shm_result.

(* @source src/shm/mapped_memory.cpp 156-165 MappedMemory<SINGLE>::create *)
Definition mm_create_single (shm_id : string) (min_size : Z) : prog (expected mapped_memory error_code) :=
  shm_result ← smf_create shm_id min_size;
  mm_with_file (fun f => mm_open_file_single f WRITE) shm_result.

(* @source src/shm/mapped_memory.cpp 168-173 MappedMemory<SINGLE>::create(shared_memory_file) *)
Definition mm_create_file_single (shm_file : shared_memory_file) : prog (expected mapped_memory error_code * shared_memory_file) :=
  mm_open_file_single shm_file WRITE.

(* @source src/shm/mapped_memory.cpp 176-185 MappedMemory<DOUBLE>::create *)
Definition mm_create_double (shm_id : string) (min_size : Z) : prog (expected mapped_memory error_code) :=
  shm_result ← smf_create shm_id min_size;
  mm_with_file (fun f => mm_open_file_double f WRITE) shm_result.

(* @source src/shm/mapped_memory.cpp 188-193 MappedMemory<DOUBLE>::create(shared_memory_file) *)
Definition mm_create_file_double (shm_file : shared_memory_file) : prog (expected mapped_memory error_code * shared_memory_file) :=
  mm_open_file_double shm_file WRITE.

(** * What the objects own *)

(** The descriptor an object closes when it is destroyed; descriptor 0 stands for none. *)
Definition holds_fd (f : shared_memory_file) (fd : Z) : Z := b2z (negb (sf_native_handle f =? 0) && (sf_native_handle f =? fd)).

(** The regions an object unmaps when it is destroyed. *)
Definition holds_region (mt : mapping_type) (m : mapped_memory) (a l : Z) : Z :=
  if mm_mapped_region m =? 0 then 0
  else match mt with
       | SINGLE => b2z ((mm_mapped_region m =? a) && (mm_total_size m =? l))
       | DOUBLE => b2z ((mm_mapped_region m =? a) && (mm_size m =? l)) +
                   b2z ((u64 (mm_mapped_region m + mm_size m) =? a) && (mm_size m =? l)) +
                   b2z ((mm_mapped_region m =? a) && (mm_total_size m =? l))
       end.

Definition no_regions (t : history) : Prop := forall a l, tally (maps a l) t = 0.

Ltac tally_simpl := cbn [b2z opens maps failed rc fst snd]; autorewrite with ipc_tally; cbn [b2z opens maps].

(** Which names an object removes when it is destroyed. *)
Definition holds_name (f : shared_memory_file) (path : string) : Z := b2z (sf_was_created f && bool_decide (sf_path f = path)).

Lemma smf_release_ok f : wp (smf_release f) (fun x t => x = Returned tt /\ (forall fd, tally (opens fd) t = - holds_fd f fd) /\ no_regions t /\
  forall path, tally (unlinks path) t = holds_name f path).
Proof.
  unfold smf_release, holds_fd, holds_name, no_regions. destruct (sf_native_handle f =? 0), (sf_was_created f); cbn;
    intros; (split; [done|]); (split; [|split]); intros; unfold tally; cbn; lia.
Qed.

Lemma smf_destroy_ok f : wp (smf_destroy f) (fun x t => x = Returned tt /\ (forall fd, tally (opens fd) t = - holds_fd f fd) /\ no_regions t).
Proof. eapply wp_mono; [|apply smf_release_ok]. naive_solver. Qed.

Lemma smf_moved f : holds_fd (smf_move_construct f).1 = holds_fd f /\ forall fd, holds_fd (smf_move_construct f).2 fd = 0.
Proof. done. Qed.

Lemma smf_return_ok f : wp (smf_return f) (fun x t => x = Returned (Expected (smf_move_construct f).1) /\ t = []).
Proof. done. Qed.

Lemma smf_create_ok path size : wp (smf_create path size) (fun x t => no_regions t /\
  match x with
  | Returned (Expected f) => sf_access_mode f = WRITE /\ sf_was_created f = true /\ sf_path f = path /\
      forall fd, fd <> 0 -> tally (opens fd) t = holds_fd f fd
  | Returned (Unexpected e) =>
      e = shm_code creation_error /\ (forall fd, tally (opens fd) t = 0) \/
      e = shm_code resize_error /\ exists v, forall fd, tally (opens fd) t = b2z (v =? fd)
  | Threw _ => False
  end).
Proof.
  cbn. intros pg u [v|e]; cbn.
  - intros [v'|e']; cbn; (split; [intros a l; unfold tally; cbn; lia|]).
    + do 3 (split; [done|]). intros fd Hfd. unfold tally, holds_fd. cbn. gcase; cbn; lia.
    + right. split; [done|]. exists v. intros fd. unfold tally. cbn. lia.
  - split; [intros a l; unfold tally; cbn; lia|]. left. split; [done|]. intros fd. done.
Qed.

Lemma smf_open_ok path am : wp (smf_open path am) (fun x t => no_regions t /\
  match x with
  | Returned (Expected f) => sf_access_mode f = am /\ sf_was_created f = false /\ sf_path f = path /\
      forall fd, fd <> 0 -> tally (opens fd) t = holds_fd f fd
  | Returned (Unexpected e) =>
      e = shm_code open_error /\ (forall fd, tally (opens fd) t = 0) \/
      e = shm_code file_not_found /\ exists v, forall fd, tally (opens fd) t = b2z (v =? fd)
  | Threw _ => False
  end).
Proof.
  cbn. intros [v|e]; cbn.
  - intros [v'|e']; cbn; (split; [intros a l; unfold tally; cbn; lia|]).
    + do 3 (split; [done|]). intros fd Hfd. unfold tally, holds_fd. cbn. gcase; cbn; lia.
    + right. split; [done|]. exists v. intros fd. unfold tally. cbn. lia.
  - split; [intros a l; unfold tally; cbn; lia|]. left. split; [done|]. intros fd. done.
Qed.

Lemma mm_destroy_ok mt m : wp (mm_destroy mt m) (fun x t => x = Returned tt /\ (forall fd, tally (opens fd) t = - holds_fd (mm_shm_file m) fd) /\
  forall a l, tally (maps a l) t = - holds_region mt m a l).
Proof.
  unfold mm_destroy. apply (wp_step _ _ (fun x t => x = Returned tt /\ (forall fd, tally (opens fd) t = 0) /\
    forall a l, tally (maps a l) t = - holds_region mt m a l)).
  - unfold holds_region. destruct (mm_mapped_region m =? 0); cbn; [done|]. intros r0.
    destruct mt; cbn; intros; (split; [done|]); split; intros; unfold tally; cbn; lia.
  - intros [] t (_ & H1 & H2). eapply wp_mono; [|apply smf_destroy_ok]. intros x t' (-> & H3 & H4).
    split; [done|]. split; intros; rewrite tally_app; [rewrite H1, H3; lia|rewrite H2, H4; lia].
  - intros e t (H & _). discriminate H.
Qed.

Lemma mm_moved mt m : holds_fd (mm_shm_file (mm_move_construct m).1) = holds_fd (mm_shm_file m) /\
  holds_region mt (mm_move_construct m).1 = holds_region mt m.
Proof. done. Qed.

(** Moving the local into the result and destroying it makes no call. *)
Lemma mm_return_ok mt m : wp (mm_return mt m) (fun x t => x = Returned (Expected (mm_move_construct m).1) /\ t = []).
Proof. destruct mt; done. Qed.

Lemma mm_fail_ok mt m e : wp (mm_fail mt m e) (fun x t => x = Returned (Unexpected e) /\
  (forall fd, tally (opens fd) t = - holds_fd (mm_shm_file m) fd) /\ forall a l, tally (maps a l) t = - holds_region mt m a l).
Proof.
  unfold mm_fail. apply (wp_step _ _ _ _ (mm_destroy_ok mt m)); [|intros e' t [? _]; done].
  intros [] t (_ & H1 & H2). cbn. rewrite app_nil_r. done.
Qed.

(** One mapping: at the address asked for, or anywhere when none is asked for. *)
Lemma map_memory_ok size start fd off am : wp (map_memory size start fd off am) (fun x t => (forall d, tally (opens d) t = 0) /\
  match x with
  | Returned (Expected v) => (start = 0 \/ v = start) /\ forall a l, tally (maps a l) t = b2z ((v =? a) && (size =? l))
  | Returned (Unexpected e) => e = shm_code mapping_error /\ no_regions t \/ e = shm_code mapped_at_wrong_address /\ start <> 0
  | Threw _ => False
  end).
Proof.
  unfold map_memory. cbn. intros [v|e]; cbn; [|split; [done|left; split; [done|intros a l; done]]].
  destruct (Z.eqb_spec start 0) as [->|Hs]; cbn.
  - split; [done|]. split; [by left|]. intros a l. unfold tally. cbn. lia.
  - destruct (Z.eqb_spec start v) as [->|Hv]; cbn; (split; [done|]).
    + split; [by right|]. intros a l. unfold tally. cbn. lia.
    + right. done.
Qed.

(** What POSIX says of [mmap]: a mapping is not at address 0, not empty and ends inside the
    address space. *)
Definition posix_mmap (x : call * reply) : Prop :=
  match x with
  | (Sys_mmap _ l _ _ _ _ _, Rval v) => 0 < v /\ 0 < l /\ v + l < 2 ^ 64
  | _ => True
  end.

Lemma map_memory_posix size start fd off am : wp (map_memory size start fd off am) (fun x t => Forall posix_mmap t ->
  match x with Returned (Expected v) => 0 < v /\ 0 < size /\ v + size < 2 ^ 64 | _ => True end).
Proof.
  unfold map_memory. cbn. intros [v|e]; cbn; [|done].
  destruct (Z.eqb_spec start 0), (Z.eqb_spec start v); cbn; by intros [? _]%Forall_cons.
Qed.

(** What a call that makes an object out of a file leaves behind: the descriptor of
    the file moves on into the result or is closed, and so do the regions. *)
Definition mapped_result (mt : mapping_type) (f : shared_memory_file) (t : history) (r : expected mapped_memory error_code) (f' : shared_memory_file) : Prop :=
  match r with
  | Expected m => (forall fd, tally (opens fd) t = holds_fd (mm_shm_file m) fd + holds_fd f' fd - holds_fd f fd) /\
      (Forall posix_mmap t -> mm_mapped_region m <> 0 /\ forall a l, tally (maps a l) t = holds_region mt m a l)
  | Unexpected e => (forall fd, tally (opens fd) t = holds_fd f' fd - holds_fd f fd) /\
      (Forall posix_mmap t -> e = shm_code mapped_at_wrong_address \/ forall a l, tally (maps a l) t <= 0)
  end.

Lemma mm_open_file_single_ok f am : wp (mm_open_file_single f am) (fun x t =>
  match x with Returned (r, f') => mapped_result SINGLE f t r f' | Threw _ => False end).
Proof.
  unfold mm_open_file_single. destruct (refuses f am); cbn -[map_memory mm_return mm_fail].
  { split; [intros; unfold tally; cbn; lia|right; intros; unfold tally; cbn; lia]. }
  apply (wp_step _ _ _ _ (wp_and _ _ _ (map_memory_ok _ _ _ _ _) (map_memory_posix _ _ _ _ _))); [|intros e t [[_ ?] _]; done].
  intros [v|e] t [[Hfd Ht] Hpos].
  - apply (wp_step _ _ _ _ (mm_return_ok _ _)); [|intros e t' [? _]; done]. intros r t' [[= ->] ->]. cbn. rewrite !app_nil_r.
    destruct Ht as [_ Ht]. split.
    + intros fd. rewrite Hfd. unfold holds_fd. cbn. lia.
    + intros Hr%Hpos. split; [lia|]. intros a l. rewrite Ht. unfold holds_region. cbn in *. by rewrite (proj2 (Z.eqb_neq v 0)) by lia.
  - apply (wp_step _ _ _ _ (mm_fail_ok _ _ _)); [|intros e' t' [? _]; done]. intros r t' ([= ->] & H1 & H2). cbn. rewrite !app_nil_r. split.
    + intros fd. rewrite tally_app, Hfd, H1. unfold holds_fd. cbn. lia.
    + intros _. destruct Ht as [[_ Ht]|[-> _]]; [|by left]. right. intros a l. rewrite tally_app, Ht, H2. done.
Qed.

(** The object after a failure, [m], is destroyed; [t] are the calls before. *)
Lemma double_fail f' (m : mapped_memory) e (t : history) f :
  (forall fd, tally (opens fd) t = 0) -> holds_fd (mm_shm_file m) = holds_fd f -> (forall fd, holds_fd f' fd = 0) ->
  (Forall posix_mmap t -> e = shm_code mapped_at_wrong_address \/ forall a l, tally (maps a l) t <= holds_region DOUBLE m a l) ->
  wp (mm_fail DOUBLE m e) (fun x t' => match x with Returned r => mapped_result DOUBLE f (t ++ t') r f' | Threw _ => False end).
Proof.
  intros Hfd Hf Hf' Hm. eapply wp_mono; [|apply mm_fail_ok]. intros x t' (-> & H1 & H2). split.
  - intros fd. rewrite tally_app, Hfd, H1, Hf, Hf'. lia.
  - intros [Hp _]%Forall_app. destruct (Hm Hp) as [|Hm']; [by left|]. right. intros a l. rewrite tally_app, H2. specialize (Hm' a l). lia.
Qed.

Lemma b2z_range b : 0 <= b2z b <= 1.
Proof. destruct b; cbn; lia. Qed.

(** The regions of an object whose mapping is at [r]. *)
Lemma holds_region_double m a l : mm_mapped_region m <> 0 -> 0 <= mm_mapped_region m + mm_size m < 2 ^ 64 ->
  holds_region DOUBLE m a l = b2z ((mm_mapped_region m =? a) && (mm_size m =? l)) +
    b2z ((mm_mapped_region m + mm_size m =? a) && (mm_size m =? l)) + b2z ((mm_mapped_region m =? a) && (mm_total_size m =? l)).
Proof. intros Hr Hb. unfold holds_region. rewrite (proj2 (Z.eqb_neq _ _) Hr), u64_small by lia. done. Qed.

Lemma holds_region_ge m a l : mm_mapped_region m <> 0 -> b2z ((mm_mapped_region m =? a) && (mm_total_size m =? l)) <= holds_region DOUBLE m a l /\
  b2z ((mm_mapped_region m =? a) && (mm_size m =? l)) + b2z ((mm_mapped_region m =? a) && (mm_total_size m =? l)) <= holds_region DOUBLE m a l.
Proof.
  intros Hr. unfold holds_region. rewrite (proj2 (Z.eqb_neq _ _) Hr).
  pose proof (b2z_range ((mm_mapped_region m =? a) && (mm_size m =? l))).
  pose proof (b2z_range ((u64 (mm_mapped_region m + mm_size m) =? a) && (mm_size m =? l))). lia.
Qed.

(** The file a program hands back along with its result. *)
Lemma wp_returns mt f f' (t : history) p :
  wp p (fun x t' => match x with Returned r => mapped_result mt f (t ++ t') r f' | Threw _ => False end) ->
  wp p (fun x t' => match x with
    | Returned a => wp (Ret (a, f')) (fun y t'' => match y with Returned (r, g) => mapped_result mt f (t ++ t' ++ t'') r g | Threw _ => False end)
    | Threw _ => False end).
Proof. apply wp_mono. intros [r|e] t'; [|done]. cbn. by rewrite app_nil_r. Qed.

Lemma mm_open_file_double_ok f am : wp (mm_open_file_double f am) (fun x t =>
  match x with Returned (r, f') => mapped_result DOUBLE f t r f' | Threw _ => False end).
Proof.
  unfold mm_open_file_double. destruct (refuses f am); cbn -[map_memory mm_return mm_fail].
  { split; [intros; unfold tally; cbn; lia|right; intros; unfold tally; cbn; lia]. }
  set (f' := {| sf_native_handle := 0 |}). set (m0 := mm_new DOUBLE _).
  pose proof (fun s v d o a => wp_and _ _ _ (map_memory_ok s v d o a) (map_memory_posix s v d o a)) as Hmap.
  apply (wp_step _ _ _ _ (Hmap _ _ _ _ _)); [|intros e t [[_ ?] _]; done].
  intros d t [[Hfd Ht] Hpos]. apply wp_bind.
  apply wp_returns. destruct d as [r|e].
  2: { apply double_fail; [done..|]. intros _. destruct Ht as [[_ Ht]|[-> _]]; [right|by left]. intros a l. by rewrite Ht. }
  destruct Ht as [_ Ht]. apply (wp_step _ _ _ _ (Hmap _ _ _ _ _)); [|intros e t1 [[_ ?] _]; done].
  intros d1 t1 [[Hfd1 Ht1] Hpos1]. set (m := set_mapped_region m0 r) in *. change (mm_mapped_region m) with r in *.
  assert (forall t2, (forall fd, tally (opens fd) t2 = 0) -> forall fd, tally (opens fd) (t ++ t1 ++ t2) = 0) as Hfds.
  { intros t2 Ht2 fd. rewrite !tally_app, Hfd, Hfd1, Ht2. lia. }
  assert (Forall posix_mmap (t ++ t1) -> r <> 0) as Hr0 by (intros [Hp _]%Forall_app; specialize (Hpos Hp); lia).
  destruct d1 as [r1|e].
  2: { eapply wp_mono; [|apply (double_fail f' m e (t ++ t1) f); [|done|done|]].
       - intros [x|x] t'; [|done]. by rewrite <- app_assoc.
       - intros fd. rewrite tally_app, Hfd, Hfd1. lia.
       - intros Hp. destruct Ht1 as [[_ Ht1]|[-> _]]; [right|by left]. intros a l. rewrite tally_app, Ht, Ht1.
         destruct (holds_region_ge m a l (Hr0 Hp)) as [H1 _]. rewrite Z.add_0_r. exact H1. }
  apply (wp_step _ _ _ _ (Hmap _ _ _ _ _)); [|intros e t2 [[_ ?] _]; done]. intros d2 t2 [[Hfd2 Ht2] Hpos2].
  destruct Ht1 as [Hr1 Ht1]. destruct d2 as [r2|e].
  2: { eapply wp_mono; [|apply (double_fail f' m e (t ++ t1 ++ t2) f); [|done|done|]].
       - intros [x|x] t'; [|done]. by rewrite <- !app_assoc.
       - by apply Hfds.
       - intros Hp. rewrite app_assoc in Hp. apply Forall_app in Hp as [Hp Hp2].
         destruct Ht2 as [[_ Ht2]|[-> _]]; [right|by left]. intros a l. rewrite !tally_app, Ht, Ht1, Ht2.
         destruct (holds_region_ge m a l (Hr0 Hp)) as [_ H1]. destruct Hr1 as [Hr1| ->]; [by destruct (Hr0 Hp)|].
         change (mm_mapped_region m) with r in H1. change (mm_size m) with (sf_size f) in H1.
         change (mm_total_size m) with (u64 (sf_size f + sf_size f)) in H1. lia. }
  eapply wp_mono; [|apply mm_return_ok]. intros x t' [-> ->]. rewrite app_nil_r. split.
  - intros fd. rewrite (Hfds t2 Hfd2). unfold holds_fd. cbn. lia.
  - intros Hp. pose proof Hp as Hp'. rewrite app_assoc in Hp'. apply Forall_app in Hp' as [Hp' Hp2]. specialize (Hr0 Hp').
    apply Forall_app in Hp' as [Hpt Hpt1]. specialize (Hpos Hpt). specialize (Hpos1 Hpt1). split; [exact Hr0|]. intros a l.
    change (mm_move_construct m).1 with m. destruct Hr1 as [Hr1| ->]; [done|].
    rewrite holds_region_double by (change (mm_mapped_region m) with r; change (mm_size m) with (sf_size f); lia).
    change (mm_mapped_region m) with r. change (mm_size m) with (sf_size f).
    change (mm_total_size m) with (u64 (sf_size f + sf_size f)). destruct Ht2 as [Hr2 Ht2].
    change (mm_mapped_region m) with r in Hr2. change (mm_size m) with (sf_size f) in Hr2.
    rewrite u64_small in Hr2 by lia. destruct Hr2 as [Hr2| ->]; [lia|]. rewrite !tally_app, Ht, Ht1, Ht2.
    change (mm_total_size m0) with (u64 (sf_size f + sf_size f)). change (mm_size m0) with (sf_size f). change (mm_size m) with (sf_size f). lia.
Qed.

(** The file a mapping was not made from holds nothing; it is destroyed. *)
Lemma mm_with_file_ok mt open f :
  wp (open f) (fun x t => match x with Returned (r, f') => mapped_result mt f t r f' | Threw _ => False end) ->
  wp (mm_with_file open (Expected f)) (fun x t => match x with
    | Returned r => mapped_result mt f t r (smf_new EmptyString 0)
    | Threw _ => False end).
Proof.
  intros Ho. cbn [mm_with_file]. apply (wp_step _ _ _ _ Ho); [|done]. intros [r f'] t Hr.
  apply (wp_step _ _ _ _ (smf_destroy_ok f')); [|intros e t' [? _]; done]. intros [] t' (_ & Hd & Hm). cbn. rewrite app_nil_r.
  destruct r as [m|e]; cbn in *; destruct Hr as [H1 H2].
  - split; [intros fd; rewrite tally_app, H1, Hd; unfold holds_fd; cbn; lia|].
    intros [Hp _]%Forall_app. destruct (H2 Hp) as [H3 H4]. split; [done|]. intros a l. rewrite tally_app, H4, Hm. lia.
  - split; [intros fd; rewrite tally_app, H1, Hd; unfold holds_fd; cbn; lia|].
    intros [Hp _]%Forall_app. destruct (H2 Hp) as [|H3]; [by left|right]. intros a l. rewrite tally_app, Hm. specialize (H3 a l). lia.
Qed.

(** What becomes of descriptors and regions when an object is made from a name. *)
Definition accounts (mt : mapping_type) (x : result (expected mapped_memory error_code)) (t : history) : Prop :=
  match x with
  | Returned (Expected m) => (forall fd, fd <> 0 -> tally (opens fd) t = holds_fd (mm_shm_file m) fd) /\
      (Forall posix_mmap t -> mm_mapped_region m <> 0 /\ forall a l, tally (maps a l) t = holds_region mt m a l)
  | Returned (Unexpected e) =>
      ((forall fd, fd <> 0 -> tally (opens fd) t = 0) \/
       (e = shm_code resize_error \/ e = shm_code file_not_found) /\ exists v, forall fd, tally (opens fd) t = b2z (v =? fd)) /\
      (Forall posix_mmap t -> e = shm_code mapped_at_wrong_address \/ forall a l, tally (maps a l) t <= 0)
  | Threw _ => False
  end.

Lemma with_file_accounts mt open (file : prog (expected shared_memory_file error_code)) :
  (forall f, wp (open f) (fun x t => match x with Returned (r, f') => mapped_result mt f t r f' | Threw _ => False end)) ->
  wp file (fun x t => no_regions t /\ match x with
    | Returned (Expected f) => forall fd, fd <> 0 -> tally (opens fd) t = holds_fd f fd
    | Returned (Unexpected e) => (forall fd, tally (opens fd) t = 0) \/
        (e = shm_code resize_error \/ e = shm_code file_not_found) /\ exists v, forall fd, tally (opens fd) t = b2z (v =? fd)
    | Threw _ => False
    end) ->
  wp (shm_result ← file; mm_with_file open shm_result) (accounts mt).
Proof.
  intros Ho Hf. apply (wp_step _ _ _ _ Hf); [|intros e t [_ ?]; done]. intros [f|e] t [Hm Hr].
  - eapply wp_mono; [|apply (mm_with_file_ok mt), Ho]. intros [[m|e]|e] t' H'; [| |done]; cbn in *; destruct H' as [H1 H2].
    + split; [intros fd Hfd; rewrite tally_app, H1, Hr by done; change (holds_fd (smf_new EmptyString 0) fd) with 0; lia|].
      intros [_ Hp]%Forall_app. destruct (H2 Hp) as [H3 H4]. split; [done|]. intros a l. rewrite tally_app, Hm, H4. lia.
    + split; [left; intros fd Hfd; rewrite tally_app, H1, Hr by done; change (holds_fd (smf_new EmptyString 0) fd) with 0; lia|].
      intros [_ Hp]%Forall_app. destruct (H2 Hp) as [|H3]; [by left|right]. intros a l. rewrite tally_app, Hm. specialize (H3 a l). lia.
  - cbn. rewrite app_nil_r. split; [destruct Hr as [Hr|Hr]; [left; intros; apply Hr|by right]|]. intros _. right. intros a l. by rewrite Hm.
Qed.

(** Making an object from a name, for both kinds of mapping. *)
Definition mm_open (mt : mapping_type) : string -> access_mode -> prog (expected mapped_memory error_code) :=
  match mt with SINGLE => mm_open_single | DOUBLE => mm_open_double end.
Definition mm_create (mt : mapping_type) : string -> Z -> prog (expected mapped_memory error_code) :=
  match mt with SINGLE => mm_create_single | DOUBLE => mm_create_double end.

Lemma mm_open_ok mt shm_id am : wp (mm_open mt shm_id am) (accounts mt).
Proof.
  destruct mt; apply with_file_accounts; intros; try apply mm_open_file_single_ok; try apply mm_open_file_double_ok;
    (eapply wp_mono; [|apply smf_open_ok]); intros [[f|e]|e] t [H1 H2]; (split; [done|]); naive_solver.
Qed.
Lemma mm_create_ok mt shm_id size : wp (mm_create mt shm_id size) (accounts mt).
Proof.
  destruct mt; apply with_file_accounts; intros; try apply mm_open_file_single_ok; try apply mm_open_file_double_ok;
    (eapply wp_mono; [|apply smf_create_ok]); intros [[f|e]|e] t [H1 H2]; (split; [done|]); naive_solver.
Qed.

(** C13 Mapped memory gives back what it takes.  Whatever the operating system answers,
    [open] and [create] return (they never throw); an object they return holds exactly
    one descriptor and, where [mmap] keeps to POSIX, exactly its mapped regions, and
    destroying it closes that descriptor and unmaps those regions; on failure no region
    stays mapped (unless a fixed mapping was put elsewhere) and no descriptor stays
    open, except that a failed [ftruncate] or [fstat] always leaks the descriptor
    just opened.  (Descriptor 0 is never closed: the code takes 0 for no descriptor.) *)
Theorem mapped_memory_accounting (mt : mapping_type) (shm_id : string) (am : access_mode) (size : Z) (w : os) (h : history)
    (p : prog (expected mapped_memory error_code)) :
  p = mm_open mt shm_id am \/ p = mm_create mt shm_id size ->
  accounts mt (prun w h p).1 (prun w h p).2 /\
  (forall m t, prun w h p = (Returned (Expected m), t) ->
     let d := prun w (h ++ t) (mm_destroy mt m) in
     d.1 = Returned tt /\ (forall fd, fd <> 0 -> tally (opens fd) (t ++ d.2) = 0) /\
     (Forall posix_mmap t -> forall a l, tally (maps a l) (t ++ d.2) = 0)) /\
  (forall e t, prun w h (smf_create shm_id size) = (Returned (Unexpected e), t) -> e = shm_code resize_error ->
     exists v, forall fd, tally (opens fd) t = b2z (v =? fd)) /\
  (forall e t, prun w h (smf_open shm_id am) = (Returned (Unexpected e), t) -> e = shm_code file_not_found ->
     exists v, forall fd, tally (opens fd) t = b2z (v =? fd)).
Proof.
  intros Hp. assert (accounts mt (prun w h p).1 (prun w h p).2) as Ha.
  { apply (wp_sound p (accounts mt)). destruct Hp as [->| ->]; [apply mm_open_ok|apply mm_create_ok]. }
  split; [exact Ha|]. split; [|split].
  - intros m t Ht. rewrite Ht in Ha. cbn in Ha. destruct Ha as [H1 H2].
    pose proof (wp_sound (mm_destroy mt m) _ w (h ++ t) (mm_destroy_ok mt m)) as Hd. cbn beta in Hd.
    intros d. fold d in Hd. destruct Hd as (H3 & H4 & H5). split; [exact H3|]. split.
    + intros fd Hfd. rewrite tally_app, H1, H4 by done. lia.
    + intros Hpos a l. destruct (H2 Hpos) as [_ H6]. rewrite tally_app, H6, H5. lia.
  - intros e t Ht ->. pose proof (wp_sound _ _ w h (smf_create_ok shm_id size)) as [_ Hc]. rewrite Ht in Hc. cbn in Hc.
    destruct Hc as [[? _]|[_ Hc]]; [done|exact Hc].
  - intros e t Ht ->. pose proof (wp_sound _ _ w h (smf_open_ok shm_id am)) as [_ Hc]. rewrite Ht in Hc. cbn in Hc.
    destruct Hc as [[? _]|[_ Hc]]; [done|exact Hc].
Qed.
End shared_memory.

(** * Moves *)

(** Moving a shared memory file.  Move construction passes the descriptor on: the
    two destructors close it once and unlink the name once.  Move assignment
    closes the target's descriptor and, if it created the file, unlinks its name;
    but it then swaps the closed descriptor into the source, whose destructor closes
    it again and unlinks a second name, the one left in the moved-from string. *)
Theorem file_moves (moved_from : string -> string) (f g : shared_memory_file) (w : os) (h : history) :
  let construct := (let '(a, b) := smf_move_construct moved_from f in _ ← smf_destroy b; smf_destroy a) in
  let assign := ('(a, b) ← smf_move_assign moved_from false f g; _ ← smf_destroy b; smf_destroy a) in
  (forall fd, tally (opens fd) (prun w h construct).2 = - holds_fd f fd) /\
  (forall path, tally (unlinks path) (prun w h construct).2 = b2z (sf_was_created f && bool_decide (sf_path f = path))) /\
  (forall fd, tally (opens fd) (prun w h assign).2 = - 2 * holds_fd f fd - holds_fd g fd) /\
  (forall path, tally (unlinks path) (prun w h assign).2 =
     b2z (sf_was_created f && bool_decide (sf_path f = path)) + b2z (sf_was_created f && bool_decide (moved_from (sf_path g) = path)) +
     b2z (sf_was_created g && bool_decide (sf_path g = path))).
Proof.
  intros construct assign.
  assert (forall a b P, (forall t, (forall fd, tally (opens fd) t = - holds_fd b fd - holds_fd a fd) ->
      (forall path, tally (unlinks path) t = holds_name b path + holds_name a path) -> P (Returned tt) t) ->
    wp (_ ← smf_destroy b; smf_destroy a) P) as Hboth.
  { intros a b P HP. apply (wp_step _ _ _ _ (smf_release_ok b)); [|intros e t [? _]; done]. intros [] t (_ & H1 & _ & H2).
    eapply wp_mono; [|apply smf_release_ok]. intros x t' (-> & H3 & _ & H4).
    apply HP; intros; rewrite tally_app, ?H1, ?H2, ?H3, ?H4; lia. }
  pose proof (wp_sound construct (fun _ t => (forall fd, tally (opens fd) t = - holds_fd f fd) /\ forall path, tally (unlinks path) t = holds_name f path) w h) as Hc.
  pose proof (wp_sound assign (fun _ t => (forall fd, tally (opens fd) t = - 2 * holds_fd f fd - holds_fd g fd) /\
    forall path, tally (unlinks path) t = holds_name f path + b2z (sf_was_created f && bool_decide (moved_from (sf_path g) = path)) + holds_name g path) w h) as Ha.
  cbn beta in Hc, Ha. destruct Hc as [H1 H2].
  - apply Hboth. intros t H1 H2. split; intros; rewrite ?H1, ?H2; unfold holds_fd, holds_name; cbn; lia.
  - destruct Ha as [H3 H4]; [|done]. unfold assign. cbn [smf_move_assign].
    apply wp_bind. apply (wp_step _ _ _ _ (smf_release_ok f)); [|intros e t [? _]; done]. intros [] t (_ & H3 & _ & H4).
    cbn [wp app]. rewrite app_nil_r. apply Hboth. intros t' H5 H6. split; intros; rewrite tally_app, ?H3, ?H4, ?H5, ?H6;
      unfold holds_fd, holds_name; cbn; lia.
Qed.

(** * The double mapping *)

(** What an address refers to after a history: a byte of an open file, anonymous
    memory, or nothing. *)
Inductive page : Type := FileByte (fd offset : Z) | Anonymous.

Definition back (addr : Z) (p : option page) (x : call * reply) : option page :=
  match x with
  | (Sys_mmap _ l _ _ shared fd off, Rval v) =>
    if (v <=? addr) && (addr <? v + l) then Some (if shared then FileByte fd (off + (addr - v)) else Anonymous) else p
  | (Sys_munmap a l, Rval _) => if (a <=? addr) && (addr <? a + l) then None else p
  | _ => p
  end.

Definition backing (t : history) (addr : Z) : option page := fold_left (back addr) t None.

Section mirrors.
Context (moved_from : string -> string).

(** The calls a successful double mapping makes. *)
Lemma mm_open_file_double_calls f am : wp (mm_open_file_double moved_from f am) (fun x t =>
  match x with
  | Returned (Expected m, f') => mm_shm_file m = f /\ mm_size m = sf_size f /\ mm_total_size m = u64 (sf_size f + sf_size f) /\ f' = (smf_move_construct moved_from f).2 /\
      (Forall posix_mmap t -> 0 < mm_mapped_region m /\ 0 < sf_size f /\ mm_mapped_region m + (sf_size f + sf_size f) < 2 ^ 64 /\
       t = [(Sys_mmap 0 (u64 (sf_size f + sf_size f)) true false false 0 0, Rval (mm_mapped_region m));
            (Sys_mmap (mm_mapped_region m) (sf_size f) (bool_decide (am = WRITE)) true (negb (sf_native_handle f =? 0)) (sf_native_handle f) 0, Rval (mm_mapped_region m));
            (Sys_mmap (mm_mapped_region m + sf_size f) (sf_size f) (bool_decide (am = WRITE)) true (negb (sf_native_handle f =? 0)) (sf_native_handle f) 0, Rval (mm_mapped_region m + sf_size f))])
  | _ => True
  end).
Proof.
  unfold mm_open_file_double. destruct (refuses f am); [done|].
  set (P := fun (x : result (expected mapped_memory error_code * shared_memory_file)) (t : history) => _).
  assert (forall m e f' t, wp (mm_fail DOUBLE m e ≫= fun r => Ret (r, f')) (fun x t' => P x (t ++ t'))) as Hfail.
  { intros m e f' t. apply (wp_step _ _ (fun x _ => x = Returned (Unexpected e))); [|intros a t' Ha; cbn beta in Ha; by injection Ha as ->|by intros].
    eapply wp_mono; [|apply mm_fail_ok]. by intros x t' [-> _]. }
  unfold map_memory. cbn -[mm_fail mm_return].
  intros [r|e]; cbn -[mm_fail mm_return]; [|exact (Hfail _ _ _ [_])].
  intros [r1|e]; cbn -[mm_fail mm_return]; [|exact (Hfail _ _ _ [_; _])].
  destruct (negb (r =? 0) && negb (r =? r1)) eqn:E1; cbn -[mm_fail mm_return]; [exact (Hfail _ _ _ [_; _])|].
  intros [r2|e]; cbn -[mm_fail mm_return]; [|exact (Hfail _ _ _ [_; _; _])].
  destruct (negb (u64 (r + sf_size f) =? 0) && negb (u64 (r + sf_size f) =? r2)) eqn:E2; cbn -[mm_fail]; [exact (Hfail _ _ _ [_; _; _])|].
  split; [by destruct f|]. split; [done|]. split; [done|]. split; [done|].
  intros [(Hr & _ & _) [(Hr1 & Hs & Hb) [(Hr2 & _ & Hb2) _]%Forall_cons]%Forall_cons]%Forall_cons. cbn [mm_mapped_region set_mapped_region mm_move_construct].
  rewrite (proj2 (Z.eqb_neq r 0)) in E1 |- * by lia. cbn [negb andb] in E1. apply negb_false_iff, Z.eqb_eq in E1. subst r1.
  rewrite (u64_small (r + sf_size f)) in * by lia. rewrite (proj2 (Z.eqb_neq (r + sf_size f) 0)) in * by lia.
  cbn [negb andb] in E2. apply negb_false_iff, Z.eqb_eq in E2. subst. split_and!; done || lia.
Qed.

(** A history without mappings refers to nothing. *)
Definition no_mmap (x : call * reply) : Prop := match x.1 with Sys_mmap _ _ _ _ _ _ _ => False | _ => True end.

Lemma backing_none t addr : Forall no_mmap t -> backing t addr = None.
Proof.
  unfold backing. induction 1 as [|[c r] t Hx _ IH]; [done|]. cbn [fold_left].
  enough (back addr None (c, r) = None) as -> by exact IH. destruct c, r; try done; cbn; by case_match.
Qed.

Lemma backing_app t t' addr : Forall no_mmap t -> backing (t ++ t') addr = backing t' addr.
Proof. intros H. unfold backing. rewrite fold_left_app. f_equal. by apply backing_none. Qed.

(** How the size of a file became known: [fstat] reported it, or [ftruncate] set it to the
    size asked for, rounded up to whole pages. *)
Definition file_sized (created : option Z) (t : history) (fd size : Z) : Prop :=
  match created with
  | None => exists st, (Sys_fstat fd, Rval st) ∈ t /\ size = u64 st
  | Some min_size => exists pagesize r, (Sys_getpagesize, pagesize) ∈ t /\ size = align_up min_size (u64 (rc pagesize)) /\
      (Sys_ftruncate fd (i64 size), Rval r) ∈ t
  end.
Lemma file_sized_app created t t' fd size : file_sized created t fd size -> file_sized created (t ++ t') fd size.
Proof. destruct created; cbn; setoid_rewrite elem_of_app; naive_solver. Qed.

(** The statement of the theorem about one result. *)
Definition mirrored (created : option Z) (x : result (expected mapped_memory error_code)) (t : history) : Prop :=
  match x with
  | Returned (Expected m) =>
      let h := sf_native_handle (mm_shm_file m) in
      file_sized created t h (mm_size m) /\
      (Forall posix_mmap t ->
       0 < mm_mapped_region m /\ 0 < mm_size m /\ mm_total_size m = 2 * mm_size m /\ mm_mapped_region m + mm_total_size m < 2 ^ 64 /\
       forall i, 0 <= i < mm_size m ->
         let b := if h =? 0 then Anonymous else FileByte h i in
         backing t (mm_mapped_region m + i) = Some b /\ backing t (mm_mapped_region m + mm_size m + i) = Some b)
  | _ => True
  end.

Lemma with_file_mirrored created am (file : prog (expected shared_memory_file error_code)) :
  wp file (fun x t => match x with Returned (Expected f) => Forall no_mmap t /\ file_sized created t (sf_native_handle f) (sf_size f) | _ => True end) ->
  wp (shm_result ← file; mm_with_file (fun f => mm_open_file_double moved_from f am) shm_result) (mirrored created).
Proof.
  intros Hf. apply (wp_step _ _ _ _ Hf); [|done]. intros [f|e] t Ht; [|done]. destruct Ht as [Ht Hsized]. cbn [mm_with_file].
  apply (wp_step _ _ _ _ (mm_open_file_double_calls f am)); [|done]. intros [[m|e] f'] t1 Ht1.
  2: { apply (wp_step _ _ _ _ (smf_destroy_ok f')); [|by intros]. intros [] t2 _. done. }
  destruct Ht1 as (Hmf & Hms & Hmt & -> & Hcalls). cbn. rewrite app_nil_r, Hmf, Hms, Hmt. split; [by apply file_sized_app|].
  intros Hp. apply Forall_app in Hp as [_ Hp]. destruct (Hcalls Hp) as (Hr & Hs & Hb & ->). rewrite (u64_small (sf_size f + sf_size f)) by lia.
  do 3 (split; [lia|]). split; [lia|]. intros i Hi. rewrite !backing_app by done. unfold backing, back. cbn [fold_left].
  split; gcase; cbn [andb]; try lia; repeat f_equal; destruct (sf_native_handle f =? 0); cbn [negb]; repeat f_equal; lia.
Qed.

(** C26 The double mapping is a mirror.  Let [open] or [create] of the double mapping
    return an object, on any operating system.  Its size is that of the file, as [fstat]
    reported it to [open] or as [create] set it with [ftruncate]: the size asked for,
    rounded up to whole pages.  And if every [mmap] kept to POSIX (what it maps is not
    at address 0, not empty, and ends inside the address space), the region has twice
    that size and byte i of either half is byte i of the file, so that a write
    through one half is seen through the other; if the descriptor is 0, which the code
    takes for none, both halves are anonymous memory instead. *)
Theorem double_mapping_mirrors (shm_id : string) (am : access_mode) (created : option Z) (w : os) (h : history) m t :
  prun w h (match created with
            | None => mm_open_double moved_from shm_id am
            | Some size => mm_create_double moved_from shm_id size
            end) = (Returned (Expected m), t) ->
  let f := sf_native_handle (mm_shm_file m) in
  file_sized created t f (mm_size m) /\
  (Forall posix_mmap t ->
   0 < mm_mapped_region m /\ 0 < mm_size m /\ mm_total_size m = 2 * mm_size m /\ mm_mapped_region m + mm_total_size m < 2 ^ 64 /\
   forall i, 0 <= i < mm_size m ->
     let b := if f =? 0 then Anonymous else FileByte f i in
     backing t (mm_mapped_region m + i) = Some b /\ backing t (mm_mapped_region m + mm_size m + i) = Some b).
Proof.
  intros Hrun f.
  set (p := match created with None => _ | Some size => _ end) in Hrun. assert (wp p (mirrored created)) as Hw.
  { destruct created as [size|]; apply with_file_mirrored; cbn.
    - intros pg r1 [v|e]; cbn; [|done]. intros [v'|e]; cbn; [|done]. split; [by repeat constructor|].
      exists pg, v'. split_and!; [left|done|do 3 right; left].
    - intros [v|e]; cbn; [|done]. intros [v'|e]; cbn; [|done]. split; [by repeat constructor|]. exists v'. split; [right; left|done]. }
  pose proof (wp_sound p _ w h Hw) as HQ. by rewrite Hrun in HQ.
Qed.
End mirrors.

Ltac no_such_call :=
  let H := fresh in intros * H; repeat (apply elem_of_cons in H as [[=]|H]); by apply elem_of_nil in H.

(** A single mapping can not be opened for reading.  [open(shm_id, READ)] opens the
    file for reading but maps it with the default access mode, for writing, which the
    guard refuses: whatever the operating system answers, the result is an error
    ([access_error] when the file could be opened) and nothing is mapped. *)
Theorem single_open_read_refused (moved_from : string -> string) (shm_id : string) (w : os) (h : history) :
  let x := prun w h (mm_open_single moved_from shm_id READ) in
  (x.1 = Returned (Unexpected (shm_code open_error)) \/ x.1 = Returned (Unexpected (shm_code file_not_found)) \/
   x.1 = Returned (Unexpected (shm_code access_error))) /\
  (forall a l wr fixed shared fd off r, (Sys_mmap a l wr fixed shared fd off, r) ∉ x.2).
Proof.
  apply (wp_sound (mm_open_single moved_from shm_id READ) (fun x t =>
    (x = Returned (Unexpected (shm_code open_error)) \/ x = Returned (Unexpected (shm_code file_not_found)) \/
     x = Returned (Unexpected (shm_code access_error))) /\
    forall a l wr fixed shared fd off r, (Sys_mmap a l wr fixed shared fd off, r) ∉ t)).
  cbn. intros [v|e]; cbn; [|split; [tauto|no_such_call]]. intros [v'|e]; cbn; [|split; [tauto|no_such_call]].
  unfold mm_open_file_single, refuses. rewrite !bool_decide_true by done. cbn.
  unfold smf_destroy, smf_release. cbn.
  destruct (v =? 0); cbn; [split; [tauto|no_such_call]|]. intros r. split; [tauto|no_such_call].
Qed.

(** An operating system for examples: descriptor 3, pages of 4096 bytes, regions at
    65536 unless an address is asked for. *)
Definition demo_os : os := fun _ c =>
  match c with
  | Sys_getpagesize | Sys_fstat _ => Rval 4096
  | Sys_shm_open _ _ _ | Sys_open _ => Rval 3
  | Sys_mmap a _ _ _ _ _ _ => Rval (if a =? 0 then 65536 else a)
  | _ => Rval 0
  end.

Lemma mapped_memory_accounting_witness :
  exists m t, prun demo_os [] (mm_create id DOUBLE "seg" 100) = (Returned (Expected m), t) /\ mm_mapped_region m = 65536 /\
    accounts DOUBLE (Returned (Expected m)) t.
Proof.
  eexists _, _. split; [reflexivity|]. split; [reflexivity|].
  exact (proj1 (mapped_memory_accounting id DOUBLE "seg" READ 100 demo_os [] (mm_create id DOUBLE "seg" 100) (or_intror eq_refl))).
Defined.

Lemma double_mapping_mirrors_witness :
  exists m t, prun demo_os [] (mm_create_double id "seg" 100) = (Returned (Expected m), t) /\
    file_sized (Some 100) t 3 4096 /\
    backing t (65536 + 17) = Some (FileByte 3 17) /\ backing t (65536 + 4096 + 17) = Some (FileByte 3 17).
Proof.
  assert (exists m t, prun demo_os [] (mm_create_double id "seg" 100) = (Returned (Expected m), t) /\
    sf_native_handle (mm_shm_file m) = 3 /\ mm_size m = 4096 /\ mm_mapped_region m = 65536 /\ Forall posix_mmap t) as (m & t & Hrun & Hh & Hs & Hr & Hp).
  { eexists _, _. split; [reflexivity|]. do 3 (split; [reflexivity|]). by repeat constructor. }
  exists m, t. split; [exact Hrun|].
  destruct (double_mapping_mirrors id "seg" READ (Some 100) demo_os [] m t Hrun) as [H1 H2]. rewrite Hh, Hs, Hr in *.
  split; [exact H1|]. destruct (H2 Hp) as (_ & _ & _ & _ & H3). apply (H3 17). lia.
Defined.
