(* ===== verification/FileLock.v ===== *)
(** Locks on files: [utils/file_lock.h] and the POSIX half of [utils/ip_lock.h].

    A lock is a descriptor of a file in the directory for temporary files and the
    [fcntl] locks set through it.  The variants for other platforms, empty
    functions and a Windows mutex, are in [Windows]. *)
From S2P Require Import Prelude Errors Os.

Local Open Scope string_scope.

Definition EAGAIN : Z := 11.
Definition EACCES : Z := 13.

(** A destructor: an exception that leaves it ends the program. *)
Fixpoint noexcept {A} (p : prog A) : prog A :=
  match p with
  | Ret a => Ret a
  | Raise _ => Raise terminate
  | Sys c q => Sys c (fun r => noexcept (q r))
  end.

(** * file_lock *)

(* @source include/ipcpp/utils/file_lock.h 120-121 file_lock *)
Record file_lock : Type := { fl_path : string; fl_fd : Z }.

(** [tmp] is [std::filesystem::temp_directory_path()]. *)
(* @source include/ipcpp/utils/file_lock.h 27-33 file_lock::file_lock *)
Definition fl_construct (tmp name : string) : prog file_lock :=
  let path := tmp +:+ "/" +:+ name in
  fd ← sys (Sys_open path);
  match fd with
  | Rval v => Ret {| fl_path := path; fl_fd := v |}
  | Rerr errno => Raise (system_error errno)
  end.

(* @source include/ipcpp/utils/file_lock.h 35-39 file_lock::~file_lock *)
Definition fl_destroy (l : file_lock) : prog unit :=
  if negb (fl_fd l =? -1)%Z then sys_ (Sys_close (fl_fd l)) else Ret tt.

(** [fcntl] whose failure is thrown. *)
Definition fl_set (l : file_lock) (wait : bool) (kind : lock_kind) : prog unit :=
  r ← sys (Sys_fcntl (fl_fd l) wait kind);
  match r with Rval _ => Ret tt | Rerr errno => Raise (system_error errno) end.

(* @source include/ipcpp/utils/file_lock.h 42-52 file_lock::lock *)
Definition fl_lock (l : file_lock) : prog unit := fl_set l true F_WRLCK.
(* @source include/ipcpp/utils/file_lock.h 55-65 file_lock::lock_shared *)
Definition fl_lock_shared (l : file_lock) : prog unit := fl_set l true F_RDLCK.
(* @source include/ipcpp/utils/file_lock.h 68-78 file_lock::unlock *)
Definition fl_unlock (l : file_lock) : prog unit := fl_set l false F_UNLCK.
(* @source include/ipcpp/utils/file_lock.h 81-83 file_lock::unlock_shared *)
Definition fl_unlock_shared (l : file_lock) : prog unit := fl_unlock l.

Definition fl_try (l : file_lock) (kind : lock_kind) : prog bool :=
  r ← sys (Sys_fcntl (fl_fd l) false kind);
  match r with
  | Rval _ => Ret true
  | Rerr errno => if (errno =? EAGAIN)%Z || (errno =? EACCES)%Z then Ret false else Raise (system_error errno)
  end.

(* @source include/ipcpp/utils/file_lock.h 86-100 file_lock::try_lock *)
Definition fl_try_lock (l : file_lock) : prog bool := fl_try l F_WRLCK.
(* @source include/ipcpp/utils/file_lock.h 103-117 file_lock::try_lock_shared *)
Definition fl_try_lock_shared (l : file_lock) : prog bool := fl_try l F_RDLCK.

(** * The scoped locks: [body] is the code between construction and destruction *)
(* @source include/ipcpp/utils/file_lock.h 124-144 unique_file_lock *)
Definition with_unique_file_lock {A} (l : file_lock) (body : prog A) : prog A :=
  _ ← fl_lock l; finally body (noexcept (fl_unlock l)).

(* @source include/ipcpp/utils/file_lock.h 146-174 shared_file_lock *)
Definition with_shared_file_lock {A} (l : file_lock) (body : prog A) : prog A :=
  _ ← fl_lock_shared l; finally body (noexcept (fl_unlock_shared l)).

(** * InterProcessLock: the same calls, failures as error codes *)

(* @source include/ipcpp/utils/ip_lock.h 100-107 InterProcessLock::Impl::Impl *)
Definition ip_construct (tmp name : string) : prog Z :=
  fd ← sys (Sys_open (tmp +:+ "/" +:+ name));
  match fd with Rval v => Ret v | Rerr errno => Raise (system_error errno) end.

(** The descriptor of the new object and the one left in [other]. *)
(* @source include/ipcpp/utils/ip_lock.h 109-112 InterProcessLock::Impl::Impl(Impl) *)
Definition ip_move_construct (other : Z) : Z * Z := (other, (-1)%Z).

(* @source include/ipcpp/utils/ip_lock.h 114-118 InterProcessLock::Impl::~Impl *)
Definition ip_destroy (fd : Z) : prog unit := if negb (fd =? -1)%Z then sys_ (Sys_close fd) else Ret tt.

(* @source include/ipcpp/utils/ip_lock.h 121-132 InterProcessLock::Impl::lock *)
Definition ip_lock (fd : Z) : prog error_code :=
  r ← sys (Sys_fcntl fd true F_WRLCK);
  match r with Rval _ => Ret no_error | Rerr errno => Ret {| ec_value := errno; ec_category := system_category |} end.

(* @source include/ipcpp/utils/ip_lock.h 135-145 InterProcessLock::Impl::unlock *)
Definition ip_unlock (fd : Z) : prog unit :=
  r ← sys (Sys_fcntl fd false F_UNLCK);
  match r with Rval _ => Ret tt | Rerr errno => Raise (system_error errno) end.

(** The error code and [acquired]. *)
(* @source include/ipcpp/utils/ip_lock.h 148-164 InterProcessLock::Impl::try_lock *)
Definition ip_try_lock (fd : Z) : prog (error_code * bool) :=
  r ← sys (Sys_fcntl fd false F_WRLCK);
  match r with
  | Rval _ => Ret (no_error, true)
  | Rerr errno =>
    if (errno =? EAGAIN)%Z || (errno =? EACCES)%Z then Ret (no_error, false)
    else Ret ({| ec_value := errno; ec_category := system_category |}, false)
  end.

(** * The lock a history leaves on a descriptor

    What was last obtained or given up through the descriptor.  The locks of [fcntl]
    belong to the process and the file: if a process has a file open twice, what it does
    through one descriptor also changes the lock that this function reports for the
    other; it speaks of a process that has the file open once.  (Each object of the
    sources opens its file itself; [RealTimeTopic] has the case of several.) *)
Definition held (fd : Z) (l0 : lock_kind) (t : history) : lock_kind := fold_left (lock_after fd) t l0.

Lemma held_app fd l0 t t' : held fd l0 (t ++ t') = held fd (held fd l0 t) t'.
Proof. apply fold_left_app. Qed.

Lemma fl_set_ok l wait kind : wp (fl_set l wait kind) (fun x t =>
  match x with
  | Returned _ => forall l0, held (fl_fd l) l0 t = kind
  | Threw e => (exists errno, e = system_error errno) /\ forall l0, held (fl_fd l) l0 t = l0
  end).
Proof. cbn. intros [v|e]; cbn; [intros l0; by rewrite Z.eqb_refl|split; [by eexists|done]]. Qed.

Lemma wp_noexcept {A} (p : prog A) : forall P,
  wp p (fun x t => P (match x with Returned a => Returned a | Threw _ => Threw terminate end) t) -> wp (noexcept p) P.
Proof. induction p as [a|e|c q IH]; intros P Hp; cbn in *; [done..|]. intros r. by apply (IH r). Qed.

(** A scope that sets [kind] when it is entered. *)
Lemma with_lock_ok {A} l kind (body : prog A) :
  wp body (fun _ t => held (fl_fd l) kind t = kind) ->
  wp (_ ← fl_set l true kind; finally body (noexcept (fl_unlock l))) (fun x t =>
    match x with
    | Threw terminate => True
    | Threw (system_error _) | Returned _ => (forall l0, held (fl_fd l) l0 t = F_UNLCK) \/ exists errno, x = Threw (system_error errno) /\ t = [(Sys_fcntl (fl_fd l) true kind, Rerr errno)]
    | Threw _ => forall l0, held (fl_fd l) l0 t = F_UNLCK
    end).
Proof.
  intros Hb. apply (wp_step _ _ (fun x t => match x with
    | Returned _ => exists v, t = [(Sys_fcntl (fl_fd l) true kind, Rval v)]
    | Threw e => exists errno, e = system_error errno /\ t = [(Sys_fcntl (fl_fd l) true kind, Rerr errno)]
    end)); [cbn; intros [v|e]; cbn; by eexists| |intros e t (errno & -> & ->); right; by eexists].
  intros [] t0 [v ->]. apply wp_finally. eapply wp_mono; [|exact Hb].
  intros x t Ht. apply wp_noexcept. eapply wp_mono; [|apply (fl_set_ok l false F_UNLCK)]. intros [[]|e] t' Hu; cbn in *; [|done].
  assert (forall l0, held (fl_fd l) l0 ((Sys_fcntl (fl_fd l) true kind, Rval v) :: t ++ t') = F_UNLCK) as Hh.
  { intros l0. cbn. rewrite Z.eqb_refl. fold (held (fl_fd l) kind (t ++ t')). by rewrite held_app, Ht. }
  destruct x as [a|[]]; try done; by left.
Qed.

(** C30 File locks do what their names say.  Whatever [fcntl] answers: when [lock],
    [lock_shared], [unlock] return, the descriptor holds the exclusive, the shared, no
    lock; when they throw (a [system_error]) it holds what it held before; the [try]
    variants return true exactly when the lock was taken and false exactly for
    EAGAIN and EACCES.  A scope guarded by [unique_file_lock] or
    [shared_file_lock] runs its body with the lock and leaves none, also when the
    body throws, unless entering failed or a failed unlock ended the program. *)
Theorem file_lock_states (l : file_lock) (w : os) (h : history) :
  let fd := fl_fd l in
  (forall p kind, (p, kind) ∈ [(fl_lock l, F_WRLCK); (fl_lock_shared l, F_RDLCK); (fl_unlock l, F_UNLCK); (fl_unlock_shared l, F_UNLCK)] ->
     let x := prun w h p in
     match x.1 with
     | Returned _ => forall l0, held fd l0 x.2 = kind
     | Threw e => (exists errno, e = system_error errno) /\ forall l0, held fd l0 x.2 = l0
     end) /\
  (forall p kind, (p, kind) ∈ [(fl_try_lock l, F_WRLCK); (fl_try_lock_shared l, F_RDLCK)] ->
     let x := prun w h p in
     match x.1 with
     | Returned true => forall l0, held fd l0 x.2 = kind
     | Returned false => exists errno, (errno = EAGAIN \/ errno = EACCES) /\ x.2 = [(Sys_fcntl fd false kind, Rerr errno)]
     | Threw e => exists errno, e = system_error errno /\ errno <> EAGAIN /\ errno <> EACCES /\ forall l0, held fd l0 x.2 = l0
     end) /\
  (forall A (body : prog A),
     wp body (fun _ t => held fd F_WRLCK t = F_WRLCK) ->
     let x := prun w h (with_unique_file_lock l body) in
     x.1 = Threw terminate \/ (exists errno, x.2 = [(Sys_fcntl fd true F_WRLCK, Rerr errno)]) \/ forall l0, held fd l0 x.2 = F_UNLCK) /\
  (forall A (body : prog A),
     wp body (fun _ t => held fd F_RDLCK t = F_RDLCK) ->
     let x := prun w h (with_shared_file_lock l body) in
     x.1 = Threw terminate \/ (exists errno, x.2 = [(Sys_fcntl fd true F_RDLCK, Rerr errno)]) \/ forall l0, held fd l0 x.2 = F_UNLCK).
Proof.
  intros fd. split; [|split].
  - intros p kind Hp. assert (exists wait, p = fl_set l wait kind) as [wait ->].
    { repeat (apply elem_of_cons in Hp as [[= -> ->]|Hp]); [by eexists..|by apply elem_of_nil in Hp]. }
    exact (wp_sound _ _ w h (fl_set_ok l wait kind)).
  - intros p kind Hp. assert (p = fl_try l kind) as ->.
    { repeat (apply elem_of_cons in Hp as [[= -> ->]|Hp]); [done..|by apply elem_of_nil in Hp]. }
    cbn. unfold fd. destruct (w h (Sys_fcntl (fl_fd l) false kind)) as [v|e] eqn:E; cbn.
    + intros l0. by rewrite Z.eqb_refl.
    + destruct (Z.eqb_spec e EAGAIN), (Z.eqb_spec e EACCES); cbn; rewrite ?E; cbn; eauto 10.
  - assert (forall A (body : prog A) kind, wp body (fun _ t => held fd kind t = kind) ->
      let x := prun w h (_ ← fl_set l true kind; finally body (noexcept (fl_unlock l))) in
      x.1 = Threw terminate \/ (exists errno, x.2 = [(Sys_fcntl fd true kind, Rerr errno)]) \/ forall l0, held fd l0 x.2 = F_UNLCK) as Hw.
    { intros A body kind Hb x. pose proof (wp_sound _ _ w h (with_lock_ok l kind body Hb)) as Hx. cbn beta in Hx. fold x in Hx.
      destruct (x.1) as [a|[]]; try (by left); try (by right; right); destruct Hx as [Hx|(e0 & _ & Hx)]; eauto. }
    split; intros A body; apply Hw.
Qed.

Lemma file_lock_states_witness :
  let w : os := fun _ c => match c with Sys_open _ => Rval 3%Z | _ => Rval 0%Z end in
  let x := prun w [] (l ← fl_construct "/tmp" "global"; with_unique_file_lock l (Raise runtime_error : prog unit)) in
  x.1 = Threw runtime_error /\ map fst x.2 = [Sys_open "/tmp/global"; Sys_fcntl 3 true F_WRLCK; Sys_fcntl 3 false F_UNLCK] /\
  (let y := prun w [] (with_unique_file_lock {| fl_path := "/tmp/global"; fl_fd := 3 |} (Raise runtime_error : prog unit)) in
   y.1 = Threw terminate \/ (exists errno, y.2 = [(Sys_fcntl 3 true F_WRLCK, Rerr errno)]) \/ forall l0, held 3 l0 y.2 = F_UNLCK).
Proof.
  intros w x. split; [reflexivity|]. split; [reflexivity|].
  apply (file_lock_states {| fl_path := "/tmp/global"; fl_fd := 3 |} w []). done.
Defined.
