(* ===== verification/Windows.v ===== *)
(** The Windows variants: [src/shm/windows/shared_memory_file.cpp],
    [src/shm/windows/mapped_memory.cpp], the Windows half of [utils/ip_lock.h] and the empty
    [file_lock] for platforms other than Linux in [utils/file_lock.h].

    Only these functions are modelled; the library does not build for Windows, since the move
    assignment they share with Linux calls the POSIX [close]. *)
From S2P Require Import Prelude Numeric Errors Os SharedMemory FileLock.
Local Open Scope Z_scope.

(** A handle or an address; 0 is null. *)
Definition pointer (r : reply) : Z := match r with Rval v => v | Rerr _ => 0 end.

Section windows.
Context (moved_from : string -> string).

(** * shared_memory_file *)

(* @source src/shm/windows/shared_memory_file.cpp 18-22 shared_memory_file::~shared_memory_file *)
Definition wf_destroy (f : shared_memory_file) : prog unit :=
  if negb (sf_native_handle f =? 0) then sys_ (Win_CloseHandle (sf_native_handle f)) else Ret tt.

(* @source src/shm/windows/shared_memory_file.cpp 25-25 shared_memory_file::unlink *)
Definition wf_unlink (f : shared_memory_file) : prog unit := Ret tt.

(** [return self;] *)
Definition wf_return (self : shared_memory_file) : prog (expected shared_memory_file error_code) :=
  let '(v, self) := smf_move_construct moved_from self in
  _ ← wf_destroy self; Ret (Expected v).

Definition wf_set (mode : access_mode) (handle : Z) (f : shared_memory_file) : shared_memory_file :=
  {| sf_access_mode := mode; sf_path := sf_path f; sf_native_handle := handle; sf_size := sf_size f; sf_was_created := sf_was_created f |}.

(** The error is built and dropped: there is no [return] in front of it. *)
(* @source src/shm/windows/shared_memory_file.cpp 28-42 shared_memory_file::create *)
Definition wf_create (path : string) (size : Z) : prog (expected shared_memory_file error_code) :=
  let self := wf_set WRITE 0 (smf_new path size) in
  handle ← sys (Win_CreateFileMapping (u32 (Z.shiftr size 32)) (u32 (Z.land size (2 ^ 32 - 1))) (smf_name self));
  wf_return (wf_set WRITE (pointer handle) self).

(* @source src/shm/windows/shared_memory_file.cpp 45-82 shared_memory_file::open *)
Definition wf_open (path : string) (access_mode : access_mode) : prog (expected shared_memory_file error_code) :=
  let desired_access := bool_decide (access_mode = WRITE) in
  handle ← sys (Win_OpenFileMapping desired_access path);
  _ ← (if pointer handle =? 0 then sys_ Win_GetLastError else Ret tt);
  mapped_buffer ← sys (Win_MapViewOfFile (pointer handle) desired_access 0 0 0 None);
  if pointer mapped_buffer =? 0 then
    _ ← sys_ (Win_CloseHandle (pointer handle)); Ret (Unexpected (shm_code open_error))
  else
    info ← sys (Win_VirtualQuery (pointer mapped_buffer));
    if pointer info =? 0 then
      _ ← sys_ (Win_UnmapViewOfFile (pointer mapped_buffer));
      _ ← sys_ (Win_CloseHandle (pointer handle)); Ret (Unexpected (shm_code open_error))
    else
      let self := smf_new path (pointer info) in
      _ ← sys_ (Win_UnmapViewOfFile (pointer mapped_buffer));
      wf_return (wf_set access_mode (pointer handle) self).

(** * Mappings *)

(* @source src/shm/windows/mapped_memory.cpp 24-59 _map_memory *)
Definition w_map_memory (expected_size start_addr file_handle offset : Z) (access_mode : access_mode) : prog (expected Z error_code) :=
  if file_handle =? 0 then
    reserved_region ← sys (Win_VirtualAlloc start_addr expected_size);
    if pointer reserved_region =? 0 then Ret (Unexpected (shm_code mapping_error)) else Ret (Expected (pointer reserved_region))
  else
    r ← sys (Win_MapViewOfFile file_handle (bool_decide (access_mode = WRITE)) (u32 (Z.shiftr offset 32)) (u32 (Z.land offset (2 ^ 32 - 1)))
               expected_size (if start_addr =? 0 then None else Some start_addr));
    let mapped_region := pointer r in
    if mapped_region =? 0 then
      _ ← sys_ (Win_UnmapViewOfFile mapped_region); Ret (Unexpected (shm_code mapping_error))
    else if negb (start_addr =? 0) && negb (start_addr =? mapped_region) then
      _ ← sys_ (Win_UnmapViewOfFile mapped_region); Ret (Unexpected (shm_code mapped_at_wrong_address))
    else Ret (Expected mapped_region).

(* @source src/shm/windows/mapped_memory.cpp 65-69 MappedMemory::msync *)
Definition w_msync (m : mapped_memory) (sync : bool) : prog unit := Ret tt.

(** The destructor of the object, before those of its members. *)
(* @source src/shm/windows/mapped_memory.cpp 73-97 MappedMemory::~MappedMemory *)
Definition w_destroy (mt : mapping_type) (m : mapped_memory) : prog unit :=
  if negb (mm_mapped_region m =? 0) then
    match mt with
    | SINGLE => sys_ (Win_UnmapViewOfFile (mm_mapped_region m))
    | DOUBLE =>
        _ ← sys_ (Win_UnmapViewOfFile (mm_mapped_region m));
        _ ← sys_ (Win_UnmapViewOfFile (u64 (mm_mapped_region m + mm_size m)));
        sys_ (Win_VirtualFree (mm_mapped_region m) (mm_total_size m))
    end
  else Ret tt.

(** * What is opened and mapped *)

(** Handle [hd]. *)
Definition handles (hd : Z) (c : call) (r : reply) : Z :=
  match c with
  | Win_CreateFileMapping _ _ _ | Win_OpenFileMapping _ _ | Win_CreateMutex _ => b2z (pointer r =? hd)
  | Win_CloseHandle h => - b2z (h =? hd)
  | _ => 0
  end.
(** Views that begin at [a]. *)
Definition views (a : Z) (c : call) (r : reply) : Z :=
  match c with
  | Win_MapViewOfFile _ _ _ _ _ _ => b2z (pointer r =? a)
  | Win_UnmapViewOfFile a' => - b2z (a' =? a)
  | _ => 0
  end.
(** Reserved regions; freeing counts when it succeeds. *)
Definition reserves (a : Z) (c : call) (r : reply) : Z :=
  match c with
  | Win_VirtualAlloc _ _ => b2z (pointer r =? a)
  | Win_VirtualFree a' _ => if pointer r =? 0 then 0 else - b2z (a' =? a)
  | _ => 0
  end.

(** [VirtualFree] with [MEM_RELEASE] fails unless the size is 0. *)
Definition release_whole (x : call * reply) : Prop :=
  match x with (Win_VirtualFree _ size, r) => size <> 0 -> pointer r = 0 | _ => True end.

Ltac w_step := cbn [mbind prog_bind sys sys_ wp wf_return wf_destroy negb].
Ltac w_tally := intros; unfold tally, b2z; cbn; repeat (gcase; cbn in *; try congruence); try lia.

Lemma wf_create_ok path size : wp (wf_create path size) (fun x t => exists f,
  x = Returned (Expected f) /\ sf_path f = path /\ sf_size f = size /\ sf_access_mode f = WRITE /\
  forall hd, hd <> 0 -> tally (handles hd) t = b2z (sf_native_handle f =? hd)).
Proof. unfold wf_create. w_step. intros r. cbn. eexists. do 4 (split; [done|]). w_tally. Qed.

Lemma wf_open_ok path am : wp (wf_open path am) (fun x t =>
  (forall a, a <> 0 -> tally (views a) t = 0) /\
  match x with
  | Returned (Expected f) => sf_access_mode f = am /\ sf_size f <> 0 /\ forall hd, hd <> 0 -> tally (handles hd) t = b2z (sf_native_handle f =? hd)
  | Returned (Unexpected e) => e = shm_code open_error /\ forall hd, hd <> 0 -> tally (handles hd) t = 0
  | Threw _ => False
  end).
Proof.
  unfold wf_open. w_step. intros r. destruct (Z.eqb_spec (pointer r) 0) as [Hr|Hr]; w_step; [intros r0|].
  all: intros r1; destruct (Z.eqb_spec (pointer r1) 0) as [Hr1|Hr1]; w_step; [intros r2; split; [w_tally|]; split; [done|]; w_tally|].
  all: intros r2; destruct (Z.eqb_spec (pointer r2) 0) as [Hr2|Hr2]; w_step; intros r3; [intros r4; split; [w_tally|]; split; [done|]; w_tally|].
  all: rewrite ?Hr; cbn; rewrite ?(proj2 (Z.eqb_neq _ _) Hr); cbn; split; [w_tally|]; do 2 (split; [done|]); w_tally.
Qed.

Lemma w_map_memory_ok size start h off am : wp (w_map_memory size start h off am) (fun x t =>
  match x with
  | Returned (Expected v) => v <> 0 /\ forall a, a <> 0 ->
      tally (views a) t = (if h =? 0 then 0 else b2z (v =? a)) /\ tally (reserves a) t = (if h =? 0 then b2z (v =? a) else 0)
  | Returned (Unexpected e) => (e = shm_code mapping_error \/ h <> 0 /\ start <> 0 /\ e = shm_code mapped_at_wrong_address) /\
      forall a, a <> 0 -> tally (views a) t = 0 /\ tally (reserves a) t = 0
  | Threw _ => False
  end).
Proof.
  unfold w_map_memory. destruct (Z.eqb_spec h 0) as [Hh|Hh]; w_step; intros r; destruct (Z.eqb_spec (pointer r) 0) as [Hr|Hr]; w_step.
  - split; [by left|]. split; w_tally.
  - split; [done|]. split; w_tally.
  - intros r1. split; [by left|]. split; w_tally.
  - destruct (Z.eqb_spec start 0) as [Hs|Hs]; w_step; [split; [done|]; split; w_tally|].
    destruct (Z.eqb_spec start (pointer r)) as [Hp|Hp]; w_step; [split; [done|]; split; w_tally|].
    intros r1. split; [by right|]. split; w_tally.
Qed.

(** On Windows [create] never reports that the mapping could not be created: it returns an
    object without a handle, which [_map_memory] takes for a request to reserve memory of
    the process, so that a mapping of it succeeds and is shared with nobody. *)
Theorem windows_create_never_fails (path : string) (size offset : Z) (am : access_mode) (w : os) (h : history) :
  exists f t, prun w h (wf_create path size) = (Returned (Expected f), t) /\
    (forall hd, hd <> 0 -> tally (handles hd) t = b2z (sf_native_handle f =? hd)) /\
    (sf_native_handle f = 0 <-> Forall (fun x : call * reply => match x.1 with Win_CreateFileMapping _ _ _ => pointer x.2 = 0 | _ => True end) t) /\
    (sf_native_handle f = 0 -> forall r, w (h ++ t) (Win_VirtualAlloc 0 (sf_size f)) = Rval r -> r <> 0 ->
       prun w (h ++ t) (w_map_memory (sf_size f) 0 (sf_native_handle f) offset am) = (Returned (Expected r), [(Win_VirtualAlloc 0 size, Rval r)])).
Proof.
  unfold wf_create. cbn [mbind prog_bind sys]. rewrite prun_sys. set (r := w h _). cbn. eexists _, _. split; [done|]. split; [|split].
  - w_tally.
  - cbn. rewrite Forall_cons, Forall_nil. cbn. tauto.
  - cbn. intros -> v Hv Hv0. unfold w_map_memory. cbn. rewrite Hv. cbn. by rewrite (proj2 (Z.eqb_neq v 0)).
Qed.

(** Handles and views on Windows.  [open] leaves no view behind and a handle exactly in the
    object it returns, [_map_memory] a view or a reserved region exactly at the address it
    returns, whatever the system answers; the destructor takes down the views, but not the region that was
    reserved for a double mapping, because it asks for a part of it to be released. *)
Theorem windows_mapping_accounting (path : string) (am : access_mode) (m : mapped_memory) (size start hd off : Z) (w : os) (h : history) :
  (match prun w h (wf_open path am) with
   | (Returned (Expected f), t) => (forall a, a <> 0 -> tally (views a) t = 0) /\ forall hd, hd <> 0 -> tally (handles hd) t = b2z (sf_native_handle f =? hd)
   | (Returned (Unexpected e), t) => e = shm_code open_error /\ (forall a, a <> 0 -> tally (views a) t = 0) /\ forall hd, hd <> 0 -> tally (handles hd) t = 0
   | _ => False end) /\
  (match prun w h (w_map_memory size start hd off am) with
   | (Returned (Expected v), t) => v <> 0 /\ forall a, a <> 0 ->
       tally (views a) t = (if hd =? 0 then 0 else b2z (v =? a)) /\ tally (reserves a) t = (if hd =? 0 then b2z (v =? a) else 0)
   | (Returned (Unexpected _), t) => forall a, a <> 0 -> tally (views a) t = 0 /\ tally (reserves a) t = 0
   | _ => False end) /\
  (match prun w h (w_destroy DOUBLE m) with
   | (Returned _, t) => mm_mapped_region m <> 0 ->
       (forall a, tally (views a) t = - b2z (mm_mapped_region m =? a) - b2z (u64 (mm_mapped_region m + mm_size m) =? a)) /\
       (Forall release_whole t -> mm_total_size m <> 0 -> forall a, tally (reserves a) t = 0)
   | _ => False end).
Proof.
  split; [|split].
  - generalize (wp_sound _ _ w h (wf_open_ok path am)). destruct (prun _ _ _) as [[[f|e]|e] t]; naive_solver.
  - generalize (wp_sound _ _ w h (w_map_memory_ok size start hd off am)). destruct (prun _ _ _) as [[[f|e]|e] t]; naive_solver.
  - unfold w_destroy. destruct (Z.eqb_spec (mm_mapped_region m) 0) as [Hm|Hm]; cbn; [done|]. intros _. split; [w_tally|].
    intros Hf Ht a. inversion Hf as [|? ? _ Hf1]; subst. inversion Hf1 as [|? ? _ Hf2]; subst. inversion Hf2 as [|? ? Hr _]; subst.
    unfold tally. cbn. by rewrite (Hr Ht).
Qed.
End windows.

(** * InterProcessLock *)

Definition WAIT_OBJECT_0 : Z := 0.
Definition WAIT_ABANDONED : Z := 128.
Definition WAIT_TIMEOUT : Z := 258.
Definition WAIT_FAILED : Z := 2 ^ 32 - 1.
(** The [DWORD] that waiting returns. *)
Definition waited (r : reply) : Z := match r with Rval v => u32 v | Rerr _ => WAIT_FAILED end.
Definition last_error : prog error_code :=
  e ← sys Win_GetLastError; Ret {| ec_value := pointer e; ec_category := system_category |}.

(* @source include/ipcpp/utils/ip_lock.h 47-55 InterProcessLock::InterProcessLock *)
Definition wip_construct (name : string) : prog Z := m ← sys (Win_CreateMutex name); Ret (pointer m).

(* @source include/ipcpp/utils/ip_lock.h 57-67 InterProcessLock::lock *)
Definition wip_lock (mutex : Z) : prog error_code :=
  r ← sys (Win_WaitForSingleObject mutex true);
  if (waited r =? WAIT_OBJECT_0) || (waited r =? WAIT_ABANDONED) then Ret no_error else last_error.

(** The error code and [acquired]; [None]: not assigned. *)
(* @source include/ipcpp/utils/ip_lock.h 69-84 InterProcessLock::try_lock *)
Definition wip_try_lock (mutex : Z) : prog (error_code * option bool) :=
  r ← sys (Win_WaitForSingleObject mutex false);
  if (waited r =? WAIT_OBJECT_0) || (waited r =? WAIT_ABANDONED) then Ret (no_error, Some true)
  else if waited r =? WAIT_TIMEOUT then Ret (no_error, Some false)
  else e ← last_error; Ret (e, None).

(* @source include/ipcpp/utils/ip_lock.h 86-89 InterProcessLock::unlock *)
Definition wip_unlock (mutex : Z) : prog unit := sys_ (Win_ReleaseMutex mutex).

(* @source include/ipcpp/utils/ip_lock.h 91-96 InterProcessLock::~InterProcessLock *)
Definition wip_destroy (mutex : Z) : prog unit := if negb (mutex =? 0) then sys_ (Win_CloseHandle mutex) else Ret tt.

(** Locking succeeds exactly when the wait ends with the mutex, that of a process that has
    died included; an attempt that finds it taken is no error. *)
Theorem windows_lock_outcomes (mutex : Z) (w : os) (h : history) :
  let obtained := let v := waited (w h (Win_WaitForSingleObject mutex true)) in (v =? WAIT_OBJECT_0) || (v =? WAIT_ABANDONED) in
  let v := waited (w h (Win_WaitForSingleObject mutex false)) in
  (match prun w h (wip_lock mutex) with
   | (Returned e, t) => if obtained then e = no_error /\ length t = 1%nat else length t = 2%nat
   | _ => False end) /\
  (match prun w h (wip_try_lock mutex) with
   | (Returned (e, acquired), t) =>
       if (v =? WAIT_OBJECT_0) || (v =? WAIT_ABANDONED) then e = no_error /\ acquired = Some true
       else if v =? WAIT_TIMEOUT then e = no_error /\ acquired = Some false else acquired = None
   | _ => False end).
Proof.
  cbv zeta. split.
  - unfold wip_lock. cbn [mbind prog_bind sys]. rewrite prun_sys. by destruct (_ || _).
  - unfold wip_try_lock. cbn [mbind prog_bind sys]. rewrite prun_sys. destruct (_ || _); [done|]. by destruct (_ =? WAIT_TIMEOUT).
Qed.

(** * file_lock without an operating system behind it *)

(* @source include/ipcpp/utils/file_lock.h 184-189 file_lock::file_lock *)
Definition wfl_construct (name : string) : prog unit := Ret tt.
(* @source include/ipcpp/utils/file_lock.h 191-192 file_lock::lock *)
Definition wfl_lock : prog unit := Ret tt.
(* @source include/ipcpp/utils/file_lock.h 195-196 file_lock::lock_shared *)
Definition wfl_lock_shared : prog unit := Ret tt.
(* @source include/ipcpp/utils/file_lock.h 199-201 file_lock::unlock *)
Definition wfl_unlock : prog unit := Ret tt.
(* @source include/ipcpp/utils/file_lock.h 204-206 file_lock::unlock_shared *)
Definition wfl_unlock_shared : prog unit := wfl_unlock.
(* @source include/ipcpp/utils/file_lock.h 209-211 file_lock::try_lock *)
Definition wfl_try_lock : prog bool := Ret true.
(* @source include/ipcpp/utils/file_lock.h 218-238 unique_file_lock *)
Definition with_wunique_file_lock {A} (body : prog A) : prog A := _ ← wfl_lock; finally body (noexcept wfl_unlock).
(* @source include/ipcpp/utils/file_lock.h 240-268 shared_file_lock *)
Definition with_wshared_file_lock {A} (body : prog A) : prog A := _ ← wfl_lock_shared; finally body (noexcept wfl_unlock_shared).

(** Without [fcntl] the lock locks nothing: code under it runs as without it. *)
Theorem windows_file_lock_is_empty {A} (body : prog A) (w : os) (h : history) :
  prun w h (with_wunique_file_lock body) = prun w h body /\ prun w h (with_wshared_file_lock body) = prun w h body /\
  prun w h wfl_try_lock = (Returned true, []).
Proof.
  assert (H : forall h, prun w h (finally body (Ret tt)) = prun w h body).
  { induction body as [a|e|c q IH]; intros h'; [done..|]. cbn [finally]. rewrite !prun_sys, IH. done. }
  split; [apply H|]. split; [apply H|done].
Qed.
