(* ===== verification/Registry.v ===== *)
(** The registry of shared memory segments and what is built directly on it:
    [topic.h], [src/topic.cpp], [ipcpp.h], [event/shm_atomic_notifier.h] and
    [event/shm_atomic_observer.h].

    The static map and the objects its [shared_ptr]s own are explicit state; the
    static mutex that guards the map against other threads of the process is left
    out, the functions are run one at a time. *)
From S2P Require Import Prelude Numeric Errors Os SharedMemory FileLock PoolAllocator.

(* @source include/ipcpp/topic.h 57-59 ShmRegistryEntry *)
Record registry_entry : Type := { en_id : string; en_mm : mapped_memory }.

(** The map, the entries its pointers refer to and the next pointer. *)
(* @source include/ipcpp/topic.h 77-78 ShmRegistry *)
Record registry : Type := {
  rg_entries : gmap string Z;
  rg_heap : gmap Z registry_entry;
  rg_next : Z
}.

(* @source src/topic.cpp 17-17 ShmRegistry::_shm_registry *)
Definition empty_registry : registry := {| rg_entries := ∅; rg_heap := ∅; rg_next := 0 |}.

(* @source src/topic.cpp 73-81 ShmRegistryEntry::shm_name *)
Definition shm_name (id : string) : string := "/"%string +:+ id +:+ ".shm"%string.

(* @source src/topic.cpp 87-89 ShmRegistryEntry::operator== *)
Definition entry_eqb (a b : registry_entry) : bool := bool_decide (en_id a = en_id b).

(* @source include/ipcpp/topic.h 45-47 ShmRegistryEntry::operator_bool *)
Definition entry_bool (e : registry_entry) : bool := negb (bool_decide (en_id e = EmptyString)).

Section registry.
Context (moved_from : string -> string) (tmp : string).

(** Moving a mapped memory on and destroying what is left of it. *)
Definition relocate (m : mapped_memory) : prog mapped_memory :=
  let '(m', m) := mm_move_construct moved_from m in
  _ ← mm_destroy SINGLE m; Ret m'.

(** [d] only when [p] throws: a local that is destroyed by unwinding. *)
Fixpoint on_throw {A} (p : prog A) (d : prog unit) : prog A :=
  match p with
  | Ret a => Ret a
  | Raise e => d ≫= fun _ => Raise e
  | Sys c q => Sys c (fun r => on_throw (q r) d)
  end.

(** [make_shared] of an entry made from [m], and its insertion into the map. *)
Definition insert_entry (rg : registry) (id : string) (m : mapped_memory) : prog (Z * registry) :=
  m1 ← relocate m;
  m2 ← relocate m1;
  let p := rg_next rg in
  Ret (p, {| rg_entries := <[id := p]> (rg_entries rg); rg_heap := <[p := {| en_id := id; en_mm := m2 |}]> (rg_heap rg);
             rg_next := p + 1 |}).

(** Under the file lock: [get] makes the mapping. *)
Definition locked_get (rg : registry) (id : string) (get : prog (expected mapped_memory error_code))
    : prog (expected Z error_code * registry) :=
  l ← fl_construct tmp "global"%string;
  finally
    (_ ← fl_lock l;
     e_mm ← get;
     _ ← on_throw (fl_unlock l) (match e_mm with Expected m => mm_destroy SINGLE m | Unexpected _ => Ret tt end);
     match e_mm with
     | Unexpected e => Ret (Unexpected e, rg)
     | Expected m => '(p, rg') ← insert_entry rg id m; Ret (Expected p, rg')
     end)
    (fl_destroy l).

(* @source src/topic.cpp 33-48 ShmRegistry::open_shm *)
Definition open_shm (rg : registry) (id : string) : prog (expected Z error_code * registry) :=
  match rg_entries rg !! id with
  | Some p => Ret (Expected p, rg)
  | None => locked_get rg id (mm_open_single moved_from (shm_name id) WRITE)
  end.

(* @source src/topic.cpp 51-67 ShmRegistry::create_shm *)
Definition create_shm (rg : registry) (id : string) (min_shm_size : Z) : prog (expected Z error_code * registry) :=
  match rg_entries rg !! id with
  | Some _ => Ret (Unexpected {| ec_value := 1; ec_category := system_category |}, rg)
  | None => locked_get rg id (mm_create_single moved_from (shm_name id) min_shm_size)
  end.

(* @source src/topic.cpp 22-30 ShmRegistry::get_shm_entry *)
Definition get_shm_entry (rg : registry) (id : string) (min_shm_size : Z) : prog (expected Z error_code * registry) :=
  '(e_entry, rg) ← open_shm rg id;
  match e_entry with
  | Expected p => Ret (Expected p, rg)
  | Unexpected _ => create_shm rg id min_shm_size
  end.

(** * initialize_runtime *)

(** The address and the size of the segment of an entry. *)
Definition entry_segment (rg : registry) (p : Z) : option (Z * Z) :=
  e ← rg_heap rg !! p; Some (mm_addr (en_mm e), mm_get_size (en_mm e)).

(** [first]: the static allocator of the process has not been constructed yet. *)
(* @source include/ipcpp/ipcpp.h 20-37 initialize_runtime *)
Definition initialize_runtime (rg : registry) (first : bool) (f : factory) (size : Z) : prog (error_code * registry * factory) :=
  '(global_topic, rg) ← get_shm_entry rg "global"%string (if negb (size =? 0)%Z then size else 0%Z);
  match global_topic with
  | Unexpected e => Ret (e, rg, f)
  | Expected p =>
    match entry_segment rg p with
    | Some (addr, bytes) => Ret (no_error, rg, initialize_factory first addr bytes f)
    | None => Raise terminate
    end
  end.

(** * The atomic notifier and its observer *)

(** The observer's pointer and the last value it has seen; the notifier has only the
    pointer.  The counter itself is in shared memory. *)
(* @source include/ipcpp/event/shm_atomic_notifier.h 51-52 ShmAtomicNotifier *)
Record atomic_notifier : Type := { an_topic : Z; an_value : Z }.
(* @source include/ipcpp/event/shm_atomic_observer.h 56-58 ShmAtomicObserver *)
Record atomic_observer : Type := { ao_topic : Z; ao_value : Z; ao_last_value : Z }.

Definition entry_addr (rg : registry) (p : Z) : Z := default 0%Z (fst <$> entry_segment rg p).

(* @source include/ipcpp/event/shm_atomic_notifier.h 32-39 ShmAtomicNotifier::create *)
Definition notifier_create (rg : registry) (topic_id : string) : prog (expected atomic_notifier error_code * registry) :=
  '(e_topic, rg) ← get_shm_entry rg topic_id 8;
  match e_topic with
  | Unexpected e => Ret (Unexpected e, rg)
  | Expected p => Ret (Expected {| an_topic := p; an_value := entry_addr rg p |}, rg)
  end.

(** [memory] is what the process sees at an address; [None]: still waiting after
    [polls] attempts. *)
(* @source include/ipcpp/event/shm_atomic_observer.h 29-36 ShmAtomicObserver::create *)
Fixpoint observer_create (polls : nat) (memory : Z -> Z) (rg : registry) (topic_id : string) : prog (option atomic_observer * registry) :=
  match polls with
  | O => Ret (None, rg)
  | S polls' =>
    '(e_topic, rg) ← get_shm_entry rg topic_id 0;
    match e_topic with
    | Unexpected _ => observer_create polls' memory rg topic_id
    | Expected p => let a := entry_addr rg p in Ret (Some {| ao_topic := p; ao_value := a; ao_last_value := memory a |}, rg)
    end
  end.
End registry.

(** [fetch_add] on the counter. *)
(* @source include/ipcpp/event/shm_atomic_notifier.h 41-43 ShmAtomicNotifier::notify_observers *)
Definition notify_observers (value add_val : Z) : Z := u64 (value + add_val).

(** The loop of [receive] on the values it loads one after the other; [None]: still
    waiting after all of them. *)
(* @source include/ipcpp/event/shm_atomic_observer.h 39-43 ShmAtomicObserver::receive *)
Fixpoint receive_loop (last_value : Z) (loads : list Z) : option Z :=
  match loads with
  | [] => None
  | value :: loads' => if (value =? last_value)%Z then receive_loop last_value loads' else Some value
  end.

(* @source include/ipcpp/event/shm_atomic_observer.h 38-46 ShmAtomicObserver::receive *)
Definition observer_receive (o : atomic_observer) (loads : list Z) : option (Z * atomic_observer) :=
  value ← receive_loop (ao_last_value o) loads;
  Some (value, {| ao_topic := ao_topic o; ao_value := ao_value o; ao_last_value := value |}).

(** * Locks during a run *)

(** No lock is left that was not held before. *)
Definition quiet (t : history) : Prop := forall fd l0, held fd l0 t = l0 \/ held fd l0 t = F_UNLCK.

Lemma quiet_app t t' : quiet t -> quiet t' -> quiet (t ++ t').
Proof.
  intros H H' fd l0. rewrite held_app. destruct (H' fd (held fd l0 t)) as [->| ->]; [apply H|by right].
Qed.

Definition not_fcntl (c : call) : Prop := match c with Sys_fcntl _ _ _ => False | _ => True end.

Lemma not_fcntl_quiet t : Forall (fun x : call * reply => not_fcntl x.1) t -> quiet t.
Proof.
  induction 1 as [|[c r] t Hc _ IH]; [by left|]. apply (quiet_app [(c, r)] t); [|exact IH].
  intros fd l0. destruct c; try done; cbn; destruct r; try (by left); case_match; by (left + right).
Qed.

Section traces.
Context (moved_from : string -> string) (tmp : string).

Lemma smf_destroy_calls f : only not_fcntl (smf_destroy f).
Proof. unfold smf_destroy, smf_release, smf_unlink. only_calls. Qed.
Lemma mm_destroy_calls mt m : only not_fcntl (mm_destroy mt m).
Proof. unfold mm_destroy, mm_msync. only_calls; apply smf_destroy_calls. Qed.
Lemma mm_open_file_single_calls f am : only not_fcntl (mm_open_file_single moved_from f am).
Proof.
  unfold mm_open_file_single, map_memory, mm_return, mm_fail. only_calls; apply mm_destroy_calls.
Qed.
Lemma mm_open_single_calls id am : only not_fcntl (mm_open_single moved_from id am).
Proof.
  unfold mm_open_single, smf_open, smf_return, mm_with_file. only_calls; try apply smf_destroy_calls; apply mm_open_file_single_calls.
Qed.
Lemma mm_create_single_calls id size : only not_fcntl (mm_create_single moved_from id size).
Proof.
  unfold mm_create_single, smf_create, smf_return, smf_fail, mm_with_file. only_calls; try apply smf_destroy_calls; apply mm_open_file_single_calls.
Qed.

(** No name is removed. *)
Definition keeps_names (t : history) : Prop := forall path, tally (unlinks path) t = 0.

Lemma fl_destroy_ok l : wp (fl_destroy l) (fun x t => x = Returned tt /\ quiet t /\ keeps_names t).
Proof.
  unfold fl_destroy. destruct (_ =? _); cbn; [split; [done|split; [by left|done]]|]. intros r. split; [done|].
  split; [apply not_fcntl_quiet; by repeat constructor|done].
Qed.
Lemma relocate_calls m : only not_fcntl (relocate moved_from m).
Proof. unfold relocate. only_calls. Qed.
End traces.

Section registry_proofs.
Context (moved_from : string -> string) (tmp : string).

(** * The registry as a cache *)

Record registry_ok (rg : registry) : Prop := {
  ro_entry : forall id p, rg_entries rg !! id = Some p -> exists e, rg_heap rg !! p = Some e /\ en_id e = id;
  ro_next : forall p, is_Some (rg_heap rg !! p) -> (p < rg_next rg)%Z
}.

(** The registry after a new entry for [id]. *)
Definition extended (rg rg' : registry) (id : string) : Prop :=
  exists m, rg' = {| rg_entries := <[id := rg_next rg]> (rg_entries rg);
                     rg_heap := <[rg_next rg := {| en_id := id; en_mm := m |}]> (rg_heap rg); rg_next := rg_next rg + 1 |}.

Lemma extended_ok rg rg' id : registry_ok rg -> extended rg rg' id -> registry_ok rg'.
Proof.
  intros [H1 H2] [m ->]. split; cbn.
  - intros id' p [[<- <-]|[Hne Hp]]%lookup_insert_Some; [eexists; by rewrite lookup_insert_eq|].
    destruct (H1 _ _ Hp) as (e & He & Hid). exists e. split; [|done]. rewrite lookup_insert_ne; [done|].
    specialize (H2 p (ex_intro _ _ He)). lia.
  - intros p [e [[<- _]|[_ He]]%lookup_insert_Some]; [lia|]. specialize (H2 p (ex_intro _ _ He)). lia.
Qed.

Lemma insert_entry_ok rg id m : wp (insert_entry moved_from rg id m) (fun x t =>
  match x with Returned (p, rg') => p = rg_next rg /\ extended rg rg' id /\ entry_segment rg' p = Some (mm_addr m, mm_get_size m) | Threw _ => False end /\ t = []).
Proof.
  unfold insert_entry. cbn. split; [|done]. split; [done|]. split; [by eexists|]. unfold entry_segment. cbn. by rewrite lookup_insert_eq.
Qed.

Lemma wp_on_throw {A} (p : prog A) (d : prog unit) : forall P,
  wp p (fun x t => match x with Returned a => P (Returned a) t
    | Threw e => wp d (fun y t' => P (match y with Returned _ => Threw e | Threw e' => Threw e' end) (t ++ t')) end) -> wp (on_throw p d) P.
Proof.
  induction p as [a|e|c q IH]; intros P Hp; cbn [on_throw wp] in *; [done| |intros r; apply (IH r), (Hp r)].
  apply wp_bind. eapply wp_mono; [|exact Hp]. intros [[]|e'] t Ht; cbn in *; [by rewrite app_nil_r|done].
Qed.

(** A critical section. *)
Lemma quiet_section fd wait v v' t : quiet t ->
  quiet ((Sys_fcntl fd wait F_WRLCK, Rval v) :: t ++ [(Sys_fcntl fd false F_UNLCK, Rval v')]).
Proof.
  intros Ht fd' l0. rewrite app_comm_cons, held_app. cbn. destruct (Z.eqb_spec fd fd') as [->|]; [by right|]. apply Ht.
Qed.

(** The unlocking that destroys the mapping when it throws. *)
Lemma unlock_ok l (e_mm : expected mapped_memory error_code) :
  wp (on_throw (fl_unlock l) (match e_mm with Expected m => mm_destroy SINGLE m | Unexpected _ => Ret tt end)) (fun x t =>
    match x with
    | Returned _ => exists v, t = [(Sys_fcntl (fl_fd l) false F_UNLCK, Rval v)]
    | Threw e => exists errno, e = system_error errno
    end).
Proof.
  apply wp_on_throw. apply (wp_mono _ (fun x t => match x with
    | Returned _ => exists v, t = [(Sys_fcntl (fl_fd l) false F_UNLCK, Rval v)]
    | Threw e => exists errno, e = system_error errno end)); [|cbn; intros [v|e]; cbn; by eexists].
  intros [[]|e] t; [done|]. intros [errno ->]. destruct e_mm as [m|e']; cbn [wp]; [|by eexists].
  eapply wp_mono; [|apply mm_destroy_ok]. intros y t' [-> _]. by eexists.
Qed.

(** What a critical section around [get] comes to: [get]'s calls [t2] with the
    locking around them. *)
Definition critical (rg : registry) (id : string) (G : result (expected mapped_memory error_code) -> history -> Prop)
    (x : result (expected Z error_code * registry)) (t : history) : Prop :=
  match x with
  | Returned (r, rg') => quiet t /\ exists y t2, G y t2 /\ (forall path, tally (unlinks path) t = tally (unlinks path) t2) /\
      (forall P, Forall P t -> Forall P t2) /\
      match r with
      | Expected p => p = rg_next rg /\ extended rg rg' id /\ exists m, y = Returned (Expected m) /\ entry_segment rg' p = Some (mm_addr m, mm_get_size m)
      | Unexpected e => rg' = rg /\ y = Returned (Unexpected e)
      end
  | Threw e => exists errno, e = system_error errno
  end.

Lemma critical_around rg id G x t0 t t' : critical rg id G x t -> quiet t0 -> quiet t' -> keeps_names t0 -> keeps_names t' ->
  critical rg id G x (t0 ++ t ++ t').
Proof.
  destruct x as [[r rg']|e]; [|done]. intros (Hq & y & t2 & HG & Hu & HP & Hr) Hq0 Hq' Hk0 Hk'.
  split; [by repeat apply quiet_app|]. exists y, t2. split; [done|]. split; [|split; [|done]].
  - intros path. by rewrite !tally_app, Hk0, Hk', Hu, Z.add_0_r.
  - intros P [_ [Ht _]%Forall_app]%Forall_app. by apply HP.
Qed.

(** What [locked_get] returns and throws, and that it leaves no lock. *)
Lemma locked_get_ok rg id get (G : result (expected mapped_memory error_code) -> history -> Prop) :
  wp get (fun x t => match x with Threw _ => False | _ => quiet t /\ G x t end) ->
  wp (locked_get moved_from tmp rg id get) (critical rg id G).
Proof.
  intros Hget. unfold locked_get.
  apply (wp_step _ _ (fun x t => quiet t /\ keeps_names t /\ match x with Returned _ => True | Threw e => exists errno, e = system_error errno end));
    [cbn; intros [v|e]; cbn; (split; [by apply not_fcntl_quiet; repeat constructor|]); (split; [done|]); by try eexists| |by intros e t (_ & _ & ?)].
  intros l t0 (Hq0 & Hk0 & _). apply wp_finally. apply (wp_mono _ (critical rg id G)).
  { intros x t Hx. eapply wp_mono; [|exact (fl_destroy_ok l)]. intros y t' (-> & Hq & Hk). by apply critical_around. }
  apply (wp_step _ _ (fun x t => match x with
    | Returned _ => exists v, t = [(Sys_fcntl (fl_fd l) true F_WRLCK, Rval v)] | Threw e => exists errno, e = system_error errno end));
    [cbn; intros [v|e]; cbn; by eexists| |done].
  intros [] t1 [v ->]. apply (wp_step _ _ _ _ Hget); [|by intros]. intros e_mm t2 [Hq2 HG].
  apply (wp_step _ _ _ _ (unlock_ok l e_mm)); [|done]. intros [] t3 [v' ->].
  assert (HS : forall r rg', match r with
        | Expected p => p = rg_next rg /\ extended rg rg' id /\ exists m, Returned e_mm = Returned (Expected m) /\ entry_segment rg' p = Some (mm_addr m, mm_get_size m)
        | Unexpected e => rg' = rg /\ Returned e_mm = Returned (Unexpected e)
        end -> critical rg id G (Returned (r, rg')) ([(Sys_fcntl (fl_fd l) true F_WRLCK, Rval v)] ++ t2 ++ [(Sys_fcntl (fl_fd l) false F_UNLCK, Rval v')])).
  { intros r rg' Hr. split; [by apply quiet_section|]. exists (Returned e_mm), t2. split; [done|]. split; [|split; [|done]].
    - intros path. rewrite !tally_app. unfold tally. cbn. lia.
    - intros P [_ [? _]%Forall_app]%Forall_cons; assumption. }
  destruct e_mm as [m|e]; cbn [wp].
  - apply (wp_step _ _ _ _ (insert_entry_ok rg id m)); [|by intros e t [? _]]. intros [p rg'] t [(-> & He & Hm) ->]. cbn [wp]. rewrite !app_nil_l.
    apply HS. by eauto.
  - rewrite app_nil_r. by apply HS.
Qed.

Abbreviation get_shm_entry := (get_shm_entry moved_from tmp).
Abbreviation open_shm := (open_shm moved_from tmp).
Abbreviation create_shm := (create_shm moved_from tmp).

(** Decides the propositions that are closed. *)
Ltac decided := repeat match goal with |- context [bool_decide ?P] =>
  first [rewrite (bool_decide_true P) by done | rewrite (bool_decide_false P) by done] end.

(** Follows a program through every reply. *)
Ltac every_reply :=
  repeat first [ progress (unfold smf_destroy, smf_release, smf_unlink, mm_open_file_single, refuses, tally; decided; cbn)
               | match goal with |- forall r : reply, _ => intros [?|?] | |- wp ((if ?b then _ else _) ≫= _) _ => destruct b end
               | case_match ].

(** The calls that make the mapping: they do not throw and touch no lock; opening
    removes no name, creating removes its own. *)
Lemma open_map_ok id am : wp (mm_open_single moved_from id am) (fun x t => match x with Threw _ => False | _ => quiet t /\ keeps_names t end).
Proof.
  assert (H : wp (mm_open_single moved_from id am) (fun x t => keeps_names t)).
  { destruct am; every_reply; done. }
  eapply wp_mono; [|exact (wp_and _ _ _ (mm_open_ok moved_from SINGLE id am) (wp_and _ _ _ (only_wp _ _ (mm_open_single_calls moved_from id am)) H))].
  intros [a|e] t (H1 & H2 & H3); [|done]. split; [by apply not_fcntl_quiet|exact H3].
Qed.

Lemma create_map_ok id size : wp (mm_create_single moved_from id size) (fun x t => match x with Threw _ => False | _ => quiet t /\ 1 <= tally (unlinks id) t end).
Proof.
  assert (H : wp (mm_create_single moved_from id size) (fun x t => 1 <= tally (unlinks id) t)).
  { every_reply; lia. }
  eapply wp_mono; [|exact (wp_and _ _ _ (mm_create_ok moved_from SINGLE id size) (wp_and _ _ _ (only_wp _ _ (mm_create_single_calls moved_from id size)) H))].
  intros [a|e] t (H1 & H2 & H3); [|done]. split; [by apply not_fcntl_quiet|exact H3].
Qed.

(** A mapping of no bytes is refused by the system. *)
Lemma create_empty_fails id : wp (mm_create_single moved_from id 0) (fun x t => Forall posix_mmap t -> match x with Returned (Expected _) => False | _ => True end).
Proof.
  every_reply; try done; intros H; rewrite !Forall_cons in H; cbn in H; destruct_and!; rewrite ?align_up_0 in *; lia.
Qed.

(** What [get_shm_entry] returns and which calls it makes. *)
Lemma get_shm_entry_ok rg id size : wp (get_shm_entry rg id size) (fun x t =>
  match x with
  | Returned (Expected p, rg') =>
      rg_entries rg !! id = Some p /\ rg' = rg /\ t = [] \/
      rg_entries rg !! id = None /\ p = rg_next rg /\ extended rg rg' id
  | Returned (Unexpected _, rg') => rg' = rg /\ rg_entries rg !! id = None
  | Threw e => exists errno, e = system_error errno
  end).
Proof.
  unfold Registry.get_shm_entry, Registry.open_shm, Registry.create_shm. destruct (rg_entries rg !! id) as [p|] eqn:E; [by left|].
  eapply wp_step; [apply (locked_get_ok rg id _ (fun _ _ => True)); eapply wp_mono; [|apply open_map_ok]; by intros [?|?] t; naive_solver| |done].
  intros [[p|e] rg'] t (_ & y & t2 & _ & _ & _ & H); cbn [wp]; [right; naive_solver|]. destruct H as [-> _]. rewrite E.
  eapply wp_mono; [|apply (locked_get_ok rg id _ (fun _ _ => True)); eapply wp_mono; [|apply create_map_ok]; by intros [?|?] t'; naive_solver].
  intros [[[p|e'] rg']|e'] t'; [|naive_solver..]. intros (_ & y' & t2' & _ & _ & _ & H). right. naive_solver.
Qed.

(** Where the size of a new entry comes from: the file that was found, or the request. *)
Definition size_from (name : string) (size : Z) (t : history) (n : Z) : Prop :=
  (exists write fd st, (Sys_shm_open name write false, Rval fd) ∈ t /\ (Sys_fstat fd, Rval st) ∈ t /\ n = u64 st) \/
  (exists page, (Sys_getpagesize, page) ∈ t /\ n = align_up size (u64 (rc page))).

Lemma open_map_size id am size : wp (mm_open_single moved_from id am) (fun x t =>
  match x with Returned (Expected m) => size_from id size t (mm_get_size m) | _ => True end).
Proof. destruct am; every_reply; try done; left; do 3 eexists; (split; [constructor|]); (split; [constructor 2; constructor|done]). Qed.

Lemma create_map_size id size : wp (mm_create_single moved_from id size) (fun x t =>
  match x with Returned (Expected m) => size_from id size t (mm_get_size m) | _ => True end).
Proof. every_reply; try done; right; eexists; (split; [constructor|done]). Qed.

Lemma size_from_mono name size t t' n : (forall P, Forall P t' -> Forall P t) -> size_from name size t n -> size_from name size t' n.
Proof.
  intros HP. assert (Hin : forall x, x ∈ t -> x ∈ t').
  { intros x Hx. assert (H : Forall (fun y => y ∈ t') t) by (apply HP, Forall_forall; done). by eapply (Forall_forall _ t) in H. }
  unfold size_from. intros [(wr & fd & st & H1 & H2 & ->)|(page & H1 & ->)]; [left|right]; eauto 10.
Qed.

Lemma size_from_app name size t t' n : size_from name size t n -> size_from name size (t ++ t') n.
Proof. apply size_from_mono. by intros P [? _]%Forall_app. Qed.
Lemma size_from_app_r name size t t' n : size_from name size t' n -> size_from name size (t ++ t') n.
Proof. apply size_from_mono. by intros P [_ ?]%Forall_app. Qed.

Lemma get_shm_entry_size rg id size : wp (get_shm_entry rg id size) (fun x t =>
  match x with
  | Returned (Expected p, rg') => rg_entries rg !! id = Some p \/ exists addr n, entry_segment rg' p = Some (addr, n) /\ size_from (shm_name id) size t n
  | _ => True
  end).
Proof.
  unfold Registry.get_shm_entry, Registry.open_shm, Registry.create_shm. destruct (rg_entries rg !! id) as [p|] eqn:E; [by left|].
  set (G := fun (x : result (expected mapped_memory error_code)) t => match x with Returned (Expected m) => size_from (shm_name id) size t (mm_get_size m) | _ => True end).
  assert (Hseg : forall p rg' y t t2, G y t2 -> (forall P, Forall P t -> Forall P t2) ->
    (exists m, y = Returned (Expected m) /\ entry_segment rg' p = Some (mm_addr m, mm_get_size m)) ->
    exists addr n, entry_segment rg' p = Some (addr, n) /\ size_from (shm_name id) size t n).
  { intros p rg' y t t2 HG HP (m & -> & Hm). do 2 eexists. split; [exact Hm|]. by eapply size_from_mono. }
  eapply wp_step; [apply (locked_get_ok rg id _ G);
    eapply wp_mono; [|exact (wp_and _ _ _ (open_map_ok _ _) (open_map_size (shm_name id) WRITE size))]; intros [?|?] t [H1 H2]; [by destruct H1|done]| |done].
  intros [[p|e] rg'] t (_ & y & t2 & HG & _ & HP & H); cbn [wp].
  - right. rewrite app_nil_r. destruct H as (_ & _ & H). by eapply Hseg.
  - destruct H as [-> _]. rewrite E. eapply wp_mono; [|apply (locked_get_ok rg id _ G);
      eapply wp_mono; [|exact (wp_and _ _ _ (create_map_ok _ _) (create_map_size (shm_name id) size))]; intros [?|?] t' [H1 H2]; [by destruct H1|done]].
    intros [[[p|e'] rg']|e'] t'; [|done..]. intros (_ & y' & t2' & HG' & _ & HP' & _ & _ & H). right.
    destruct (Hseg p rg' y' t' t2' HG' HP' H) as (addr & n & Hs & Hf). exists addr, n. split; [done|]. by apply size_from_app_r.
Qed.

(** A segment got with the default size was there before: one of no bytes cannot be mapped. *)
Definition found_in (name : string) (t : history) : Prop := exists write fd, (Sys_shm_open name write false, Rval fd) ∈ t.

Lemma open_map_found id am : wp (mm_open_single moved_from id am) (fun x t =>
  match x with Returned (Expected _) => found_in id t | _ => True end).
Proof. destruct am; every_reply; try done; do 2 eexists; constructor. Qed.

Lemma get_shm_entry_found rg id : rg_entries rg !! id = None -> wp (get_shm_entry rg id 0) (fun x t => Forall posix_mmap t ->
  match x with Returned (Expected _, _) => found_in (shm_name id) t | _ => True end).
Proof.
  intros E. unfold Registry.get_shm_entry, Registry.open_shm, Registry.create_shm. rewrite E.
  set (G := fun (x : result (expected mapped_memory error_code)) t => match x with Returned (Expected m) => found_in (shm_name id) t | _ => True end).
  eapply wp_step; [apply (locked_get_ok rg id _ G);
    eapply wp_mono; [|exact (wp_and _ _ _ (open_map_ok _ _) (open_map_found (shm_name id) WRITE))]; intros [?|?] t [H1 H2]; [by destruct H1|done]| |done].
  intros [[p|e] rg'] t (_ & y & t2 & HG & _ & HP & H); cbn [wp].
  - intros _. rewrite app_nil_r. destruct H as (_ & _ & m & -> & _). destruct HG as (wr & fd & Hin). exists wr, fd.
    assert (Hall : Forall (fun x => x ∈ t) t2) by (apply HP, Forall_forall; done). by eapply (Forall_forall _ t2) in Hall.
  - destruct H as [-> _]. rewrite E. eapply wp_mono; [|apply (locked_get_ok rg id _ (fun x t => Forall posix_mmap t -> match x with Returned (Expected _) => False | _ => True end));
      eapply wp_mono; [|exact (wp_and _ _ _ (create_map_ok _ 0) (create_empty_fails _))]; intros [?|?] t' [H1 H2]; [by destruct H1|done]].
    intros [[[p|e'] rg']|e'] t'; [|done..]. intros (_ & y' & t2' & HF & _ & HP' & _ & _ & m & -> & _) [_ Hpos%HP'%HF]%Forall_app. done.
Qed.

(** C14 The registry is a cache.  On any operating system, when [get_shm_entry] returns
    an entry the registry is still well formed, the entry is the one of [id], entries
    of other ids and objects handed out before are untouched, and every later request
    for [id], of any size, returns the same entry without a system call.  When it
    returns an error the registry is unchanged, and all it throws is a system error of
    the file lock. *)
Theorem registry_is_a_cache (rg : registry) (id : string) (size : Z) (w : os) (h : history) :
  registry_ok rg ->
  match (prun w h (get_shm_entry rg id size)).1 with
  | Returned (Expected p, rg') =>
      registry_ok rg' /\ en_id <$> rg_heap rg' !! p = Some id /\
      (forall id', id' <> id -> rg_entries rg' !! id' = rg_entries rg !! id') /\
      (forall p', is_Some (rg_heap rg !! p') -> rg_heap rg' !! p' = rg_heap rg !! p') /\
      forall size' w' h', prun w' h' (get_shm_entry rg' id size') = (Returned (Expected p, rg'), [])
  | Returned (Unexpected _, rg') => rg' = rg
  | Threw e => exists errno, e = system_error errno
  end.
Proof.
  intros Hok. generalize (wp_sound _ _ w h (get_shm_entry_ok rg id size)). destruct (prun w h _) as [[[[p|e] rg']|e] t]; cbn [fst snd]; [|naive_solver..].
  assert (Hit : forall rg' p, rg_entries rg' !! id = Some p ->
    forall size' w' h', prun w' h' (get_shm_entry rg' id size') = (Returned (Expected p, rg'), [])).
  { intros rg1 q Hq size' w' h'. unfold Registry.get_shm_entry, Registry.open_shm. by rewrite Hq. }
  intros [(Hp & -> & _)|(Hn & -> & [m ->])].
  - split; [done|]. destruct (ro_entry rg Hok _ _ Hp) as (e & -> & <-). do 3 (split; [done|]). by apply Hit.
  - split; [apply (extended_ok rg _ id Hok); by eexists|]. cbn. rewrite lookup_insert_eq. split; [done|].
    split; [intros; by rewrite lookup_insert_ne|]. split; [|apply Hit; apply lookup_insert_eq].
    intros p' Hp'. apply (ro_next rg Hok) in Hp'. rewrite lookup_insert_ne; [done|lia].
Qed.

(** What a request for an unregistered id with the default size comes to. *)
Definition probed (id : string) (x : result (expected Z error_code * registry)) (t : history) : Prop :=
  match x with
  | Returned (Expected _, _) => keeps_names t
  | Returned (Unexpected _, _) => exists t1 t2, t = t1 ++ t2 /\ quiet t1 /\ keeps_names t1 /\ quiet t2 /\ 1 <= tally (unlinks (shm_name id)) t2
  | Threw e => exists errno, e = system_error errno
  end.

(** C21 Looking for a segment that is not there removes its name.  [get_shm_entry] of an
    id that is not registered either opens the segment and removes no name, or finds
    none: then it has given the file lock back before it goes on to create the
    segment, and that first removes the name, in the meantime possibly given to the
    segment of another process.  With the default size, as an observer calls it while
    it waits for its notifier, the creation always fails, so that the name is gone
    when the call returns.  That holds for every operating system whose [mmap] refuses a
    length of 0 and maps inside the address space, as POSIX says. *)
Theorem registry_probe_removes_name (rg : registry) (id : string) (w : os) (h : history) :
  rg_entries rg !! id = None -> Forall posix_mmap (prun w h (get_shm_entry rg id 0)).2 ->
  probed id (prun w h (get_shm_entry rg id 0)).1 (prun w h (get_shm_entry rg id 0)).2.
Proof.
  intros E. apply (wp_sound _ (fun x t => Forall posix_mmap t -> probed id x t)).
  unfold Registry.get_shm_entry, Registry.open_shm, Registry.create_shm. rewrite E.
  eapply wp_step; [apply (locked_get_ok rg id _ (fun _ => keeps_names)); eapply wp_mono; [|apply open_map_ok]; intros [?|?] t H; exact H| |by intros e t ? _].
  intros [[p|e] rg'] t (Hq & y & t2 & Hk & Hu & _ & Hr); cbn [wp].
  - rewrite app_nil_r. intros _ path. by rewrite Hu.
  - destruct Hr as [-> _]. rewrite E. eapply wp_mono; [|apply (locked_get_ok rg id _ (fun x t => 1 <= tally (unlinks (shm_name id)) t /\
      (Forall posix_mmap t -> match x with Returned (Expected _) => False | _ => True end)));
      eapply wp_mono; [|exact (wp_and _ _ _ (create_map_ok _ 0) (create_empty_fails _))]; by intros [?|?] t'; naive_solver].
    intros [[[p|e'] rg']|e'] t'; [| |done].
    + intros (Hq' & y' & t2' & (_ & HF) & _ & HP & _ & _ & m & -> & _). intros [_ Hpos%HP%HF]%Forall_app. done.
    + intros (Hq' & y' & t2' & (Hle & _) & Hu' & _) _. exists t, t'. split; [done|]. split; [done|].
      split; [intros path; by rewrite Hu|]. split; [done|]. by rewrite Hu'.
Qed.


(** Joining the runtime resets it.  When [initialize_runtime] gets the global segment,
    made by it or found, the process-wide allocator is at the address of the mapping,
    and on the first call of the process the memory there is a pool with no block
    handed out, whatever pool other processes were using in the segment; on a later
    call the memory is left alone.  When it gets no segment, allocator and memory are
    unchanged. *)
Theorem runtime_join_resets_pool (rg : registry) (first : bool) (f : factory) (size : Z) (w : os) (h : history) :
  registry_ok rg ->
  match (prun w h (initialize_runtime moved_from tmp rg first f size)).1 with
  | Returned (e, rg', f') =>
      registry_ok rg' /\
      ((exists p addr bytes, rg_entries rg' !! "global"%string = Some p /\ entry_segment rg' p = Some (addr, bytes) /\ e = no_error /\
          fa_singleton f' = addr /\
          (if first then fa_memory f' = <[addr := pool_construct bytes]> (fa_memory f) else fa_memory f' = fa_memory f)) \/
       rg' = rg /\ f' = f)
  | Threw e => exists errno, e = system_error errno
  end.
Proof.
  intros Hok. apply (wp_sound _ (fun x t => match x with Returned (e, rg', f') => _ | Threw e => _ end)). unfold initialize_runtime.
  eapply wp_step; [apply get_shm_entry_ok| |by intros e t ?].
  assert (Hs : forall rg' p, registry_ok rg' -> rg_entries rg' !! "global"%string = Some p -> exists addr bytes, entry_segment rg' p = Some (addr, bytes)).
  { intros rg' p [H _] (e & He & _)%H. unfold entry_segment. rewrite He. cbn. eauto. }
  intros [[p|e] rg'] t H; cbn [wp].
  - assert (Hok' : registry_ok rg' /\ rg_entries rg' !! "global"%string = Some p).
    { destruct H as [(Hp & -> & _)|(_ & -> & He)]; [done|]. split; [by eapply extended_ok|]. destruct He as [m ->]. cbn. apply lookup_insert_eq. }
    destruct Hok' as [Hok' Hp]. destruct (Hs _ _ Hok' Hp) as (addr & bytes & E). rewrite E. cbn [wp]. split; [done|]. left.
    exists p, addr, bytes. do 3 (split; [done|]). split; [done|]. destruct first; done.
  - destruct H as [-> _]. split; [done|]. by right.
Qed.
End registry_proofs.

(** * The counter of the atomic notifier *)

(** The values of the counter after each of a sequence of notifications. *)
Fixpoint counters (v : Z) (adds : list Z) : list Z :=
  match adds with [] => [] | a :: adds => let v' := notify_observers v a in v' :: counters v' adds end.

(** The sum of the first [k] notifications. *)
Definition total (k : nat) (adds : list Z) : Z := zsum id (take k adds).

Lemma u64_shift_same v s : 0 <= v < 2 ^ 64 -> u64 (v + s) = v <-> u64 s = 0.
Proof.
  intros Hv. unfold wrap. split; intros H.
  - replace s with (v + s - v) by lia. rewrite Zminus_mod, H, (Z.mod_small v) by lia. by rewrite Z.sub_diag.
  - rewrite Z.add_mod, H, Z.add_0_r, Z.mod_mod, Z.mod_small by lia. done.
Qed.

Lemma receive_counters last : 0 <= last < 2 ^ 64 -> forall adds s, u64 s = 0 ->
  match receive_loop last (counters (u64 (last + s)) adds) with
  | Some v => exists k, (0 < k <= length adds)%nat /\ v = u64 (last + (s + total k adds)) /\ u64 (s + total k adds) <> 0 /\
      forall j, (j < k)%nat -> u64 (s + total j adds) = 0
  | None => forall j, (j <= length adds)%nat -> u64 (s + total j adds) = 0
  end.
Proof.
  intros Hl. induction adds as [|a adds IH]; intros s Hs; cbn [counters receive_loop length].
  { intros j Hj. assert (j = O) as -> by lia. cbn. by rewrite Z.add_0_r. }
  assert (H0 : u64 (s + total 0 (a :: adds)) = 0) by (cbn; by rewrite Z.add_0_r).
  assert (HS : forall j, total (S j) (a :: adds) = a + total j adds) by done.
  assert (Hn : notify_observers (u64 (last + s)) a = u64 (last + (s + a))).
  { unfold notify_observers, wrap. rewrite Z.add_mod_idemp_l by lia. f_equal. lia. }
  rewrite Hn. destruct (u64 (last + (s + a)) =? last) eqn:E.
  - apply Z.eqb_eq in E. apply u64_shift_same in E; [|done]. specialize (IH (s + a) E). destruct (receive_loop _ _).
    + destruct IH as (k & Hk & -> & Hne & Hj). exists (S k). rewrite HS, !Z.add_assoc, <- (Z.add_assoc last s a). split; [lia|]. split; [done|].
      split; [done|]. intros [|j] Hlt; [done|]. rewrite HS, Z.add_assoc. apply Hj. lia.
    + intros [|j] Hlt; [done|]. rewrite HS, Z.add_assoc. apply IH. lia.
  - apply Z.eqb_neq in E. exists 1%nat. rewrite HS. change (total 0 adds) with 0. rewrite Z.add_0_r. split; [lia|]. split; [done|].
    split; [by rewrite <- (u64_shift_same last)|]. intros [|j] ?; [done|lia].
Qed.

(** C31 The atomic notifier wakes its observer.  An observer that has seen the counter at
    its last value and then looks at it after each notification returns at the first one after
    which the notifications do not add up to 0 modulo 2^64, with the value of the
    counter then, which becomes its last value (nothing else of it changes); it goes on
    waiting as long as they do. *)
Theorem atomic_notifier_wakes (o : atomic_observer) (adds : list Z) : let last := ao_last_value o in 0 <= last < 2 ^ 64 ->
  match observer_receive o (counters last adds) with
  | Some (v, o') => (exists k, (0 < k <= length adds)%nat /\ v = u64 (last + total k adds) /\ u64 (total k adds) <> 0 /\
      forall j, (j < k)%nat -> u64 (total j adds) = 0) /\
      ao_last_value o' = v /\ ao_topic o' = ao_topic o /\ ao_value o' = ao_value o
  | None => forall j, (j <= length adds)%nat -> u64 (total j adds) = 0
  end.
Proof.
  intros last Hl. generalize (receive_counters last Hl adds 0 eq_refl). rewrite Z.add_0_r, (wrap_small 64 last) by done.
  unfold observer_receive. fold last. by destruct (receive_loop last (counters last adds)).
Qed.

(** An observer created in the process that runs the notifier of its topic finds the
    segment at the first attempt, on any operating system and without a call, at the
    notifier's address, and starts from the value the counter has. *)
Theorem observer_joins_notifier (moved_from : string -> string) (tmp : string) (rg : registry) (topic_id : string)
    (w w' : os) (h h' : history) (polls : nat) (memory : Z -> Z) :
  registry_ok rg -> (0 < polls)%nat ->
  match (prun w h (notifier_create moved_from tmp rg topic_id)).1 with
  | Returned (Expected n, rg') =>
      prun w' h' (observer_create moved_from tmp polls memory rg' topic_id) =
      (Returned (Some {| ao_topic := an_topic n; ao_value := an_value n; ao_last_value := memory (an_value n) |}, rg'), [])
  | _ => True
  end.
Proof.
  intros Hok Hp. destruct polls as [|polls]; [lia|].
  apply (wp_sound _ (fun x _ => match x with Returned (Expected n, rg') =>
    prun w' h' (observer_create moved_from tmp (S polls) memory rg' topic_id) =
      (Returned (Some {| ao_topic := an_topic n; ao_value := an_value n; ao_last_value := memory (an_value n) |}, rg'), []) | _ => True end)).
  unfold notifier_create. eapply wp_step; [apply get_shm_entry_ok| |done]. intros [[p|e] rg'] t H; cbn [wp]; [|done].
  assert (E : rg_entries rg' !! topic_id = Some p) by (destruct H as [(Hq & -> & _)|(_ & -> & [m ->])]; [done|cbn; apply lookup_insert_eq]).
  cbn [observer_create]. unfold get_shm_entry, open_shm. by rewrite E.
Qed.

(** * Concrete runs *)

Lemma empty_registry_ok : registry_ok empty_registry.
Proof. split; [by intros id p H|by intros p [x H]]. Qed.

(** A system without shared memory segments that refuses empty mappings. *)
Definition bare_os : os := fun _ c =>
  match c with
  | Sys_getpagesize => Rval 4096
  | Sys_shm_open _ _ false => Rerr 2
  | Sys_mmap _ l _ _ _ _ _ => if l =? 0 then Rerr 22 else Rval 65536
  | _ => Rval 3
  end.

Definition demo_get (size : Z) : result (expected Z error_code * registry) * history :=
  prun bare_os [] (get_shm_entry id "/tmp"%string empty_registry "t"%string size).

Lemma registry_is_a_cache_witness :
  match (demo_get 8).1 with
  | Returned (Expected p, rg') => p = 0 /\ registry_ok rg' /\ en_id <$> rg_heap rg' !! p = Some "t"%string
  | _ => False
  end.
Proof.
  assert (E : exists rg', (demo_get 8).1 = Returned (Expected 0, rg')) by (eexists; vm_compute; reflexivity).
  destruct E as [rg' E]. rewrite E.
  pose proof (registry_is_a_cache id "/tmp"%string empty_registry "t"%string 8 bare_os [] empty_registry_ok) as H.
  unfold demo_get in E. rewrite E in H. destruct H as (Hok & Hid & _). exact (conj eq_refl (conj Hok Hid)).
Defined.

Lemma registry_probe_removes_name_witness :
  (exists e, (demo_get 0).1 = Returned (Unexpected e, empty_registry)) /\ 1 <= tally (unlinks "/t.shm"%string) (demo_get 0).2 /\
  probed "t"%string (demo_get 0).1 (demo_get 0).2.
Proof.
  split; [eexists; vm_compute; reflexivity|]. split; [by vm_compute|].
  apply (registry_probe_removes_name id "/tmp"%string empty_registry "t"%string bare_os []); [done|].
  assert (E : exists t, (demo_get 0).2 = t /\ Forall posix_mmap t) by (eexists; split; [vm_compute; reflexivity|by repeat constructor]).
  destruct E as (t & <- & H). exact H.
Defined.

Lemma runtime_join_resets_pool_witness :
  exists rg' f', (prun bare_os [] (initialize_runtime id "/tmp"%string empty_registry true {| fa_singleton := 0; fa_memory := ∅ |} 4096)).1 =
    Returned (no_error, rg', f') /\ registry_ok rg'.
Proof.
  assert (E : exists rg' f', (prun bare_os [] (initialize_runtime id "/tmp"%string empty_registry true {| fa_singleton := 0; fa_memory := ∅ |} 4096)).1 =
    Returned (no_error, rg', f')) by (do 2 eexists; vm_compute; reflexivity).
  destruct E as (rg' & f' & E). exists rg', f'. split; [exact E|].
  pose proof (runtime_join_resets_pool id "/tmp"%string empty_registry true {| fa_singleton := 0; fa_memory := ∅ |} 4096 bare_os []
    empty_registry_ok) as H. rewrite E in H. exact (proj1 H).
Defined.

Lemma atomic_notifier_wakes_witness :
  let o := {| ao_topic := 0; ao_value := 4096; ao_last_value := 7 |} in
  observer_receive o (counters 7 [0; 2 ^ 64; 5; 1]) = Some (12, {| ao_topic := 0; ao_value := 4096; ao_last_value := 12 |}) /\
  exists k, (0 < k <= 4)%nat /\ 12 = u64 (7 + total k [0; 2 ^ 64; 5; 1]) /\ u64 (total k [0; 2 ^ 64; 5; 1]) <> 0 /\
    forall j, (j < k)%nat -> u64 (total j [0; 2 ^ 64; 5; 1]) = 0.
Proof. intros o. split; [done|]. exact (proj1 (atomic_notifier_wakes o [0; 2 ^ 64; 5; 1] ltac:(cbn; lia))). Defined.
