(* ===== verification/Guards.v ===== *)
(** Small building blocks: [stl/optional.h], [utils/reference_counted.h],
    [utils/synchronized.h], [utils/string_identifier.h] and [utils/io.h].

    [optional] and [reference_counted] are modelled with the lifetime of the object
    they hold, [synchronized] as the steps of threads that share it. *)
From S2P Require Import Prelude Numeric.

(** * optional *)

(** [bytes] is what the storage reads as, [alive] tells whether an object has been
    constructed there. *)
(* @source include/ipcpp/stl/optional.h 65-67 optional *)
Record optional (A : Type) : Type := { op_has_value : bool; op_bytes : A; op_alive : bool }.
Arguments op_has_value {A} o.
Arguments op_bytes {A} o.
Arguments op_alive {A} o.

Section optional.
Context {A : Type} (trivially_destructible trivially_copyable trivially_default_constructible : bool).
(** What [T()] constructs, and what moving an object leaves of it. *)
Context (value_init : A) (moved_from : A -> A).

(** [junk]: what is in the memory before. *)
(* @source include/ipcpp/stl/optional.h 18-19 optional::optional *)
Definition opt_empty (junk : A) : optional A := {| op_has_value := false; op_bytes := junk; op_alive := false |}.

(* @source include/ipcpp/stl/optional.h 24-27 optional::optional(args) *)
Definition opt_construct (v : A) : optional A := {| op_has_value := true; op_bytes := v; op_alive := true |}.

(** [destroy_at] needs an object. *)
(* @source include/ipcpp/stl/optional.h 31-38 optional::reset *)
Definition opt_reset (o : optional A) : outcome (optional A) :=
  if negb trivially_destructible then
    if op_has_value o then
      _ ← require (op_alive o);
      Ok {| op_has_value := false; op_bytes := op_bytes o; op_alive := false |}
    else Ok o
  else Ok o.

(* @source include/ipcpp/stl/optional.h 29-29 optional::~optional *)
Definition opt_destroy (o : optional A) : outcome (optional A) := opt_reset o.

(** [args]: the value they construct; [None]: no arguments. *)
(* @source include/ipcpp/stl/optional.h 41-50 optional::emplace *)
Definition opt_emplace (args : option A) (o : optional A) : outcome (optional A) :=
  o ← opt_reset o;
  match args with
  | None => Ok {| op_has_value := true;
                  op_bytes := if trivially_default_constructible then op_bytes o else value_init; op_alive := true |}
  | Some v => Ok {| op_has_value := true; op_bytes := v; op_alive := true |}
  end.

(* @source include/ipcpp/stl/optional.h 52-53 optional::has_value *)
Definition opt_has_value (o : optional A) : bool := op_has_value o.

(* @source include/ipcpp/stl/optional.h 55-62 optional::value *)
Definition opt_value (o : optional A) : A := op_bytes o.

(** Constructing another object from what is in the storage. *)
Definition opt_read (o : optional A) : outcome A := _ ← require (op_alive o || trivially_copyable); Ok (opt_value o).

(* @source include/ipcpp/stl/optional.h 21-21 optional::optional(const_optional) *)
Definition opt_copy_construct (junk : A) (other : optional A) : outcome (optional A) :=
  let self := {| op_has_value := op_has_value other; op_bytes := junk; op_alive := false |} in
  v ← opt_read other; opt_emplace (Some v) self.

(** The new object and what is left of [other]. *)
(* @source include/ipcpp/stl/optional.h 22-22 optional::optional(optional) *)
Definition opt_move_construct (junk : A) (other : optional A) : outcome (optional A * optional A) :=
  let self := {| op_has_value := op_has_value other; op_bytes := junk; op_alive := false |} in
  v ← opt_read other; self ← opt_emplace (Some v) self;
  Ok (self, {| op_has_value := op_has_value other; op_bytes := moved_from v; op_alive := op_alive other |}).

(** What a user sees, and the flag telling the truth about the storage. *)
Definition opt_view (o : optional A) : option A := if opt_has_value o then Some (opt_value o) else None.
Definition opt_wf (o : optional A) : Prop := op_has_value o = op_alive o.

Lemma opt_reset_wf o : trivially_destructible = false -> opt_wf o -> exists o', opt_reset o = Ok o' /\ opt_wf o' /\ opt_view o' = None.
Proof.
  intros Htd Hwf. unfold opt_reset, opt_wf, opt_view, opt_has_value in *. rewrite Htd. cbn. destruct (op_has_value o) eqn:E.
  - rewrite <- Hwf. by eexists.
  - exists o. rewrite E. done.
Qed.

(** [optional] behaves like an option for types with a destructor: constructing,
    emplacing, resetting and destroying keep the flag and the storage in step and never
    destroy what is not there. *)
Theorem optional_life_cycle (o : optional A) (junk v : A) (args : option A) : trivially_destructible = false -> opt_wf o ->
  (opt_wf (opt_empty junk) /\ opt_view (opt_empty junk) = None) /\
  (opt_wf (opt_construct v) /\ opt_view (opt_construct v) = Some v) /\
  (exists o', opt_reset o = Ok o' /\ opt_wf o' /\ opt_view o' = None) /\
  (exists o', opt_emplace args o = Ok o' /\ opt_wf o' /\ is_Some (opt_view o') /\ forall a, args = Some a -> opt_view o' = Some a) /\
  exists o', opt_destroy o = Ok o' /\ op_alive o' = false.
Proof.
  intros Htd Hwf. destruct (opt_reset_wf o Htd Hwf) as (o' & E & Hwf' & Hv). do 2 (split; [done|]). split; [by exists o'|].
  split.
  - unfold opt_emplace. rewrite E. cbn. destruct args; eexists; (split; [done|]); (split; [done|]); (split; [by eexists|]); naive_solver.
  - exists o'. split; [done|]. unfold opt_wf, opt_view, opt_has_value in *. rewrite <- Hwf'. by destruct (op_has_value o').
Qed.

(** Copying an optional goes wrong.  The flag is copied before the object: for a
    type with a destructor, copying or moving an optional that holds a value destroys
    storage in which nothing has been constructed; for a type without one, a copy
    of an empty optional holds a value, the bytes that were there, and [reset] does
    nothing. *)
Theorem optional_copy_wrong (junk : A) (other : optional A) : opt_wf other ->
  (trivially_destructible = false -> opt_has_value other = true ->
     opt_copy_construct junk other = UB /\ opt_move_construct junk other = UB) /\
  (trivially_destructible = true -> trivially_copyable = true ->
     opt_reset other = Ok other /\ opt_copy_construct junk other = Ok (opt_construct (op_bytes other))).
Proof.
  intros Hwf. unfold opt_copy_construct, opt_move_construct, opt_read, opt_emplace, opt_reset, opt_wf, opt_has_value in *. split.
  - intros -> Hv. rewrite Hv in *. rewrite <- Hwf. done.
  - intros -> ->. split; [done|]. by rewrite orb_true_r.
Qed.
End optional.

(** * reference_counted *)
(* @source include/ipcpp/utils/reference_counted.h 92-93 reference_counted *)
Record reference_counted (A : Type) : Type := { rc_data : option A; rc_remaining_accesses : Z }.
Arguments rc_data {A} r.
Arguments rc_remaining_accesses {A} r.

Section reference_counted.
Context {A : Type}.

(* @source include/ipcpp/utils/reference_counted.h 53-57 reference_counted::reference_counted *)
Definition rc_construct (data : A) (max_num_accesses : Z) : reference_counted A :=
  {| rc_data := Some data; rc_remaining_accesses := max_num_accesses |}.
(* @source include/ipcpp/utils/reference_counted.h 59-59 reference_counted::reference_counted() *)
Definition rc_empty : reference_counted A := {| rc_data := None; rc_remaining_accesses := 0 |}.

(* @source include/ipcpp/utils/reference_counted.h 24-27 data_access::data_access *)
Definition access_construct (r : reference_counted A) : outcome unit := require (bool_decide (is_Some (rc_data r))).

(* @source include/ipcpp/utils/reference_counted.h 28-32 data_access::~data_access *)
Definition access_destroy (r : reference_counted A) : reference_counted A :=
  {| rc_data := if (rc_remaining_accesses r =? 1)%Z then None else rc_data r;
     rc_remaining_accesses := u64 (rc_remaining_accesses r - 1) |}.

(* @source include/ipcpp/utils/reference_counted.h 34-46 data_access::operator-> *)
Definition access_value (r : reference_counted A) : outcome A := must (rc_data r).

(** Whether there is an access, and the state.  The returned object is a copy of the
    temporary, which is destroyed when the function returns: the class has a destructor
    and therefore no move. *)
(* @source include/ipcpp/utils/reference_counted.h 71-76 reference_counted::consume *)
Definition rc_consume (r : reference_counted A) : outcome (bool * reference_counted A) :=
  match rc_data r with
  | Some _ => _ ← access_construct r; Ok (true, access_destroy r)
  | None => Ok (false, r)
  end.

(* @source include/ipcpp/utils/reference_counted.h 78-78 reference_counted::reset *)
Definition rc_reset (r : reference_counted A) : reference_counted A :=
  {| rc_data := None; rc_remaining_accesses := rc_remaining_accesses r |}.

(* @source include/ipcpp/utils/reference_counted.h 80-85 reference_counted::emplace *)
Definition rc_emplace (remaining_accesses : Z) (v : A) (r : reference_counted A) : reference_counted A :=
  {| rc_data := Some v; rc_remaining_accesses := remaining_accesses |}.

(* @source include/ipcpp/utils/reference_counted.h 90-90 reference_counted::remaining_accesses *)
Definition rc_remaining (r : reference_counted A) : Z := rc_remaining_accesses r.

(** A reader: it consumes, reads and lets its access go. *)
Definition read_once (r : reference_counted A) : outcome (option A * reference_counted A) :=
  '(b, r) ← rc_consume r;
  if b : bool then v ← access_value r; Ok (Some v, access_destroy r) else Ok (None, r).

Fixpoint read_times (n : nat) (r : reference_counted A) : outcome (list (option A) * reference_counted A) :=
  match n with
  | O => Ok ([], r)
  | S n => '(v, r) ← read_once r; '(vs, r) ← read_times n r; Ok (v :: vs, r)
  end.

Lemma read_times_app n m r : read_times (n + m) r =
  '(vs, r) ← read_times n r; '(ws, r) ← read_times m r; Ok (vs ++ ws, r).
Proof.
  revert r. induction n as [|n IH]; intros r; cbn [read_times Nat.add mbind outcome_bind].
  { destruct (read_times m r) as [[? ?]| |]; done. }
  destruct (read_once r) as [[v r']| |]; cbn; [|done..]. rewrite IH. destruct (read_times n r') as [[vs r'']| |]; cbn; [|done..].
  destruct (read_times m r'') as [[? ?]| |]; done.
Qed.

Lemma read_pairs (m : nat) : forall r v n, rc_data r = Some v -> rc_remaining_accesses r = n -> 2 * Z.of_nat m < n < 2 ^ 64 ->
  read_times m r = Ok (repeat (Some v) m, {| rc_data := Some v; rc_remaining_accesses := n - 2 * Z.of_nat m |}).
Proof.
  induction m as [|m IH]; intros [d k] v n Hd Hn Hb; cbn [rc_data rc_remaining_accesses] in *; subst d k.
  { cbn. do 3 f_equal. lia. }
  cbn [read_times]. unfold read_once, rc_consume, access_construct, access_destroy, access_value. cbn [rc_data rc_remaining_accesses mbind outcome_bind].
  rewrite bool_decide_true by (by eexists). cbn. rewrite (proj2 (Z.eqb_neq n 1)) by lia. cbn.
  rewrite (wrap_small 64 (n - 1)) by lia. rewrite (proj2 (Z.eqb_neq (n - 1) 1)) by lia.
  rewrite (IH _ v (n - 2)); cbn; [|done|rewrite wrap_small; lia|lia]. do 3 f_equal. lia.
Qed.

(** Every reader uses up two accesses, so that an object made for [max_num_accesses]
    readers serves half of them.  For an even number the value is destroyed after
    [max_num_accesses / 2] readers and later ones are turned away; for an odd number the
    next reader is given access to a value that has just been destroyed. *)
Theorem reference_counted_serves_half (v : A) (m : nat) : 0 < Z.of_nat m -> 2 * Z.of_nat m + 1 < 2 ^ 64 ->
  (forall k, exists r', read_times (m + k) (rc_construct v (2 * Z.of_nat m)) = Ok (repeat (Some v) m ++ repeat None k, r') /\
     rc_data r' = None /\ rc_remaining r' = 0) /\
  (exists r', read_times m (rc_construct v (2 * Z.of_nat m + 1)) = Ok (repeat (Some v) m, r') /\ rc_remaining r' = 1) /\
  read_times (S m) (rc_construct v (2 * Z.of_nat m + 1)) = UB.
Proof.
  intros Hm Hb. split; [|split].
  - intros k. exists rc_empty. split; [|done]. destruct m as [|m]; [lia|].
    replace (S m + k)%nat with (m + (1 + k))%nat by lia. rewrite read_times_app, (read_pairs m _ v (2 * Z.of_nat (S m))) by (done || lia).
    replace (2 * Z.of_nat (S m) - 2 * Z.of_nat m) with 2 by lia. cbn [mbind outcome_bind].
    rewrite (read_times_app 1 k). cbn. assert (E : read_times k rc_empty = Ok (repeat None k, rc_empty)).
    { induction k as [|k IH]; [done|]. cbn. by rewrite IH. }
    change (access_destroy (access_destroy {| rc_data := Some v; rc_remaining_accesses := 2 |})) with rc_empty.
    rewrite E. cbn. by rewrite app_comm_cons, repeat_cons, <- app_assoc.
  - eexists. split; [apply (read_pairs m _ v (2 * Z.of_nat m + 1)); done || lia|]. cbn. lia.
  - replace (S m) with (m + 1)%nat by lia. rewrite read_times_app, (read_pairs m _ v (2 * Z.of_nat m + 1)) by (done || lia).
    replace (2 * Z.of_nat m + 1 - 2 * Z.of_nat m) with 1 by lia. done.
Qed.
End reference_counted.

(** * synchronized *)

(** [std::shared_mutex]: who owns it exclusively, and who shares it. *)
Record std_shared_mutex : Type := { sm_owner : option nat; sm_shared : gset nat }.

(** [None]: the thread has to wait. *)
Definition std_lock (i : nat) (m : std_shared_mutex) : option std_shared_mutex :=
  match sm_owner m with
  | Some _ => None
  | None => if decide (sm_shared m = ∅) then Some {| sm_owner := Some i; sm_shared := ∅ |} else None
  end.
Definition std_lock_shared (i : nat) (m : std_shared_mutex) : option std_shared_mutex :=
  match sm_owner m with
  | Some _ => None
  | None => Some {| sm_owner := None; sm_shared := {[ i ]} ∪ sm_shared m |}
  end.
Definition std_unlock (m : std_shared_mutex) : std_shared_mutex := {| sm_owner := None; sm_shared := sm_shared m |}.
Definition std_unlock_shared (i : nat) (m : std_shared_mutex) : std_shared_mutex :=
  {| sm_owner := sm_owner m; sm_shared := sm_shared m ∖ {[ i ]} |}.

(* @source include/ipcpp/utils/synchronized.h 183-194 LockedPtrAccess::LockedPtrAccess *)
Definition access_lock (is_shared_lock : bool) (i : nat) (m : std_shared_mutex) : option std_shared_mutex :=
  if is_shared_lock then std_lock_shared i m else std_lock i m.

(* @source include/ipcpp/utils/synchronized.h 196-203 LockedPtrAccess::~LockedPtrAccess *)
Definition access_unlock (is_shared_lock : bool) (i : nat) (m : std_shared_mutex) : std_shared_mutex :=
  if is_shared_lock then std_unlock_shared i m else std_unlock m.

Section synchronized.
(** The data, and what the callbacks return. *)
Context {T R : Type}.

(** What a thread does: [with_write_lock] of a callback that changes the data, or
    [with_read_lock] of one that only looks at it. *)
Inductive sync_op : Type := WithWriteLock (f : T -> T * R) | WithReadLock (f : T -> R).

(** Where it is: before the lock, inside without having looked at the data, with the
    data it has looked at, done with it, and after the unlock. *)
Inductive sync_pc : Type := Outside | Entered | Loaded (d : T) | Leaving (r : R) | Finished (r : R).

(** [sy_log]: the threads in the order in which their callbacks took effect, with their results. *)
(* @source include/ipcpp/utils/synchronized.h 153-154 synchronized *)
Record synchronized : Type := {
  sy_data : T;
  sy_mutex : std_shared_mutex;
  sy_pcs : gmap nat (sync_op * sync_pc);
  sy_log : list (nat * (sync_op * R))
}.

Definition is_reader (o : sync_op) : bool := match o with WithReadLock _ => true | _ => false end.

Definition set_pc (i : nat) (o : sync_op) (p : sync_pc) (s : synchronized) : synchronized :=
  {| sy_data := sy_data s; sy_mutex := sy_mutex s; sy_pcs := <[i := (o, p)]> (sy_pcs s); sy_log := sy_log s |}.

Definition set_mutex (m : std_shared_mutex) (s : synchronized) : synchronized :=
  {| sy_data := sy_data s; sy_mutex := m; sy_pcs := sy_pcs s; sy_log := sy_log s |}.

(** The callback on the data it has looked at. *)
Definition apply_op (o : sync_op) (d : T) : T * R := match o with WithWriteLock f => f d | WithReadLock f => (d, f d) end.

(** Its effect: a reader does not write the data back. *)
Definition commit (i : nat) (o : sync_op) (d : T) (s : synchronized) : synchronized :=
  {| sy_data := if is_reader o then sy_data s else (apply_op o d).1; sy_mutex := sy_mutex s; sy_pcs := sy_pcs s;
     sy_log := sy_log s ++ [(i, (o, (apply_op o d).2))] |}.

(** One step of a thread; the callback reads and writes the data in two steps. *)
(* @source include/ipcpp/utils/synchronized.h 78-117 synchronized::with_write_lock,with_read_lock *)
Definition sync_step (i : nat) (s : synchronized) : option synchronized :=
  '(o, p) ← sy_pcs s !! i;
  match p with
  | Outside => m ← access_lock (is_reader o) i (sy_mutex s); Some (set_pc i o Entered (set_mutex m s))
  | Entered => Some (set_pc i o (Loaded (sy_data s)) s)
  | Loaded d => Some (set_pc i o (Leaving (apply_op o d).2) (commit i o d s))
  | Leaving r => Some (set_pc i o (Finished r) (set_mutex (access_unlock (is_reader o) i (sy_mutex s)) s))
  | Finished _ => None
  end.

Fixpoint sync_run (schedule : list nat) (s : synchronized) : option synchronized :=
  match schedule with
  | [] => Some s
  | i :: schedule => s' ← sync_step i s; sync_run schedule s'
  end.

Definition sync_start (d : T) (ops : list sync_op) : synchronized :=
  {| sy_data := d; sy_mutex := {| sm_owner := None; sm_shared := ∅ |};
     sy_pcs := map_seq 0 ((fun o => (o, Outside)) <$> ops); sy_log := [] |}.

(** The specification: the callbacks one after the other, from [d] to [d']. *)
Fixpoint sequential (l : list (sync_op * R)) (d d' : T) : Prop :=
  match l with
  | [] => d' = d
  | (o, r) :: l => r = (apply_op o d).2 /\ sequential l (apply_op o d).1 d'
  end.

Lemma sequential_snoc l o d d' : sequential l d d' -> sequential (l ++ [(o, (apply_op o d').2)]) d (apply_op o d').1.
Proof. revert d. induction l as [|[o' r'] l IH]; intros d; cbn; [by intros ->|]. intros [-> H]. split; [done|]. by apply IH. Qed.

Definition inside (p : sync_pc) : bool := match p with Entered | Loaded _ | Leaving _ => true | _ => false end.
Definition result_of (p : sync_pc) : option R := match p with Leaving r | Finished r => Some r | _ => None end.

(** The threads and the lock agree, data that was looked at is current, and the log
    explains the data and the results. *)
Record sync_ok (d0 : T) (s : synchronized) : Prop := {
  so_owner : forall i, sm_owner (sy_mutex s) = Some i <-> exists o p, sy_pcs s !! i = Some (o, p) /\ is_reader o = false /\ inside p = true;
  so_shared : forall i, i ∈ sm_shared (sy_mutex s) <-> exists o p, sy_pcs s !! i = Some (o, p) /\ is_reader o = true /\ inside p = true;
  so_exclusive : is_Some (sm_owner (sy_mutex s)) -> sm_shared (sy_mutex s) = ∅;
  so_loaded : forall i o d, sy_pcs s !! i = Some (o, Loaded d) -> d = sy_data s;
  so_data : sequential (sy_log s).*2 d0 (sy_data s);
  so_nodup : NoDup (sy_log s).*1;
  so_log : forall i o r, (i, (o, r)) ∈ sy_log s <-> exists p, sy_pcs s !! i = Some (o, p) /\ result_of p = Some r
}.

Lemma pcs_insert (m : gmap nat (sync_op * sync_pc)) i o p p' (Q : sync_op -> sync_pc -> Prop) j : m !! i = Some (o, p) -> (Q o p <-> Q o p') ->
  (exists o' q, <[i := (o, p')]> m !! j = Some (o', q) /\ Q o' q) <-> (exists o' q, m !! j = Some (o', q) /\ Q o' q).
Proof.
  intros Hi HQ. destruct (decide (j = i)) as [->|Hne]; [|by rewrite lookup_insert_ne].
  rewrite lookup_insert_eq, Hi. split; intros (o' & q & [= <- <-] & H); eexists _, _; (split; [done|]); tauto.
Qed.

(** Two threads are inside at the same time only if both read. *)
Lemma sync_exclusion d0 s i j o o' p p' : sync_ok d0 s -> sy_pcs s !! i = Some (o, p) -> sy_pcs s !! j = Some (o', p') ->
  inside p = true -> inside p' = true -> is_reader o = false -> j = i.
Proof.
  intros [Ho Hs He _ _ _ _] Hi Hj Hp Hp' Hr. assert (H : sm_owner (sy_mutex s) = Some i) by (apply Ho; eauto).
  destruct (is_reader o') eqn:E.
  - assert (j ∈ sm_shared (sy_mutex s)) as Hin by (apply Hs; eauto). rewrite (He (ex_intro _ i H)) in Hin. set_solver.
  - assert (sm_owner (sy_mutex s) = Some j) as H' by (apply Ho; eauto). congruence.
Qed.

(** Entering and leaving: the pc of [i] and the lock change together. *)
Lemma sync_lock_ok d0 s i o p p' m : sync_ok d0 s -> sy_pcs s !! i = Some (o, p) ->
  inside p' = negb (inside p) -> result_of p' = result_of p -> (forall d, p' <> Loaded d) ->
  (forall j, sm_owner m = Some j <-> if decide (j = i) then is_reader o = false /\ inside p' = true else sm_owner (sy_mutex s) = Some j) ->
  (forall j, j ∈ sm_shared m <-> if decide (j = i) then is_reader o = true /\ inside p' = true else j ∈ sm_shared (sy_mutex s)) ->
  (is_Some (sm_owner m) -> sm_shared m = ∅) -> sync_ok d0 (set_pc i o p' (set_mutex m s)).
Proof.
  intros [Ho Hs He Hl Hd Hn Hlog] Hi Hin Hr Hp' Hmo Hms Hme. split; cbn; try done.
  - intros j. rewrite Hmo. destruct (decide (j = i)) as [->|Hne]; [|by rewrite Ho, lookup_insert_ne].
    rewrite lookup_insert_eq. naive_solver.
  - intros j. rewrite Hms. destruct (decide (j = i)) as [->|Hne]; [|by rewrite Hs, lookup_insert_ne].
    rewrite lookup_insert_eq. naive_solver.
  - intros j o' d [[-> [= <- ->]]|[_ H]]%lookup_insert_Some; [by edestruct Hp'|by eapply Hl].
  - intros j o' r. rewrite Hlog. destruct (decide (j = i)) as [->|Hne]; [|by rewrite lookup_insert_ne].
    rewrite lookup_insert_eq, Hi. split; intros (q & [= <- <-] & H); eexists; (split; [done|congruence]).
Qed.

Lemma sync_step_ok d0 s i s' : sync_ok d0 s -> sync_step i s = Some s' -> sync_ok d0 s'.
Proof.
  intros Hok. unfold sync_step. destruct (sy_pcs s !! i) as [[o p]|] eqn:Hi; [|done]. cbn.
  pose proof Hok as [Ho Hs He Hl Hd Hn Hlog].
  destruct p as [| |d|r|r]; cbn; [| | | |done].
  - destruct (access_lock _ _ _) as [m|] eqn:E; [|done]. intros [= <-]. unfold access_lock, std_lock, std_lock_shared in E.
    destruct (sm_owner (sy_mutex s)) eqn:Eo; [by destruct (is_reader o)|].
    destruct (is_reader o) eqn:Er; [|destruct (decide (sm_shared (sy_mutex s) = ∅)) as [E0|]; [|done]]; injection E as <-;
      apply (sync_lock_ok d0 s i o Outside); cbn; try done; intros j; rewrite ?Eo, ?Er, ?E0;
      try (intros ?); destruct (decide (j = i)); set_solver.
  - intros [= <-]. split; cbn; try done.
    + intros j. by rewrite Ho, (pcs_insert _ i o Entered _ _ j Hi).
    + intros j. by rewrite Hs, (pcs_insert _ i o Entered _ _ j Hi).
    + intros j o' d [[-> [= <- ->]]|[_ H]]%lookup_insert_Some; [done|by eapply Hl].
    + intros j o' r. rewrite Hlog. destruct (decide (j = i)) as [->|Hne]; [|by rewrite lookup_insert_ne].
      rewrite lookup_insert_eq, Hi. naive_solver.
  - intros [= <-]. pose proof (Hl _ _ _ Hi) as ->. split; cbn; try done.
    + intros j. by rewrite Ho, (pcs_insert _ i o (Loaded (sy_data s)) _ _ j Hi).
    + intros j. by rewrite Hs, (pcs_insert _ i o (Loaded (sy_data s)) _ _ j Hi).
    + intros j o' d [[-> [=]]|[Hne H]]%lookup_insert_Some. destruct (is_reader o) eqn:Er; [by eapply Hl|].
      destruct Hne. symmetry. by eapply (sync_exclusion d0 s i j).
    + rewrite fmap_app. cbn. apply (sequential_snoc _ o) in Hd. by destruct o.
    + rewrite fmap_app. cbn. apply NoDup_app. split; [done|]. split; [|apply NoDup_singleton].
      intros j ([j' [o' r']] & -> & Hin)%list_elem_of_fmap. cbn. rewrite list_elem_of_singleton. intros ->. apply Hlog in Hin. naive_solver.
    + intros j o' r. rewrite elem_of_app, list_elem_of_singleton, Hlog. destruct (decide (j = i)) as [->|Hne].
      * rewrite lookup_insert_eq, Hi. split; [intros [(p & [= <- <-] & [=])|[= -> ->]]; by eexists|].
        intros (p & [= <- <-] & [= <-]). by right.
      * rewrite lookup_insert_ne by done. split; [intros [H|[= ? _ _]]; done|by left].
  - intros [= <-]. apply (sync_lock_ok d0 s i o (Leaving r)); try done; unfold access_unlock, std_unlock, std_unlock_shared.
    + intros j. destruct (is_reader o) eqn:Er; cbn; destruct (decide (j = i)) as [->|Hne]; [|done| |].
      * split; [|by intros [? _]]. intros (o' & p & Hi' & Hr & _)%Ho. congruence.
      * split; [done|by intros [_ ?]].
      * split; [done|]. intros H. assert (sm_owner (sy_mutex s) = Some i) by (apply Ho; eauto). congruence.
    + intros j. destruct (is_reader o) eqn:Er; cbn; destruct (decide (j = i)) as [->|Hne]; [set_solver|set_solver| |done].
      split; [|by intros [? _]]. intros (o' & p & Hi' & Hr & _)%Hs. congruence.
    + destruct (is_reader o) eqn:Er; cbn; [|by intros [? ?]]. intros H. rewrite (He H). set_solver.
Qed.

Lemma sync_start_ok d ops : sync_ok d (sync_start d ops).
Proof.
  assert (H : forall i o p, (map_seq 0 ((fun o : sync_op => (o, Outside)) <$> ops) : gmap nat (sync_op * sync_pc)) !! i = Some (o, p) -> p = Outside).
  { intros i o p. rewrite lookup_map_seq_0, list_lookup_fmap. destruct (ops !! i); cbn; congruence. }
  split; cbn; try done.
  - intros i. split; [done|]. intros (o & p & Hi & _ & Hp). by rewrite (H _ _ _ Hi) in Hp.
  - intros i. split; [set_solver|]. intros (o & p & Hi & _ & Hp). by rewrite (H _ _ _ Hi) in Hp.
  - intros i o d' Hi. by apply H in Hi.
  - constructor.
  - intros i o r. split; [set_solver|]. intros (p & Hi & Hp). by rewrite (H _ _ _ Hi) in Hp.
Qed.

Lemma sync_run_ok d0 schedule : forall s s', sync_ok d0 s -> sync_run schedule s = Some s' -> sync_ok d0 s'.
Proof.
  induction schedule as [|i schedule IH]; intros s s' Hok; cbn; [by intros [= <-]|].
  destruct (sync_step i s) as [s1|] eqn:E; [|done]. cbn. apply IH. by eapply sync_step_ok.
Qed.

Lemma sync_step_ops i s s' : sync_step i s = Some s' -> fst <$> sy_pcs s' = fst <$> sy_pcs s.
Proof.
  unfold sync_step. destruct (sy_pcs s !! i) as [[o p]|] eqn:Hi; [|done]. cbn.
  assert (H : forall p', fst <$> <[i := (o, p')]> (sy_pcs s) = fst <$> sy_pcs s).
  { intros p'. rewrite fmap_insert. apply insert_id. by rewrite lookup_fmap, Hi. }
  destruct p; cbn; [destruct (access_lock _ _ _); [|done]| | | |done]; intros [= <-]; apply H.
Qed.

Lemma sync_run_ops schedule : forall s s', sync_run schedule s = Some s' -> fst <$> sy_pcs s' = fst <$> sy_pcs s.
Proof.
  induction schedule as [|i schedule IH]; intros s s'; cbn; [by intros [= <-]|].
  destruct (sync_step i s) as [s1|] eqn:E; [|done]. cbn. intros H. rewrite (IH _ _ H). by eapply sync_step_ops.
Qed.

(** C18 [synchronized] is linearizable and does not deadlock.  Threads that call
    [with_write_lock] and [with_read_lock] once each, interleaved in any way, leave the
    data, and have been given results, as if the callbacks had run one after the other
    in the order of the log, in which every thread is at most once, with its own
    callback, and which holds every thread that has returned.  And as long as a thread has
    not returned, some thread can go on. *)
Theorem synchronized_linearizes (d : T) (ops : list sync_op) (schedule : list nat) (s : synchronized) :
  sync_run schedule (sync_start d ops) = Some s ->
  sequential (sy_log s).*2 d (sy_data s) /\ NoDup (sy_log s).*1 /\
  (forall i o r, (i, (o, r)) ∈ sy_log s -> ops !! i = Some o) /\
  (forall i o r, sy_pcs s !! i = Some (o, Finished r) -> (i, (o, r)) ∈ sy_log s) /\
  ((exists i o p, sy_pcs s !! i = Some (o, p) /\ forall r, p <> Finished r) -> exists i, is_Some (sync_step i s)).
Proof.
  intros Hrun. pose proof (sync_run_ok d _ _ _ (sync_start_ok d ops) Hrun) as Hok. pose proof Hok as [Ho Hs _ _ Hd Hn Hlog].
  split; [done|]. split; [done|]. split; [|split].
  - intros i o r (p & Hi & _)%Hlog.
    pose proof (f_equal (lookup i) (sync_run_ops _ _ _ Hrun)) as E. rewrite !lookup_fmap, Hi in E. cbn in E.
    rewrite lookup_map_seq_0, list_lookup_fmap in E. destruct (ops !! i); cbn in E; congruence.
  - intros i o r Hi. apply Hlog. eauto.
  - intros (i & o & p & Hi & Hp).
    assert (Hin : forall j o' p', sy_pcs s !! j = Some (o', p') -> inside p' = true -> exists j, is_Some (sync_step j s)).
    { intros j o' p' Hj Hp'. exists j. unfold sync_step. rewrite Hj. cbn. by destruct p'. }
    destruct (inside p) eqn:E; [by eapply Hin|]. destruct p as [| | | |r]; try discriminate E; [|by edestruct Hp].
    destruct (sm_owner (sy_mutex s)) as [j|] eqn:Eo; [destruct (proj1 (Ho j) eq_refl) as (o' & p' & Hj & _ & Hp'); by eapply Hin|].
    destruct (decide (sm_shared (sy_mutex s) = ∅)) as [E0|(j & (o' & p' & Hj & _ & Hp')%Hs)%set_choose_L]; [|by eapply Hin].
    exists i. unfold sync_step, access_lock, std_lock, std_lock_shared. rewrite Hi, Eo. cbn. rewrite decide_True by done. by destruct (is_reader o).
Qed.
End synchronized.

(** * Names and lines *)

(* @source include/ipcpp/utils/string_identifier.h 17-17 max_identifier_size *)
Definition max_identifier_size : Z := 128.

(* @source include/ipcpp/utils/string_identifier.h 31-31 StringIdentifier *)
Record string_identifier : Type := { si_str : string }.

(* @source include/ipcpp/utils/string_identifier.h 22-24 StringIdentifier::StringIdentifier *)
Definition si_construct (str : string) : outcome string_identifier :=
  _ ← require (Z.of_nat (String.length str) <=? max_identifier_size)%Z; Ok {| si_str := str |}.

(* @source include/ipcpp/utils/string_identifier.h 26-29 StringIdentifier::name,size,max_size *)
Definition si_size (s : string_identifier) : Z := Z.of_nat (String.length (si_str s)).

Section getline.
Context {C : Type} `{EqDecision C}.

(** The count, the characters stored into [dest] and what is left of the input. *)
(* @source include/ipcpp/utils/io.h 15-26 getline *)
Fixpoint getline (input : list C) (dest : list C) (delim : C) {struct dest} : Z * list C * list C :=
  match dest with
  | [] => (0, [], input)
  | c :: dest' =>
    match input with
    | [] => (0, c :: dest', [])
    | i :: input' =>
      if decide (i = delim) then (0, i :: dest', input')
      else let '(n, dest', rest) := getline input' dest' delim in (n + 1, i :: dest', rest)
    end
  end.

(** [getline] stores what it counts.  The first [n] places of the buffer get the [n]
    characters that were read, none of them the delimiter; nothing is written outside
    the buffer.  It stops for one of three reasons: the buffer is full and the rest of
    the input is untouched, the input is at its end, or the delimiter was read, which
    takes the place after the counted ones. *)
Theorem getline_counts (delim : C) (dest input : list C) :
  let '(n, dest', rest) := getline input dest delim in
  exists line, n = zlen line /\ delim ∉ line /\ length dest' = length dest /\ take (length line) dest' = line /\
    ((input = line ++ rest /\ length line = length dest) \/
     (input = line /\ rest = [] /\ drop (length line) dest' = drop (length line) dest) \/
     (input = line ++ delim :: rest /\ dest' = line ++ delim :: drop (S (length line)) dest)).
Proof.
  revert input. induction dest as [|c dest IH]; intros input.
  { exists []. split; [done|]. split; [set_solver|]. do 2 (split; [done|]). by left. }
  destruct input as [|i input].
  { exists []. split; [done|]. split; [set_solver|]. do 2 (split; [done|]). right. by left. }
  cbn [getline]. specialize (IH input). destruct (decide (i = delim)) as [->|Hne].
  { exists []. split; [done|]. split; [set_solver|]. do 2 (split; [done|]). right. by right. }
  destruct (getline input dest delim) as [[n dest'] rest].
  destruct IH as (line & -> & Hd & Hl & Ht & H). exists (i :: line). unfold zlen. cbn. rewrite Hl, Ht.
  split; [lia|]. split; [set_solver|]. do 2 (split; [done|]).
  destruct H as [[-> ?]|[(-> & -> & ?)|[-> ->]]]; [left; split; [done|lia]|right; by left|right; by right].
Qed.
End getline.

(** * Concrete runs *)

Lemma optional_life_cycle_witness : exists o', opt_reset false (opt_construct 5) = Ok o' /\ opt_wf o' /\ opt_view o' = None.
Proof. apply (optional_life_cycle (A := Z) false true 0 id (opt_construct 5) 0 7 None); done. Defined.

Lemma optional_copy_wrong_witness :
  opt_copy_construct false true true 0 9 (opt_construct 5) = UB /\
  opt_copy_construct true true true 0 9 (opt_empty 3) = Ok (opt_construct 3).
Proof.
  split.
  - apply (optional_copy_wrong (A := Z) false true true 0 id 9 (opt_construct 5)); done.
  - apply (optional_copy_wrong (A := Z) true true true 0 id 9 (opt_empty 3)); done.
Defined.

Lemma reference_counted_serves_half_witness :
  read_times 2 (rc_construct 7 3) = UB /\ exists r', read_times 1 (rc_construct 7 3) = Ok ([Some 7], r') /\ rc_remaining r' = 1.
Proof. pose proof (reference_counted_serves_half 7 1 ltac:(lia) ltac:(lia)) as (_ & H1 & H2). done. Defined.

(** A writer adds 1, another doubles, a reader looks. *)
Definition sync_demo : list (sync_op (T := Z) (R := Z)) :=
  [WithWriteLock (fun d => (d + 1, d)); WithWriteLock (fun d => (d * 2, d)); WithReadLock id].

Lemma synchronized_linearizes_witness :
  exists s, sync_run [1; 1; 1; 1; 0; 0; 0; 0; 2; 2; 2; 2]%nat (sync_start 5 sync_demo) = Some s /\ sy_data s = 11 /\ sequential (sy_log s).*2 5 11.
Proof.
  assert (E : exists s, sync_run [1; 1; 1; 1; 0; 0; 0; 0; 2; 2; 2; 2]%nat (sync_start 5 sync_demo) = Some s /\ sy_data s = 11)
    by (eexists; split; [vm_compute; reflexivity|reflexivity]).
  destruct E as (s & E & Ed). exists s. split; [done|]. split; [done|]. rewrite <- Ed. apply (synchronized_linearizes _ _ _ _ E).
Defined.
