(* ===== verification/DomainSocket.v ===== *)
(** The event notifier over unix domain sockets and the base class of observers:
    [event/domain_socket_notifier.h], [event/notification.h] and [event/observer.h].

    The notifier's two threads and the thread that notifies meet at the lock of the set
    of observers; one operation of the model is one critical section, and the theorems are
    about any sequence of them.  The observer is in Observer. *)
From S2P Require Import Prelude Numeric Errors Os.
Local Open Scope string_scope.
Local Open Scope list_scope.
Local Open Scope Z_scope.

(* @source include/ipcpp/event/notification.h 9-14 ObserverRequest *)
Inductive observer_request : Type := SUBSCRIBE | CANCEL_SUBSCRIPTION | PAUSE_SUBSCRIPTION | RESUME_SUBSCRIPTION.

(** The enumerator of a received number. *)
Definition request_of (v : Z) : option observer_request :=
  if v =? 0 then Some SUBSCRIBE
  else if v =? 1 then Some CANCEL_SUBSCRIPTION
  else if v =? 2 then Some PAUSE_SUBSCRIPTION
  else if v =? 3 then Some RESUME_SUBSCRIPTION
  else None.

(** * Sets of descriptors *)

(** [std::set<int>]: the elements in increasing order. *)
Fixpoint insert_ordered (x : Z) (l : list Z) : list Z :=
  match l with
  | [] => [x]
  | y :: l' => if x <? y then x :: l else y :: insert_ordered x l'
  end.
Definition set_insert (x : Z) (l : list Z) : list Z := if decide (x ∈ l) then l else insert_ordered x l.

Lemma insert_ordered_perm x l : insert_ordered x l ≡ₚ x :: l.
Proof. induction l as [|y l IH]; cbn; [done|]. case_match; [done|]. rewrite IH. apply perm_swap. Qed.

Lemma elem_of_set_insert x y l : y ∈ set_insert x l <-> y = x \/ y ∈ l.
Proof. unfold set_insert. destruct (decide _); [naive_solver|]. by rewrite insert_ordered_perm, elem_of_cons. Qed.

Lemma set_insert_NoDup x l : NoDup l -> NoDup (set_insert x l).
Proof. unfold set_insert. destruct (decide _); [done|]. rewrite insert_ordered_perm, NoDup_cons. done. Qed.

(** * DomainSocketNotifier *)

(** [dn_base_id] is the name the base class keeps; the threads are there or not. *)
(* @source include/ipcpp/event/domain_socket_notifier.h 278-292 DomainSocketNotifier *)
Record notifier : Type := {
  dn_base_id : string;
  dn_id : string;
  dn_max_observers : Z;
  dn_socket : Z;
  dn_observer_sockets : list Z;
  dn_paused_observer_sockets : list Z;
  dn_subscription_enabled : bool;
  dn_cancellation_enabled : bool;
  dn_subscription_thread : bool;
  dn_request_thread : bool
}.

Definition set_socket (s : Z) (n : notifier) : notifier :=
  {| dn_base_id := dn_base_id n; dn_id := dn_id n; dn_max_observers := dn_max_observers n; dn_socket := s;
     dn_observer_sockets := dn_observer_sockets n; dn_paused_observer_sockets := dn_paused_observer_sockets n;
     dn_subscription_enabled := dn_subscription_enabled n; dn_cancellation_enabled := dn_cancellation_enabled n;
     dn_subscription_thread := dn_subscription_thread n; dn_request_thread := dn_request_thread n |}.
Definition set_clients (obs paused : list Z) (n : notifier) : notifier :=
  {| dn_base_id := dn_base_id n; dn_id := dn_id n; dn_max_observers := dn_max_observers n; dn_socket := dn_socket n;
     dn_observer_sockets := obs; dn_paused_observer_sockets := paused;
     dn_subscription_enabled := dn_subscription_enabled n; dn_cancellation_enabled := dn_cancellation_enabled n;
     dn_subscription_thread := dn_subscription_thread n; dn_request_thread := dn_request_thread n |}.
Definition set_threads (sub canc sub_t req_t : bool) (n : notifier) : notifier :=
  {| dn_base_id := dn_base_id n; dn_id := dn_id n; dn_max_observers := dn_max_observers n; dn_socket := dn_socket n;
     dn_observer_sockets := dn_observer_sockets n; dn_paused_observer_sockets := dn_paused_observer_sockets n;
     dn_subscription_enabled := sub; dn_cancellation_enabled := canc; dn_subscription_thread := sub_t; dn_request_thread := req_t |}.

(** ** Making and moving a notifier *)

(* @source include/ipcpp/event/domain_socket_notifier.h 166-168 DomainSocketNotifier::DomainSocketNotifier(id) *)
Definition dn_construct (id : string) (max_num_observers : Z) : notifier :=
  {| dn_base_id := EmptyString; dn_id := "/tmp/" +:+ id +:+ ".ipcpp.sock"; dn_max_observers := max_num_observers; dn_socket := -1;
     dn_observer_sockets := []; dn_paused_observer_sockets := []; dn_subscription_enabled := false; dn_cancellation_enabled := false;
     dn_subscription_thread := false; dn_request_thread := false |}.

(** The new notifier and what is left in [other].  Its threads run again in the new
    object; the base class has no move and is copied. *)
(* @source include/ipcpp/event/domain_socket_notifier.h 51-71 DomainSocketNotifier::DomainSocketNotifier(DomainSocketNotifier) *)
Definition dn_move_construct (other : notifier) : notifier * notifier :=
  ({| dn_base_id := dn_base_id other; dn_id := EmptyString; dn_max_observers := dn_max_observers other; dn_socket := dn_socket other;
      dn_observer_sockets := dn_observer_sockets other; dn_paused_observer_sockets := [];
      dn_subscription_enabled := dn_subscription_enabled other; dn_cancellation_enabled := dn_cancellation_enabled other;
      dn_subscription_thread := dn_subscription_enabled other; dn_request_thread := dn_cancellation_enabled other |},
   set_socket (-1) (set_threads false false false false other)).

(* @source include/ipcpp/event/domain_socket_notifier.h 104-111 DomainSocketNotifier::shutdown *)
Definition dn_shutdown (n : notifier) : prog notifier :=
  _ ← sys_ (Sys_shutdown (dn_socket n));
  Ret (set_threads false false false false n).

(* @source include/ipcpp/event/domain_socket_notifier.h 76-81 DomainSocketNotifier::~DomainSocketNotifier *)
Definition dn_destroy (n : notifier) : prog unit :=
  if negb (dn_socket n =? -1) then
    n ← dn_shutdown n; sys_ (Sys_close (dn_socket n))
  else Ret tt.

(** [sun_path] holds 107 characters and a terminating zero. *)
Definition sun_path (id : string) : string := String.substring 0 107 id.

(** [None]: success. *)
(* @source include/ipcpp/event/domain_socket_notifier.h 174-199 DomainSocketNotifier::setup_socket *)
Definition setup_socket (n : notifier) : prog (option error_code * notifier) :=
  s ← sys Sys_socket;
  let n := set_socket (rc s) n in
  if rc s =? -1 then Ret (Some (socket_code create_error), n)
  else
    _ ← sys_ (Sys_unlink (dn_id n));
    b ← sys (Sys_bind (dn_socket n) (sun_path (dn_id n)));
    if rc b =? -1 then Ret (Some (socket_code bind_error), n)
    else
      l ← sys (Sys_listen (dn_socket n) (dn_max_observers n));
      if rc l =? -1 then Ret (Some (socket_code listen_error), n)
      else
        _ ← sys_ (Sys_recv_timeout (dn_socket n) 100);
        Ret (None, n).

(** The local is destroyed when the function returns, after it has been moved from if it
    is the result. *)
(* @source include/ipcpp/event/domain_socket_notifier.h 91-99 DomainSocketNotifier::create *)
Definition dn_create (id : string) (max_num_observers : Z) : prog (expected notifier error_code) :=
  '(result, self) ← setup_socket (dn_construct id max_num_observers);
  match result with
  | Some e => _ ← dn_destroy self; Ret (Unexpected e)
  | None => let '(v, self) := dn_move_construct self in _ ← dn_destroy self; Ret (Expected v)
  end.

(* @source include/ipcpp/event/notifier.h 54-54 Notifier_I::identifier *)
Definition dn_identifier (n : notifier) : string := dn_base_id n.

(** ** The threads *)

(** Assigning a thread to an object that still has one ends the program. *)
Definition start_thread (running : bool) : prog bool := if running then Raise terminate else Ret true.

(* @source include/ipcpp/event/domain_socket_notifier.h 153-161 DomainSocketNotifier::accept_subscriptions *)
Definition accept_subscriptions (n : notifier) : prog notifier :=
  if dn_subscription_enabled n then Ret n
  else
    n ← (if negb (dn_cancellation_enabled n) then
           t ← start_thread (dn_request_thread n);
           Ret (set_threads (dn_subscription_enabled n) true (dn_subscription_thread n) t n)
         else Ret n);
    t ← start_thread (dn_subscription_thread n);
    Ret (set_threads true (dn_cancellation_enabled n) t (dn_request_thread n) n).

(* @source include/ipcpp/event/domain_socket_notifier.h 138-148 DomainSocketNotifier::reject_subscriptions *)
Definition reject_subscriptions (n : notifier) : notifier :=
  if negb (dn_subscription_enabled n) then n
  else
    let n := set_threads false (dn_cancellation_enabled n) false (dn_request_thread n) n in
    match dn_observer_sockets n with
    | [] => set_threads false false false false n
    | _ => n
    end.

(* @source include/ipcpp/event/domain_socket_notifier.h 163-163 DomainSocketNotifier::num_observers *)
Definition num_observers (n : notifier) : Z := zlen (dn_observer_sockets n).

(** ** Clients come, ask and are notified *)

(** The new client and its descriptor, once it is in the set of observers ... *)
(* @source include/ipcpp/event/domain_socket_notifier.h 207-208 DomainSocketNotifier::process_subscriptions *)
Definition accept_client (n : notifier) : prog (notifier * option Z) :=
  client_fd ← sys (Sys_accept (dn_socket n));
  if 0 <=? rc client_fd then
    Ret (set_clients (set_insert (rc client_fd) (dn_observer_sockets n)) (dn_paused_observer_sockets n) n, Some (rc client_fd))
  else Ret (n, None).

(** ... and the answer to it, a [bool], when the lock has been released. *)
(* @source include/ipcpp/event/domain_socket_notifier.h 209-210 DomainSocketNotifier::process_subscriptions *)
Definition answer_client (client_fd : Z) : prog unit := sys_ (Sys_send client_fd false [1]).

(** One iteration. *)
(* @source include/ipcpp/event/domain_socket_notifier.h 205-213 DomainSocketNotifier::process_subscriptions *)
Definition process_subscription (n : notifier) : prog notifier :=
  '(n, client) ← accept_client n;
  match client with
  | Some client_fd => _ ← answer_client client_fd; Ret n
  | None => Ret n
  end.

(** What a loop does with the client whose request it has read: close and erase it, move
    it to the other set, or neither, in which case the iterator is not advanced. *)
Inductive action : Type := Close | Move | Nothing.

(* @source include/ipcpp/event/domain_socket_notifier.h 226-239 DomainSocketNotifier::process_observer_requests *)
Definition active_switch (request : option observer_request) : action :=
  match request with
  | Some SUBSCRIBE => Nothing
  | Some CANCEL_SUBSCRIPTION => Close
  | Some PAUSE_SUBSCRIPTION => Move
  | Some RESUME_SUBSCRIPTION => Nothing
  | None => Nothing
  end.

(* @source include/ipcpp/event/domain_socket_notifier.h 252-264 DomainSocketNotifier::process_observer_requests *)
Definition paused_switch (request : option observer_request) : action :=
  match request with
  | Some SUBSCRIBE => Nothing
  | Some CANCEL_SUBSCRIPTION => Close
  | Some PAUSE_SUBSCRIPTION => Nothing
  | Some RESUME_SUBSCRIPTION => Move
  | None => Nothing
  end.

#[export] Instance action_eq_dec : EqDecision action.
Proof. solve_decision. Defined.

Definition sizeof_request : Z := 4.

(** A loop over one of the sets: [todo] from the iterator on, [kept] before it, [other] the
    other set.  The result is this set and the other; [None]: still in the loop after
    [fuel] rounds. *)
Fixpoint request_loop (switch : option observer_request -> action) (fuel : nat) (todo kept other : list Z) : prog (option (list Z * list Z)) :=
  match todo with
  | [] => Ret (Some (kept, other))
  | client_fd :: todo' =>
    match fuel with
    | O => Ret None
    | S fuel =>
      bytes ← sys (Sys_recv client_fd sizeof_request);
      match bytes with
      | Rval v =>
        if v =? 0 then _ ← sys_ (Sys_close client_fd); request_loop switch fuel todo' kept other
        else
          match switch (request_of (v - 1)) with
          | Close => _ ← sys_ (Sys_close client_fd); request_loop switch fuel todo' kept other
          | Move => request_loop switch fuel todo' kept (set_insert client_fd other)
          | Nothing => request_loop switch fuel todo kept other
          end
      | Rerr _ => request_loop switch fuel todo' (kept ++ [client_fd]) other
      end
    end
  end.

(* @source include/ipcpp/event/domain_socket_notifier.h 222-247 DomainSocketNotifier::process_observer_requests *)
Definition process_active (fuel : nat) (n : notifier) : prog (option notifier) :=
  r ← request_loop active_switch fuel (dn_observer_sockets n) [] (dn_paused_observer_sockets n);
  Ret (match r with Some (observers, paused) => Some (set_clients observers paused n) | None => None end).

(* @source include/ipcpp/event/domain_socket_notifier.h 248-272 DomainSocketNotifier::process_observer_requests *)
Definition process_paused (fuel : nat) (n : notifier) : prog (option notifier) :=
  r ← request_loop paused_switch fuel (dn_paused_observer_sockets n) [] (dn_observer_sockets n);
  Ret (match r with Some (paused, observers) => Some (set_clients observers paused n) | None => None end).

Definition ECONNRESET : Z := 104.
Definition EPIPE : Z := 32.
Definition hung_up (errno : Z) : bool := (errno =? ECONNRESET) || (errno =? EPIPE).

(** The bytes of a notification go to one observer after the other. *)
Fixpoint notify_loop (notification todo kept : list Z) : prog (list Z) :=
  match todo with
  | [] => Ret kept
  | observer_socket :: todo =>
    r ← sys (Sys_send observer_socket true notification);
    match r with
    | Rerr errno => if hung_up errno then _ ← sys_ (Sys_close observer_socket); notify_loop notification todo kept
                    else notify_loop notification todo (kept ++ [observer_socket])
    | Rval _ => notify_loop notification todo (kept ++ [observer_socket])
    end
  end.

(* @source include/ipcpp/event/domain_socket_notifier.h 117-133 DomainSocketNotifier::notify_observers *)
Definition notify_observers (notification : list Z) (n : notifier) : prog notifier :=
  obs ← notify_loop notification (dn_observer_sockets n) [];
  Ret (set_clients obs (dn_paused_observer_sockets n) n).

(** * Each client is an automaton *)

Inductive client : Type := Active | Paused | Gone.
#[export] Instance client_eq_dec : EqDecision client.
Proof. solve_decision. Defined.

(** The state of a client by the sets it is in: in one of them [me], in the other [you]. *)
Definition state_of (me you : client) (mine yours : list Z) (fd : Z) : client :=
  if decide (fd ∈ mine) then me else if decide (fd ∈ yours) then you else Gone.
Abbreviation client_of := (state_of Active Paused).

(** What a received number means to a client, by its state: the protocol. *)
Definition receives (st : client) (v : Z) : client :=
  if v =? 0 then Gone
  else match st, request_of (v - 1) with
       | Gone, _ | _, Some CANCEL_SUBSCRIPTION => Gone
       | Active, Some PAUSE_SUBSCRIPTION => Paused
       | Paused, Some RESUME_SUBSCRIPTION => Active
       | _, _ => st
       end.

(** What an action of a loop makes of the client. *)
Definition after_action (me you : client) (a : action) : client := match a with Close => Gone | Move => you | Nothing => me end.

(** One call of the notifier, as the client on [fd] experiences it. *)
Definition client_step (fd : Z) (st : client) (x : call * reply) : client :=
  match x with
  | (Sys_accept _, Rval v) => if (0 <=? v) && (v =? fd) then Active else st
  | (Sys_recv fd' _, Rval v) => if fd' =? fd then receives st v else st
  | (Sys_send fd' true _, Rerr errno) => if (fd' =? fd) && hung_up errno then Gone else st
  | _ => st
  end.
Definition client_run (fd : Z) (st : client) (t : history) : client := fold_left (client_step fd) t st.

Lemma client_run_app fd st t t' : client_run fd st (t ++ t') = client_run fd (client_run fd st t) t'.
Proof. apply fold_left_app. Qed.

(** A few calls that concern one client only. *)
Definition about (fd : Z) (x : call * reply) : Prop :=
  match x.1 with Sys_recv fd' _ | Sys_send fd' _ _ | Sys_close fd' => fd' = fd | _ => False end.

Lemma client_run_other fd fd0 st t : Forall (about fd0) t -> fd <> fd0 -> client_run fd st t = st.
Proof.
  intros Ht Hne. unfold client_run. induction Ht as [|[c r] t H _ IH]; [done|]. cbn [fold_left].
  replace (client_step fd st (c, r)) with st; [done|]. destruct c; try done; unfold about in H; cbn in H; subst; cbn.
  - by destruct no_signal, r; rewrite ?(proj2 (Z.eqb_neq fd0 fd)) by done.
  - by destruct r; rewrite ?(proj2 (Z.eqb_neq fd0 fd)) by done.
Qed.

Lemma opens_other fd fd0 t : Forall (about fd0) t -> fd <> fd0 -> tally (opens fd) t = 0.
Proof.
  intros Ht Hne. induction Ht as [|[c r] t H _ IH]; [done|]. rewrite tally_cons, IH.
  destruct c; try done; unfold about in H; cbn in H; subst; cbn. by rewrite (proj2 (Z.eqb_neq fd0 fd)).
Qed.

Definition is_open (c : client) : Z := match c with Gone => 0 | _ => 1 end.

(** The sets of the notifier are proper and disjoint. *)
Definition clients_ok (mine yours : list Z) : Prop := NoDup mine /\ NoDup yours /\ forall fd, fd ∈ mine -> fd ∉ yours.

Section tracking.
Context (me you : client).
Abbreviation state := (state_of me you).

Lemma state_me o p fd : fd ∈ o -> state o p fd = me.
Proof. intros H. unfold state_of. by rewrite decide_True. Qed.
Lemma state_you o p fd : fd ∉ o -> fd ∈ p -> state o p fd = you.
Proof. intros H H'. unfold state_of. by rewrite decide_False, decide_True. Qed.
Lemma state_gone o p fd : fd ∉ o -> fd ∉ p -> state o p fd = Gone.
Proof. intros H H'. unfold state_of. by rewrite !decide_False. Qed.
Lemma state_same o p o' p' fd : (fd ∈ o <-> fd ∈ o') -> (fd ∈ p <-> fd ∈ p') -> state o p fd = state o' p' fd.
Proof. intros Ho Hp. unfold state_of. repeat destruct (decide _); tauto. Qed.

(** What the calls [t] make of the clients: each has run its own automaton, and exactly
    the descriptors of clients that are gone have been closed. *)
Definition tracks (o p : list Z) (t : history) (o' p' : list Z) : Prop :=
  clients_ok o' p' /\ (forall fd, state o' p' fd = client_run fd (state o p fd) t) /\
  forall fd, tally (opens fd) t = is_open (state o' p' fd) - is_open (state o p fd).

Lemma tracks_nil o p : clients_ok o p -> tracks o p [] o p.
Proof. intros H. split; [done|]. split; [done|]. intros fd. unfold tally. cbn. lia. Qed.

Lemma tracks_app o p t1 o1 p1 t2 o2 p2 : tracks o p t1 o1 p1 -> tracks o1 p1 t2 o2 p2 -> tracks o p (t1 ++ t2) o2 p2.
Proof.
  intros (_ & H1 & T1) (H & H2 & T2). split; [done|]. split.
  - intros fd. by rewrite client_run_app, H2, H1.
  - intros fd. rewrite tally_app, T1, T2. lia.
Qed.

Lemma tracks_one fd0 o p t o' p' : clients_ok o' p' ->
  (forall fd, fd <> fd0 -> (fd ∈ o <-> fd ∈ o') /\ (fd ∈ p <-> fd ∈ p')) -> Forall (about fd0) t ->
  state o' p' fd0 = client_run fd0 (state o p fd0) t ->
  tally (opens fd0) t = is_open (state o' p' fd0) - is_open (state o p fd0) -> tracks o p t o' p'.
Proof.
  intros Hok Hsame Ht Hrun Htally. split; [done|].
  assert (H : forall fd, fd <> fd0 -> state o' p' fd = state o p fd).
  { intros fd [Ho Hp]%Hsame. symmetry. by apply state_same. }
  split; intros fd; (destruct (decide (fd = fd0)) as [->|Hne]; [done|]).
  - by rewrite (client_run_other fd fd0), H.
  - rewrite (opens_other fd fd0), H by done. lia.
Qed.

(** What can happen to the client a loop looks at: it goes, it moves, or it stays. *)
Lemma tracks_gone fd kept todo other t : clients_ok (kept ++ fd :: todo) other -> Forall (about fd) t ->
  client_run fd me t = Gone -> tally (opens fd) t = - is_open me -> tracks (kept ++ fd :: todo) other t (kept ++ todo) other.
Proof.
  intros (Ho & Hp & Hd) Ht Hr Ha. rewrite <- Permutation_middle, NoDup_cons in Ho. destruct Ho as [Hn Ho].
  assert (Hin : fd ∈ kept ++ fd :: todo) by set_solver.
  apply (tracks_one fd); [split; [done|split; [done|set_solver]]|set_solver|done|..]; rewrite (state_me _ _ _ Hin), (state_gone _ _ _ Hn) by auto.
  - by rewrite Hr.
  - rewrite Ha. cbn. lia.
Qed.

Lemma tracks_move fd kept todo other t : clients_ok (kept ++ fd :: todo) other -> Forall (about fd) t ->
  client_run fd me t = you -> tally (opens fd) t = is_open you - is_open me ->
  tracks (kept ++ fd :: todo) other t (kept ++ todo) (set_insert fd other).
Proof.
  intros (Ho & Hp & Hd) Ht Hr Ha. rewrite <- Permutation_middle, NoDup_cons in Ho. destruct Ho as [Hn Ho].
  assert (Hin : fd ∈ kept ++ fd :: todo) by set_solver. assert (Hi : fd ∈ set_insert fd other) by (apply elem_of_set_insert; by left).
  apply (tracks_one fd); [| |done|..]; rewrite ?(state_me _ _ _ Hin), ?(state_you _ _ _ Hn Hi); [| |done|done].
  - split; [done|]. split; [by apply set_insert_NoDup|]. intros fd' Hfd'. rewrite elem_of_set_insert. intros [->|H]; [done|].
    apply (Hd fd'); [set_solver|done].
  - intros fd' Hne. split; [set_solver|]. rewrite elem_of_set_insert. naive_solver.
Qed.

Lemma tracks_stay fd o p t : clients_ok o p -> fd ∈ o -> Forall (about fd) t ->
  client_run fd me t = me -> tally (opens fd) t = 0 -> tracks o p t o p.
Proof. intros Hok Hin Ht Hr Ha. apply (tracks_one fd); rewrite ?(state_me _ _ _ Hin); auto. by rewrite Ha, Z.sub_diag. Qed.
End tracking.

(** * The loops *)

(** Numbers received that leave the iterator where it is. *)
Definition stalls (switch : option observer_request -> action) (x : call * reply) : Prop :=
  match x with (Sys_recv _ _, Rval v) => v <> 0 /\ switch (request_of (v - 1)) = Nothing | _ => False end.
#[export] Instance stalls_dec switch x : Decision (stalls switch x).
Proof. unfold stalls. destruct x as [[] []]; apply _. Defined.
Definition stalled (switch : option observer_request -> action) (t : history) : nat := length (filter (stalls switch) t).

Section loops.
Context (me you : client) (switch : option observer_request -> action).
Hypothesis Hopen : is_open me = 1 /\ is_open you = 1.
Hypothesis Hreceives : forall v, receives me v = if v =? 0 then Gone else after_action me you (switch (request_of (v - 1))).

Lemma recv_run fd v : client_run fd me [(Sys_recv fd sizeof_request, Rval v)] = if v =? 0 then Gone else after_action me you (switch (request_of (v - 1))).
Proof. cbn. by rewrite Z.eqb_refl, Hreceives. Qed.

(** The rounds a loop needs are the clients and the numbers that change nothing. *)
Lemma request_loop_ok fuel : forall todo kept other, clients_ok (kept ++ todo) other ->
  wp (request_loop switch fuel todo kept other) (fun x t =>
    match x with
    | Returned (Some (mine, other')) => tracks me you (kept ++ todo) other t mine other'
    | Returned None => (fuel < length todo + stalled switch t)%nat
    | Threw _ => False
    end).
Proof.
  destruct Hopen as [Hme Hyou].
  induction fuel as [|fuel IH]; intros [|fd todo] kept other Hok; cbn [request_loop wp]; try (rewrite ?app_nil_r in *; by apply tracks_nil); [cbn; lia|].
  assert (Hstep : forall t0 kept' todo' other' (Q : result (option (list Z * list Z)) -> history -> Prop),
    tracks me you (kept ++ fd :: todo) other t0 (kept' ++ todo') other' -> (length todo' < S (length todo) + stalled switch t0)%nat ->
    (forall x t, match x with
       | Returned (Some (mine, o')) => tracks me you (kept ++ fd :: todo) other (t0 ++ t) mine o'
       | Returned None => (S fuel < S (length todo) + stalled switch (t0 ++ t))%nat | Threw _ => False end -> Q x t) ->
    wp (request_loop switch fuel todo' kept' other') Q).
  { intros t0 kept' todo' other' Q Ht Hl HQ. eapply wp_mono; [|apply IH, Ht]. intros x t Hx. apply HQ.
    destruct x as [[[mine o']|]|e]; [by eapply tracks_app| |done]. unfold stalled in *. rewrite filter_app, length_app. lia. }
  cbn [mbind prog_bind sys wp]. intros [v|e].
  - cbn [wp]. pose proof (recv_run fd v) as Hrun. destruct (Z.eqb_spec v 0) as [Hv|Hv]; [subst v|].
    + cbn [sys_ mbind prog_bind wp]. intros r. eapply (Hstep [(Sys_recv fd sizeof_request, Rval 0); (Sys_close fd, r)]); [| |by intros x t H].
      * apply tracks_gone; [done|by repeat constructor|done|]. rewrite Hme. unfold tally. cbn. by rewrite Z.eqb_refl.
      * cbn. lia.
    + destruct (switch (request_of (v - 1))) eqn:E; cbn [after_action] in Hrun.
      * cbn [sys_ mbind prog_bind wp]. intros r. eapply (Hstep [(Sys_recv fd sizeof_request, Rval v); (Sys_close fd, r)]); [| |by intros x t H].
        -- apply tracks_gone; [done|by repeat constructor|done|]. rewrite Hme. unfold tally. cbn. by rewrite Z.eqb_refl.
        -- cbn. lia.
      * eapply (Hstep [(Sys_recv fd sizeof_request, Rval v)]); [|cbn; lia|by intros x t H].
        apply tracks_move; [done|by repeat constructor|done|]. rewrite Hme, Hyou. done.
      * eapply (Hstep [(Sys_recv fd sizeof_request, Rval v)]); [| |by intros x t H].
        -- apply (tracks_stay _ _ fd); [done|set_solver|by repeat constructor|done|done].
        -- unfold stalled. rewrite filter_cons_True by done. cbn. lia.
  - cbn [wp]. eapply (Hstep [(Sys_recv fd sizeof_request, Rerr e)]); [|cbn; lia|by intros x t H].
    rewrite <- app_assoc. apply (tracks_stay _ _ fd); [done|set_solver|by repeat constructor|done|done].
Qed.
End loops.

(** * Operations in any order *)

Inductive operation : Type := Accept | ActiveRequests | PausedRequests | Notify (notification : list Z).

Definition execute (fuel : nat) (op : operation) (n : notifier) : prog (option notifier) :=
  match op with
  | Accept => n ← process_subscription n; Ret (Some n)
  | ActiveRequests => process_active fuel n
  | PausedRequests => process_paused fuel n
  | Notify notification => n ← notify_observers notification n; Ret (Some n)
  end.

Fixpoint serve (fuel : nat) (ops : list operation) (n : notifier) : prog (option notifier) :=
  match ops with
  | [] => Ret (Some n)
  | op :: ops => r ← execute fuel op n; match r with Some n => serve fuel ops n | None => Ret None end
  end.

Definition notifier_ok (n : notifier) : Prop := clients_ok (dn_observer_sockets n) (dn_paused_observer_sockets n).
Definition client_in (n : notifier) : Z -> client := client_of (dn_observer_sockets n) (dn_paused_observer_sockets n).
Definition tracked (n : notifier) (t : history) (n' : notifier) : Prop :=
  tracks Active Paused (dn_observer_sockets n) (dn_paused_observer_sockets n) t (dn_observer_sockets n') (dn_paused_observer_sockets n').

(** [accept] returns a descriptor, and none that is in use. *)
Fixpoint fresh_accepts (st : Z -> client) (t : history) : Prop :=
  match t with
  | [] => True
  | x :: t => match x with (Sys_accept _, Rval v) => 0 <= v /\ st v = Gone | _ => True end /\ fresh_accepts (fun fd => client_step fd (st fd) x) t
  end.

Lemma fresh_accepts_ext t : forall st st', (forall fd, st fd = st' fd) -> fresh_accepts st t -> fresh_accepts st' t.
Proof.
  induction t as [|x t IH]; intros st st' Heq; cbn; [done|]. intros [H1 H2]. split.
  - destruct x as [[] []]; try done. by rewrite <- Heq.
  - eapply IH; [|exact H2]. intros fd. cbn. by rewrite Heq.
Qed.

Lemma fresh_accepts_app t1 t2 : forall st, fresh_accepts st (t1 ++ t2) <-> fresh_accepts st t1 /\ fresh_accepts (fun fd => client_run fd (st fd) t1) t2.
Proof.
  induction t1 as [|x t1 IH]; intros st; cbn; [naive_solver|]. rewrite IH. unfold client_run. cbn. tauto.
Qed.

Lemma clients_ok_sym o p : clients_ok o p -> clients_ok p o.
Proof. intros (? & ? & H). split; [done|]. split; [done|]. intros fd Hp Ho. by apply (H fd). Qed.

Lemma state_of_sym me you o p fd : clients_ok o p -> state_of you me p o fd = state_of me you o p fd.
Proof. intros (_ & _ & H). unfold state_of. repeat destruct (decide _); naive_solver. Qed.

Lemma tracks_sym me you o p t o' p' : clients_ok o p -> tracks you me p o t p' o' -> tracks me you o p t o' p'.
Proof.
  intros Hok (H & H1 & H2). pose proof (clients_ok_sym _ _ H) as H'. split; [done|].
  split; intros fd; rewrite <- !(state_of_sym me you) by done; auto.
Qed.

Lemma process_active_ok fuel n : notifier_ok n -> wp (process_active fuel n) (fun x t =>
  match x with
  | Returned (Some n') => tracked n t n'
  | Returned None => (fuel < length (dn_observer_sockets n) + stalled active_switch t)%nat
  | Threw _ => False
  end).
Proof.
  intros Hok. eapply wp_step; [apply (request_loop_ok Active Paused active_switch); [done|by intros v; unfold receives; destruct (v =? 0), (request_of (v - 1)) as [[]|]|exact Hok]| |by intros e t].
  intros [[o' p']|] t H; cbn [wp]; by rewrite app_nil_r.
Qed.

Lemma process_paused_ok fuel n : notifier_ok n -> wp (process_paused fuel n) (fun x t =>
  match x with
  | Returned (Some n') => tracked n t n'
  | Returned None => (fuel < length (dn_paused_observer_sockets n) + stalled paused_switch t)%nat
  | Threw _ => False
  end).
Proof.
  intros Hok. eapply wp_step; [apply (request_loop_ok Paused Active paused_switch); [done|by intros v; unfold receives; destruct (v =? 0), (request_of (v - 1)) as [[]|]|by apply clients_ok_sym]| |by intros e t].
  intros [[o' p']|] t H; cbn [wp]; rewrite app_nil_r; [|done]. by apply tracks_sym.
Qed.

(** The observers a history has sent notifications to. *)
Definition notified (t : history) : list Z := omap (fun x : call * reply => match x.1 with Sys_send fd true _ => Some fd | _ => None end) t.

Lemma notify_loop_ok notification todo : forall kept paused, clients_ok (kept ++ todo) paused -> wp (notify_loop notification todo kept) (fun x t =>
  match x with Returned kept' => tracks Active Paused (kept ++ todo) paused t kept' paused /\ notified t = todo | Threw _ => False end).
Proof.
  induction todo as [|fd todo IH]; intros kept paused Hok; cbn [notify_loop].
  { cbn. split; [|done]. rewrite app_nil_r in *. by apply tracks_nil. }
  assert (Hstep : forall t0 kept' (Q : result (list Z) -> history -> Prop),
    tracks Active Paused (kept ++ fd :: todo) paused t0 (kept' ++ todo) paused -> notified t0 = [fd] ->
    (forall x t, match x with Returned k => tracks Active Paused (kept ++ fd :: todo) paused (t0 ++ t) k paused /\ notified (t0 ++ t) = fd :: todo
                 | Threw _ => False end -> Q x t) -> wp (notify_loop notification todo kept') Q).
  { intros t0 kept' Q Ht Hn HQ. eapply wp_mono; [|apply IH, Ht]. intros [k|e] t Hx; apply HQ; [|done]. destruct Hx as [Hx Hn'].
    split; [by eapply tracks_app|]. unfold notified in *. by rewrite omap_app, Hn, Hn'. }
  cbn [mbind prog_bind sys wp]. intros [v|e]; [|destruct (hung_up e) eqn:E]; cbn [sys_ mbind prog_bind wp].
  - apply (Hstep [(Sys_send fd true notification, Rval v)]); [|done|by intros x t]. rewrite <- app_assoc.
    apply (tracks_stay _ _ fd); [done|set_solver|by repeat constructor|done|done].
  - intros r. apply (Hstep [(Sys_send fd true notification, Rerr e); (Sys_close fd, r)]); [|done|by intros x t].
    apply tracks_gone; [done|by repeat constructor|by cbn; rewrite Z.eqb_refl, E|]. unfold tally. cbn. by rewrite Z.eqb_refl.
  - apply (Hstep [(Sys_send fd true notification, Rerr e)]); [|done|by intros x t]. rewrite <- app_assoc.
    apply (tracks_stay _ _ fd); [done|set_solver|by repeat constructor|by cbn; rewrite E, andb_false_r|done].
Qed.

Lemma notify_observers_ok notification n : notifier_ok n -> wp (notify_observers notification n) (fun x t =>
  match x with Returned n' => tracked n t n' /\ notified t = dn_observer_sockets n | Threw _ => False end).
Proof.
  intros Hok. eapply wp_step; [apply (notify_loop_ok notification _ [] _ Hok)| |by intros e t]. intros obs t H. cbn [wp]. by rewrite app_nil_r.
Qed.

Lemma process_subscription_ok n : notifier_ok n -> wp (process_subscription n) (fun x t =>
  match x with Returned n' => fresh_accepts (client_in n) t -> tracked n t n' | Threw _ => False end).
Proof.
  intros Hok. unfold process_subscription, accept_client, answer_client. cbn [mbind prog_bind sys wp]. intros [v|e]; cbn [rc].
  - destruct (Z.leb_spec 0 v) as [Hv|Hv]; [|cbn; intros [[? _] _]; lia]. cbn [sys_ mbind prog_bind wp]. intros r [[_ Hg] _].
    destruct Hok as (Ho & Hp & Hd). unfold client_in, state_of in Hg.
    destruct (decide (v ∈ dn_observer_sockets n)) as [|Hno]; [done|]. destruct (decide (v ∈ dn_paused_observer_sockets n)) as [|Hnp]; [done|].
    assert (Hin : forall fd, fd ∈ set_insert v (dn_observer_sockets n) <-> fd = v \/ fd ∈ dn_observer_sockets n) by (intros; apply elem_of_set_insert).
    split; cbn.
    { split; [by apply set_insert_NoDup|]. split; [done|]. intros fd [->|H]%Hin; [done|by apply Hd]. }
    split; intros fd; unfold tally; cbn; (destruct (Z.eqb_spec v fd) as [->|Hne]).
    + rewrite state_me by (apply Hin; by left). by destruct (Z.leb_spec 0 fd); [|lia].
    + rewrite andb_false_r. apply state_same; [rewrite Hin; naive_solver|done].
    + rewrite state_me by (apply Hin; by left). by rewrite state_gone.
    + rewrite (state_same _ _ _ _ (dn_observer_sockets n) (dn_paused_observer_sockets n)); [cbn; lia|rewrite Hin; naive_solver|done].
  - cbn. intros _. split; [done|]. split; [done|]. intros fd. unfold tally. cbn. lia.
Qed.

Lemma execute_ok fuel op n : notifier_ok n -> wp (execute fuel op n) (fun x t =>
  match x with Returned (Some n') => fresh_accepts (client_in n) t -> tracked n t n' | Returned None => True | Threw _ => False end).
Proof.
  intros Hok. destruct op; cbn [execute].
  - eapply wp_step; [by apply process_subscription_ok| |by intros e t]. intros n' t H. cbn [wp]. by rewrite app_nil_r.
  - eapply wp_mono; [|by apply process_active_ok]. by intros [[n'|]|e] t.
  - eapply wp_mono; [|by apply process_paused_ok]. by intros [[n'|]|e] t.
  - eapply wp_step; [by apply notify_observers_ok| |by intros e t]. intros n' t [H _] _. cbn [wp]. by rewrite app_nil_r.
Qed.

Lemma serve_ok fuel ops : forall n, wp (serve fuel ops n) (fun x t => notifier_ok n ->
  match x with Returned (Some n') => fresh_accepts (client_in n) t -> tracked n t n' | _ => True end).
Proof.
  induction ops as [|op ops IH]; intros n; [intros Hok _; by apply tracks_nil|]. cbn [serve]. apply wp_impl. intros Hok.
  eapply wp_step; [by apply execute_ok| |by intros e t]. intros [n1|] t1 H1; cbn [wp]; [|done].
  eapply wp_mono; [|apply IH].
  intros [[n'|]|e] t2 H2; [|done..].
  intros [Hf1 Hf2]%fresh_accepts_app. specialize (H1 Hf1). eapply tracks_app; [exact H1|]. apply H2; [apply H1|].
  eapply fresh_accepts_ext; [|exact Hf2]. intros fd. symmetry. apply H1.
Qed.

(** C12 Every client is its own automaton.  Whatever the operating system answers, and in
    whatever order subscriptions, the two request loops and notifications are carried
    out, the sets of observers and of paused observers stay proper and disjoint, the
    state of each client is what its own automaton makes of the calls that concern it,
    no matter what the other clients do, and the process holds one descriptor more for
    every client that came and one less for every client that is gone. *)
Theorem notifier_tracks_clients (fuel : nat) (ops : list operation) (n n' : notifier) (w : os) (h : history) :
  notifier_ok n -> (prun w h (serve fuel ops n)).1 = Returned (Some n') ->
  fresh_accepts (client_in n) (prun w h (serve fuel ops n)).2 ->
  notifier_ok n' /\
  (forall fd, client_in n' fd = client_run fd (client_in n fd) (prun w h (serve fuel ops n)).2) /\
  forall fd, tally (opens fd) (prun w h (serve fuel ops n)).2 = is_open (client_in n' fd) - is_open (client_in n fd).
Proof. intros Hok E. generalize (wp_sound _ _ w h (serve_ok fuel ops n) Hok). rewrite E. cbn. intros H Hf. by apply H. Qed.

(** C29 The request loops end when the clients stop sending requests that mean nothing.
    A loop returns within as many rounds as it has clients plus the numbers it reads that
    change nothing, which leave the iterator on the client they came from.  When such
    numbers keep coming it never returns, and the lock of the observers with it. *)
Theorem request_loops_terminate (fuel : nat) (n : notifier) (w : os) (h : history) : notifier_ok n ->
  ((length (dn_observer_sockets n) + stalled active_switch (prun w h (process_active fuel n)).2 <= fuel)%nat ->
     exists n', (prun w h (process_active fuel n)).1 = Returned (Some n')) /\
  ((length (dn_paused_observer_sockets n) + stalled paused_switch (prun w h (process_paused fuel n)).2 <= fuel)%nat ->
     exists n', (prun w h (process_paused fuel n)).1 = Returned (Some n')) /\
  (dn_observer_sockets n <> [] -> (forall h' fd, exists v, w h' (Sys_recv fd sizeof_request) = Rval v /\ v <> 0 /\ active_switch (request_of (v - 1)) = Nothing) ->
     (prun w h (process_active fuel n)).1 = Returned None).
Proof.
  intros Hok. split; [|split].
  - generalize (wp_sound _ _ w h (process_active_ok fuel n Hok)). destruct (prun _ _ _) as [[[n'|]|e] t]; cbn; [by eexists|lia|done].
  - generalize (wp_sound _ _ w h (process_paused_ok fuel n Hok)). destruct (prun _ _ _) as [[[n'|]|e] t]; cbn; [by eexists|lia|done].
  - intros Hne Hw. unfold process_active. destruct (dn_observer_sockets n) as [|fd obs]; [done|]. clear Hne.
    generalize (@nil Z) as kept. revert h. induction fuel as [|fuel IH]; intros h kept; [done|]. cbn [request_loop mbind prog_bind sys].
    rewrite prun_sys. destruct (Hw h fd) as (v & Hv & Hv0 & Hs). rewrite Hv.
    rewrite (proj2 (Z.eqb_neq v 0)) by done. rewrite Hs. specialize (IH (h ++ [(Sys_recv fd sizeof_request, Rval v)]) kept). by destruct (prun _ _ _).
Qed.

(** A notification goes once to every observer, in the order of the descriptors, and
    to nobody else.  [notify_observers] always returns; observers whose connection has
    gone lose their place and their descriptor is closed, all other errors of [send]
    are passed over; paused observers are left alone. *)
Theorem notify_reaches_observers (notification : list Z) (n : notifier) (w : os) (h : history) : notifier_ok n ->
  match prun w h (notify_observers notification n) with
  | (Returned n', t) => notified t = dn_observer_sockets n /\ dn_paused_observer_sockets n' = dn_paused_observer_sockets n /\
      tracked n t n' /\ forall fd, fd ∈ dn_observer_sockets n' -> fd ∈ dn_observer_sockets n
  | (Threw _, _) => False
  end.
Proof.
  intros Hok. generalize (wp_sound _ _ w h (notify_observers_ok notification n Hok)).
  assert (Hp : wp (notify_observers notification n) (fun x _ => match x with Returned n' => dn_paused_observer_sockets n' = dn_paused_observer_sockets n /\
      forall fd, fd ∈ dn_observer_sockets n' -> fd ∈ dn_observer_sockets n | _ => True end)).
  { unfold notify_observers. apply (wp_step _ _ (fun x t => match x with Returned obs => forall fd, fd ∈ obs -> fd ∈ dn_observer_sockets n | _ => True end)); [|done|done].
    apply (wp_mono _ (fun x t => match x with Returned obs => forall fd, fd ∈ obs -> fd ∈ [] ++ dn_observer_sockets n | _ => True end)); [done|].
    generalize (@nil Z) as kept. induction (dn_observer_sockets n) as [|fd obs IH]; intros kept; cbn [notify_loop]; [cbn; set_solver|].
    cbn [mbind prog_bind sys wp]. intros [v|e]; [|destruct (hung_up e); cbn [sys_ mbind prog_bind wp]; [intros r|]];
      (eapply wp_mono; [|apply IH]); intros [obs'|e'] t H; set_solver. }
  generalize (wp_sound _ _ w h Hp). destruct (prun w h (notify_observers notification n)) as [[n'|e] t]; cbn; [|done]. naive_solver.
Qed.

(** * Making, moving and destroying a notifier *)

Lemma substring_all m s : (String.length s <= m)%nat <-> String.substring 0 m s = s.
Proof.
  revert m. induction s as [|c s IH]; intros [|m]; cbn; [by split|by split; [|lia]|split; [lia|done]|].
  rewrite <- Nat.succ_le_mono, IH. split; [by intros ->|by intros [=]].
Qed.

Lemma length_append_string s s' : String.length (s +:+ s') = (String.length s + String.length s')%nat.
Proof. induction s as [|c s IH]; [done|]. exact (f_equal S IH). Qed.

(** The ways [create] can go: its calls in order with their replies, and its result. *)
Inductive creation (id : string) (max_num_observers : Z) : history -> result (expected notifier error_code) -> Prop :=
| no_socket r :
    rc r = -1 ->
    creation id max_num_observers [(Sys_socket, r)] (Returned (Unexpected (socket_code create_error)))
| not_bound r u b r1 r2 :
    let name := "/tmp/" +:+ id +:+ ".ipcpp.sock" in
    rc r <> -1 -> rc b = -1 ->
    creation id max_num_observers
      [(Sys_socket, r); (Sys_unlink name, u); (Sys_bind (rc r) (sun_path name), b); (Sys_shutdown (rc r), r1); (Sys_close (rc r), r2)]
      (Returned (Unexpected (socket_code bind_error)))
| not_listening r u b l r1 r2 :
    let name := "/tmp/" +:+ id +:+ ".ipcpp.sock" in
    rc r <> -1 -> rc b <> -1 -> rc l = -1 ->
    creation id max_num_observers
      [(Sys_socket, r); (Sys_unlink name, u); (Sys_bind (rc r) (sun_path name), b); (Sys_listen (rc r) max_num_observers, l);
       (Sys_shutdown (rc r), r1); (Sys_close (rc r), r2)]
      (Returned (Unexpected (socket_code listen_error)))
| listening r u b l o n :
    let name := "/tmp/" +:+ id +:+ ".ipcpp.sock" in
    rc r <> -1 -> rc b <> -1 -> rc l <> -1 ->
    dn_socket n = rc r -> dn_max_observers n = max_num_observers -> notifier_ok n -> num_observers n = 0 ->
    dn_id n = EmptyString -> dn_identifier n = EmptyString ->
    creation id max_num_observers
      [(Sys_socket, r); (Sys_unlink name, u); (Sys_bind (rc r) (sun_path name), b); (Sys_listen (rc r) max_num_observers, l);
       (Sys_recv_timeout (rc r) 100, o)]
      (Returned (Expected n)).

(** The descriptor that a result owns. *)
Definition owned (x : result (expected notifier error_code)) (fd : Z) : bool :=
  match x with Returned (Expected n) => dn_socket n =? fd | _ => false end.

Lemma creation_descriptors id m t x fd : creation id m t x -> fd <> -1 -> tally (opens fd) t = b2z (owned x fd).
Proof.
  intros [r Hr|r u b r1 r2 name Hr Hb|r u b l r1 r2 name Hr Hb Hl|r u b l o n name Hr Hb Hl Hs _ _ _ _ _] Hfd; unfold tally; cbn [map zsum fst opens owned]; rewrite ?Hs.
  all: destruct r as [v|e]; cbn in *; try done.
  1: subst v; by rewrite (proj2 (Z.eqb_neq (-1) fd)).
  all: lia.
Qed.

(** C39 [create] makes its calls in this order and looks at the results that matter: a
    socket; the removal of the name (result ignored); the name is bound; the socket
    listens for the given number of clients; its receive timeout is set (result
    ignored).  If one of the three that matter fails, the calls after it are not made, the socket is
    shut down and closed, and the error is that of the call: no descriptor is left
    open.  Otherwise the notifier has the bound and listening socket, which is the only descriptor
    open, the given limit and no clients.  The notifier has no name any more, and the socket
    is bound to the first 107 characters of its path while the whole path is unlinked
    before: the two agree exactly for ids of at most 91 characters. *)
Theorem notifier_create (id : string) (max_num_observers : Z) (w : os) (h : history) :
  let '(x, t) := prun w h (dn_create id max_num_observers) in
  creation id max_num_observers t x /\
  (forall fd, fd <> -1 -> tally (opens fd) t = b2z (owned x fd)) /\
  ((String.length id <= 91)%nat <-> sun_path ("/tmp/" +:+ id +:+ ".ipcpp.sock") = "/tmp/" +:+ id +:+ ".ipcpp.sock").
Proof.
  assert (H : wp (dn_create id max_num_observers) (fun x t => creation id max_num_observers t x)).
  { unfold dn_create, setup_socket. cbn -[String.append String.substring]. intros r.
    destruct (Z.eqb_spec (rc r) (-1)) as [Hr|Hr]; cbn -[String.append String.substring].
    { unfold dn_destroy. cbn -[String.append String.substring]. rewrite (proj2 (Z.eqb_eq (rc r) (-1)) Hr). by apply no_socket. }
    intros u b. destruct (Z.eqb_spec (rc b) (-1)) as [Hb|Hb]; [|cbn [mbind prog_bind wp]; intros l; destruct (Z.eqb_spec (rc l) (-1)) as [Hl|Hl]];
      cbn -[String.append String.substring]; unfold dn_destroy; cbn -[String.append String.substring];
      rewrite ?(proj2 (Z.eqb_neq (rc r) (-1))) by done; cbn -[String.append String.substring].
    - intros r1 r2. by apply not_bound.
    - intros r1 r2. by apply not_listening.
    - intros o. apply listening; try done. by repeat split; try constructor; set_solver. }
  generalize (wp_sound _ _ w h H). destruct (prun w h (dn_create id max_num_observers)) as [x t]. intros Hc. split; [done|]. split; [intros fd; by eapply creation_descriptors|].
  unfold sun_path. rewrite <- substring_all, !length_append_string. cbn [String.length]. lia.
Qed.

(** What moving and destroying leave behind.  A moved notifier has the observers and
    forgets the paused ones; destroying a notifier closes its own socket and no other
    descriptor, so that the descriptors of all its clients stay open and their
    connections are not closed. *)
Theorem notifier_end_of_life (n : notifier) (w : os) (h : history) :
  let '(n', rest) := dn_move_construct n in
  (forall fd, client_in n' fd = if decide (client_in n fd = Active) then Active else Gone) /\
  prun w h (dn_destroy rest) = (Returned tt, []) /\
  (prun w h (dn_destroy n)).1 = Returned tt /\
  forall fd, tally (opens fd) (prun w h (dn_destroy n)).2 = - b2z (negb (dn_socket n =? -1) && (dn_socket n =? fd)).
Proof.
  cbn -[prun]. split; [|split; [done|]].
  - intros fd. unfold client_in, state_of. cbn. destruct (decide (fd ∈ dn_observer_sockets n)); [done|].
    destruct (decide (fd ∈ [])) as [H|_]; [by apply not_elem_of_nil in H|]. by destruct (decide (fd ∈ dn_paused_observer_sockets n)).
  - unfold dn_destroy. destruct (Z.eqb_spec (dn_socket n) (-1)) as [E|E]; [done|]. cbn. split; [done|]. intros fd. unfold tally. cbn. lia.
Qed.

(** A thread runs exactly when its flag is set. *)
Definition threads_ok (n : notifier) : Prop :=
  dn_subscription_thread n = dn_subscription_enabled n /\ dn_request_thread n = dn_cancellation_enabled n.

(** The threads follow the flags.  Accepting, rejecting, moving and shutting down keep a
    thread running exactly while its flag is set, so that no thread is ever started
    over a running one, which would end the program.  Rejecting stops the thread that
    reads requests when there is no observer, even if paused ones are waiting to be
    resumed. *)
Theorem notifier_threads (n : notifier) (w : os) (h : history) : threads_ok n ->
  (exists n', prun w h (accept_subscriptions n) = (Returned n', []) /\ threads_ok n' /\ dn_subscription_enabled n' = true) /\
  threads_ok (reject_subscriptions n) /\ dn_subscription_enabled (reject_subscriptions n) = false /\
  (dn_observer_sockets n = [] -> dn_subscription_enabled n = true -> dn_request_thread (reject_subscriptions n) = false) /\
  threads_ok (dn_move_construct n).1 /\ threads_ok (dn_move_construct n).2 /\
  exists n', (prun w h (dn_shutdown n)).1 = Returned n' /\ threads_ok n' /\ dn_subscription_thread n' = false /\ dn_request_thread n' = false.
Proof.
  intros [Hs Hr]. split; [|split; [|split; [|split; [|split; [|split]]]]].
  - unfold accept_subscriptions, start_thread. destruct (dn_subscription_enabled n) eqn:E.
    + eexists. split; [done|]. by repeat split; congruence.
    + destruct (dn_cancellation_enabled n) eqn:Ec; cbn; rewrite ?Hr; cbn; rewrite Hs; eexists; by repeat split.
  - unfold reject_subscriptions. destruct (dn_subscription_enabled n) eqn:E; cbn; [|split; congruence].
    destruct (dn_observer_sockets n); split; done.
  - unfold reject_subscriptions. destruct (dn_subscription_enabled n) eqn:E; cbn; [|done]. by destruct (dn_observer_sockets n).
  - intros Ho E. unfold reject_subscriptions. rewrite E. cbn. by rewrite Ho.
  - done.
  - done.
  - cbn. by eexists.
Qed.

(** * Observer_I *)
Section observer.
Context {N R E : Type}.

(* @source include/ipcpp/event/observer.h 110-111 Observer_I *)
Record observer : Type := { ob_subscribed : bool; ob_subscription_paused : bool }.

(** [helper]: [_m_receive_helper] of the class that implements the interface. *)
(* @source include/ipcpp/event/observer.h 70-102 Observer_I::receive *)
Definition ob_receive (helper : (N -> R) -> prog (expected R E)) (o : observer) (callback : N -> R) : prog (expected R error_code) :=
  if negb (ob_subscribed o) then Ret (Unexpected (event_code not_subscribed))
  else if ob_subscription_paused o then Ret (Unexpected (event_code subscription_paused))
  else
    result ← helper callback;
    match result with
    | Unexpected _ => Ret (Unexpected no_error)
    | Expected r => Ret (Expected r)
    end.

(** [receive] refuses observers that are not subscribed or are paused without a call, passes
    the callback's result on, and reports every failure of the implementation, a
    timeout as much as a notifier that is down, as the error code of success. *)
Theorem observer_receive_errors (helper : (N -> R) -> prog (expected R E)) (o : observer) (callback : N -> R) (w : os) (h : history) :
  prun w h (ob_receive helper o callback) =
  if negb (ob_subscribed o) then (Returned (Unexpected (event_code not_subscribed)), [])
  else if ob_subscription_paused o then (Returned (Unexpected (event_code subscription_paused)), [])
  else match prun w h (helper callback) with
       | (Returned (Expected r), t) => (Returned (Expected r), t)
       | (Returned (Unexpected _), t) => (Returned (Unexpected no_error), t)
       | (Threw e, t) => (Threw e, t)
       end.
Proof.
  unfold ob_receive. destruct (ob_subscribed o), (ob_subscription_paused o); try done. cbn [negb]. rewrite prun_bind.
  destruct (prun _ _ _) as [[[r|e]|e] t]; cbn; by rewrite ?app_nil_r.
Qed.
End observer.

(** * Concrete runs *)

(** New descriptors count up; the client on descriptor 5 asks for a pause, others are silent. *)
Definition demo_socket_os : os := fun h c =>
  match c with
  | Sys_accept _ => Rval (5 + zlen h)
  | Sys_recv fd _ => if fd =? 5 then Rval 3 else Rerr 11
  | _ => Rval 0
  end.
Definition demo_notifier : notifier := set_socket 4 (dn_construct "demo" 10).
Definition demo_ops : list operation := [Accept; Accept; ActiveRequests; Notify [9; 0; 0; 0]].

Lemma demo_notifier_ok : notifier_ok demo_notifier.
Proof. split; [constructor|]. split; [constructor|]. intros fd H. by apply not_elem_of_nil in H. Qed.

Lemma notifier_tracks_clients_witness :
  exists n', (prun demo_socket_os [] (serve 9 demo_ops demo_notifier)).1 = Returned (Some n') /\
    dn_observer_sockets n' = [7] /\ dn_paused_observer_sockets n' = [5] /\ notifier_ok n'.
Proof.
  eexists. split; [vm_compute; reflexivity|]. do 2 (split; [reflexivity|]).
  apply (notifier_tracks_clients 9 demo_ops demo_notifier _ demo_socket_os []); [exact demo_notifier_ok|vm_compute; reflexivity|].
  assert (E : exists t, (prun demo_socket_os [] (serve 9 demo_ops demo_notifier)).2 = t /\ fresh_accepts (client_in demo_notifier) t)
    by (eexists; split; [vm_compute; reflexivity|]; by repeat split; cbn; try lia).
  destruct E as (t & <- & H). exact H.
Defined.

Lemma request_loops_terminate_witness :
  (prun (fun _ _ => Rval 1) [] (process_active 9 (set_clients [5] [] demo_notifier))).1 = Returned None.
Proof.
  apply (request_loops_terminate 9 (set_clients [5] [] demo_notifier) (fun _ _ => Rval 1) []); [|done|].
  - split; [apply NoDup_singleton|]. split; [constructor|]. intros fd _ H. by apply not_elem_of_nil in H.
  - intros h' fd. by exists 1.
Defined.

Lemma notify_reaches_observers_witness :
  exists n' t, prun demo_socket_os [] (notify_observers [9] (set_clients [5; 7] [8] demo_notifier)) = (Returned n', t) /\ notified t = [5; 7].
Proof.
  eexists _, _. split; [vm_compute; reflexivity|].
  refine (proj1 (notify_reaches_observers [9] (set_clients [5; 7] [8] demo_notifier) demo_socket_os [] _)).
  split; [by repeat constructor; set_solver|]. split; [apply NoDup_singleton|]. intros fd. cbn. set_solver.
Defined.

Lemma notifier_threads_witness : exists n', prun demo_socket_os [] (accept_subscriptions demo_notifier) = (Returned n', []) /\ threads_ok n'.
Proof.
  destruct (notifier_threads demo_notifier demo_socket_os []) as [(n' & H & Hok & _) _]; [done|]. by exists n'.
Defined.
