(* ===== verification/Observer.v ===== *)
(** The observer over unix domain sockets, [event/domain_socket_observer.h], and its
    connection with the notifier.

    The header names error types that are declared nowhere ([SubscriptionError],
    [NotificationError], [create_error_type]) and does not compile for that reason; their
    enumerators are parameters here, everything else is as it is written.  The first part
    is about the observer on any operating system, the second runs its functions and those
    of [DomainSocket] against each other: the kernel between them is a parameter
    ([Kernel]), and what the manual pages say about its stream sockets is the class
    [StreamSockets]. *)
From S2P Require Import Prelude Numeric Errors Os DomainSocket.
Local Open Scope string_scope.
Local Open Scope list_scope.
Local Open Scope Z_scope.

(** The values of the enumerators the observer uses. *)
Record observer_errors : Type := {
  OBSERVER_SETUP_FAILED : Z; NOTIFIER_UNREACHABLE : Z; OBSERVER_NOT_SUBSCRIBED : Z; UNKNOWN : Z; NO_ERROR : Z;
  CREATION_ERROR : Z; CONNECTION_ERROR : Z;
  TIMEOUT_SETUP_ERROR : Z; TIMEOUT : Z; NOTIFICATION_ERROR : Z; NOTIFIER_DOWN : Z;
  response_info : Z   (* [response.info] of a response that is false *)
}.

(* @source include/ipcpp/event/domain_socket_observer.h 199-202 DomainSocketObserver *)
Record socket_observer : Type := { so_base : observer; so_id : string; so_socket : Z }.

Definition so_set_socket (s : Z) (o : socket_observer) : socket_observer :=
  {| so_base := so_base o; so_id := so_id o; so_socket := s |}.
Definition so_set_subscribed (b : bool) (o : socket_observer) : socket_observer :=
  {| so_base := {| ob_subscribed := b; ob_subscription_paused := ob_subscription_paused (so_base o) |};
     so_id := so_id o; so_socket := so_socket o |}.
Abbreviation is_subscribed o := (ob_subscribed (so_base o)).
Abbreviation is_subscription_paused o := (ob_subscription_paused (so_base o)).

Section socket_observer.
Context (E : observer_errors) (sizeof_notification : Z).

Definition sizeof_bool : Z := 1.
Definition sizeof_error : Z := 4.
Definition EAGAIN : Z := 11.

(** The bytes of a number, the lowest first, and back. *)
Definition le_bytes (k : nat) (v : Z) : list Z := (fun i => (v / 256 ^ Z.of_nat i) mod 256) <$> seq 0 k.
Fixpoint le_value (bytes : list Z) : Z := match bytes with [] => 0 | b :: bytes => b + 256 * le_value bytes end.

Definition request_value (r : observer_request) : Z :=
  match r with SUBSCRIBE => 0 | CANCEL_SUBSCRIPTION => 1 | PAUSE_SUBSCRIPTION => 2 | RESUME_SUBSCRIPTION => 3 end.
Definition request_bytes (r : observer_request) : list Z := le_bytes (Z.to_nat sizeof_request) (request_value r).

(* @source include/ipcpp/event/domain_socket_observer.h 142-142 DomainSocketObserver::DomainSocketObserver(id) *)
Definition so_construct (id : string) : socket_observer :=
  {| so_base := {| ob_subscribed := false; ob_subscription_paused := false |}; so_id := id; so_socket := -1 |}.

(** The base class has no move and is copied; [left] is what the library leaves in a string
    that is moved from. *)
(* @source include/ipcpp/event/domain_socket_observer.h 29-32 DomainSocketObserver::DomainSocketObserver(other) *)
Definition so_move_construct (left : string) (other : socket_observer) : socket_observer * socket_observer :=
  (other, {| so_base := so_base other; so_id := left; so_socket := -1 |}).

(** [None]: success. *)
(* @source include/ipcpp/event/domain_socket_observer.h 144-159 DomainSocketObserver::_m_setup_socket *)
Definition so_setup_socket (o : socket_observer) : prog (option Z * socket_observer) :=
  s ← sys Sys_socket;
  let o := so_set_socket (rc s) o in
  if rc s =? -1 then Ret (Some (CREATION_ERROR E), o)
  else
    c ← sys (Sys_connect (so_socket o) (sun_path (so_id o)));
    if rc c =? -1 then Ret (Some (CONNECTION_ERROR E), o) else Ret (None, o).

(** Shutting the socket down, closing and forgetting it. *)
Definition so_hang_up (o : socket_observer) : prog socket_observer :=
  _ ← sys_ (Sys_shutdown (so_socket o)); _ ← sys_ (Sys_close (so_socket o)); Ret (so_set_socket (-1) o).

(** At the end of the stream [recv] returns 0 and leaves [response] uninitialised, which is
    then read. *)
(* @source include/ipcpp/event/domain_socket_observer.h 55-76 DomainSocketObserver::subscribe *)
Definition so_subscribe (o : socket_observer) : prog (outcome (expected bool Z * socket_observer)) :=
  o ← (if is_subscription_paused o then so_hang_up o else Ret o);
  '(failure, o) ← so_setup_socket o;
  match failure with
  | Some _ => Ret (Ok (Unexpected (OBSERVER_SETUP_FAILED E), o))
  | None =>
    r ← sys (Sys_recv (so_socket o) sizeof_bool);
    match r with
    | Rerr _ => Ret (Ok (Unexpected (NOTIFIER_UNREACHABLE E), o))
    | Rval v =>
      if v =? 0 then Ret UB
      else if negb (v - 1 =? 0) then Ret (Ok (Expected true, so_set_subscribed true o))
      else Ret (Ok (Unexpected (response_info E), o))
    end
  end.

(* @source include/ipcpp/event/domain_socket_observer.h 78-107 DomainSocketObserver::cancel_subscription *)
Definition so_cancel_subscription (o : socket_observer) : prog (expected unit Z * socket_observer) :=
  if negb (is_subscribed o) then Ret (Unexpected (OBSERVER_NOT_SUBSCRIBED E), o)
  else if is_subscription_paused o then o ← so_hang_up o; Ret (Expected tt, o)
  else
    s ← sys (Sys_send (so_socket o) false (request_bytes CANCEL_SUBSCRIPTION));
    if rc s =? -1 then Ret (Unexpected (NOTIFIER_UNREACHABLE E), o)
    else
      r ← sys (Sys_recv (so_socket o) sizeof_error);
      match r with
      | Rerr _ => Ret (Unexpected (NOTIFIER_UNREACHABLE E), o)
      | Rval v =>
        let response := if v =? 0 then UNKNOWN E else v - 1 in
        if response =? NO_ERROR E then o ← so_hang_up o; Ret (Expected tt, o)
        else Ret (Unexpected response, o)
      end.

(* @source include/ipcpp/event/domain_socket_observer.h 109-123 DomainSocketObserver::pause_subscription *)
Definition so_pause_subscription (o : socket_observer) : prog (expected unit Z) :=
  if negb (is_subscribed o) then Ret (Unexpected (OBSERVER_NOT_SUBSCRIBED E))
  else if is_subscription_paused o then Ret (Expected tt)
  else
    s ← sys (Sys_send (so_socket o) false (request_bytes PAUSE_SUBSCRIPTION));
    if rc s =? -1 then Ret (Unexpected (NOTIFIER_UNREACHABLE E)) else Ret (Expected tt).

(* @source include/ipcpp/event/domain_socket_observer.h 125-139 DomainSocketObserver::resume_subscription *)
Definition so_resume_subscription (o : socket_observer) : prog (expected unit Z) :=
  if negb (is_subscribed o) then Ret (Unexpected (OBSERVER_NOT_SUBSCRIBED E))
  else if is_subscription_paused o then Ret (Expected tt)
  else
    s ← sys (Sys_send (so_socket o) false (request_bytes RESUME_SUBSCRIPTION));
    if rc s =? -1 then Ret (Unexpected (NOTIFIER_UNREACHABLE E)) else Ret (Expected tt).

(* @source include/ipcpp/event/domain_socket_observer.h 37-48 DomainSocketObserver::~DomainSocketObserver *)
Definition so_destroy (o : socket_observer) : prog unit :=
  if negb (so_socket o =? -1) then
    o ← (if is_subscribed o then '(_, o) ← so_cancel_subscription o; Ret o else Ret o);
    _ ← sys_ (Sys_shutdown (so_socket o)); sys_ (Sys_close (so_socket o))
  else Ret tt.

(* @source include/ipcpp/event/domain_socket_observer.h 50-53 DomainSocketObserver::create *)
Definition so_create (left id : string) : prog (expected socket_observer Z) :=
  let '(v, self) := so_move_construct left (so_construct id) in
  _ ← so_destroy self; Ret (Expected v).

(** [timeval] in microseconds. *)
Definition timeval_of (milliseconds : Z) : Z := milliseconds / 1000 * 1000000 + milliseconds mod 1000 * 1000.

Section receive.
Context {R : Type}.

(** A notification is the number its bytes spell. *)
(* @source include/ipcpp/event/domain_socket_observer.h 161-196 DomainSocketObserver::_m_receive_helper *)
Definition so_receive_helper (o : socket_observer) (timeout : Z) (callback : Z -> R) : prog (expected R Z) :=
  let receive (original_timeout : Z) : prog (expected R Z) :=
    result ← sys (Sys_recv (so_socket o) sizeof_notification);
    match result with
    | Rerr errno => if errno =? EAGAIN then Ret (Unexpected (TIMEOUT E)) else Ret (Unexpected (NOTIFICATION_ERROR E))
    | Rval v =>
      if v =? 0 then Ret (Unexpected (NOTIFIER_DOWN E))
      else
        _ ← (if timeout >? 0 then sys_ (Sys_recv_timeout (so_socket o) original_timeout) else Ret tt);
        Ret (Expected (callback (v - 1)))
    end in
  if timeout >? 0 then
    g ← sys (Sys_get_recv_timeout (so_socket o));
    let original_timeout := match g with Rval t => t | Rerr _ => 0 end in
    s ← sys (Sys_recv_timeout (so_socket o) (timeval_of timeout));
    if rc s <? 0 then Ret (Unexpected (TIMEOUT_SETUP_ERROR E)) else receive original_timeout
  else receive 0.

Definition so_receive (timeout : Z) (callback : Z -> R) (o : socket_observer) : prog (expected R error_code) :=
  ob_receive (so_receive_helper o timeout) (so_base o) callback.
End receive.

(** * Any operating system *)

Inductive observer_op : Type := Subscribe | Cancel | Pause | Resume | Receive (timeout : Z).

Definition so_step (op : observer_op) (o : socket_observer) : prog (outcome socket_observer) :=
  match op with
  | Subscribe => r ← so_subscribe o; Ret ('(_, o') ← r; Ok o')
  | Cancel => '(_, o') ← so_cancel_subscription o; Ret (Ok o')
  | Pause => _ ← so_pause_subscription o; Ret (Ok o)
  | Resume => _ ← so_resume_subscription o; Ret (Ok o)
  | Receive ms => _ ← so_receive ms (fun n => n) o; Ret (Ok o)
  end.

(** The descriptor that an operation forgets without closing it. *)
Definition forgets (op : observer_op) (o : socket_observer) : list Z :=
  match op with
  | Subscribe => if is_subscription_paused o || (so_socket o =? -1) then [] else [so_socket o]
  | _ => []
  end.

(** The operations one after the other and the destructor; the result are the forgotten
    descriptors. *)
Fixpoint so_session (ops : list observer_op) (o : socket_observer) : prog (outcome (list Z)) :=
  match ops with
  | [] => _ ← so_destroy o; Ret (Ok [])
  | op :: ops =>
    r ← so_step op o;
    match r with
    | Ok o' => l ← so_session ops o'; Ret (l ← l; Ok (forgets op o ++ l))
    | Throw e => Ret (Throw e)
    | UB => Ret UB
    end
  end.

Definition holds_socket (o : socket_observer) (fd : Z) : Z := b2z (so_socket o =? fd).
Definition copies (fd : Z) (l : list Z) : Z := count (fun x => x =? fd) l.

(** The end of a history in which a subscription has a connection and its [recv] reports
    the end of the stream: the notifier has closed it instead of answering. *)
Definition unanswered (t : history) : Prop :=
  exists t' fd path c, t = t' ++ [(Sys_socket, Rval fd); (Sys_connect fd path, c); (Sys_recv fd sizeof_bool, Rval 0)] /\
    fd <> -1 /\ rc c <> -1.
Lemma unanswered_app t t' : unanswered t' -> unanswered (t ++ t').
Proof. intros (t1 & fd & path & c & -> & H). exists (t ++ t1), fd, path, c. by rewrite app_assoc. Qed.

(** What an operation leaves: the flags only go up, every descriptor but the forgotten ones
    is in the object. *)
Definition step_ok (op : observer_op) (o : socket_observer) (x : result (outcome socket_observer)) (t : history) : Prop :=
  match x with
  | Returned (Ok o') =>
      is_subscription_paused o' = is_subscription_paused o /\ (is_subscribed o = true -> is_subscribed o' = true) /\ so_id o' = so_id o /\
      (op = Subscribe \/ so_socket o' = so_socket o \/ so_socket o' = -1) /\
      forall fd, fd <> -1 -> tally (opens fd) t = holds_socket o' fd - holds_socket o fd + copies fd (forgets op o)
  | Returned UB => op = Subscribe /\ unanswered t
  | _ => False
  end.

Ltac os_step := cbn [mbind prog_bind sys sys_ wp so_hang_up rc failed].
Ltac close_tally := intros; unfold tally, holds_socket, copies, b2z; cbn; repeat (gcase; cbn in *); try lia.
Ltac step_done := cbn; do 3 (split; [done|]); try (split; [auto|]); close_tally.

Lemma cancel_ok o : wp (so_cancel_subscription o) (fun x t =>
  match x with Returned (_, o') => step_ok Cancel o (Returned (Ok o')) t /\ so_base o' = so_base o | Threw _ => False end).
Proof.
  unfold so_cancel_subscription. destruct (negb (is_subscribed o)); [split; [step_done|done]|].
  destruct (is_subscription_paused o) eqn:Hp.
  { os_step. intros r1 r2. split; [|done]. cbn. rewrite Hp. step_done. }
  os_step. intros s. destruct (rc s =? -1); [split; [step_done|done]|]. os_step. intros [v|e]; [|split; [step_done|done]].
  cbv zeta. destruct (_ =? NO_ERROR E); [|split; [step_done|done]].
  os_step. intros r1 r2. split; [|done]. step_done.
Qed.

Lemma subscribe_ok o : wp (so_subscribe o) (fun x t =>
  match x with
  | Returned r => step_ok Subscribe o (Returned ('(_, o') ← r; Ok o')) t
  | Threw _ => False
  end).
Proof.
  assert (H : forall o1, wp ('(failure, o) ← so_setup_socket o1;
    match failure with
    | Some _ => Ret (Ok (Unexpected (OBSERVER_SETUP_FAILED E), o))
    | None =>
      r ← sys (Sys_recv (so_socket o) sizeof_bool);
      match r with
      | Rerr _ => Ret (Ok (Unexpected (NOTIFIER_UNREACHABLE E), o))
      | Rval v =>
        if v =? 0 then Ret UB
        else if negb (v - 1 =? 0) then Ret (Ok (Expected true, so_set_subscribed true o))
        else Ret (Ok (Unexpected (response_info E), o))
      end
    end) (fun x t => match x with
      | Returned (Ok (_, o')) => is_subscription_paused o' = is_subscription_paused o1 /\ (is_subscribed o1 = true -> is_subscribed o' = true) /\
          so_id o' = so_id o1 /\ forall fd, fd <> -1 -> tally (opens fd) t = holds_socket o' fd
      | Returned UB => unanswered t | _ => False end)).
  { intros o1. unfold so_setup_socket. os_step. intros [s|e]; cbn [rc].
    - destruct (Z.eqb_spec s (-1)) as [->|Hs]; [cbn; step_done|]. os_step. intros c. destruct (Z.eqb_spec (rc c) (-1)); [cbn; step_done|].
      os_step. intros [v|e]; [|cbn; step_done]. destruct (Z.eqb_spec v 0) as [->|Hv]; [by exists [], s, (sun_path (so_id o1)), c|]. destruct (negb _); cbn; step_done.
    - cbn. step_done. }
  unfold so_subscribe. destruct (is_subscription_paused o) eqn:Hp.
  - os_step. intros r1 r2. eapply wp_mono; [|apply H]. intros [[[r o']|e|]|e] t; cbn; [|done|intros Hu; split; [done|by apply (unanswered_app [_; _])]|done].
    intros (H1 & H2 & H3 & H4). do 3 (split; [done|]). split; [by left|]. intros fd Hfd. rewrite Hp, !tally_cons, H4 by done. unfold holds_socket. cbn. lia.
  - cbn [mbind prog_bind]. eapply wp_mono; [|apply H]. intros [[[r o']|e|]|e] t; cbn; [|done..].
    intros (H1 & H2 & H3 & H4). do 3 (split; [done|]). split; [by left|]. intros fd Hfd. rewrite Hp, H4 by done. unfold holds_socket. cbn.
    destruct (Z.eqb_spec (so_socket o) (-1)) as [->|]; cbn; [|unfold b2z; gcase; lia]. rewrite (proj2 (Z.eqb_neq (-1) fd)) by done. cbn. lia.
Qed.

Lemma so_quiet_ok {A} (p : prog A) op o : only (fun c => forall fd r, opens fd c r = 0) p -> (forall f, forgets op o = f -> f = []) ->
  wp p (fun x _ => match x with Returned _ => True | Threw _ => False end) ->
  wp (_ ← p; Ret (Ok o)) (step_ok op o).
Proof.
  intros Hp Hf Ht. eapply wp_step; [apply (wp_and _ _ _ Ht (only_wp _ _ Hp))| |by intros e t []].
  intros a t [_ H]. cbn. do 3 (split; [done|]). split; [auto|]. intros fd _. rewrite app_nil_r, (Hf _ eq_refl). unfold copies. cbn.
  assert (tally (opens fd) t = 0); [|lia]. induction H as [|[c r] t Hc _ IH]; [done|]. rewrite tally_cons, IH. specialize (Hc fd r). cbn in Hc. lia.
Qed.

Lemma so_step_ok op o : wp (so_step op o) (step_ok op o).
Proof.
  destruct op as [| | | |ms]; cbn [so_step].
  - eapply wp_step; [apply subscribe_ok| |by intros e t]. intros r t H. cbn [wp]. by rewrite app_nil_r.
  - eapply wp_step; [apply cancel_ok| |by intros e t]. intros [r o'] t [H _]. cbn [wp]. by rewrite app_nil_r.
  - apply so_quiet_ok; [unfold so_pause_subscription; only_calls|by intros f <-|].
    unfold so_pause_subscription. repeat case_match; cbn; try done. intros r. by case_match.
  - apply so_quiet_ok; [unfold so_resume_subscription; only_calls|by intros f <-|].
    unfold so_resume_subscription. repeat case_match; cbn; try done. intros r. by case_match.
  - apply so_quiet_ok; [unfold so_receive, ob_receive, so_receive_helper; only_calls|by intros f <-|].
    unfold so_receive, ob_receive, so_receive_helper. repeat case_match; cbn; try done; intros; repeat (case_match; cbn; try done; intros).
Qed.

Lemma so_destroy_ok o : wp (so_destroy o) (fun x t => x = Returned tt /\ forall fd, fd <> -1 -> tally (opens fd) t = - holds_socket o fd).
Proof.
  unfold so_destroy. destruct (Z.eqb_spec (so_socket o) (-1)) as [Hs|Hs]; cbn [negb].
  { split; [done|]. intros fd Hfd. unfold tally, holds_socket. rewrite Hs, (proj2 (Z.eqb_neq (-1) fd)) by done. done. }
  assert (H : wp (if is_subscribed o then '(_, o) ← so_cancel_subscription o; Ret o else Ret o) (fun x t =>
    match x with Returned o' => forall fd, fd <> -1 -> tally (opens fd) t = holds_socket o' fd - holds_socket o fd | Threw _ => False end)).
  { destruct (is_subscribed o); [|cbn; intros; unfold tally; cbn; lia].
    eapply wp_step; [apply cancel_ok| |by intros e t]. intros [r o'] t [(_ & _ & _ & _ & Ht) _]. cbn [wp]. intros fd Hfd.
    rewrite app_nil_r, Ht by done. unfold copies. cbn. lia. }
  eapply wp_step; [exact H| |by intros e t]. intros o' t Ht. os_step. intros r1 r2. split; [done|]. intros fd Hfd.
  rewrite tally_app, Ht by done. unfold tally, holds_socket. cbn. lia.
Qed.

(** Only a second subscription can forget a descriptor. *)
#[export] Instance observer_op_eq_dec : EqDecision observer_op.
Proof. solve_decision. Defined.
Definition subscriptions (ops : list observer_op) : nat := length (filter (fun op => op = Subscribe) ops).

Lemma subscriptions_cons op ops : subscriptions (op :: ops) = if decide (op = Subscribe) then S (subscriptions ops) else subscriptions ops.
Proof. unfold subscriptions. rewrite filter_cons. by destruct (decide _). Qed.
#[global] Arguments subscriptions : simpl never.
Definition unconnected (o : socket_observer) : nat := if so_socket o =? -1 then 1%nat else 0%nat.

Lemma so_session_ok ops : forall o, wp (so_session ops o) (fun x t =>
  match x with
  | Returned (Ok leaked) => (forall fd, fd <> -1 -> tally (opens fd) t = copies fd leaked - holds_socket o fd) /\
      (length leaked <= subscriptions ops - unconnected o)%nat
  | Returned UB => unanswered t
  | _ => False
  end).
Proof.
  induction ops as [|op ops IH]; intros o; cbn [so_session].
  - eapply wp_step; [apply so_destroy_ok| |by intros e t []]. intros a t [_ Ht]. cbn [wp]. split; [|cbn; lia].
    intros fd Hfd. rewrite app_nil_r, Ht by done. unfold copies. cbn. lia.
  - eapply wp_step; [apply so_step_ok| |by intros e t]. intros [o'|e|] t H; cbn [step_ok] in H; [|done|cbn; rewrite app_nil_r; apply H].
    destruct H as (_ & _ & _ & Hs & Ht). eapply wp_step; [apply IH| |by intros e t' ?].
    intros [l|e|] t' H'; [|done|by cbn; rewrite app_nil_r; apply unanswered_app]. destruct H' as [Ht' Hl]. cbn. split.
    + intros fd Hfd. rewrite app_nil_r, tally_app, Ht, Ht' by done. unfold copies. rewrite count_app. lia.
    + rewrite length_app, subscriptions_cons. unfold unconnected in *. destruct (decide (op = Subscribe)) as [->|Hop].
      * cbn. destruct (so_socket o =? -1), (so_socket o' =? -1); destruct (is_subscription_paused o); cbn in *; lia.
      * destruct Hs as [|[Hs|Hs]]; [done| |]; rewrite Hs in Hl; [destruct op; [done|..]; cbn; exact Hl|].
        rewrite Z.eqb_refl in Hl. destruct op; [done|..]; cbn; destruct (so_socket o =? -1); lia.
Qed.

(** * An observer and a notifier on one connection

    The kernel is not code of the library: it is a parameter.  A connection can be looked
    at as two queues of bytes and what is open at its ends; what the manual pages
    unix(7), send(2), recv(2), accept(2) and socket(7) say about connected stream sockets
    is stated one rule at a time, and the theorems hold for every kernel that keeps to
    the rules.  A call the rules do not mention may do anything. *)
Record link : Type := {
  lk_pending : bool;       (* connected, not yet accepted *)
  lk_server : bool;        (* the notifier's end is open *)
  lk_client : bool;        (* the observer's end is open *)
  lk_up : list Z;          (* to the notifier *)
  lk_down : list Z;        (* to the observer *)
  lk_timeout : Z           (* of [recv] on the observer's end, 0: none *)
}.
Definition lk_flags p s c (k : link) : link :=
  {| lk_pending := p; lk_server := s; lk_client := c; lk_up := lk_up k; lk_down := lk_down k; lk_timeout := lk_timeout k |}.
Definition lk_set_up u (k : link) : link :=
  {| lk_pending := lk_pending k; lk_server := lk_server k; lk_client := lk_client k; lk_up := u; lk_down := lk_down k; lk_timeout := lk_timeout k |}.
Definition lk_set_down d (k : link) : link :=
  {| lk_pending := lk_pending k; lk_server := lk_server k; lk_client := lk_client k; lk_up := lk_up k; lk_down := d; lk_timeout := lk_timeout k |}.
Definition lk_set_timeout t (k : link) : link :=
  {| lk_pending := lk_pending k; lk_server := lk_server k; lk_client := lk_client k; lk_up := lk_up k; lk_down := lk_down k; lk_timeout := t |}.

Definition received (size : Z) (bytes : list Z) : reply := Rval (1 + le_value (take (Z.to_nat size) bytes)).
Definition remaining (size : Z) (bytes : list Z) : list Z := drop (Z.to_nat size) bytes.

Section connection.
(** The descriptors of the three ends, the bytes a direction holds at most, and the path. *)
Context (listening server_fd client_fd capacity : Z) (address : string).

(** The buffer of a direction has room for [bytes] more. *)
Definition room (queued bytes : list Z) : bool := zlen queued + zlen bytes <=? capacity.

(** What a call of the notifier's process answers and makes of the connection.  The
    listening socket has a timeout, so that [accept] does not wait for ever;
    the requests are read with [MSG_DONTWAIT]. *)
Inductive server_rule : link -> call -> reply -> link -> Prop :=
| accept_pending k : lk_pending k = true ->
    server_rule k (Sys_accept listening) (Rval server_fd) (lk_flags false true (lk_client k) k)
| accept_times_out k : lk_pending k = false ->
    server_rule k (Sys_accept listening) (Rerr EAGAIN) k
| server_recv_bytes k size : lk_server k = true -> lk_up k <> [] ->
    server_rule k (Sys_recv server_fd size) (received size (lk_up k)) (lk_set_up (remaining size (lk_up k)) k)
| server_recv_nothing k size : lk_server k = true -> lk_client k = true -> lk_up k = [] ->
    server_rule k (Sys_recv server_fd size) (Rerr EAGAIN) k
| server_send_room k nosignal bytes : lk_server k = true -> lk_client k = true -> room (lk_down k) bytes = true ->
    server_rule k (Sys_send server_fd nosignal bytes) (Rval (zlen bytes)) (lk_set_down (lk_down k ++ bytes) k)
| server_close k : lk_server k = true ->
    server_rule k (Sys_close server_fd) (Rval 0) (lk_flags (lk_pending k) false (lk_client k) k).

(** [send] waits while there is no room for what it sends. *)
Inductive server_waits : link -> call -> Prop :=
| server_send_waits k nosignal bytes : lk_server k = true -> lk_client k = true -> room (lk_down k) bytes = false ->
    server_waits k (Sys_send server_fd nosignal bytes).

(** The same for the observer's process. *)
Inductive client_rule : link -> call -> reply -> link -> Prop :=
| client_socket k : lk_client k = false ->
    client_rule k Sys_socket (Rval client_fd) k
| client_connect k : lk_client k = false -> lk_server k = false ->
    client_rule k (Sys_connect client_fd address) (Rval 0) (lk_flags true false true k)
| client_get_timeout k :
    client_rule k (Sys_get_recv_timeout client_fd) (Rval (lk_timeout k)) k
| client_set_timeout k t :
    client_rule k (Sys_recv_timeout client_fd t) (Rval 0) (lk_set_timeout t k)
| client_send_room k nosignal bytes : lk_client k = true -> lk_server k = true -> room (lk_up k) bytes = true ->
    client_rule k (Sys_send client_fd nosignal bytes) (Rval (zlen bytes)) (lk_set_up (lk_up k ++ bytes) k)
| client_recv_bytes k size : lk_client k = true -> lk_down k <> [] ->
    client_rule k (Sys_recv client_fd size) (received size (lk_down k)) (lk_set_down (remaining size (lk_down k)) k)
| client_recv_end k size : lk_client k = true -> lk_down k = [] -> lk_server k = false -> lk_pending k = false ->
    client_rule k (Sys_recv client_fd size) (Rval 0) k
| client_recv_times_out k size : lk_client k = true -> lk_down k = [] -> lk_server k = true -> lk_timeout k <> 0 ->
    client_rule k (Sys_recv client_fd size) (Rerr EAGAIN) k
| client_shutdown k : 
    client_rule k (Sys_shutdown client_fd) (Rval 0) (lk_flags (lk_pending k) (lk_server k) false k)
| client_close k :
    client_rule k (Sys_close client_fd) (Rval 0) (lk_flags (lk_pending k) (lk_server k) false k).

Inductive client_waits : link -> call -> Prop :=
| client_send_waits k nosignal bytes : lk_client k = true -> lk_server k = true -> room (lk_up k) bytes = false ->
    client_waits k (Sys_send client_fd nosignal bytes)
| client_recv_waits k size : lk_client k = true -> lk_down k = [] -> lk_server k = true -> lk_timeout k = 0 ->
    client_waits k (Sys_recv client_fd size).

(** A kernel: its states, what of them is the connection, and the calls of either process;
    [None]: the call waits. *)
Class Kernel (K : Type) : Type := {
  kn_link : K -> link;
  kn_server : K -> call -> option (reply * K);
  kn_client : K -> call -> option (reply * K)
}.
Class StreamSockets (K : Type) `{Kernel K} : Prop := {
  server_obeys k c r l : server_rule (kn_link k) c r l -> exists k', kn_server k c = Some (r, k') /\ kn_link k' = l;
  server_blocks k c : server_waits (kn_link k) c -> kn_server k c = None;
  client_obeys k c r l : client_rule (kn_link k) c r l -> exists k', kn_client k c = Some (r, k') /\ kn_link k' = l;
  client_blocks k c : client_waits (kn_link k) c -> kn_client k c = None
}.

Context {K : Type} `{kernel : Kernel K, obeys : !StreamSockets K}.

(** A program of the notifier; [None]: it waits for ever. *)
Fixpoint server_run {A} (k : K) (p : prog A) : option (result A * K) :=
  match p with
  | Ret a => Some (Returned a, k)
  | Raise e => Some (Threw e, k)
  | Sys c q => '(r, k') ← kn_server k c; server_run k' (q r)
  end.

Lemma server_run_bind {A B} (p : prog A) (f : A -> prog B) : forall k, server_run k (p ≫= f) =
  '(a, k') ← server_run k p; match a with Returned a => server_run k' (f a) | Threw e => Some (Threw e, k') end.
Proof.
  induction p as [a|e|c q IH]; intros k; [done..|].
  change (Sys c q ≫= f) with (Sys c (fun r => q r ≫= f)). cbn [server_run]. destruct (kn_server k c) as [[r k']|]; [|done].
  cbn [mbind option_bind]. apply IH.
Qed.

Lemma server_call k c r l : server_rule (kn_link k) c r l ->
  exists k', kn_link k' = l /\ forall A (q : reply -> prog A), server_run k (Sys c q) = server_run k' (q r).
Proof. intros H. destruct (server_obeys _ _ _ _ H) as (k' & Hk & Hl). exists k'. split; [done|]. intros A q. cbn [server_run]. by rewrite Hk. Qed.

Lemma server_wait {A} k c (q : reply -> prog A) : server_waits (kn_link k) c -> server_run k (Sys c q) = None.
Proof. intros H. cbn [server_run]. by rewrite (server_blocks _ _ H). Qed.

(** The notifier's process and the kernel; [wd_answer]: the client that has been accepted and
    waits for its answer. *)
Record world : Type := { wd_notifier : notifier; wd_answer : option Z; wd_kernel : K }.
Definition wd_set_kernel (k : K) (w : world) : world := {| wd_notifier := wd_notifier w; wd_answer := wd_answer w; wd_kernel := k |}.
Abbreviation wd_link w := (kn_link (wd_kernel w)).

(** What the threads of the notifier do between two calls of the observer. *)
Inductive server_op : Type := Insert | Answer | ActiveRound | PausedRound | Broadcast (notification : list Z).

(** [None]: the operation waits in a call, or a request loop is not through after [fuel]
    rounds. *)
Definition server_step (fuel : nat) (op : server_op) (w : world) : option world :=
  let put (n : notifier) (a : option Z) (k : K) := Some {| wd_notifier := n; wd_answer := a; wd_kernel := k |} in
  match op with
  | Insert =>
      match wd_answer w with
      | Some _ => Some w
      | None => '(r, k) ← server_run (wd_kernel w) (accept_client (wd_notifier w));
                match r with Returned (n, c) => put n c k | Threw _ => None end
      end
  | Answer =>
      match wd_answer w with
      | Some fd => '(_, k) ← server_run (wd_kernel w) (answer_client fd); put (wd_notifier w) None k
      | None => Some w
      end
  | ActiveRound => '(r, k) ← server_run (wd_kernel w) (process_active fuel (wd_notifier w));
                   match r with Returned (Some n) => put n (wd_answer w) k | _ => None end
  | PausedRound => '(r, k) ← server_run (wd_kernel w) (process_paused fuel (wd_notifier w));
                   match r with Returned (Some n) => put n (wd_answer w) k | _ => None end
  | Broadcast b => '(r, k) ← server_run (wd_kernel w) (DomainSocket.notify_observers b (wd_notifier w));
                   match r with Returned n => put n (wd_answer w) k | Threw _ => None end
  end.
Fixpoint server_steps (fuel : nat) (ops : list server_op) (w : world) : option world :=
  match ops with [] => Some w | op :: ops => server_step fuel op w ≫= server_steps fuel ops end.

(** A program of the observer; the notifier runs [schedule]'s first element before the first
    call, the second one before the second, and so on.  [None]: somebody waits for ever. *)
Fixpoint interleave {A} (fuel : nat) (schedule : list (list server_op)) (w : world) (p : prog A) : option (result A * world) :=
  match p with
  | Ret a => Some (Returned a, w)
  | Raise e => Some (Threw e, w)
  | Sys c q =>
      w1 ← server_steps fuel (default [] (head schedule)) w;
      '(r, k) ← kn_client (wd_kernel w1) c;
      interleave fuel (tail schedule) (wd_set_kernel k w1) (q r)
  end.

(** ** What a subscription is *)

(** The notifier's view of the observer, the requests it has not read, the notifications
    that have not been received, and the timeout that is left on the observer's socket. *)
Record subscription : Type := {
  sub_state : client; sub_requests : list observer_request; sub_queue : list (list Z); sub_timeout : Z
}.
Definition sub_put (st : client) (rs : list observer_request) (q : list (list Z)) (t : Z) : subscription :=
  {| sub_state := st; sub_requests := rs; sub_queue := q; sub_timeout := t |}.

(** [None]: no room for another request. *)
Definition requests_bytes (rs : list observer_request) : list Z := concat (request_bytes <$> rs).
Definition sub_ask (r : observer_request) (s : subscription) : option subscription :=
  if room (requests_bytes (sub_requests s)) (request_bytes r)
  then Some (sub_put (sub_state s) (sub_requests s ++ [r]) (sub_queue s) (sub_timeout s)) else None.

(** The requests a round takes: up to the first one that changes the state. *)
Fixpoint drain (st : client) (rs : list observer_request) : client * list observer_request :=
  match rs with
  | [] => (st, [])
  | r :: rs => let st' := receives st (1 + request_value r) in if decide (st' = st) then drain st rs else (st', rs)
  end.

Definition spec_round (st : client) (s : subscription) : subscription :=
  if decide (sub_state s = st) then sub_put (drain (sub_state s) (sub_requests s)).1 (drain (sub_state s) (sub_requests s)).2 (sub_queue s) (sub_timeout s) else s.

(** [None]: no room for the notification; the notifier waits, and holds the lock of its
    observers. *)
Definition spec_server (op : server_op) (s : subscription) : option subscription :=
  match op with
  | Insert | Answer => Some s
  | ActiveRound => Some (spec_round Active s)
  | PausedRound => Some (spec_round Paused s)
  | Broadcast b =>
      if decide (sub_state s = Active) then
        if room (concat (sub_queue s)) b then Some (sub_put Active (sub_requests s) (sub_queue s ++ [b]) (sub_timeout s)) else None
      else Some s
  end.

Inductive event : Type := Serve (op : server_op) | AskPause | AskResume | Take (ms : Z).
Inductive event_reply : Type := Done | Value (v : Z) | Failure (e : error_code).

(** [None]: the notifier or the observer waits for ever. *)
Definition spec_event (e : event) (s : subscription) : option (event_reply * subscription) :=
  match e with
  | Serve op => s ← spec_server op s; Some (Done, s)
  | AskPause => s ← sub_ask PAUSE_SUBSCRIPTION s; Some (Done, s)
  | AskResume => s ← sub_ask RESUME_SUBSCRIPTION s; Some (Done, s)
  | Take ms =>
      match sub_queue s with
      | b :: q => Some (Value (le_value b), sub_put (sub_state s) (sub_requests s) q (sub_timeout s))
      | [] =>
          let timeout := if ms >? 0 then timeval_of ms else sub_timeout s in
          if timeout =? 0 then None else Some (Failure no_error, sub_put (sub_state s) (sub_requests s) [] timeout)
      end
  end.
Fixpoint spec_events (es : list event) (s : subscription) : option (list event_reply * subscription) :=
  match es with
  | [] => Some ([], s)
  | e :: es => '(r, s) ← spec_event e s; '(rs, s) ← spec_events es s; Some (r :: rs, s)
  end.

(** The same by the functions of both classes. *)
Definition asked (x : option (result (expected unit Z) * world)) : option (event_reply * world) :=
  '(r, w) ← x; match r with Returned (Expected _) => Some (Done, w) | _ => None end.
Definition run_event (fuel : nat) (o : socket_observer) (e : event) (w : world) : option (event_reply * world) :=
  match e with
  | Serve op => w ← server_step fuel op w; Some (Done, w)
  | AskPause => asked (interleave fuel [] w (so_pause_subscription o))
  | AskResume => asked (interleave fuel [] w (so_resume_subscription o))
  | Take ms =>
      '(r, w) ← interleave fuel [] w (so_receive ms (fun n => n) o);
      match r with Returned (Expected v) => Some (Value v, w) | Returned (Unexpected e) => Some (Failure e, w) | Threw _ => None end
  end.
Fixpoint run_events (fuel : nat) (o : socket_observer) (es : list event) (w : world) : option (list event_reply * world) :=
  match es with
  | [] => Some ([], w)
  | e :: es => '(r, w) ← run_event fuel o e w; '(rs, w) ← run_events fuel o es w; Some (r :: rs, w)
  end.

(** ** The link carries the subscription *)

Definition connected (o : socket_observer) : Prop :=
  is_subscribed o = true /\ is_subscription_paused o = false /\ so_socket o = client_fd.

Definition clients_for (st me : client) : list Z := if decide (st = me) then [server_fd] else [].

(** The bytes of a notification. *)
Definition notification_ok (b : list Z) : Prop := zlen b = sizeof_notification /\ Forall (fun x => 0 <= x < 256) b.
Lemma bytes_of_notifications ns : Forall notification_ok ns -> Forall (fun x => 0 <= x < 256) (concat ns).
Proof. induction 1 as [|b ns [_ Hbs] _ IH]; [by apply Forall_nil|by apply Forall_app]. Qed.
Lemma le_value_nonneg b : Forall (fun x => 0 <= x < 256) b -> 0 <= le_value b.
Proof. induction 1; cbn; lia. Qed.

Definition sub_link (s : subscription) : link :=
  {| lk_pending := false; lk_server := bool_decide (sub_state s <> Gone); lk_client := true;
     lk_up := requests_bytes (sub_requests s); lk_down := concat (sub_queue s); lk_timeout := sub_timeout s |}.

Record carries (w : world) (s : subscription) : Prop := {
  cr_answer : wd_answer w = None;
  cr_active : dn_observer_sockets (wd_notifier w) = clients_for (sub_state s) Active;
  cr_paused : dn_paused_observer_sockets (wd_notifier w) = clients_for (sub_state s) Paused;
  cr_socket : dn_socket (wd_notifier w) = listening;
  cr_link : wd_link w = sub_link s;
  cr_sizes : Forall notification_ok (sub_queue s)
}.

Lemma request_bytes_length r : length (request_bytes r) = 4%nat.
Proof. by destruct r. Qed.
Lemma request_bytes_value r : le_value (request_bytes r) = request_value r.
Proof. by destruct r. Qed.
Lemma request_of_value r : request_of (request_value r) = Some r.
Proof. by destruct r. Qed.

Lemma server_recv r rest l : lk_up l = request_bytes r ++ rest -> lk_server l = true ->
  server_rule l (Sys_recv server_fd sizeof_request) (Rval (1 + request_value r)) (lk_set_up rest l).
Proof.
  intros Hu Hs. pose proof (server_recv_bytes l sizeof_request Hs ltac:(rewrite Hu; by destruct r)) as H.
  unfold received, remaining in H. rewrite Hu in H. replace (Z.to_nat sizeof_request) with (length (request_bytes r)) in H by apply request_bytes_length.
  by rewrite take_app_length, drop_app_length, request_bytes_value in H.
Qed.

(** A request loop over the one client reads up to the first request that changes the state,
    or all there are. *)
Lemma loop_drains me you switch : me <> you -> me <> Gone -> you <> Gone ->
  (forall r, receives me (1 + request_value r) = after_action me you (switch (Some r))) ->
  forall rs fuel k, lk_server (kn_link k) = true -> lk_client (kn_link k) = true -> lk_up (kn_link k) = requests_bytes rs -> (length rs < fuel)%nat ->
  exists k', server_run k (request_loop switch fuel [server_fd] [] []) =
      Some (Returned (Some (clients_for (drain me rs).1 me, clients_for (drain me rs).1 you)), k') /\
    kn_link k' = lk_flags (lk_pending (kn_link k)) (bool_decide ((drain me rs).1 <> Gone)) true (lk_set_up (requests_bytes (drain me rs).2) (kn_link k)).
Proof.
  intros Hne Hme Hyou Hswitch. induction rs as [|r rs IH]; intros fuel k Hs Hc Hu Hf; (destruct fuel as [|fuel]; [cbn in Hf; lia|]); cbn [request_loop mbind prog_bind sys].
  - destruct (server_call k _ _ _ (server_recv_nothing _ sizeof_request Hs Hc Hu)) as (k' & Hk & Hrun). rewrite Hrun. exists k'. split.
    + destruct fuel; cbn; unfold clients_for; rewrite decide_True by done; by rewrite decide_False by done.
    + rewrite Hk. cbn [drain fst snd]. rewrite bool_decide_true by done. destruct (kn_link k); cbn in *; by subst.
  - destruct (server_call k _ _ _ (server_recv r (requests_bytes rs) _ Hu Hs)) as (k1 & Hk1 & Hrun1). rewrite Hrun1. clear Hrun1.
    rewrite (proj2 (Z.eqb_neq _ 0)) by (destruct r; cbn; lia).
    replace (1 + request_value r - 1) with (request_value r) by lia. rewrite request_of_value. cbn [drain]. rewrite Hswitch.
    destruct (switch (Some r)); cbn [after_action].
    + rewrite decide_False by done. cbn [sys_ mbind prog_bind].
      destruct (server_call k1 _ _ _ (server_close (kn_link k1) ltac:(by rewrite Hk1))) as (k2 & Hk2 & Hrun2). rewrite Hrun2. exists k2. split.
      * destruct fuel; cbn; unfold clients_for; by rewrite !decide_False by done.
      * rewrite Hk2, Hk1. cbn [fst snd]. rewrite bool_decide_false by naive_solver. cbn. by rewrite Hc.
    + rewrite decide_False by done. exists k1. split.
      * destruct fuel; cbn; unfold clients_for; rewrite decide_False by done; by rewrite decide_True by done.
      * rewrite Hk1. cbn [fst snd]. rewrite bool_decide_true by done. destruct (kn_link k); cbn in *; by subst.
    + rewrite decide_True by done. destruct (IH fuel k1) as (k2 & Hrun2 & Hk2); try (by rewrite Hk1); [cbn in Hf; lia|].
      exists k2. split; [done|]. rewrite Hk2, Hk1. by destruct (kn_link k).
Qed.

Lemma clients_here st : clients_for st st = [server_fd].
Proof. unfold clients_for. by rewrite decide_True. Qed.
Lemma clients_away st me : st <> me -> clients_for st me = [].
Proof. intros H. unfold clients_for. by rewrite decide_False. Qed.
Lemma spec_round_here s : spec_round (sub_state s) s =
  sub_put (drain (sub_state s) (sub_requests s)).1 (drain (sub_state s) (sub_requests s)).2 (sub_queue s) (sub_timeout s).
Proof. unfold spec_round. by rewrite decide_True. Qed.
Lemma spec_round_away st s : sub_state s <> st -> spec_round st s = s.
Proof. intros H. unfold spec_round. by rewrite decide_False. Qed.
Lemma loop_idle switch fuel other k : server_run k (request_loop switch fuel [] [] other) = Some (Returned (Some ([], other)), k).
Proof. by destruct fuel. Qed.

(** A round of the notifier over the set the observer is in, or over the other. *)
Lemma active_round_ok fuel w s : carries w s -> (length (sub_requests s) < fuel)%nat ->
  exists w', server_step fuel ActiveRound w = Some w' /\ carries w' (spec_round Active s).
Proof.
  intros Hc Hf. pose proof Hc as [Ha Ho Hp Hs Hl Hq]. cbn [server_step]. unfold process_active. rewrite server_run_bind, Ho, Hp.
  destruct (decide (sub_state s = Active)) as [Hst|Hst].
  - rewrite <- Hst, clients_here, Hst, clients_away by done.
    destruct (loop_drains Active Paused active_switch) with (rs := sub_requests s) (fuel := fuel) (k := wd_kernel w) as (k' & Hrun & Hk');
      try done; [by intros []|by rewrite Hl; cbn; rewrite Hst|by rewrite Hl..|].
    rewrite Hrun. eexists. split; [done|]. pose proof (spec_round_here s) as Hr. rewrite Hst in Hr. rewrite Hr. split; cbn; try done. by rewrite Hk', Hl.
  - rewrite (clients_away _ _ Hst), loop_idle, spec_round_away by done. cbn. eexists. split; [done|]. split; cbn; try done. by rewrite clients_away.
Qed.

Lemma paused_round_ok fuel w s : carries w s -> (length (sub_requests s) < fuel)%nat ->
  exists w', server_step fuel PausedRound w = Some w' /\ carries w' (spec_round Paused s).
Proof.
  intros Hc Hf. pose proof Hc as [Ha Ho Hp Hs Hl Hq]. cbn [server_step]. unfold process_paused. rewrite server_run_bind, Ho, Hp.
  destruct (decide (sub_state s = Paused)) as [Hst|Hst].
  - rewrite <- Hst, clients_here, Hst, clients_away by done.
    destruct (loop_drains Paused Active paused_switch) with (rs := sub_requests s) (fuel := fuel) (k := wd_kernel w) as (k' & Hrun & Hk');
      try done; [by intros []|by rewrite Hl; cbn; rewrite Hst|by rewrite Hl..|].
    rewrite Hrun. eexists. split; [done|]. pose proof (spec_round_here s) as Hr. rewrite Hst in Hr. rewrite Hr. split; cbn; try done. by rewrite Hk', Hl.
  - rewrite (clients_away _ _ Hst), loop_idle, spec_round_away by done. cbn. eexists. split; [done|]. split; cbn; try done. by rewrite clients_away.
Qed.

(** A notification to the only observer is put into the queue, or waits. *)
Lemma notify_one_ok b n k : dn_observer_sockets n = [server_fd] -> lk_server (kn_link k) = true -> lk_client (kn_link k) = true ->
  if room (lk_down (kn_link k)) b then
    exists k', server_run k (DomainSocket.notify_observers b n) = Some (Returned (set_clients [server_fd] (dn_paused_observer_sockets n) n), k') /\
      kn_link k' = lk_set_down (lk_down (kn_link k) ++ b) (kn_link k)
  else server_run k (DomainSocket.notify_observers b n) = None.
Proof.
  intros Ho Hs Hc. unfold DomainSocket.notify_observers. rewrite server_run_bind, Ho. cbn [notify_loop mbind prog_bind sys].
  destruct (room _ b) eqn:Hr.
  - destruct (server_call k _ _ _ (server_send_room _ true b Hs Hc Hr)) as (k' & Hk & Hrun). rewrite Hrun. by exists k'.
  - by rewrite (server_wait _ _ _ (server_send_waits _ true b Hs Hc Hr)).
Qed.

(** The notifications of a list of operations have the size of the observer's type. *)
Definition op_sized (op : server_op) : Prop := match op with Broadcast b => notification_ok b | _ => True end.

(** The run follows the specification, and waits where it does. *)
Definition follows {A} (run : option (A * world)) (spec : option (A * subscription)) : Prop :=
  match spec with Some (a, s) => exists w, run = Some (a, w) /\ carries w s | None => run = None end.
Definition follows_op (run : option world) (spec : option subscription) : Prop :=
  match spec with Some s => exists w, run = Some w /\ carries w s | None => run = None end.

Lemma server_step_ok fuel op w s : carries w s -> (length (sub_requests s) < fuel)%nat -> op_sized op ->
  follows_op (server_step fuel op w) (spec_server op s).
Proof.
  intros Hc Hf Hb. destruct op as [| | | |b]; [| |by apply active_round_ok|by apply paused_round_ok|]; destruct Hc as [Ha Ho Hp Hs Hl Hq]; cbn [server_step spec_server follows_op].
  - rewrite Ha. unfold accept_client. rewrite Hs. cbn [mbind prog_bind sys].
    destruct (server_call (wd_kernel w) _ _ _ (accept_times_out (wd_link w) ltac:(by rewrite Hl))) as (k' & Hk & Hrun). rewrite Hrun. cbn.
    eexists. split; [done|]. split; cbn; try done. by rewrite Hk.
  - rewrite Ha. eexists. split; [done|]. by split.
  - destruct (decide (sub_state s = Active)) as [Hst|Hst].
    + pose proof (notify_one_ok b (wd_notifier w) (wd_kernel w)) as H. rewrite Hl in H. cbn [sub_link lk_down lk_server lk_client] in H.
      rewrite bool_decide_true in H by (by rewrite Hst). rewrite Ho, Hst, clients_here in H. specialize (H eq_refl eq_refl eq_refl).
      destruct (room _ b); cbn [follows_op]; [|by rewrite H]. destruct H as (k' & -> & Hk'). eexists. split; [done|].
      split; cbn; try done; [by rewrite Hp, Hst|rewrite Hk'; unfold sub_link; cbn; rewrite Hst, concat_app; cbn; by rewrite app_nil_r|].
      apply Forall_app. split; [done|]. by apply Forall_singleton.
    + unfold DomainSocket.notify_observers. rewrite server_run_bind, Ho. rewrite (clients_away _ _ Hst). cbn. eexists. split; [done|].
      split; cbn; try done. by rewrite clients_away.
Qed.

(** The requests only shrink on the notifier's side. *)
Lemma drain_length st rs : (length (drain st rs).2 <= length rs)%nat.
Proof. induction rs as [|r rs IH]; cbn; [lia|]. destruct (decide _); cbn; lia. Qed.
Lemma spec_server_requests op s s' : spec_server op s = Some s' -> (length (sub_requests s') <= length (sub_requests s))%nat.
Proof.
  destruct op; cbn; intros H; repeat case_match; simplify_eq/=; try lia; unfold spec_round; destruct (decide _); cbn; try lia; apply drain_length.
Qed.
Lemma sub_ask_requests r s s' : sub_ask r s = Some s' -> length (sub_requests s') = S (length (sub_requests s)).
Proof. unfold sub_ask. case_match; [|done]. intros [= <-]. cbn. rewrite length_app. cbn. lia. Qed.
Lemma spec_event_requests e s r s' : spec_event e s = Some (r, s') -> (length (sub_requests s') <= S (length (sub_requests s)))%nat.
Proof.
  destruct e as [op| | |ms]; cbn.
  - destruct (spec_server op s) eqn:E1; [|done]. intros [= <- <-]. pose proof (spec_server_requests _ _ _ E1). lia.
  - destruct (sub_ask _ s) eqn:E1; [|done]. intros [= <- <-]. by rewrite (sub_ask_requests _ _ _ E1).
  - destruct (sub_ask _ s) eqn:E1; [|done]. intros [= <- <-]. by rewrite (sub_ask_requests _ _ _ E1).
  - destruct (sub_queue s); [|by intros [= <- <-]; cbn; lia]. case_match; [done|]. intros [= <- <-]. cbn. lia.
Qed.

(** A call of the observer after the notifier's operations. *)
Lemma interleave_step fuel schedule w w1 c r l :
  server_steps fuel (default [] (head schedule)) w = Some w1 -> client_rule (wd_link w1) c r l ->
  exists k, kn_link k = l /\ forall A (q : reply -> prog A),
    interleave fuel schedule w (Sys c q) = interleave fuel (tail schedule) (wd_set_kernel k w1) (q r).
Proof.
  intros Hw H. destruct (client_obeys _ _ _ _ H) as (k & Hk & Hl). exists k. split; [done|]. intros A q. cbn [interleave]. rewrite Hw.
  cbn [mbind option_bind]. by rewrite Hk.
Qed.

Lemma interleave_wait {A} fuel schedule w w1 c (q : reply -> prog A) :
  server_steps fuel (default [] (head schedule)) w = Some w1 -> client_waits (wd_link w1) c ->
  interleave fuel schedule w (Sys c q) = None.
Proof. intros Hw H. cbn [interleave]. rewrite Hw. cbn [mbind option_bind]. by rewrite (client_blocks _ _ H). Qed.

Lemma interleave_call fuel w c r l : client_rule (wd_link w) c r l ->
  exists k, kn_link k = l /\ forall A (q : reply -> prog A), interleave fuel [] w (Sys c q) = interleave fuel [] (wd_set_kernel k w) (q r).
Proof. by apply interleave_step. Qed.

(** The observer sends a request after the notifier's operations. *)
Lemma ask_step fuel schedule w w1 s r nosignal :
  server_steps fuel (default [] (head schedule)) w = Some w1 -> carries w1 s -> sub_state s <> Gone ->
  match sub_ask r s with
  | Some s' => exists w2, carries w2 s' /\ forall A (q : reply -> prog A),
      interleave fuel schedule w (Sys (Sys_send client_fd nosignal (request_bytes r)) q) = interleave fuel (tail schedule) w2 (q (Rval 4))
  | None => forall A (q : reply -> prog A), interleave fuel schedule w (Sys (Sys_send client_fd nosignal (request_bytes r)) q) = None
  end.
Proof.
  intros Hw [Ha Ho Hp Hs Hl Hq] Hg. unfold sub_ask.
  assert (Hsrv : lk_server (wd_link w1) = true) by (rewrite Hl; cbn; by rewrite bool_decide_true).
  assert (Hup : lk_up (wd_link w1) = requests_bytes (sub_requests s)) by (by rewrite Hl).
  destruct (room _ (request_bytes r)) eqn:Hr.
  - destruct (interleave_step fuel schedule w w1 _ _ _ Hw (client_send_room (wd_link w1) nosignal (request_bytes r) ltac:(by rewrite Hl) Hsrv ltac:(by rewrite Hup))) as (k & Hk & Hrun).
    exists (wd_set_kernel k w1). split; [|intros A q; rewrite Hrun; by destruct r]. split; cbn; try done.
    rewrite Hk, Hl. unfold lk_set_up, sub_link, requests_bytes. cbn. rewrite fmap_app, concat_app. cbn [fmap list_fmap concat]. by rewrite app_nil_r.
  - intros A q. eapply interleave_wait; [exact Hw|]. apply client_send_waits; [by rewrite Hl|done|by rewrite Hup].
Qed.

(** [recv] of a notification: the first of the queue; the end of the wait; or none. *)
Lemma recv_step fuel w s : carries w s -> 0 < sizeof_notification -> sub_state s <> Gone ->
  match sub_queue s with
  | b :: q => exists w', carries w' (sub_put (sub_state s) (sub_requests s) q (sub_timeout s)) /\ forall A (f : reply -> prog A),
      interleave fuel [] w (Sys (Sys_recv client_fd sizeof_notification) f) = interleave fuel [] w' (f (Rval (1 + le_value b)))
  | [] =>
      if sub_timeout s =? 0 then forall A (f : reply -> prog A), interleave fuel [] w (Sys (Sys_recv client_fd sizeof_notification) f) = None
      else exists w', carries w' s /\ forall A (f : reply -> prog A),
        interleave fuel [] w (Sys (Sys_recv client_fd sizeof_notification) f) = interleave fuel [] w' (f (Rerr EAGAIN))
  end.
Proof.
  intros [Ha Ho Hp Hs Hl Hq] Hsz Hg.
  assert (Hsrv : lk_server (wd_link w) = true) by (rewrite Hl; cbn; by rewrite bool_decide_true).
  assert (Hcl : lk_client (wd_link w) = true) by (by rewrite Hl).
  assert (Hdown : lk_down (wd_link w) = concat (sub_queue s)) by (by rewrite Hl).
  destruct (sub_queue s) as [|b q] eqn:Hqu.
  - destruct (Z.eqb_spec (sub_timeout s) 0) as [Ht|Ht].
    + intros A f. eapply interleave_wait; [done|]. apply client_recv_waits; try done. by rewrite Hl.
    + destruct (interleave_call fuel w _ _ _ (client_recv_times_out (wd_link w) sizeof_notification Hcl Hdown Hsrv ltac:(by rewrite Hl))) as (k & Hk & Hrun).
      exists (wd_set_kernel k w). split; [|done]. split; cbn; try done; [by rewrite Hk|by rewrite Hqu].
  - inversion Hq as [|? ? [Hb Hbytes] Hq']; subst.
    assert (Hne : lk_down (wd_link w) <> []) by (rewrite Hdown; destruct b; [rewrite zlen_nil in Hb; lia|done]).
    destruct (interleave_call fuel w _ _ _ (client_recv_bytes (wd_link w) sizeof_notification Hcl Hne)) as (k & Hk & Hrun).
    unfold received, remaining in *. rewrite Hdown in *. cbn [concat] in *.
    assert (Hlen : Z.to_nat sizeof_notification = length b) by (by rewrite <- Hb, to_nat_zlen).
    rewrite Hlen, take_app_length in Hrun. rewrite Hlen, drop_app_length, Hl in Hk.
    exists (wd_set_kernel k w). split; [|done]. split; cbn; done.
Qed.

Lemma take_ok fuel ms o w s : carries w s -> connected o -> 0 < sizeof_notification -> sub_state s <> Gone ->
  follows (run_event fuel o (Take ms) w) (spec_event (Take ms) s).
Proof.
  intros Hc (Hsub & Hpau & Hso) Hsz Hg. cbn [spec_event run_event]. unfold so_receive, ob_receive, so_receive_helper. rewrite Hsub, Hpau, Hso.
  cbn [negb]. destruct (Z.gtb_spec ms 0) as [Hms|Hms]; cbn [mbind prog_bind sys].
  - destruct (interleave_call fuel w _ _ _ (client_get_timeout _)) as (k1 & Hk1 & Hrun1). rewrite Hrun1. clear Hrun1.
    cbn [mbind prog_bind sys].
    destruct (interleave_call fuel (wd_set_kernel k1 w) _ _ _ (client_set_timeout _ (timeval_of ms))) as (k2 & Hk2 & Hrun2). rewrite Hrun2. clear Hrun2.
    cbn [rc Z.ltb Z.compare mbind prog_bind sys]. cbn [wd_set_kernel wd_kernel] in Hk2. rewrite Hk1, (cr_link _ _ Hc) in Hk2.
    set (w2 := wd_set_kernel k2 _). set (s2 := sub_put (sub_state s) (sub_requests s) (sub_queue s) (timeval_of ms)).
    assert (Hc2 : carries w2 s2) by (destruct Hc; by split). clearbody w2.
    pose proof (recv_step fuel w2 s2 Hc2 Hsz Hg) as H. pose proof (cr_sizes _ _ Hc) as Hq. rewrite (cr_link _ _ Hc). cbn [sub_link lk_timeout].
    change (sub_queue s2) with (sub_queue s) in H. change (sub_timeout s2) with (timeval_of ms) in H. destruct (sub_queue s) as [|b q] eqn:Hqu.
    + destruct (timeval_of ms =? 0); cbn [follows]; [by rewrite H|]. destruct H as (w3 & Hc3 & ->). exists w3. split; [done|].
      unfold s2 in Hc3. exact Hc3.
    + destruct H as (w3 & Hc3 & ->). cbn [follows mbind prog_bind]. inversion Hq as [|? ? [_ Hbytes] _]; subst. pose proof (le_value_nonneg _ Hbytes).
      rewrite (proj2 (Z.eqb_neq _ 0)) by lia. cbn [mbind prog_bind sys_].
      destruct (interleave_call fuel w3 _ _ _ (client_set_timeout _ (sub_timeout s))) as (k4 & Hk4 & Hrun4). rewrite Hrun4.
      cbn [interleave mbind option_bind]. replace (1 + le_value b - 1) with (le_value b) by lia. eexists. split; [done|].
      destruct Hc3 as [? ? ? ? Hl3 ?]. split; cbn; try done. by rewrite Hk4, Hl3.
  - pose proof (recv_step fuel w s Hc Hsz Hg) as H. pose proof (cr_sizes _ _ Hc) as Hq. destruct (sub_queue s) as [|b q] eqn:Hqu.
    + destruct (sub_timeout s =? 0) eqn:Ht; cbn [follows]; [by rewrite H|]. destruct H as (w3 & Hc3 & ->). exists w3. split; [done|].
      destruct s; cbn in *; by subst.
    + destruct H as (w3 & Hc3 & ->). cbn [follows mbind prog_bind]. inversion Hq as [|? ? [_ Hbytes] _]; subst. pose proof (le_value_nonneg _ Hbytes).
      rewrite (proj2 (Z.eqb_neq _ 0)) by lia. cbn [mbind prog_bind interleave option_bind]. replace (1 + le_value b - 1) with (le_value b) by lia.
      by eexists.
Qed.

(** Nobody has cancelled. *)
Definition open_sub (s : subscription) : Prop := sub_state s <> Gone /\ CANCEL_SUBSCRIPTION ∉ sub_requests s.

Lemma drain_open st rs : st <> Gone -> CANCEL_SUBSCRIPTION ∉ rs -> (drain st rs).1 <> Gone /\ CANCEL_SUBSCRIPTION ∉ (drain st rs).2.
Proof.
  intros Hst. induction rs as [|r rs IH]; cbn; [done|]. intros [Hr Hrs]%not_elem_of_cons. destruct (decide _); [by apply IH|]. cbn.
  split; [|done]. by destruct st, r.
Qed.

Lemma spec_round_open st s : open_sub s -> open_sub (spec_round st s).
Proof. intros [Hs Hc]. unfold spec_round. destruct (decide _); [by apply drain_open|by split]. Qed.

Lemma spec_server_open op s s' : open_sub s -> spec_server op s = Some s' -> open_sub s'.
Proof.
  intros Hs. destruct op as [| | | |b]; cbn; intros H; repeat case_match; simplify_eq; try done; try by apply spec_round_open.
  by destruct Hs.
Qed.

Lemma sub_ask_open r s s' : open_sub s -> r <> CANCEL_SUBSCRIPTION -> sub_ask r s = Some s' -> open_sub s'.
Proof.
  unfold sub_ask. intros [Hs Hc] Hr. case_match; [|done]. intros [= <-]. split; [done|]. cbn. rewrite elem_of_app. intros [?|H1]; [done|].
  apply list_elem_of_singleton in H1. congruence.
Qed.

Lemma spec_event_open e s r s' : open_sub s -> spec_event e s = Some (r, s') -> open_sub s'.
Proof.
  intros Hs He. destruct e as [op| | |ms]; cbn in He.
  - destruct (spec_server op s) eqn:E1; [|done]. injection He as <- <-. by eapply spec_server_open.
  - destruct (sub_ask _ s) eqn:E1; [|done]. injection He as <- <-. by eapply sub_ask_open; [..|exact E1].
  - destruct (sub_ask _ s) eqn:E1; [|done]. injection He as <- <-. by eapply sub_ask_open; [..|exact E1].
  - destruct (sub_queue s); [|by injection He as <- <-]. case_match; [done|]. by injection He as <- <-.
Qed.

Definition event_sized (e : event) : Prop := match e with Serve op => op_sized op | _ => True end.

Lemma event_ok fuel e o w s : carries w s -> connected o -> open_sub s -> 0 < sizeof_notification -> event_sized e ->
  (length (sub_requests s) < fuel)%nat -> follows (run_event fuel o e w) (spec_event e s).
Proof.
  intros Hc Ho [Hg _] Hsz He Hf. pose proof Ho as (Hsub & Hpau & Hso).
  assert (Hask : forall r, follows (asked (interleave fuel [] w (s0 ← sys (Sys_send client_fd false (request_bytes r));
      if rc s0 =? -1 then Ret (Unexpected (NOTIFIER_UNREACHABLE E)) else Ret (Expected tt)))) (s ← sub_ask r s; Some (Done, s))).
  { intros r. cbn [mbind prog_bind sys]. pose proof (ask_step fuel [] w w s r false eq_refl Hc Hg) as H.
    destruct (sub_ask r s) as [s'|]; cbn [option_bind follows].
    - destruct H as (w2 & Hc2 & ->). by exists w2.
    - by rewrite H. }
  destruct e as [op| | |ms]; [| | |by eapply take_ok].
  - pose proof (server_step_ok fuel op w s Hc Hf He) as H. cbn [run_event spec_event]. destruct (spec_server op s); cbn [follows_op] in H; cbn.
    + destruct H as (w' & -> & Hc'). by exists w'.
    + by rewrite H.
  - cbn [run_event spec_event]. unfold so_pause_subscription. rewrite Hsub, Hpau, Hso. cbn [negb]. apply Hask.
  - cbn [run_event spec_event]. unfold so_resume_subscription. rewrite Hsub, Hpau, Hso. cbn [negb]. apply Hask.
Qed.

Lemma events_ok fuel o es : forall w s, carries w s -> connected o -> open_sub s -> 0 < sizeof_notification -> Forall event_sized es ->
  (length (sub_requests s) + length es <= fuel)%nat -> follows (run_events fuel o es w) (spec_events es s).
Proof.
  induction es as [|e es IH]; intros w s Hc Ho Hg Hsz Hes Hf; cbn [spec_events run_events].
  - by exists w.
  - inversion Hes as [|? ? He Hes']; subst. cbn in Hf. pose proof (event_ok fuel e o w s Hc Ho Hg Hsz He ltac:(lia)) as H.
    destruct (spec_event e s) as [[r s1]|] eqn:E1; cbn [mbind option_bind follows] in *; [|by rewrite H].
    destruct H as (w1 & -> & Hc1). cbn [mbind option_bind].
    pose proof (spec_event_requests _ _ _ _ E1). pose proof (spec_event_open _ _ _ _ Hg E1).
    specialize (IH w1 s1 Hc1 Ho ltac:(done) Hsz Hes' ltac:(lia)).
    destruct (spec_events es s1) as [[rs s2]|]; cbn [follows mbind option_bind] in *; [|by rewrite IH].
    destruct IH as (w2 & -> & Hc2). by exists w2.
Qed.

(** A notifier without clients, and nobody connected to it. *)
Definition nobody (w : world) : Prop :=
  wd_answer w = None /\ dn_observer_sockets (wd_notifier w) = [] /\ dn_paused_observer_sockets (wd_notifier w) = [] /\
  dn_socket (wd_notifier w) = listening /\
  wd_link w = {| lk_pending := false; lk_server := false; lk_client := false; lk_up := []; lk_down := []; lk_timeout := 0 |}.

(** The observer subscribes while the notifier does [between] after it has put the client in
    its set and before it answers. *)
Definition handshake (between : list server_op) : list (list server_op) := [[]; []; Insert :: between ++ [Answer]].

Lemma broadcasts_ok fuel ns : forall w, dn_observer_sockets (wd_notifier w) = [server_fd] ->
  lk_server (wd_link w) = true -> lk_client (wd_link w) = true -> zlen (lk_down (wd_link w)) + zlen (concat ns) <= capacity ->
  exists k, server_steps fuel (Broadcast <$> ns) w = Some (wd_set_kernel k w) /\
    kn_link k = lk_set_down (lk_down (wd_link w) ++ concat ns) (wd_link w).
Proof.
  induction ns as [|b ns IH]; intros w Ho Hs Hc Hcap.
  - exists (wd_kernel w). cbn. rewrite app_nil_r. split; [by destruct w|by destruct (wd_link w)].
  - cbn [fmap list_fmap server_steps server_step]. cbn [concat] in Hcap. rewrite zlen_app in Hcap. pose proof (zlen_nonneg (concat ns)).
    pose proof (notify_one_ok b _ _ Ho Hs Hc) as H1. unfold room in H1. rewrite (proj2 (Z.leb_le _ _)) in H1 by lia.
    destruct H1 as (k & -> & Hk). cbn [mbind option_bind].
    destruct (IH {| wd_notifier := set_clients [server_fd] (dn_paused_observer_sockets (wd_notifier w)) (wd_notifier w); wd_answer := wd_answer w; wd_kernel := k |})
      as (k' & Hrun & Hk'); [done|by cbn; rewrite Hk..|cbn; rewrite Hk; cbn; rewrite zlen_app; lia|].
    exists k'. rewrite Hrun. split; [|rewrite Hk'; cbn; rewrite Hk; cbn; by rewrite <- app_assoc].
    unfold wd_set_kernel. cbn. rewrite <- Ho. by destruct w as [[] ? ?].
Qed.

Lemma server_steps_app fuel ops1 ops2 : forall w, server_steps fuel (ops1 ++ ops2) w = server_steps fuel ops1 w ≫= server_steps fuel ops2.
Proof. induction ops1 as [|op ops1 IH]; intros w; cbn; [done|]. destruct (server_step fuel op w); cbn; [apply IH|done]. Qed.

Lemma accept_ok fuel ns w : 0 <= server_fd ->
  wd_answer w = None -> dn_observer_sockets (wd_notifier w) = [] -> dn_socket (wd_notifier w) = listening ->
  lk_pending (wd_link w) = true -> lk_client (wd_link w) = true -> lk_down (wd_link w) = [] -> zlen (concat ns) + 1 <= capacity ->
  exists k, server_steps fuel (Insert :: (Broadcast <$> ns) ++ [Answer]) w =
    Some {| wd_notifier := set_clients [server_fd] (dn_paused_observer_sockets (wd_notifier w)) (wd_notifier w); wd_answer := None; wd_kernel := k |} /\
    kn_link k = lk_flags false true true (lk_set_down (concat ns ++ [1]) (wd_link w)).
Proof.
  intros Hfd Ha Ho Hl Hp Hc Hd Hcap. cbn [server_steps server_step]. rewrite Ha. unfold accept_client. rewrite Hl. cbn [mbind prog_bind sys].
  destruct (server_call _ _ _ _ (accept_pending _ Hp)) as (k1 & Hk1 & Hrun1). rewrite Hrun1. clear Hrun1. cbn [rc]. rewrite (proj2 (Z.leb_le 0 server_fd) Hfd), Ho.
  cbn [server_run mbind option_bind]. rewrite server_steps_app. change (set_insert server_fd []) with [server_fd].
  set (w1 := {| wd_notifier := _; wd_answer := _; wd_kernel := k1 |}).
  destruct (broadcasts_ok fuel ns w1) as (k2 & -> & Hk2); [done|by cbn; rewrite Hk1..|cbn; rewrite Hk1; cbn; rewrite Hd, zlen_nil; lia|].
  cbn [wd_kernel w1] in Hk2. rewrite Hk1 in Hk2. cbn in Hk2. rewrite Hd in Hk2. cbn [app] in Hk2. subst w1.
  cbn [mbind option_bind server_steps server_step wd_set_kernel wd_answer wd_kernel wd_notifier]. unfold answer_client, sys_. cbn [mbind prog_bind sys].
  destruct (server_call k2 _ _ _ (server_send_room (kn_link k2) false [1] ltac:(by rewrite Hk2) ltac:(by rewrite Hk2; cbn; rewrite Hc)
    ltac:(rewrite Hk2; cbn; unfold room; change (zlen [1]) with 1; by apply Z.leb_le))) as (k3 & Hk3 & Hrun3).
  rewrite Hrun3. cbn. exists k3. split; [done|]. rewrite Hk3, Hk2. unfold lk_flags, lk_set_down. cbn. by rewrite Hc.
Qed.

Lemma handshake_ok fuel o w ns : nobody w -> is_subscription_paused o = false -> sun_path (so_id o) = address ->
  client_fd <> -1 -> 0 <= server_fd -> Forall notification_ok ns -> zlen (concat ns) + 1 <= capacity ->
  exists w', let o' := so_set_socket client_fd o in
    (interleave fuel (handshake (Broadcast <$> ns)) w (so_subscribe o) =
      (let b := hd 1 (concat ns) in
       Some (Returned (Ok (if b =? 0 then (Unexpected (response_info E), o') else (Expected true, so_set_subscribed true o'))), w')) /\
     wd_answer w' = None /\ dn_observer_sockets (wd_notifier w') = [server_fd] /\ dn_paused_observer_sockets (wd_notifier w') = [] /\
     dn_socket (wd_notifier w') = listening /\
     wd_link w' = {| lk_pending := false; lk_server := true; lk_client := true; lk_up := []; lk_down := tl (concat ns ++ [1]); lk_timeout := 0 |}).
Proof.
  intros (Ha & Ho & Hp & Hs & Hl) Hpau Haddr Hfd Hsfd Hns Hcap.
  assert (Hb0 : 0 <= hd 1 (concat ns)) by (destruct (bytes_of_notifications ns Hns); cbn; lia).
  assert (Hb : concat ns ++ [1] = hd 1 (concat ns) :: tl (concat ns ++ [1])) by (by destruct (concat ns)).
  unfold so_subscribe, handshake, so_setup_socket. rewrite Hpau. cbn [mbind prog_bind sys].
  destruct (interleave_step fuel [[]; []; Insert :: (Broadcast <$> ns) ++ [Answer]] w w _ _ _ eq_refl (client_socket (wd_link w) ltac:(by rewrite Hl))) as (k1 & Hk1 & ->).
  cbn [rc so_socket so_set_socket so_id so_base tail]. rewrite (proj2 (Z.eqb_neq client_fd (-1)) Hfd), Haddr. cbn [mbind prog_bind sys].
  rewrite Hl in Hk1. set (w1 := wd_set_kernel k1 w).
  destruct (interleave_step fuel [[]; Insert :: (Broadcast <$> ns) ++ [Answer]] w1 w1 _ _ _ eq_refl
    (client_connect (kn_link k1) ltac:(by cbn; rewrite Hk1) ltac:(by cbn; rewrite Hk1))) as (k2 & Hk2 & ->).
  cbn [w1 wd_set_kernel wd_kernel] in Hk2. rewrite Hk1 in Hk2. cbn [rc Z.eqb mbind prog_bind sys so_socket tail].
  destruct (accept_ok fuel ns (wd_set_kernel k2 w1)) as (k3 & Hrun3 & Hk3); try done; [by cbn; rewrite Hk2..|].
  cbn [wd_set_kernel wd_kernel] in Hk3. rewrite Hk2 in Hk3. unfold lk_flags, lk_set_down in Hk3. cbn in Hk3.
  set (w3 := {| wd_notifier := _; wd_answer := None; wd_kernel := k3 |}) in Hrun3.
  destruct (interleave_step fuel [Insert :: (Broadcast <$> ns) ++ [Answer]] (wd_set_kernel k2 w1) w3 _ _ _ Hrun3
    (client_recv_bytes (kn_link k3) sizeof_bool ltac:(by cbn; rewrite Hk3) ltac:(cbn; rewrite Hk3; cbn; by rewrite Hb))) as (k4 & Hk4 & ->).
  cbn [w3 wd_kernel] in Hk4 |- *. rewrite Hk3 in Hk4 |- *. unfold received, remaining in *. cbn [lk_down lk_set_down] in Hk4 |- *.
  rewrite Hb in Hk4 |- *. set (b := hd 1 (concat ns)) in *. cbn [mbind prog_bind].
  replace (le_value (take (Z.to_nat sizeof_bool) (b :: tail (concat ns ++ [1])))) with b by (change (b = b + 256 * 0); lia).
  rewrite (proj2 (Z.eqb_neq (1 + b) 0)) by lia. replace (1 + b - 1) with b by lia.
  exists (wd_set_kernel k4 w3). split; [by destruct (b =? 0)|]. cbn. by rewrite Hk4, Hp.
Qed.

(** ** Cancelling *)

Fixpoint spec_servers (ops : list server_op) (s : subscription) : option subscription :=
  match ops with [] => Some s | op :: ops => spec_server op s ≫= spec_servers ops end.

Lemma server_steps_ok fuel ops : forall w s, carries w s -> (length (sub_requests s) < fuel)%nat -> Forall op_sized ops ->
  follows_op (server_steps fuel ops w) (spec_servers ops s).
Proof.
  induction ops as [|op ops IH]; intros w s Hc Hf Hops; [by exists w|]. inversion Hops as [|? ? Hop Hops']; subst.
  cbn [server_steps spec_servers]. pose proof (server_step_ok fuel op w s Hc Hf Hop) as H. destruct (spec_server op s) as [s1|] eqn:E1; cbn in *.
  - destruct H as (w1 & -> & Hc1). apply IH; [done| |done]. pose proof (spec_server_requests _ _ _ E1). lia.
  - by rewrite H.
Qed.

Lemma spec_servers_keep ops : forall s s', spec_servers ops s = Some s' ->
  (open_sub s -> open_sub s') /\ (length (sub_requests s') <= length (sub_requests s))%nat.
Proof.
  induction ops as [|op ops IH]; intros s s' H; cbn in H; [by injection H as <-|].
  destruct (spec_server op s) as [s1|] eqn:E1; [|done]. cbn in H. destruct (IH _ _ H) as [H1 H2].
  pose proof (spec_server_requests _ _ _ E1). split; [|lia]. intros Hs. by eapply H1, spec_server_open.
Qed.

(** What [cancel_subscription] returns when the notifier's operations after its request have
    left the subscription [s]. *)
Definition cancelled (o : socket_observer) (s : subscription) : option (expected unit Z * socket_observer) :=
  match concat (sub_queue s) with
  | [] => if decide (sub_state s = Gone) then Some (Unexpected (UNKNOWN E), o)
          else if sub_timeout s =? 0 then None else Some (Unexpected (NOTIFIER_UNREACHABLE E), o)
  | bytes => let response := le_value (take (Z.to_nat sizeof_error) bytes) in
             Some (if response =? NO_ERROR E then (Expected tt, so_set_socket (-1) o) else (Unexpected response, o))
  end.

Lemma cancel_runs fuel o w s s0 s1 s2 ops0 ops1 : UNKNOWN E <> NO_ERROR E -> carries w s -> connected o -> open_sub s ->
  Forall op_sized ops0 -> Forall op_sized ops1 -> (S (length (sub_requests s)) < fuel)%nat ->
  spec_servers ops0 s = Some s0 -> sub_ask CANCEL_SUBSCRIPTION s0 = Some s1 -> spec_servers ops1 s1 = Some s2 ->
  match cancelled o s2 with
  | None => interleave fuel [ops0; ops1] w (so_cancel_subscription o) = None
  | Some x => exists w', interleave fuel [ops0; ops1] w (so_cancel_subscription o) = Some (Returned x, w') /\
      dn_observer_sockets (wd_notifier w') = clients_for (sub_state s2) Active /\
      dn_paused_observer_sockets (wd_notifier w') = clients_for (sub_state s2) Paused /\
      lk_server (wd_link w') = bool_decide (sub_state s2 <> Gone)
  end.
Proof.
  intros HE Hc (Hsub & Hpau & Hso) Hg Ho0 Ho1 Hf E0 Eask E1. unfold so_cancel_subscription. rewrite Hsub, Hpau, Hso. cbn [negb mbind prog_bind sys].
  pose proof (server_steps_ok fuel ops0 w s Hc ltac:(lia) Ho0) as H0. rewrite E0 in H0. destruct H0 as (w1 & Hw1 & Hc1).
  destruct (spec_servers_keep _ _ _ E0) as [Hg1 Hlen]. destruct (Hg1 Hg) as [Hg0 _].
  pose proof (ask_step fuel [ops0; ops1] w w1 s0 CANCEL_SUBSCRIPTION false Hw1 Hc1 Hg0) as H1. rewrite Eask in H1. destruct H1 as (w2 & Hc2 & ->).
  pose proof (server_steps_ok fuel ops1 w2 s1 Hc2 ltac:(rewrite (sub_ask_requests _ _ _ Eask); lia) Ho1) as H3. rewrite E1 in H3.
  destruct H3 as (w3 & Hw3 & Hc3). clear E0 E1 Eask. destruct Hc3 as [Ha Ho Hp Hs Hl Hq]. cbn [rc Z.eqb mbind prog_bind sys tail].
  unfold cancelled. destruct (concat (sub_queue s2)) as [|b bs] eqn:Hq2.
  - destruct (decide (sub_state s2 = Gone)) as [Hgone|Hgone].
    + rewrite bool_decide_false by naive_solver.
      destruct (interleave_step fuel [ops1] w2 w3 _ _ _ Hw3 (client_recv_end (wd_link w3) sizeof_error ltac:(by rewrite Hl) ltac:(by rewrite Hl)
        ltac:(rewrite Hl; cbn; by rewrite bool_decide_false by naive_solver) ltac:(by rewrite Hl))) as (k & Hk & ->).
      cbv beta iota zeta. change (0 =? 0) with true. cbv iota. rewrite (proj2 (Z.eqb_neq _ _) HE). eexists. split; [done|]. cbn. rewrite Hk, Hl. cbn.
      by rewrite bool_decide_false by naive_solver.
    + rewrite bool_decide_true by done. assert (Hsrv : lk_server (wd_link w3) = true) by (rewrite Hl; cbn; by rewrite bool_decide_true).
      destruct (Z.eqb_spec (sub_timeout s2) 0) as [Ht|Ht].
      * eapply interleave_wait; [exact Hw3|]. apply client_recv_waits; [by rewrite Hl|by rewrite Hl|done|by rewrite Hl].
      * destruct (interleave_step fuel [ops1] w2 w3 _ _ _ Hw3 (client_recv_times_out (wd_link w3) sizeof_error ltac:(by rewrite Hl) ltac:(by rewrite Hl)
          Hsrv ltac:(by rewrite Hl))) as (k & Hk & ->).
        cbn. eexists. split; [done|]. cbn. by rewrite Hk.
  - destruct (interleave_step fuel [ops1] w2 w3 _ _ _ Hw3 (client_recv_bytes (wd_link w3) sizeof_error ltac:(by rewrite Hl) ltac:(rewrite Hl; cbn; by rewrite Hq2))) as (k & Hk & ->).
    rewrite Hl in Hk |- *. cbn [sub_link lk_down] in Hk |- *. rewrite Hq2 in *. unfold received. set (v := le_value (take _ _)).
    assert (Hv : 0 <= v) by (apply le_value_nonneg, Forall_take; rewrite <- Hq2; by apply bytes_of_notifications).
    rewrite (proj2 (Z.eqb_neq (1 + v) 0)) by lia. replace (1 + v - 1) with v by lia. destruct (v =? NO_ERROR E).
    + cbn [so_hang_up mbind prog_bind sys_]. rewrite Hso. cbn [tail].
      destruct (interleave_step fuel [] (wd_set_kernel k w3) _ _ _ _ eq_refl (client_shutdown _)) as (k1 & Hk1 & ->). cbn [tail mbind prog_bind sys_].
      destruct (interleave_step fuel [] (wd_set_kernel k1 (wd_set_kernel k w3)) _ _ _ _ eq_refl (client_close _)) as (k2 & Hk2 & ->).
      eexists. split; [done|]. cbn in Hk1, Hk2 |- *. by rewrite Hk2, Hk1, Hk.
    + eexists. split; [done|]. cbn. by rewrite Hk.
Qed.

(** ** Theorems about the connection *)

Definition subscribed_now : subscription := sub_put Active [] [] 0.

Lemma subscribed_open : open_sub subscribed_now.
Proof. split; [discriminate|apply not_elem_of_nil]. Qed.

Lemma handshake_carries w s o : so_base o = {| ob_subscribed := true; ob_subscription_paused := false |} -> so_socket o = client_fd ->
  wd_answer w = None -> dn_observer_sockets (wd_notifier w) = [server_fd] -> dn_paused_observer_sockets (wd_notifier w) = [] ->
  dn_socket (wd_notifier w) = listening ->
  wd_link w = {| lk_pending := false; lk_server := true; lk_client := true; lk_up := []; lk_down := concat (sub_queue s); lk_timeout := 0 |} ->
  s = sub_put Active [] (sub_queue s) 0 -> Forall notification_ok (sub_queue s) -> connected o /\ carries w s.
Proof.
  intros Hb Hs Ha Ho Hp Hl Hk -> Hq. split; [unfold connected; by rewrite Hb|]. split; cbn in *; try done.
Qed.

(** C16 What the notifier sends is what the observer receives, on any kernel whose stream
    sockets keep to the rules above.  At a notifier without other clients, an observer
    subscribes while it puts it in its set and answers it.  From then on any
    sequence of pauses, resumptions, receptions with and without a timeout, and of
    rounds and notifications of the notifier behaves like one subscription: a queue of
    notifications, filled while the notifier has read a request to pause no later than
    one to resume, and emptied in order by [receive]; a pause or a resumption takes
    effect in the round that reads it; a reception that times out leaves its timeout on
    the socket for all later ones; and the sequence stops for ever exactly where the
    subscription does: when the observer receives without a timeout and nothing is in
    the queue, or when what is to be sent does not fit into the buffer of its
    direction, in which case the notifier waits inside the lock of its observers. *)
Theorem observer_receives_notifications (fuel : nat) (o : socket_observer) (w : world) (es : list event) :
  nobody w -> so_base o = {| ob_subscribed := false; ob_subscription_paused := false |} -> sun_path (so_id o) = address ->
  client_fd <> -1 -> 0 <= server_fd -> 0 < sizeof_notification -> 1 <= capacity -> Forall event_sized es -> (length es <= fuel)%nat ->
  exists o' w1, interleave fuel (handshake []) w (so_subscribe o) = Some (Returned (Ok (Expected true, o')), w1) /\ connected o' /\
    match spec_events es subscribed_now with
    | Some (rs, s) => exists w2, run_events fuel o' es w1 = Some (rs, w2) /\ carries w2 s
    | None => run_events fuel o' es w1 = None
    end.
Proof.
  intros Hw Hb Hid Hc Hsfd Hsz Hcap Hes Hf.
  destruct (handshake_ok fuel o w [] Hw ltac:(by rewrite Hb) Hid Hc Hsfd ltac:(constructor) ltac:(done)) as (w1 & Hrun & Ha & Ho & Hp & Hl & Hk).
  destruct (handshake_carries w1 subscribed_now (so_set_subscribed true (so_set_socket client_fd o))) as [Hcon Hcar]; try done; [cbn; by rewrite Hb|].
  exists (so_set_subscribed true (so_set_socket client_fd o)), w1. split; [done|]. split; [done|].
  exact (events_ok fuel _ es w1 _ Hcar Hcon subscribed_open Hsz Hes Hf).
Qed.

(** A notification between the insertion of a client and the answer to it, which is sent
    outside the lock, is taken for the answer.  Its first byte decides: if it is 0 the
    observer is refused while the notifier counts it among its observers, otherwise
    it is subscribed and its first notification is the sent one without the first byte and
    with the answer as its last. *)
Theorem subscription_race (fuel : nat) (o : socket_observer) (w : world) (b : Z) (bs : list Z) :
  nobody w -> so_base o = {| ob_subscribed := false; ob_subscription_paused := false |} -> sun_path (so_id o) = address ->
  client_fd <> -1 -> 0 <= server_fd -> notification_ok (b :: bs) -> sizeof_notification + 1 <= capacity ->
  exists x o' w1, interleave fuel (handshake [Broadcast (b :: bs)]) w (so_subscribe o) = Some (Returned (Ok (x, o')), w1) /\
    dn_observer_sockets (wd_notifier w1) = [server_fd] /\
    (b = 0 -> x = Unexpected (response_info E) /\ is_subscribed o' = false) /\
    (b <> 0 -> x = Expected true /\ exists w2,
       run_event fuel o' (Take 0) w1 = Some (Value (le_value bs + 256 ^ (sizeof_notification - 1)), w2) /\ carries w2 subscribed_now).
Proof.
  intros Hw Hb Hid Hc Hsfd Hn Hcap.
  destruct (handshake_ok fuel o w [b :: bs] Hw ltac:(by rewrite Hb) Hid Hc Hsfd ltac:(by apply Forall_singleton)) as (w1 & Hrun & Ha & Ho & Hp & Hl & Hk).
  { cbn [concat]. rewrite app_nil_r. destruct Hn as [-> _]. done. }
  cbn [concat app hd tl] in Hrun, Hk. rewrite app_nil_r in Hk. change ([Broadcast (b :: bs)]) with (Broadcast <$> [b :: bs]).
  rewrite Hrun. destruct (Z.eqb_spec b 0) as [->|Hb0].
  { eexists _, _, w1. split; [done|]. split; [done|]. split; [|done]. intros _. split; [done|]. cbn. by rewrite Hb. }
  eexists _, _, w1. split; [done|]. split; [done|]. split; [done|]. intros _. split; [done|].
  destruct Hn as [Hsz Hbytes]. inversion Hbytes as [|? ? Hb1 Hbs]; subst. rewrite zlen_cons in Hsz.
  assert (Hq : notification_ok (bs ++ [1])).
  { split; [rewrite zlen_app; cbn; rewrite zlen_cons, zlen_nil; lia|]. apply Forall_app. split; [done|]. apply Forall_singleton. lia. }
  destruct (handshake_carries w1 (sub_put Active [] [bs ++ [1]] 0) (so_set_subscribed true (so_set_socket client_fd o))) as [Hcon Hcar]; try done;
    [cbn; by rewrite Hb|cbn; by rewrite app_nil_r|by apply Forall_singleton|].
  assert (Hv : le_value (bs ++ [1]) = le_value bs + 256 ^ (sizeof_notification - 1)).
  { rewrite <- Hsz. replace (zlen bs + 1 - 1) with (zlen bs) by lia. clear. induction bs as [|c bs IH]; [done|].
    rewrite zlen_cons, Z.pow_add_r by (pose proof (zlen_nonneg bs); lia). cbn [app le_value]. rewrite IH. lia. }
  rewrite <- Hv. apply (take_ok fuel 0 _ w1 (sub_put Active [] [bs ++ [1]] 0)); try done. pose proof (zlen_nonneg bs). lia.
Qed.

End connection.

(** ** Theorems about the observer *)


(** An observer is never paused: no operation sets the flag, so that every request to pause
    or to resume is sent and [receive] is never refused for a pause. *)
Theorem observer_never_paused (op : observer_op) (o : socket_observer) (w : os) (h : history) :
  match (prun w h (so_step op o)).1 with
  | Returned (Ok o') => is_subscription_paused o' = is_subscription_paused o /\ (is_subscribed o = true -> is_subscribed o' = true)
  | Returned UB => op = Subscribe
  | _ => False
  end.
Proof. generalize (wp_sound _ _ w h (so_step_ok op o)). destruct (prun _ _ _) as [[[]|] t]; cbn; tauto. Qed.

(** The timeouts a history sets. *)
Definition timeouts_set (t : history) : list Z := omap (fun x : call * reply => match x.1 with Sys_recv_timeout _ us => Some us | _ => None end) t.

(** A reception with a timeout sets the timeout of the socket, in microseconds, and restores
    the old one only when a notification has arrived: after a timeout or any other
    error the socket keeps it.  Without a timeout the socket's own is left alone. *)
Theorem receive_restores_timeout {R : Type} (o : socket_observer) (timeout : Z) (callback : Z -> R) (w : os) (h : history) :
  match prun w h (so_receive_helper o timeout callback) with
  | (Returned r, t) => exists original, timeouts_set t =
      if timeout >? 0 then 1000 * timeout :: match r with Expected _ => [original] | Unexpected _ => [] end else []
  | (Threw _, _) => False
  end.
Proof.
  assert (Hv : timeval_of timeout = 1000 * timeout) by (unfold timeval_of; pose proof (Z.div_mod timeout 1000); lia).
  assert (H : wp (so_receive_helper o timeout callback) (fun x t => match x with
    | Returned r => exists original, timeouts_set t =
        if timeout >? 0 then 1000 * timeout :: match r with Expected _ => [original] | Unexpected _ => [] end else []
    | Threw _ => False end)).
  { unfold so_receive_helper. destruct (Z.gtb_spec timeout 0) as [Ht|Ht]; os_step.
    - intros g s. destruct (rc s <? 0); [cbn; rewrite Hv; by exists 0|]. os_step. intros [v|e]; [|cbn; destruct (e =? EAGAIN); cbn; rewrite Hv; by exists 0].
      destruct (v =? 0); [cbn; rewrite Hv; by exists 0|]. cbn. intros r. rewrite Hv. by eexists.
    - intros [v|e]; [|cbn; destruct (e =? EAGAIN); by exists 0]. destruct (v =? 0); cbn; by exists 0. }
  generalize (wp_sound _ _ w h H). by destruct (prun _ _ _) as [[] t].
Qed.
End socket_observer.

(** * Concrete runs *)

Definition demo_errors : observer_errors := {| OBSERVER_SETUP_FAILED := 1; NOTIFIER_UNREACHABLE := 2; OBSERVER_NOT_SUBSCRIBED := 3; UNKNOWN := 4; NO_ERROR := 0;
  CREATION_ERROR := 1; CONNECTION_ERROR := 2; TIMEOUT_SETUP_ERROR := 1; TIMEOUT := 2; NOTIFICATION_ERROR := 3; NOTIFIER_DOWN := 4; response_info := 5 |}.

(** A kernel that does what the rules say and refuses everything else. *)
Definition EBADF : Z := 9.
Definition plain_server (listening server_fd capacity : Z) (k : link) (c : call) : option (reply * link) :=
  match c with
  | Sys_accept fd =>
      if fd =? listening then if lk_pending k then Some (Rval server_fd, lk_flags false true (lk_client k) k) else Some (Rerr EAGAIN, k)
      else Some (Rerr EBADF, k)
  | Sys_recv fd size =>
      if (fd =? server_fd) && lk_server k then
        match lk_up k with
        | [] => Some (if lk_client k then Rerr EAGAIN else Rval 0, k)
        | up => Some (received size up, lk_set_up (remaining size up) k)
        end
      else Some (Rerr EBADF, k)
  | Sys_send fd _ bytes =>
      if (fd =? server_fd) && lk_server k && lk_client k then
        if room capacity (lk_down k) bytes then Some (Rval (zlen bytes), lk_set_down (lk_down k ++ bytes) k) else None
      else Some (Rerr EBADF, k)
  | Sys_close fd => if fd =? server_fd then Some (Rval 0, lk_flags (lk_pending k) false (lk_client k) k) else Some (Rerr EBADF, k)
  | _ => Some (Rerr EBADF, k)
  end.
Definition plain_client (client_fd capacity : Z) (address : string) (k : link) (c : call) : option (reply * link) :=
  match c with
  | Sys_socket => Some (Rval client_fd, k)
  | Sys_connect fd path =>
      if (fd =? client_fd) && bool_decide (path = address) then Some (Rval 0, lk_flags true false true k) else Some (Rerr EBADF, k)
  | Sys_get_recv_timeout fd => Some (Rval (lk_timeout k), k)
  | Sys_recv_timeout fd t => Some (Rval 0, lk_set_timeout t k)
  | Sys_send fd _ bytes =>
      if (fd =? client_fd) && lk_client k && lk_server k then
        if room capacity (lk_up k) bytes then Some (Rval (zlen bytes), lk_set_up (lk_up k ++ bytes) k) else None
      else Some (Rerr EBADF, k)
  | Sys_recv fd size =>
      if (fd =? client_fd) && lk_client k then
        match lk_down k with
        | [] => if lk_server k || lk_pending k then if lk_timeout k =? 0 then None else Some (Rerr EAGAIN, k) else Some (Rval 0, k)
        | down => Some (received size down, lk_set_down (remaining size down) k)
        end
      else Some (Rerr EBADF, k)
  | Sys_shutdown fd | Sys_close fd => if fd =? client_fd then Some (Rval 0, lk_flags (lk_pending k) (lk_server k) false k) else Some (Rerr EBADF, k)
  | _ => Some (Rerr EBADF, k)
  end.
#[export] Instance plain_kernel : Kernel link :=
  {| kn_link := fun k => k; kn_server := plain_server 4 5 64; kn_client := plain_client 3 64 "/tmp/demo.ipcpp.sock" |}.
#[export] Instance plain_kernel_obeys : StreamSockets 4 5 3 64 "/tmp/demo.ipcpp.sock" link.
Proof.
  split; cbn [kn_link kn_server kn_client plain_kernel].
  - intros k c r l []; cbn -[room received remaining zlen]; repeat match goal with H : _ = _ |- _ => rewrite ?H; clear H end; cbn -[room received remaining zlen]; eauto.
    destruct (lk_up k0); [done|]. eauto.
  - intros k c []; cbn -[room zlen]. by rewrite H, H0, H1.
  - intros k c r l []; cbn -[room received remaining zlen]; rewrite ?H; cbn -[room received remaining zlen]; eauto.
    + by rewrite H0, H1; eauto.
    + destruct (lk_down k0); [done|]. eauto.
    + rewrite H0, H1, H2. eauto.
    + rewrite H0, H1. cbn. rewrite (proj2 (Z.eqb_neq _ _)) by done. eauto.
  - intros k c []; cbn -[room zlen]; rewrite H; cbn -[room zlen]; rewrite H0, H1; cbn -[room zlen]; [done|by rewrite H2].
Qed.

Definition demo_world : world := {| wd_notifier := demo_notifier; wd_answer := None;
  wd_kernel := {| lk_pending := false; lk_server := false; lk_client := false; lk_up := []; lk_down := []; lk_timeout := 0 |} |}.
Definition demo_observer : socket_observer := so_construct "/tmp/demo.ipcpp.sock".
Definition demo_events : list event :=
  [Serve (Broadcast [7; 0]); AskPause; Serve (Broadcast [8; 0]); Serve ActiveRound; Serve (Broadcast [9; 0]); Take 0; AskResume; Serve PausedRound;
   Take 100; Serve (Broadcast [1; 1]); Take 50; Take 30; Take 0].

Definition demo_event_replies : list event_reply :=
  [Done; Done; Done; Done; Done; Value 7; Done; Done; Value 8; Done; Value 257; Failure no_error; Failure no_error].

Lemma demo_nobody : nobody 4 demo_world.
Proof. by repeat split. Qed.
Lemma bytes_ok l : forallb (fun x => (0 <=? x) && (x <? 256)) l = true -> notification_ok (zlen l) l.
Proof.
  intros H. split; [done|]. induction l as [|x l IH]; [constructor|]. cbn -[Z.leb Z.ltb] in H. apply andb_prop in H as [Hx H].
  constructor; [lia|by apply IH].
Qed.

Lemma observer_receives_notifications_witness :
  exists o' w1 w2 s, interleave 20 (handshake []) demo_world (so_subscribe demo_errors demo_observer)
      = Some (Returned (Ok (Expected true, o')), w1) /\
    connected 3 o' /\
    run_events demo_errors 2 20 o' demo_events w1 = Some (demo_event_replies, w2) /\
    carries 2 4 5 w2 s.
Proof.
  assert (Hs : exists s, spec_events 64 demo_events subscribed_now =
    Some (demo_event_replies, s)) by (eexists; vm_compute; reflexivity).
  destruct Hs as [s Hs].
  destruct (observer_receives_notifications demo_errors 2 4 5 3 64 "/tmp/demo.ipcpp.sock" 20 demo_observer demo_world demo_events) as (o' & w1 & H1 & H2 & H3);
    [exact demo_nobody|reflexivity|reflexivity|lia|lia|lia|lia| |cbn; lia|].
  { repeat (apply Forall_cons; split; [try exact I|]); [by apply (bytes_ok [7; 0])|by apply (bytes_ok [8; 0])|by apply (bytes_ok [9; 0])|by apply (bytes_ok [1; 1])|by apply Forall_nil]. }
  rewrite Hs in H3. destruct H3 as (w2 & H3 & H4). exists o', w1, w2, s. split; [exact H1|]. split; [exact H2|]. split; [exact H3|exact H4].
Defined.

Lemma subscription_race_witness :
  exists x o' w1, interleave 20 (handshake [Broadcast [7; 0]]) demo_world (so_subscribe demo_errors demo_observer)
      = Some (Returned (Ok (x, o')), w1) /\
    x = Expected true /\ exists w2, run_event demo_errors 2 20 o' (Take 0) w1 = Some (Value 256, w2).
Proof.
  destruct (subscription_race demo_errors 2 4 5 3 64 "/tmp/demo.ipcpp.sock" 20 demo_observer demo_world 7 [0]) as (x & o' & w1 & H & _ & _ & Hx);
    [exact demo_nobody|reflexivity|reflexivity|lia|lia|by apply (bytes_ok [7; 0])|lia|].
  destruct (Hx ltac:(lia)) as (-> & w2 & Hw & _). by exists (Expected true), o', w1; split; [|split; [|exists w2]].
Defined.

(** Subscribed, then cancelled while the notifier reads the request: alone, and with a
    notification of zeros on its way. *)
Definition demo_connected : world := {| wd_notifier := set_clients [5] [] demo_notifier; wd_answer := None;
  wd_kernel := sub_link subscribed_now |}.
Definition demo_subscribed : socket_observer := so_set_subscribed true (so_set_socket 3 demo_observer).

