(* ===== verification/Service.v ===== *)
(** Topics: the publishers and subscribers of both transports over the registry.

    [Publisher::create] and [RealTimePublisher::create], and the subscribers', ask the registry for a segment and
    place their structure in it.  [Fifo] and [RealTime] model what they do with the segment,
    [Registry] how it is found or made; this file runs the one on the result of the
    other, and joins the subscribers to what the publisher has made. *)
From S2P Require Import Prelude Numeric Errors Os SharedMemory FileLock PoolAllocator Registry Fifo RealTime.

Section service.
Context (moved_from : string -> string) (tmp : string).
Abbreviation get_shm_entry := (Registry.get_shm_entry moved_from tmp).

(** The bytes behind an entry. *)
Definition segment_bytes (rg : registry) (p : Z) : Z := default 0 (snd <$> entry_segment rg p).

(** What a [create] of the real-time transport meets when the registry has answered. *)
Definition in_segment {T : Type} (memory : Z -> RealTime.segment T) (rest : @environment T) (e_topic : expected Z error_code) (rg : registry) : environment :=
  {| env_shm := fun _ => match e_topic with
                         | Unexpected e => Unexpected (ec_value e)
                         | Expected p => Expected (segment_bytes rg p, memory (entry_addr rg p))
                         end;
     env_polls := env_polls rest; env_start := env_start rest; env_rounds := env_rounds rest;
     env_process := env_process rest |}.

(** [Publisher::create] of the ordered transport: the request is computed, the registry
    asked, and the queue constructed over the bytes the entry has. *)
(* @source include/ipcpp/publish_subscribe/fifo_seq/fifo_publisher.h 162-180 Publisher::create *)
Definition fifo_topic {T : Type} (c : compiler) (sizeof_T queue_capacity : Z) (rg : registry) (topic_id : string)
    : prog (outcome (expected (mqueue T) Z) * registry) :=
  match ceil_to_power_of_two c 64 (Fifo.required_size_bytes sizeof_T queue_capacity) with
  | Throw x => Ret (Throw x, rg)
  | UB => Ret (UB, rg)
  | Ok request =>
    '(e_topic, rg) ← get_shm_entry rg topic_id request;
    Ret (Fifo.publisher_create c (fun _ => match e_topic with Unexpected e => Unexpected (ec_value e) | Expected p => Expected (segment_bytes rg p) end)
           sizeof_T queue_capacity, rg)
  end.

(** [RealTimePublisher::create]: [memory] is what the process sees at an address,
    [rest] the part of the environment that is not the segment. *)
(* @source include/ipcpp/publish_subscribe/real_time/real_time_publisher.h 53-83 RealTimePublisher::create *)
Definition real_time_topic {T : Type} (c : compiler) (sizeof_T : Z) (sp1 sp2 : bool) (o : options)
    (memory : Z -> RealTime.segment T) (rest : @environment T) (rg : registry) (topic_id : string)
    : prog (option (outcome (expected (publisher * RealTime.segment T) create_error)) * registry) :=
  match RealTime.required_size_bytes c sizeof_T o with
  | Throw x => Ret (Some (Throw x), rg)
  | UB => Ret (Some UB, rg)
  | Ok request =>
    '(e_topic, rg) ← get_shm_entry rg topic_id request;
    Ret (RealTime.publisher_create c sizeof_T sp1 sp2 o (in_segment memory rest e_topic rg), rg)
  end.

(** [Subscriber::create] of the ordered transport: the segment is asked for with the
    default size and the queue read from where it is mapped. *)
(* @source include/ipcpp/publish_subscribe/fifo_seq/fifo_subscriber.h 96-110 Subscriber::create *)
Definition fifo_subscription {T : Type} (memory : Z -> mqueue T) (rg : registry) (topic_id : string)
    : prog (expected (mqueue T) Z * registry) :=
  '(e_topic, rg) ← get_shm_entry rg topic_id 0;
  Ret (match e_topic with
       | Unexpected e => Unexpected (ec_value e)
       | Expected p => Fifo.read_at (memory (entry_addr rg p))
       end, rg).

(** [RealTimeSubscriber::create]. *)
(* @source include/ipcpp/publish_subscribe/real_time/real_time_subscriber.h 97-125 RealTimeSubscriber::create *)
Definition real_time_subscription {T : Type} (c : compiler) (memory : Z -> RealTime.segment T) (rest : @environment T) (rg : registry) (topic_id : string)
    : prog (option (outcome (expected (RealTime.subscriber * Z * RealTime.segment T) create_error)) * registry) :=
  '(e_topic, rg) ← get_shm_entry rg topic_id 0;
  Ret (RealTime.subscriber_create c (in_segment memory rest e_topic rg), rg).

(** * New topics *)

(** A system with pages of 4096 bytes on which no segment is found. *)
Definition no_segments (w : os) : Prop :=
  (forall h, w h Sys_getpagesize = Rval 4096) /\ forall h path write, exists errno, w h (Sys_shm_open path write false) = Rerr errno.

Lemma new_segment_bytes (rg rg' : registry) (id : string) (size p : Z) (w : os) (h : history) :
  rg_entries rg !! id = None -> no_segments w -> 0 <= size <= 2 ^ 62 ->
  (prun w h (get_shm_entry rg id size)).1 = Returned (Expected p, rg') -> size <= segment_bytes rg' p < size + 4096.
Proof.
  intros Hid [Hpage Hopen] Hsize E. generalize (wp_sound _ _ w h (get_shm_entry_size moved_from tmp rg id size)). rewrite E.
  pose proof (prun_replies w (get_shm_entry rg id size) h) as Hw. rewrite Forall_forall in Hw.
  intros [H|(addr & n & Hs & H)]; [congruence|]. unfold segment_bytes. rewrite Hs. cbn.
  destruct H as [(wr & fd & st & Hin & _)|(page & Hin & ->)]; apply Hw in Hin as [h' Hh']; cbn in Hh'.
  - destruct (Hopen h' (shm_name id) wr) as [e He]. congruence.
  - rewrite Hpage in Hh'. subst page. cbn [rc]. rewrite u64_small by lia. apply (align_up_bounds size 12); lia.
Qed.

(** The queue a publisher finds room for in a segment made for it. *)
Lemma queue_room {T : Type} c sizeof_T k request bytes :
  0 < sizeof_T -> 0 <= k -> sizeof_header + sizeof_T * 2 ^ k <= request <= bytes -> bytes < 2 ^ 62 ->
  exists j q, Fifo.init_at (T := T) c sizeof_T bytes = Ok (Expected q) /\ Fifo.sys_inv j [] [] q /\ mq_queue_size q = 2 ^ j /\ k <= j /\
    sizeof_header + sizeof_T * 2 ^ j <= bytes.
Proof.
  unfold sizeof_header. intros Hs Hk Hreq Hb. assert (0 < 2 ^ k) by (apply Z.pow_pos_nonneg; lia).
  destruct (init_at_inv (T := T) c sizeof_T bytes) as (j & q & Hq & Hinv & Hj); [lia|unfold sizeof_header; nia|]. unfold sizeof_header in Hj.
  exists j, q. split; [done|]. split; [done|].
  split; [by rewrite <- (init_at_size _ _ _ _ Hq), (si_items _ _ _ _ Hinv); [|rewrite (si_items _ _ _ _ Hinv); apply Z.pow_pos_nonneg; [|apply (si_k _ _ _ _ Hinv)]]|].
  assert (2 ^ k <= (bytes - 256) / sizeof_T) by (apply Z.div_le_lower_bound; lia).
  pose proof (Z.mul_div_le (bytes - 256) sizeof_T ltac:(lia)). split; [|nia].
  destruct (Z.lt_ge_cases j k) as [Hlt|]; [|done]. pose proof (Z.pow_le_mono_r 2 (j + 1) k ltac:(lia) ltac:(lia)). lia.
Qed.

(** What the publisher of a new topic gets. *)
Lemma topic_created {T : Type} (c : compiler) (sizeof_T k : Z) (rg : registry) (id : string) (w : os) (h : history) :
  rg_entries rg !! id = None -> no_segments w -> 0 < sizeof_T -> 0 <= k -> sizeof_header + sizeof_T * 2 ^ k <= 2 ^ 60 ->
  match (prun w h (fifo_topic (T := T) c sizeof_T (2 ^ k) rg id)).1 with
  | Returned (Ok (Expected q), rg') => exists p j, rg_entries rg' !! id = Some p /\ Fifo.sys_inv j [] [] q /\ mq_queue_size q = 2 ^ j /\ k <= j /\
      sizeof_header + sizeof_T * 2 ^ j <= segment_bytes rg' p < 2 ^ 62
  | Returned (Ok (Unexpected _), rg') => rg' = rg
  | Returned _ => False
  | Threw e => exists errno, e = system_error errno
  end.
Proof.
  intros Hid Hw Hs Hk Hb. unfold sizeof_header in Hb. assert (0 < 2 ^ k) by (apply Z.pow_pos_nonneg; lia).
  unfold fifo_topic, Fifo.publisher_create, Fifo.required_size_bytes, sizeof_header.
  rewrite (u64_small (sizeof_T * 2 ^ k)), u64_small by nia.
  destruct (ceil_ok c 64 (256 + sizeof_T * 2 ^ k)) as (a & Ha & E & Hab); [by right|nia|]. rewrite E.
  rewrite prun_bind. pose proof (new_segment_bytes rg) as Hn. specialize (Hn) with (id := id) (size := 2 ^ a) (w := w) (h := h).
  generalize (wp_sound _ _ w h (get_shm_entry_ok moved_from tmp rg id (2 ^ a))).
  destruct (prun w h (get_shm_entry rg id (2 ^ a))) as [[[[p|e] rg']|e] t]; cbn [fst snd] in *; [|by intros [-> _]|done].
  intros Hget. assert (Hp : rg_entries rg' !! id = Some p).
  { destruct Hget as [(? & _)|(_ & -> & [m ->])]; [congruence|]. cbn. apply lookup_insert_eq. }
  destruct (Hn rg' p) as [H1 H2]; [done|done|nia|done|]. cbn.
  destruct (queue_room (T := T) c sizeof_T k (2 ^ a) (segment_bytes rg' p)) as (j & q & Hq & Hinv & Hsz & Hj & Hfit); [done|done|unfold sizeof_header; lia|lia|].
  rewrite Hq. exists p, j. unfold sizeof_header in Hfit. split_and!; done || lia.
Qed.

(** The real-time transport never finds a new segment too small. *)
Theorem new_real_time_topics_have_room (c : compiler) (sizeof_T : Z) (o : options) (rg rg' : registry) (id : string) (request p : Z) (w : os) (h : history) :
  rg_entries rg !! id = None -> no_segments w -> RealTime.required_size_bytes c sizeof_T o = Ok request -> request <= 2 ^ 62 ->
  (prun w h (get_shm_entry rg id request)).1 = Returned (Expected p, rg') -> request <= segment_bytes rg' p.
Proof.
  intros Hid Hw Hreq Hmax E. destruct (new_segment_bytes rg rg' id request p w h) as [H _]; [done|done| |done|done].
  unfold RealTime.required_size_bytes in Hreq. apply bind_Ok in Hreq as (pool & _ & [= <-]).
  pose proof (wrap_range 64 (u64 (u64 (sizeof_instance_data + u64 (sizeof_publisher_entry * max_publishers o)) +
    u64 (sizeof_subscriber_entry * max_subscribers o)) + u64 (u64 (sizeof_T * pool) * max_publishers o)) ltac:(lia)). lia.
Qed.

(** A second publisher on a topic starts over: the queue it gets is empty and has no
    subscribers, whatever the queue in the segment was. *)
Theorem second_publisher_resets {T : Type} (c : compiler) (sizeof_T queue_capacity request p : Z) (rg : registry) (id : string) (w : os) (h : history) :
  rg_entries rg !! id = Some p -> 0 < sizeof_T -> sizeof_header + sizeof_T <= segment_bytes rg p < 2 ^ 62 ->
  ceil_to_power_of_two c 64 (Fifo.required_size_bytes sizeof_T queue_capacity) = Ok request ->
  exists q, prun w h (fifo_topic (T := T) c sizeof_T queue_capacity rg id) = (Returned (Ok (Expected q), rg), []) /\
    mq_num_subscribers q = 0 /\ mq_next q = 0.
Proof.
  intros Hp Hs Hb E. unfold fifo_topic, Registry.get_shm_entry, open_shm, Fifo.publisher_create. rewrite E, Hp. cbn. 
  unfold Fifo.init_at, sizeof_header in *. rewrite (u64_small (256 + _)), (u64_small (_ - 256)) by lia.
  rewrite (proj2 (Z.ltb_ge _ _)) by lia.
  destruct (floor_ok c 64 ((segment_bytes rg p - 256) / sizeof_T)) as (j & _ & Hf & _); [by right| |].
  - pose proof (Z.div_str_pos (segment_bytes rg p - 256) sizeof_T ltac:(lia)).
    pose proof (Z.div_lt_upper_bound (segment_bytes rg p - 256) sizeof_T (2 ^ 62) ltac:(lia) ltac:(nia)). lia.
  - rewrite Hf. cbn. by eexists.
Qed.

(** * Joining a topic *)

(** A system that has the segment [name] of [bytes] bytes, lets it be mapped at [addr] and
    grants the file lock. *)
Record finds (w : os) (name : string) (fd bytes addr : Z) : Prop := {
  fi_lock_file : forall h path, exists v, w h (Sys_open path) = Rval v;
  fi_fcntl : forall h v wait kind, exists x, w h (Sys_fcntl v wait kind) = Rval x;
  fi_open : forall h write, w h (Sys_shm_open name write false) = Rval fd;
  fi_fstat : forall h, w h (Sys_fstat fd) = Rval bytes;
  fi_mmap : forall h, w h (Sys_mmap 0 bytes true false true fd 0) = Rval addr;
  fi_fd : fd <> 0
}.

Lemma get_found (rg : registry) (id : string) (size fd bytes addr : Z) (w : os) (h : history) :
  rg_entries rg !! id = None -> finds w (shm_name id) fd bytes addr -> 0 <= bytes < 2 ^ 64 ->
  exists rg', (prun w h (get_shm_entry rg id size)).1 = Returned (Expected (rg_next rg), rg') /\ extended rg rg' id /\
    entry_segment rg' (rg_next rg) = Some (addr, bytes).
Proof.
  intros E [Hl Hf Ho Hst Hm Hfd] Hb.
  rewrite <- (u64_small bytes) in Hm by done.
  unfold Registry.get_shm_entry, open_shm, locked_get, fl_construct, mm_open_file_single, refuses. rewrite E. cbn -[prun].
  rewrite prun_fst. destruct (Hl h (tmp +:+ "/" +:+ "global")%string) as [v Hv]. rewrite Hv. cbn -[prun].
  rewrite prun_fst. destruct (Hf (h ++ [(Sys_open (tmp +:+ "/" +:+ "global"), Rval v)]) v true F_WRLCK) as [v1 Hv1]. rewrite Hv1. cbn -[prun].
  rewrite !prun_fst, Ho. cbn -[prun]. rewrite prun_fst, Hst. cbn -[prun]. unfold mm_open_file_single, refuses.
  rewrite (bool_decide_false (_ = READ)), (bool_decide_true (_ = WRITE)) by done.
  cbn -[prun]. rewrite (bool_decide_true (_ = WRITE)), (proj2 (Z.eqb_neq fd 0)) by done. cbn -[prun]. rewrite prun_fst, Hm. cbn -[prun].
  rewrite prun_fst. match goal with |- context [w ?h' (Sys_fcntl v false F_UNLCK)] => destruct (Hf h' v false F_UNLCK) as [v2 Hv2] end. rewrite Hv2. cbn -[prun].
  unfold fl_destroy. cbn -[prun]. eexists. split.
  - destruct (negb (v =? -1)); cbn -[prun]; by rewrite ?prun_fst.
  - split; [by eexists|]. unfold entry_segment. cbn. rewrite lookup_insert_eq. cbn. by rewrite u64_small.
Qed.

(** C15 A topic connects its two ends.  When no segment of the topic exists, a publisher
    that is created gets a queue with at least the number of places asked for, if that is a power of
    two, and the queue lies within the segment.  Whatever has happened to the queue since,
    a subscriber created in the same process gets this queue without a system call, and
    one created in another process, in which the segment is mapped elsewhere, gets it
    too.  From then on every sequence of publishing, subscribing, receiving and
    cancelling is possible exactly if the log of values admits it, and has the log's
    replies. *)
Theorem topic_delivers {T : Type} (c : compiler) (sizeof_T k : Z) (rg rg1 : registry) (id : string) (q : mqueue T) (w : os) (h : history)
    (evs : list (Fifo.event T)) :
  rg_entries rg !! id = None -> no_segments w -> 0 < sizeof_T -> 0 <= k -> sizeof_header + sizeof_T * 2 ^ k <= 2 ^ 60 ->
  (prun w h (fifo_topic c sizeof_T (2 ^ k) rg id)).1 = Returned (Ok (Expected q), rg1) -> zlen evs < 2 ^ 60 ->
  exists p j, rg_entries rg1 !! id = Some p /\ k <= j /\ sizeof_header + sizeof_T * 2 ^ j <= segment_bytes rg1 p /\
    match Fifo.spec_run (2 ^ j) evs ([], []) with
    | None => Fifo.run evs (q, []) = None
    | Some (rs, (log, subs)) => exists q', Fifo.run evs (q, []) = Some (Ok (rs, (q', subs))) /\ mq_next q' = zlen log /\
        (forall w' h' memory, memory (entry_addr rg1 p) = q' ->
           prun w' h' (fifo_subscription memory rg1 id) = (Returned (Expected q', rg1), [])) /\
        (forall w' h' memory fd addr rg2, rg_entries rg2 !! id = None -> finds w' (shm_name id) fd (segment_bytes rg1 p) addr -> memory addr = q' ->
           exists rg2', (prun w' h' (fifo_subscription memory rg2 id)).1 = Returned (Expected q', rg2') /\ extended rg2 rg2' id)
    end.
Proof.
  intros Hid Hw Hs Hk Hb Hpub Hevs. generalize (topic_created (T := T) c sizeof_T k rg id w h Hid Hw Hs Hk Hb). rewrite Hpub.
  intros (p & j & Hp & Hinv & Hsz & Hj & Hfit). exists p, j. split_and!; [done..|apply Hfit|].
  destruct (Fifo.spec_run (2 ^ j) evs ([], [])) as [[rs [log subs]]|] eqn:Hspec.
  2: { destruct (Fifo.run evs (q, [])) as [o|] eqn:Hrun; [|done].
       destruct (run_enabled j evs [] [] q o Hinv) as [st Hst]; [by rewrite zlen_nil; lia..|done|congruence]. }
  destruct (sim_run j evs [] [] q rs log subs Hinv) as (q' & Hrun & Hinv'); [by rewrite zlen_nil; lia..|done|].
  assert (Hread : Fifo.read_at q' = Expected q').
  { pose proof (run_queue_size _ _ _ _ _ _ Hrun) as Hsz'. rewrite Hsz in Hsz'.
    apply read_at_same; rewrite Hsz'; [apply (si_items _ _ _ _ Hinv')|]. apply Z.pow_nonzero; [done|apply (si_k _ _ _ _ Hinv')]. }
  exists q'. split; [done|]. split; [apply (si_next _ _ _ _ Hinv')|]. split.
  - intros w' h' memory Hm. unfold fifo_subscription, Registry.get_shm_entry, open_shm. rewrite Hp. cbn. by rewrite Hm, Hread.
  - intros w' h' memory fd addr rg2 E Hf Hm.
    destruct (get_found rg2 id 0 fd (segment_bytes rg1 p) addr w' h' E Hf) as (rg2' & Hg & He & Ha); [unfold sizeof_header in Hfit; nia|].
    exists rg2'. split; [|done]. unfold fifo_subscription. rewrite prun_bind. destruct (prun w' h' _) as [x t]. cbn in Hg. subst x.
    cbn. unfold entry_addr. rewrite Ha. cbn. by rewrite Hm, Hread.
Qed.

(** A subscriber that comes before its publisher fails, and removes the name of the
    segment while it looks for it. *)
Theorem early_subscriber_fails {T : Type} (rg : registry) (id : string) (memory : Z -> mqueue T) (w : os) (h : history) :
  rg_entries rg !! id = None -> no_segments w -> Forall posix_mmap (prun w h (get_shm_entry rg id 0)).2 ->
  match (prun w h (fifo_subscription memory rg id)).1 with
  | Returned (Expected _, _) => False
  | Returned (Unexpected _, rg') => rg' = rg
  | Threw e => exists errno, e = system_error errno
  end.
Proof.
  intros Hid [_ Hopen] Hm. generalize (wp_sound _ _ w h (get_shm_entry_ok moved_from tmp rg id 0)).
  generalize (wp_sound _ _ w h (get_shm_entry_found moved_from tmp rg id Hid) Hm). pose proof (prun_replies w (get_shm_entry rg id 0) h) as Hr.
  rewrite Forall_forall in Hr. unfold fifo_subscription. rewrite prun_bind. destruct (prun w h _) as [[[[p|e] rg']|e] t]; cbn; [|naive_solver..].
  intros (wr & fd & Hin) _. apply Hr in Hin as [h' Hin]. cbn in Hin. destruct (Hopen h' (shm_name id) wr). congruence.
Qed.
End service.

(** A topic for four messages of 1000 bytes on a system without segments. *)
Definition topic_os : os := fun _ c =>
  match c with
  | Sys_getpagesize => Rval 4096
  | Sys_shm_open _ _ false => Rerr 2
  | Sys_mmap _ _ _ _ _ _ _ => Rval 65536
  | _ => Rval 3
  end.

Lemma topic_os_empty : no_segments topic_os.
Proof. split; [done|]. intros h path wr. by exists 2. Qed.

(** The same system for another process, which finds the segment at another address. *)
Definition joining_os : os := fun _ c =>
  match c with
  | Sys_fstat _ => Rval 4096
  | Sys_mmap _ _ _ _ _ _ _ => Rval 131072
  | _ => Rval 3
  end.

Lemma joining_os_finds name : finds joining_os name 3 4096 131072.
Proof. by split; intros; try eexists. Qed.

Definition topic_events : list (Fifo.event Z) := [Fifo.ESubscribe; Fifo.EPublish false 7; Fifo.EPublish false 8; Fifo.EBegin 0; Fifo.EEnd 0].

Lemma topic_delivers_witness :
  exists q q' rg1 rg2, (prun topic_os [] (fifo_topic (T := Z) id "/tmp"%string GNUC 500 (2 ^ 2) empty_registry "t"%string)).1 = Returned (Ok (Expected q), rg1) /\
    (exists subs, Fifo.run topic_events (q, []) = Some (Ok ([Fifo.RDone; Fifo.RPublished 0; Fifo.RPublished 0; Fifo.RReceived (Fifo.Delivered 7); Fifo.RDone], (q', subs)))) /\
    (prun joining_os [] (fifo_subscription id "/tmp"%string (fun _ => q') empty_registry "t"%string)).1 = Returned (Expected q', rg2).
Proof.
  assert (E : exists q rg', (prun topic_os [] (fifo_topic (T := Z) id "/tmp"%string GNUC 500 (2 ^ 2) empty_registry "t"%string)).1 =
    Returned (Ok (Expected q), rg') /\ segment_bytes rg' 0 = 4096 /\ rg_entries rg' !! "t"%string = Some 0) by (do 2 eexists; split; [vm_compute; reflexivity|by vm_compute]).
  destruct E as (q & rg1 & E & Hb & H0).
  destruct (topic_delivers (T := Z) id "/tmp"%string GNUC 500 2 empty_registry rg1 "t"%string q topic_os [] topic_events) as (p & j & Hp & Hj & Hfit & H);
    [done|apply topic_os_empty|lia|lia|by vm_compute|exact E|by vm_compute|].
  rewrite H0 in Hp. injection Hp as <-. rewrite Hb in Hfit. unfold sizeof_header in Hfit.
  assert (j = 2) as ->.
  { destruct (Z.lt_ge_cases j 3) as [|Hlt]; [lia|]. pose proof (Z.pow_le_mono_r 2 3 j ltac:(lia) Hlt). lia. }
  destruct (Fifo.spec_run (2 ^ 2) topic_events ([], [])) as [[rs [log subs]]|] eqn:Hs; vm_compute in Hs; [|discriminate Hs].
  injection Hs as <- <- <-. destruct H as (q' & Hrun & _ & _ & Hjoin).
  destruct (Hjoin joining_os [] (fun _ => q') 3 131072 empty_registry) as (rg2 & Hsub & _); [done|rewrite Hb; apply joining_os_finds|done|].
  exists q, q', rg1, rg2. split; [exact E|]. split; [by eexists|exact Hsub].
Defined.
