(* ===== verification/RealTimeTopic.v ===== *)
(** The life of a real-time topic: publishers and subscribers that join at any time.

    [RealTime] models the [create] functions of both ends and the work of publishers and
    subscribers that are there from the start.  Here they join one after the other, each
    through its [create] on the segment as the others have left it, while those already
    there publish and fetch.  Every participant belongs to a process; the lock of an entry
    belongs to the process that took it, and what the kernel promises about it is the
    class [EntryLocks]. *)
From S2P Require Import Prelude Numeric Errors Os SharedMemory FileLock PoolAllocator Registry RealTime Service.

Section topic.
Context {T : Type} (c : compiler) (sizeof_T size_bytes : Z) (o : options) (fuel : nat).

Abbreviation system := (@RealTime.system T).
Abbreviation register := (@RealTime.register T).

(** The locks of the entries.  [fcntl_lock held me entry] is what [try_lock] returns to process
    [me] for the file of [entry]: the value of the error code and whether the lock was
    acquired, when [held] lists the processes with the entries they have locked.  It is
    the kernel's; [entry_locks] below says what is relied on. *)
Context (fcntl_lock : list (Z * Z) -> Z -> Z -> Z * bool).

(** One call of a [create]: the process that makes it and the time at which it writes its
    entry, how long [read_at] has waited at each of its looks at the state, the clock when
    the search for an entry begins and after each of its rounds. *)
Record moment : Type := {
  mo_process : Z;
  mo_timestamp : Z;
  mo_waited : list Z;
  mo_start : Z;
  mo_clocks : list Z
}.

(** What it meets: the segment and the locks as the others have left them. *)
Definition meets (held : list (Z * Z)) (m : moment) (g : segment T) : environment :=
  {| env_shm := fun _ => Expected (size_bytes, g); env_polls := map (fun waited => (sg_state g, waited)) (mo_waited m);
     env_start := mo_start m; env_rounds := map (fun now => (fcntl_lock held (mo_process m), now)) (mo_clocks m);
     env_process := this_process (mo_process m) (mo_timestamp m) |}.

(** The participants, and the locks of the publishers' and the subscribers' entries. *)
Record topic : Type := { tp_system : system; tp_publisher_locks : list (Z * Z); tp_subscriber_locks : list (Z * Z) }.

Inductive topic_event : Type :=
| JoinPublisher (m : moment)
| JoinSubscriber (m : moment)
| Happens (e : event T).

Inductive topic_reply : Type :=
| Joined
| Refused (e : create_error)
| Replies (r : reply T).

(** A subscriber takes its number before it looks for an entry. *)
Definition take_number (g : segment T) : segment T :=
  {| sg_next_message_id := sg_next_message_id g; sg_latest_published_idx := sg_latest_published_idx g;
     sg_state := sg_state g; sg_next_publisher_id := sg_next_publisher_id g;
     sg_next_subscriber_id := u32 (sg_next_subscriber_id g + 1); sg_options := sg_options g;
     sg_publishers := sg_publishers g; sg_subscribers := sg_subscribers g; sg_slots := sg_slots g |}.

Definition with_segment (g : segment T) (y : system) : system :=
  {| sy_segment := g; sy_publishers := sy_publishers y; sy_subscribers := sy_subscribers y |}.

Definition with_system (t : topic) (y : system) : topic :=
  {| tp_system := y; tp_publisher_locks := tp_publisher_locks t; tp_subscriber_locks := tp_subscriber_locks t |}.

(** Whoever has joined keeps the lock of its entry. *)
Definition topic_step (h : topic_event) (t : topic) : option (outcome (topic_reply * topic)) :=
  let y := tp_system t in
  match h with
  | JoinPublisher m =>
    r ← publisher_create c sizeof_T false false o (meets (tp_publisher_locks t) m (sy_segment y));
    Some (r ← r;
      match r with
      | Expected (pb, g) => Ok (Joined,
          {| tp_system := {| sy_segment := g; sy_publishers := sy_publishers y ++ [pb]; sy_subscribers := sy_subscribers y |};
             tp_publisher_locks := tp_publisher_locks t ++ [(mo_process m, pb_entry_idx pb)];
             tp_subscriber_locks := tp_subscriber_locks t |})
      | Unexpected e => Ok (Refused e, t)
      end)
  | JoinSubscriber m =>
    r ← subscriber_create c (meets (tp_subscriber_locks t) m (sy_segment y));
    Some (r ← r;
      match r with
      | Expected (s, entry, g) => Ok (Joined,
          {| tp_system := {| sy_segment := g; sy_publishers := sy_publishers y; sy_subscribers := sy_subscribers y ++ [s] |};
             tp_publisher_locks := tp_publisher_locks t;
             tp_subscriber_locks := tp_subscriber_locks t ++ [(mo_process m, entry)] |})
      | Unexpected (Errc e) => Ok (Refused (Errc e), with_system t (with_segment (take_number (sy_segment y)) y))
      | Unexpected e => Ok (Refused e, t)
      end)
  | Happens e => r ← step fuel e y; Some ('(r, y1) ← r; Ok (Replies r, with_system t y1))
  end.

Fixpoint topic_run (hs : list topic_event) (y : topic) : option (outcome (list topic_reply * topic)) :=
  match hs with
  | [] => Some (Ok ([], y))
  | h :: hs' =>
    r ← topic_step h y;
    match r with
    | Ok (r, y1) => r' ← topic_run hs' y1; Some ('(rs, y2) ← r'; Ok (r :: rs, y2))
    | Throw x => Some (Throw x)
    | UB => Some UB
    end
  end.

(** ** The specification: a register with participants

    A new subscriber has seen the current version.  There are as many participants as the
    options say, the next one is refused.  A process that has a publisher already and
    makes another one, or a subscriber and makes another one, is not specified; neither is a
    [create] that still waits: [patient] says that the clock has moved far enough for
    each of its two loops to end. *)
Definition patient (m : moment) : bool :=
  existsb (fun waited => waited >=? 1000) (mo_waited m) && existsb (fun now => u64 (mo_start m - now) >=? one_second_ns) (mo_clocks m).

Definition may_join (processes : list Z) (m : moment) : bool := patient m && bool_decide (mo_process m ∉ processes).

Record spec_state : Type := { sp_publishers : list Z; sp_subscribers : list Z; sp_register : register }.

Definition spec_topic (h : topic_event) (st : spec_state) : option (topic_reply * spec_state) :=
  let x := sp_register st in
  match h with
  | JoinPublisher m =>
    if may_join (sp_publishers st) m then
      Some (if zlen (sp_publishers st) <? max_publishers o
            then (Joined, {| sp_publishers := sp_publishers st ++ [mo_process m]; sp_subscribers := sp_subscribers st; sp_register := x |})
            else (Refused (Errc timed_out), st))
    else None
  | JoinSubscriber m =>
    if may_join (sp_subscribers st) m then
      Some (if zlen (sp_subscribers st) <? max_subscribers o
            then (Joined, {| sp_publishers := sp_publishers st; sp_subscribers := sp_subscribers st ++ [mo_process m];
                             sp_register := {| rg_version := rg_version x; rg_last := rg_last x; rg_subs := rg_subs x ++ [(rg_version x, [])] |} |})
            else (Refused (Errc timed_out), st))
    else None
  | Happens e =>
    '(r, x1) ← RealTime.spec_step (length (sp_publishers st)) (max_concurrent_acquires o) e x;
    Some (Replies r, {| sp_publishers := sp_publishers st; sp_subscribers := sp_subscribers st; sp_register := x1 |})
  end.

Fixpoint spec_topic_run (hs : list topic_event) (st : spec_state) : option (list topic_reply * spec_state) :=
  match hs with
  | [] => Some ([], st)
  | h :: hs' =>
    '(r, st1) ← spec_topic h st;
    '(rs, st2) ← spec_topic_run hs' st1;
    Some (r :: rs, st2)
  end.
End topic.
Arguments topic_event : clear implicits.
Arguments topic_reply : clear implicits.
Arguments topic : clear implicits.
Arguments spec_state : clear implicits.

(** Write locks of [fcntl]: one file is locked by one process at a time; a process that has
    the lock is given it again.  A refused lock is [EAGAIN] or [EACCES], which [try_lock]
    turns into the error code 0 and "not acquired". *)
Class EntryLocks (fcntl_lock : list (Z * Z) -> Z -> Z -> Z * bool) : Prop := {
  lock_of_another held me entry : (exists p, p <> me /\ (p, entry) ∈ held) -> fcntl_lock held me entry = (0, false);
  lock_of_nobody_else held me entry : (forall p, (p, entry) ∈ held -> p = me) -> fcntl_lock held me entry = (0, true)
}.

(** * What a run keeps *)
Section keeps.
Context {T : Type}.
Abbreviation system := (@RealTime.system T).
Abbreviation register := (@RealTime.register T).

(** The parts of a segment that are written when it is made. *)
Definition same_shape (g g' : segment T) : Prop :=
  sg_state g' = sg_state g /\ sg_options g' = sg_options g /\ zlen (sg_publishers g') = zlen (sg_publishers g) /\
  zlen (sg_subscribers g') = zlen (sg_subscribers g).

Lemma zinsert_len {A} (l l' : list A) i a : zinsert l i a = Some l' -> zlen l' = zlen l.
Proof. unfold zinsert. case_match; [|done]. intros [= <-]. by rewrite zlen_insert. Qed.

Lemma step_shape fuel e (y y' : system) (r : reply T) : step fuel e y = Some (Ok (r, y')) -> same_shape (sy_segment y) (sy_segment y').
Proof.
  destruct e as [p v|j|j h|j h]; cbn [step].
  - destruct (sy_publishers y !! p) as [pb|]; cbn [mbind option_bind]; [|done].
    intros [= ((pb1 & g1) & H & [= _ <-])%bind_Ok]. cbn. unfold publish in H. apply bind_Ok in H as ([idx g2] & Hn & Hf).
    unfold publish_notify in Hn. apply bind_Ok in Hn as (e & He & Hn). apply bind_Ok in Hn as ([i nl] & _ & Hn).
    apply bind_Ok in Hn as (pubs & Hp%must_Some & Hn). apply bind_Ok in Hn as (m & _ & Hn). apply bind_Ok in Hn as (b & _ & [= _ <-]).
    unfold publish_finish in Hf. apply bind_Ok in Hf as ([a b1] & _ & Hf). apply bind_Ok in Hf as ([[prev o'] b2] & _ & [= _ <-]).
    unfold same_shape. cbn. by rewrite (zinsert_len _ _ _ _ Hp).
  - destruct (sy_subscribers y !! j) as [s|]; cbn [mbind option_bind]; [|done].
    intros [= (((r1 & g1) & s1) & H & [= _ <-])%bind_Ok]. cbn. unfold fetch_message in H. case_match; [by injection H as _ <- _|].
    apply bind_Ok in H as ([a b1] & _ & H). apply bind_Ok in H as ([] & _ & H).
    + case_match; [by apply bind_Ok in H as (b2 & _ & [= _ <- _])|by apply bind_Ok in H as (v & _ & [= _ <- _])].
    + by apply bind_Ok in H as (b2 & _ & [= _ <- _]).
  - destruct (sy_subscribers y !! j) as [s|]; cbn [mbind option_bind]; [|done]. destruct (sb_held s !! h); cbn [mbind option_bind]; [|done].
    by intros [= (v & _ & [= _ <-])%bind_Ok].
  - destruct (sy_subscribers y !! j) as [s|]; cbn [mbind option_bind]; [|done]. destruct (sb_held s !! h); cbn [mbind option_bind]; [|done].
    intros [= ((g1 & s1) & H & [= _ <-])%bind_Ok]. unfold drop_wrapper in H. apply bind_Ok in H as (a1 & _ & H). by apply bind_Ok in H as (b & _ & [= <- _]).
Qed.

(** ** Publishers that are still to come

    The invariant of [RealTime] speaks of all publishers the options admit; those that
    have not joined yet are added to the system, with nothing published. *)
Definition complete (y : system) (rest : list publisher) : system :=
  {| sy_segment := sy_segment y; sy_publishers := sy_publishers y ++ rest; sy_subscribers := sy_subscribers y |}.

(** What those who are there do does not depend on them. *)
Lemma step_complete fuel e (y : system) rest (r : reply T) z :
  match e with EPublish p _ => (p < length (sy_publishers y))%nat | _ => True end ->
  step fuel e (complete y rest) = Some (Ok (r, z)) ->
  exists y', step fuel e y = Some (Ok (r, y')) /\ z = complete y' rest /\ length (sy_publishers y') = length (sy_publishers y).
Proof.
  destruct e as [p v|j|j h|j h]; cbn [step complete sy_segment sy_publishers sy_subscribers]; intros Hp.
  - rewrite lookup_app_l by done. destruct (sy_publishers y !! p) as [pb|]; cbn [mbind option_bind]; [|done].
    intros [= ((pb1 & g1) & -> & [= <- <-])%bind_Ok]. eexists. split; [done|]. unfold complete. cbn. by rewrite insert_app_l, length_insert.
  - destruct (sy_subscribers y !! j) as [s|]; cbn [mbind option_bind]; [|done].
    intros [= (((r1 & g1) & s1) & -> & [= <- <-])%bind_Ok]. by eexists.
  - destruct (sy_subscribers y !! j) as [s|]; cbn [mbind option_bind]; [|done]. destruct (sb_held s !! h); cbn [mbind option_bind]; [|done].
    intros [= (v & -> & [= <- <-])%bind_Ok]. by eexists.
  - destruct (sy_subscribers y !! j) as [s|]; cbn [mbind option_bind]; [|done]. destruct (sb_held s !! h); cbn [mbind option_bind]; [|done].
    intros [= ((g1 & s1) & -> & [= <- <-])%bind_Ok]. by eexists.
Qed.

Lemma spec_step_more np np' acquires e (x x' : register) (r : reply T) : (np <= np')%nat -> spec_step np acquires e x = Some (r, x') ->
  spec_step np' acquires e x = Some (r, x') /\ match e with EPublish p _ => (p < np)%nat | _ => True end /\
  rg_version x <= rg_version x' <= rg_version x + 1 /\ length (rg_subs x') = length (rg_subs x).
Proof.
  intros Hle. destruct e as [p v|j|j h|j h]; cbn [spec_step].
  - case_bool_decide; [|done]. intros [= <- <-]. rewrite bool_decide_true by lia. cbn. split_and!; done || lia.
  - destruct (rg_subs x !! j) as [[seen held]|]; cbn [mbind option_bind]; [|done]. case_match.
    + intros [= <- <-]. split_and!; done || lia.
    + destruct (rg_last x) as [v|]; cbn [mbind option_bind]; [|done]. intros [= <- <-]. cbn. rewrite length_insert. split_and!; done || lia.
  - destruct (rg_subs x !! j) as [[seen held]|]; cbn [mbind option_bind]; [|done]. destruct (held !! h); cbn [mbind option_bind]; [|done].
    intros [= <- <-]. split_and!; done || lia.
  - destruct (rg_subs x !! j) as [[seen held]|]; cbn [mbind option_bind]; [|done]. destruct (held !! h); cbn [mbind option_bind]; [|done].
    intros [= <- <-]. cbn. rewrite length_insert. split_and!; done || lia.
Qed.

(** ** Joining *)

(** A publisher that has just been made takes a place in which nothing was published. *)
Lemma publisher_joins k acquires (y : system) x p pb0 pb (g : segment T) :
  sys_inv k acquires y x -> sy_publishers y !! p = Some pb0 -> pb_prev pb0 = None -> pub_ok k p pb -> pb_prev pb = None ->
  sg_slots g = sg_slots (sy_segment y) -> sg_next_message_id g = sg_next_message_id (sy_segment y) ->
  sg_latest_published_idx g = sg_latest_published_idx (sy_segment y) ->
  (forall i e, zlookup (sg_publishers (sy_segment y)) i = Some e -> 0 <= pe_next_local e < 2 ^ 32 ->
     exists e', zlookup (sg_publishers g) i = Some e' /\ 0 <= pe_next_local e' < 2 ^ 32) ->
  sys_inv k acquires {| sy_segment := g; sy_publishers := <[p := pb]> (sy_publishers y); sy_subscribers := sy_subscribers y |} x.
Proof.
  intros [Hk Hsize Hacq Hpl Hns Hslots Hpubs Hentries Hversion Hlast Hsubs] Hp Hprev Hok Hnone Hsl Hnx Hlat Hent.
  assert (Hrefs : forall i, refs_of (<[p := pb]> (sy_publishers y)) (sy_subscribers y) i = refs_of (sy_publishers y) (sy_subscribers y) i).
  { intros i. unfold refs_of, pub_refs. rewrite (count_insert _ _ _ _ _ Hp). rewrite Hprev, Hnone. cbn. lia. }
  split; cbn [sy_segment sy_publishers sy_subscribers]; rewrite ?zlen_insert, ?Hsl, ?Hnx, ?Hlat; try done.
  - eapply slots_ok_ext; [|done]. intros i _. apply Hrefs.
  - intros q qb. destruct (decide (q = p)) as [->|Hne].
    + rewrite list_lookup_insert_eq by (by eapply lookup_lt_Some). by intros [= <-].
    + rewrite list_lookup_insert_ne by done. apply Hpubs.
  - intros q. rewrite length_insert. intros Hq. destruct (Hentries q Hq) as (e & He & Hb). by eapply Hent.
  - intros Hv. destruct (Hlast Hv) as (q & qb & v & Hq & Hl & Hrest). exists q, qb, v. split; [|done].
    rewrite list_lookup_insert_ne; [done|]. intros ->. congruence.
Qed.

(** A subscriber that has just been made has seen the current version and holds nothing. *)
Lemma subscriber_joins k (o : options) (y : system) x (g : segment T) :
  sys_inv k (max_concurrent_acquires o) y x -> (zlen (sy_subscribers y) + 1) * max_concurrent_acquires o + 2 <= 2 ^ k ->
  zlen (sy_subscribers y) + 1 < 2 ^ 32 ->
  sg_slots g = sg_slots (sy_segment y) -> sg_next_message_id g = sg_next_message_id (sy_segment y) ->
  sg_latest_published_idx g = sg_latest_published_idx (sy_segment y) -> sg_publishers g = sg_publishers (sy_segment y) ->
  sys_inv k (max_concurrent_acquires o)
    {| sy_segment := g; sy_publishers := sy_publishers y;
       sy_subscribers := sy_subscribers y ++ [subscriber_construct o (sg_next_message_id (sy_segment y))] |}
    {| rg_version := rg_version x; rg_last := rg_last x; rg_subs := rg_subs x ++ [(rg_version x, [])] |}.
Proof.
  intros [Hk Hsize Hacq Hpl Hns Hslots Hpubs Hentries Hversion Hlast Hsubs] Hpool Hn Hsl Hnx Hlat Hpb.
  split; cbn [sy_segment sy_publishers sy_subscribers rg_version rg_last rg_subs]; rewrite ?zlen_app, ?zlen_cons, ?zlen_nil, ?Hsl, ?Hnx, ?Hlat, ?Hpb; try done.
  - eapply slots_ok_ext; [|done]. intros i _. unfold refs_of, sub_refs. rewrite zsum_app. cbn. lia.
  - apply Forall2_app; [done|]. constructor; [|constructor]. unfold sub_ok. cbn. destruct Hversion as [Hv Hnext]. split_and!; done || unfold zlen; cbn; lia.
Qed.

(** The state in which a topic is, once its segment has been made: the register and the
    processes of [st]; entries are taken in order. *)
Record topic_inv (k : Z) (o : options) (t : topic T) (st : spec_state T) : Prop := {
  ti_state : sg_state (sy_segment (tp_system t)) = initialized;
  ti_options : sg_options (sy_segment (tp_system t)) = o;
  ti_publishers : zlen (sg_publishers (sy_segment (tp_system t))) = max_publishers o;
  ti_subscribers : zlen (sg_subscribers (sy_segment (tp_system t))) = max_subscribers o;
  ti_joined : zlen (sy_subscribers (tp_system t)) <= max_subscribers o;
  ti_publisher_locks : map snd (tp_publisher_locks t) = seqZ 0 (zlen (sy_publishers (tp_system t)));
  ti_subscriber_locks : map snd (tp_subscriber_locks t) = seqZ 0 (zlen (sy_subscribers (tp_system t)));
  ti_publisher_processes : sp_publishers st = map fst (tp_publisher_locks t);
  ti_subscriber_processes : sp_subscribers st = map fst (tp_subscriber_locks t);
  ti_rest : exists rest, sys_inv k (max_concurrent_acquires o) (complete (tp_system t) rest) (sp_register st) /\
    Forall (fun pb => pb_prev pb = None) rest /\ zlen (sy_publishers (tp_system t)) + zlen rest = max_publishers o
}.

(** As many locks as participants. *)
Lemma locks_length (held : list (Z * Z)) n : 0 <= n -> map snd held = seqZ 0 n -> zlen (map fst held) = n.
Proof. intros Hn H. apply (f_equal zlen) in H. unfold zlen in *. rewrite length_map, length_seqZ in *. lia. Qed.

Lemma locks_join (held : list (Z * Z)) n me : 0 <= n -> map snd held = seqZ 0 n ->
  map snd (held ++ [(me, n)]) = seqZ 0 (n + 1) /\ map fst (held ++ [(me, n)]) = map fst held ++ [me].
Proof. intros Hn H. rewrite !map_app, H. cbn. split; [|done]. by rewrite seqZ_app by lia. Qed.

Lemma may_join_spec processes m : may_join processes m = true -> patient m = true /\ mo_process m ∉ processes.
Proof. unfold may_join. by intros [? ?%bool_decide_eq_true]%andb_true_iff. Qed.

Lemma patient_spec m : patient m = true ->
  existsb (fun waited => waited >=? 1000) (mo_waited m) = true /\ existsb (fun now => u64 (mo_start m - now) >=? one_second_ns) (mo_clocks m) = true.
Proof. by intros [? ?]%andb_true_iff. Qed.

(** A process without a lock gets the entries that nobody has. *)
Lemma entry_free fcntl_lock `{!EntryLocks fcntl_lock} (held : list (Z * Z)) taken me entry :
  map snd held = seqZ 0 taken -> me ∉ map fst held -> 0 <= entry -> fcntl_lock held me entry = (0, taken <=? entry).
Proof.
  intros Hheld Hme He. destruct (Z.leb_spec taken entry) as [Hge|Hlt].
  - apply lock_of_nobody_else. intros p Hp. assert (entry ∈ map snd held) as Hin by (by apply (list_elem_of_fmap_2 snd _ _ Hp)).
    rewrite Hheld in Hin. apply elem_of_seqZ in Hin. lia.
  - apply lock_of_another. assert (entry ∈ map snd held) as Hin by (rewrite Hheld; apply elem_of_seqZ; lia).
    apply list_elem_of_fmap in Hin as ([p e] & -> & Hp). exists p. split; [|done].
    intros ->. apply Hme. by apply (list_elem_of_fmap_2 fst _ _ Hp).
Qed.

Lemma scan_entries_free try_lock taken : (forall entry, 0 <= entry -> try_lock entry = (0, taken <=? entry)) ->
  forall n idx, 0 <= idx -> scan_entries try_lock n idx = if Z.max taken idx <? idx + Z.of_nat n then Some (Z.max taken idx) else None.
Proof.
  intros Hl. induction n as [|n IH]; intros idx Hi; cbn [scan_entries].
  - rewrite (proj2 (Z.ltb_ge _ _)) by lia. done.
  - rewrite Hl by done. cbn [Z.eqb andb]. destruct (Z.leb_spec taken idx).
    + rewrite Z.max_r by lia. gcase; [done|lia].
    + rewrite IH, !Z.max_l by lia. repeat gcase; done || lia.
Qed.

(** The search ends: with the first free entry, or when the clock has moved. *)
Lemma entry_search try_lock max taken start clocks : 0 <= taken -> 0 <= max ->
  (forall entry, 0 <= entry -> try_lock entry = (0, taken <=? entry)) ->
  existsb (fun now => u64 (start - now) >=? one_second_ns) clocks = true ->
  get_new_publisher_entry max one_second_ns start (map (fun now => (try_lock, now)) clocks) =
    Some (if taken <? max then Expected taken else Unexpected timed_out).
Proof.
  intros Ht Hm Hl. induction clocks as [|now clocks IH]; [done|]. cbn [map existsb get_new_publisher_entry]. intros Hc.
  rewrite (scan_entries_free _ taken) by done. replace (Z.max taken 0) with taken by lia.
  rewrite Z.add_0_l, Z2Nat.id by lia. destruct (taken <? max); [done|]. change (u64 one_second_ns) with one_second_ns.
  destruct (u64 (start - now) >=? one_second_ns); [done|]. by apply IH.
Qed.

(** Waiting for a state that does not change. *)
Lemma wait_same s waited : existsb (fun w => w >=? 1000) waited = true ->
  wait_initialized (map (fun w => (s, w)) waited) 1000 = Some (if bool_decide (s = initialized) then Expected tt else Unexpected 1).
Proof.
  induction waited as [|w waited IH]; [done|]. cbn [map existsb wait_initialized]. intros Hc.
  destruct (bool_decide (s = initialized)); [done|]. destruct (w >=? 1000); [done|]. by apply IH.
Qed.

(** [read_at] of the segment is the segment. *)
Lemma read_at_whole c k o (t : topic T) st : options_fit o -> per_publisher_pool_size c o = Ok (2 ^ k) -> topic_inv k o t st ->
  read_at c (sy_segment (tp_system t)) = Ok (sy_segment (tp_system t)).
Proof.
  intros Hfit Hpool [Hst Ho Hp Hs Hj _ _ _ _ (rest & Hinv & _ & Hlen)]. set (y := tp_system t) in *. unfold read_at, message_buffer_size. rewrite Ho, Hpool. cbn.
  assert (Hsl : zlen (sg_slots (sy_segment y)) = 2 ^ k * max_publishers o).
  { rewrite <- Hlen, <- zlen_app. apply (yi_slots _ _ _ _ Hinv). }
  pose proof (yi_size _ _ _ _ Hinv) as Hsz. cbn in Hsz. rewrite zlen_app, Hlen in Hsz. pose proof (yi_k _ _ _ _ Hinv).
  assert (0 < 2 ^ k) by (apply Z.pow_pos_nonneg; lia). pose proof (zlen_nonneg (sg_publishers (sy_segment y))).
  rewrite u32_small by nia. rewrite <- Hp at 1. rewrite <- Hs, <- Hsl, !take_zlen. destruct (sy_segment y). cbn in *. by subst.
Qed.

(** A publisher made for entry [p]. *)
Lemma publisher_constructed c me k o id p (g : segment T) :
  1 <= k <= 31 -> per_publisher_pool_size c o = Ok (2 ^ k) -> sg_options g = o -> 0 <= p -> 2 ^ k * p + 2 ^ k <= zlen (sg_slots g) < 2 ^ 32 ->
  p < zlen (sg_publishers g) ->
  exists pb e, publisher_construct c me o g id p = Ok (pb, sg_set_publishers g (<[Z.to_nat p := e]> (sg_publishers g))) /\
    pub_ok k (Z.to_nat p) pb /\ pb_prev pb = None /\ pe_next_local e = 0 /\ pb_entry_idx pb = p.
Proof.
  intros Hk Hpool Ho Hp Hsl Hpb. assert (0 < 2 ^ k) by (apply Z.pow_pos_nonneg; lia).
  assert (2 ^ k <= 2 ^ 31) by (apply Z.pow_le_mono_r; lia).
  unfold publisher_construct. rewrite Ho, Hpool. cbn [mbind outcome_bind].
  assert (get_index (2 ^ k) p 0 = p * 2 ^ k) as ->.
  { unfold get_index. rewrite Z.land_0_l, Z.add_0_r. rewrite !u32_small by (rewrite ?u32_small; nia). done. }
  unfold subscript. rewrite (u32_small (p * 2 ^ k)) by nia. destruct (zlookup_is_Some (sg_slots g) (p * 2 ^ k)) as [m ->]; [nia|]. cbn [must mbind outcome_bind].
  rewrite zinsert_in by lia. cbn [must mbind outcome_bind]. eexists _, _. split; [done|]. split; [|done].
  unfold pub_ok. cbn. rewrite !Z2Nat.id, !u32_small by nia. done.
Qed.

(** One step of the topic is one of its specification. *)
Section simulation.
Context (c : compiler) (sizeof_T size_bytes required k : Z) (o : options).
Context (fcntl_lock : list (Z * Z) -> Z -> Z -> Z * bool) `{!EntryLocks fcntl_lock}.
Context (Hfit : options_fit o) (Hpool : per_publisher_pool_size c o = Ok (2 ^ k)) (Hreq : required_size_bytes c sizeof_T o = Ok required).
Context (Hroom : max_subscribers o * max_concurrent_acquires o + 2 <= 2 ^ k).
Local Abbreviation topic_step := (topic_step c sizeof_T size_bytes o (Z.to_nat (2 ^ k)) fcntl_lock).
Local Abbreviation topic_run := (topic_run c sizeof_T size_bytes o (Z.to_nat (2 ^ k)) fcntl_lock).

(** What a participant with a lock still to get finds. *)
Lemma next_entry (held : list (Z * Z)) taken max m processes :
  map snd held = seqZ 0 taken -> 0 <= taken -> 0 <= max -> processes = map fst held -> may_join processes m = true ->
  get_new_publisher_entry max one_second_ns (mo_start m) (map (fun now => (fcntl_lock held (mo_process m), now)) (mo_clocks m)) =
    Some (if taken <? max then Expected taken else Unexpected timed_out).
Proof.
  intros Hheld Ht Hm -> [Hp%patient_spec Hme]%may_join_spec. apply entry_search; [done..| |apply Hp].
  intros entry He. by eapply entry_free.
Qed.

(** The state of the invariant is seen at once. *)
Lemma topic_ready t st m processes : topic_inv k o t st -> may_join processes m = true ->
  wait_initialized (map (fun waited => (sg_state (sy_segment (tp_system t)), waited)) (mo_waited m)) 1000 = Some (Expected tt).
Proof.
  intros Hinv [Hp%patient_spec _]%may_join_spec. rewrite wait_same by apply Hp. by rewrite bool_decide_true by apply Hinv.
Qed.

Lemma sim_publisher_joins t st m r st' : topic_inv k o t st -> spec_topic o (JoinPublisher m) st = Some (r, st') ->
  exists t', topic_step (JoinPublisher m) t = Some (Ok (r, t')) /\ topic_inv k o t' st'.
Proof.
  intros Hinv. cbn [spec_topic]. destruct (may_join _ m) eqn:Hjoin; [|done]. intros [= Hspec].
  pose proof Hinv as [Hst Ho Hp Hs Hj Hpl Hsl' Hpp Hsp (rest & Hsys & Hnone & Hlen)]. set (y := tp_system t) in *.
  pose proof (zlen_nonneg (sy_publishers y)) as Hnn. rewrite Hpp, (locks_length _ _ Hnn Hpl) in Hspec.
  cbn [RealTimeTopic.topic_step]. unfold publisher_create. rewrite Hreq. cbn [meets env_shm env_polls env_start env_rounds env_process mbind option_bind].
  fold y. rewrite (topic_ready t st m _ Hinv Hjoin : wait_initialized (map (fun waited => (sg_state (sy_segment y), waited)) (mo_waited m)) 1000 = _). cbn [mbind option_bind].
  rewrite (read_at_whole c k o t st Hfit Hpool Hinv : read_at c (sy_segment y) = _). cbn [mbind option_bind outcome_bind]. fold y.
  rewrite Ho, (next_entry _ (zlen (sy_publishers y)) _ m (sp_publishers st)) by (done || destruct Hfit; lia). cbn [mbind option_bind].
  destruct (Z.ltb_spec (zlen (sy_publishers y)) (max_publishers o)) as [Hlt|Hge]; injection Hspec as <- <-.
  2: { eexists. split; [done|]. done. }
  destruct rest as [|pb0 rest]; [rewrite zlen_nil in Hlen; lia|]. rewrite zlen_cons in Hlen. pose proof (zlen_nonneg rest).
  assert (Hsl : zlen (sg_slots (sy_segment y)) = 2 ^ k * max_publishers o).
  { replace (max_publishers o) with (zlen (sy_publishers (complete y (pb0 :: rest)))) by (cbn; rewrite zlen_app, zlen_cons; lia). apply (yi_slots _ _ _ _ Hsys). }
  pose proof (yi_size _ _ _ _ Hsys) as Hsz. cbn in Hsz. rewrite zlen_app, zlen_cons in Hsz. pose proof (yi_k _ _ _ _ Hsys) as Hk.
  assert (0 < 2 ^ k) by (apply Z.pow_pos_nonneg; lia).
  match goal with |- context [publisher_construct c ?me o ?g ?id ?p] =>
    destruct (publisher_constructed c me k o id p g Hk Hpool) as (pb & e & Hc & Hok & Hprev & He & Hidx); [done|done|cbn; nia|cbn; lia|]; rewrite Hc end.
  cbn [mbind outcome_bind option_bind]. eexists. split; [done|]. rewrite Hidx.
  destruct (locks_join (tp_publisher_locks t) (zlen (sy_publishers y)) (mo_process m) Hnn Hpl) as [Hlocks Hprocs].
  split; cbn -[zlen seqZ]; rewrite ?zlen_insert; try done; [rewrite Hlocks; by rewrite (zlen_app (sy_publishers y))|].
  apply Forall_cons in Hnone as [Hnone0 Hnone]. exists rest. split; [|split; [done|rewrite zlen_app, zlen_cons, zlen_nil; lia]].
  rewrite to_nat_zlen in Hok |- *.
  assert (Hat : sy_publishers (complete y (pb0 :: rest)) !! length (sy_publishers y) = Some pb0) by (cbn; by apply list_lookup_middle).
  match goal with |- sys_inv _ _ (complete {| sy_segment := ?g |} _) _ =>
    generalize (publisher_joins k (max_concurrent_acquires o) (complete y (pb0 :: rest)) (sp_register st) (length (sy_publishers y)) pb0 pb g Hsys Hat Hnone0 Hok Hprev) end.
  unfold complete. cbn -[zlen]. rewrite <- app_assoc. cbn [app]. rewrite (insert_app_r_alt (sy_publishers y)), Nat.sub_diag by lia.
  cbn -[zlen]. intros H'. apply H'; try done. intros i e0 He0 Hb. rewrite <- to_nat_zlen, zlookup_insert by lia. case_decide as Hd; [exists e; rewrite He; done|by exists e0].
Qed.

Lemma sim_subscriber_joins t st m r st' : topic_inv k o t st -> spec_topic o (JoinSubscriber m) st = Some (r, st') ->
  exists t', topic_step (JoinSubscriber m) t = Some (Ok (r, t')) /\ topic_inv k o t' st'.
Proof.
  intros Hinv. cbn [spec_topic]. destruct (may_join _ m) eqn:Hjoin; [|done]. intros [= Hspec].
  pose proof Hinv as [Hst Ho Hp Hs Hj Hpl Hsl' Hpp Hsp (rest & Hsys & Hnone & Hlen)]. set (y := tp_system t) in *.
  pose proof (zlen_nonneg (sy_subscribers y)) as Hnn. rewrite Hsp, (locks_length _ _ Hnn Hsl') in Hspec.
  cbn [RealTimeTopic.topic_step]. unfold subscriber_create. cbn [meets env_shm env_polls env_start env_rounds env_process mbind option_bind].
  fold y. rewrite (topic_ready t st m _ Hinv Hjoin : wait_initialized (map (fun waited => (sg_state (sy_segment y), waited)) (mo_waited m)) 1000 = _). cbn [mbind option_bind].
  rewrite (read_at_whole c k o t st Hfit Hpool Hinv : read_at c (sy_segment y) = _). cbn [sg_options]. fold y.
  unfold get_new_subscriber_entry_idx. rewrite Ho, (next_entry _ (zlen (sy_subscribers y)) _ m (sp_subscribers st)) by (done || destruct Hfit; lia). cbn [mbind option_bind].
  destruct (Z.ltb_spec (zlen (sy_subscribers y)) (max_subscribers o)) as [Hlt|Hge]; injection Hspec as <- <-.
  2: { eexists. split; [done|]. split; try done. exists rest. split; [|done]. by destruct Hsys. }
  destruct (locks_join (tp_subscriber_locks t) (zlen (sy_subscribers y)) (mo_process m) Hnn Hsl') as [Hlocks Hprocs].
  eexists. split; [done|]. split; cbn -[zlen seqZ]; try done; rewrite ?zlen_app, ?zlen_cons, ?zlen_nil; [lia|by rewrite Hlocks|].
  exists rest. split; [|done]. destruct Hfit as (_ & Hsub & Hacq & _).
  match goal with |- sys_inv _ _ (complete {| sy_segment := ?g |} _) _ => apply (subscriber_joins k o (complete y rest) (sp_register st) g Hsys) end; cbn -[zlen]; try done; nia.
Qed.

Lemma sim_happens t st e r st' : topic_inv k o t st -> rg_version (sp_register st) < 2 ^ 61 -> spec_topic o (Happens e) st = Some (r, st') ->
  exists t', topic_step (Happens e) t = Some (Ok (r, t')) /\ topic_inv k o t' st' /\ rg_version (sp_register st') <= rg_version (sp_register st) + 1.
Proof.
  intros Hinv Hv. pose proof Hinv as [Hst Ho Hp Hs Hj Hpl Hsl' Hpp Hsp (rest & Hsys & Hnone & Hlen)]. set (y := tp_system t) in *.
  pose proof (zlen_nonneg (sy_publishers y)) as Hnn. cbn [spec_topic]. intros ([r0 x1] & Hspec & [= <- <-])%bind_Some.
  assert (length (sp_publishers st) = length (sy_publishers y)) as Hl0.
  { pose proof (locks_length _ _ Hnn Hpl) as H. rewrite <- Hpp in H. unfold zlen in H. lia. }
  rewrite Hl0 in Hspec.
  destruct (spec_step_more (length (sy_publishers y)) (length (sy_publishers (complete y rest))) _ _ _ _ _ ltac:(cbn; rewrite length_app; lia) Hspec)
    as (Hmore & Hpub & Hver & Hsl).
  destruct (rt_sim_run k (max_concurrent_acquires o) _ [e] (complete y rest) _ [r0] x1 Hsys eq_refl) as (z & Hrun & Hsys').
  { rewrite zlen_cons, zlen_nil. lia. }
  { cbn [spec_run]. by rewrite Hmore. }
  cbn [run] in Hrun. destruct (step _ e (complete y rest)) as [[[r1 z1]| |]|] eqn:Hst'; cbn in Hrun; try done. injection Hrun as -> ->.
  destruct (step_complete _ _ _ _ _ _ Hpub Hst') as (y' & Hy & -> & Hl). cbn [RealTimeTopic.topic_step]. fold y. rewrite Hy. cbn.
  eexists. split; [done|]. split; [|cbn; lia].
  destruct (step_shape _ _ _ _ _ Hy) as (S1 & S2 & S3 & S4).
  assert (Hz : zlen (sy_subscribers y') = zlen (sy_subscribers y)).
  { pose proof (Forall2_length _ _ _ (yi_subs _ _ _ _ Hsys)) as L1. pose proof (Forall2_length _ _ _ (yi_subs _ _ _ _ Hsys')) as L2. cbn in L1, L2. unfold zlen. lia. }
  assert (Hz' : zlen (sy_publishers y') = zlen (sy_publishers y)) by (unfold zlen; by rewrite Hl).
  split; cbn -[zlen seqZ]; rewrite ?S1, ?S2, ?S3, ?S4, ?Hz, ?Hz'; try done.
  exists rest. done.
Qed.

Lemma sim_topic h t st r st' : topic_inv k o t st -> rg_version (sp_register st) < 2 ^ 61 -> spec_topic o h st = Some (r, st') ->
  exists t', topic_step h t = Some (Ok (r, t')) /\ topic_inv k o t' st' /\ rg_version (sp_register st') <= rg_version (sp_register st) + 1.
Proof.
  intros Hinv Hv Hspec. destruct h as [m|m|e]; [| |by apply sim_happens].
  - destruct (sim_publisher_joins t st m r st' Hinv Hspec) as (t' & Hstep & Hinv'). exists t'. split_and!; [done..|].
    cbn [spec_topic] in Hspec. destruct (may_join _ m); [|done]. destruct (_ <? _); simplify_eq; cbn; lia.
  - destruct (sim_subscriber_joins t st m r st' Hinv Hspec) as (t' & Hstep & Hinv'). exists t'. split_and!; [done..|].
    cbn [spec_topic] in Hspec. destruct (may_join _ m); [|done]. destruct (_ <? _); simplify_eq; cbn; lia.
Qed.

Lemma sim_topic_run hs : forall t st rs st',
  topic_inv k o t st -> rg_version (sp_register st) + zlen hs < 2 ^ 61 -> spec_topic_run o hs st = Some (rs, st') ->
  exists t', topic_run hs t = Some (Ok (rs, t')) /\ topic_inv k o t' st'.
Proof.
  induction hs as [|h hs IH]; intros t st rs st' Hinv Hv Hspec; cbn [spec_topic_run RealTimeTopic.topic_run] in *; [simplify_eq; eauto|].
  rewrite zlen_cons in Hv. pose proof (zlen_nonneg hs).
  apply bind_Some in Hspec as ([r st1] & Hs1 & Hspec). apply bind_Some in Hspec as ([rs' st2] & Hs2 & Hspec). simplify_eq.
  destruct (sim_topic h t st r st1 Hinv ltac:(lia) Hs1) as (t1 & Hstep & Hinv1 & Hver). rewrite Hstep. cbn [mbind option_bind].
  destruct (IH t1 st1 rs' st' Hinv1 ltac:(lia) Hs2) as (t' & Hrun & Hrest). rewrite Hrun. cbn. eauto.
Qed.
End simulation.

(** ** The first publisher makes the segment *)
Lemma construct_publishers_frame c who n : forall p (g : segment T) pbs g', construct_publishers c who n p g = Ok (pbs, g') ->
  (exists l, g' = sg_set_publishers g l) /\ Forall (fun pb => pb_prev pb = None) pbs.
Proof.
  induction n as [|n IH]; intros p g pbs g'; cbn [construct_publishers]; [intros [= <- <-]; split; [by exists (sg_publishers g); destruct g|constructor]|].
  intros ([pb g1] & Hc & Hrest)%bind_Ok. apply bind_Ok in Hrest as ([pbs1 g2] & Hr & [= <- <-]). destruct (IH _ _ _ _ Hr) as [[l ->] Hnone].
  unfold publisher_construct in Hc. apply bind_Ok in Hc as (own & _ & Hc). apply bind_Ok in Hc as (pool & _ & Hc).
  apply bind_Ok in Hc as (m & _ & Hc). apply bind_Ok in Hc as (pubs & _ & [= <- <-]). split; [by exists l|by constructor].
Qed.

Lemma init_fields c sizeof_T size_bytes o (g : segment T) : init_at c sizeof_T false false size_bytes o = Ok (Expected g) ->
  sg_state g = initialized /\ sg_options g = o /\ sg_publishers g = replicate (Z.to_nat (max_publishers o)) default_publisher_entry /\
  sg_subscribers g = replicate (Z.to_nat (max_subscribers o)) default_subscriber_entry.
Proof.
  unfold init_at. intros (r & _ & H)%bind_Ok. case_match; [done|]. apply bind_Ok in H as (cap & _ & H). case_match; [done|]. by injection H as <-.
Qed.

Definition empty_topic (g : segment T) : topic T :=
  {| tp_system := {| sy_segment := g; sy_publishers := []; sy_subscribers := [] |}; tp_publisher_locks := []; tp_subscriber_locks := [] |}.
Definition nobody : spec_state T := {| sp_publishers := []; sp_subscribers := []; sp_register := register_start 0 |}.

Lemma topic_made c sizeof_T size_bytes required o : options_fit o -> required_size_bytes c sizeof_T o = Ok required -> required <= size_bytes ->
  exists k g, init_at (T := T) c sizeof_T false false size_bytes o = Ok (Expected g) /\ per_publisher_pool_size c o = Ok (2 ^ k) /\
    max_subscribers o * max_concurrent_acquires o + 2 <= 2 ^ k /\ topic_inv k o (empty_topic g) nobody.
Proof.
  intros Hfit Hreq Hsize. destruct (start_inv (T := T) c (fun _ => default_process_data) sizeof_T size_bytes o 0 Hfit) as (k & y & Hs & _ & _ & Hpool & Hinv & Hlen).
  { destruct Hfit. lia. }
  { intros r Hr. rewrite Hreq in Hr. by injection Hr as <-. }
  destruct (pool_ok c o Hfit) as (k' & _ & Hpool' & Hge & _). rewrite Hpool in Hpool'. injection Hpool' as Hpool'. rewrite <- Hpool' in Hge.
  unfold start in Hs. apply bind_Ok in Hs as ([g|] & Hg & Hs); [|done]. apply bind_Ok in Hs as ([pbs g1] & Hc & [= <-]).
  destruct (construct_publishers_frame _ _ _ _ _ _ _ Hc) as [[l ->] Hnone]. destruct (init_fields _ _ _ _ _ Hg) as (F1 & F2 & F3 & F4).
  exists k, g. split; [done|]. split; [done|]. split; [done|]. destruct Hfit as (Hp & Hsub & _). cbn [sy_publishers] in Hlen.
  split; cbn [empty_topic tp_system sy_segment sy_publishers sy_subscribers]; rewrite ?F3, ?F4, ?zlen_replicate by lia; try done; [rewrite zlen_nil; lia|].
  exists pbs. unfold complete. cbn [sy_segment sy_publishers sy_subscribers app]. split; [|split; [done|rewrite zlen_nil; unfold zlen; lia]].
  destruct Hinv as [Hk Hsz Hacq Hpl Hns Hslots Hpubs Hentries Hversion Hlast Hsubs]. split; cbn [sy_segment sy_publishers sy_subscribers] in *; try done.
  intros p Hlt. exists default_publisher_entry. split; [|cbn; lia]. rewrite F3, zlookup_nat. apply lookup_replicate_2. lia.
Qed.

Section first.
Context (c : compiler) (sizeof_T size_bytes required : Z) (o : options).
Context (fcntl_lock : list (Z * Z) -> Z -> Z -> Z * bool) `{!EntryLocks fcntl_lock}.
Context (Hfit : options_fit o) (Hreq : required_size_bytes c sizeof_T o = Ok required).
Local Abbreviation create m g := (publisher_create c sizeof_T false false o (meets size_bytes fcntl_lock [] m g)).

(** On memory that does not hold a topic the first [create] does what it does on a segment just made. *)
Lemma first_create k (g0 g : segment T) m : per_publisher_pool_size c o = Ok (2 ^ k) -> topic_inv k o (empty_topic g) nobody ->
  sg_state g0 <> initialized -> init_at c sizeof_T false false size_bytes o = Ok (Expected g) -> patient m = true ->
  create m g0 = create m g.
Proof.
  intros Hpool Hinv Hst Hg [Hp _]%patient_spec. unfold publisher_create. rewrite Hreq.
  cbn [meets env_shm env_polls env_start env_rounds env_process]. rewrite !wait_same by done.
  rewrite bool_decide_false, (bool_decide_true (sg_state g = initialized)) by (done || apply (ti_state _ _ _ _ Hinv)). cbn [mbind option_bind].
  pose proof (read_at_whole c k o _ _ Hfit Hpool Hinv) as Hread. cbn [empty_topic tp_system sy_segment] in Hread. rewrite Hg, Hread. done.
Qed.

(** The first publisher: it makes the segment and is on its own in the topic. *)
Lemma first_publisher (g0 : segment T) m : required <= size_bytes -> sg_state g0 <> initialized -> patient m = true ->
  exists k pb g t, per_publisher_pool_size c o = Ok (2 ^ k) /\ max_subscribers o * max_concurrent_acquires o + 2 <= 2 ^ k /\
    create m g0 = Some (Ok (Expected (pb, g))) /\
    t = {| tp_system := {| sy_segment := g; sy_publishers := [pb]; sy_subscribers := [] |};
           tp_publisher_locks := [(mo_process m, pb_entry_idx pb)]; tp_subscriber_locks := [] |} /\
    topic_inv k o t {| sp_publishers := [mo_process m]; sp_subscribers := []; sp_register := register_start 0 |}.
Proof.
  intros Hsize Hst Hm. destruct (topic_made c sizeof_T size_bytes required o Hfit Hreq Hsize) as (k & g & Hg & Hpool & Hroom & Hinv).
  destruct (sim_publisher_joins c sizeof_T size_bytes required k o fcntl_lock Hfit Hpool Hreq _ _ m Joined
    {| sp_publishers := [mo_process m]; sp_subscribers := []; sp_register := register_start 0 |} Hinv) as (t & Hj & Hinv1).
  { cbn [spec_topic nobody sp_publishers sp_subscribers sp_register]. unfold may_join. rewrite Hm, bool_decide_true by apply not_elem_of_nil.
    cbn [andb]. rewrite zlen_nil, (proj2 (Z.ltb_lt 0 (max_publishers o))) by (destruct Hfit; lia). done. }
  cbn [topic_step empty_topic tp_system tp_publisher_locks tp_subscriber_locks sy_segment sy_publishers sy_subscribers] in Hj.
  rewrite (first_create k g0 g m) by done.
  destruct (publisher_create _ _ _ _ _ _) as [[[[pb g1]|e]| |]|]; cbn in Hj; try done. injection Hj as <-.
  exists k, pb, g1. by eexists.
Qed.
End first.

(** C17 A real-time topic from its first publisher on.  On memory that is large enough and
    does not hold a topic, a publisher's [create] makes the segment; after that publishers
    and subscribers join through their [create] at any time, as many as the options say, later ones
    are refused with [timed_out], and what all of them do in between has the
    replies of a register, of which a new subscriber has seen the current version: it
    is never given a message from before it joined.  This is for participants in
    processes of their own: no process makes two publishers or two subscribers (a
    process is not refused the lock of an entry that it has itself, see
    [same_process_same_entry]), and [fcntl] excludes the others as POSIX says
    ([EntryLocks]).  Calls follow one another; the clock of each is arbitrary but moves far
    enough for its waiting loops to end ([patient]), and the two compare-exchanges of
    [init_at] do not fail spuriously. *)
Theorem real_time_topic_refines_register (c : compiler) (sizeof_T size_bytes required : Z) (o : options)
    (fcntl_lock : list (Z * Z) -> Z -> Z -> Z * bool) `{!EntryLocks fcntl_lock} (g0 : segment T) (m : moment) (hs : list (topic_event T))
    (rs : list (topic_reply T)) (st : spec_state T) :
  options_fit o -> required_size_bytes c sizeof_T o = Ok required -> required <= size_bytes -> sg_state g0 <> initialized -> zlen hs < 2 ^ 60 ->
  spec_topic_run o (JoinPublisher m :: hs) nobody = Some (rs, st) ->
  exists t pool, per_publisher_pool_size c o = Ok pool /\
    topic_run c sizeof_T size_bytes o (Z.to_nat pool) fcntl_lock (JoinPublisher m :: hs) (empty_topic g0) = Some (Ok (rs, t)) /\
    map fst (tp_publisher_locks t) = sp_publishers st /\ length (sy_publishers (tp_system t)) = length (sp_publishers st) /\
    map fst (tp_subscriber_locks t) = sp_subscribers st /\ length (sy_subscribers (tp_system t)) = length (sp_subscribers st).
Proof.
  intros Hfit Hreq Hsize Hst Hhs Hspec. cbn [spec_topic_run spec_topic nobody sp_publishers sp_subscribers sp_register] in Hspec.
  unfold may_join in Hspec. destruct (patient m) eqn:Hm; [|done]. rewrite bool_decide_true in Hspec by apply not_elem_of_nil. cbn [andb] in Hspec.
  rewrite zlen_nil, (proj2 (Z.ltb_lt _ _)) in Hspec by (destruct Hfit; lia). cbn [mbind option_bind app] in Hspec.
  apply bind_Some in Hspec as ([rs1 st1] & Hspec & [= <- <-]).
  destruct (first_publisher c sizeof_T size_bytes required o fcntl_lock Hfit Hreq g0 m Hsize Hst Hm) as (k & pb & g & t1 & Hpool & Hroom & Hc & Ht1 & Hinv).
  destruct (sim_topic_run c sizeof_T size_bytes required k o fcntl_lock Hfit Hpool Hreq Hroom hs _ _ rs1 st1 Hinv) as (t & Hrun & Hinv');
    [cbn [sp_register rg_version register_start]; lia|exact Hspec|].
  exists t, (2 ^ k). split; [done|]. split.
  { cbn [topic_run topic_step empty_topic tp_system tp_publisher_locks tp_subscriber_locks sy_segment sy_publishers sy_subscribers app].
    rewrite Hc. cbn [mbind option_bind outcome_bind]. rewrite <- Ht1. by rewrite Hrun. }
  destruct Hinv' as [_ _ _ _ _ Hpl Hsl -> -> _]. apply locks_length in Hpl, Hsl; [|apply zlen_nonneg..]. unfold zlen in *. split_and!; done || lia.
Qed.

(** The same over the registry: when no segment of the topic exists and fresh memory does not
    look like a topic, a publisher gets what it needs or reports what the registry or
    the file lock report, and the topic it has made behaves as said. *)
Theorem new_real_time_topic (moved_from : string -> string) (tmp : string) (c : compiler) (sizeof_T required : Z) (o : options)
    (fcntl_lock : list (Z * Z) -> Z -> Z -> Z * bool) `{!EntryLocks fcntl_lock} (g0 : segment T) (m : moment)
    (rg : registry) (id : string) (w : os) (h : history) (hs : list (topic_event T)) (rs : list (topic_reply T)) (st : spec_state T) :
  rg_entries rg !! id = None -> no_segments w -> options_fit o -> required_size_bytes c sizeof_T o = Ok required -> required <= 2 ^ 62 ->
  sg_state g0 <> initialized -> patient m = true -> zlen hs < 2 ^ 60 ->
  spec_topic_run o hs {| sp_publishers := [mo_process m]; sp_subscribers := []; sp_register := register_start 0 |} = Some (rs, st) ->
  match (prun w h (real_time_topic moved_from tmp c sizeof_T false false o (fun _ => g0) (meets 0 fcntl_lock [] m g0) rg id)).1 with
  | Returned (Some (Ok (Expected (pb, g))), rg') => exists p t pool, rg_entries rg' !! id = Some p /\ required <= segment_bytes rg' p /\
      topic_run c sizeof_T (segment_bytes rg' p) o (Z.to_nat pool) fcntl_lock hs
        {| tp_system := {| sy_segment := g; sy_publishers := [pb]; sy_subscribers := [] |};
           tp_publisher_locks := [(mo_process m, pb_entry_idx pb)]; tp_subscriber_locks := [] |} = Some (Ok (rs, t))
  | Returned (Some (Ok (Unexpected (SystemError _))), rg') => rg' = rg
  | Returned _ => False
  | Threw e => exists errno, e = system_error errno
  end.
Proof.
  intros Hid Hw Hfit Hreq Hmax Hst Hm Hhs Hspec. unfold real_time_topic. rewrite Hreq, prun_bind.
  generalize (wp_sound _ _ w h (get_shm_entry_ok moved_from tmp rg id required)).
  pose proof (new_segment_bytes moved_from tmp rg) as Hn. specialize (Hn) with (id := id) (size := required) (w := w) (h := h).
  assert (Hpos : 0 <= required).
  { unfold required_size_bytes in Hreq. apply bind_Ok in Hreq as (pool & _ & [= <-]). apply wrap_range. lia. }
  destruct (prun w h _) as [[[[p|e] rg']|e] t]; cbn [fst snd] in *; [|intros [-> _]; unfold publisher_create; by rewrite Hreq|done].
  intros Hget. assert (Hp : rg_entries rg' !! id = Some p).
  { destruct Hget as [(? & _)|(_ & -> & [m1 ->])]; [congruence|]. cbn. apply lookup_insert_eq. }
  destruct (Hn rg' p Hid Hw) as [H1 H2]; [lia|done|].
  destruct (first_publisher c sizeof_T (segment_bytes rg' p) required o fcntl_lock Hfit Hreq g0 m H1 Hst Hm) as (k & pb & g & t1 & Hpool & Hroom & Hc & Ht1 & Hinv).
  cbn [prun fst]. change (in_segment (fun _ => g0) (meets 0 fcntl_lock [] m g0) (Expected p) rg') with (meets (segment_bytes rg' p) fcntl_lock [] m g0). rewrite Hc.
  destruct (sim_topic_run c sizeof_T (segment_bytes rg' p) required k o fcntl_lock Hfit Hpool Hreq Hroom hs _ _ rs st Hinv) as (y & Hrun & _);
    [cbn [sp_register rg_version register_start]; lia|exact Hspec|].
  rewrite <- Ht1. by exists p, y, (2 ^ k).
Qed.
End keeps.

(** The locks of [fcntl] as a function: an entry is refused while another process has it. *)
Definition posix_locks (held : list (Z * Z)) (me entry : Z) : Z * bool :=
  (0, negb (existsb (fun h => negb (h.1 =? me) && (h.2 =? entry)) held)).

#[export] Instance posix_locks_obey : EntryLocks posix_locks.
Proof.
  split; intros held me entry H; unfold posix_locks; f_equal.
  - apply negb_false_iff, existsb_exists. destruct H as (p & Hne & Hin). exists (p, entry). split; [by apply list_elem_of_In|].
    cbn. rewrite Z.eqb_refl, andb_true_r. by apply negb_true_iff, Z.eqb_neq.
  - apply negb_true_iff, not_true_iff_false. intros ([p e] & Hin%list_elem_of_In & He)%existsb_exists. cbn in He.
    apply andb_true_iff in He as [Hne%negb_true_iff%Z.eqb_neq ->%Z.eqb_eq]. by apply Hne, H.
Qed.

(** Process [p] joins: two looks at the state, two rounds of the search. *)
Definition moment_of (p : Z) : moment :=
  {| mo_process := p; mo_timestamp := 1000; mo_waited := [0; 1001]; mo_start := 50; mo_clocks := [50; 51] |}.

(** Two publishers and a subscriber of two each, then one that is refused.  The
    subscriber is in the process of the second publisher. *)
Definition topic_demo : list (topic_event Z) :=
  [Happens (EPublish 0 10); JoinSubscriber (moment_of 2); Happens (EFetch 0); JoinPublisher (moment_of 2); Happens (EPublish 1 11); Happens (EFetch 0);
   JoinPublisher (moment_of 3); Happens (ERead 0 0)].
Definition demo_memory : segment Z :=
  {| sg_next_message_id := 0; sg_latest_published_idx := 0; sg_state := uninitialized; sg_next_publisher_id := 0; sg_next_subscriber_id := 0;
     sg_options := demo_options; sg_publishers := []; sg_subscribers := []; sg_slots := [] |}.

Lemma real_time_topic_refines_register_witness : exists t pool,
  topic_run GNUC 192 4096 demo_options (Z.to_nat pool) posix_locks (JoinPublisher (moment_of 1) :: topic_demo) (empty_topic demo_memory) =
    Some (Ok ([Joined; Replies RDone; Joined; Replies (RFetched (NoMessage no_message_available)); Joined; Replies RDone; Replies (RFetched (Message 11));
               Refused (Errc timed_out); Replies (RValue 11)], t)) /\ map fst (tp_publisher_locks t) = [1; 2].
Proof.
  assert (Hfit : options_fit demo_options) by (unfold options_fit; cbn; lia).
  destruct (real_time_topic_refines_register GNUC 192 4096 3776 demo_options posix_locks demo_memory (moment_of 1) topic_demo
    [Joined; Replies RDone; Joined; Replies (RFetched (NoMessage no_message_available)); Joined; Replies RDone; Replies (RFetched (Message 11));
     Refused (Errc timed_out); Replies (RValue 11)]
    {| sp_publishers := [1; 2]; sp_subscribers := [2]; sp_register := {| rg_version := 2; rg_last := Some 11; rg_subs := [(2, [11])] |} |})
    as (t & pool & _ & Hrun & Hp & _); [exact Hfit|reflexivity|lia|discriminate|by vm_compute|by vm_compute|].
  exists t, pool. split; [exact Hrun|exact Hp].
Defined.

(** A second publisher in the process of the first one is not refused the lock of the entry
    that the process has: it gets the same entry and with it the same slots, and of a limit
    of two publishers a third one finds room. *)
Example same_process_same_entry : exists t,
  topic_run GNUC 192 4096 demo_options 8 posix_locks
    [JoinPublisher (moment_of 1); JoinPublisher (moment_of 1); JoinPublisher (moment_of 2)] (empty_topic demo_memory) =
    Some (Ok ([Joined; Joined; Joined], t)) /\
  map (fun pb => (pb_entry_idx pb, pb_area pb)) (sy_publishers (tp_system t)) = [(0, (0, 8)); (0, (0, 8)); (1, (8, 8))].
Proof. eexists. split; [vm_compute; reflexivity|]. vm_compute. reflexivity. Qed.
