(* ===== verification/Logging.v ===== *)
(** Logging: [utils/logging.h].

    The header decides at compile time, by the macro [LOGGING_LEVEL], which messages are
    handed to the library spdlog at all; what becomes of them there is left to it.  A
    call of the header is the list of calls of spdlog it makes. *)
From S2P Require Import Prelude.

(* @source include/ipcpp/utils/logging.h 10-16 LOG_LEVEL_TRACE *)
Inductive level : Type := trace_level | debug_level | info_level | warn_level | err_level | critical_level | off_level.

(** The values of the macros, and of the enumerators both variants of [level] have. *)
(* @source include/ipcpp/utils/logging.h 31-40 level *)
Definition level_value (l : level) : Z :=
  match l with
  | trace_level => 0 | debug_level => 1 | info_level => 2 | warn_level => 3 | err_level => 4 | critical_level => 5 | off_level => 6
  end.

(** [LOGGING_LEVEL] when the build does not set it. *)
(* @source include/ipcpp/utils/logging.h 18-20 LOGGING_LEVEL *)
Definition default_level : level := info_level.

(** What is logged: a value, or a format string with its arguments. *)
Inductive message (V F : Type) : Type :=
| Value (msg : V)
| Formatted (s : F).
Arguments Value {V F} msg.
Arguments Formatted {V F} s.

Section logging.
Context {V F : Type}.

(** The calls of spdlog: [spdlog::set_level] and the functions named after the levels. *)
Inductive spdlog_call : Type :=
| spdlog_set_level (l : level)
| spdlog_log (l : level) (m : message V F).

(** The value of the macro [LOGGING_LEVEL]. *)
Context (LOGGING_LEVEL : level).

(* @source include/ipcpp/utils/logging.h 21-25 LOGGING_LEVEL *)
Definition includes_spdlog : bool := negb (level_value LOGGING_LEVEL =? level_value off_level).

(* @source include/ipcpp/utils/logging.h 48-52 set_level *)
Definition set_level (lvl : level) : list spdlog_call :=
  if negb (level_value LOGGING_LEVEL =? level_value off_level) then [spdlog_set_level lvl] else [].

(** [#if LOGGING_LEVEL <= l]. *)
Definition compiled (l : level) : bool := level_value LOGGING_LEVEL <=? level_value l.

(* @source include/ipcpp/utils/logging.h 54-59 trace *)
Definition trace (msg : V) : list spdlog_call := if compiled trace_level then [spdlog_log trace_level (Value msg)] else [].
(* @source include/ipcpp/utils/logging.h 61-66 debug *)
Definition debug (msg : V) : list spdlog_call := if compiled debug_level then [spdlog_log debug_level (Value msg)] else [].
(* @source include/ipcpp/utils/logging.h 68-73 info *)
Definition info (msg : V) : list spdlog_call := if compiled info_level then [spdlog_log info_level (Value msg)] else [].
(* @source include/ipcpp/utils/logging.h 75-80 warn *)
Definition warn (msg : V) : list spdlog_call := if compiled warn_level then [spdlog_log warn_level (Value msg)] else [].
(* @source include/ipcpp/utils/logging.h 82-87 error *)
Definition error (msg : V) : list spdlog_call := if compiled err_level then [spdlog_log err_level (Value msg)] else [].
(* @source include/ipcpp/utils/logging.h 89-94 critical *)
Definition critical (msg : V) : list spdlog_call := if compiled critical_level then [spdlog_log critical_level (Value msg)] else [].

(* @source include/ipcpp/utils/logging.h 96-103 trace *)
Definition trace_format (s : F) : list spdlog_call := if compiled trace_level then [spdlog_log trace_level (Formatted s)] else [].
(* @source include/ipcpp/utils/logging.h 105-112 debug *)
Definition debug_format (s : F) : list spdlog_call := if compiled debug_level then [spdlog_log debug_level (Formatted s)] else [].
(* @source include/ipcpp/utils/logging.h 114-121 info *)
Definition info_format (s : F) : list spdlog_call := if compiled info_level then [spdlog_log info_level (Formatted s)] else [].
(* @source include/ipcpp/utils/logging.h 123-130 warn *)
Definition warn_format (s : F) : list spdlog_call := if compiled warn_level then [spdlog_log warn_level (Formatted s)] else [].
(* @source include/ipcpp/utils/logging.h 132-139 error *)
Definition error_format (s : F) : list spdlog_call := if compiled err_level then [spdlog_log err_level (Formatted s)] else [].
(* @source include/ipcpp/utils/logging.h 141-148 critical *)
Definition critical_format (s : F) : list spdlog_call := if compiled critical_level then [spdlog_log critical_level (Formatted s)] else [].

(** * A program that logs *)
Inductive statement : Type :=
| SetLevel (l : level)
| Log (l : level) (m : message V F).

(** The function a statement calls; there is none for the level [off]. *)
Definition call (s : statement) : list spdlog_call :=
  match s with
  | SetLevel l => set_level l
  | Log l (Value msg) =>
    match l with
    | trace_level => trace msg | debug_level => debug msg | info_level => info msg
    | warn_level => warn msg | err_level => error msg | critical_level => critical msg | off_level => []
    end
  | Log l (Formatted s) =>
    match l with
    | trace_level => trace_format s | debug_level => debug_format s | info_level => info_format s
    | warn_level => warn_format s | err_level => error_format s | critical_level => critical_format s | off_level => []
    end
  end.

Definition run (ss : list statement) : list spdlog_call := ss ≫= call.

(** The statements a build keeps. *)
Definition kept (s : statement) : option spdlog_call :=
  match s with
  | SetLevel l => if includes_spdlog then Some (spdlog_set_level l) else None
  | Log off_level _ => None
  | Log l m => if compiled l then Some (spdlog_log l m) else None
  end.

Lemma call_kept (s : statement) : call s = option_list (kept s).
Proof.
  destruct s as [l|l m]; unfold call, kept, includes_spdlog, set_level; [by destruct (negb _)|].
  destruct l, m; cbv [trace debug info warn error critical trace_format debug_format info_format warn_format error_format critical_format];
    try done; by destruct (compiled _).
Qed.

(** spdlog is handed the messages of [LOGGING_LEVEL] and above, in order and as they
    are, both kinds alike; a build at level [off], which does not include it, calls nothing of it. *)
Theorem logging_filters (ss : list statement) :
  run ss = omap kept ss /\ (includes_spdlog = false -> run ss = []) /\
  forall l m, spdlog_log l m ∈ run ss <-> Log l m ∈ ss /\ l <> off_level /\ level_value LOGGING_LEVEL <= level_value l.
Proof.
  assert (Hrun : run ss = omap kept ss).
  { unfold run. induction ss as [|s ss IH]; [done|]. cbn. rewrite call_kept, IH. by destruct (kept s). }
  split; [done|]. rewrite Hrun. split.
  - unfold includes_spdlog. intros Hoff. apply negb_false_iff, Z.eqb_eq in Hoff. clear Hrun. induction ss as [|s ss IH]; [done|]. cbn.
    rewrite IH. destruct s as [l|l m]; cbn; unfold includes_spdlog, compiled; rewrite Hoff; [done|]. by destruct l.
  - intros l m. rewrite list_elem_of_omap. split.
    + intros (s & Hs & Hk). destruct s as [l'|l' m']; cbn in Hk; [by destruct includes_spdlog|].
      unfold compiled in Hk. destruct l'; try done; case_match; try done; injection Hk as <- <-; (split; [done|]); (split; [done|]); by apply Z.leb_le.
    + intros (Hin & Hoff & Hle). exists (Log l m). split; [done|]. cbn. unfold compiled. rewrite (proj2 (Z.leb_le _ _)) by done. by destruct l.
Qed.
End logging.
